(* ===== verification/_CoqProject ===== *)
-Q . S2P
Prelude.v
Bytes.v
Externs.v
Text.v
Str.v
Chars.v
Belnap.v
Identity.v
Node.v
Float.v
Edge.v
Trailers.v
Frontmatter.v
Index.v
Hnsw.v
HnswProps.v
Grant.v
AuditLog.v
Kv.v
Shred.v
Store.v
StoreSpec.v
StoreRefine.v
StoreWrite.v
StoreContents.v
StoreReach.v
Supersession.v
StoreInterface.v
Rocks.v
StoreProps.v
Join.v
Assert.v
Sync.v
SyncProps.v
SyncAnchor.v
Query.v
QueryProps.v
Search.v
SearchProps.v
Display.v
SyncChain.v
Transport.v
TransportProps.v
Git.v
Docs.v
Chunk.v
Ingest.v
IngestBuild.v
IngestProps.v
ChainIngest.v
ChainIngestProps.v
Federation.v
Control.v
Corpus.v
CorpusBuild.v
CorpusImport.v
CorpusBuildProps.v
CorpusImportProps.v
GwAuth.v
Scene.v
Gateway.v
GatewayProps.v
GatewayGate.v
McpRender.v
Mcp.v
McpProps.v
McpWrites.v
McpSurface.v
Daemon.v
DaemonProps.v
GatewayRoutes.v
GatewayRouteProps.v
Worker.v
Sample.v
Witness.v
WitnessRead.v
WitnessIngest.v
WitnessGateway.v
WitnessFed.v
WitnessCorpus.v
