(* ===== verification/Prelude.v ===== *)
(** * citrate-memories: a verification development

    citrate-memories keeps the memory of software projects as a content-addressed
    graph: nodes (commits, decisions, findings, claims) and typed edges between
    them, on two planes.  The Derived plane is a deterministic projection of
    repositories; the Asserted plane holds signed claims of principals.  This
    library models the Rust crates under [src/crates] that carry that graph's own
    logic and proves what makes them correct.

    ** The parts and how they interact

    [mem-core] defines nodes, edges, identity and confidence.  [mem-store] keeps
    them in a key-value backend, optionally sealed under one key per tenant, and
    owns supersession (a newer node retiring an older one).  [mem-assert] signs and
    verifies assertions and merges diffs into a store on behalf of a principal.
    [mem-authz] holds capability grants and the audit chain.  [mem-sync] exchanges
    tenants between replicas: export, the authorized merge of a bundle, merkle
    anchors and their record on a chain.  [mem-index] embeds texts and searches
    vectors; [mem-query] reads: storylines, as-of snapshots, neighbourhoods,
    verification, search.  [mem-ingest] projects git history, documents and
    branches into the store.  [mem-mcp] serves all of this to one session, line by
    line; [mem-gateway] serves it over HTTP to the members of an organisation,
    hands MCP lines to a session of [mem-mcp] under a narrowed grant, and ingests
    repositories in the background.  [mem-corpus] builds a corpus of documents and
    skills for release and imports it into a store on first run.

    ** The files

    Shared:
    - [Prelude]: results, the state-and-error monad ([stm], [let!], [let?]), Rust's
      [Ord], stable sorting, the tactic [inv_result], the hint database [mem].
    - [Bytes], [Text], [Str], [Chars], [Float]: byte strings, fixed-size arrays,
      machine integers, tagged frames and their injectivity; UTF-8, decimals, lines;
      Rust's string methods and how they cut a text into characters; [f32] and [f64]
      arithmetic.
    - [Externs]: the libraries the code calls, as classes of operations with the
      laws relied on: blake3, hex, ed25519-dalek, XChaCha20-Poly1305, serde_json,
      getrandom.  No law says a hash is injective: theorems that need it conclude
      with a collision of two named inputs instead.
    - [Display]: error texts and the JSON values the servers build.

    The core:
    - [Belnap], [Identity], [Node], [Edge]: [mem-core/src/{belnap,identity,node,edge}.rs].
    - [Grant], [AuditLog]: [mem-authz/src/{grant,audit}.rs].  The audit log runs on a
      disk of three files whose calls may fail and tear a write ([IoOracle]).
    - [Kv], [Shred], [Store]: [mem-store/src/{kv,shred,lib}.rs].  [KvStore]/[KvLaws] is
      the interface of a backend and [InMemoryKv] an instance; [MemoryDagStore] is
      the backend, the sealing mode and the random source.
    - [StoreSpec], [StoreRefine], [StoreWrite]: the abstract store (tables of cells,
      each plain or sealed under a tenant's key generation, and a key ring), the
      relation [store_rel] of a concrete store to it, and the refinement of every
      read and write.  [StoreContents]: the readable contents, [holds], and the
      effect of every write on them.  [StoreReach]: the breadth-first search.
    - [Supersession]: [apply_supersession], [confirm_edge] and [set_node_status] of
      [mem-store/src/lib.rs], with the step relations they implement.
    - [StoreInterface]: the class [MemStore] with its laws, which clients are proved
      against; [dag_store_laws] discharges it for every backend, sealed or not.
    - [Rocks]: [mem-store/src/rocks.rs] over the rocksdb library, a parameter; it is a
      second instance of [KvStore]/[KvLaws], with the constructors of a store on it.
    - [StoreProps]: the properties of the store itself.
    - [Join], [Assert]: [mem-assert/src/{join,lib}.rs].
    - [Sync], [SyncProps], [SyncAnchor]: [mem-sync/src/lib.rs]; [SyncChain]:
      [mem-sync/src/chain.rs], over a JSON-RPC client; [Transport], [TransportProps]:
      [mem-sync/src/transport.rs], a connection as the bytes it delivers, how it ends
      and what is written back.

    Reading:
    - [Index], [Hnsw], [HnswProps]: [mem-index/src/{embed,index,hnsw}.rs].
    - [Query], [QueryProps], [Search], [SearchProps]: [mem-query/src/lib.rs].

    Ingestion:
    - [Trailers], [Frontmatter], [Git], [Docs]:
      [mem-ingest/src/{trailers,frontmatter,git,docs}.rs], over what git prints and
      what the work tree holds.
    - [Ingest], [IngestBuild], [IngestProps]: [mem-ingest/src/lib.rs].
    - [Federation]: [mem-ingest/src/federation.rs]; [ChainIngest], [ChainIngestProps]:
      [mem-ingest/src/chain.rs], over a source of blocks.

    The corpus ([mem-corpus]):
    - [Chunk]: [cite.rs], [chunk.rs]; [Corpus]: [lib.rs], [spec.rs], [lock.rs],
      [manifest.rs], [walk.rs], [bundle.rs], [vectors.rs]; [CorpusBuild]: [build.rs];
      [CorpusImport]: [import.rs], [progress.rs]; [CorpusBuildProps],
      [CorpusImportProps]: their theorems.

    Serving:
    - [McpRender], [Mcp]: [mem-mcp/src/lib.rs] (the texts and the advertised tools,
      the session); [McpProps], [McpWrites], [McpSurface]: its theorems.
    - [Daemon], [DaemonProps]: [mem-mcp/src/main.rs] with the key intake of [lib.rs], and
      [mem-gateway/src/main.rs], over the answers of the operating system.
    - [Control]: [mem-gateway/src/{control,allowlist,webhook}.rs];
      [GwAuth]: [auth.rs]; [Scene]: [scene.rs]; [Gateway] and [GatewayRoutes]:
      [http.rs] (the gate and the limits; the routes); [GatewayProps],
      [GatewayGate], [GatewayRouteProps]: their theorems; [Worker]:
      [ingest_worker.rs].

    Witnesses:
    - [Sample] and the files [Witness*]: concrete instances of the libraries that keep
      all the laws together, and every theorem with hypotheses applied at a concrete
      input.

    Methods that take [&self] over a backend with interior mutability are functions
    from the state to the new state and a result, so what was written before an
    error stays written.  Integers are [Z] at their machine width ([u64] saturating
    and [u32] wrapping operations written out); collections are [list], [gmap] and
    [gset]; floats are their bit patterns with the arithmetic of IEEE 754.  The wall
    clock, the random source, git and the file system are arguments; in the servers
    every reading of the clock or the disk advances a step counter, so two readings
    of one request may differ.

    ** What the theorems show

    - Identity ([compute_id_binds], [signing_preimage_binds]): the bytes hashed for a
      node's id, and signed for a grant, determine every field they are meant to
      bind, and the id ignores all others.
    - The store ([put_node_get_node], [add_edge_adjacency], [shred_tenant_forgets],
      [reachable_via_correct]): reads return what was written in both storage modes;
      the two adjacencies agree; quarantine does not demote (and where it does:
      within one batch); a shredded tenant stays unreadable whatever key is minted
      later; reachability terminates and is exact.  [rocks_agrees_memory]: the durable and
      the in-memory backend answer alike.
    - Supersession ([apply_supersession_correct], [supersession_invariant],
      [confirm_edge_correct]): the outcome of every call, in the order of its
      guards; acyclicity, "an active node has no successor" and ordered validity
      intervals along every run; idempotence; confirmation.
    - Assertions and diffs ([apply_diff_protects_authors], [gossip_converges]): a diff
      cannot change what its caller did not author, everything new verifies, a
      refused diff changes nothing; the join of nodes converges.
    - Federation ([merge_bundle_gate], [merge_bundle_confined],
      [merge_bundle_acyclic], [tenant_root_commits], [anchor_tenant_verifies],
      [checkpoint_external_root_faithful], [handle_conn_gated], [credential_roundtrip]):
      the gate and the confinement of a merge,
      acyclicity against a hostile peer, roots and anchors, checkpoints on a chain;
      where the merge of edges and the leaf encoding fall short.
    - Authorization and audit ([check_ok_iff], [append_reopens],
      [append_crash_recovers], [open_commits_history]): exactly when a grant allows
      an operation; durability, crash recovery, truncation and tampering of the
      audit log, and the failed append that makes it unreadable.
    - Reads ([in_flight_correct], [search_brute_exact], [search_cached_transparent],
      [hnsw_build_wf], [hnsw_search_answers]): history and in-flight work told apart,
      exact search in [f32], a cache that changes no answer, an index that is well
      formed and always answers.
    - Ingestion ([parse_commit_log_roundtrip], [ingest_retires_authorized],
      [ingest_idempotent], [derive_deterministic], [ingest_branches_captures],
      [reap_branches_live]): the log is read back whatever messages hold; only
      listed authors retire anything; a second run changes nothing.
      [parse_manifest_roundtrip], [federation_ingested]: a manifest is read back whatever
      its texts hold, and its graph is in the store; [walk_events_resumable],
      [catalog_ingested]: a block walk always ends, keeps every committed block and
      resumes at the first missing one.
    - The corpus ([chunk_text_partition], [built_corpus_verifies], [import_only_adds],
      [import_once]): chunks lose nothing and keep to their bound; what is built and
      written is accepted; an import only adds, however it ends, and one that succeeds
      is complete and happens once.
    - The session ([handle_line_gated], [merge_diff_authorizes],
      [confirm_needs_second_party], [meta_grant_refused], [tools_advertised]): no line
      changes the store without a recorded authorization; a proposal takes effect
      only through a second party.
    - The processes ([startup_order], [named_key_file_decides], [newest_checkpoints_kept],
      [import_command_reports], [gateway_believes]): the store's lock before the socket and the verified
      audit chain before the first session; a named key file decides the identity or
      nothing starts; the newest checkpoints are kept; the import command says how it
      ended (and where it does not); a gateway that starts takes a request for a
      principal only by a token of the configured issuer or by an acknowledged
      development header.
    - The gateway ([gate_fail_closed], [gate_admits], [attenuate_grant_intersection],
      [connect_token_never_writes], [http_assert_exact], [neighbor_routes_confined],
      [slots_reachable], [burst_bounded], [save_atomic], [webhook_enqueues_authentic]):
      the gate fails closed and opens for members, tokens only narrow, routes write
      exactly what they say and show only what the caller may read, limits hold on
      every interleaving, the control file survives every failure.
    - The worker ([drain_empties_queue], [reconcile_complete]): a drain ends and a
      sweep misses no drifted repository.

    ** Fuel

    [bfs] gets one more unit than there are edge rows and [dfs] one more than there
    are edges: every node enters the queue once, every edge pushes one stack entry
    ([bfs_spec], [dfs_spec] prove it is enough).  [merkle_loop] gets the number of
    leaves, which each level halves ([merkle_loop_total]).  The greedy descent and the
    beam of the graph index get the number of nodes plus one, since both only move to
    nodes not visited before ([hnsw_build_wf], [hnsw_search_answers] show they end).
    UTF-8 decoding gets the length of its input and consumes at least one byte per
    step.  [power_iterate] runs a fixed number of rounds, as the source does.
    [read_headers] gets the header bound plus one, as every line takes a byte of it
    ([read_headers_fuel]); [walk_blocks] gets the number of heights
    ([walk_events_resumable]); [walk_files] gets one more than the depth the source
    descends; [chunks_of] gets the length of its list ([chunks_of_join]).

    ** Not modelled

    The rocksdb library itself, a parameter with its documented laws; the JSON text of
    values (serde is a class with round-trip laws); the transformer embedder, which runs
    an external model (the embedder is a parameter); the accept loop of the daemon and
    its threads (a session's lines run in turn); the command line of the corpus builder,
    which only calls what is modelled; the HTTP router and sockets, timer loops, and
    [mem-gateway/src/oidc.rs], which the crate does not declare.  The web application and
    the client scripts are not Rust. *)

From Stdlib Require Export Strings.Byte Strings.Ascii.
From stdpp Require Export sorting.
From stdpp Require Export base numbers countable strings gmap list.

Declare Scope mem_scope.
Delimit Scope mem_scope with mem.
Open Scope mem_scope.
Open Scope Z_scope.

Create HintDb mem.

(** ** Results and the state-and-error monad

    [result] is Rust's [Result].  A method that takes [&self] over a backend
    with interior mutability is a function from the backend state to the new
    state and a result: what was written before an error stays written. *)

Inductive result (E A : Type) : Type :=
| Ok (a : A)
| Err (e : E).
Arguments Ok {E A} a.
Arguments Err {E A} e.

#[export] Instance result_eq_dec {E A} `{EqDecision E, EqDecision A} : EqDecision (result E A).
Proof. solve_decision. Defined.

Definition rbind {E A B} (r : result E A) (k : A → result E B) : result E B :=
  match r with Ok a => k a | Err e => Err e end.

Definition map_err {E F A} (f : E → F) (r : result E A) : result F A :=
  match r with Ok a => Ok a | Err e => Err (f e) end.

Definition rmap {E A B} (f : A → B) (r : result E A) : result E B :=
  match r with Ok a => Ok (f a) | Err e => Err e end.

Definition ok_or {E A} (o : option A) (e : E) : result E A :=
  match o with Some a => Ok a | None => Err e end.

Definition rok {E A} (r : result E A) : option A :=
  match r with Ok a => Some a | Err _ => None end.

Definition is_ok {E A} (r : result E A) : bool :=
  match r with Ok _ => true | Err _ => false end.

Definition stm (S E A : Type) : Type := S → S * result E A.

Definition sret {S E A} (a : A) : stm S E A := λ s, (s, Ok a).
Definition sfail {S E A} (e : E) : stm S E A := λ s, (s, Err e).
Definition sbind {S E A B} (m : stm S E A) (k : A → stm S E B) : stm S E B :=
  λ s, match m s with
       | (s', Ok a) => k a s'
       | (s', Err e) => (s', Err e)
       end.
(** A read: the state is consulted, never changed. *)
Definition sread {S E A} (f : S → result E A) : stm S E A := λ s, (s, f s).
Definition slift {S E A} (r : result E A) : stm S E A := λ s, (s, r).
Definition smap_err {S E F A} (f : E → F) (m : stm S E A) : stm S F A :=
  λ s, match m s with (s', r) => (s', map_err f r) end.

Notation "'let?' x ':=' r 'in' k" := (rbind r (λ x, k))
  (at level 10, x pattern, r at level 100, k at level 200) : mem_scope.
Notation "'let!' x ':=' m 'in' k" := (sbind m (λ x, k))
  (at level 10, x pattern, m at level 100, k at level 200) : mem_scope.

(** A [for] loop over a slice whose body may fail: the fold stops at the
    first error. *)
Fixpoint rfold {E A B} (f : B → A → result E B) (b : B) (l : list A) : result E B :=
  match l with
  | [] => Ok b
  | a :: l => rbind (f b a) (λ b', rfold f b' l)
  end.

Fixpoint sfold {S E A B} (f : B → A → stm S E B) (b : B) (l : list A) : stm S E B :=
  match l with
  | [] => sret b
  | a :: l => sbind (f b a) (λ b', sfold f b' l)
  end.

Lemma rbind_ok {E A B} (r : result E A) (k : A → result E B) b :
  rbind r k = Ok b ↔ ∃ a, r = Ok a ∧ k a = Ok b.
Proof. destruct r; simpl; naive_solver. Qed.

Lemma map_err_ok {E F A} (f : E → F) (r : result E A) a :
  map_err f r = Ok a ↔ r = Ok a.
Proof. destruct r; naive_solver. Qed.

Lemma sbind_inv {S E A B} (m : stm S E A) (k : A → stm S E B) s s' r :
  sbind m k s = (s', r) ↔
  (∃ s1 a, m s = (s1, Ok a) ∧ k a s1 = (s', r)) ∨ (∃ e, m s = (s', Err e) ∧ r = Err e).
Proof. unfold sbind. destruct (m s) as [s1 [a|e]]; naive_solver. Qed.

Lemma sbind_ok {S E A B} (m : stm S E A) (k : A → stm S E B) s s1 a :
  m s = (s1, Ok a) → sbind m k s = k a s1.
Proof. unfold sbind. by intros ->. Qed.

(** Peel binds off the hypotheses until the calls they sequence are exposed. *)
Ltac inv_result :=
  repeat match goal with
  | H : Ok _ = Ok _ |- _ => injection H as H; try subst
  | H : Err _ = Err _ |- _ => injection H as H; try subst
  | H : Ok _ = Err _ |- _ => discriminate H
  | H : Err _ = Ok _ |- _ => discriminate H
  | H : rbind _ _ = Ok _ |- _ => apply rbind_ok in H as (? & ? & ?)
  | H : map_err _ _ = Ok _ |- _ => apply map_err_ok in H
  | H : (_, _) = (_, _) |- _ => injection H as ? ?; try subst
  end.

Lemma rfold_app {E A B} (f : B → A → result E B) b l k :
  rfold f b (l ++ k) = rbind (rfold f b l) (λ b', rfold f b' k).
Proof. revert b. induction l as [|a l IH]; intros b; simpl; [done|]. destruct (f b a); simpl; auto. Qed.

Lemma rfold_inv {E A B} (f : B → A → result E B) (P : B → Prop) b l b' :
  P b → (∀ b a b', a ∈ l → P b → f b a = Ok b' → P b') → rfold f b l = Ok b' → P b'.
Proof.
  revert b. induction l as [|a l IH]; simpl; intros b Hb Hf Hr; [by injection Hr as <-|].
  apply rbind_ok in Hr as (b1 & H1 & Hr). eapply IH; [| |done].
  - eapply Hf; [|done|done]. apply list_elem_of_here.
  - intros b2 a2 b3 Ha. apply Hf. by apply list_elem_of_further.
Qed.

Lemma rfold_unit_ok {E A} (f : A → result E unit) l :
  rfold (λ _ a, f a) tt l = Ok tt → ∀ a, a ∈ l → f a = Ok tt.
Proof.
  induction l as [|x l IH]; simpl; intros Hr a Ha; [by apply not_elem_of_nil in Ha|].
  apply rbind_ok in Hr as ([] & Hx & Hr). apply elem_of_cons in Ha as [->|Ha]; auto.
Qed.

Lemma rfold_errs {E A B} (P : E → Prop) (f : B → A → result E B) z l e :
  (∀ y a x, f y a = Err x → P x) → rfold f z l = Err e → P e.
Proof.
  intros Hf. revert z. induction l as [|a l IH]; intros z Hr; [done|]. cbn [rfold] in Hr.
  destruct (f z a) as [y|x] eqn:Hx; [by apply (IH y)|]. injection Hr as <-. by eapply Hf.
Qed.

Lemma rfold_unit_all {E A} (f : A → result E unit) l : (∀ a, f a = Ok tt) → rfold (λ _ a, f a) tt l = Ok tt.
Proof. intros Hf. induction l as [|a l IH]; [done|]. cbn [rfold]. by rewrite Hf. Qed.

(** ** Comparison, as Rust's [Ord]

    [cmp] is [Ord::cmp]: integers by value, byte strings and vectors
    lexicographically (a proper prefix is smaller), [None] below [Some],
    tuples by their components in order. *)

Class RustOrd (A : Type) := cmp : A → A → comparison.
#[global] Hint Mode RustOrd ! : typeclass_instances.

Class RustOrdLaws (A : Type) `{RustOrd A} : Prop := {
  cmp_eq : ∀ a b : A, cmp a b = Eq ↔ a = b;
  cmp_opp : ∀ a b : A, cmp b a = CompOpp (cmp a b);
  cmp_trans : ∀ a b c : A, cmp a b = Lt → cmp b c = Lt → cmp a c = Lt;
}.

Definition ord_leb {A} `{RustOrd A} (a b : A) : bool :=
  match cmp a b with Gt => false | _ => true end.
Definition ord_ltb {A} `{RustOrd A} (a b : A) : bool :=
  match cmp a b with Lt => true | _ => false end.

(** [Ordering::then_with] *)
Definition then_cmp (c d : comparison) : comparison :=
  match c with Eq => d | _ => c end.

#[export] Instance Z_ord : RustOrd Z := Z.compare.
#[export] Instance byte_ord : RustOrd byte := λ a b, N.compare (Byte.to_N a) (Byte.to_N b).
#[export] Instance ascii_ord : RustOrd ascii := λ a b, N.compare (Ascii.N_of_ascii a) (Ascii.N_of_ascii b).

Fixpoint list_cmp {A} `{RustOrd A} (l k : list A) : comparison :=
  match l, k with
  | [], [] => Eq
  | [], _ :: _ => Lt
  | _ :: _, [] => Gt
  | a :: l, b :: k => then_cmp (cmp a b) (list_cmp l k)
  end.
#[export] Instance list_ord {A} `{RustOrd A} : RustOrd (list A) := list_cmp.

#[export] Instance string_ord : RustOrd string :=
  λ s t, cmp (String.list_ascii_of_string s) (String.list_ascii_of_string t).

#[export] Instance option_ord {A} `{RustOrd A} : RustOrd (option A) :=
  λ o p, match o, p with
         | None, None => Eq
         | None, Some _ => Lt
         | Some _, None => Gt
         | Some a, Some b => cmp a b
         end.

#[export] Instance prod_ord {A B} `{RustOrd A, RustOrd B} : RustOrd (A * B) :=
  λ p q, then_cmp (cmp p.1 q.1) (cmp p.2 q.2).

#[export] Instance Z_ord_laws : RustOrdLaws Z.
Proof.
  split; unfold cmp, Z_ord; intros.
  - apply Z.compare_eq_iff.
  - apply Z.compare_antisym.
  - rewrite Z.compare_lt_iff in *. lia.
Qed.

Lemma inj_ord_laws {A B} `{RustOrdLaws B} (f : A → B) (_ : RustOrd A) :
  (∀ a b, f a = f b → a = b) → (∀ a b : A, cmp a b = cmp (f a) (f b)) → RustOrdLaws A.
Proof.
  intros Hinj Hf. split; intros *; rewrite ?Hf.
  - rewrite cmp_eq. naive_solver.
  - apply cmp_opp.
  - apply cmp_trans.
Qed.

#[export] Instance N_ord : RustOrd N := N.compare.
#[export] Instance N_ord_laws : RustOrdLaws N.
Proof.
  apply (inj_ord_laws Z.of_N); [lia|]. intros. symmetry. apply N2Z.inj_compare.
Qed.
#[export] Instance byte_ord_laws : RustOrdLaws byte.
Proof.
  apply (inj_ord_laws Byte.to_N); [|done]. intros a b Hab.
  apply (f_equal Byte.of_N) in Hab. rewrite !Byte.of_to_N in Hab. naive_solver.
Qed.
#[export] Instance ascii_ord_laws : RustOrdLaws ascii.
Proof.
  apply (inj_ord_laws Ascii.N_of_ascii); [|done]. intros a b Hab.
  apply (f_equal Ascii.ascii_of_N) in Hab. by rewrite !Ascii.ascii_N_embedding in Hab.
Qed.

Lemma then_cmp_trans {A} `{RustOrdLaws A} (a1 a2 a3 : A) (b1 b2 b3 : comparison) :
  (b1 = Lt → b2 = Lt → b3 = Lt) →
  then_cmp (cmp a1 a2) b1 = Lt → then_cmp (cmp a2 a3) b2 = Lt → then_cmp (cmp a1 a3) b3 = Lt.
Proof.
  intros Hb H12 H23.
  destruct (cmp a1 a2) eqn:E1; simpl in H12; [|clear H12|done].
  - apply cmp_eq in E1 as ->. destruct (cmp a2 a3); simpl in *; auto.
  - destruct (cmp a2 a3) eqn:E2; simpl in H23; [|clear H23|done].
    + apply cmp_eq in E2 as ->. by rewrite E1.
    + by rewrite (cmp_trans _ _ _ E1 E2).
Qed.

#[export] Instance list_ord_laws {A} `{RustOrdLaws A} : RustOrdLaws (list A).
Proof.
  split; unfold cmp, list_ord.
  - intros l. induction l as [|a l IH]; intros [|b k]; simpl; [naive_solver..|].
    destruct (cmp a b) eqn:E; simpl.
    + apply cmp_eq in E as ->. rewrite IH. naive_solver.
    + split; [done|]. intros [= <- _]. by rewrite (proj2 (cmp_eq a a)) in E.
    + split; [done|]. intros [= <- _]. by rewrite (proj2 (cmp_eq a a)) in E.
  - intros l. induction l as [|a l IH]; intros [|b k]; simpl; [done..|].
    rewrite (cmp_opp a b), IH. by destruct (cmp a b).
  - intros l. induction l as [|a l IH]; intros [|b k] [|c m]; simpl; try done.
    apply then_cmp_trans, IH.
Qed.

#[export] Instance string_ord_laws : RustOrdLaws string.
Proof.
  apply (inj_ord_laws String.list_ascii_of_string); [|done]. intros a b Hab.
  apply (f_equal String.string_of_list_ascii) in Hab.
  by rewrite !String.string_of_list_ascii_of_string in Hab.
Qed.

#[export] Instance option_ord_laws {A} `{RustOrdLaws A} : RustOrdLaws (option A).
Proof.
  split; unfold cmp, option_ord.
  - intros [a|] [b|]; rewrite ?cmp_eq; naive_solver.
  - intros [a|] [b|]; simpl; try done. apply cmp_opp.
  - intros [a|] [b|] [c|]; simpl; try done. apply cmp_trans.
Qed.

#[export] Instance prod_ord_laws {A B} `{RustOrdLaws A, RustOrdLaws B} : RustOrdLaws (A * B).
Proof.
  split; unfold cmp, prod_ord.
  - intros [a b] [a' b']; simpl. destruct (cmp a a') eqn:E; simpl.
    + apply cmp_eq in E as ->. rewrite cmp_eq. naive_solver.
    + split; [done|]. intros [= <- _]. by rewrite (proj2 (cmp_eq a a)) in E.
    + split; [done|]. intros [= <- _]. by rewrite (proj2 (cmp_eq a a)) in E.
  - intros [a b] [a' b']; simpl. rewrite (cmp_opp a a'), (cmp_opp b b'). by destruct (cmp a a').
  - intros [a b] [a' b'] [a'' b'']; simpl. apply then_cmp_trans, cmp_trans.
Qed.

Section ord_lemmas.
Context {A : Type} `{RustOrdLaws A}.
Implicit Types a b c : A.

Lemma cmp_refl a : cmp a a = Eq.
Proof. by apply cmp_eq. Qed.

Lemma ord_leb_refl a : ord_leb a a = true.
Proof. unfold ord_leb. by rewrite cmp_refl. Qed.

Lemma ord_leb_total a b : ord_leb a b = true ∨ ord_leb b a = true.
Proof. unfold ord_leb. rewrite (cmp_opp a b). destruct (cmp a b); auto. Qed.

Lemma ord_leb_antisym a b : ord_leb a b = true → ord_leb b a = true → a = b.
Proof.
  unfold ord_leb. rewrite (cmp_opp a b).
  destruct (cmp a b) eqn:E; simpl; try done. by apply cmp_eq in E.
Qed.

Lemma ord_leb_trans a b c : ord_leb a b = true → ord_leb b c = true → ord_leb a c = true.
Proof.
  unfold ord_leb.
  destruct (cmp a b) eqn:E1; try done; [apply cmp_eq in E1 as ->; done|].
  destruct (cmp b c) eqn:E2; try done; [apply cmp_eq in E2 as <-; by rewrite E1|].
  by rewrite (cmp_trans _ _ _ E1 E2).
Qed.

Lemma ord_leb_false a b : ord_leb a b = false → ord_leb b a = true.
Proof. destruct (ord_leb_total a b); congruence. Qed.

Lemma ord_ltb_leb a b : ord_ltb a b = negb (ord_leb b a).
Proof. unfold ord_ltb, ord_leb. rewrite (cmp_opp a b). by destruct (cmp a b). Qed.
End ord_lemmas.

(** The smaller of two values under [Ord], the left one on a tie. *)
Definition ord_min {A} `{RustOrd A} (a b : A) : A := if ord_leb a b then a else b.

Section ord_min.
Context {A : Type} `{RustOrdLaws A}.
Implicit Types a b c : A.

Lemma ord_min_idem a : ord_min a a = a.
Proof. unfold ord_min. by destruct (ord_leb a a). Qed.

Lemma ord_min_comm a b : ord_min a b = ord_min b a.
Proof.
  unfold ord_min. destruct (ord_leb a b) eqn:E1, (ord_leb b a) eqn:E2; try done.
  - by apply ord_leb_antisym.
  - apply ord_leb_false in E1. congruence.
Qed.

Lemma ord_min_assoc a b c : ord_min (ord_min a b) c = ord_min a (ord_min b c).
Proof.
  unfold ord_min. destruct (ord_leb a b) eqn:E1, (ord_leb b c) eqn:E2; rewrite ?E1; try done.
  - by rewrite (ord_leb_trans _ _ _ E1 E2).
  - destruct (ord_leb a c) eqn:E3; [|done]. apply ord_leb_false in E1, E2.
    assert (ord_leb c a = true) as E4 by eauto using ord_leb_trans.
    by apply ord_leb_antisym.
Qed.
End ord_min.

(** ** Stable sorting and deduplication, as [slice::sort_by_key] and
    [Vec::dedup_by] do them *)

Section sorting.
Context {A K : Type} `{RustOrd K} (key : A → K).

Fixpoint insert_by_key (a : A) (l : list A) : list A :=
  match l with
  | [] => [a]
  | b :: l' => if ord_leb (key a) (key b) then a :: l else b :: insert_by_key a l'
  end.

(** Inserting from the right, each element before the equal ones already
    there, keeps equal elements in their original order: the sort is stable. *)
Definition sort_by_key (l : list A) : list A := foldr insert_by_key [] l.

Context `{EqDecision K}.

(** Drop an element whose key equals that of the last one kept. *)
Fixpoint dedup_from (a : A) (l : list A) : list A :=
  match l with
  | [] => []
  | b :: l' => if decide (key b = key a) then dedup_from a l' else b :: dedup_from b l'
  end.
Definition dedup_by_key (l : list A) : list A :=
  match l with [] => [] | a :: l' => a :: dedup_from a l' end.
End sorting.

Section sorting_lemmas.
Context {A K : Type} `{RustOrdLaws K} (key : A → K) `{EqDecision K}.

Definition key_le (a b : A) : Prop := ord_leb (key a) (key b) = true.
Definition key_lt (a b : A) : Prop := key_le a b ∧ key a ≠ key b.

Lemma insert_by_key_perm a l : insert_by_key key a l ≡ₚ a :: l.
Proof.
  induction l as [|b l IH]; simpl; [done|]. destruct (ord_leb _ _); [done|].
  rewrite IH. apply perm_swap.
Qed.

Lemma sort_by_key_perm l : sort_by_key key l ≡ₚ l.
Proof. induction l as [|a l IH]; simpl; [done|]. by rewrite insert_by_key_perm, IH. Qed.

Lemma elem_of_sort_by_key a l : a ∈ sort_by_key key l ↔ a ∈ l.
Proof. by rewrite sort_by_key_perm. Qed.

Lemma length_sort_by_key l : length (sort_by_key key l) = length l.
Proof. by rewrite sort_by_key_perm. Qed.

Lemma insert_by_key_sorted a l :
  StronglySorted key_le l → StronglySorted key_le (insert_by_key key a l).
Proof.
  induction l as [|b l IH]; simpl; intros Hl; [by repeat constructor|].
  destruct (ord_leb (key a) (key b)) eqn:E.
  - constructor; [done|]. inversion Hl as [|?? Hl' Hb]; subst. constructor; [done|].
    eapply Forall_impl; [exact Hb|]. intros x. unfold key_le. eauto using ord_leb_trans.
  - inversion Hl as [|?? Hl' Hb]; subst. constructor; [by apply IH|].
    rewrite insert_by_key_perm. constructor; [by apply ord_leb_false|done].
Qed.

Lemma sort_by_key_sorted l : StronglySorted key_le (sort_by_key key l).
Proof. induction l; simpl; [constructor|]. by apply insert_by_key_sorted. Qed.

(** A list that is already sorted is left as it is. *)
Lemma sort_by_key_id l : StronglySorted key_le l → sort_by_key key l = l.
Proof.
  induction 1 as [|a l Hl IH Ha]; simpl; [done|]. rewrite IH.
  destruct l as [|b l]; simpl; [done|]. inversion Ha as [|?? Hab]; subst.
  unfold key_le in Hab. by rewrite Hab.
Qed.

Context (key_inj : ∀ a b : A, key a = key b → a = b).

Lemma elem_of_dedup_from a x l :
  x ∈ a :: dedup_from key a l ↔ x ∈ a :: l.
Proof.
  revert a. induction l as [|b l IH]; intros a; simpl; [done|].
  case_decide as E.
  - apply key_inj in E as ->. rewrite IH. set_solver.
  - rewrite elem_of_cons, IH. set_solver.
Qed.

Lemma elem_of_dedup_by_key x l : x ∈ dedup_by_key key l ↔ x ∈ l.
Proof. destruct l; [done|]. apply elem_of_dedup_from. Qed.

Lemma dedup_from_sorted a l :
  StronglySorted key_le (a :: l) → StronglySorted key_lt (a :: dedup_from key a l).
Proof.
  revert a. induction l as [|b l IH]; intros a Hs; simpl; [by repeat constructor|].
  inversion Hs as [|?? Hl Ha]; subst. inversion Ha as [|?? Hab Ha']; subst.
  inversion Hl as [|?? Hl' Hb]; subst.
  case_decide as E; [apply IH; by constructor|].
  constructor; [by apply IH|]. apply Forall_forall. intros x Hx.
  rewrite elem_of_dedup_from in Hx.
  assert (key_le b x) as Hbx.
  { apply elem_of_cons in Hx as [->|Hx]; [apply ord_leb_refl|].
    by apply (proj1 (Forall_forall _ _) Hb). }
  split; [by eapply ord_leb_trans|]. intros Heq. apply E. unfold key_le in *.
  rewrite Heq in Hab |- *. by apply ord_leb_antisym.
Qed.

Lemma dedup_by_key_sorted l :
  StronglySorted key_le l → StronglySorted key_lt (dedup_by_key key l).
Proof. destruct l; [constructor|]. apply dedup_from_sorted. Qed.

(** Two strictly sorted lists with the same elements are the same list. *)
Lemma key_lt_sorted_unique l1 l2 :
  StronglySorted key_lt l1 → StronglySorted key_lt l2 →
  (∀ x, x ∈ l1 ↔ x ∈ l2) → l1 = l2.
Proof.
  intros Hs. revert l2. induction Hs as [|a l1 Hs1 IH Ha]; intros l2 Hs2 Hmem.
  { destruct l2 as [|b l2]; [done|]. exfalso.
    apply (not_elem_of_nil b), Hmem, list_elem_of_here. }
  destruct Hs2 as [|b l2 Hs2 Hb].
  { exfalso. apply (not_elem_of_nil a), Hmem, list_elem_of_here. }
  rewrite Forall_forall in Ha, Hb.
  assert (a = b) as <-.
  { destruct (proj1 (elem_of_cons _ _ _) (proj1 (Hmem a) (list_elem_of_here _ _))) as [->|Hab]; [done|].
    destruct (proj1 (elem_of_cons _ _ _) (proj2 (Hmem b) (list_elem_of_here _ _))) as [->|Hba]; [done|].
    destruct (Ha _ Hba) as [H1 _], (Hb _ Hab) as [H2 _].
    by apply key_inj, ord_leb_antisym. }
  f_equal. apply IH; [done|]. intros x. specialize (Hmem x). rewrite !elem_of_cons in Hmem.
  split; intros Hx.
  - destruct (proj1 Hmem (or_intror Hx)) as [->|]; [|done]. by destruct (Ha _ Hx).
  - destruct (proj2 Hmem (or_intror Hx)) as [->|]; [|done]. by destruct (Hb _ Hx).
Qed.

Lemma key_lt_dedup_id l : StronglySorted key_lt l → dedup_by_key key (sort_by_key key l) = l.
Proof.
  intros Hl. apply key_lt_sorted_unique; [apply dedup_by_key_sorted, sort_by_key_sorted|done|].
  intros x. by rewrite elem_of_dedup_by_key, elem_of_sort_by_key.
Qed.
End sorting_lemmas.

(** Mapping a sorted list keeps it sorted where the order is kept. *)
Lemma StronglySorted_omap {A B} (R : A → A → Prop) (R' : B → B → Prop) (f : A → option B) l :
  (∀ x y a b, x ∈ l → y ∈ l → R x y → f x = Some a → f y = Some b → R' a b) →
  StronglySorted R l → StronglySorted R' (omap f l).
Proof.
  intros Hf Hl. induction Hl as [|x l Hl IH Hx]; [constructor|]. simpl.
  assert (StronglySorted R' (omap f l)) as IH'.
  { apply IH. intros y z a b Hy Hz. apply Hf; by apply list_elem_of_further. }
  destruct (f x) as [a|] eqn:Ha; [|done]. constructor; [done|]. apply Forall_forall.
  intros b (y & Hy & Hb)%list_elem_of_omap. rewrite Forall_forall in Hx.
  eapply Hf; [apply list_elem_of_here|by apply list_elem_of_further|by apply Hx|done|done].
Qed.
