(* ===== verification/Bytes.v ===== *)
(** * Bytes, fixed-size arrays, little-endian integers and TLV frames

    The byte-level vocabulary the components share: [Vec<u8>] as [list byte],
    [[u8; n]] as a list with its length, [str::as_bytes], [uN::to_le_bytes],
    the [tag ‖ len(LE u64) ‖ bytes] frames the repository feeds to every
    hasher and signer, and the saturating arithmetic on [u64]. *)

From S2P Require Import Prelude.

Abbreviation bytes := (list byte).

#[export] Instance byte_eq_dec : EqDecision byte := Byte.byte_eq_dec.

#[export] Instance byte_countable : Countable byte :=
  inj_countable Byte.to_N Byte.of_N Byte.of_to_N.

(** ** Strings and their bytes *)

Definition as_bytes (s : string) : bytes := String.list_byte_of_string s.
Definition string_of_bytes (b : bytes) : string := String.string_of_list_byte b.

#[export] Instance as_bytes_inj : Inj (=) (=) as_bytes.
Proof.
  intros s t Hst. apply (f_equal String.string_of_list_byte) in Hst.
  unfold as_bytes in Hst. by rewrite !String.string_of_list_byte_of_string in Hst.
Qed.

Lemma as_bytes_app s t : as_bytes (s +:+ t) = as_bytes s ++ as_bytes t.
Proof.
  induction s as [|c s IH]; [done|].
  change (String c s +:+ t) with (String c (s +:+ t)).
  change (as_bytes (String c (s +:+ t))) with (byte_of_ascii c :: as_bytes (s +:+ t)).
  by rewrite IH.
Qed.

Lemma length_as_bytes s : length (as_bytes s) = String.length s.
Proof. induction s as [|c s IH]; [done|]. by apply (f_equal S). Qed.

(** ** Fixed-size arrays: [[u8; n]] *)

Record array (n : nat) := mk_array {
  array_bytes : bytes;
  array_len : bool_decide (length array_bytes = n) = true;
}.
Arguments mk_array {n}.
Arguments array_bytes {n}.
Arguments array_len {n}.

Lemma array_eq {n} (a b : array n) : array_bytes a = array_bytes b → a = b.
Proof. destruct a as [a Ha], b as [b Hb]; simpl. intros ->. f_equal. apply (proof_irrel Ha Hb). Qed.

#[export] Instance array_bytes_inj {n} : Inj (=) (=) (@array_bytes n).
Proof. intros a b. apply array_eq. Qed.

Lemma length_array {n} (a : array n) : length (array_bytes a) = n.
Proof. destruct a as [a Ha]; simpl. by apply bool_decide_eq_true_1 in Ha. Qed.

#[export] Instance array_eq_dec {n} : EqDecision (array n).
Proof.
  intros a b. destruct (decide (array_bytes a = array_bytes b)) as [H|H].
  - left. by apply array_eq.
  - right. congruence.
Defined.

(** [<[u8; n]>::try_from(&[u8])]: only a slice of exactly [n] bytes converts. *)
Definition array_of (n : nat) (l : bytes) : option (array n) :=
  match bool_decide (length l = n) as b return bool_decide (length l = n) = b → option (array n) with
  | true => λ H, Some (mk_array l H)
  | false => λ _, None
  end eq_refl.

Lemma array_of_Some n l a : array_of n l = Some a ↔ array_bytes a = l.
Proof.
  unfold array_of. generalize (eq_refl (bool_decide (length l = n))).
  destruct (bool_decide (length l = n)) at 2 3.
  - intros H. split; [by intros [= <-]|]. intros Ha. f_equal. by apply array_eq.
  - intros H. split; [done|]. intros <-. apply bool_decide_eq_false_1 in H.
    by rewrite length_array in H.
Qed.

Lemma array_of_array {n} (a : array n) : array_of n (array_bytes a) = Some a.
Proof. by apply array_of_Some. Qed.

Lemma array_of_None n l : array_of n l = None ↔ length l ≠ n.
Proof.
  unfold array_of. generalize (eq_refl (bool_decide (length l = n))).
  destruct (bool_decide (length l = n)) at 2 3; intros H.
  - split; [done|]. intros Hn. exfalso. by apply Hn, (bool_decide_eq_true_1 _ H).
  - split; [|done]. intros _. by apply (bool_decide_eq_false_1 _ H).
Qed.

#[export] Instance array_countable {n} : Countable (array n) :=
  inj_countable array_bytes (array_of n) array_of_array.

#[export] Instance array_ord {n} : RustOrd (array n) := λ a b, cmp (array_bytes a) (array_bytes b).
#[export] Instance array_ord_laws {n} : RustOrdLaws (array n).
Proof. apply (inj_ord_laws array_bytes); [|done]. intros a b. apply array_eq. Qed.

Program Definition zero_array (n : nat) : array n := {| array_bytes := replicate n Byte.x00 |}.
Next Obligation. intros n. apply bool_decide_eq_true_2, length_replicate. Qed.

(** ** Machine integers *)

Definition u32_max : Z := 2 ^ 32 - 1.
Definition u64_max : Z := 2 ^ 64 - 1.
Definition is_u64 (z : Z) : Prop := 0 ≤ z ≤ u64_max.
Definition saturating_add64 (a b : Z) : Z := Z.min (a + b) u64_max.
Definition saturating_sub64 (a b : Z) : Z := Z.max (a - b) 0.
(** [u32] addition in a release build wraps. *)
Definition wrapping_add32 (a b : Z) : Z := (a + b) mod 2 ^ 32.
Definition abs_diff (a b : Z) : Z := Z.abs (a - b).

Definition byte_of_Z (z : Z) : byte := default Byte.x00 (Byte.of_N (Z.to_N (z mod 256))).

(** [uN::to_le_bytes], for a width of [n] bytes *)
Fixpoint to_le_bytes (n : nat) (z : Z) : bytes :=
  match n with
  | O => []
  | S n => byte_of_Z z :: to_le_bytes n (z / 256)
  end.

Lemma length_to_le_bytes n z : length (to_le_bytes n z) = n.
Proof. revert z. induction n as [|n IH]; intros z; simpl; [done|]. by rewrite IH. Qed.

Lemma byte_of_Z_to_N z : Z.of_N (Byte.to_N (byte_of_Z z)) = z mod 256.
Proof.
  unfold byte_of_Z. assert (0 ≤ z mod 256 < 256) by (apply Z.mod_pos_bound; lia).
  destruct (Byte.of_N (Z.to_N (z mod 256))) as [b|] eqn:E; simpl.
  - apply Byte.to_of_N in E. rewrite E. lia.
  - apply Byte.of_N_None_iff in E. lia.
Qed.

Lemma to_le_bytes_inj n z w :
  0 ≤ z < 256 ^ Z.of_nat n → 0 ≤ w < 256 ^ Z.of_nat n → to_le_bytes n z = to_le_bytes n w → z = w.
Proof.
  revert z w. induction n as [|n IH]; intros z w Hz Hw; simpl; [lia|].
  intros [= Hb Hr]. apply (f_equal (λ b, Z.of_N (Byte.to_N b))) in Hb.
  rewrite !byte_of_Z_to_N in Hb.
  rewrite Nat2Z.inj_succ, Z.pow_succ_r in Hz, Hw by lia.
  apply IH in Hr; [|split; [apply Z.div_pos; lia|apply Z.div_lt_upper_bound; lia]..].
  rewrite (Z.div_mod z 256), (Z.div_mod w 256), Hb, Hr by lia. done.
Qed.

Lemma u64_le_bytes_inj z w : is_u64 z → is_u64 w → to_le_bytes 8 z = to_le_bytes 8 w → z = w.
Proof. unfold is_u64, u64_max. intros ??. apply to_le_bytes_inj; change (256 ^ Z.of_nat 8) with (2 ^ 64); lia. Qed.

Arguments to_le_bytes : simpl never.

Lemma cons_inj {A} (x y : A) l k : x :: l = y :: k → x = y ∧ l = k.
Proof. by intros [= -> ->]. Qed.

(** ** TLV frames: [tag ‖ len(LE u64) ‖ bytes] *)

Definition feed_frame (tag : byte) (b : bytes) : bytes :=
  tag :: to_le_bytes 8 (Z.of_nat (length b)) ++ b.

Definition fits (b : bytes) : Prop := Z.of_nat (length b) ≤ u64_max.

Definition frame : Type := byte * bytes.
Definition encode_frames (fs : list frame) : bytes := flat_map (λ f, feed_frame f.1 f.2) fs.

Lemma feed_frame_inj t1 t2 b1 b2 r1 r2 :
  fits b1 → fits b2 →
  feed_frame t1 b1 ++ r1 = feed_frame t2 b2 ++ r2 → t1 = t2 ∧ b1 = b2 ∧ r1 = r2.
Proof.
  unfold fits, u64_max, feed_frame. intros H1 H2 H.
  rewrite <-!app_comm_cons, <-!app_assoc in H. apply cons_inj in H as [-> H].
  apply app_inj_1 in H as [Hl H]; [|by rewrite !length_to_le_bytes].
  apply to_le_bytes_inj in Hl; [|change (256 ^ Z.of_nat 8) with (2 ^ 64); lia..].
  by apply app_inj_1 in H as [-> ->]; [|lia].
Qed.

Lemma encode_frames_app fs gs : encode_frames (fs ++ gs) = encode_frames fs ++ encode_frames gs.
Proof. apply flat_map_app. Qed.

(** The frame encoding is unambiguous: distinct frame sequences have distinct
    encodings. *)
Lemma encode_frames_inj fs gs :
  Forall (λ f, fits f.2) fs → Forall (λ f, fits f.2) gs →
  encode_frames fs = encode_frames gs → fs = gs.
Proof.
  intros Hfs. revert gs.
  induction Hfs as [|[t b] fs Hb Hfs IH]; intros [|[t' b'] gs] Hgs Heq; try done.
  apply Forall_cons in Hgs as [Hb' Hgs]. simpl in *.
  apply feed_frame_inj in Heq as (-> & -> & Heq); [|done..]. f_equal. by apply IH.
Qed.

Lemma frame_cons_inj (t t' : byte) (b b' : bytes) fs gs :
  (t, b) :: fs = (t', b') :: gs → (t = t' ∧ b = b') ∧ fs = gs.
Proof. by intros [= -> -> ->]. Qed.

(** Split an equation between two explicit frame lists into one equation per
    frame, without unfolding the frames' contents. *)
Ltac split_frames H :=
  repeat (apply frame_cons_inj in H; let H1 := fresh "Hfr" in destruct H as [[_ H1] H]).
