(* ===== verification/Externs.v ===== *)
(** * The third-party code the repository calls

    Hashing (blake3), signatures (ed25519-dalek), authenticated encryption
    (chacha20poly1305), hex, serde_json and the operating system's random
    source are crates outside the repository.  Each is a class of operations
    the components take as parameters; what a component relies on is a class
    of laws, the documented behaviour of that crate.  Nothing here assumes that
    a hash is injective: theorems about hashes exhibit the colliding inputs
    instead.  [Sample.v] instantiates every class by concrete functions. *)

From S2P Require Import Prelude Bytes.

(** ** blake3: [Hasher::new().update(a).update(b).finalize()] is the hash of
    the concatenation [a ‖ b], so a hasher is the bytes fed to it so far. *)

Class Blake3 := {
  blake3 : bytes → array 32;
  blake3_to_hex : array 32 → string;
  (** [blake3::derive_key(context, key_material)] *)
  blake3_derive_key : string → bytes → array 32;
  (** [Hasher::new_keyed(key) ... finalize_xof().fill(&mut [u8; n])] *)
  blake3_keyed_xof : array 32 → bytes → nat → bytes;
}.

Class Blake3Laws `{Blake3} : Prop := {
  blake3_keyed_xof_length : ∀ k b n, length (blake3_keyed_xof k b n) = n;
  blake3_to_hex_length : ∀ h, String.length (blake3_to_hex h) = 64%nat;
}.

(** ** hex *)

Class Hex := {
  hex_encode : bytes → string;
  hex_decode : string → result string bytes;
}.

Class HexLaws `{Hex} : Prop := {
  hex_decode_encode : ∀ b, hex_decode (hex_encode b) = Ok b;
  hex_encode_length : ∀ b, String.length (hex_encode b) = (2 * length b)%nat;
}.

Lemma hex_encode_inj `{HexLaws} b c : hex_encode b = hex_encode c → b = c.
Proof. intros Hbc. apply (f_equal hex_decode) in Hbc. rewrite !hex_decode_encode in Hbc. by injection Hbc. Qed.

(** ** ed25519-dalek *)

Class Ed25519 := {
  SigningKey : Type;
  sk_from_bytes : array 32 → SigningKey;
  sk_to_bytes : SigningKey → array 32;
  (** [sk.verifying_key().to_bytes()] *)
  sk_verifying_key : SigningKey → array 32;
  sk_sign : SigningKey → bytes → array 64;
  (** [VerifyingKey::from_bytes(pk).is_ok()] *)
  vk_decodes : array 32 → bool;
  (** [vk.verify_strict(msg, sig).is_ok()] *)
  verify_strict : array 32 → bytes → array 64 → bool;
}.

Class Ed25519Laws `{Ed25519} : Prop := {
  sk_verifying_key_decodes : ∀ sk, vk_decodes (sk_verifying_key sk) = true;
  verify_strict_sign : ∀ sk m, verify_strict (sk_verifying_key sk) m (sk_sign sk m) = true;
}.

(** ** XChaCha20-Poly1305: key, nonce, associated data, message *)

Class Aead := {
  aead_encrypt : array 32 → bytes → bytes → bytes → option bytes;
  aead_decrypt : array 32 → bytes → bytes → bytes → option bytes;
}.

Class AeadLaws `{Aead} : Prop := {
  aead_decrypt_encrypt : ∀ k n a m c, aead_encrypt k n a m = Some c → aead_decrypt k n a c = Some m;
}.

(** ** serde_json: [to_vec] and [from_slice] at one type *)

Class Serde (A : Type) := {
  to_vec : A → result string bytes;
  from_slice : bytes → result string A;
}.
#[global] Hint Mode Serde ! : typeclass_instances.

(** ** The operating system's random source

    [getrandom::getrandom(&mut buf)] fills a buffer of [n] bytes or fails. *)

Class Rng (R : Type) := getrandom : ∀ n : nat, R → R * result string (array n).
#[global] Hint Mode Rng ! : typeclass_instances.
