(* ===== verification/Text.v ===== *)
(** * Text: decimals, UTF-8, white space, lines

    What the repository uses of formatting, [std::str] and [std::io::BufRead] on raw
    bytes: decimal numbers, [str::from_utf8], [String::from_utf8_lossy], [str::trim().is_empty()] and [BufRead::lines]. *)

From stdpp Require Import pretty.
From S2P Require Import Prelude Bytes.

(** [format!("{n}")] for an unsigned integer *)
Definition decimal (z : Z) : string := pretty (Z.to_N z).

Lemma decimal_inj z w : 0 ≤ z → 0 ≤ w → decimal z = decimal w → z = w.
Proof. unfold decimal. intros ?? Hzw. apply (inj pretty) in Hzw. lia. Qed.

Definition byte_Z (b : byte) : Z := Z.of_N (Byte.to_N b).

Definition is_cont (b : byte) : bool := (0x80 <=? byte_Z b) && (byte_Z b <=? 0xbf).
Definition in_range (lo hi : Z) (b : byte) : bool := (lo <=? byte_Z b) && (byte_Z b <=? hi).

(** One scalar value: the lead byte's class fixes how many bytes follow and the
    range of the second one (no overlong forms, no surrogates, at most
    U+10FFFF). *)
Definition utf8_step (l : bytes) : option (Z * bytes) :=
  match l with
  | [] => None
  | b0 :: l =>
    let z0 := byte_Z b0 in
    if z0 <=? 0x7f then Some (z0, l)
    else if in_range 0xc2 0xdf b0 then
      match l with
      | b1 :: l => if is_cont b1 then Some (Z.land z0 0x1f * 64 + Z.land (byte_Z b1) 0x3f, l) else None
      | _ => None
      end
    else if in_range 0xe0 0xef b0 then
      match l with
      | b1 :: b2 :: l =>
        let lo := if z0 =? 0xe0 then 0xa0 else 0x80 in
        let hi := if z0 =? 0xed then 0x9f else 0xbf in
        if in_range lo hi b1 && is_cont b2
        then Some (Z.land z0 0x0f * 4096 + Z.land (byte_Z b1) 0x3f * 64 + Z.land (byte_Z b2) 0x3f, l)
        else None
      | _ => None
      end
    else if in_range 0xf0 0xf4 b0 then
      match l with
      | b1 :: b2 :: b3 :: l =>
        let lo := if z0 =? 0xf0 then 0x90 else 0x80 in
        let hi := if z0 =? 0xf4 then 0x8f else 0xbf in
        if in_range lo hi b1 && is_cont b2 && is_cont b3
        then Some (Z.land z0 0x07 * 262144 + Z.land (byte_Z b1) 0x3f * 4096
                   + Z.land (byte_Z b2) 0x3f * 64 + Z.land (byte_Z b3) 0x3f, l)
        else None
      | _ => None
      end
    else None
  end.

(** Each step consumes at least one byte, so the length is enough fuel. *)
Fixpoint utf8_go (fuel : nat) (l : bytes) : option (list Z) :=
  match l with
  | [] => Some []
  | _ => match fuel with
         | O => None
         | S fuel =>
           match utf8_step l with
           | Some (c, l') => (c ::.) <$> utf8_go fuel l'
           | None => None
           end
         end
  end.

(** The scalar values of a byte string, [None] when it is not UTF-8 *)
Definition utf8_decode (l : bytes) : option (list Z) := utf8_go (length l) l.
Definition utf8_valid (l : bytes) : bool := bool_decide (is_Some (utf8_decode l)).

(** [str::from_utf8(b).ok()] *)
Definition from_utf8 (b : bytes) : option string :=
  if utf8_valid b then Some (string_of_bytes b) else None.

(** How many bytes one replacement character stands for where no scalar value
    starts: the lead byte and the continuation bytes that fit it *)
Definition utf8_skip (l : bytes) : nat :=
  match l with
  | [] => 0%nat
  | b0 :: l =>
    let z0 := byte_Z b0 in
    if in_range 0xe0 0xef b0 then
      match l with
      | b1 :: _ =>
        if in_range (if z0 =? 0xe0 then 0xa0 else 0x80) (if z0 =? 0xed then 0x9f else 0xbf) b1 then 2%nat else 1%nat
      | [] => 1%nat
      end
    else if in_range 0xf0 0xf4 b0 then
      match l with
      | b1 :: l =>
        if in_range (if z0 =? 0xf0 then 0x90 else 0x80) (if z0 =? 0xf4 then 0x8f else 0xbf) b1 then
          match l with b2 :: _ => if is_cont b2 then 3%nat else 2%nat | [] => 2%nat end
        else 1%nat
      | [] => 1%nat
      end
    else 1%nat
  end.

Fixpoint lossy_go (fuel : nat) (l : bytes) : bytes :=
  match l, fuel with
  | [], _ => []
  | _, O => []
  | _, S fuel =>
    match utf8_step l with
    | Some (_, l') => take (length l - length l') l ++ lossy_go fuel l'
    | None => [Byte.xef; Byte.xbf; Byte.xbd] ++ lossy_go fuel (drop (utf8_skip l) l)
    end
  end.

(** [String::from_utf8_lossy] *)
Definition from_utf8_lossy (l : bytes) : string := string_of_bytes (lossy_go (length l) l).

Lemma utf8_step_suffix l c l' : utf8_step l = Some (c, l') → ∃ p, p ≠ [] ∧ l = p ++ l'.
Proof.
  unfold utf8_step. intros Hs. destruct l as [|b0 l]; [done|].
  repeat (case_match; simplify_eq; try done).
  all: first [eexists [_]; split; [|reflexivity]; discriminate | eexists [_; _]; split; [|reflexivity]; discriminate
            | eexists [_; _; _]; split; [|reflexivity]; discriminate | eexists [_; _; _; _]; split; [|reflexivity]; discriminate].
Qed.

(** Valid text is kept as it is. *)
Lemma from_utf8_lossy_valid l : utf8_valid l = true → from_utf8_lossy l = string_of_bytes l.
Proof.
  intros [cs Hd]%bool_decide_eq_true. unfold from_utf8_lossy, utf8_decode in *. f_equal. revert Hd.
  generalize (length l) as fuel. intros fuel. revert l cs. induction fuel as [|fuel IH]; intros [|b l] cs Hd; try done.
  cbn [utf8_go lossy_go] in *. destruct (utf8_step (b :: l)) as [[c l']|] eqn:Hs; [|done].
  destruct (utf8_go fuel l') as [cs'|] eqn:Hg; [|done]. rewrite (IH l' cs' Hg).
  apply utf8_step_suffix in Hs as (p & _ & ->). rewrite length_app. replace (length p + length l' - length l')%nat with (length p) by lia.
  by rewrite take_app_length.
Qed.

(** [char::is_whitespace]: the Unicode [White_Space] property *)
Definition is_whitespace (c : Z) : bool :=
  ((9 <=? c) && (c <=? 13)) || (c =? 0x20) || (c =? 0x85) || (c =? 0xa0) || (c =? 0x1680)
  || ((0x2000 <=? c) && (c <=? 0x200a)) || (c =? 0x2028) || (c =? 0x2029) || (c =? 0x202f)
  || (c =? 0x205f) || (c =? 0x3000).

(** [s.trim().is_empty()] *)
Definition trim_is_empty (l : bytes) : bool :=
  match utf8_decode l with Some cs => forallb is_whitespace cs | None => false end.

Definition newline : byte := Byte.x0a.
Definition carriage_return : byte := Byte.x0d.

(** [BufRead::lines]: cut at every newline, a final unterminated piece counts
    when it is not empty, and a carriage return before the newline goes too. *)
Fixpoint split_lines (acc : bytes) (l : bytes) : list (bytes * bool) :=
  match l with
  | [] => match acc with [] => [] | _ => [(rev acc, false)] end
  | b :: l => if decide (b = newline) then (rev acc, true) :: split_lines [] l
              else split_lines (b :: acc) l
  end.

Definition strip_cr (p : bytes * bool) : bytes :=
  if p.2 then
    match rev p.1 with
    | b :: r => if decide (b = carriage_return) then rev r else p.1
    | [] => []
    end
  else p.1.

Definition lines (l : bytes) : list bytes := strip_cr <$> split_lines [] l.

Lemma split_lines_nl acc b l :
  newline ∉ b → split_lines acc (b ++ newline :: l) = (rev acc ++ b, true) :: split_lines [] l.
Proof.
  revert acc. induction b as [|x b IH]; intros acc Hb; simpl.
  - by rewrite app_nil_r.
  - case_decide as E; [subst; set_solver|]. rewrite IH by set_solver. simpl. by rewrite <-app_assoc.
Qed.

Lemma lines_nl b l :
  newline ∉ b → carriage_return ∉ b → lines (b ++ newline :: l) = b :: lines l.
Proof.
  intros Hb Hc. unfold lines. rewrite split_lines_nl by done. simpl. f_equal.
  unfold strip_cr; simpl. destruct (rev b) as [|x r] eqn:E.
  - apply (f_equal (@rev byte)) in E. rewrite rev_involutive in E. done.
  - case_decide as Ex; [|done]. subst. destruct Hc. rewrite <-(rev_involutive b), E. simpl. set_solver.
Qed.

Lemma lines_flat ls l :
  Forall (λ b, newline ∉ b ∧ carriage_return ∉ b) ls →
  lines (flat_map (λ b, b ++ [newline]) ls ++ l) = ls ++ lines l.
Proof.
  induction 1 as [|b ls [Hb Hc] Hls IH]; simpl; [done|].
  rewrite <-!app_assoc. simpl. rewrite lines_nl by done. by f_equal.
Qed.
