(* ===== verification/Str.v ===== *)
(** * String operations of the standard library

    What the parsers of the repository use of [str]: characters, trimming, splitting,
    ASCII case, number parsing.  A [str] is its bytes; characters are the scalar
    values of its UTF-8 encoding, and the tables of the Unicode standard beyond white
    space are a parameter ([Unicode]). *)

From S2P Require Import Prelude Bytes Text.

(** The Unicode tables behind [char::is_alphanumeric] and [str::to_lowercase] *)
Class Unicode := {
  is_alphanumeric : Z → bool;
  to_lowercase : string → string;
}.

(** ** ASCII *)

Definition ascii_byte (c : ascii) : byte := byte_of_ascii c.
Definition is_digit (b : byte) : bool := in_range 0x30 0x39 b.
Definition is_ascii_upper (b : byte) : bool := in_range 0x41 0x5a b.
Definition is_ascii_alphabetic (b : byte) : bool := is_ascii_upper b || in_range 0x61 0x7a b.
Definition is_ascii_alphanumeric (b : byte) : bool := is_ascii_alphabetic b || is_digit b.
Definition is_ascii_byte (b : byte) : bool := byte_Z b <=? 0x7f.

Definition lower_byte (b : byte) : byte := if is_ascii_upper b then byte_of_Z (byte_Z b + 32) else b.
(** [to_ascii_lowercase] *)
Definition ascii_lowercase (s : bytes) : bytes := lower_byte <$> s.
Definition to_ascii_lowercase (s : string) : string := string_of_bytes (ascii_lowercase (as_bytes s)).

(** ** Characters *)

(** The characters of a string with their bytes; bytes that start no character, which
    a [str] never has, stand alone with the value -1.  Every step consumes a byte, so
    the length is enough fuel. *)
Fixpoint chunks_go (fuel : nat) (l : bytes) : list (Z * bytes) :=
  match l, fuel with
  | [], _ => []
  | _, O => []
  | b :: k, S fuel =>
    match utf8_step l with
    | Some (c, l') => (c, take (length l - length l') l) :: chunks_go fuel l'
    | None => (-1, [b]) :: chunks_go fuel k
    end
  end.
Definition chunks (l : bytes) : list (Z * bytes) := chunks_go (length l) l.
Definition unchunk (cs : list (Z * bytes)) : bytes := mjoin (snd <$> cs).

(** [s.chars()] *)
Definition chars (l : bytes) : list Z := fst <$> chunks l.
(** [s.chars().count()] *)
Definition char_count (l : bytes) : nat := length (chunks l).

Fixpoint drop_while {A} (p : A → bool) (l : list A) : list A :=
  match l with [] => [] | a :: k => if p a then drop_while p k else l end.
Fixpoint take_while {A} (p : A → bool) (l : list A) : list A :=
  match l with [] => [] | a :: k => if p a then a :: take_while p k else [] end.
Definition drop_while_end {A} (p : A → bool) (l : list A) : list A := reverse (drop_while p (reverse l)).

(** [trim_start_matches], [trim_end_matches], [trim_matches] *)
Definition trim_start_matches (p : Z → bool) (l : bytes) : bytes := unchunk (drop_while (p ∘ fst) (chunks l)).
Definition trim_end_matches (p : Z → bool) (l : bytes) : bytes := unchunk (drop_while_end (p ∘ fst) (chunks l)).
Definition trim_matches (p : Z → bool) (l : bytes) : bytes :=
  unchunk (drop_while_end (p ∘ fst) (drop_while (p ∘ fst) (chunks l))).
Definition trim_start (l : bytes) : bytes := trim_start_matches is_whitespace l.
Definition trim_end (l : bytes) : bytes := trim_end_matches is_whitespace l.
Definition trim (l : bytes) : bytes := trim_matches is_whitespace l.

(** ** Splitting at an ASCII character *)

(** [s.split_once(c)] *)
Fixpoint split_once (c : byte) (l : bytes) : option (bytes * bytes) :=
  match l with
  | [] => None
  | b :: k =>
    if decide (b = c) then Some ([], k)
    else match split_once c k with Some (x, y) => Some (b :: x, y) | None => None end
  end.

(** [s.split(c)]: never empty *)
Fixpoint split_go (c : byte) (acc : bytes) (l : bytes) : list bytes :=
  match l with
  | [] => [reverse acc]
  | b :: k => if decide (b = c) then reverse acc :: split_go c [] k else split_go c (b :: acc) k
  end.
Definition split (c : byte) (l : bytes) : list bytes := split_go c [] l.

(** [s.strip_prefix(p)] *)
Fixpoint strip_prefix (p l : bytes) : option bytes :=
  match p, l with
  | [], _ => Some l
  | a :: p, b :: k => if decide (a = b) then strip_prefix p k else None
  | _ :: _, [] => None
  end.
Definition starts_with (p l : bytes) : bool := bool_decide (is_Some (strip_prefix p l)).

(** [s.split(p)] for a string pattern: leftmost matches, not overlapping.  Every step
    consumes a byte or a match, so the length is enough fuel for a non-empty [p]. *)
Fixpoint split_str_go (p : bytes) (fuel : nat) (acc l : bytes) : list bytes :=
  match fuel, l with
  | O, _ | _, [] => [reverse acc]
  | S fuel, b :: k =>
    match strip_prefix p l with
    | Some r => reverse acc :: split_str_go p fuel [] r
    | None => split_str_go p fuel (b :: acc) k
    end
  end.
Definition split_str (p l : bytes) : list bytes := split_str_go p (length l) [] l.

(** [s.split_inclusive('\n')]: each piece with its newline *)
Fixpoint inclusive_go (acc l : bytes) : list bytes :=
  match l with
  | [] => match acc with [] => [] | _ => [reverse acc] end
  | b :: k => if decide (b = newline) then reverse (b :: acc) :: inclusive_go [] k else inclusive_go (b :: acc) k
  end.
Definition split_inclusive_nl (l : bytes) : list bytes := inclusive_go [] l.

(** [splitn(n, c)]: at most [n] parts, the last one the rest *)
Fixpoint splitn (n : nat) (c : byte) (l : bytes) : list bytes :=
  match n with
  | O => []
  | S O => [l]
  | S n => match split_once c l with Some (x, y) => x :: splitn n c y | None => [l] end
  end.

(** [split_whitespace], over the characters: the words, none empty *)
Fixpoint words_go (acc : bytes) (cs : list (Z * bytes)) : list bytes :=
  let flush := if bool_decide (acc = []) then [] else [acc] in
  match cs with
  | [] => flush
  | (c, raw) :: cs => if is_whitespace c then flush ++ words_go [] cs else words_go (acc ++ raw) cs
  end.
Definition split_whitespace (l : bytes) : list bytes := words_go [] (chunks l).

(** [rsplit(c).next()]: the part after the last [c] *)
Definition last_part (c : byte) (l : bytes) : bytes := default l (last (split c l)).

(** [str::contains] *)
Fixpoint contains_str (p l : bytes) : bool :=
  starts_with p l || match l with [] => false | _ :: l => contains_str p l end.

(** [str::strip_suffix] and [trim_end_matches] with a string; each round removes a byte *)
Definition strip_suffix (p l : bytes) : option bytes := reverse <$> strip_prefix (reverse p) (reverse l).
Fixpoint trim_end_str_go (fuel : nat) (p l : bytes) : bytes :=
  match fuel with
  | O => l
  | S fuel => match strip_suffix p l with Some r => trim_end_str_go fuel p r | None => l end
  end.
Definition trim_end_str (p l : bytes) : bytes := trim_end_str_go (length l) p l.

(** ** Numbers *)

Definition digit_val (b : byte) : Z := byte_Z b - 0x30.
Definition digits_val (l : bytes) : Z := foldl (λ z b, 10 * z + digit_val b) 0 l.

(** A non-empty run of digits within the bounds of the type *)
Definition parse_digits (l : bytes) : option Z :=
  if bool_decide (l = []) then None else if forallb is_digit l then Some (digits_val l) else None.

(** [s.parse::<u32>()], [s.parse::<u64>()]: a leading [+] is accepted *)
Definition parse_unsigned (max : Z) (l : bytes) : option Z :=
  let l := match l with b :: k => if decide (b = Byte.x2b) then k else l | [] => l end in
  match parse_digits l with Some z => if z <=? max then Some z else None | None => None end.
Definition parse_u32 (l : bytes) : option Z := parse_unsigned u32_max l.
Definition parse_u64 (l : bytes) : option Z := parse_unsigned u64_max l.

Definition i64_min : Z := - 2 ^ 63.
Definition i64_max : Z := 2 ^ 63 - 1.
(** [s.parse::<i64>()] *)
Definition parse_i64 (l : bytes) : option Z :=
  match l with
  | b :: k =>
    if decide (b = Byte.x2d) then
      match parse_digits k with Some z => if i64_min <=? - z then Some (- z) else None | None => None end
    else parse_unsigned i64_max l
  | [] => None
  end.

(** ** Laws *)

Lemma chunks_go_join fuel l : (length l ≤ fuel)%nat → unchunk (chunks_go fuel l) = l.
Proof.
  revert l. induction fuel as [|fuel IH]; intros [|b l] Hf; try done; [simpl in Hf; lia|].
  cbn [chunks_go]. destruct (utf8_step (b :: l)) as [[c l']|] eqn:Hs; unfold unchunk; cbn [fmap list_fmap snd mjoin list_join].
  - apply utf8_step_suffix in Hs as (p & Hp & Heq). rewrite Heq, length_app.
    replace (length p + length l' - length l')%nat with (length p) by lia. rewrite take_app_length.
    f_equal. apply IH. apply (f_equal length) in Heq. rewrite length_app in Heq. simpl in Heq.
    destruct p; [done|]. simpl in *. lia.
  - cbn [app]. f_equal. apply IH. simpl in Hf. lia.
Qed.

Lemma unchunk_chunks l : unchunk (chunks l) = l.
Proof. by apply chunks_go_join. Qed.

Lemma utf8_step_ascii b l : is_ascii_byte b = true → utf8_step (b :: l) = Some (byte_Z b, l).
Proof. unfold utf8_step, is_ascii_byte. by intros ->. Qed.

Lemma chunks_cons_ascii b l : is_ascii_byte b = true → chunks (b :: l) = (byte_Z b, [b]) :: chunks l.
Proof.
  intros Hb. unfold chunks. cbn [length chunks_go]. rewrite utf8_step_ascii by done. f_equal. f_equal.
  cbn [length]. replace (S (length l) - length l)%nat with 1%nat by lia. done.
Qed.

Definition is_ascii (l : bytes) : Prop := Forall (λ b, is_ascii_byte b = true) l.

Lemma chunks_ascii l : is_ascii l → chunks l = (λ b, (byte_Z b, [b])) <$> l.
Proof. induction 1 as [|b l Hb Hl IH]; [done|]. rewrite chunks_cons_ascii by done. by rewrite IH. Qed.

Lemma unchunk_singletons l : unchunk ((λ b, (byte_Z b, [b])) <$> l) = l.
Proof. unfold unchunk. induction l as [|b l IH]; [done|]. cbn. by f_equal. Qed.

Lemma drop_while_suffix {A} (p : A → bool) l : ∃ k, l = k ++ drop_while p l ∧ Forall (λ a, p a = true) k.
Proof.
  induction l as [|a l (k & Hk & Hp)]; simpl; [by exists []|].
  destruct (p a) eqn:Ha; [|by exists []]. exists (a :: k). simpl. rewrite <-Hk. auto.
Qed.

Lemma drop_while_fix {A} (p : A → bool) l : head l = None ∨ (∃ a, head l = Some a ∧ p a = false) → drop_while p l = l.
Proof. destruct l as [|a l]; simpl; [done|]. intros [?|(? & [= ->] & ->)]; done. Qed.

Lemma drop_while_head {A} (p : A → bool) l a : head (drop_while p l) = Some a → p a = false.
Proof. induction l as [|b l IH]; simpl; [done|]. destruct (p b) eqn:Hb; [done|]. simpl. by intros [= ->]. Qed.

(** An ASCII byte of a string is a character of its own. *)
Lemma utf8_step_member l c l' b :
  utf8_step l = Some (c, l') → b ∈ take (length l - length l') l → is_ascii_byte b = true → c = byte_Z b.
Proof.
  unfold utf8_step, is_ascii_byte. destruct l as [|b0 l]; [done|]. intros Hs Hb Ha.
  unfold in_range, is_cont in Hs.
  repeat (case_match; simplify_eq; try done).
  all: cbn [length] in Hb;
    match type of Hb with context [(?n - ?m)%nat] =>
      first [replace (n - m)%nat with 1%nat in Hb by lia | replace (n - m)%nat with 2%nat in Hb by lia
            | replace (n - m)%nat with 3%nat in Hb by lia | replace (n - m)%nat with 4%nat in Hb by lia] end;
    cbn [take] in Hb; rewrite ?elem_of_cons, elem_of_nil in Hb; repeat destruct Hb as [->|Hb]; done || (exfalso; lia).
Qed.

Lemma elem_of_chunks_go fuel l c bs :
  (c, bs) ∈ chunks_go fuel l → bs ≠ [] ∧ ∀ b, b ∈ bs → is_ascii_byte b = true → c = byte_Z b.
Proof.
  revert l. induction fuel as [|fuel IH]; intros [|b0 l]; cbn [chunks_go]; try (intros H; by apply not_elem_of_nil in H).
  destruct (utf8_step (b0 :: l)) as [[c' l']|] eqn:Hs.
  - intros [[-> ->]%pair_equal_spec|H]%elem_of_cons; [|eauto]. split.
    + apply utf8_step_suffix in Hs as (p & Hp & Heq). rewrite Heq, length_app.
      replace (length p + length l' - length l')%nat with (length p) by lia. by rewrite take_app_length.
    + intros b. by apply utf8_step_member.
  - intros [[= -> ->]|H]%elem_of_cons; [|eauto]. split; [done|]. intros b ->%list_elem_of_singleton Ha.
    by rewrite utf8_step_ascii in Hs.
Qed.

Lemma drop_while_nil {A} (p : A → bool) l : drop_while p l = [] → Forall (λ a, p a = true) l.
Proof. induction l as [|a l IH]; simpl; [done|]. destruct (p a) eqn:Ha; [auto|done]. Qed.

(** A string that trims to nothing is all white space. *)
Lemma trim_nil l b : trim l = [] → b ∈ l → is_ascii_byte b = true → is_whitespace (byte_Z b) = true.
Proof.
  unfold trim, trim_matches. set (p := is_whitespace ∘ fst). intros Ht Hb Ha.
  assert (Forall (λ x, p x = true) (chunks l)) as Hall.
  { destruct (drop_while_suffix p (chunks l)) as (k & Hk & Hp). rewrite Hk. apply Forall_app; split; [done|].
    apply Forall_reverse, drop_while_nil. destruct (drop_while p (reverse (drop_while p (chunks l)))) as [|x r] eqn:E; [done|].
    assert (x ∈ chunks l) as Hx.
    { rewrite Hk. apply elem_of_app. right. apply elem_of_reverse.
      destruct (drop_while_suffix p (reverse (drop_while p (chunks l)))) as (k' & Hk' & _). rewrite Hk', E. set_solver. }
    destruct x as [c bs]. destruct (elem_of_chunks_go _ _ _ _ Hx) as [Hbs _]. unfold drop_while_end in Ht.
    rewrite E in Ht. unfold unchunk in Ht. destruct bs as [|b' bs]; [done|].
    assert (b' ∈ mjoin (snd <$> reverse ((c, b' :: bs) :: r))) as Hin.
    { apply list_elem_of_join. exists (b' :: bs). split; [set_solver|]. apply list_elem_of_fmap.
      exists (c, b' :: bs). split; [done|]. apply elem_of_reverse. set_solver. }
    rewrite Ht in Hin. by apply not_elem_of_nil in Hin. }
  rewrite <-(unchunk_chunks l) in Hb. apply list_elem_of_join in Hb as (bs & Hb & Hbs).
  apply list_elem_of_fmap in Hbs as ([c bs'] & -> & Hc). simpl in Hb.
  destruct (elem_of_chunks_go _ _ _ _ Hc) as [_ Hc']. rewrite <-(Hc' b Hb Ha).
  rewrite Forall_forall in Hall. by apply (Hall (c, bs')).
Qed.

(** A text whose outer characters are not white space is left as it is. *)
Definition trimmed (l : bytes) : Prop :=
  Forall (λ c, is_whitespace c = false) (option_list (head (chars l)) ++ option_list (last (chars l))).

Lemma drop_while_end_cons {A} (p : A → bool) a l : p a = false → ∃ r, drop_while_end p (a :: l) = a :: r.
Proof.
  intros Ha. unfold drop_while_end. rewrite reverse_cons.
  assert (∀ k, ∃ k', drop_while p (k ++ [a]) = k' ++ [a]) as Hk.
  { induction k as [|b k [k' IH]]; simpl; [rewrite Ha; by exists []|]. destruct (p b); [eauto|]. by exists (b :: k). }
  destruct (Hk (reverse l)) as [k' ->]. exists (reverse k'). by rewrite reverse_app.
Qed.

Lemma drop_while_end_fix {A} (p : A → bool) l :
  last l = None ∨ (∃ a, last l = Some a ∧ p a = false) → drop_while_end p l = l.
Proof.
  intros Hl. unfold drop_while_end. rewrite drop_while_fix, reverse_involutive; [done|].
  by rewrite head_reverse.
Qed.

Lemma fmap_head {A B} (f : A → B) l : head (f <$> l) = f <$> head l.
Proof. by destruct l. Qed.

Lemma trim_fix l : trimmed l → trim l = l.
Proof.
  unfold trimmed, chars. rewrite fmap_head, fmap_last, Forall_app. intros [H1 H2].
  assert (∀ o : option (Z * bytes), Forall (λ c, is_whitespace c = false) (option_list (fst <$> o)) →
    o = None ∨ ∃ a, o = Some a ∧ (is_whitespace ∘ fst) a = false) as Ho.
  { intros [x|] Hx; [|by left]. right. exists x. by inversion Hx. }
  unfold trim, trim_matches. rewrite drop_while_fix by auto. rewrite drop_while_end_fix by auto. apply unchunk_chunks.
Qed.

Lemma split_once_spec c l x y : split_once c l = Some (x, y) ↔ l = x ++ c :: y ∧ c ∉ x.
Proof.
  revert x y. induction l as [|b l IH]; intros x y; simpl.
  { split; [done|]. intros [H _]. by destruct x. }
  case_decide as Hb.
  - subst. split; [intros [= <- <-]; split; [done|set_solver]|].
    intros [H Hx]. destruct x as [|a x]; [by simplify_eq/=|]. simplify_eq/=. set_solver.
  - destruct (split_once c l) as [[x' y']|] eqn:E.
    + split.
      * intros [= <- <-]. destruct (proj1 (IH x' y') eq_refl) as [-> Hx]. split; [done|set_solver].
      * intros [H Hx]. destruct x as [|a x]; simplify_eq/=.
        assert (Some (x', y') = Some (x, y)) as [= -> ->] by (apply IH; set_solver). done.
    + split; [done|]. intros [H Hx]. destruct x as [|a x]; simplify_eq/=.
      assert (None = Some (x, y)) by (apply IH; set_solver). done.
Qed.

Lemma split_once_none c l : split_once c l = None ↔ c ∉ l.
Proof.
  induction l as [|b l IH]; simpl; [set_solver|]. case_decide; [set_solver|].
  destruct (split_once c l) as [[]|]; set_solver.
Qed.

Lemma split_go_join c acc x l : c ∉ x → split_go c acc (x ++ c :: l) = (reverse acc ++ x) :: split_go c [] l.
Proof.
  revert acc. induction x as [|b x IH]; intros acc Hx; simpl.
  - rewrite decide_True by done. by rewrite app_nil_r.
  - rewrite decide_False by set_solver. rewrite IH by set_solver. by rewrite reverse_cons, <-app_assoc.
Qed.
Lemma split_go_end c acc x : c ∉ x → split_go c acc x = [reverse acc ++ x].
Proof.
  revert acc. induction x as [|b x IH]; intros acc Hx; simpl; [by rewrite app_nil_r|].
  rewrite decide_False by set_solver. rewrite IH by set_solver. by rewrite reverse_cons, <-app_assoc.
Qed.
Lemma split_join c x l : c ∉ x → split c (x ++ c :: l) = x :: split c l.
Proof. apply (split_go_join c []). Qed.
Lemma split_end c x : c ∉ x → split c x = [x].
Proof. apply (split_go_end c []). Qed.

Lemma strip_prefix_spec p l r : strip_prefix p l = Some r ↔ l = p ++ r.
Proof.
  revert l. induction p as [|a p IH]; intros [|b l]; simpl; try naive_solver.
  case_decide; [subst; rewrite IH; naive_solver|naive_solver].
Qed.
Lemma starts_with_spec p l : starts_with p l = true ↔ ∃ r, l = p ++ r.
Proof. unfold starts_with. rewrite bool_decide_eq_true. unfold is_Some. by setoid_rewrite strip_prefix_spec. Qed.

Lemma inclusive_go_join acc l : mjoin (inclusive_go acc l) = reverse acc ++ l.
Proof.
  revert acc. induction l as [|b l IH]; intros acc; simpl.
  - destruct acc; simpl; by rewrite ?app_nil_r.
  - case_decide; simpl; rewrite IH, reverse_cons; [|by rewrite <-app_assoc]. by rewrite <-app_assoc.
Qed.
Lemma split_inclusive_join l : mjoin (split_inclusive_nl l) = l.
Proof. apply inclusive_go_join. Qed.

Lemma byte_Z_range b : 0 ≤ byte_Z b < 256.
Proof. unfold byte_Z. pose proof (Byte.to_N_bounded b). lia. Qed.

Lemma digits_val_nonneg l z : 0 ≤ z → forallb is_digit l = true → 0 ≤ foldl (λ z b, 10 * z + digit_val b) z l.
Proof.
  revert z. induction l as [|b l IH]; intros z Hz; [done|]. simpl. rewrite andb_true_iff. intros [Hb Hl].
  apply IH; [|done]. unfold is_digit, in_range, digit_val in *. lia.
Qed.

Lemma parse_digits_nonneg l z : parse_digits l = Some z → 0 ≤ z.
Proof.
  unfold parse_digits. destruct (bool_decide _); [done|]. destruct (forallb is_digit l) eqn:Hl; [|done].
  intros [= <-]. by apply digits_val_nonneg.
Qed.

Lemma parse_unsigned_bounds max l z : parse_unsigned max l = Some z → 0 ≤ z ≤ max.
Proof.
  unfold parse_unsigned. destruct (parse_digits _) as [w|] eqn:Hw; [|done]. apply parse_digits_nonneg in Hw.
  destruct (w <=? max) eqn:Hm; [|done]. intros [= <-]. lia.
Qed.

Lemma parse_i64_bounds l z : parse_i64 l = Some z → i64_min ≤ z ≤ i64_max.
Proof.
  unfold parse_i64. destruct l as [|b l]; [done|]. case_decide.
  - destruct (parse_digits l) as [w|] eqn:Hw; [|done]. apply parse_digits_nonneg in Hw.
    destruct (i64_min <=? - w) eqn:Hm; [|done]. intros [= <-]. unfold i64_max. lia.
  - intros Hp%parse_unsigned_bounds. unfold i64_min. lia.
Qed.
