(* ===== verification/Chars.v ===== *)
(** * Characters of composed texts

    How the characters of a text relate to those of its parts: around an ASCII byte, at a
    character boundary, and under trimming. *)

From S2P Require Import Prelude Bytes Text Str.

(** ** Characters of a text with an ASCII byte inside *)

Lemma utf8_step_app l r c l' : utf8_step l = Some (c, l') → utf8_step (l ++ r) = Some (c, l' ++ r).
Proof.
  unfold utf8_step. destruct l as [|b0 l]; [done|]. cbn [app]. intros Hs. repeat (case_match; simplify_eq/=; try done).
Qed.

Lemma utf8_step_none b0 l b r : is_ascii_byte b = true → utf8_step (b0 :: l) = None → utf8_step (b0 :: l ++ b :: r) = None.
Proof.
  intros Hb. assert (∀ lo hi, 0x80 ≤ lo → in_range lo hi b = false) as Hr.
  { intros lo hi Hlo. unfold in_range, is_ascii_byte in *. lia. }
  assert (is_cont b = false) as Hc by (by apply Hr).
  unfold utf8_step. destruct (byte_Z b0 <=? 0x7f); [done|]. destruct (in_range 0xc2 0xdf b0).
  { destruct l as [|b1 l]; cbn [app]; [by rewrite Hc|by destruct (is_cont b1)]. }
  assert (∀ z : Z, 0x80 ≤ (if z =? 0xe0 then 0xa0 else 0x80) ∧ 0x80 ≤ (if z =? 0xf0 then 0x90 else 0x80)) as Hz
    by (intros z; split; case_match; lia).
  destruct (in_range 0xe0 0xef b0).
  { destruct l as [|b1 [|b2 l]]; cbn [app]; [|by rewrite Hc, andb_false_r|by destruct (_ && _)].
    destruct r as [|b2 r]; [done|]. by rewrite Hr by apply Hz. }
  destruct (in_range 0xf0 0xf4 b0); [|done]. destruct l as [|b1 [|b2 [|b3 l]]]; cbn [app].
  - destruct r as [|b2 [|b3 r]]; try done. by rewrite Hr by apply Hz.
  - destruct r as [|b3 r]; [done|]. by rewrite Hc, andb_false_r.
  - by rewrite Hc, andb_false_r.
  - by destruct (_ && _ && _).
Qed.

Lemma chunks_go_fuel f1 f2 l : (length l ≤ f1)%nat → (length l ≤ f2)%nat → chunks_go f1 l = chunks_go f2 l.
Proof.
  revert f2 l. induction f1 as [|f1 IH]; intros [|f2] [|b l]; cbn [length]; try lia; [done..|]. intros H1 H2. cbn [chunks_go].
  destruct (utf8_step (b :: l)) as [[c l']|] eqn:Hs; [|f_equal; apply IH; lia].
  destruct (utf8_step_suffix _ _ _ Hs) as (p & Hp & E). apply (f_equal length) in E. rewrite length_app in E. cbn in E.
  assert (0 < length p)%nat by (destruct p; [done|cbn; lia]). f_equal. apply IH; lia.
Qed.

Lemma chunks_app l b r : is_ascii_byte b = true → chunks (l ++ b :: r) = chunks l ++ chunks (b :: r).
Proof.
  intros Hb. unfold chunks at 1 2. generalize (le_n (length l)). generalize (length l) at 2 3. intros f. revert l.
  induction f as [|f IH]; intros l Hf; [destruct l; [|cbn in Hf; lia]; done|]. destruct l as [|b0 l]; [done|].
  cbn [app length] in *. cbn [chunks_go]. destruct (utf8_step (b0 :: l)) as [[c l']|] eqn:Hs.
  - destruct (utf8_step_suffix _ _ _ Hs) as (p & Hp & E). pose proof (f_equal length E) as El. rewrite length_app in El. cbn in El.
    assert (0 < length p)%nat by (destruct p; [done|cbn; lia]).
    pose proof (utf8_step_app _ (b :: r) _ _ Hs) as Hs'. cbn [app] in Hs'. rewrite Hs'. cbn [app]. f_equal.
    + f_equal. rewrite app_comm_cons, E, <- app_assoc, !length_app.
      replace (length p + (length l' + length (b :: r)) - (length l' + length (b :: r)))%nat with (length p) by lia.
      replace (length p + length l' - length l')%nat with (length p) by lia. by rewrite !take_app_length.
    + rewrite <- (IH l') by lia. apply chunks_go_fuel; rewrite !length_app; cbn; lia.
  - rewrite utf8_step_none by done. cbn [app]. f_equal. rewrite <- (IH l) by lia. done.
Qed.

(** A text between two ASCII bytes *)
Lemma chunks_between x m y : is_ascii_byte x = true → is_ascii_byte y = true →
  chunks (x :: m ++ [y]) = (byte_Z x, [x]) :: chunks m ++ [(byte_Z y, [y])].
Proof. intros Hx Hy. rewrite chunks_cons_ascii by done. f_equal. rewrite chunks_app by done. by rewrite chunks_cons_ascii. Qed.

Lemma trim_between x m y : is_ascii_byte x = true → is_ascii_byte y = true → is_whitespace (byte_Z x) = false → is_whitespace (byte_Z y) = false →
  trim (x :: m ++ [y]) = x :: m ++ [y].
Proof.
  intros Hx Hy Wx Wy. apply trim_fix. unfold trimmed, chars. rewrite chunks_between by done. rewrite fmap_head, fmap_last, app_comm_cons, last_snoc.
  by repeat constructor.
Qed.

Lemma drop_while_end_keep {A} (p : A → bool) l k : Forall (λ a, p a = false) l → Forall (λ a, p a = true) k → drop_while_end p (l ++ k) = l.
Proof.
  intros Hl Hk. unfold drop_while_end. rewrite reverse_app.
  assert (∀ k', Forall (λ a, p a = true) k' → ∀ l', drop_while p (k' ++ l') = drop_while p l') as Hd.
  { induction 1 as [|a k' Ha _ IH]; intros l'; [done|]. cbn. by rewrite Ha. }
  rewrite Hd by by apply Forall_reverse. rewrite drop_while_fix, reverse_involutive; [done|].
  rewrite head_reverse. destruct (last l) as [a|] eqn:E; [|by left]. right. exists a. split; [done|].
  rewrite Forall_forall in Hl. by apply Hl, last_Some_elem_of.
Qed.

Lemma chars_without c v : c ∉ chars v → Forall (λ a : Z * bytes, (a.1 =? c) = false) (chunks v).
Proof.
  intros Hc. apply Forall_forall. intros a Ha. apply Z.eqb_neq. intros E. apply Hc. unfold chars. rewrite <- E. by apply list_elem_of_fmap_2.
Qed.

(** ** Parts at character boundaries *)

Lemma chunks_step l c l' : utf8_step l = Some (c, l') → ∃ p, p ≠ [] ∧ l = p ++ l' ∧ chunks l = (c, p) :: chunks l'.
Proof.
  intros Hs. destruct (utf8_step_suffix _ _ _ Hs) as (p & Hp & ->). exists p. split_and!; [done..|].
  destruct p as [|b p]; [done|]. unfold chunks. cbn [app length chunks_go]. change (b :: p ++ l') with ((b :: p) ++ l'). rewrite Hs.
  rewrite length_app. replace (S (length p + length l') - length l')%nat with (length (b :: p)) by (cbn; lia). rewrite take_app_length.
  f_equal. apply chunks_go_fuel; rewrite ?length_app; lia.
Qed.
Lemma chunks_stray b l : utf8_step (b :: l) = None → chunks (b :: l) = (-1, [b]) :: chunks l.
Proof. intros Hs. unfold chunks at 1. cbn [length chunks_go]. by rewrite Hs. Qed.
(** A character and the text after it *)
Lemma chunks_cons_inv l c p cs : chunks l = (c, p) :: cs → l = p ++ unchunk cs ∧ cs = chunks (unchunk cs) ∧
  (utf8_step l = Some (c, unchunk cs) ∨ utf8_step l = None ∧ c = -1 ∧ ∃ b, p = [b]).
Proof.
  destruct l as [|b l]; [done|]. destruct (utf8_step (b :: l)) as [[c' l']|] eqn:Hs.
  - destruct (chunks_step _ _ _ Hs) as (q & _ & -> & ->). intros [= -> -> <-]. rewrite unchunk_chunks. split_and!; [done..|by left].
  - rewrite chunks_stray by done. intros [= <- <- <-]. rewrite unchunk_chunks. split_and!; [done..|]. right. split_and!; [done..|by exists b].
Qed.

Lemma chunks_suffix l cs ds : chunks l = cs ++ ds → chunks (unchunk ds) = ds.
Proof.
  revert l. induction cs as [|[c p] cs IH]; intros l Hl; cbn [app] in Hl; [by rewrite <- Hl, unchunk_chunks|].
  destruct (chunks_cons_inv _ _ _ _ Hl) as (_ & E & _). exact (IH _ (eq_sym E)).
Qed.

Lemma utf8_step_prefix p l k c : utf8_step (p ++ l) = Some (c, l) → p ≠ [] → utf8_step (p ++ k) = Some (c, k).
Proof.
  intros Hs Hp. assert (length (p ++ l) = (length p + length l)%nat) as Hlen by (by rewrite length_app).
  destruct p as [|b0 [|b1 [|b2 [|b3 p]]]]; [done|..]; cbn [app] in *; unfold utf8_step in *; repeat (case_match; simplify_eq/=; try done);
    try (exfalso; repeat match goal with H : _ = _ :> list _ |- _ => apply (f_equal length) in H end; cbn in *; rewrite ?length_app in *; cbn in *; lia).
  all: match goal with H : ?q ++ _ = _ |- _ => apply (f_equal length) in H; rewrite length_app in H; destruct q; [done|cbn in H; lia] end.
Qed.

Lemma chunks_prefix l cs ds : chunks l = cs ++ ds → chunks (unchunk cs) = cs.
Proof.
  revert l. induction cs as [|[c p] cs IH]; intros l Hl; [done|]. cbn [app] in Hl.
  destruct (chunks_cons_inv _ _ _ _ Hl) as (El & E & Hstep). pose proof (IH _ (eq_sym E)) as IHcs.
  assert (unchunk (cs ++ ds) = unchunk cs ++ unchunk ds) as Ea by (unfold unchunk; by rewrite fmap_app, join_app).
  change (unchunk ((c, p) :: cs)) with (p ++ unchunk cs). destruct Hstep as [Hs|(Hs & -> & b & ->)].
  - assert (p ≠ []) as Hp.
    { intros ->. destruct (chunks_step _ _ _ Hs) as (q & Hq & Hq' & _). rewrite El in Hq'. apply (f_equal length) in Hq'. cbn in Hq'.
      rewrite length_app in Hq'. destruct q; [done|cbn in Hq'; lia]. }
    rewrite El in Hs. apply (utf8_step_prefix p _ (unchunk cs)) in Hs; [|done].
    destruct (chunks_step _ _ _ Hs) as (q & _ & Hq & ->). apply app_inv_tail in Hq as <-. by rewrite IHcs.
  - cbn [app]. rewrite chunks_stray; [by rewrite IHcs|]. destruct (utf8_step (b :: unchunk cs)) as [[c' l']|] eqn:E'; [|done].
    apply (utf8_step_app _ (unchunk ds)) in E'. cbn [app] in E'. rewrite El, Ea in Hs. cbn [app] in Hs. congruence.
Qed.

(** A text whose characters end where it ends *)
Definition complete (l : bytes) : Prop := ∀ r, chunks (l ++ r) = chunks l ++ chunks r.
Lemma complete_nil : complete [].
Proof. done. Qed.
Lemma complete_app l k : complete l → complete k → complete (l ++ k).
Proof. intros Hl Hk r. rewrite <- app_assoc, !Hl, Hk. by rewrite app_assoc. Qed.
Lemma complete_ascii l b : is_ascii_byte b = true → complete (l ++ [b]).
Proof. intros Hb r. rewrite <- app_assoc. cbn [app]. rewrite !chunks_app, !chunks_cons_ascii by done. by rewrite <- app_assoc. Qed.
Lemma complete_suffix cs ds l : chunks l = cs ++ ds → complete l → complete (unchunk ds).
Proof.
  intros Hl Hc r. rewrite (chunks_suffix _ _ _ Hl). specialize (Hc r). rewrite Hl, <- app_assoc in Hc.
  apply chunks_suffix in Hc. rewrite <- Hc. f_equal. unfold unchunk at 2. rewrite fmap_app, join_app. f_equal. symmetry. apply unchunk_chunks.
Qed.

(** ** Trimming *)

Definition strip {A} (p : A → bool) (l : list A) : list A := drop_while_end p (drop_while p l).
Lemma strip_infix {A} (p : A → bool) l : ∃ a b, l = a ++ strip p l ++ b ∧ Forall (λ x, p x = true) a ∧ Forall (λ x, p x = true) b.
Proof.
  destruct (drop_while_suffix p l) as (a & Ha & Pa). destruct (drop_while_suffix p (reverse (drop_while p l))) as (b & Hb & Pb).
  exists a, (reverse b). split_and!; [|done|by apply Forall_reverse]. rewrite Ha at 1. f_equal. unfold strip, drop_while_end.
  rewrite <- reverse_app, <- Hb. by rewrite reverse_involutive.
Qed.
Lemma chunks_trim_matches p l : chunks (trim_matches p l) = strip (p ∘ fst) (chunks l).
Proof.
  unfold trim_matches. fold (strip (p ∘ fst) (chunks l)). destruct (strip_infix (p ∘ fst) (chunks l)) as (a & b & E & _).
  apply (chunks_prefix (unchunk (strip (p ∘ fst) (chunks l) ++ b)) _ b). by apply (chunks_suffix l a).
Qed.
Lemma strip_length {A} (p : A → bool) l : (length (strip p l) ≤ length l)%nat.
Proof. destruct (strip_infix p l) as (a & b & E & _). rewrite E at 2. rewrite !length_app. lia. Qed.

Lemma drop_while_all {A} (p : A → bool) a l : Forall (λ x, p x = true) a → drop_while p (a ++ l) = drop_while p l.
Proof. induction 1 as [|x a Hx _ IH]; [done|]. cbn. by rewrite Hx. Qed.
Lemma strip_forall {A} (p : A → bool) l : Forall (λ x, p x = true) l → strip p l = [].
Proof. intros Hl. unfold strip. rewrite <- (app_nil_r l), drop_while_all by done. done. Qed.
Lemma strip_around {A} (p : A → bool) a l b : Forall (λ x, p x = true) a → Forall (λ x, p x = true) b → strip p (a ++ l ++ b) = strip p l.
Proof.
  intros Ha Hb. unfold strip at 1. rewrite drop_while_all by done. destruct (drop_while_suffix p l) as (k & Hk & Pk).
  destruct (drop_while p l) as [|x r] eqn:E.
  - assert (Forall (λ x, p x = true) (l ++ b)) as Hall by (apply Forall_app; split; [rewrite Hk, app_nil_r; done|done]).
    fold (strip p (l ++ b)). rewrite strip_forall by done. symmetry. apply strip_forall. by rewrite Hk, app_nil_r.
  - assert (p x = false) as Hx by (apply (drop_while_head p l); by rewrite E).
    rewrite Hk, <- app_assoc, drop_while_all by done. cbn [app drop_while]. rewrite Hx. unfold strip, drop_while_end. rewrite <- Hk, E.
    rewrite app_comm_cons, reverse_app, drop_while_all by by apply Forall_reverse. done.
Qed.

Lemma trim_chunks_nil l : trim l = [] ↔ Forall (λ x, is_whitespace x.1 = true) (chunks l).
Proof.
  rewrite <- (unchunk_chunks (trim l)). unfold trim. rewrite chunks_trim_matches. split.
  - destruct (strip_infix (is_whitespace ∘ fst) (chunks l)) as (a & b & E & Ha & Hb). intros Hs. rewrite E. apply Forall_app. split; [exact Ha|].
    apply Forall_app. split; [|exact Hb]. destruct (strip (is_whitespace ∘ fst) (chunks l)) as [|[c bs] cs] eqn:Es; [constructor|]. exfalso.
    assert ((c, bs) ∈ chunks l) as Hin by (rewrite E; set_solver). destruct (elem_of_chunks_go _ _ _ _ Hin) as [Hbs _]. cbn in Hs. by destruct bs.
  - intros Hall. by rewrite strip_forall.
Qed.

(** The characters a text has between its outer blanks *)
Definition width (l : bytes) : nat := char_count (trim l).
Lemma width_strip l : width l = length (strip (is_whitespace ∘ fst) (chunks l)).
Proof. unfold width, char_count, trim. by rewrite chunks_trim_matches. Qed.
Lemma width_le l : (width l ≤ char_count l)%nat.
Proof. rewrite width_strip. apply strip_length. Qed.
Lemma width_blank_app l r : complete l → trim l = [] → width (l ++ r) = width r.
Proof.
  intros Hl Hb%trim_chunks_nil. rewrite !width_strip, Hl. rewrite <- (app_nil_r (chunks r)) at 1. rewrite strip_around; [done|exact Hb|constructor].
Qed.
Lemma char_count_app l r : complete l → char_count (l ++ r) = (char_count l + char_count r)%nat.
Proof. intros Hl. unfold char_count. by rewrite Hl, length_app. Qed.

(** ** Validity *)

Lemma utf8_go_fuel f g l : (length l ≤ f)%nat → (length l ≤ g)%nat → utf8_go f l = utf8_go g l.
Proof.
  revert g l. induction f as [|f IH]; intros [|g] [|b l]; cbn [length]; try lia; [done..|]. intros H1 H2. cbn [utf8_go].
  destruct (utf8_step (b :: l)) as [[c l']|] eqn:Hs; [|done]. destruct (utf8_step_suffix _ _ _ Hs) as (p & Hp & E).
  apply (f_equal length) in E. rewrite length_app in E. cbn in E. assert (0 < length p)%nat by (destruct p; [done|cbn; lia]). by rewrite (IH g) by lia.
Qed.
Lemma utf8_valid_app l r : utf8_valid l = true → utf8_valid r = true → utf8_valid (l ++ r) = true.
Proof.
  unfold utf8_valid, utf8_decode. rewrite !bool_decide_eq_true. intros Hl Hr. generalize (le_n (length l)). generalize (length l) at 2. intros n.
  revert l Hl. induction n as [|n IH]; intros l Hl Hn; [destruct l; [done|cbn in Hn; lia]|]. destruct l as [|b l]; [done|].
  cbn [length app] in *. cbn [utf8_go] in *. destruct (utf8_step (b :: l)) as [[c l']|] eqn:Hs; [|by destruct Hl].
  pose proof (utf8_step_app _ r _ _ Hs) as Hs'. cbn [app] in Hs'. rewrite Hs'. destruct (utf8_step_suffix _ _ _ Hs) as (p & Hp & E).
  apply (f_equal length) in E. rewrite length_app in E. cbn in E. assert (0 < length p)%nat by (destruct p; [done|cbn; lia]).
  specialize (IH l'). rewrite (utf8_go_fuel (length l) (length l')) in Hl by lia.
  rewrite (utf8_go_fuel (length (l ++ r)) (length (l' ++ r))) by (rewrite !length_app; lia).
  destruct (utf8_go (length l') l') as [cs|]; [|by destruct Hl]. destruct IH as [ds ->]; [by eexists|lia|]. by eexists.
Qed.
