(* ===== verification/Belnap.v ===== *)
(** * Belnap four-valued confidence ([mem-core/src/belnap.rs])

    The four values, [join] and [meet] under the knowledge order, and the
    dimension-wise merge of two confidence vectors. *)

From S2P Require Import Prelude.

Inductive BelnapValue : Type := True_ | False_ | Both | Neither.

#[export] Instance BelnapValue_eq_dec : EqDecision BelnapValue.
Proof. solve_decision. Defined.
(** [#[default] Neither] *)
#[export] Instance BelnapValue_inhabited : Inhabited BelnapValue := populate Neither.

#[export] Instance BelnapValue_countable : Countable BelnapValue.
Proof.
  refine (inj_countable'
    (λ v, match v with True_ => 0 | False_ => 1 | Both => 2 | Neither => 3 end%nat)
    (λ n, match n with 0 => True_ | 1 => False_ | 2 => Both | _ => Neither end%nat) _).
  by intros [].
Defined.

Module Belnap.

Definition join (self other : BelnapValue) : BelnapValue :=
  match self, other with
  | Neither, x | x, Neither => x
  | Both, _ | _, Both => Both
  | True_, True_ => True_
  | False_, False_ => False_
  | True_, False_ | False_, True_ => Both
  end.

Definition meet (self other : BelnapValue) : BelnapValue :=
  match self, other with
  | Both, x | x, Both => x
  | Neither, _ | _, Neither => Neither
  | True_, True_ => True_
  | False_, False_ => False_
  | True_, False_ | False_, True_ => Neither
  end.

Definition is_contradiction (v : BelnapValue) : bool :=
  match v with Both => true | _ => false end.

Definition is_unknown (v : BelnapValue) : bool :=
  match v with Neither => true | _ => false end.

(** The knowledge order of the module documentation:
    [Neither ≤ {True, False} ≤ Both]. *)
Definition le (a b : BelnapValue) : Prop := a = Neither ∨ b = Both ∨ a = b.

#[export] Instance le_po : PartialOrder le.
Proof. split; [split|]; unfold le; repeat intros []; naive_solver. Qed.

Lemma join_comm a b : join a b = join b a.
Proof. by destruct a, b. Qed.
Lemma join_assoc a b c : join (join a b) c = join a (join b c).
Proof. by destruct a, b, c. Qed.
Lemma join_idem a : join a a = a.
Proof. by destruct a. Qed.
Lemma join_neither_l a : join Neither a = a.
Proof. by destruct a. Qed.
Lemma join_neither_r a : join a Neither = a.
Proof. by destruct a. Qed.

Lemma join_lub a b c : le (join a b) c ↔ le a c ∧ le b c.
Proof. unfold le. destruct a, b, c; naive_solver. Qed.
Lemma meet_glb a b c : le c (meet a b) ↔ le c a ∧ le c b.
Proof. unfold le. destruct a, b, c; naive_solver. Qed.

(** [a.get(i).copied().unwrap_or_default()] *)
Definition conf_get (a : list BelnapValue) (i : nat) : BelnapValue := default Neither (a !! i).

Definition join_confidence (a b : list BelnapValue) : list BelnapValue :=
  let n := (length a `max` length b)%nat in
  (λ i, join (conf_get a i) (conf_get b i)) <$> seq 0 n.

Lemma length_join_confidence a b :
  length (join_confidence a b) = (length a `max` length b)%nat.
Proof. unfold join_confidence. by rewrite length_fmap, length_seq. Qed.

Lemma lookup_join_confidence a b i :
  (i < length a `max` length b)%nat →
  join_confidence a b !! i = Some (join (conf_get a i) (conf_get b i)).
Proof.
  intros Hi. unfold join_confidence. rewrite list_lookup_fmap, lookup_seq_lt by done. done.
Qed.

Lemma conf_get_ge a i : (length a ≤ i)%nat → conf_get a i = Neither.
Proof. intros Hi. unfold conf_get. by rewrite lookup_ge_None_2. Qed.

Lemma conf_get_join_confidence a b i :
  conf_get (join_confidence a b) i = join (conf_get a i) (conf_get b i).
Proof.
  destruct (decide (i < length a `max` length b)%nat) as [Hi|Hi].
  - unfold conf_get at 1. by rewrite lookup_join_confidence.
  - rewrite !conf_get_ge; [done|lia|lia|]. rewrite length_join_confidence. lia.
Qed.

Lemma conf_ext a b :
  length a = length b → (∀ i, (i < length a)%nat → conf_get a i = conf_get b i) → a = b.
Proof.
  intros Hlen Hget. apply list_eq_same_length with (length a); [done..|].
  intros i x y Hi Hx Hy. specialize (Hget i Hi). unfold conf_get in Hget.
  by rewrite Hx, Hy in Hget.
Qed.

Lemma join_confidence_comm a b : join_confidence a b = join_confidence b a.
Proof.
  apply conf_ext; [rewrite !length_join_confidence; lia|]. intros i _.
  rewrite !conf_get_join_confidence. apply join_comm.
Qed.

Lemma join_confidence_assoc a b c :
  join_confidence (join_confidence a b) c = join_confidence a (join_confidence b c).
Proof.
  apply conf_ext; [rewrite !length_join_confidence; lia|]. intros i _.
  rewrite !conf_get_join_confidence. apply join_assoc.
Qed.

Lemma join_confidence_idem a : join_confidence a a = a.
Proof.
  apply conf_ext; [rewrite length_join_confidence; lia|]. intros i _.
  rewrite conf_get_join_confidence. apply join_idem.
Qed.

(** The order the merge moves along: at least as long, and at least as much
    knowledge in every dimension. *)
Definition conf_le (a b : list BelnapValue) : Prop :=
  (length a ≤ length b)%nat ∧ ∀ i, le (conf_get a i) (conf_get b i).

(** [join_confidence] is the least upper bound of two confidence vectors
    under the dimension-wise knowledge order, with absent positions counted as
    no evidence: a state-based CRDT merge, so no evidence of either side is
    lost and nothing is invented. *)
Theorem join_confidence_lub a b c :
  conf_le (join_confidence a b) c ↔ conf_le a c ∧ conf_le b c.
Proof.
  unfold conf_le. rewrite length_join_confidence. setoid_rewrite conf_get_join_confidence.
  setoid_rewrite join_lub. split.
  - intros [Hlen Hle]. repeat split; try lia; intros i; apply Hle.
  - intros [[Hla Ha] [Hlb Hb]]. split; [lia|auto].
Qed.

End Belnap.
