(* ===== verification/Identity.v ===== *)
(** * Content-addressed identity ([mem-core/src/identity.rs])

    [ContentHash] is a 32-byte hash; [IdBuilder] feeds length-prefixed, tagged
    fields to a blake3 hasher.  A hasher is the bytes fed to it so far. *)

From S2P Require Import Prelude Bytes Externs.

Abbreviation ContentHash := (array 32).

Section identity.
Context `{Blake3, Hex}.

Definition to_hex (self : ContentHash) : string := hex_encode (array_bytes self).

Definition from_hex (s : string) : option ContentHash :=
  match hex_decode s with
  | Ok b => array_of 32 b
  | Err _ => None
  end.

Record IdBuilder := { hasher : bytes }.

Definition feed_raw (hasher : bytes) (tag : byte) (b : bytes) : bytes :=
  hasher ++ [tag] ++ to_le_bytes 8 (Z.of_nat (length b)) ++ b.

Definition IdBuilder_new (domain : string) : IdBuilder :=
  {| hasher := feed_raw [] Byte.x00 (as_bytes domain) |}.

Definition field (self : IdBuilder) (tag : byte) (b : bytes) : IdBuilder :=
  {| hasher := feed_raw (hasher self) tag b |}.

Definition field_str (self : IdBuilder) (tag : byte) (s : string) : IdBuilder :=
  field self tag (as_bytes s).

Definition field_u16 (self : IdBuilder) (tag : byte) (v : Z) : IdBuilder :=
  field self tag (to_le_bytes 2 v).

Definition finish (self : IdBuilder) : ContentHash := blake3 (hasher self).

(** Feeding is framing: the hasher always holds the encoding of the frames. *)
Lemma feed_raw_frame h t b : feed_raw h t b = h ++ encode_frames [(t, b)].
Proof. unfold feed_raw, encode_frames, feed_frame. simpl. by rewrite app_nil_r. Qed.

Context `{!HexLaws}.

(** A content hash survives its hex rendering: [from_hex] inverts [to_hex]. *)
Theorem from_hex_to_hex (h : ContentHash) : from_hex (to_hex h) = Some h.
Proof. unfold from_hex, to_hex. rewrite hex_decode_encode. apply array_of_array. Qed.

Lemma to_hex_inj (g h : ContentHash) : to_hex g = to_hex h → g = h.
Proof. intros Hgh. apply hex_encode_inj in Hgh. by apply array_eq. Qed.
End identity.
