(* ===== verification/Node.v ===== *)
(** * Memory nodes and the ontology ([mem-core/src/node.rs])

    The node record, its kinds, and the content-addressed identity: which
    fields the id covers, and that the bytes hashed determine them. *)

From stdpp Require Import pretty.
From S2P Require Import Prelude Bytes Externs Text Belnap Identity.

Definition SCHEMA_VERSION : Z := 1.
Definition ID_DOMAIN : string := "memory-node:v1".

(** epoch milliseconds, a [u64] *)
Abbreviation Timestamp := Z.

Inductive Plane := Derived | Asserted.

Inductive TrustTier := DerivedDeterministic | HumanConfirmed | AgentAsserted | InferredAdvisory.

Inductive Status := Active | Superseded | Archived.

Inductive SprintPhase := Kickoff | Daily | Close.

Inductive NarrativeKind := Journal | Essay | CaseStudy.

Inductive ClaimStatus := Confirmed | Corrected | Refined.

Inductive NodeKind :=
| Commit | Pr | Sprint (p : SprintPhase) | Adr | Audit | Finding | Handoff
| Narrative (k : NarrativeKind) | Claim (s : ClaimStatus) | ManifestChange | PinBump
| DriftEvent | Benchmark | AgentAction | Blocker | TechDebt | WorkPackage | Rationale
| AnalogyHypothesis | Doc | Tenant | ChainNetwork | ChainContract | ChainEvent
| ChainCheckpoint | Branch.

#[export] Instance Plane_eq_dec : EqDecision Plane.
Proof. solve_decision. Defined.
#[export] Instance TrustTier_eq_dec : EqDecision TrustTier.
Proof. solve_decision. Defined.
#[export] Instance Status_eq_dec : EqDecision Status.
Proof. solve_decision. Defined.
#[export] Instance SprintPhase_eq_dec : EqDecision SprintPhase.
Proof. solve_decision. Defined.
#[export] Instance NarrativeKind_eq_dec : EqDecision NarrativeKind.
Proof. solve_decision. Defined.
#[export] Instance ClaimStatus_eq_dec : EqDecision ClaimStatus.
Proof. solve_decision. Defined.
#[export] Instance NodeKind_eq_dec : EqDecision NodeKind.
Proof. solve_decision. Defined.

Definition Plane_tag (self : Plane) : string :=
  match self with Derived => "derived" | Asserted => "asserted" end.

(** The [Debug] rendering of the unit variants ([{:?}]) *)
Definition SprintPhase_debug (p : SprintPhase) : string :=
  match p with Kickoff => "Kickoff" | Daily => "Daily" | Close => "Close" end.
Definition NarrativeKind_debug (k : NarrativeKind) : string :=
  match k with Journal => "Journal" | Essay => "Essay" | CaseStudy => "CaseStudy" end.
Definition ClaimStatus_debug (s : ClaimStatus) : string :=
  match s with Confirmed => "Confirmed" | Corrected => "Corrected" | Refined => "Refined" end.

(** [str::to_lowercase], on the ASCII the discriminants are made of *)
Definition ascii_lower (c : ascii) : ascii :=
  let n := Ascii.nat_of_ascii c in
  if ((65 <=? n) && (n <=? 90))%nat then Ascii.ascii_of_nat (n + 32) else c.
Fixpoint lowercase_debug (s : string) : string :=
  match s with EmptyString => EmptyString | String c s => String (ascii_lower c) (lowercase_debug s) end.

Definition discriminant (self : NodeKind) : string :=
  match self with
  | Commit => "commit"
  | Pr => "pr"
  | Sprint p => lowercase_debug ("sprint:" +:+ SprintPhase_debug p)
  | Adr => "adr"
  | Audit => "audit"
  | Finding => "finding"
  | Handoff => "handoff"
  | Narrative k => lowercase_debug ("narrative:" +:+ NarrativeKind_debug k)
  | Claim s => lowercase_debug ("claim:" +:+ ClaimStatus_debug s)
  | ManifestChange => "manifest_change"
  | PinBump => "pin_bump"
  | DriftEvent => "drift_event"
  | Benchmark => "benchmark"
  | AgentAction => "agent_action"
  | Blocker => "blocker"
  | TechDebt => "tech_debt"
  | WorkPackage => "work_package"
  | Rationale => "rationale"
  | AnalogyHypothesis => "analogy_hypothesis"
  | Doc => "doc"
  | Tenant => "tenant"
  | ChainNetwork => "chain_network"
  | ChainContract => "chain_contract"
  | ChainEvent => "chain_event"
  | ChainCheckpoint => "chain_checkpoint"
  | Branch => "branch"
  end.

Inductive SourceRef :=
| Artifact (repo path git_sha : string) (byte_start byte_end : Z)
| GitCommit (repo sha : string)
| DagNative (key : string).

#[export] Instance SourceRef_eq_dec : EqDecision SourceRef.
Proof. solve_decision. Defined.

(** [str::replace(c, t)] for a one-byte pattern *)
Fixpoint replace_char (c : ascii) (t : string) (s : string) : string :=
  match s with
  | EmptyString => EmptyString
  | String a s => (if decide (a = c) then t else String a EmptyString) +:+ replace_char c t s
  end.

Definition backslash : ascii := "\".
Definition pipe : ascii := "|".

Definition esc (s : string) : string :=
  replace_char pipe "\|" (replace_char backslash "\\" s).

Definition canonical_bytes (self : SourceRef) : bytes :=
  match self with
  | Artifact repo path git_sha byte_start byte_end =>
      as_bytes ("artifact|" +:+ esc repo +:+ "|" +:+ esc path +:+ "|" +:+ esc git_sha +:+ "|"
                +:+ decimal byte_start +:+ "|" +:+ decimal byte_end)
  | GitCommit repo sha => as_bytes ("git_commit|" +:+ esc repo +:+ "|" +:+ esc sha)
  | DagNative key => as_bytes ("dag_native|" +:+ esc key)
  end.

Record CodeAnchor := {
  ca_repo : string;
  ca_path : string;
  ca_symbol : option string;
  ca_line_start : Z;
  ca_line_end : Z;
}.

#[export] Instance CodeAnchor_eq_dec : EqDecision CodeAnchor.
Proof. solve_decision. Defined.

(** An [f32] by its IEEE-754 bit pattern: [to_bits] is the projection. *)
Record f32 := F32 { to_bits : Z }.
#[export] Instance f32_eq_dec : EqDecision f32.
Proof. solve_decision. Defined.

Definition f32_is_nan (f : f32) : bool := 0x7f800000 <? Z.land (to_bits f) 0x7fffffff.
Definition f32_is_zero (f : f32) : bool := Z.land (to_bits f) 0x7fffffff =? 0.
Definition f32_is_finite (f : f32) : bool := Z.land (to_bits f) 0x7fffffff <? 0x7f800000.

(** [PartialEq] on [f32]: a NaN equals nothing, the two zeros are equal. *)
Definition f32_eqb (a b : f32) : bool :=
  if f32_is_nan a || f32_is_nan b then false
  else if f32_is_zero a && f32_is_zero b then true
  else to_bits a =? to_bits b.

Record VersionedVector := {
  vv_model : string;
  vv_data : list f32;
}.

#[export] Instance VersionedVector_eq_dec : EqDecision VersionedVector.
Proof. solve_decision. Defined.

Fixpoint list_eqb {A} (eqb : A → A → bool) (l k : list A) : bool :=
  match l, k with
  | [], [] => true
  | a :: l, b :: k => eqb a b && list_eqb eqb l k
  | _, _ => false
  end.

Definition VersionedVector_eqb (a b : VersionedVector) : bool :=
  bool_decide (vv_model a = vv_model b) && list_eqb f32_eqb (vv_data a) (vv_data b).

Definition option_eqb {A} (eqb : A → A → bool) (o p : option A) : bool :=
  match o, p with
  | None, None => true
  | Some a, Some b => eqb a b
  | _, _ => false
  end.

Record MemoryNode := {
  n_schema_version : Z;
  n_plane : Plane;
  n_kind : NodeKind;
  n_repo : string;
  n_author : string;
  n_source_ref : SourceRef;
  n_content : bytes;
  n_valid_from : Timestamp;
  n_valid_to : option Timestamp;
  n_observed_at : Timestamp;
  n_trust_tier : TrustTier;
  n_signature : option bytes;
  n_embedding : option VersionedVector;
  n_confidence : list BelnapValue;
  n_anchors : list CodeAnchor;
  n_status : Status;
}.

#[export] Instance MemoryNode_eq_dec : EqDecision MemoryNode.
Proof. solve_decision. Defined.

(** The identity set of [compute_id]'s documentation. *)
Definition identity_set (n : MemoryNode) :=
  (n_schema_version n, n_plane n, n_kind n, n_repo n, n_author n, n_source_ref n, n_content n).

(** [#[derive(PartialEq)]]: field by field, the embedding by [f32]'s equality. *)
Definition MemoryNode_eqb (a b : MemoryNode) : bool :=
  bool_decide (identity_set a = identity_set b)
  && bool_decide ((n_valid_from a, n_valid_to a, n_observed_at a) = (n_valid_from b, n_valid_to b, n_observed_at b))
  && bool_decide (n_trust_tier a = n_trust_tier b)
  && bool_decide (n_signature a = n_signature b)
  && option_eqb VersionedVector_eqb (n_embedding a) (n_embedding b)
  && bool_decide (n_confidence a = n_confidence b)
  && bool_decide (n_anchors a = n_anchors b)
  && bool_decide (n_status a = n_status b).

Section compute_id.
Context `{Blake3}.

Definition id_builder (self : MemoryNode) : IdBuilder :=
  let b := IdBuilder_new ID_DOMAIN in
  let b := field_u16 b Byte.x01 (n_schema_version self) in
  let b := field_str b Byte.x02 (Plane_tag (n_plane self)) in
  let b := field_str b Byte.x03 (discriminant (n_kind self)) in
  let b := field_str b Byte.x04 (n_repo self) in
  let b := field_str b Byte.x05 (n_author self) in
  let b := field b Byte.x06 (canonical_bytes (n_source_ref self)) in
  field b Byte.x07 (n_content self).

Definition compute_id (self : MemoryNode) : ContentHash := finish (id_builder self).

(** What is hashed *)
Definition id_preimage (n : MemoryNode) : bytes := hasher (id_builder n).

Definition id_frames (n : MemoryNode) : list frame :=
  [(Byte.x00, as_bytes ID_DOMAIN);
   (Byte.x01, to_le_bytes 2 (n_schema_version n));
   (Byte.x02, as_bytes (Plane_tag (n_plane n)));
   (Byte.x03, as_bytes (discriminant (n_kind n)));
   (Byte.x04, as_bytes (n_repo n));
   (Byte.x05, as_bytes (n_author n));
   (Byte.x06, canonical_bytes (n_source_ref n));
   (Byte.x07, n_content n)].

Lemma id_preimage_frames n : id_preimage n = encode_frames (id_frames n).
Proof.
  unfold id_preimage, id_builder, field_str, field_u16.
  cbn [hasher field IdBuilder_new]. rewrite !feed_raw_frame, app_nil_l. by rewrite <-!encode_frames_app.
Qed.
End compute_id.

(** ** The hashed bytes determine the identity set *)

Definition all_kinds : list NodeKind :=
  [Commit; Pr; Sprint Kickoff; Sprint Daily; Sprint Close; Adr; Audit; Finding; Handoff;
   Narrative Journal; Narrative Essay; Narrative CaseStudy; Claim Confirmed; Claim Corrected;
   Claim Refined; ManifestChange; PinBump; DriftEvent; Benchmark; AgentAction; Blocker;
   TechDebt; WorkPackage; Rationale; AnalogyHypothesis; Doc; Tenant; ChainNetwork;
   ChainContract; ChainEvent; ChainCheckpoint; Branch].

Definition kind_of_discriminant (s : string) : option NodeKind :=
  snd <$> list_find (λ k, discriminant k = s) all_kinds.

Lemma kind_of_discriminant_correct k : kind_of_discriminant (discriminant k) = Some k.
Proof. destruct k as [| |[]| | | | |[]|[]| | | | | | | | | | | | | | | | |]; vm_compute; reflexivity. Qed.

#[export] Instance discriminant_inj : Inj (=) (=) discriminant.
Proof.
  intros k l Hkl. apply (f_equal kind_of_discriminant) in Hkl.
  rewrite !kind_of_discriminant_correct in Hkl. by injection Hkl.
Qed.

#[export] Instance Plane_tag_inj : Inj (=) (=) Plane_tag.
Proof. by intros [] []. Qed.

(** [esc] as one pass: each character becomes its own escape. *)
Definition esc_char (a : ascii) : string :=
  if decide (a = backslash) then "\\"
  else if decide (a = pipe) then "\|" else String a EmptyString.

Lemma app_cons_string a s t : String a s +:+ t = String a (s +:+ t).
Proof. done. Qed.
Lemma app_assoc_string s t u : (s +:+ t) +:+ u = s +:+ t +:+ u.
Proof. induction s as [|a s IH]; [done|]. by rewrite !app_cons_string, IH. Qed.
Lemma app_empty_string s : "" +:+ s = s.
Proof. done. Qed.

Lemma replace_char_app c t s u :
  replace_char c t (s +:+ u) = replace_char c t s +:+ replace_char c t u.
Proof.
  induction s as [|a s IH]; [done|]. rewrite app_cons_string. simpl. by rewrite IH, app_assoc_string.
Qed.

Lemma esc_empty : esc "" = "".
Proof. done. Qed.
Lemma esc_cons a s : esc (String a s) = esc_char a +:+ esc s.
Proof.
  unfold esc. simpl. rewrite replace_char_app. f_equal. unfold esc_char.
  case_decide; [by vm_compute|]. simpl. by case_decide.
Qed.

(** An escaped field followed by a separator, or by the end, can be read back. *)
Lemma esc_sep_inj s t u v : esc s +:+ String pipe u = esc t +:+ String pipe v → s = t ∧ u = v.
Proof.
  revert t. induction s as [|a s IH]; intros [|b t]; rewrite ?esc_empty, ?esc_cons, ?app_empty_string.
  - by intros [= ->].
  - unfold esc_char. repeat case_decide; intros [=]; congruence.
  - unfold esc_char. repeat case_decide; intros [=]; congruence.
  - rewrite !app_assoc_string. intros Heq.
    assert (a = b ∧ esc s +:+ String pipe u = esc t +:+ String pipe v) as [-> Heq'].
    { unfold esc_char in Heq. repeat case_decide; simplify_eq; try done;
        injection Heq; intros; simplify_eq; done. }
    by apply IH in Heq' as [-> ->].
Qed.

#[export] Instance esc_inj : Inj (=) (=) esc.
Proof.
  intros s t Hst. by apply (f_equal (λ x, x +:+ String pipe "")), esc_sep_inj in Hst as [-> _].
Qed.

(** Decimal renderings contain nothing to escape. *)
Lemma esc_pretty_N_go x s : esc s = s → esc (pretty_N_go x s) = pretty_N_go x s.
Proof.
  revert s. induction (N.lt_wf_0 x) as [x _ IH]; intros s Hs.
  assert (x = 0 ∨ 0 < x)%N as [->|?] by lia; [by rewrite pretty_N_go_0|].
  rewrite pretty_N_go_step by done. apply IH; [by apply N.div_lt|].
  rewrite esc_cons, Hs. unfold pretty_N_char. by repeat case_match.
Qed.

Lemma esc_decimal z : esc (decimal z) = decimal z.
Proof. unfold decimal, pretty, pretty_N. case_decide; [by vm_compute|]. by apply esc_pretty_N_go. Qed.

Definition source_ref_wf (s : SourceRef) : Prop :=
  match s with Artifact _ _ _ a b => 0 ≤ a ∧ 0 ≤ b | _ => True end.

(** A separator after an escaped field, as the format strings write it *)
Lemma pipe_app s : "|" +:+ s = String pipe s.
Proof. done. Qed.

(** [MEM-B-017]: distinct source references serialise to distinct bytes, also
    when a path or a sha contains the separator. *)
Lemma canonical_bytes_inj s t :
  source_ref_wf s → source_ref_wf t → canonical_bytes s = canonical_bytes t → s = t.
Proof.
  destruct s as [r p g a b|r g|k], t as [r' p' g' a' b'|r' g'|k']; simpl; intros Hs Ht Heq;
    apply (inj as_bytes) in Heq; try discriminate Heq;
    [apply (inj (String.append "artifact|")) in Heq
    |apply (inj (String.append "git_commit|")) in Heq
    |apply (inj (String.append "dag_native|")) in Heq];
    rewrite ?pipe_app in Heq.
  - rewrite <-(esc_decimal a), <-(esc_decimal a'), <-(esc_decimal b), <-(esc_decimal b') in Heq.
    apply esc_sep_inj in Heq as [-> Heq]. apply esc_sep_inj in Heq as [-> Heq].
    apply esc_sep_inj in Heq as [-> Heq]. apply esc_sep_inj in Heq as [Ha Hb].
    apply (inj esc) in Hb. apply decimal_inj in Ha as ->; [|tauto..].
    by apply decimal_inj in Hb as ->; [|tauto..].
  - by apply esc_sep_inj in Heq as [-> ->%(inj esc)].
  - by apply (inj esc) in Heq as ->.
Qed.

(** What the Rust types guarantee: [u16] and [u64] fields in range, and buffers
    no longer than the address space. *)
Definition node_wf (n : MemoryNode) : Prop :=
  0 ≤ n_schema_version n < 2 ^ 16 ∧ source_ref_wf (n_source_ref n) ∧
  fits (as_bytes (n_repo n)) ∧ fits (as_bytes (n_author n)) ∧
  fits (canonical_bytes (n_source_ref n)) ∧ fits (n_content n).

Lemma id_frames_fit n : node_wf n → Forall (λ f, fits f.2) (id_frames n).
Proof.
  intros (? & ? & ? & ? & ? & ?). unfold id_frames. repeat constructor; simpl; try done;
    unfold fits, u64_max; rewrite ?length_to_le_bytes; try lia.
  - by destruct (n_plane n).
  - destruct (n_kind n) as [| |[]| | | | |[]|[]| | | | | | | | | | | | | | | | |]; vm_compute; congruence.
Qed.

Lemma id_preimage_inj a b :
  node_wf a → node_wf b → id_preimage a = id_preimage b → identity_set a = identity_set b.
Proof.
  intros Ha Hb Heq. rewrite !id_preimage_frames in Heq.
  apply encode_frames_inj in Heq; [|by apply id_frames_fit..].
  destruct Ha as (? & ? & _), Hb as (? & ? & _).
  unfold id_frames in Heq. split_frames Heq. unfold identity_set.
  rename Hfr0 into Hv, Hfr1 into Hp, Hfr2 into Hk, Hfr3 into Hr, Hfr4 into Hau, Hfr5 into Hs, Hfr6 into Hc.
  apply to_le_bytes_inj in Hv; [|change (256 ^ Z.of_nat 2) with (2 ^ 16); lia..].
  apply (inj as_bytes), (inj Plane_tag) in Hp. apply (inj as_bytes), (inj discriminant) in Hk.
  apply (inj as_bytes) in Hr, Hau. apply canonical_bytes_inj in Hs; [|done..].
  by rewrite Hv, Hp, Hk, Hr, Hau, Hs, Hc.
Qed.

Lemma id_preimage_identity a b : identity_set a = identity_set b → id_preimage a = id_preimage b.
Proof.
  rewrite !id_preimage_frames. unfold identity_set, id_frames. intros [= -> -> -> -> -> -> ->]. done.
Qed.

Lemma compute_id_identity `{Blake3} a b : identity_set a = identity_set b → compute_id a = compute_id b.
Proof. intros Heq. apply id_preimage_identity in Heq. unfold compute_id, finish, id_preimage in *. by rewrite Heq. Qed.

(** [C1] The core invariant of the repository: two nodes have the same id exactly
    when they agree on the identity set (schema version, plane, kind, repo,
    author, source reference, content) or blake3 collides on the two distinct
    byte strings hashed.  So timestamps, trust tier, signature, embedding,
    confidence, anchors and status never move an id, and no two different
    identity sets can be confused by concatenation or by separators inside a
    path or a sha. *)
Theorem compute_id_binds `{Blake3} (a b : MemoryNode) (Ha : node_wf a) (Hb : node_wf b) :
  compute_id a = compute_id b ↔
  identity_set a = identity_set b ∨
  (id_preimage a ≠ id_preimage b ∧ blake3 (id_preimage a) = blake3 (id_preimage b)).
Proof.
  split.
  - intros Heq. destruct (decide (id_preimage a = id_preimage b)) as [Hp|Hp].
    + left. by apply id_preimage_inj.
    + by right.
  - intros [Heq|[_ Heq]]; [by apply compute_id_identity|done].
Qed.
