(* ===== verification/Float.v ===== *)
(** * Single- and double-precision arithmetic

    What the vector indexes use of [f32] and [f64]: decoding and encoding of bit
    patterns, the four operations rounded to nearest even (the Standard Library's
    [SpecFloat] at 24 and 53 bits), [partial_cmp], [total_cmp], [Iterator::sum] and
    the saturating casts.  Rust leaves the sign and payload of a NaN that an
    operation returns to the platform; [FloatNan] is that pattern. *)

From Stdlib Require Import SpecFloat.
From S2P Require Import Prelude Bytes Belnap Identity Node.

(** ** Bit patterns *)

Definition f32_sign (f : f32) : bool := Z.testbit (to_bits f) 31.
(** The pattern without its sign bit *)
Definition f32_mag (f : f32) : Z := Z.land (to_bits f) 0x7fffffff.

Definition f32_val (f : f32) : spec_float :=
  let s := f32_sign f in
  let e := Z.shiftr (f32_mag f) 23 in
  let m := Z.land (to_bits f) 0x7fffff in
  if e =? 255 then (if m =? 0 then S754_infinity s else S754_nan)
  else if e =? 0 then
    match m with Zpos p => S754_finite s p (-149) | _ => S754_zero s end
  else match m + 2 ^ 23 with Zpos p => S754_finite s p (e - 150) | _ => S754_nan end.

(** The bit pattern of a float, [nan] for a NaN *)
Definition pack (nan : f32) (f : spec_float) : f32 :=
  let sign (s : bool) := if s then 0x80000000 else 0 in
  match f with
  | S754_zero s => F32 (sign s)
  | S754_infinity s => F32 (sign s + 0x7f800000)
  | S754_nan => nan
  | S754_finite s m e =>
    F32 (sign s + (if Zpos m <? 2 ^ 23 then Zpos m else (e + 150) * 2 ^ 23 + (Zpos m - 2 ^ 23)))
  end.

(** The quiet NaN without sign and payload *)
Definition plain_nan : f32 := F32 0x7fc00000.
Definition spec_bits (f : spec_float) : f32 := pack plain_nan f.
(** [n as f32] *)
Definition f32_of_nat (n : nat) : spec_float := binary_normalize 24 128 (Z.of_nat n) 0 false.

Definition f32_zero : f32 := F32 0.
Definition f32_neg_zero : f32 := F32 0x80000000.
Definition f32_one : f32 := F32 0x3f800000.
Definition f32_neg_one : f32 := F32 0xbf800000.
Definition f32_infinity : f32 := F32 0x7f800000.
Definition f32_neg_infinity : f32 := F32 0xff800000.

(** ** Comparison *)

(** The signed magnitude: the two zeros are one value *)
Definition f32_ordinal (f : f32) : Z := if f32_sign f then - f32_mag f else f32_mag f.

(** [partial_cmp] *)
Definition f32_partial_cmp (a b : f32) : option comparison :=
  if f32_is_nan a || f32_is_nan b then None else Some (f32_ordinal a ?= f32_ordinal b).

(** [a > b] *)
Definition f32_gtb (a b : f32) : bool := bool_decide (f32_partial_cmp a b = Some Gt).

(** [total_cmp] compares these integers *)
Definition total_key (f : f32) : Z := if f32_sign f then - f32_mag f - 1 else f32_mag f.
Definition total_cmp (a b : f32) : comparison := total_key a ?= total_key b.

Lemma f32_gtb_spec a b :
  f32_gtb a b = true ↔ f32_is_nan a = false ∧ f32_is_nan b = false ∧ f32_ordinal b < f32_ordinal a.
Proof.
  unfold f32_gtb, f32_partial_cmp. rewrite bool_decide_eq_true.
  destruct (f32_is_nan a), (f32_is_nan b); simpl; try naive_solver.
  split; [intros [= H]|intros (_ & _ & H); f_equal]; [|by apply Z.compare_gt_iff].
  apply Z.compare_gt_iff in H. naive_solver.
Qed.

Lemma f32_gtb_trans a b c : f32_gtb a b = true → f32_gtb b c = true → f32_gtb a c = true.
Proof. rewrite !f32_gtb_spec. intuition lia. Qed.

Lemma f32_gtb_irrefl a : f32_gtb a a = false.
Proof. apply not_true_iff_false. rewrite f32_gtb_spec. lia. Qed.

(** Without NaNs [partial_cmp] is a total preorder. *)
Lemma f32_partial_cmp_nan a b : f32_partial_cmp a b = None ↔ f32_is_nan a = true ∨ f32_is_nan b = true.
Proof. unfold f32_partial_cmp. destruct (f32_is_nan a), (f32_is_nan b); simpl; naive_solver. Qed.

(** ** Arithmetic *)

(** The NaN an operation on this platform returns *)
Class FloatNan := quiet_nan : f32.
Class FloatNanLaws `{FloatNan} : Prop := quiet_nan_is_nan : f32_is_nan quiet_nan = true.

Section arithmetic.
Context `{FloatNan}.

Definition fadd (a b : f32) : f32 := pack quiet_nan (SFadd 24 128 (f32_val a) (f32_val b)).
Definition fmul (a b : f32) : f32 := pack quiet_nan (SFmul 24 128 (f32_val a) (f32_val b)).
Definition fdiv (a b : f32) : f32 := pack quiet_nan (SFdiv 24 128 (f32_val a) (f32_val b)).
Definition fsqrt (a : f32) : f32 := pack quiet_nan (SFsqrt 24 128 (f32_val a)).

(** [iter().sum::<f32>()] starts from negative zero *)
Definition fsum (l : list f32) : f32 := foldl fadd f32_neg_zero l.

(** [a.iter().zip(b).map(|(x, y)| x * y).sum()]: the shorter slice ends it *)
Definition dot (a b : list f32) : f32 := fsum (zip_with fmul a b).
(** [a.iter().map(|x| x * x).sum::<f32>().sqrt()] *)
Definition norm (a : list f32) : f32 := fsqrt (fsum ((λ x, fmul x x) <$> a)).
End arithmetic.

(** ** Double precision, for the level assignment *)

(** [z as f64] for an unsigned integer *)
Definition f64_of_Z (z : Z) : spec_float := binary_normalize 53 1024 z 0 false.

(** [x.floor() as usize]: the cast saturates at zero and turns NaN into zero *)
Definition floor_usize (x : spec_float) : Z :=
  match x with
  | S754_finite false m e => Z.min (Z.shiftl (Zpos m) e) u64_max
  | S754_infinity false => u64_max
  | _ => 0
  end.

Lemma floor_usize_nonneg x : 0 ≤ floor_usize x.
Proof.
  unfold floor_usize, u64_max. destruct x as [[]|[]| |[] m e]; try lia.
  assert (0 ≤ Z.shiftl (Zpos m) e) by (apply Z.shiftl_nonneg; lia). lia.
Qed.
