(* ===== verification/Edge.v ===== *)
(** * Edges between memory nodes ([mem-core/src/edge.rs]) *)

From S2P Require Import Prelude Bytes Belnap Identity Node.

Inductive EdgeKind :=
| TemporalNext | MergeParent | Supersedes | DependsOn | CausedBy | Motivates | Implements
| Decides | Refutes | Contradicts | DerivedFrom | AnalogousTo | References | AnchoredTo
| Emits | Touches | BranchContains.

#[export] Instance EdgeKind_eq_dec : EqDecision EdgeKind.
Proof. solve_decision. Defined.

Definition EdgeKind_tag (self : EdgeKind) : Z :=
  match self with
  | TemporalNext => 1 | MergeParent => 2 | Supersedes => 3 | DependsOn => 4 | CausedBy => 5
  | Motivates => 6 | Implements => 7 | Decides => 8 | Refutes => 9 | Contradicts => 10
  | DerivedFrom => 11 | AnalogousTo => 12 | References => 13 | AnchoredTo => 14
  | Emits => 15 | Touches => 16 | BranchContains => 17
  end.

Definition all_edge_kinds : list EdgeKind :=
  [TemporalNext; MergeParent; Supersedes; DependsOn; CausedBy; Motivates; Implements; Decides;
   Refutes; Contradicts; DerivedFrom; AnalogousTo; References; AnchoredTo; Emits; Touches; BranchContains].

#[export] Instance EdgeKind_countable : Countable EdgeKind.
Proof.
  refine (inj_countable EdgeKind_tag (λ z, all_edge_kinds !! Z.to_nat (z - 1)) _). by intros [].
Defined.

Inductive EdgeMethod := Trailer | Ingest | Nlp | Analogy | Manual.

#[export] Instance EdgeMethod_eq_dec : EqDecision EdgeMethod.
Proof. solve_decision. Defined.

Record EdgeProvenance := {
  p_method : EdgeMethod;
  p_asserter : string;
  p_at : Timestamp;
  p_evidence : option string;
}.

#[export] Instance EdgeProvenance_eq_dec : EqDecision EdgeProvenance.
Proof. solve_decision. Defined.

Record Edge := {
  e_from : ContentHash;
  e_to : ContentHash;
  e_kind : EdgeKind;
  e_plane : Plane;
  e_trust_tier : TrustTier;
  e_provenance : EdgeProvenance;
  e_confidence : list BelnapValue;
  e_quarantined : bool;
  e_signature : option bytes;
}.

#[export] Instance Edge_eq_dec : EqDecision Edge.
Proof. solve_decision. Defined.

(** The storage key [from ‖ to ‖ kind] *)
Definition Edge_key (self : Edge) : bytes :=
  array_bytes (e_from self) ++ array_bytes (e_to self) ++ [byte_of_Z (EdgeKind_tag (e_kind self))].

(** The identity of an edge: its endpoints and its kind. *)
Definition edge_ident (e : Edge) : ContentHash * ContentHash * EdgeKind :=
  (e_from e, e_to e, e_kind e).

#[export] Instance EdgeKind_tag_inj : Inj (=) (=) EdgeKind_tag.
Proof. by intros [] []. Qed.

Lemma EdgeKind_tag_byte_inj k l :
  byte_of_Z (EdgeKind_tag k) = byte_of_Z (EdgeKind_tag l) → k = l.
Proof. by destruct k, l. Qed.

Definition ident_key (i : ContentHash * ContentHash * EdgeKind) : bytes :=
  array_bytes i.1.1 ++ array_bytes i.1.2 ++ [byte_of_Z (EdgeKind_tag i.2)].

Lemma Edge_key_ident e : Edge_key e = ident_key (edge_ident e).
Proof. done. Qed.

Lemma ident_key_inj i j : ident_key i = ident_key j → i = j.
Proof.
  destruct i as [[f t] k], j as [[f' t'] k']. unfold ident_key; simpl. intros Heq.
  apply app_inj_1 in Heq as [Hf%array_eq Heq]; [|by rewrite !length_array].
  apply app_inj_1 in Heq as [Ht%array_eq Heq]; [|by rewrite !length_array].
  injection Heq as Hk. apply EdgeKind_tag_byte_inj in Hk. congruence.
Qed.

(** Two edges share a storage key exactly when they connect the same nodes by
    the same kind. *)
Lemma Edge_key_inj a b : Edge_key a = Edge_key b ↔ edge_ident a = edge_ident b.
Proof. rewrite !Edge_key_ident. split; [apply ident_key_inj|congruence]. Qed.

Lemma ident_key_prefix i : ∃ r, ident_key i = array_bytes i.1.1 ++ r.
Proof. by eexists. Qed.
