(* ===== verification/Trailers.v ===== *)
(** * Commit trailers and fenced blocks ([mem-ingest/src/trailers.rs])

    The deterministic parser whose output becomes load-bearing Derived edges: git
    trailers of the last paragraph of a commit message, [```agentile] blocks, and the
    edge a trailer key stands for. *)

From S2P Require Import Prelude Bytes Text Str Belnap Identity Node Edge.

Record Trailer := { tr_key : bytes; tr_value : bytes }.

#[export] Instance Trailer_eq_dec : EqDecision Trailer.
Proof. solve_decision. Defined.

Definition colon : byte := Byte.x3a.

(** [c.is_ascii_alphanumeric() || c == '-' || c == '_'], byte by byte: a byte of a
    longer character is none of these *)
Definition is_key_byte (b : byte) : bool :=
  is_ascii_alphanumeric b || bool_decide (b = Byte.x2d) || bool_decide (b = Byte.x5f).

Definition parse_line (line : bytes) : option Trailer :=
  match split_once colon line with
  | None => None
  | Some (k, v) =>
    let key := trim k in
    let value := trim v in
    if bool_decide (key = []) || bool_decide (value = []) then None
    else
      let first_ok := match key with b :: _ => is_ascii_alphabetic b | [] => false end in
      let rest_ok := forallb is_key_byte key in
      if first_ok && rest_ok then Some {| tr_key := key; tr_value := value |} else None
  end.

(** [!s.trim().is_empty()] *)
Definition nonblank (l : bytes) : bool := negb (bool_decide (trim l = [])).

Definition paragraph_break : bytes := [newline; newline].

Definition parse_trailers (body : bytes) : list Trailer :=
  let blocks := filter (λ b, nonblank b = true) (split_str paragraph_break body) in
  match last blocks with
  | None => []
  | Some blk =>
    let ls := lines blk in
    let parsed := omap parse_line ls in
    if negb (bool_decide (ls = []))
       && bool_decide (length parsed = length (filter (λ l, nonblank l = true) ls))
    then parsed else []
  end.

Definition fence_open (t : bytes) : bool :=
  bool_decide (t = as_bytes "```agentile") || bool_decide (t = as_bytes "~~~agentile").
Definition fence_close (t : bytes) : bool := bool_decide (t = as_bytes "```") || bool_decide (t = as_bytes "~~~").

(** The loop body: the block flag and the pairs found so far *)
Definition agentile_line (st : bool * list Trailer) (line : bytes) : bool * list Trailer :=
  let t := trim line in
  let '(in_block, out) := st in
  if negb in_block && fence_open t then (true, out)
  else if in_block && fence_close t then (false, out)
  else if (in_block : bool) then
    (in_block, match parse_line line with Some tr => out ++ [tr] | None => out end)
  else (in_block, out).

Definition parse_agentile_blocks (text : bytes) : list Trailer := (foldl agentile_line (false, []) (lines text)).2.

Definition trailer_table : list (bytes * EdgeKind) :=
  [(as_bytes "agentile-implements", Implements); (as_bytes "agentile-decides", Decides);
   (as_bytes "agentile-supersedes", Supersedes); (as_bytes "agentile-refutes", Refutes);
   (as_bytes "agentile-depends-on", DependsOn); (as_bytes "agentile-caused-by", CausedBy);
   (as_bytes "agentile-references", References); (as_bytes "agentile-ref", References);
   (as_bytes "agentile-see-also", References)].

(** The match on the lower-cased key: its arms in order *)
Definition map_trailer (key : bytes) : option EdgeKind :=
  snd <$> (snd <$> list_find (λ p, p.1 = ascii_lowercase key) trailer_table).

(** ** What the parser reads back *)

(** A key as [parse_line] accepts it, and a value that survives trimming *)
Definition key_ok (k : bytes) : Prop :=
  (∃ b r, k = b :: r ∧ is_ascii_alphabetic b = true) ∧ forallb is_key_byte k = true.
Definition value_ok (v : bytes) : Prop := v ≠ [] ∧ trimmed v ∧ newline ∉ v ∧ carriage_return ∉ v.
Definition trailer_ok (t : Trailer) : Prop := key_ok (tr_key t) ∧ value_ok (tr_value t).

(** [Key: value] *)
Definition render_trailer (t : Trailer) : bytes := tr_key t ++ colon :: Byte.x20 :: tr_value t.
Definition render_trailers (ts : list Trailer) : bytes := flat_map (λ t, render_trailer t ++ [newline]) ts.

Lemma is_key_byte_cases b : is_key_byte b = true → is_ascii_byte b = true ∧ is_whitespace (byte_Z b) = false ∧ b ≠ colon ∧ b ≠ newline ∧ b ≠ carriage_return.
Proof. intros Hb. destruct b; try discriminate Hb; (split_and!; [reflexivity..|discriminate|discriminate|discriminate]). Qed.

Lemma key_ok_trimmed k : key_ok k → is_ascii k ∧ trimmed k ∧ colon ∉ k ∧ newline ∉ k ∧ carriage_return ∉ k.
Proof.
  intros [_ Hk]. assert (Forall (λ b, is_key_byte b = true) k) as HF.
  { apply Forall_forall. intros b Hb. rewrite forallb_forall in Hk. apply Hk. by apply list_elem_of_In. }
  assert (is_ascii k) as Ha by (eapply Forall_impl; [done|]; intros b Hb; by apply is_key_byte_cases).
  assert (∀ b, b ∈ k → is_key_byte b = true) as Hin by (by apply Forall_forall).
  assert (colon ∉ k ∧ newline ∉ k ∧ carriage_return ∉ k) as Hnot.
  { repeat split; intros Hb%Hin%is_key_byte_cases; naive_solver. }
  split; [done|]. split; [|done]. unfold trimmed, chars. rewrite (chunks_ascii k Ha).
  rewrite <-list_fmap_compose, fmap_head, fmap_last.
  apply Forall_app; split.
  - destruct k as [|b k]; simpl; constructor; [|done]. by apply is_key_byte_cases, Hin, list_elem_of_here.
  - destruct (last k) as [b|] eqn:Hl; simpl; constructor; [|done]. apply last_Some in Hl as [k' ->].
    apply is_key_byte_cases, Hin. set_solver.
Qed.

Lemma trim_space v : trim (Byte.x20 :: v) = trim v.
Proof. unfold trim, trim_matches. by rewrite chunks_cons_ascii. Qed.

Lemma parse_line_render t : trailer_ok t → parse_line (render_trailer t) = Some t.
Proof.
  destruct t as [k v]. unfold trailer_ok, render_trailer, parse_line; simpl. intros [Hk (Hv & Hvt & _)].
  destruct (key_ok_trimmed k Hk) as (_ & Hkt & Hkc & _).
  rewrite (proj2 (split_once_spec colon _ k (Byte.x20 :: v))) by done.
  rewrite trim_space, (trim_fix k Hkt), (trim_fix v Hvt).
  destruct Hk as [(b & r & -> & Hb) Hall]. rewrite !bool_decide_false by done. cbn [orb andb]. by rewrite Hb, Hall.
Qed.

Lemma parse_line_ok l t : parse_line l = Some t → tr_key t ≠ [] ∧ tr_value t ≠ [] ∧ forallb is_key_byte (tr_key t) = true.
Proof.
  unfold parse_line. destruct (split_once colon l) as [[k v]|]; [|done].
  destruct (bool_decide _) eqn:H1; [done|]. destruct (bool_decide (trim v = [])) eqn:H2; [done|]. cbn [orb].
  destruct (_ && _) eqn:H3; [|done]. intros [= <-]; simpl. apply bool_decide_eq_false in H1, H2.
  apply andb_true_iff in H3 as [_ H3]. done.
Qed.

Lemma render_trailer_clean t : trailer_ok t → newline ∉ render_trailer t ∧ carriage_return ∉ render_trailer t.
Proof.
  intros [Hk (_ & _ & Hn & Hc)]. destruct (key_ok_trimmed _ Hk) as (_ & _ & _ & Hkn & Hkc).
  unfold render_trailer. rewrite !not_elem_of_app, !not_elem_of_cons. auto.
Qed.

Lemma lines_render ts : Forall trailer_ok ts → lines (render_trailers ts) = render_trailer <$> ts.
Proof.
  intros Hts. unfold render_trailers.
  replace (flat_map _ ts) with (flat_map (λ b, b ++ [newline]) (render_trailer <$> ts) ++ []).
  2:{ rewrite app_nil_r. clear Hts. induction ts; simpl; by f_equal. }
  rewrite lines_flat; [by rewrite app_nil_r|]. apply Forall_fmap. eapply Forall_impl; [done|].
  intros t Ht. by apply render_trailer_clean.
Qed.

(** A line whose first byte is an ASCII character and no white space is not blank. *)
Lemma nonblank_cons b l : is_ascii_byte b = true → is_whitespace (byte_Z b) = false → nonblank (b :: l) = true.
Proof.
  intros Hb Hw. unfold nonblank, trim, trim_matches. rewrite chunks_cons_ascii by done. cbn [drop_while compose fst]. rewrite Hw.
  destruct (drop_while_end_cons (is_whitespace ∘ fst) (byte_Z b, [b]) (chunks l) Hw) as [r ->]. done.
Qed.

Lemma nonblank_newline l : nonblank (newline :: l) = nonblank l.
Proof. unfold nonblank, trim, trim_matches. by rewrite chunks_cons_ascii. Qed.

Lemma blank_no_trailer l : nonblank l = false → parse_line l = None.
Proof.
  intros Hb%negb_false_iff%bool_decide_eq_true. unfold parse_line.
  destruct (split_once colon l) as [[k v]|] eqn:Hs; [|done]. apply split_once_spec in Hs as [-> _].
  by assert (is_whitespace (byte_Z colon) = true) by (eapply trim_nil; [done|set_solver|done]).
Qed.

Lemma render_trailer_head t : trailer_ok t → ∃ b r, render_trailer t = b :: r ∧ is_ascii_byte b = true ∧ is_whitespace (byte_Z b) = false ∧ b ≠ newline.
Proof.
  intros [[(b & r & Hk & Hb) Hall] _]. unfold render_trailer. rewrite Hk. exists b, (r ++ colon :: Byte.x20 :: tr_value t).
  rewrite Hk in Hall. simpl in Hall. apply andb_true_iff in Hall as [Hb' _]. apply is_key_byte_cases in Hb'. naive_solver.
Qed.

Lemma split_str_push fuel acc r l : newline ∉ r → (length r ≤ fuel)%nat →
  split_str_go paragraph_break fuel acc (r ++ l) = split_str_go paragraph_break (fuel - length r) (reverse r ++ acc) l.
Proof.
  revert fuel acc. induction r as [|b r IH]; intros fuel acc Hr Hf; simpl.
  - by rewrite Nat.sub_0_r.
  - destruct fuel as [|fuel]; simpl in *; [lia|]. rewrite decide_False by set_solver.
    rewrite IH by (set_solver || lia). by rewrite reverse_cons, <-app_assoc.
Qed.

Lemma render_trailers_cons t ts : render_trailers (t :: ts) = render_trailer t ++ newline :: render_trailers ts.
Proof. unfold render_trailers. simpl. by rewrite <-app_assoc. Qed.

Lemma render_no_newline ts : Forall trailer_ok ts → head (render_trailers ts) ≠ Some newline.
Proof.
  destruct 1 as [|t ts Ht _]; [done|]. rewrite render_trailers_cons.
  destruct (render_trailer_head t Ht) as (b & q & -> & _ & _ & Hb). simpl. congruence.
Qed.

Lemma strip_break_none l : head l ≠ Some newline → strip_prefix paragraph_break (newline :: l) = None.
Proof.
  intros Hl. destruct (strip_prefix _ _) as [r|] eqn:Hp; [|done]. apply strip_prefix_spec in Hp.
  injection Hp as ->. by destruct Hl.
Qed.

Lemma split_str_render fuel acc ts : Forall trailer_ok ts → (length (render_trailers ts) ≤ fuel)%nat →
  split_str_go paragraph_break fuel acc (render_trailers ts) = [reverse acc ++ render_trailers ts].
Proof.
  intros Hts. revert fuel acc. induction Hts as [|t ts Ht Hts IH]; intros fuel acc Hf.
  { destruct fuel; simpl; by rewrite app_nil_r. }
  rewrite render_trailers_cons in *. rewrite length_app in Hf. cbn [length] in Hf.
  rewrite split_str_push by (by apply render_trailer_clean || lia).
  destruct (fuel - length (render_trailer t))%nat as [|f] eqn:E; [lia|]. cbn [split_str_go].
  rewrite strip_break_none by (by apply render_no_newline). rewrite IH by lia.
  f_equal. by rewrite reverse_cons, reverse_app, reverse_involutive, <-!app_assoc.
Qed.

(** The last block of a message that ends in a trailer paragraph is that paragraph,
    with at most one newline left over before it. *)
Lemma split_str_last ts : Forall trailer_ok ts → ∀ n body fuel acc, (length body ≤ n)%nat →
  (length (body ++ paragraph_break ++ render_trailers ts) ≤ fuel)%nat →
  ∃ pre x, split_str_go paragraph_break fuel acc (body ++ paragraph_break ++ render_trailers ts) = pre ++ [x] ∧
    (x = render_trailers ts ∨ x = newline :: render_trailers ts).
Proof.
  intros Hts. induction n as [|n IH]; intros body fuel acc Hn Hf.
  all: destruct fuel as [|fuel]; [rewrite !length_app in Hf; simpl in Hf; lia|].
  all: destruct body as [|b body]; simpl in Hn; try lia.
  1,2: simpl in *; rewrite split_str_render by (done || lia); by exists [reverse acc], (render_trailers ts); auto.
  cbn [app length] in Hf. cbn [app split_str_go].
  destruct (strip_prefix paragraph_break (b :: body ++ paragraph_break ++ render_trailers ts)) as [r|] eqn:Hp.
  - apply strip_prefix_spec in Hp. destruct body as [|b' body].
    + injection Hp as -> <-. simpl in Hf. destruct fuel as [|fuel]; [lia|]. cbn [split_str_go].
      rewrite strip_break_none by (by apply render_no_newline). rewrite split_str_render by (done || lia).
      exists [reverse acc], (newline :: render_trailers ts). auto.
    + injection Hp as -> -> <-. cbn [app length] in Hf, Hn. destruct (IH body fuel [] ltac:(lia) ltac:(lia)) as (pre & x & Hgo & Hx).
      exists (reverse acc :: pre), x. split; [|done]. cbn [app]. f_equal. exact Hgo.
  - destruct (IH body fuel (b :: acc) ltac:(lia) ltac:(lia)) as (pre & x & -> & Hx). by exists pre, x.
Qed.

Lemma omap_render ts : Forall trailer_ok ts → omap parse_line (render_trailer <$> ts) = ts.
Proof. induction 1 as [|t ts Ht Hts IH]; [done|]. cbn. rewrite parse_line_render by done. by f_equal. Qed.

Lemma render_nonblank t : trailer_ok t → nonblank (render_trailer t) = true.
Proof. intros Ht. destruct (render_trailer_head t Ht) as (b & r & -> & Hb & Hw & _). by apply nonblank_cons. Qed.

Lemma filter_render ts : Forall trailer_ok ts →
  filter (λ l, nonblank l = true) (render_trailer <$> ts) = render_trailer <$> ts.
Proof.
  induction 1 as [|t ts Ht Hts IH]; [done|]. cbn [fmap list_fmap]. rewrite filter_cons_True by (by apply render_nonblank).
  f_equal. exact IH.
Qed.

(** Trailers read back: appended to any commit message as its last paragraph, a
    non-empty list of well-formed trailers (a key of letters, digits, [-] and [_] that
    starts with a letter; a trimmed, non-empty value on one line) is exactly what
    [parse_trailers] returns, in order, whatever the message before it. *)
Theorem parse_trailers_roundtrip (body : bytes) (ts : list Trailer) (Hne : ts ≠ []) (Hts : Forall trailer_ok ts) :
  parse_trailers (body ++ paragraph_break ++ render_trailers ts) = ts.
Proof.
  unfold parse_trailers, split_str.
  destruct (split_str_last ts Hts _ body _ [] ltac:(done) ltac:(done)) as (pre & x & -> & Hx).
  rewrite filter_app. assert (nonblank x = true) as Hxb.
  { destruct Hts as [|t ts Ht Hts]; [done|]. rewrite !render_trailers_cons in Hx.
    destruct (render_trailer_head t Ht) as (b & r & Hb & Hb1 & Hb2 & _). rewrite Hb in Hx.
    destruct Hx as [->| ->]; rewrite ?nonblank_newline; by apply nonblank_cons. }
  rewrite (filter_cons_True _ x []), filter_nil, last_snoc by done.
  assert (∃ p, lines x = p ++ (render_trailer <$> ts) ∧ (p = [] ∨ p = [[]])) as (p & -> & Hp).
  { destruct Hx as [->| ->]; [exists []|exists [[]]]; split; auto; [by rewrite lines_render|].
    change (newline :: render_trailers ts) with ([] ++ newline :: render_trailers ts).
    rewrite lines_nl by set_solver. by rewrite lines_render. }
  rewrite omap_app, filter_app, omap_render, filter_render by done.
  rewrite (bool_decide_false _) by (destruct ts, Hp as [->| ->]; done).
  assert (omap parse_line p = [] ∧ filter (λ l, nonblank l = true) p = []) as [-> ->] by (by destruct Hp as [->| ->]).
  by rewrite bool_decide_true by (simpl; by rewrite length_fmap).
Qed.

(** All or nothing: if [parse_trailers] returns anything, then every line of the
    last non-blank paragraph that is not blank is a trailer, so prose with a colon in
    it never yields one. *)
Theorem parse_trailers_all_or_nothing (body : bytes) :
  parse_trailers body = [] ∨
  ∃ blk, last (filter (λ b, nonblank b = true) (split_str paragraph_break body)) = Some blk ∧
    parse_trailers body = omap parse_line (lines blk) ∧
    Forall (λ l, nonblank l = true → is_Some (parse_line l)) (lines blk).
Proof.
  unfold parse_trailers. destruct (last _) as [blk|]; [|by left]. destruct (_ && _) eqn:Hc; [|by left]. right.
  exists blk. split; [done|]. split; [done|]. apply andb_true_iff in Hc as [_ Hlen%bool_decide_eq_true].
  assert (∀ l, is_Some (parse_line l) → nonblank l = true) as Hsome.
  { intros l Hl. destruct (nonblank l) eqn:Hb; [done|]. exfalso. destruct Hl as [t Ht].
    by rewrite blank_no_trailer in Ht. }
  induction (lines blk) as [|l ls IH]; [constructor|].
  assert (length (omap parse_line ls) ≤ length (filter (λ l, nonblank l = true) ls))%nat as Hle.
  { clear -Hsome. induction ls as [|x ls IHl]; cbn [omap list_omap]; [done|]. rewrite filter_cons.
    destruct (parse_line x) eqn:Hx; [rewrite decide_True by eauto; simpl; lia|case_decide; simpl; lia]. }
  rewrite filter_cons in Hlen. cbn [omap list_omap] in Hlen, Hle. destruct (parse_line l) as [t|] eqn:Hl.
  - rewrite decide_True in Hlen by eauto. constructor; [by intros; rewrite Hl|]. apply IH. simpl in Hlen. lia.
  - case_decide as Hb; [simpl in Hlen; lia|]. constructor; [done|]. by apply IH.
Qed.
