(* ===== verification/Frontmatter.v ===== *)
(** * Front matter and dates ([mem-ingest/src/frontmatter.rs])

    The leading [---] block of a document, its [key: value] lines, and the timestamp
    of its [created:] field: the calendar arithmetic and the parser of the ISO 8601
    forms it accepts.  Arithmetic on [i64] and [u32] wraps, as in a release build. *)

From S2P Require Import Prelude Bytes Text Str Trailers.

(** ** The block *)

Definition dashes : bytes := as_bytes "---".
Definition is_eol (c : Z) : bool := (c =? 10) || (c =? 13).

Definition insert_kv (m : gmap string string) (line : bytes) : gmap string string :=
  match split_once colon line with
  | Some (k, v) =>
    let key := trim k in
    if bool_decide (key = []) then m else <[string_of_bytes key := string_of_bytes (trim v)]> m
  | None => m
  end.
Definition parse_kv (s : bytes) : gmap string string := foldl insert_kv ∅ (lines s).

(** The scan for the closing fence: [idx] is the offset of the next line in [rest] *)
Fixpoint find_close (rest : bytes) (idx : nat) (ls : list bytes) : option (bytes * bytes) :=
  match ls with
  | [] => None
  | line :: ls =>
    if bool_decide (trim_end_matches is_eol line = dashes)
    then Some (take idx rest, drop (idx + length line) rest)
    else find_close rest (idx + length line) ls
  end.

(** [text.strip_prefix("---\n").or_else(|| text.strip_prefix("---\r\n"))] *)
Definition strip_open (text : bytes) : option bytes :=
  match strip_prefix (dashes ++ [newline]) text with
  | Some r => Some r
  | None => strip_prefix (dashes ++ [carriage_return; newline]) text
  end.

Definition parse (text : bytes) : gmap string string * bytes :=
  match strip_open text with
  | None => (∅, text)
  | Some rest =>
    match find_close rest 0 (split_inclusive_nl rest) with
    | Some (fm_str, body) => (parse_kv fm_str, body)
    | None => (∅, text)
    end
  end.

(** ** The calendar *)

Definition wrap_i64 (z : Z) : Z := (z + 2 ^ 63) mod 2 ^ 64 - 2 ^ 63.
Definition wrap_u32 (z : Z) : Z := z mod 2 ^ 32.

(** Division of [i64] rounds towards zero. *)
Definition days_from_civil (y m d : Z) : Z :=
  let y := if m <=? 2 then wrap_i64 (y - 1) else y in
  let era := wrap_i64 (Z.quot (if 0 <=? y then y else wrap_i64 (y - 399)) 400) in
  let yoe := wrap_i64 (y - wrap_i64 (era * 400)) in
  let mp := wrap_u32 (m + 9) mod 12 in
  let doy := wrap_i64 (wrap_i64 (Z.quot (wrap_i64 (wrap_i64 (153 * mp) + 2)) 5 + d) - 1) in
  let doe := wrap_i64 (wrap_i64 (wrap_i64 (wrap_i64 (yoe * 365) + Z.quot yoe 4) - Z.quot yoe 100) + doy) in
  wrap_i64 (wrap_i64 (wrap_i64 (era * 146097) + doe) - 719468).

(** The optional [HH:MM[:SS]] after the date, [None] when it is malformed *)
Definition parse_hms (time : bytes) : option (Z * Z * Z) :=
  match time with
  | [] => Some (0, 0, 0)
  | _ =>
    match split colon time with
    | hs :: parts =>
      h ← parse_u32 hs;
      min ← match parts with p :: _ => parse_u32 p | [] => Some 0 end;
      sec ← match parts with _ :: p :: _ => parse_u32 p | _ => Some 0 end;
      match parts with
      | _ :: _ :: _ :: _ => None
      | _ => if (24 <=? h) || (60 <=? min) || (60 <=? sec) then None else Some (h, min, sec)
      end
    | [] => None
    end
  end.

(** The three numbers of [YYYY-MM-DD] *)
Definition parse_ymd (date : bytes) : option (Z * Z * Z) :=
  match split Byte.x2d date with
  | ys :: ms :: ds :: more =>
    year ← parse_i64 ys;
    month ← parse_u32 ms;
    day ← parse_u32 ds;
    if negb (bool_decide (more = [])) || negb ((1 <=? month) && (month <=? 12)) || negb ((1 <=? day) && (day <=? 31))
    then None else Some (year, month, day)
  | ys :: ms :: [] => _ ← parse_i64 ys; _ ← parse_u32 ms; None
  | ys :: [] => _ ← parse_i64 ys; None
  | [] => None
  end.

(** The time part without its [Z], a [+] offset and fractional seconds *)
Definition strip_zone (time : bytes) : bytes :=
  let time := trim_end_matches (λ c, c =? 0x5a) time in
  let time := take_while (λ b, negb (bool_decide (b = Byte.x2b))) time in
  match split Byte.x2e time with t :: _ => t | [] => time end.

(** [checked_mul(1_000)] and [u64::try_from] *)
Definition to_millis (secs : Z) : option Z :=
  let ms := secs * 1000 in
  if (i64_min <=? ms) && (ms <=? i64_max) then (if 0 <=? ms then Some ms else None) else None.

Definition seconds_of (days h min sec : Z) : Z :=
  wrap_i64 (wrap_i64 (wrap_i64 (wrap_i64 (days * 86400) + wrap_i64 (h * 3600)) + wrap_i64 (min * 60)) + sec).

Definition parse_iso8601_ms (s : bytes) : option Z :=
  let s := trim s in
  let '(date, time) :=
    match split_once Byte.x54 s with
    | Some p => p
    | None => match split_once Byte.x20 s with Some p => p | None => (s, []) end
    end in
  '(year, month, day) ← parse_ymd date;
  '(h, min, sec) ← parse_hms (strip_zone time);
  to_millis (seconds_of (days_from_civil year month day) h min sec).

Definition created_ms (fm : gmap string string) : option Z :=
  v ← fm !! "created"; parse_iso8601_ms (as_bytes v).

(** The tests of the source *)
Example iso_epoch : parse_iso8601_ms (as_bytes "1970-01-01T00:00:00Z") = Some 0.
Proof. reflexivity. Qed.
Example iso_2000 : parse_iso8601_ms (as_bytes "2000-01-01T00:00:00Z") = Some 946684800000.
Proof. reflexivity. Qed.
Example iso_offset_ignored :
  parse_iso8601_ms (as_bytes "2026-06-08T03:30:00+02:00") = parse_iso8601_ms (as_bytes "2026-06-08 03:30:00").
Proof. reflexivity. Qed.
Example iso_bad_hour : parse_iso8601_ms (as_bytes "2026-06-08T25:00:00Z") = None.
Proof. reflexivity. Qed.

(** ** The calendar counts days *)

Definition is_leap (y : Z) : bool := ((y mod 4 =? 0) && negb (y mod 100 =? 0)) || (y mod 400 =? 0).
Definition days_in_month (y m : Z) : Z :=
  if m =? 2 then (if is_leap y then 29 else 28)
  else if (m =? 4) || (m =? 6) || (m =? 9) || (m =? 11) then 30 else 31.
Definition valid_date (y m d : Z) : Prop := 1 ≤ m ≤ 12 ∧ 1 ≤ d ≤ days_in_month y m.

(** The Gregorian successor of a date *)
Definition next_day (y m d : Z) : Z * Z * Z :=
  if d <? days_in_month y m then (y, m, d + 1) else if m <? 12 then (y, m + 1, 1) else (y + 1, 1, 1).

(** Years for which no intermediate result leaves [i64] *)
Definition year_fits (y : Z) : Prop := - 2 ^ 40 ≤ y ≤ 2 ^ 40.

Lemma wrap_i64_id z : i64_min ≤ z ≤ i64_max → wrap_i64 z = z.
Proof. unfold wrap_i64, i64_min, i64_max. intros Hz. rewrite Z.mod_small; lia. Qed.

(** Drop the wraps from the inside out where the range shows they do nothing. *)
Ltac unwrap_i64 :=
  repeat match goal with
  | |- context [wrap_i64 ?z] =>
    lazymatch z with
    | context [wrap_i64 _] => fail
    | _ => rewrite (wrap_i64_id z) by (unfold i64_min, i64_max; lia)
    end
  end.

(** Days before the first of March of year [y], counted from a fixed day *)
Definition march_days (y : Z) : Z := 365 * y + y / 4 - y / 100 + y / 400.
Definition month_days (m : Z) : Z := (153 * ((m + 9) mod 12) + 2) / 5.

Lemma era_days y : 
  let era := Z.quot (if 0 <=? y then y else y - 399) 400 in
  let yoe := y - era * 400 in
  0 ≤ yoe < 400 ∧ era = y / 400 ∧
  era * 146097 + (yoe * 365 + Z.quot yoe 4 - Z.quot yoe 100) = march_days y.
Proof.
  intros era yoe. assert (era = y / 400) as He.
  { unfold era. destruct (Z.leb_spec 0 y); [apply Z.quot_div_nonneg; lia|]. Z.to_euclidean_division_equations. lia. }
  clearbody era. assert (0 ≤ yoe < 400) as Hy.
  { unfold yoe. subst era. pose proof (Z.div_mod y 400). pose proof (Z.mod_pos_bound y 400). lia. }
  split; [done|]. split; [done|]. rewrite !Z.quot_div_nonneg by lia. unfold march_days.
  assert (y = yoe + era * 400) as Hyy by (unfold yoe; lia). clearbody yoe. clear He. subst y.
  replace ((yoe + era * 400) / 4) with (yoe / 4 + era * 100) by (rewrite <-Z.div_add by lia; f_equal; lia).
  replace ((yoe + era * 400) / 100) with (yoe / 100 + era * 4) by (rewrite <-Z.div_add by lia; f_equal; lia).
  rewrite Z.div_add, (Z.div_small yoe 400) by lia. lia.
Qed.

Lemma days_from_civil_exact y m d : year_fits y → 1 ≤ m ≤ 12 → 0 ≤ d ≤ u32_max →
  days_from_civil y m d = march_days (if m <=? 2 then y - 1 else y) + month_days m + d - 1 - 719468.
Proof.
  unfold year_fits, u32_max. intros Hy Hm Hd. unfold days_from_civil.
  assert ((if m <=? 2 then wrap_i64 (y - 1) else y) = if m <=? 2 then y - 1 else y) as ->.
  { destruct (m <=? 2); [|done]. apply wrap_i64_id. unfold i64_min, i64_max. lia. }
  set (y' := if m <=? 2 then y - 1 else y). assert (- 2 ^ 41 ≤ y' ≤ 2 ^ 41) as Hy' by (unfold y'; destruct (m <=? 2); lia).
  assert ((if 0 <=? y' then y' else wrap_i64 (y' - 399)) = if 0 <=? y' then y' else y' - 399) as ->.
  { destruct (0 <=? y'); [done|]. apply wrap_i64_id. unfold i64_min, i64_max. lia. }
  destruct (era_days y') as (Hyoe & He & Hdays). set (era := Z.quot _ 400) in *. set (yoe := y' - era * 400) in *.
  assert (- 2 ^ 33 ≤ era ≤ 2 ^ 33) as Hera by (rewrite He; Z.to_euclidean_division_equations; lia).
  unfold wrap_u32. rewrite (Z.mod_small (m + 9)) by lia.
  assert (0 ≤ month_days m ≤ 400) as Hmd by (unfold month_days; Z.to_euclidean_division_equations; lia).
  assert (0 ≤ (m + 9) mod 12 < 12) by (apply Z.mod_pos_bound; lia).
  assert (0 ≤ Z.quot yoe 4 ≤ 100 ∧ 0 ≤ Z.quot yoe 100 ≤ 4) as [Hq1 Hq2] by (Z.to_euclidean_division_equations; lia).
  rewrite (wrap_i64_id era), (wrap_i64_id (era * 400)), (wrap_i64_id (y' - era * 400)) by (unfold i64_min, i64_max; lia).
  fold yoe.
  rewrite (wrap_i64_id (153 * _)), (wrap_i64_id (153 * _ + 2)) by (unfold i64_min, i64_max; lia).
  rewrite (Z.quot_div_nonneg (153 * _ + 2) 5) by lia. fold (month_days m).
  clearbody yoe era. unwrap_i64. lia.
Qed.

Lemma march_days_succ y : march_days y - march_days (y - 1) = if is_leap y then 366 else 365.
Proof.
  unfold march_days, is_leap.
  destruct (Z.eqb_spec (y mod 4) 0), (Z.eqb_spec (y mod 100) 0), (Z.eqb_spec (y mod 400) 0); cbn [andb orb negb];
    Z.to_euclidean_division_equations; lia.
Qed.

Lemma month_days_table m : 1 ≤ m ≤ 12 →
  month_days m = nth (Z.to_nat (m - 1)) [306; 337; 0; 31; 61; 92; 122; 153; 184; 214; 245; 275] 0.
Proof.
  intros Hm. assert (m = 1 ∨ m = 2 ∨ m = 3 ∨ m = 4 ∨ m = 5 ∨ m = 6 ∨ m = 7 ∨ m = 8 ∨ m = 9 ∨ m = 10 ∨ m = 11 ∨ m = 12)
    as Hor by lia. by repeat destruct Hor as [->|Hor]; [..|subst].
Qed.

Lemma next_day_valid y m d y' m' d' : valid_date y m d → next_day y m d = (y', m', d') → valid_date y' m' d'.
Proof.
  unfold next_day, valid_date. intros [Hm Hd].
  assert (∀ y m, 28 ≤ days_in_month y m) as H28 by (intros ??; unfold days_in_month; repeat case_match; lia).
  destruct (Z.ltb_spec d (days_in_month y m)); [intros [= <- <- <-]; lia|].
  destruct (Z.ltb_spec m 12); intros [= <- <- <-]; (split; [lia|]); (split; [lia|]); etrans; [|apply H28| |apply H28]; lia.
Qed.

Lemma days_next_day y m d : year_fits y → year_fits (y + 1) → valid_date y m d →
  let '(y', m', d') := next_day y m d in days_from_civil y' m' d' = days_from_civil y m d + 1.
Proof.
  intros Hy Hy1 [Hm Hd].
  assert (28 ≤ days_in_month y m ≤ 31) as H31 by (unfold days_in_month; repeat case_match; lia).
  unfold next_day. destruct (Z.ltb_spec d (days_in_month y m)) as [Hlt|Hge].
  { rewrite !days_from_civil_exact by (done || unfold u32_max; lia). lia. }
  assert (d = days_in_month y m) as -> by lia. clear Hge Hd.
  destruct (Z.ltb_spec m 12) as [Hlt|Hge].
  - rewrite !days_from_civil_exact by (done || unfold u32_max; lia). rewrite !month_days_table by lia.
    pose proof (march_days_succ y) as Hs. unfold days_in_month in *.
    assert (m = 1 ∨ m = 2 ∨ m = 3 ∨ m = 4 ∨ m = 5 ∨ m = 6 ∨ m = 7 ∨ m = 8 ∨ m = 9 ∨ m = 10 ∨ m = 11) as Hor by lia.
    destruct (is_leap y); repeat destruct Hor as [->|Hor]; subst; simpl in *; lia.
  - assert (m = 12) as -> by lia. rewrite !days_from_civil_exact by (done || unfold u32_max; lia).
    replace (y + 1 - 1) with y by lia. unfold days_in_month. rewrite !month_days_table by lia. simpl. lia.
Qed.

(** The calendar arithmetic is the Gregorian calendar: for every year up to 2^40
    in either direction day 0 is 1970-01-01, and the number of the day after a valid
    date (February 29 in leap years only, the year end) is one more, so [days_from_civil]
    numbers the days in order and without gaps; no intermediate result overflows. *)
Theorem days_from_civil_counts (y m d : Z) (Hy : year_fits y) (Hy1 : year_fits (y + 1)) (Hd : valid_date y m d) :
  days_from_civil 1970 1 1 = 0 ∧
  let '(y', m', d') := next_day y m d in
  valid_date y' m' d' ∧ days_from_civil y' m' d' = days_from_civil y m d + 1.
Proof.
  split; [reflexivity|]. pose proof (days_next_day y m d Hy Hy1 Hd) as Hn.
  destruct (next_day y m d) as [[y' m'] d'] eqn:E. split; [|done]. by eapply next_day_valid.
Qed.

(** ** Timestamps read back *)

Definition digit (z : Z) : byte := byte_of_Z (0x30 + z mod 10).
Definition two (z : Z) : bytes := [digit (z / 10); digit z].
Definition four (z : Z) : bytes := [digit (z / 1000); digit (z / 100); digit (z / 10); digit z].

(** [YYYY-MM-DDTHH:MM:SSZ] *)
Definition iso8601 (y m d h mi s : Z) : bytes :=
  four y ++ Byte.x2d :: two m ++ Byte.x2d :: two d ++ Byte.x54 ::
  two h ++ colon :: two mi ++ colon :: two s ++ [Byte.x5a].

Lemma digit_Z z : byte_Z (digit z) = 0x30 + z mod 10.
Proof.
  unfold digit, byte_Z. rewrite byte_of_Z_to_N. pose proof (Z.mod_pos_bound z 10). rewrite Z.mod_small; lia.
Qed.
Lemma digit_is_digit z : is_digit (digit z) = true.
Proof. unfold is_digit, in_range. rewrite digit_Z. pose proof (Z.mod_pos_bound z 10). lia. Qed.
Lemma digit_not z b : is_digit b = false → digit z ≠ b.
Proof. intros Hb <-. by rewrite digit_is_digit in Hb. Qed.

Lemma parse_two z max : 0 ≤ z < 100 → 99 ≤ max → parse_unsigned max (two z) = Some z.
Proof.
  intros Hz Hm. unfold parse_unsigned, two. rewrite decide_False by (by apply digit_not).
  unfold parse_digits. rewrite bool_decide_false by done. cbn [forallb]. rewrite !digit_is_digit. cbn [andb].
  assert (digits_val [digit (z / 10); digit z] = z) as ->.
  { unfold digits_val, digit_val; simpl. rewrite !digit_Z. Z.to_euclidean_division_equations. lia. }
  by rewrite (proj2 (Z.leb_le z max)) by lia.
Qed.
Lemma parse_four z : 0 ≤ z < 10000 → parse_i64 (four z) = Some z.
Proof.
  intros Hz. unfold parse_i64, four. rewrite decide_False by (by apply digit_not).
  unfold parse_unsigned. rewrite decide_False by (by apply digit_not).
  unfold parse_digits. rewrite bool_decide_false by done. cbn [forallb]. rewrite !digit_is_digit. cbn [andb].
  assert (digits_val [digit (z / 1000); digit (z / 100); digit (z / 10); digit z] = z) as ->.
  { unfold digits_val, digit_val; simpl. rewrite !digit_Z. Z.to_euclidean_division_equations. lia. }
  rewrite (proj2 (Z.leb_le z i64_max)); [done|unfold i64_max; lia].
Qed.

Lemma not_in_digits b l : is_digit b = false → Forall (λ x, is_digit x = true) l → b ∉ l.
Proof. intros Hb Hl Hin. rewrite Forall_forall in Hl. apply Hl in Hin. congruence. Qed.
Lemma two_digits z : Forall (λ x, is_digit x = true) (two z).
Proof. repeat constructor; apply digit_is_digit. Qed.
Lemma four_digits z : Forall (λ x, is_digit x = true) (four z).
Proof. repeat constructor; apply digit_is_digit. Qed.
#[export] Hint Resolve two_digits four_digits not_in_digits : mem.

Lemma parse_ymd_iso y m d : 0 ≤ y < 10000 → 1 ≤ m ≤ 12 → 1 ≤ d ≤ 31 →
  parse_ymd (four y ++ Byte.x2d :: two m ++ Byte.x2d :: two d) = Some (y, m, d).
Proof.
  intros Hy Hm Hd. unfold parse_ymd.
  rewrite split_join, split_join, split_end by auto with mem.
  rewrite parse_four by lia. unfold parse_u32. rewrite !parse_two by (unfold u32_max; lia). simpl.
  by rewrite !(proj2 (Z.leb_le _ _)) by lia.
Qed.

Lemma parse_hms_iso h mi s : 0 ≤ h < 24 → 0 ≤ mi < 60 → 0 ≤ s < 60 →
  parse_hms (two h ++ colon :: two mi ++ colon :: two s) = Some (h, mi, s).
Proof.
  intros Hh Hm Hs. unfold parse_hms. rewrite split_join, split_join, split_end by auto with mem.
  unfold parse_u32. rewrite !parse_two by (unfold u32_max; lia). simpl.
  by rewrite !(proj2 (Z.leb_gt _ _)) by lia.
Qed.

Lemma drop_while_end_snoc {A} (p : A → bool) l a : p a = true → drop_while_end p (l ++ [a]) = drop_while_end p l.
Proof. intros Ha. unfold drop_while_end. rewrite reverse_app. simpl. by rewrite Ha. Qed.

Lemma drop_while_end_fmap {A B} (p : B → bool) (f : A → B) l :
  drop_while_end p (f <$> l) = f <$> drop_while_end (p ∘ f) l.
Proof.
  assert (∀ k, drop_while p (f <$> k) = f <$> drop_while (p ∘ f) k) as Hd.
  { induction k as [|a k IH]; simpl; [done|]. by destruct (p (f a)). }
  unfold drop_while_end. by rewrite <-fmap_reverse, Hd, fmap_reverse.
Qed.

Lemma trim_end_ascii p l : is_ascii l → trim_end_matches p l = drop_while_end (p ∘ byte_Z) l.
Proof.
  intros Hl. unfold trim_end_matches. rewrite chunks_ascii by done. rewrite drop_while_end_fmap.
  apply unchunk_singletons.
Qed.

Lemma take_while_all {A} (p : A → bool) l : Forall (λ a, p a = true) l → take_while p l = l.
Proof. induction 1 as [|a l Ha Hl IH]; simpl; [done|]. by rewrite Ha, IH. Qed.

Lemma digit_ascii b : is_digit b = true → is_ascii_byte b = true ∧ is_whitespace (byte_Z b) = false.
Proof. intros Hb. destruct b; try discriminate Hb; split; reflexivity. Qed.

Lemma digits_ascii l : Forall (λ x, is_digit x = true) l → is_ascii l.
Proof. intros Hl. eapply Forall_impl; [done|]. intros b Hb. by apply digit_ascii. Qed.

Lemma is_ascii_app l k : is_ascii (l ++ k) ↔ is_ascii l ∧ is_ascii k.
Proof. apply Forall_app. Qed.
Lemma is_ascii_cons b l : is_ascii (b :: l) ↔ is_ascii_byte b = true ∧ is_ascii l.
Proof. unfold is_ascii. by rewrite Forall_cons. Qed.

Lemma trimmed_ascii b l c : is_ascii (b :: l ++ [c]) →
  is_whitespace (byte_Z b) = false → is_whitespace (byte_Z c) = false → trimmed (b :: l ++ [c]).
Proof.
  intros Ha Hb Hc. unfold trimmed, chars. rewrite chunks_ascii by done. rewrite <-list_fmap_compose, fmap_head, fmap_last.
  rewrite app_comm_cons, last_snoc. simpl. by repeat constructor.
Qed.

Definition hms (h mi s : Z) : bytes := two h ++ colon :: two mi ++ colon :: two s.

Lemma hms_ascii h mi s : is_ascii (hms h mi s).
Proof.
  unfold hms. rewrite !is_ascii_app, !is_ascii_cons, !is_ascii_app, !is_ascii_cons.
  repeat split; try done; apply digits_ascii, two_digits.
Qed.

Lemma not_in_hms b h mi s : is_digit b = false → b ≠ colon → b ∉ hms h mi s.
Proof.
  intros Hb Hc. unfold hms. rewrite !not_elem_of_app, !not_elem_of_cons, !not_elem_of_app, !not_elem_of_cons.
  repeat split; auto with mem.
Qed.

Lemma strip_zone_iso h mi s : strip_zone (hms h mi s ++ [Byte.x5a]) = hms h mi s.
Proof.
  unfold strip_zone. rewrite trim_end_ascii by (apply is_ascii_app; split; [apply hms_ascii|by repeat constructor]).
  rewrite drop_while_end_snoc by done. rewrite drop_while_end_fix.
  2:{ right. exists (digit s). split; [done|]. simpl. rewrite digit_Z. pose proof (Z.mod_pos_bound s 10). lia. }
  rewrite take_while_all.
  - rewrite split_end; [done|]. by apply not_in_hms.
  - apply Forall_forall. intros b Hb. apply negb_true_iff, bool_decide_eq_false. intros ->.
    by eapply not_in_hms in Hb.
Qed.

Lemma days_bounds y m d : 1970 ≤ y < 10000 → 1 ≤ m ≤ 12 → 1 ≤ d ≤ 31 → 0 ≤ days_from_civil y m d < 2 ^ 22.
Proof.
  intros Hy Hm Hd. rewrite days_from_civil_exact by (unfold year_fits, u32_max; lia).
  assert (if m <=? 2 then 306 ≤ month_days m ≤ 337 else 0 ≤ month_days m ≤ 275) as Hmd.
  { rewrite month_days_table by lia.
    assert (m = 1 ∨ m = 2 ∨ m = 3 ∨ m = 4 ∨ m = 5 ∨ m = 6 ∨ m = 7 ∨ m = 8 ∨ m = 9 ∨ m = 10 ∨ m = 11 ∨ m = 12) as Hor by lia.
    repeat destruct Hor as [->|Hor]; subst; simpl; lia. }
  assert (∀ z, 1969 ≤ z < 10000 → 719162 ≤ march_days z < 3700000 ∧ (1970 ≤ z → 719527 ≤ march_days z)) as Hma.
  { intros z Hz. unfold march_days. split; [|intros]; Z.to_euclidean_division_equations; lia. }
  destruct (Z.leb_spec m 2); [specialize (Hma (y - 1))|specialize (Hma y)]; lia.
Qed.

(** Timestamps read back: the ISO 8601 text of any date and time from 1970 to 9999
    parses to its milliseconds since the epoch. *)
Theorem parse_iso8601_roundtrip (y m d h mi s : Z) (Hy : 1970 ≤ y < 10000) (Hd : valid_date y m d)
    (Hh : 0 ≤ h < 24) (Hm : 0 ≤ mi < 60) (Hs : 0 ≤ s < 60) :
  parse_iso8601_ms (iso8601 y m d h mi s) =
  Some ((((days_from_civil y m d * 24 + h) * 60 + mi) * 60 + s) * 1000).
Proof.
  destruct Hd as [Hmo Hd].
  assert (1 ≤ d ≤ 31) as Hd' by (revert Hd; unfold days_in_month; repeat case_match; lia).
  unfold parse_iso8601_ms, iso8601.
  set (date := four y ++ Byte.x2d :: two m ++ Byte.x2d :: two d).
  replace (four y ++ _) with (date ++ Byte.x54 :: hms h mi s ++ [Byte.x5a])
    by reflexivity.
  assert (is_ascii date) as Ha.
  { unfold date. rewrite !is_ascii_app, !is_ascii_cons, !is_ascii_app, !is_ascii_cons.
    repeat split; try done; apply digits_ascii; auto with mem. }
  assert (Byte.x54 ∉ date) as HT.
  { unfold date. rewrite !not_elem_of_app, !not_elem_of_cons, !not_elem_of_app, !not_elem_of_cons. repeat split; auto with mem. }
  assert (trim (date ++ Byte.x54 :: hms h mi s ++ [Byte.x5a]) = date ++ Byte.x54 :: hms h mi s ++ [Byte.x5a]) as ->.
  { apply trim_fix.
    replace (date ++ _) with (digit (y / 1000) :: (drop 1 date ++ Byte.x54 :: hms h mi s) ++ [Byte.x5a])
      by reflexivity.
    apply trimmed_ascii; [|by apply digit_ascii, digit_is_digit|done].
    rewrite is_ascii_cons, !is_ascii_app, is_ascii_cons. split; [by apply digit_ascii, digit_is_digit|].
    repeat split; [|apply hms_ascii|by repeat constructor]. by apply Forall_drop. }
  rewrite (proj2 (split_once_spec _ _ date (hms h mi s ++ [Byte.x5a]))) by done.
  unfold date. rewrite parse_ymd_iso, strip_zone_iso by lia. unfold hms. cbn [mbind option_bind]. rewrite parse_hms_iso by done.
  pose proof (days_bounds y m d Hy Hmo Hd') as Hb. generalize dependent (days_from_civil y m d). intros n Hn.
  cbn [mbind option_bind]. unfold seconds_of. unwrap_i64. unfold to_millis, i64_min, i64_max.
  rewrite !(proj2 (Z.leb_le _ _)) by lia. cbn [andb]. f_equal. lia.
Qed.

(** Where the date parser falls short of its documentation ("returns [None] on any
    malformed input", "drop a trailing numeric timezone offset"): the year is not
    bounded before the day count is multiplied out, so a year of twelve digits wraps
    around to an instant on the first day of 1970; a negative offset is not dropped
    but makes the timestamp unreadable; and the thirty-first of February is taken for
    the third of March. *)
Theorem parse_iso8601_gaps :
  parse_iso8601_ms (as_bytes "584554051223-11-10") = Some 61184000 ∧
  parse_iso8601_ms (as_bytes "2026-06-08T03:30:00-02:00") = None ∧
  parse_iso8601_ms (as_bytes "2026-02-31") = parse_iso8601_ms (as_bytes "2026-03-03").
Proof. repeat split; vm_compute; reflexivity. Qed.

(** ** The block reads back *)

Definition is_fence (line : bytes) : bool := bool_decide (trim_end_matches is_eol line = dashes).

Lemma find_close_app rest idx ls line more :
  Forall (λ l, is_fence l = false) ls → is_fence line = true →
  find_close rest idx (ls ++ line :: more) =
  Some (take (idx + length (mjoin ls)) rest, drop (idx + length (mjoin ls) + length line) rest).
Proof.
  intros Hls Hline. revert idx. induction Hls as [|l ls Hl Hls IH]; intros idx; simpl.
  - unfold is_fence in Hline. rewrite Hline. by rewrite Nat.add_0_r.
  - unfold is_fence in Hl. rewrite Hl, IH, length_app. by rewrite !Nat.add_assoc.
Qed.

Lemma find_close_inv rest idx ls x y : find_close rest idx ls = Some (x, y) →
  ∃ pre line post, ls = pre ++ line :: post ∧ Forall (λ l, is_fence l = false) pre ∧ is_fence line = true.
Proof.
  revert idx. induction ls as [|l ls IH]; intros idx; simpl; [done|].
  fold (is_fence l). destruct (is_fence l) eqn:Hl; [intros _; by exists [], l, ls|].
  intros (pre & line & post & -> & Hpre & Hline)%IH. exists (l :: pre), line, post. auto.
Qed.

Lemma inclusive_go_line acc l k : newline ∉ l →
  inclusive_go acc (l ++ newline :: k) = (reverse acc ++ l ++ [newline]) :: inclusive_go [] k.
Proof.
  revert acc. induction l as [|b l IH]; intros acc Hl; simpl.
  - by rewrite reverse_cons.
  - rewrite decide_False by set_solver. rewrite IH by set_solver. by rewrite reverse_cons, <-app_assoc.
Qed.

Definition entry : Type := bytes * bytes.
(** A key as in a trailer, and a trimmed value on one line, possibly empty *)
Definition entry_ok (e : entry) : Prop := key_ok e.1 ∧ trimmed e.2 ∧ newline ∉ e.2 ∧ carriage_return ∉ e.2.
Definition render_entry (e : entry) : bytes := e.1 ++ colon :: Byte.x20 :: e.2.
Definition render_entries (es : list entry) : bytes := flat_map (λ b, b ++ [newline]) (render_entry <$> es).
Definition insert_entry (m : gmap string string) (e : entry) : gmap string string :=
  <[string_of_bytes e.1 := string_of_bytes e.2]> m.

Lemma render_entry_clean e : entry_ok e → newline ∉ render_entry e ∧ carriage_return ∉ render_entry e.
Proof.
  intros (Hk & _ & Hn & Hc). destruct (key_ok_trimmed _ Hk) as (_ & _ & _ & Hkn & Hkc).
  unfold render_entry. rewrite !not_elem_of_app, !not_elem_of_cons. auto.
Qed.

Lemma insert_kv_entry m e : entry_ok e → insert_kv m (render_entry e) = insert_entry m e.
Proof.
  destruct e as [k v]. intros (Hk & Hv & _). cbn [fst snd] in Hk, Hv. destruct (key_ok_trimmed k Hk) as (_ & Hkt & Hkc & _).
  unfold insert_kv, render_entry; simpl. rewrite (proj2 (split_once_spec colon _ k (Byte.x20 :: v))) by done.
  rewrite trim_space, (trim_fix k Hkt), (trim_fix v Hv). rewrite bool_decide_false; [done|].
  destruct Hk as [(b & r & -> & _) _]. done.
Qed.

Lemma parse_kv_entries es : Forall entry_ok es → parse_kv (render_entries es) = foldl insert_entry ∅ es.
Proof.
  intros Hes. unfold parse_kv, render_entries.
  rewrite <-(app_nil_r (flat_map _ _)), lines_flat by (apply Forall_fmap; eapply Forall_impl; [done|]; apply render_entry_clean).
  rewrite app_nil_r. generalize (∅ : gmap string string) as m.
  induction Hes as [|e es He Hes IH]; intros m; simpl; [done|]. by rewrite insert_kv_entry, IH.
Qed.

Lemma entry_not_fence e : entry_ok e → is_fence (render_entry e ++ [newline]) = false.
Proof.
  intros (Hk & _). apply bool_decide_eq_false. intros Heq. destruct Hk as [(b & r & Hb & Halpha) _].
  unfold trim_end_matches, render_entry in Heq. rewrite Hb in Heq. cbn [app] in Heq.
  rewrite chunks_cons_ascii in Heq by (destruct b; done).
  destruct (drop_while_end_cons (is_eol ∘ fst) (byte_Z b, [b]) (chunks ((r ++ colon :: Byte.x20 :: e.2) ++ [newline]))) as [q Hq].
  { by destruct b. }
  rewrite Hq in Heq. unfold unchunk in Heq. cbn in Heq. injection Heq as Hb2 _. subst b. vm_compute in Halpha. discriminate.
Qed.

Lemma inclusive_entries es k : Forall entry_ok es →
  inclusive_go [] (render_entries es ++ k) = ((λ e, render_entry e ++ [newline]) <$> es) ++ inclusive_go [] k.
Proof.
  unfold render_entries. induction 1 as [|e es He Hes IH]; [done|]. cbn [fmap list_fmap flat_map app].
  rewrite <-!app_assoc. cbn [app]. rewrite inclusive_go_line by (by apply render_entry_clean).
  cbn [reverse rev_append app]. by f_equal.
Qed.

(** Front matter reads back: a block of well-formed [key: value] lines between two
    [---] fences is parsed to the map those lines build (a later key wins), and the body
    is what follows the closing fence, byte for byte. *)
Theorem frontmatter_roundtrip (es : list entry) (body : bytes) (Hes : Forall entry_ok es) :
  parse (dashes ++ newline :: render_entries es ++ dashes ++ newline :: body) = (foldl insert_entry ∅ es, body).
Proof.
  unfold parse, strip_open.
  rewrite (proj2 (strip_prefix_spec (dashes ++ [newline]) _ (render_entries es ++ dashes ++ newline :: body)))
    by (by rewrite <-app_assoc).
  set (rest := render_entries es ++ dashes ++ newline :: body). unfold split_inclusive_nl.
  assert (inclusive_go [] rest = ((λ e, render_entry e ++ [newline]) <$> es) ++ (dashes ++ [newline]) :: inclusive_go [] body) as ->.
  { unfold rest. rewrite inclusive_entries by done. rewrite inclusive_go_line by (apply (bool_decide_unpack _); vm_compute; exact I). done. }
  rewrite find_close_app; [|apply Forall_fmap; eapply Forall_impl; [done|]; apply entry_not_fence|by vm_compute].
  assert (mjoin ((λ e, render_entry e ++ [newline]) <$> es) = render_entries es) as ->.
  { unfold render_entries. clear. induction es as [|e es IH]; [done|]. cbn. f_equal. exact IH. }
  cbn [Nat.add]. unfold rest. rewrite take_app_length, parse_kv_entries by done. f_equal.
  rewrite (drop_app_ge _ _) by lia. replace (_ - _)%nat with (length (dashes ++ [newline])) by lia.
  change (dashes ++ newline :: body) with ((dashes ++ [newline]) ++ body). apply drop_app_length.
Qed.

(** Nothing is lost: whatever the text, either there is no complete block and the
    body is the whole text with no keys, or the text is the opening fence, the block
    whose lines are parsed, the first closing fence and the body, in this order. *)
Theorem frontmatter_lossless (text : bytes) :
  parse text = (∅, text) ∨
  ∃ opening block closing,
    text = opening ++ block ++ closing ++ (parse text).2 ∧ (parse text).1 = parse_kv block ∧
    opening ∈ [dashes ++ [newline]; dashes ++ [carriage_return; newline]] ∧ is_fence closing = true ∧
    ∃ pre, mjoin pre = block ∧ Forall (λ l, is_fence l = false) pre.
Proof.
  unfold parse. destruct (strip_open text) as [rest|] eqn:Ho; [|by left].
  assert (∃ opening, text = opening ++ rest ∧ opening ∈ [dashes ++ [newline]; dashes ++ [carriage_return; newline]]) as (o & -> & Hop).
  { unfold strip_open in Ho. destruct (strip_prefix (dashes ++ [newline]) text) as [r|] eqn:E.
    - injection Ho as ->. apply strip_prefix_spec in E. exists (dashes ++ [newline]). set_solver.
    - apply strip_prefix_spec in Ho. exists (dashes ++ [carriage_return; newline]). set_solver. }
  destruct (find_close rest 0 (split_inclusive_nl rest)) as [[fm body]|] eqn:Hf; [|by left]. right.
  pose proof Hf as (pre & line & post & Hls & Hpre & Hline)%find_close_inv.
  rewrite Hls, find_close_app in Hf by done. injection Hf as Hfm Hbody. cbn [Nat.add] in Hfm, Hbody.
  pose proof (split_inclusive_join rest) as Hrest. rewrite Hls, join_app in Hrest. cbn [mjoin list_join] in Hrest.
  rewrite <-Hrest in Hfm, Hbody. rewrite take_app_length in Hfm.
  rewrite app_assoc, drop_app_ge in Hbody by (rewrite length_app; lia).
  rewrite length_app in Hbody. replace (_ - _)%nat with 0%nat in Hbody by lia. rewrite drop_0 in Hbody.
  exists o, (mjoin pre), line. simpl. rewrite <-Hrest, <-Hbody, Hfm. by eauto 10.
Qed.
