(* ===== verification/Index.v ===== *)
(** * Embedders and the exact index ([mem-index/src/{embed,index}.rs])

    The feature-hashing embedder, the errors and the trait of a vector index, and the
    exact brute-force index.  [slice::sort_by] is a stable sort as long as its
    comparison is a total order on the slice; otherwise it is documented to return
    some order or to panic, which is the parameter [SliceSort]. *)

From S2P Require Import Prelude Bytes Externs Text Str Belnap Identity Node Float.

(** ** [slice::sort_by] *)

Section sort_by.
Context {A : Type} (f : A → A → comparison).

Definition cmp_leb (a b : A) : bool := match f a b with Gt => false | _ => true end.

Fixpoint insert_cmp (a : A) (l : list A) : list A :=
  match l with
  | [] => [a]
  | b :: l' => if cmp_leb a b then a :: l else b :: insert_cmp a l'
  end.
(** Equal elements keep their order. *)
Definition stable_sort (l : list A) : list A := foldr insert_cmp [] l.

(** Is [f] a total order on the elements of [l]? *)
Definition total_on (l : list A) : bool :=
  forallb (λ a, forallb (λ b,
    bool_decide (f b a = CompOpp (f a b)) &&
    forallb (λ c, implb (cmp_leb a b && cmp_leb b c) (cmp_leb a c)) l) l) l.
End sort_by.

(** What [sort_by] does when the comparison is not a total order: [None] is a panic. *)
Class SliceSort := disordered_sort : ∀ A : Type, (A → A → comparison) → list A → option (list A).
Class SliceSortLaws `{SliceSort} : Prop :=
  disordered_sort_perm : ∀ (A : Type) (f : A → A → comparison) l k, disordered_sort A f l = Some k → k ≡ₚ l.

Definition sort_by `{SliceSort} {A} (f : A → A → comparison) (l : list A) : option (list A) :=
  if total_on f l then Some (stable_sort f l) else disordered_sort A f l.

(** ** Errors and results *)

Inductive IndexError :=
| ModelMismatch (expected got : string)
| DimMismatch (expected got : nat)
| NonFiniteVector.

#[export] Instance IndexError_eq_dec : EqDecision IndexError.
Proof. solve_decision. Defined.

Definition IndexError_display (e : IndexError) : string :=
  match e with
  | ModelMismatch expected got => "vector model '" +:+ got +:+ "' does not match index model '" +:+ expected +:+ "'"
  | DimMismatch expected got => "vector dim " +:+ decimal (Z.of_nat got) +:+ " does not match index dim " +:+ decimal (Z.of_nat expected)
  | NonFiniteVector => "vector contains a non-finite (NaN/Inf) component"
  end.

Record Neighbor := { nb_id : ContentHash; nb_score : f32 }.

(** The guard both indexes share: the vector belongs to the space the index is bound to *)
Definition check_space (model : option string) (dim : option nat) (v : VersionedVector) : result IndexError unit :=
  let? _ := match model with
            | Some m => if bool_decide (m = vv_model v) then Ok tt else Err (ModelMismatch m (vv_model v))
            | None => Ok tt
            end in
  match dim with
  | Some d => if bool_decide (d = length (vv_data v)) then Ok tt else Err (DimMismatch d (length (vv_data v)))
  | None => Ok tt
  end.

(** [get_or_insert] *)
Definition get_or_insert {A} (o : option A) (a : A) : option A := match o with Some _ => o | None => Some a end.

(** ** Embedders: the trait as a record of its methods *)

Inductive EmbedError := EmbedLoad (m : string) | EmbedTokenize (m : string) | EmbedInference (m : string).

Definition EmbedError_display (e : EmbedError) : string :=
  match e with
  | EmbedLoad m => "embedder load failed: " +:+ m
  | EmbedTokenize m => "tokenization failed: " +:+ m
  | EmbedInference m => "embedding inference failed: " +:+ m
  end.

Record Embedder := {
  em_model_id : string;
  em_dim : nat;
  em_embed : string → result EmbedError VersionedVector;
}.

(** [u64::from_le_bytes] *)
Definition from_le_bytes (l : bytes) : Z := foldr (λ b z, byte_Z b + 256 * z) 0 l.

(** [text.split(p)] on characters, the pieces that are not empty *)
Fixpoint tokens_go (p : Z → bool) (acc : bytes) (cs : list (Z * bytes)) : list bytes :=
  match cs with
  | [] => [acc]
  | (c, b) :: cs => if p c then acc :: tokens_go p [] cs else tokens_go p (acc ++ b) cs
  end.

Section hashing.
Context `{Blake3, Unicode, FloatNan}.

Definition tokens (text : string) : list string :=
  (λ t, to_lowercase (string_of_bytes t)) <$>
    filter (λ t, t ≠ []) (tokens_go (λ c, negb (is_alphanumeric c)) [] (chunks (as_bytes text))).

Definition token_hash (tok : string) : bytes := array_bytes (blake3 (as_bytes tok)).
(** The bucket a token falls into, and its sign *)
Definition bucket (dim : nat) (tok : string) : nat :=
  Z.to_nat (from_le_bytes (take 8 (token_hash tok)) mod Z.of_nat dim).
Definition token_sign (tok : string) : f32 :=
  if Z.land (default 0 (byte_Z <$> token_hash tok !! 8%nat)) 1 =? 0 then f32_one else f32_neg_one.

(** [data[idx] += sign] *)
Definition accumulate (dim : nat) (data : list f32) (tok : string) : list f32 :=
  alter (λ x, fadd x (token_sign tok)) (bucket dim tok) data.

(** Divide by the norm; the zero vector stays. *)
Definition l2_normalise (data : list f32) : list f32 :=
  let n := norm data in
  if f32_gtb n f32_zero then (λ x, fdiv x n) <$> data else data.

Definition hashing_model (dim : nat) : string := "hashing-v1-d" +:+ decimal (Z.of_nat dim).

Definition hashing_embed (dim : nat) (text : string) : result EmbedError VersionedVector :=
  let data := foldl (accumulate dim) (replicate dim f32_zero) (tokens text) in
  Ok {| vv_model := hashing_model dim; vv_data := l2_normalise data |}.

Definition HashingEmbedder_new (dim : nat) : Embedder :=
  {| em_model_id := hashing_model dim; em_dim := dim; em_embed := hashing_embed dim |}.
End hashing.

(** ** The exact index *)

Record BruteForceIndex := {
  bf_model : option string;
  bf_dim : option nat;
  bf_items : list (ContentHash * list f32);
}.

Definition BruteForceIndex_new : BruteForceIndex := {| bf_model := None; bf_dim := None; bf_items := [] |}.

Section brute_force.
Context `{FloatNan, SliceSort}.

Definition cosine (a b : list f32) : f32 :=
  let d := dot a b in
  let na := norm a in
  let nb := norm b in
  if f32_is_zero na || f32_is_zero nb then f32_zero else fdiv d (fmul na nb).

Definition bf_check (self : BruteForceIndex) (v : VersionedVector) : result IndexError unit :=
  if negb (forallb f32_is_finite (vv_data v)) then Err NonFiniteVector
  else check_space (bf_model self) (bf_dim self) v.

Definition bf_add (self : BruteForceIndex) (id : ContentHash) (v : VersionedVector) : result IndexError BruteForceIndex :=
  let? _ := bf_check self v in
  Ok {| bf_model := get_or_insert (bf_model self) (vv_model v);
        bf_dim := get_or_insert (bf_dim self) (length (vv_data v));
        bf_items := bf_items self ++ [(id, vv_data v)] |}.

(** Descending by score, incomparable scores equal *)
Definition score_cmp (a b : Neighbor) : comparison := default Eq (f32_partial_cmp (nb_score b) (nb_score a)).

Definition bf_scored (self : BruteForceIndex) (q : list f32) : list Neighbor :=
  (λ p, {| nb_id := p.1; nb_score := cosine q p.2 |}) <$> bf_items self.

(** [None] is a panic of the sort. *)
Definition bf_search (self : BruteForceIndex) (q : VersionedVector) (k : nat) : option (result IndexError (list Neighbor)) :=
  match bf_check self q with
  | Err e => Some (Err e)
  | Ok _ => (λ s, Ok (take k s)) <$> sort_by score_cmp (bf_scored self (vv_data q))
  end.

Definition bf_len (self : BruteForceIndex) : nat := length (bf_items self).
End brute_force.

(** ** Sorting *)

Section sort_by_lemmas.
Context {A : Type} (f : A → A → comparison).

Lemma total_on_spec l : total_on f l = true ↔
  ∀ a b, a ∈ l → b ∈ l → f b a = CompOpp (f a b) ∧ ∀ c, c ∈ l → cmp_leb f a b = true → cmp_leb f b c = true → cmp_leb f a c = true.
Proof.
  unfold total_on. rewrite forallb_forall. setoid_rewrite forallb_forall. setoid_rewrite <-list_elem_of_In.
  setoid_rewrite andb_true_iff. setoid_rewrite forallb_forall. setoid_rewrite <-list_elem_of_In.
  setoid_rewrite bool_decide_eq_true. split.
  - intros Hl a b Ha Hb. destruct (Hl a Ha b Hb) as [Ho Ht]. split; [done|]. intros c Hc H1 H2.
    specialize (Ht c Hc). by rewrite H1, H2 in Ht.
  - intros Hl a Ha b Hb. destruct (Hl a b Ha Hb) as [Ho Ht]. split; [done|]. intros c Hc.
    destruct (cmp_leb f a b) eqn:H1, (cmp_leb f b c) eqn:H2; try done. simpl. eauto.
Qed.

Lemma insert_cmp_perm a l : insert_cmp f a l ≡ₚ a :: l.
Proof. induction l as [|b l IH]; simpl; [done|]. destruct (cmp_leb f a b); [done|]. rewrite IH. apply perm_swap. Qed.

Lemma stable_sort_perm l : stable_sort f l ≡ₚ l.
Proof. induction l as [|a l IH]; simpl; [done|]. by rewrite insert_cmp_perm, IH. Qed.

Lemma insert_cmp_sorted a l : total_on f (a :: l) = true →
  StronglySorted (λ x y, cmp_leb f x y = true) l → StronglySorted (λ x y, cmp_leb f x y = true) (insert_cmp f a l).
Proof.
  rewrite total_on_spec. intros Ht Hl. induction Hl as [|b l Hl IH Hb]; simpl; [by repeat constructor|].
  destruct (cmp_leb f a b) eqn:E.
  - constructor; [by constructor|]. constructor; [done|]. apply Forall_forall. intros x Hx.
    rewrite Forall_forall in Hb. destruct (Ht a b) as [_ Ht']; [set_solver..|]. apply (Ht' x); [set_solver|done|by apply Hb].
  - constructor.
    + apply IH. intros x y Hx Hy. destruct (Ht x y) as [? Ht']; [set_solver..|]. split; [done|]. intros c Hc. apply Ht'. set_solver.
    + rewrite insert_cmp_perm. constructor; [|done]. destruct (Ht a b) as [Ho _]; [set_solver..|].
      unfold cmp_leb in *. rewrite Ho. by destruct (f a b).
Qed.

Lemma total_on_subseteq l k : (∀ x, x ∈ k → x ∈ l) → total_on f l = true → total_on f k = true.
Proof. rewrite !total_on_spec. intros Hk Ht a b Ha Hb. destruct (Ht a b) as [? Ht']; eauto. Qed.

Lemma stable_sort_sorted l : total_on f l = true → StronglySorted (λ x y, cmp_leb f x y = true) (stable_sort f l).
Proof.
  induction l as [|a l IH]; simpl; intros Ht; [constructor|]. apply insert_cmp_sorted.
  - eapply total_on_subseteq; [|done]. intros x. by rewrite stable_sort_perm.
  - apply IH. eapply total_on_subseteq; [|done]. set_solver.
Qed.

Lemma sort_by_perm `{SliceSortLaws} l k : sort_by f l = Some k → k ≡ₚ l.
Proof.
  unfold sort_by. destruct (total_on f l); [intros [= <-]; apply stable_sort_perm|]. apply disordered_sort_perm.
Qed.
End sort_by_lemmas.

(** ** The exact index is exact *)

Section brute_force_lemmas.
Context `{FloatNan, SliceSort}.

Definition no_nan (l : list Neighbor) : Prop := Forall (λ n, f32_is_nan (nb_score n) = false) l.
(** The first score is at least the second. *)
Definition score_ge (a b : Neighbor) : Prop := f32_ordinal (nb_score b) ≤ f32_ordinal (nb_score a).

Lemma score_cmp_ordinal a b : f32_is_nan (nb_score a) = false → f32_is_nan (nb_score b) = false →
  score_cmp a b = (f32_ordinal (nb_score b) ?= f32_ordinal (nb_score a)).
Proof. unfold score_cmp, f32_partial_cmp. by intros -> ->. Qed.

Lemma score_leb a b : f32_is_nan (nb_score a) = false → f32_is_nan (nb_score b) = false →
  cmp_leb score_cmp a b = true ↔ score_ge a b.
Proof.
  intros Ha Hb. unfold cmp_leb, score_ge. rewrite score_cmp_ordinal by done.
  destruct (Z.compare_spec (f32_ordinal (nb_score b)) (f32_ordinal (nb_score a))); split; intros; try done; lia.
Qed.

Lemma total_on_scores l : no_nan l → total_on score_cmp l = true.
Proof.
  unfold no_nan. rewrite Forall_forall. intros Hl. apply total_on_spec. intros a b Ha Hb. split.
  - rewrite !score_cmp_ordinal by auto. apply Z.compare_antisym.
  - intros c Hc. rewrite !score_leb by auto. unfold score_ge. lia.
Qed.

Lemma sorted_scores l : no_nan l → StronglySorted score_ge (stable_sort score_cmp l).
Proof.
  intros Hl. pose proof (stable_sort_sorted score_cmp l (total_on_scores l Hl)) as Hs.
  assert (no_nan (stable_sort score_cmp l)) as Hn by (unfold no_nan; by rewrite stable_sort_perm).
  induction Hs as [|a k Hs IH Ha]; [constructor|]. inversion Hn as [|?? Hna Hnk]; subst. constructor; [by apply IH|].
  rewrite Forall_forall in Ha, Hnk |- *. intros x Hx. apply score_leb; auto.
Qed.

(** Exact search: when no score is a NaN, an accepted query never panics and returns
    the first [k] of all items ranked by cosine similarity to the query, best first, ties
    in insertion order; so no item left out scores higher than one returned. *)
Theorem bf_search_exact (idx : BruteForceIndex) (q : VersionedVector) (k : nat)
    (Hc : bf_check idx q = Ok tt) (Hn : no_nan (bf_scored idx (vv_data q))) :
  ∃ ranked, bf_search idx q k = Some (Ok (take k ranked)) ∧
    ranked ≡ₚ bf_scored idx (vv_data q) ∧ StronglySorted score_ge ranked ∧
    ∀ a b, a ∈ take k ranked → b ∈ drop k ranked → score_ge a b.
Proof.
  exists (stable_sort score_cmp (bf_scored idx (vv_data q))). unfold bf_search, sort_by.
  rewrite Hc, total_on_scores by done. pose proof (sorted_scores _ Hn) as Hs.
  split_and!; [done|apply stable_sort_perm|done|]. intros a b Ha Hb.
  rewrite <-(take_drop k (stable_sort _ _)) in Hs. eapply StronglySorted_app; eauto.
Qed.

(** *** One vector space *)

(** Adding a list of vectors; a rejected one leaves the index as it is. *)
Definition bf_add_skip (idx : BruteForceIndex) (p : ContentHash * VersionedVector) : BruteForceIndex :=
  match bf_add idx p.1 p.2 with Ok idx' => idx' | Err _ => idx end.
Definition bf_build (vs : list (ContentHash * VersionedVector)) : BruteForceIndex :=
  foldl bf_add_skip BruteForceIndex_new vs.

(** The vectors in the index are those of one model and one dimension, all finite. *)
Definition in_space (m : string) (d : nat) (v : VersionedVector) : Prop :=
  vv_model v = m ∧ length (vv_data v) = d ∧ forallb f32_is_finite (vv_data v) = true.
Definition bound_to (idx : BruteForceIndex) (ws : list (ContentHash * VersionedVector)) : Prop :=
  bf_items idx = (λ p, (p.1, vv_data p.2)) <$> ws ∧
  ((ws = [] ∧ bf_model idx = None ∧ bf_dim idx = None) ∨
   ∃ m d, bf_model idx = Some m ∧ bf_dim idx = Some d ∧ Forall (λ p, in_space m d p.2) ws).

Lemma check_space_ok m d v : check_space (Some m) (Some d) v = Ok tt ↔ vv_model v = m ∧ length (vv_data v) = d.
Proof. unfold check_space. do 2 case_bool_decide; simpl; naive_solver. Qed.

Lemma bf_check_ok m d idx v : bf_model idx = Some m → bf_dim idx = Some d →
  bf_check idx v = Ok tt ↔ in_space m d v.
Proof.
  intros Hm Hd. unfold bf_check, in_space. rewrite Hm, Hd.
  destruct (forallb _ _); simpl; [rewrite check_space_ok|]; naive_solver.
Qed.

Lemma bf_add_bound idx ws id v idx' : bound_to idx ws → bf_add idx id v = Ok idx' → bound_to idx' (ws ++ [(id, v)]).
Proof.
  intros [Hi Hs] Ha. unfold bf_add in Ha. apply rbind_ok in Ha as ([] & Hc & [= <-]).
  split; [simpl; by rewrite fmap_app, Hi|]. right. destruct Hs as [(-> & Hm & Hd)|(m & d & Hm & Hd & Hf)].
  - exists (vv_model v), (length (vv_data v)). simpl. rewrite Hm, Hd. split_and!; [done..|].
    apply Forall_singleton. split_and!; [done..|]. unfold bf_check in Hc. by destruct (forallb _ _).
  - exists m, d. simpl. rewrite Hm, Hd. split_and!; [done..|]. apply Forall_app; split; [done|].
    apply Forall_singleton. by apply (bf_check_ok m d idx).
Qed.

Lemma bf_build_bound vs : ∃ ws, sublist ws vs ∧ bound_to (bf_build vs) ws.
Proof.
  unfold bf_build. induction vs as [|p vs (ws & Hsub & IH)] using rev_ind.
  - exists []. split; [constructor|]. split; [done|]. by left.
  - rewrite foldl_snoc. unfold bf_add_skip at 1. destruct (bf_add _ _ _) as [idx|e] eqn:E.
    + exists (ws ++ [p]). split; [by apply sublist_app|]. destruct p. by eapply bf_add_bound.
    + exists ws. split; [|done]. by apply sublist_inserts_r.
Qed.

(** One vector space: whatever vectors are offered in whatever order, those the index
    keeps are finite and of one model and one dimension, and once it holds one, exactly
    the finite vectors of that model and dimension are accepted, for adding and for
    searching; vectors of different models are never compared. *)
Theorem bf_one_space (vs : list (ContentHash * VersionedVector)) (q : VersionedVector) :
  ∃ ws, sublist ws vs ∧ bf_items (bf_build vs) = (λ p, (p.1, vv_data p.2)) <$> ws ∧
    (ws = [] ∨ ∃ m d, Forall (λ p, in_space m d p.2) ws ∧
       (bf_check (bf_build vs) q = Ok tt ↔ in_space m d q) ∧
       ∀ k, is_Some (bf_search (bf_build vs) q k ≫= rok) → in_space m d q).
Proof.
  destruct (bf_build_bound vs) as (ws & Hsub & Hi & Hs). exists ws. split; [done|]. split; [done|].
  destruct Hs as [(-> & _ & _)|(m & d & Hm & Hd & Hf)]; [by left|]. right. exists m, d. split; [done|].
  split; [by apply bf_check_ok|]. intros k [hits Hh]. apply (bf_check_ok m d (bf_build vs)); [done..|].
  unfold bf_search in Hh. by destruct (bf_check _ _) as [[]|].
Qed.
End brute_force_lemmas.

(** *** Where the guard falls short *)

(** [3e38] and its like: finite, but the square overflows *)
Definition huge : f32 := F32 0x7f61b1e6.
Definition panicking_sort : SliceSort := λ A f l, None.

(** The finiteness guard does not keep NaNs out of the ranking: three finite vectors
    of two components, one of them with components near the largest float, are accepted,
    yet against a finite query the scores contain a NaN and the comparison of
    [BruteForceIndex::search] is not a total order, so the sort may return any order or
    panic ("NaN pushed last" is not what [unwrap_or(Equal)] does). *)
Theorem bf_search_disordered :
  ∃ (vs : list (ContentHash * VersionedVector)) (q : VersionedVector),
    Forall (λ p, forallb f32_is_finite (vv_data p.2) = true) vs ∧
    length (bf_items (bf_build vs)) = 3%nat ∧ bf_check (bf_build vs) q = Ok tt ∧
    total_on score_cmp (bf_scored (H := plain_nan) (bf_build vs) (vv_data q)) = false ∧
    bf_search (H := plain_nan) (H0 := panicking_sort) (bf_build vs) q 1 = None.
Proof.
  set (v := λ l, {| vv_model := "m"; vv_data := l |}). set (id := zero_array 32).
  exists [(id, v [f32_one; f32_zero]); (id, v [huge; huge]); (id, v [f32_zero; f32_neg_one])], (v [f32_one; f32_one]).
  split; [by repeat constructor|]. vm_compute. done.
Qed.

(** ** The hashing embedder *)

Section hashing_lemmas.
Context `{Blake3, Unicode, FloatNan}.

Lemma bucket_lt dim tok : (0 < dim)%nat → (bucket dim tok < dim)%nat.
Proof. intros Hd. unfold bucket. pose proof (Z.mod_pos_bound (from_le_bytes (take 8 (token_hash tok))) (Z.of_nat dim)). lia. Qed.

Lemma length_l2_normalise l : length (l2_normalise l) = length l.
Proof. unfold l2_normalise. destruct (f32_gtb _ _); [apply length_fmap|done]. Qed.

Lemma length_accumulate dim data toks : length (foldl (accumulate dim) data toks) = length data.
Proof. revert data. induction toks as [|t toks IH]; intros data; simpl; [done|]. rewrite IH. apply length_alter. Qed.

(** The hashing embedder is total and stays in its space: it never fails, every token
    lands in a bucket of the vector, and every embedding carries the embedder's model id
    and dimension; embedders of different dimensions have different model ids, so an
    index bound to one rejects the vectors of the other. *)
Theorem hashing_embed_space (dim : nat) (text : string) (Hd : (0 < dim)%nat) :
  Forall (λ tok, bucket dim tok < dim)%nat (tokens text) ∧
  ∃ v, em_embed (HashingEmbedder_new dim) text = Ok v ∧ vv_model v = em_model_id (HashingEmbedder_new dim) ∧
    length (vv_data v) = em_dim (HashingEmbedder_new dim) ∧
    ∀ dim', dim' ≠ dim → em_model_id (HashingEmbedder_new dim') ≠ vv_model v.
Proof.
  split; [apply Forall_forall; intros; by apply bucket_lt|]. eexists. split; [reflexivity|].
  cbn [vv_model vv_data em_model_id em_dim HashingEmbedder_new]. split_and!; [done| |].
  - by rewrite length_l2_normalise, length_accumulate, length_replicate.
  - intros dim' Hne Heq. apply Hne. unfold hashing_model in Heq. apply (inj (String.app "hashing-v1-d")) in Heq.
    apply decimal_inj in Heq; lia.
Qed.
End hashing_lemmas.
