(* ===== verification/Hnsw.v ===== *)
(** * The approximate index ([mem-index/src/hnsw.rs])

    The layered proximity graph: level assignment from the node's hash, greedy descent,
    beam search with its two heaps, diversity selection, pruning, insertion and query.
    Indexing out of range and running out of fuel are both [None]; [hnsw_build_wf] and
    [hnsw_search_answers] prove that neither happens.

    A [BinaryHeap] is the list of its entries in the order it pops them: entries that
    compare equal are equal, so this determines every pop. *)

From Stdlib Require Import SpecFloat.
From S2P Require Import Prelude Bytes Externs Text Str Belnap Identity Node Float Index.

(** The platform's natural logarithm on [f64], whose precision is unspecified *)
Class Ln := f64_ln : spec_float → spec_float.

(** An entry of a heap: a similarity under [total_cmp] and the node's index, a [u32] *)
Abbreviation hentry := (f32 * Z)%type.
Definition asc_key (p : hentry) : Z * Z := (total_key p.1, p.2).
Definition desc_key (p : hentry) : Z * Z := (- total_key p.1, - p.2).

Record HnswNode := { hn_id : ContentHash; hn_vec : list f32; hn_links : list (list Z) }.

Record HnswIndex := {
  hx_model : option string;
  hx_dim : option nat;
  hx_m : nat;
  hx_ef_construction : nat;
  hx_ef_search : nat;
  hx_level_norm : spec_float;
  hx_nodes : list HnswNode;
  hx_entry : option Z;
}.

Definition set_nodes (ns : list HnswNode) (self : HnswIndex) : HnswIndex :=
  {| hx_model := hx_model self; hx_dim := hx_dim self; hx_m := hx_m self; hx_ef_construction := hx_ef_construction self;
     hx_ef_search := hx_ef_search self; hx_level_norm := hx_level_norm self; hx_nodes := ns; hx_entry := hx_entry self |}.
Definition set_entry (e : option Z) (self : HnswIndex) : HnswIndex :=
  {| hx_model := hx_model self; hx_dim := hx_dim self; hx_m := hx_m self; hx_ef_construction := hx_ef_construction self;
     hx_ef_search := hx_ef_search self; hx_level_norm := hx_level_norm self; hx_nodes := hx_nodes self; hx_entry := e |}.
Definition bind_space (v : VersionedVector) (self : HnswIndex) : HnswIndex :=
  {| hx_model := get_or_insert (hx_model self) (vv_model v); hx_dim := get_or_insert (hx_dim self) (length (vv_data v));
     hx_m := hx_m self; hx_ef_construction := hx_ef_construction self; hx_ef_search := hx_ef_search self;
     hx_level_norm := hx_level_norm self; hx_nodes := hx_nodes self; hx_entry := hx_entry self |}.

Definition f64_one : spec_float := f64_of_Z 1.

Section hnsw.
Context `{Blake3, FloatNan, Ln}.

Definition with_params (m ef_construction ef_search : nat) : HnswIndex :=
  let m := Nat.max m 2 in
  {| hx_model := None; hx_dim := None; hx_m := m; hx_ef_construction := Nat.max ef_construction 1;
     hx_ef_search := Nat.max ef_search 1;
     hx_level_norm := SFdiv 53 1024 f64_one (f64_ln (f64_of_Z (Z.of_nat m)));
     hx_nodes := []; hx_entry := None |}.
Definition HnswIndex_new : HnswIndex := with_params 16 128 64.

Definition hx_check (self : HnswIndex) (v : VersionedVector) : result IndexError unit :=
  check_space (hx_model self) (hx_dim self) v.

Definition level_for (self : HnswIndex) (id : ContentHash) : nat :=
  let x := from_le_bytes (take 8 (array_bytes (blake3 (array_bytes id)))) in
  let u := SFdiv 53 1024 (SFadd 53 1024 (f64_of_Z x) f64_one) (SFadd 53 1024 (f64_of_Z u64_max) (f64_of_Z 2)) in
  let l := floor_usize (SFmul 53 1024 (SFopp (f64_ln u)) (hx_level_norm self)) in
  Z.to_nat (Z.min l 32).

Definition max_degree (self : HnswIndex) (layer : nat) : nat :=
  match layer with O => hx_m self * 2 | _ => hx_m self end.

(** [self.nodes[a as usize]], [self.nodes[a as usize].links[layer]] *)
Definition node_at (self : HnswIndex) (a : Z) : option HnswNode := hx_nodes self !! Z.to_nat a.
Definition links_at (self : HnswIndex) (a : Z) (layer : nat) : option (list Z) :=
  n ← node_at self a; hn_links n !! layer.

Definition similarity (self : HnswIndex) (a : Z) (q : list f32) : option f32 :=
  n ← node_at self a; Some (dot (hn_vec n) q).

(** *** Greedy descent *)

Fixpoint greedy_links (self : HnswIndex) (q : list f32) (nbs : list Z) (best : f32) (ep : Z) (improved : bool)
    : option (f32 * Z * bool) :=
  match nbs with
  | [] => Some (best, ep, improved)
  | nb :: nbs =>
    s ← similarity self nb q;
    if f32_gtb s best then greedy_links self q nbs s nb true else greedy_links self q nbs best ep improved
  end.

Fixpoint greedy_loop (self : HnswIndex) (q : list f32) (layer fuel : nat) (best : f32) (ep : Z) : option Z :=
  match fuel with
  | O => None
  | S fuel =>
    nbs ← links_at self ep layer;
    '(best', ep', improved) ← greedy_links self q nbs best ep false;
    if (improved : bool) then greedy_loop self q layer fuel best' ep' else Some ep'
  end.

(** Every round improves on the best similarity so far, which is that of one of the
    nodes: one round more than there are nodes is enough. *)
Definition greedy_closest (self : HnswIndex) (ep : Z) (q : list f32) (layer : nat) : option Z :=
  best ← similarity self ep q;
  greedy_loop self q layer (S (length (hx_nodes self))) best ep.

(** *** Beam search *)

Record beam := { bm_visited : list bool; bm_candidates : list hentry; bm_best : list hentry }.

Definition floor_sim (best : list hentry) : f32 := match best with p :: _ => p.1 | [] => f32_neg_infinity end.
(** [a < b] on [Sim] *)
Definition sim_ltb (a b : f32) : bool := total_key a <? total_key b.

Definition push_candidate (p : hentry) (l : list hentry) : list hentry := insert_by_key desc_key p l.
Definition push_best (p : hentry) (l : list hentry) : list hentry := insert_by_key asc_key p l.

(** One link of the expanded candidate *)
Definition expand (self : HnswIndex) (q : list f32) (ef : nat) (st : beam) (nb : Z) : option beam :=
  seen ← bm_visited st !! Z.to_nat nb;
  if (seen : bool) then Some st
  else
    let visited := <[Z.to_nat nb := true]> (bm_visited st) in
    s ← similarity self nb q;
    if bool_decide (length (bm_best st) < ef)%nat || sim_ltb (floor_sim (bm_best st)) s then
      let best := push_best (s, nb) (bm_best st) in
      let best := if bool_decide (ef < length best)%nat then drop 1 best else best in
      Some {| bm_visited := visited; bm_candidates := push_candidate (s, nb) (bm_candidates st); bm_best := best |}
    else Some {| bm_visited := visited; bm_candidates := bm_candidates st; bm_best := bm_best st |}.

Fixpoint expand_all (self : HnswIndex) (q : list f32) (ef : nat) (st : beam) (nbs : list Z) : option beam :=
  match nbs with
  | [] => Some st
  | nb :: nbs => st' ← expand self q ef st nb; expand_all self q ef st' nbs
  end.

Fixpoint beam_loop (self : HnswIndex) (q : list f32) (ef layer fuel : nat) (st : beam) : option (list hentry) :=
  match bm_candidates st with
  | [] => Some (bm_best st)
  | (sim, node) :: rest =>
    match fuel with
    | O => None
    | S fuel =>
      if sim_ltb sim (floor_sim (bm_best st)) && bool_decide (ef ≤ length (bm_best st))%nat then Some (bm_best st)
      else
        nbs ← links_at self node layer;
        st' ← expand_all self q ef {| bm_visited := bm_visited st; bm_candidates := rest; bm_best := bm_best st |} nbs;
        beam_loop self q ef layer fuel st'
    end
  end.

(** Every node becomes a candidate at most once: as many rounds as there are nodes. *)
Definition search_layer (self : HnswIndex) (ep : Z) (q : list f32) (ef layer : nat) : option (list hentry) :=
  s ← similarity self ep q;
  best ← beam_loop self q ef layer (length (hx_nodes self))
    {| bm_visited := <[Z.to_nat ep := true]> (replicate (length (hx_nodes self)) false);
       bm_candidates := [(s, ep)]; bm_best := [(s, ep)] |};
  Some (sort_by_key desc_key best).

(** *** Neighbour selection *)

(** Is the candidate closer to the base than to every neighbour kept so far? *)
Fixpoint diverse (self : HnswIndex) (sim : f32) (cv : list f32) (kept : list hentry) : option bool :=
  match kept with
  | [] => Some true
  | (_, s) :: kept =>
    n ← node_at self s;
    if f32_gtb sim (dot (hn_vec n) cv) then diverse self sim cv kept else Some false
  end.

Fixpoint select_loop (self : HnswIndex) (cap : nat) (kept : list hentry) (skipped : list Z) (cs : list hentry)
    : option (list hentry * list Z) :=
  match cs with
  | [] => Some (kept, skipped)
  | (sim, c) :: cs =>
    if bool_decide (cap ≤ length kept)%nat then Some (kept, skipped)
    else
      n ← node_at self c;
      d ← diverse self sim (hn_vec n) kept;
      if (d : bool) then select_loop self cap (kept ++ [(sim, c)]) skipped cs
      else select_loop self cap kept (skipped ++ [c]) cs
  end.

Definition select_diverse (self : HnswIndex) (candidates : list hentry) (cap : nat) : option (list Z) :=
  '(kept, skipped) ← select_loop self cap [] [] candidates;
  let out := snd <$> kept in
  Some (out ++ take (cap - length out) skipped).

(** [self.nodes[a].links[layer] = f(self.nodes[a].links[layer])] *)
Definition update_links (self : HnswIndex) (a : Z) (layer : nat) (f : list Z → list Z) : option HnswIndex :=
  n ← node_at self a;
  ls ← hn_links n !! layer;
  Some (set_nodes (<[Z.to_nat a := {| hn_id := hn_id n; hn_vec := hn_vec n; hn_links := <[layer := f ls]> (hn_links n) |}]>
                     (hx_nodes self)) self).

Fixpoint score_links (self : HnswIndex) (q : list f32) (nbs : list Z) : option (list hentry) :=
  match nbs with
  | [] => Some []
  | nb :: nbs => s ← similarity self nb q; r ← score_links self q nbs; Some ((s, nb) :: r)
  end.

Definition prune (self : HnswIndex) (node : Z) (layer : nat) : option HnswIndex :=
  let cap := max_degree self layer in
  nbs ← links_at self node layer;
  if bool_decide (length nbs ≤ cap)%nat then Some self
  else
    n ← node_at self node;
    scored ← score_links self (hn_vec n) nbs;
    sel ← select_diverse self (sort_by_key desc_key scored) cap;
    update_links self node layer (λ _, sel).

(** *** Insertion and query *)

Definition normalized (data : list f32) : list f32 := l2_normalise data.

(** Link the new node and one neighbour both ways, and prune the neighbour. *)
Definition connect (new_idx : Z) (layer : nat) (self : HnswIndex) (nb : Z) : option HnswIndex :=
  s1 ← update_links self new_idx layer (λ ls, ls ++ [nb]);
  s2 ← update_links s1 nb layer (λ ls, ls ++ [new_idx]);
  prune s2 nb layer.

Fixpoint connect_all (new_idx : Z) (layer : nat) (self : HnswIndex) (nbs : list Z) : option HnswIndex :=
  match nbs with
  | [] => Some self
  | nb :: nbs => s ← connect new_idx layer self nb; connect_all new_idx layer s nbs
  end.

(** One shared layer: the index and the entry point for the layer below *)
Definition add_layer (new_idx : Z) (q : list f32) (self : HnswIndex) (ep : Z) (layer : nat) : option (HnswIndex * Z) :=
  found ← search_layer self ep q (hx_ef_construction self) layer;
  let ep' := match found with (_, best) :: _ => best | [] => ep end in
  sel ← select_diverse self found (hx_m self);
  s ← connect_all new_idx layer self sel;
  Some (s, ep').

Fixpoint add_layers (new_idx : Z) (q : list f32) (self : HnswIndex) (ep : Z) (layers : list nat) : option HnswIndex :=
  match layers with
  | [] => Some self
  | l :: layers => '(s, ep') ← add_layer new_idx q self ep l; add_layers new_idx q s ep' layers
  end.

Fixpoint descend (self : HnswIndex) (q : list f32) (ep : Z) (layers : list nat) : option Z :=
  match layers with
  | [] => Some ep
  | l :: layers => ep' ← greedy_closest self ep q l; descend self q ep' layers
  end.

(** [(lo..=hi).rev()] *)
Definition rev_range (lo hi : nat) : list nat := reverse (seq lo (S hi - lo)).

(** The insertion proper, after the guard *)
Definition insert_node (self : HnswIndex) (id : ContentHash) (v : VersionedVector) : option HnswIndex :=
  let self := bind_space v self in
  let level := level_for self id in
  let new_idx := Z.of_nat (length (hx_nodes self)) mod 2 ^ 32 in
  let self := set_nodes (hx_nodes self ++ [{| hn_id := id; hn_vec := normalized (vv_data v);
                                              hn_links := replicate (S level) [] |}]) self in
  match hx_entry self with
  | None => Some (set_entry (Some new_idx) self)
  | Some entry =>
    nn ← node_at self new_idx;
    let q := hn_vec nn in
    en ← node_at self entry;
    let top := (length (hn_links en) - 1)%nat in
    ep ← descend self q entry (rev_range (S level) top);
    s ← add_layers new_idx q self ep (rev_range 0 (Nat.min level top));
    Some (if bool_decide (top < level)%nat then set_entry (Some new_idx) s else s)
  end.

Definition hx_add (self : HnswIndex) (id : ContentHash) (v : VersionedVector) : option (result IndexError HnswIndex) :=
  match hx_check self v with
  | Err e => Some (Err e)
  | Ok _ => Ok <$> insert_node self id v
  end.

(** The query proper: the [k] best of the beam on the bottom layer *)
Definition query (self : HnswIndex) (q : list f32) (k : nat) : option (list Neighbor) :=
  match hx_entry self with
  | None => Some []
  | Some entry =>
    let qn := normalized q in
    en ← node_at self entry;
    let top := (length (hn_links en) - 1)%nat in
    ep ← descend self qn entry (rev_range 1 top);
    found ← search_layer self ep qn (Nat.max (hx_ef_search self) k) 0;
    mapM (λ p : hentry, n ← node_at self p.2; Some {| nb_id := hn_id n; nb_score := p.1 |}) (take k found)
  end.

Definition hx_search (self : HnswIndex) (q : VersionedVector) (k : nat) : option (result IndexError (list Neighbor)) :=
  match hx_check self q with
  | Err e => Some (Err e)
  | Ok _ => Ok <$> query self (vv_data q) k
  end.

Definition hx_len (self : HnswIndex) : nat := length (hx_nodes self).
End hnsw.
