(* ===== verification/HnswProps.v ===== *)
(** * The approximate index never leaves its graph

    The invariant of the layered graph (links stay inside the graph and on layers the
    target has, degrees are bounded, the entry point is on the top layer), its
    preservation by insertion, and the totality, bounds and order of queries. *)

From S2P Require Import Prelude Bytes Externs Text Str Belnap Identity Node Float Index Hnsw.

Section hnsw_props.
Context `{Blake3, FloatNan, Ln}.
Implicit Types (self : HnswIndex) (j a new : Z) (l layer : nat).

(** ** The invariant *)

(** [j] is a node of the graph that has layer [l]. *)
Definition ok_target (ns : list HnswNode) l j : Prop :=
  0 ≤ j ∧ ∃ nd, ns !! Z.to_nat j = Some nd ∧ (l < length (hn_links nd))%nat.

Definition links_ok self : Prop :=
  ∀ a l ls, 0 ≤ a → links_at self a l = Some ls → Forall (ok_target (hx_nodes self) l) ls.
Definition degree_ok self : Prop :=
  ∀ a l ls, 0 ≤ a → links_at self a l = Some ls → (length ls ≤ max_degree self l)%nat.
Definition entry_ok self : Prop :=
  match hx_entry self with
  | None => hx_nodes self = []
  | Some e => 0 ≤ e ∧ ∃ en, node_at self e = Some en ∧ hn_links en ≠ [] ∧
      ∀ nd, nd ∈ hx_nodes self → (length (hn_links nd) ≤ length (hn_links en))%nat
  end.

Record hnsw_wf self : Prop := {
  wf_links : links_ok self;
  wf_degree : degree_ok self;
  wf_entry : entry_ok self;
  wf_m : (2 ≤ hx_m self)%nat;
  wf_efc : (1 ≤ hx_ef_construction self)%nat;
  wf_efs : (1 ≤ hx_ef_search self)%nat;
}.

Lemma links_at_Some self a l ls :
  links_at self a l = Some ls ↔ ∃ nd, node_at self a = Some nd ∧ hn_links nd !! l = Some ls.
Proof. unfold links_at. by rewrite bind_Some. Qed.

Lemma ok_links self l j : ok_target (hx_nodes self) l j → ∃ ls, links_at self j l = Some ls.
Proof.
  intros (_ & nd & Hn & Hl). apply lookup_lt_is_Some in Hl as [ls Hl]. exists ls. apply links_at_Some. by exists nd.
Qed.
Lemma ok_similarity self l j q : ok_target (hx_nodes self) l j →
  ∃ nd, node_at self j = Some nd ∧ similarity self j q = Some (dot (hn_vec nd) q).
Proof. intros (_ & nd & Hn & _). exists nd. unfold similarity, node_at. by rewrite Hn. Qed.
Lemma ok_lt ns l j : ok_target ns l j → (Z.to_nat j < length ns)%nat.
Proof. intros (_ & nd & Hn & _). by apply lookup_lt_Some in Hn. Qed.

(** ** Greedy descent *)

(** How many nodes are closer than [best]: the measure of the descent *)
Definition closer self (q : list f32) (best : f32) : nat :=
  length (filter (λ nd, f32_gtb (dot (hn_vec nd) q) best = true) (hx_nodes self)).

Lemma filter_length_lt {A} (P Q : A → Prop) `{!∀ x, Decision (P x), !∀ x, Decision (Q x)} (k : list A) x :
  (∀ y, P y → Q y) → x ∈ k → Q x → ¬ P x → (length (filter P k) < length (filter Q k))%nat.
Proof.
  intros HPQ. assert (∀ k, length (filter P k) ≤ length (filter Q k))%nat as Hle.
  { clear -HPQ. induction k as [|y k IH]; [done|]. rewrite !filter_cons.
    destruct (decide (P y)); [rewrite decide_True by auto; simpl; lia|]. case_decide; simpl; lia. }
  intros Hx HQ HP. induction k as [|y k IH]; [by apply not_elem_of_nil in Hx|]. rewrite !filter_cons.
  apply elem_of_cons in Hx as [<-|Hx].
  - rewrite decide_False, decide_True by done. specialize (Hle k). simpl. lia.
  - specialize (IH Hx). destruct (decide (P y)); [rewrite decide_True by auto; simpl; lia|]. case_decide; simpl; lia.
Qed.

Lemma closer_decreases self q best j nd : node_at self j = Some nd →
  f32_gtb (dot (hn_vec nd) q) best = true → (closer self q (dot (hn_vec nd) q) < closer self q best)%nat.
Proof.
  intros Hn Hgt. unfold closer. apply (filter_length_lt _ _ _ nd); [|by eapply list_elem_of_lookup_2|done|by rewrite f32_gtb_irrefl].
  intros x Hx. by eapply f32_gtb_trans.
Qed.

Lemma greedy_links_ok self q l nbs best ep imp :
  Forall (ok_target (hx_nodes self) l) nbs → ok_target (hx_nodes self) l ep →
  (∃ nd, node_at self ep = Some nd ∧ best = dot (hn_vec nd) q) →
  ∃ best' ep' imp', greedy_links self q nbs best ep imp = Some (best', ep', imp') ∧
    (ep' = ep ∨ ep' ∈ nbs) ∧ ok_target (hx_nodes self) l ep' ∧ (∃ nd, node_at self ep' = Some nd ∧ best' = dot (hn_vec nd) q) ∧
    (imp' = imp ∧ best' = best ∧ ep' = ep ∨ imp' = true ∧ (closer self q best' < closer self q best)%nat).
Proof.
  intros Hnbs. revert best ep imp. induction Hnbs as [|nb nbs Hnb Hnbs IH]; intros best ep imp Hep Hbest; simpl.
  { exists best, ep, imp. auto 10. }
  destruct (ok_similarity self l nb q Hnb) as (nd & Hn & ->). cbn [mbind option_bind].
  destruct (f32_gtb _ best) eqn:Hgt.
  - destruct (IH (dot (hn_vec nd) q) nb true Hnb) as (b' & e' & i' & -> & Hfrom & Hok & Hb & Hcase); [by exists nd|].
    exists b', e', i'. split_and!; [done|set_solver|done|done|]. right.
    pose proof (closer_decreases self q best nb nd Hn Hgt). destruct Hcase as [(-> & -> & ->)|[-> ?]]; split; [done|done|done|lia].
  - destruct (IH best ep imp Hep Hbest) as (b' & e' & i' & Hg & Hfrom & Hrest). exists b', e', i'. split_and!; [done|set_solver|apply Hrest..].
Qed.

(** [j] is linked to on layer [l]. *)
Definition mentioned self l j : Prop := ∃ a ls, 0 ≤ a ∧ links_at self a l = Some ls ∧ j ∈ ls.

Lemma greedy_loop_ok self q l fuel best ep :
  links_ok self → ok_target (hx_nodes self) l ep → (∃ nd, node_at self ep = Some nd ∧ best = dot (hn_vec nd) q) →
  (closer self q best < fuel)%nat →
  ∃ ep', greedy_loop self q l fuel best ep = Some ep' ∧ ok_target (hx_nodes self) l ep' ∧ (ep' = ep ∨ mentioned self l ep').
Proof.
  intros Hl. revert best ep. induction fuel as [|fuel IH]; intros best ep Hep Hbest Hf; [lia|]. simpl.
  destruct (ok_links self l ep Hep) as [nbs Hnbs]. rewrite Hnbs. cbn [mbind option_bind].
  destruct (greedy_links_ok self q l nbs best ep false) as (b' & e' & i' & -> & Hfrom & Hok & Hb & Hcase); [|done..|].
  { eapply Hl; [|done]. apply Hep. }
  cbn [mbind option_bind]. destruct Hcase as [(-> & -> & ->)|[-> Hlt]]; [by eauto|].
  destruct (IH b' e') as (ep' & Hg & Hok' & Hm); [done..|lia|]. exists ep'. split_and!; [done..|].
  destruct Hm as [->|Hm]; [|by right]. destruct Hfrom as [->|Hin]; [by left|]. right. exists ep, nbs. split; [apply Hep|done].
Qed.

Lemma greedy_closest_ok self q l ep : links_ok self → ok_target (hx_nodes self) l ep →
  ∃ ep', greedy_closest self ep q l = Some ep' ∧ ok_target (hx_nodes self) l ep' ∧ (ep' = ep ∨ mentioned self l ep').
Proof.
  intros Hl Hep. unfold greedy_closest. destruct (ok_similarity self l ep q Hep) as (nd & Hn & ->). cbn [mbind option_bind].
  apply greedy_loop_ok; [done|done|by exists nd|]. unfold closer.
  apply Nat.lt_succ_r, length_filter.
Qed.

Lemma ok_target_le ns l l' j : (l' ≤ l)%nat → ok_target ns l j → ok_target ns l' j.
Proof. intros ? (? & nd & ? & ?). split; [done|]. exists nd. split; [done|lia]. Qed.

(** Descending a decreasing run of layers that the entry point has *)
Lemma descend_ok self q ep lo hi : links_ok self → ok_target (hx_nodes self) hi ep →
  ∃ ep', descend self q ep (rev_range lo hi) = Some ep' ∧ ok_target (hx_nodes self) (Nat.min lo hi) ep' ∧
    (ep' = ep ∨ ∃ l, mentioned self l ep').
Proof.
  intros Hl. unfold rev_range. remember (S hi - lo)%nat as n eqn:Hn. revert ep hi Hn.
  induction n as [|n IH]; intros ep hi Hn Hep.
  { simpl. exists ep. split_and!; [done| |by left]. eapply ok_target_le; [|done]. lia. }
  rewrite seq_S, reverse_app. simpl. replace (lo + n)%nat with hi by lia.
  destruct (greedy_closest_ok self q hi ep Hl Hep) as (ep1 & -> & Hep1 & Hm1). cbn [mbind option_bind].
  destruct n as [|n].
  - simpl. exists ep1. split_and!; [done| |naive_solver]. eapply ok_target_le; [|done]. lia.
  - destruct (IH ep1 (pred hi)) as (ep' & -> & Hep' & Hm'); [lia|eapply ok_target_le; [|done]; lia|].
    exists ep'. split_and!; [done| |naive_solver]. by replace (Nat.min lo hi) with (Nat.min lo (pred hi)) by lia.
Qed.

(** ** Beam search *)

Section beam.
(** [P] is a set of nodes that the links of a layer do not leave. *)
Context (self : HnswIndex) (layer : nat) (q : list f32) (P : Z → Prop).
Context (HP : ∀ j, P j → ok_target (hx_nodes self) layer j).
Context (Hclosed : ∀ j ls, P j → links_at self j layer = Some ls → Forall P ls).

Definition unvisited (v : list bool) : nat := length (filter (λ b, b = false) v).

(** A heap entry: a node of [P] already visited, with its similarity *)
Definition entry_wf (v : list bool) (p : hentry) : Prop :=
  P p.2 ∧ v !! Z.to_nat p.2 = Some true ∧ similarity self p.2 q = Some p.1.

Record beam_inv (ef : nat) (st : beam) : Prop := {
  bi_length : length (bm_visited st) = length (hx_nodes self);
  bi_cands : Forall (entry_wf (bm_visited st)) (bm_candidates st);
  bi_best : Forall (entry_wf (bm_visited st)) (bm_best st);
  bi_nodup : NoDup (snd <$> bm_best st);
  bi_sorted : StronglySorted (key_le asc_key) (bm_best st);
  bi_some : bm_best st ≠ [];
  bi_bound : (length (bm_best st) ≤ ef)%nat;
}.
Definition work (st : beam) : nat := (length (bm_candidates st) + unvisited (bm_visited st))%nat.

Lemma unvisited_start n : unvisited (replicate n false) = n.
Proof. unfold unvisited. induction n as [|n IH]; [done|]. simpl. by rewrite IH. Qed.

Lemma unvisited_mark v i : v !! i = Some false → unvisited v = S (unvisited (<[i := true]> v)).
Proof.
  revert i. induction v as [|b v IH]; intros [|i] Hi; simplify_eq/=; unfold unvisited in *.
  - rewrite !filter_cons. by rewrite decide_True, decide_False.
  - rewrite !filter_cons. specialize (IH i Hi). case_decide; simpl; lia.
Qed.

Lemma entry_wf_mark v i p : entry_wf v p → entry_wf (<[i := true]> v) p.
Proof.
  intros (HPp & Hv & Hs). split_and!; [done| |done]. destruct (decide (Z.to_nat p.2 = i)) as [<-|Hne].
  - apply list_lookup_insert_eq. by apply lookup_lt_Some in Hv.
  - by rewrite list_lookup_insert_ne.
Qed.

Lemma expand_ok ef st nb : (1 ≤ ef)%nat → beam_inv ef st → P nb →
  ∃ st', expand self q ef st nb = Some st' ∧ beam_inv ef st' ∧ (work st' ≤ work st)%nat.
Proof.
  intros Hef Hst Hnb. unfold expand. pose proof (HP nb Hnb) as Hok. pose proof (ok_lt _ _ _ Hok) as Hlt.
  rewrite <-(bi_length _ _ Hst) in Hlt. apply lookup_lt_is_Some in Hlt as [seen Hseen]. rewrite Hseen. cbn [mbind option_bind].
  destruct seen; [by exists st|]. destruct (ok_similarity self layer nb q Hok) as (nd & Hnd & Hsim). rewrite Hsim.
  cbn [mbind option_bind]. set (s := dot (hn_vec nd) q) in *. pose proof (unvisited_mark _ _ Hseen) as Hun.
  assert (entry_wf (<[Z.to_nat nb := true]> (bm_visited st)) (s, nb)) as Hnew.
  { split_and!; [done| |done]. apply list_lookup_insert_eq. by apply lookup_lt_Some in Hseen. }
  assert (∀ l : list hentry, Forall (entry_wf (bm_visited st)) l → Forall (entry_wf (<[Z.to_nat nb := true]> (bm_visited st))) l) as Hmark
    by (intros l Hl; eapply Forall_impl; [done|]; intros; by apply entry_wf_mark).
  assert (nb ∉ snd <$> bm_best st) as Hnot.
  { intros (p & -> & Hp)%list_elem_of_fmap. pose proof (bi_best _ _ Hst) as Hb. rewrite Forall_forall in Hb.
    destruct (Hb p Hp) as (_ & Hv & _). congruence. }
  destruct (bool_decide (length (bm_best st) < ef)%nat || sim_ltb (floor_sim (bm_best st)) s) eqn:Hc.
  - set (best := push_best (s, nb) (bm_best st)). assert (best ≡ₚ (s, nb) :: bm_best st) as Hperm by apply insert_by_key_perm.
    assert (StronglySorted (key_le asc_key) best) as Hsort by (apply insert_by_key_sorted, Hst).
    assert (Forall (entry_wf (<[Z.to_nat nb := true]> (bm_visited st))) best) as Hbest
      by (rewrite Hperm; constructor; [done|apply Hmark, Hst]).
    assert (NoDup (snd <$> best)) as Hnd' by (rewrite Hperm; cbn; constructor; [done|apply Hst]).
    eexists. split; [done|]. assert (length best = S (length (bm_best st))) as Hlen by (by rewrite Hperm).
    pose proof (bi_bound _ _ Hst) as Hbound. split; [|unfold work; simpl; unfold push_candidate; rewrite insert_by_key_perm; simpl; lia].
    assert (best = default (s, nb) (head best) :: drop 1 best) as Hsplit by (destruct best; [done|]; simpl; by rewrite drop_0).
    split; cbn [bm_visited bm_candidates bm_best]; [by rewrite length_insert; apply Hst|
      unfold push_candidate; rewrite insert_by_key_perm; constructor; [done|apply Hmark, Hst]|..].
    all: destruct (bool_decide (ef < length best)%nat) eqn:Hd; [apply bool_decide_eq_true in Hd|apply bool_decide_eq_false in Hd].
    + by apply Forall_drop.
    + done.
    + rewrite fmap_drop. eapply sublist_NoDup; [done|]. apply sublist_drop.
    + done.
    + rewrite Hsplit in Hsort. by inversion Hsort.
    + done.
    + intros Hnil. rewrite Hsplit, Hnil in Hlen. simpl in Hlen. pose proof (bi_some _ _ Hst). by destruct (bm_best st).
    + intros Hnil. by rewrite Hnil in Hlen.
    + rewrite length_drop. lia.
    + lia.
  - eexists. split; [done|]. split; [|unfold work; simpl; lia].
    split; cbn [bm_visited bm_candidates bm_best]; try apply Hst; [by rewrite length_insert; apply Hst|apply Hmark, Hst..].
Qed.

Lemma expand_all_ok ef st nbs : (1 ≤ ef)%nat → beam_inv ef st → Forall P nbs →
  ∃ st', expand_all self q ef st nbs = Some st' ∧ beam_inv ef st' ∧ (work st' ≤ work st)%nat.
Proof.
  intros Hef Hst Hnbs. revert st Hst. induction Hnbs as [|nb nbs Hnb Hnbs IH]; intros st Hst; simpl; [by exists st|].
  destruct (expand_ok ef st nb Hef Hst Hnb) as (st1 & -> & Hst1 & Hw1). cbn [mbind option_bind].
  destruct (IH st1 Hst1) as (st2 & -> & Hst2 & Hw2). exists st2. split_and!; [done..|lia].
Qed.

Lemma beam_loop_ok ef fuel st : (1 ≤ ef)%nat → beam_inv ef st → (work st ≤ fuel)%nat →
  ∃ best st', beam_loop self q ef layer fuel st = Some best ∧ best = bm_best st' ∧ beam_inv ef st'.
Proof.
  intros Hef. revert st. induction fuel as [|fuel IH]; intros st Hst Hw; simpl.
  all: destruct (bm_candidates st) as [|[sim node] rest] eqn:Hc; [by exists (bm_best st), st|].
  { unfold work in Hw. rewrite Hc in Hw. simpl in Hw. lia. }
  destruct (_ && _); [by exists (bm_best st), st|].
  pose proof (bi_cands _ _ Hst) as Hcs. rewrite Hc in Hcs. apply Forall_cons in Hcs as [(HPn & _) Hrest]. simpl in HPn.
  destruct (ok_links self layer node (HP _ HPn)) as [nbs Hnbs]. rewrite Hnbs. cbn [mbind option_bind].
  destruct (expand_all_ok ef {| bm_visited := bm_visited st; bm_candidates := rest; bm_best := bm_best st |} nbs)
    as (st' & -> & Hst' & Hw'); [done|by split; try apply Hst|by eapply Hclosed|].
  cbn [mbind option_bind]. apply IH; [done|]. unfold work in *. rewrite Hc in Hw. simpl in *. lia.
Qed.

(** What a beam search returns *)
Definition found_ok (ef : nat) (found : list hentry) : Prop :=
  Forall (λ p, P p.2 ∧ similarity self p.2 q = Some p.1) found ∧ NoDup (snd <$> found) ∧ found ≠ [] ∧
  (length found ≤ ef)%nat ∧ StronglySorted (key_le desc_key) found.

Lemma search_layer_ok ep ef : (1 ≤ ef)%nat → P ep →
  ∃ found, search_layer self ep q ef layer = Some found ∧ found_ok ef found.
Proof.
  intros Hef Hep. unfold search_layer. destruct (ok_similarity self layer ep q (HP _ Hep)) as (nd & Hnd & Hsim).
  rewrite Hsim. cbn [mbind option_bind]. pose proof (ok_lt _ _ _ (HP _ Hep)) as Hlt.
  set (v := replicate (length (hx_nodes self)) false).
  assert (v !! Z.to_nat ep = Some false) as Hv by (by apply lookup_replicate_2).
  pose proof (unvisited_start (length (hx_nodes self))) as Huv. fold v in Huv.
  assert (entry_wf (<[Z.to_nat ep := true]> v) (dot (hn_vec nd) q, ep)) as He.
  { split_and!; [done| |done]. apply list_lookup_insert_eq. unfold v. by rewrite length_replicate. }
  pose proof (unvisited_mark _ _ Hv) as Hun.
  edestruct (beam_loop_ok ef (length (hx_nodes self))) as (best & st' & -> & -> & Hst'); [done| | |].
  3:{ cbn [mbind option_bind]. eexists. split; [done|]. unfold found_ok.
      split_and!; [rewrite sort_by_key_perm|rewrite sort_by_key_perm; apply Hst'| | |apply sort_by_key_sorted].
      - eapply Forall_impl; [exact (bi_best _ _ Hst')|]. intros p (? & _ & ?). done.
      - intros Hnil. apply (bi_some _ _ Hst'). apply Permutation_nil. by rewrite <-Hnil, sort_by_key_perm.
      - rewrite length_sort_by_key. apply Hst'. }
  - split; cbn [bm_visited bm_candidates bm_best]; try done.
    + unfold v. by rewrite length_insert, length_replicate.
    + by apply Forall_singleton.
    + by apply Forall_singleton.
    + apply NoDup_singleton.
    + by repeat constructor.
  - unfold work. simpl. lia.
Qed.
End beam.

(** ** Selection *)

Lemma diverse_ok self l sim cv kept : Forall (λ p, ok_target (hx_nodes self) l p.2) kept →
  ∃ d, diverse self sim cv kept = Some d.
Proof.
  induction 1 as [|[s j] kept Hp Hk IH]; simpl; [by eexists|]. destruct (ok_similarity self l j [] Hp) as (nd & -> & _).
  cbn [mbind option_bind]. destruct (f32_gtb _ _); [done|by eexists].
Qed.

Lemma select_loop_ok self l cap cs : Forall (λ p, ok_target (hx_nodes self) l p.2) cs → ∀ kept skipped,
  Forall (λ p, ok_target (hx_nodes self) l p.2) kept → (length kept ≤ cap)%nat →
  ∃ kept' skipped', select_loop self cap kept skipped cs = Some (kept', skipped') ∧ (length kept' ≤ cap)%nat ∧
    ∀ x, x ∈ (snd <$> kept') ++ skipped' → x ∈ (snd <$> kept) ++ skipped ++ (snd <$> cs).
Proof.
  induction 1 as [|[sim c] cs Hc Hcs IH]; intros kept skipped Hk Hlen; simpl.
  { exists kept, skipped. split_and!; [done..|]. by rewrite app_nil_r. }
  case_bool_decide; [exists kept, skipped; split_and!; [done..|]; set_solver|].
  destruct (ok_similarity self l c [] Hc) as (nd & -> & _). cbn [mbind option_bind].
  destruct (diverse_ok self l sim (hn_vec nd) kept Hk) as [[] ->]; cbn [mbind option_bind].
  - destruct (IH (kept ++ [(sim, c)]) skipped) as (k' & s' & -> & Hl & Hin);
      [apply Forall_app; split; [done|by apply Forall_singleton]|rewrite length_app; simpl; lia|].
    exists k', s'. split_and!; [done..|]. intros x Hx%Hin. rewrite fmap_app in Hx. simpl in Hx. set_solver.
  - destruct (IH kept (skipped ++ [c])) as (k' & s' & -> & Hl & Hin); [done..|].
    exists k', s'. split_and!; [done..|]. intros x Hx%Hin. set_solver.
Qed.

Lemma select_diverse_ok self l cs cap : Forall (λ p, ok_target (hx_nodes self) l p.2) cs →
  ∃ out, select_diverse self cs cap = Some out ∧ (length out ≤ cap)%nat ∧ ∀ x, x ∈ out → x ∈ snd <$> cs.
Proof.
  intros Hcs. unfold select_diverse.
  destruct (select_loop_ok self l cap cs Hcs [] []) as (k & sk & -> & Hl & Hin); [constructor|simpl; lia|].
  cbn [mbind option_bind]. eexists. split; [done|]. split.
  - rewrite length_app, length_take, length_fmap. lia.
  - intros x Hx. apply (Hin x). apply elem_of_app in Hx as [Hx|Hx]; apply elem_of_app; [by left|right].
    apply elem_of_take in Hx as (i & Hi & _). by eapply list_elem_of_lookup_2.
Qed.

(** ** Updates keep the shape of the graph *)

Definition shape (ns : list HnswNode) : list (ContentHash * list f32 * nat) :=
  (λ n, (hn_id n, hn_vec n, length (hn_links n))) <$> ns.
(** Only links differ. *)
Definition shaped self self' : Prop := self' = set_nodes (hx_nodes self') self ∧ shape (hx_nodes self') = shape (hx_nodes self).

#[local] Instance shaped_preorder : PreOrder shaped.
Proof.
  split; [intros []; done|]. intros s1 s2 s3 [E1 S1] [E2 S2]. split; [|by rewrite S2]. rewrite E2, E1 at 1. done.
Qed.

Lemma shape_lookup ns ns' i nd : shape ns' = shape ns → ns !! i = Some nd →
  ∃ nd', ns' !! i = Some nd' ∧ hn_id nd' = hn_id nd ∧ hn_vec nd' = hn_vec nd ∧ length (hn_links nd') = length (hn_links nd).
Proof.
  intros Hs Hi. assert (shape ns !! i = Some (hn_id nd, hn_vec nd, length (hn_links nd))) as Hsh
    by (unfold shape; by rewrite list_lookup_fmap, Hi).
  rewrite <-Hs in Hsh. unfold shape in Hsh. rewrite list_lookup_fmap in Hsh.
  destruct (ns' !! i) as [nd'|] eqn:E; [|done]. injection Hsh as H1' H2' H3'. by exists nd'.
Qed.

Lemma shaped_target self self' l j : shaped self self' →
  ok_target (hx_nodes self') l j ↔ ok_target (hx_nodes self) l j.
Proof.
  intros [_ Hs]. unfold ok_target. split; intros (Hj & nd & Hn & Hl); (split; [done|]).
  - destruct (shape_lookup _ _ _ _ (eq_sym Hs) Hn) as (nd' & Hn' & _ & _ & Hlen). exists nd'. split; [done|lia].
  - destruct (shape_lookup _ _ _ _ Hs Hn) as (nd' & Hn' & _ & _ & Hlen). exists nd'. split; [done|lia].
Qed.

Lemma shaped_degree self self' l : shaped self self' → max_degree self' l = max_degree self l.
Proof. by intros [-> _]. Qed.

Lemma update_links_ok self a l f ls : 0 ≤ a → links_at self a l = Some ls →
  ∃ self', update_links self a l f = Some self' ∧ shaped self self' ∧ links_at self' a l = Some (f ls) ∧
    ∀ b l', 0 ≤ b → (b, l') ≠ (a, l) → links_at self' b l' = links_at self b l'.
Proof.
  intros Ha (nd & Hn & Hl)%links_at_Some. unfold update_links. rewrite Hn. cbn [mbind option_bind]. rewrite Hl.
  cbn [mbind option_bind]. eexists. split; [done|].
  assert (l < length (hn_links nd))%nat as Hlt by (by apply lookup_lt_Some in Hl).
  unfold node_at in Hn. pose proof (lookup_lt_Some _ _ _ Hn) as Hna. split_and!.
  - split; [done|]. unfold shape. cbn [set_nodes hx_nodes]. rewrite list_fmap_insert. cbn [hn_id hn_vec hn_links].
    rewrite length_insert. apply list_insert_id. by rewrite list_lookup_fmap, Hn.
  - apply links_at_Some. unfold node_at. cbn [set_nodes hx_nodes]. rewrite list_lookup_insert_eq by done.
    eexists. split; [done|]. cbn [hn_links]. by apply list_lookup_insert_eq.
  - intros b l' Hb Hne. unfold links_at, node_at. cbn [set_nodes hx_nodes].
    destruct (decide (b = a)) as [->|Hba].
    + rewrite list_lookup_insert_eq, Hn by done. cbn [mbind option_bind hn_links]. rewrite list_lookup_insert_ne; [done|naive_solver].
    + rewrite list_lookup_insert_ne; [done|]. lia.
Qed.

Lemma score_links_ok self l q nbs : Forall (ok_target (hx_nodes self) l) nbs →
  ∃ r, score_links self q nbs = Some r ∧ snd <$> r = nbs.
Proof.
  induction 1 as [|nb nbs Hnb Hnbs (r & IH & Hr)]; simpl; [by exists []|].
  destruct (ok_similarity self l nb q Hnb) as (nd & _ & ->). cbn [mbind option_bind]. rewrite IH. cbn [mbind option_bind].
  eexists. split; [done|]. simpl. by f_equal.
Qed.

(** After pruning, the node's links are some of those it had, within the bound. *)
Lemma prune_ok self a l ls : links_ok self → 0 ≤ a → links_at self a l = Some ls →
  ∃ self' ls', prune self a l = Some self' ∧ shaped self self' ∧ links_at self' a l = Some ls' ∧
    (∀ x, x ∈ ls' → x ∈ ls) ∧ (length ls' ≤ max_degree self l)%nat ∧
    ∀ b l', 0 ≤ b → (b, l') ≠ (a, l) → links_at self' b l' = links_at self b l'.
Proof.
  intros Hl Ha Hls. unfold prune. rewrite Hls. cbn [mbind option_bind]. case_bool_decide.
  { exists self, ls. split_and!; done. }
  pose proof Hls as (nd & Hn & _)%links_at_Some. rewrite Hn. cbn [mbind option_bind].
  destruct (score_links_ok self l (hn_vec nd) ls (Hl _ _ _ Ha Hls)) as (r & -> & Hr). cbn [mbind option_bind].
  destruct (select_diverse_ok self l (sort_by_key desc_key r) (max_degree self l)) as (out & -> & Hlen & Hin).
  { rewrite sort_by_key_perm. apply (Forall_fmap snd (ok_target (hx_nodes self) l)). rewrite Hr. by eapply Hl. }
  cbn [mbind option_bind]. destruct (update_links_ok self a l (λ _, out) ls Ha Hls) as (self' & -> & Hsh & Hat & Hoth).
  exists self', out. split_and!; try done. intros x Hx%Hin. rewrite sort_by_key_perm in Hx. by rewrite Hr in Hx.
Qed.

(** ** Insertion *)

Section insertion.
Context (new : Z) (Hnew : 0 ≤ new).

(** While layer [l] is being linked: links are in the graph, only the new node's list
    at [l] may still grow, and no list below [l] mentions the new node. *)
Record layer_inv l (k : nat) self : Prop := {
  li_links : links_ok self;
  li_degree : ∀ a l' ls, 0 ≤ a → (a, l') ≠ (new, l) → links_at self a l' = Some ls → (length ls ≤ max_degree self l')%nat;
  li_new : ∃ ls, links_at self new l = Some ls ∧ (length ls ≤ k)%nat;
}.

Lemma links_ok_shaped self self' : shaped self self' →
  (∀ a l ls, 0 ≤ a → links_at self' a l = Some ls → Forall (ok_target (hx_nodes self) l) ls) → links_ok self'.
Proof.
  intros Hs Hl a l ls Ha Hls. eapply Forall_impl; [by eapply Hl|]. intros j Hj. by apply (shaped_target self self').
Qed.

Lemma connect_ok l k self nb : layer_inv l k self → ok_target (hx_nodes self) l nb → nb ≠ new →
  ∃ self', connect new l self nb = Some self' ∧ shaped self self' ∧ layer_inv l (S k) self' ∧
    ∀ b l', 0 ≤ b → l' ≠ l → links_at self' b l' = links_at self b l'.
Proof.
  intros [Hlinks Hdeg (lsn & Hlsn & Hk)] Hnb Hne. unfold connect.
  assert (ok_target (hx_nodes self) l new) as Hnewok.
  { split; [done|]. apply links_at_Some in Hlsn as (nd & Hn & Hl). exists nd. split; [done|]. by apply lookup_lt_Some in Hl. }
  destruct (update_links_ok self new l (λ ls, ls ++ [nb]) lsn Hnew Hlsn) as (s1 & -> & Hs1 & H1a & H1o). cbn [mbind option_bind].
  destruct (ok_links self l nb Hnb) as [lsb Hlsb]. destruct Hnb as [Hnb0 Hnb'].
  destruct (update_links_ok s1 nb l (λ ls, ls ++ [new]) lsb Hnb0) as (s2 & -> & Hs2 & H2a & H2o); [rewrite H1o; [done|done|naive_solver]|].
  cbn [mbind option_bind]. assert (shaped self s2) as Hs12 by (by etrans).
  assert (links_at s2 new l = Some (lsn ++ [nb])) as H2n by (rewrite H2o; [done|done|naive_solver]).
  assert (∀ b l', 0 ≤ b → (b, l') ≠ (new, l) → (b, l') ≠ (nb, l) → links_at s2 b l' = links_at self b l') as H2x
    by (intros; rewrite H2o, H1o by done; done).
  assert (links_ok s2) as Hl2.
  { apply (links_ok_shaped self); [done|]. intros a l' ls Ha Hls.
    destruct (decide ((a, l') = (new, l))) as [[= -> ->]|]; [rewrite H2n in Hls; injection Hls as <-; apply Forall_app; split;
      [by eapply Hlinks|apply Forall_singleton; done]|].
    destruct (decide ((a, l') = (nb, l))) as [[= -> ->]|]; [rewrite H2a in Hls; injection Hls as <-; apply Forall_app; split;
      [by eapply Hlinks|by apply Forall_singleton]|].
    rewrite H2x in Hls by done. by eapply Hlinks. }
  destruct (prune_ok s2 nb l _ Hl2 Hnb0 H2a) as (s3 & ls3 & -> & Hs3 & H3a & H3in & H3len & H3o).
  exists s3. assert (shaped self s3) as Hs13 by (by etrans).
  assert (∀ b l', 0 ≤ b → (b, l') ≠ (new, l) → (b, l') ≠ (nb, l) → links_at s3 b l' = links_at self b l') as H3x
    by (intros; rewrite H3o by done; by apply H2x).
  assert (links_at s3 new l = Some (lsn ++ [nb])) as H3n by (rewrite H3o; [done|done|naive_solver]).
  split_and!; [done|done| |intros; apply H3x; naive_solver]. split.
  - apply (links_ok_shaped s2); [done|]. intros a l' ls Ha Hls.
    destruct (decide ((a, l') = (nb, l))) as [[= -> ->]|]; [|rewrite H3o in Hls by done; by eapply Hl2].
    rewrite H3a in Hls. injection Hls as <-. apply Forall_forall. intros x Hx%H3in.
    pose proof (Hl2 _ _ _ Hnb0 H2a) as HF. rewrite Forall_forall in HF. by apply HF.
  - intros a l' ls Ha Hn Hls. rewrite (shaped_degree _ _ _ Hs13).
    destruct (decide ((a, l') = (nb, l))) as [[= -> ->]|]; [|rewrite H3x in Hls by done; by eapply Hdeg].
    rewrite H3a in Hls. injection Hls as <-. by rewrite <-(shaped_degree _ _ _ Hs12).
  - exists (lsn ++ [nb]). split; [done|]. rewrite length_app. simpl. lia.
Qed.

Lemma connect_all_ok l nbs k self : layer_inv l k self → Forall (λ nb, ok_target (hx_nodes self) l nb ∧ nb ≠ new) nbs →
  ∃ self', connect_all new l self nbs = Some self' ∧ shaped self self' ∧ layer_inv l (k + length nbs) self' ∧
    ∀ b l', 0 ≤ b → l' ≠ l → links_at self' b l' = links_at self b l'.
Proof.
  revert k self. induction nbs as [|nb nbs IH]; intros k self Hinv Hnbs; simpl.
  { exists self. split_and!; [done|done|by rewrite Nat.add_0_r|done]. }
  apply Forall_cons in Hnbs as [[Hok Hne] Hnbs]. destruct (connect_ok l k self nb Hinv Hok Hne) as (s1 & -> & Hs1 & Hi1 & Ho1).
  cbn [mbind option_bind]. destruct (IH (S k) s1 Hi1) as (s2 & -> & Hs2 & Hi2 & Ho2).
  { eapply Forall_impl; [done|]. intros x [Hx ?]. split; [|done]. by apply (shaped_target self s1). }
  exists s2. split_and!; [done|by etrans|by replace (k + S (length nbs))%nat with (S k + length nbs)%nat by lia|].
  intros. by rewrite Ho2, Ho1.
Qed.

(** Before layer [l - 1] is linked: the graph is in order, and below [l] nothing mentions
    the new node and its own lists are empty. *)
Record add_inv l self : Prop := {
  ai_links : links_ok self;
  ai_degree : degree_ok self;
  ai_fresh : ∀ a l' ls, 0 ≤ a → (l' < l)%nat → links_at self a l' = Some ls → new ∉ ls;
  ai_empty : ∀ l', (l' < l)%nat → links_at self new l' = Some [];
}.

Lemma add_layer_ok l q self ep : (1 ≤ hx_ef_construction self)%nat → add_inv (S l) self →
  ok_target (hx_nodes self) l ep → ep ≠ new →
  ∃ self' ep', add_layer new q self ep l = Some (self', ep') ∧ shaped self self' ∧ add_inv l self' ∧
    ok_target (hx_nodes self') l ep' ∧ ep' ≠ new.
Proof.
  intros Hef [Hlinks Hdeg Hfresh Hempty] Hep Hne. unfold add_layer.
  set (P := λ j, ok_target (hx_nodes self) l j ∧ j ≠ new).
  destruct (search_layer_ok self l q P (λ j Hj, proj1 Hj)) with (ep := ep) (ef := hx_ef_construction self)
    as (found & -> & HF & _ & Hnil & _); [|done|done|].
  { intros j ls [Hj _] Hls. pose proof (Hlinks j l ls (proj1 Hj) Hls) as HF. rewrite Forall_forall in HF |- *.
    intros x Hx. split; [by apply HF|]. intros ->. eapply Hfresh; [apply Hj| |done|done]. lia. }
  cbn [mbind option_bind]. destruct (select_diverse_ok self l found (hx_m self)) as (sel & -> & Hlen & Hin).
  { eapply Forall_impl; [done|]. intros p [[? _] _]. done. }
  cbn [mbind option_bind]. destruct (connect_all_ok l sel 0 self) as (s & -> & Hs & Hi & Ho).
  { split; [done|intros; by eapply Hdeg|]. exists []. split; [apply Hempty; lia|simpl; lia]. }
  { apply Forall_forall. intros x Hx. apply Hin in Hx. apply list_elem_of_fmap in Hx as (p & -> & Hp).
    rewrite Forall_forall in HF. by apply HF. }
  destruct found as [|[sb best] found]; [done|]. cbn [mbind option_bind]. exists s, best.
  apply Forall_cons in HF as [[[Hb Hbn] _] _]. simpl in Hb, Hbn.
  split_and!; [done|done| |by apply (shaped_target self s)|done]. split.
  - apply Hi.
  - intros a l' ls Ha Hls. destruct (decide ((a, l') = (new, l))) as [[= -> ->]|]; [|by eapply Hi].
    destruct (li_new _ _ _ Hi) as (ls' & Hls' & Hl'). rewrite Hls' in Hls. injection Hls as <-.
    rewrite (shaped_degree _ _ _ Hs). unfold max_degree. destruct l; lia.
  - intros a l' ls Ha Hlt Hls. rewrite Ho in Hls by lia. eapply Hfresh; [done| |done]. lia.
  - intros l' Hlt. rewrite Ho by lia. apply Hempty. lia.
Qed.

Lemma add_layers_ok q k self ep : (1 ≤ hx_ef_construction self)%nat → add_inv (S k) self →
  ok_target (hx_nodes self) k ep → ep ≠ new →
  ∃ self', add_layers new q self ep (rev_range 0 k) = Some self' ∧ shaped self self' ∧ add_inv 0 self'.
Proof.
  unfold rev_range. rewrite Nat.sub_0_r. revert self ep. induction k as [|k IH]; intros self ep Hef Hinv Hep Hne.
  all: rewrite seq_S, reverse_app; cbn [reverse rev_append app add_layers Nat.add].
  all: destruct (add_layer_ok _ q self ep Hef Hinv Hep Hne) as (s1 & ep1 & -> & Hs1 & Hi1 & Hep1 & Hne1); cbn [mbind option_bind].
  - by exists s1.
  - destruct (IH s1 ep1) as (s2 & -> & Hs2 & Hi2); [by destruct Hs1 as [-> _]|done|eapply ok_target_le; [|done]; lia|done|].
    exists s2. split_and!; [done|by etrans|done].
Qed.
End insertion.

(** The index with a fresh node appended, before it is linked *)
Definition appended self (id : ContentHash) (vec : list f32) (level : nat) : HnswIndex :=
  set_nodes (hx_nodes self ++ [{| hn_id := id; hn_vec := vec; hn_links := replicate (S level) [] |}]) self.

Lemma appended_old self id vec level a l ls : (Z.to_nat a < length (hx_nodes self))%nat →
  links_at (appended self id vec level) a l = Some ls ↔ links_at self a l = Some ls.
Proof. intros Ha. unfold links_at, node_at, appended. cbn [set_nodes hx_nodes]. by rewrite lookup_app_l. Qed.

Lemma appended_target self id vec level l j : ok_target (hx_nodes self) l j →
  ok_target (hx_nodes (appended self id vec level)) l j.
Proof. intros (Hj & nd & Hn & Hl). split; [done|]. exists nd. split; [|done]. cbn. by apply lookup_app_l_Some. Qed.

Lemma appended_cases self id vec level a l ls : 0 ≤ a → links_at (appended self id vec level) a l = Some ls →
  links_at self a l = Some ls ∨ (a = Z.of_nat (length (hx_nodes self)) ∧ ls = []).
Proof.
  intros Ha Hls. destruct (decide (Z.to_nat a < length (hx_nodes self))%nat) as [Hlt|Hge];
    [left; by eapply appended_old|right].
  apply links_at_Some in Hls as (nd & Hn & Hnl). unfold node_at in Hn. cbn in Hn. rewrite lookup_app_r in Hn by lia.
  destruct (Z.to_nat a - length (hx_nodes self))%nat as [|i] eqn:E; [|by destruct i]. injection Hn as <-.
  split; [lia|]. cbn [hn_links] in Hnl. apply (lookup_replicate_1 (S level)) in Hnl as [-> _]. done.
Qed.

Lemma appended_inv self id vec level : links_ok self → degree_ok self →
  add_inv (Z.of_nat (length (hx_nodes self))) (S level) (appended self id vec level).
Proof.
  intros Hl Hd. set (n := Z.of_nat (length (hx_nodes self))).
  pose proof (appended_cases self id vec level) as Hcase.
  split.
  - intros a l ls Ha Hls. destruct (Hcase a l ls Ha Hls) as [Hold|[_ ->]]; [|constructor].
    eapply Forall_impl; [by eapply Hl|]. intros j. apply appended_target.
  - intros a l ls Ha Hls. destruct (Hcase a l ls Ha Hls) as [Hold|[_ ->]]; [|simpl; lia]. exact (Hd a l ls Ha Hold).
  - intros a l ls Ha _ Hls. destruct (Hcase a l ls Ha Hls) as [Hold|[_ ->]]; [|set_solver].
    intros Hin. pose proof (Hl a l ls Ha Hold) as HF. rewrite Forall_forall in HF. apply HF, ok_lt in Hin. lia.
  - intros l Hlt. apply links_at_Some. eexists. unfold node_at. cbn. rewrite lookup_app_r by lia.
    replace (_ - _)%nat with 0%nat by lia. split; [done|]. apply (lookup_replicate_2 (S level)). done.
Qed.

Lemma appended_fresh self id vec level a l ls : links_ok self → 0 ≤ a →
  links_at (appended self id vec level) a l = Some ls → Z.of_nat (length (hx_nodes self)) ∉ ls.
Proof.
  intros Hl Ha Hls Hin. destruct (appended_cases _ _ _ _ _ _ _ Ha Hls) as [Hold|[_ ->]]; [|by apply not_elem_of_nil in Hin].
  pose proof (Hl a l ls Ha Hold) as HF. rewrite Forall_forall in HF. apply HF, ok_lt in Hin. lia.
Qed.

Definition ids_of self : list ContentHash := hn_id <$> hx_nodes self.

Lemma shaped_ids self self' : shaped self self' → ids_of self' = ids_of self.
Proof.
  intros [_ Hs]. unfold ids_of. apply (f_equal (fmap (λ p, p.1.1))) in Hs. unfold shape in Hs. by rewrite <-!list_fmap_compose in Hs.
Qed.

(** Once linked, the new node is the entry point if its level is the highest. *)
Lemma relinked_wf self id vec level e en s' :
  let n := Z.of_nat (length (hx_nodes self)) in
  hnsw_wf self → hx_entry self = Some e → node_at self e = Some en →
  shaped (appended self id vec level) s' → add_inv n 0 s' →
  hnsw_wf (if bool_decide (length (hn_links en) - 1 < level)%nat then set_entry (Some n) s' else s').
Proof.
  intros n Hwf Hent Hen Hs Hi. pose proof (wf_entry _ Hwf) as He. unfold entry_ok in He. rewrite Hent in He.
  destruct He as (He0 & en0 & Hen0 & Hne & Hmax). rewrite Hen in Hen0. injection Hen0 as <-.
  assert (0 < length (hn_links en))%nat as Hpos by (destruct (hn_links en); [done|simpl; lia]).
  assert (hx_nodes (appended self id vec level) !! Z.to_nat n = Some {| hn_id := id; hn_vec := vec; hn_links := replicate (S level) [] |}) as Hnew.
  { unfold n. cbn [appended set_nodes hx_nodes]. rewrite lookup_app_r by lia. by replace (_ - _)%nat with 0%nat by lia. }
  assert (hx_nodes (appended self id vec level) !! Z.to_nat e = Some en) as Hen' by (by apply lookup_app_l_Some).
  destruct (shape_lookup _ _ _ _ (proj2 Hs) Hnew) as (nd' & Hnd' & _ & _ & Hlen'). cbn [hn_links] in Hlen'.
  rewrite length_replicate in Hlen'. destruct (shape_lookup _ _ _ _ (proj2 Hs) Hen') as (en' & Hen1 & _ & _ & Hlen1).
  assert (∀ nd, nd ∈ hx_nodes s' → length (hn_links nd) ≤ Nat.max (S level) (length (hn_links en)))%nat as Hall.
  { intros nd (i & Hx)%list_elem_of_lookup. destruct (shape_lookup _ _ _ _ (eq_sym (proj2 Hs)) Hx) as (nd0 & Hnd0 & _ & _ & Hlen0).
    cbn in Hnd0. apply lookup_app_Some in Hnd0 as [Hnd0|[_ Hnd0]].
    - apply list_elem_of_lookup_2, Hmax in Hnd0. lia.
    - apply list_lookup_singleton_Some in Hnd0 as [_ <-]. simpl in Hlen0. rewrite length_replicate in Hlen0. lia. }
  destruct Hs as [Hs1 _]. case_bool_decide as Hlv; (split; try (rewrite Hs1; apply Hwf); [apply Hi..|]); unfold entry_ok.
  - cbn [set_entry hx_entry]. split; [lia|].
    exists nd'. split_and!; [done|intros Hn0; rewrite Hn0 in Hlen'; simpl in Hlen'; lia|]. intros nd Hnd%Hall. lia.
  - assert (hx_entry s' = Some e) as -> by (rewrite Hs1; exact Hent). split; [done|]. exists en'.
    split_and!; [done|intros Hn0; rewrite Hn0 in Hlen1; simpl in Hlen1; lia|]. intros nd Hnd%Hall. lia.
Qed.

Lemma insert_node_ok self id v : hnsw_wf self → Z.of_nat (length (hx_nodes self)) < 2 ^ 32 →
  ∃ self', insert_node self id v = Some self' ∧ hnsw_wf self' ∧ ids_of self' = ids_of self ++ [id].
Proof.
  intros Hwf Hn. unfold insert_node. cbn [bind_space hx_nodes set_nodes hx_entry]. rewrite Z.mod_small by lia.
  set (self0 := bind_space v self). set (level := level_for self0 id). set (vec := normalized (vv_data v)).
  change (set_nodes (hx_nodes self ++ [{| hn_id := id; hn_vec := vec; hn_links := replicate (S level) [] |}]) self0)
    with (appended self0 id vec level).
  assert (links_ok self0 ∧ degree_ok self0) as [Hl Hd] by (split; apply Hwf).
  pose proof (appended_inv self0 id vec level Hl Hd) as Hinv.
  set (s := appended self0 id vec level) in *. set (n := Z.of_nat (length (hx_nodes self))) in *.
  assert (ids_of s = ids_of self ++ [id]) as Hids by (unfold ids_of; cbn; by rewrite fmap_app).
  assert (node_at s n = Some {| hn_id := id; hn_vec := vec; hn_links := replicate (S level) [] |}) as Hnew.
  { unfold node_at, n. cbn. rewrite lookup_app_r by lia. by replace (_ - _)%nat with 0%nat by lia. }
  pose proof (wf_entry _ Hwf) as He. unfold entry_ok in He. destruct (hx_entry self) as [e|] eqn:Hent.
  - destruct He as (He0 & en & Hen & Hne & Hmax). rewrite Hnew. cbn [mbind option_bind hn_vec].
    assert (node_at s e = Some en) as Hen' by (unfold node_at; cbn; by apply lookup_app_l_Some).
    rewrite Hen'. cbn [mbind option_bind]. set (top := (length (hn_links en) - 1)%nat).
    assert (0 < length (hn_links en))%nat as Hpos by (destruct (hn_links en); [done|simpl; lia]).
    assert (ok_target (hx_nodes self) top e) as Htop by (split; [done|]; exists en; split; [done|unfold top; lia]).
    assert (e < n) as Hen_lt by (pose proof (ok_lt _ _ _ Htop); lia).
    (* the descent stays on the old nodes: the new one has no incoming links *)
    destruct (descend_ok s vec e (S level) top) as (ep & -> & Hep & Hm); [apply Hinv|by apply appended_target|].
    assert (ep ≠ n) as Hepn.
    { destruct Hm as [->|(l & a & ls & Ha & Hls & Hin)]; [lia|]. intros ->. exact (appended_fresh self0 id vec level a l ls Hl Ha Hls Hin). }
    cbn [mbind option_bind].
    destruct (add_layers_ok n ltac:(lia) vec (Nat.min level top) s ep) as (s' & -> & Hs' & Hi');
      [apply Hwf| |eapply ok_target_le; [|done]; lia|done|].
    { destruct Hinv as [? ? Hf Hem]. split; [done..|intros; eapply Hf; [done| |done]; lia|intros; apply Hem; lia]. }
    cbn [mbind option_bind]. eexists. split; [done|].
    split; [apply (relinked_wf self0 id vec level e en s'); try done; split; apply Hwf|].
    case_bool_decide; [change (ids_of (set_entry (Some n) s')) with (ids_of s')|]; by rewrite (shaped_ids _ _ Hs').
  - eexists. split; [done|]. split; [|done]. split; [apply Hinv|apply Hinv| |apply Hwf..].
    unfold entry_ok. cbn [set_entry hx_entry]. split; [lia|]. eexists. split_and!; [exact Hnew|done|].
    intros nd. cbn. rewrite He. intros ->%list_elem_of_singleton. done.
Qed.

(** ** Queries *)

(** Hits at distinct indices have distinct ids when the ids of the index are. *)
Lemma hits_nodup self (ps : list hentry) (hits : list Neighbor) :
  NoDup (ids_of self) →
  Forall2 (λ p h, nb_score h = p.1 ∧ ∃ n, node_at self p.2 = Some n ∧ nb_id h = hn_id n) ps hits →
  Forall (λ p : hentry, ok_target (hx_nodes self) 0 p.2) ps → NoDup (snd <$> ps) → NoDup (nb_id <$> hits).
Proof.
  intros Hids HF2. induction HF2 as [|p h ps hs [_ (n & Hn & Hid)] Hps IH]; intros Hok Hnd; [constructor|].
  apply Forall_cons in Hok as [[Hp _] Hok]. cbn in Hnd |- *. apply NoDup_cons in Hnd as [Hnot Hnd]. constructor; [|by apply IH].
  rewrite Hid. intros (h' & Heq & Hh')%list_elem_of_fmap. apply Hnot.
  apply list_elem_of_lookup in Hh' as [i Hi]. destruct (Forall2_lookup_r _ _ _ _ _ Hps Hi) as (p' & Hp' & _ & n' & Hn' & Hid').
  apply list_elem_of_fmap. exists p'. apply list_elem_of_lookup_2 in Hp'. split; [|done].
  rewrite Forall_forall in Hok. destruct (Hok p' Hp') as [Hp'0 _]. rewrite Hid' in Heq.
  assert (Z.to_nat p.2 = Z.to_nat p'.2); [|lia]. unfold node_at in Hn, Hn'.
  eapply (NoDup_lookup (ids_of self)); [done|unfold ids_of; by rewrite list_lookup_fmap, Hn|].
  unfold ids_of. rewrite list_lookup_fmap, Hn'. simpl. by rewrite Heq.
Qed.

Lemma query_ok self q k : hnsw_wf self → ∃ hits, query self q k = Some hits ∧
  (length hits ≤ k)%nat ∧ (∀ h, h ∈ hits → nb_id h ∈ ids_of self) ∧
  StronglySorted (λ a b : Neighbor, total_key (nb_score b) ≤ total_key (nb_score a)) hits ∧
  (hx_nodes self ≠ [] → (0 < k)%nat → hits ≠ []) ∧ (NoDup (ids_of self) → NoDup (nb_id <$> hits)).
Proof.
  intros Hwf. unfold query. pose proof (wf_entry _ Hwf) as He. unfold entry_ok in He. destruct (hx_entry self) as [e|].
  2:{ exists []. split_and!; [done|simpl; lia|set_solver|constructor|done|constructor]. }
  destruct He as (He0 & en & Hen & Hne & _). rewrite Hen. cbn [mbind option_bind].
  destruct (descend_ok self (normalized q) e 1 (length (hn_links en) - 1)) as (ep & -> & Hep & _);
    [apply Hwf|split; [done|]; exists en; split; [done|]; destruct (hn_links en); [done|simpl; lia]|].
  cbn [mbind option_bind].
  destruct (search_layer_ok self 0 (normalized q) (ok_target (hx_nodes self) 0) (λ j Hj, Hj)) with (ep := ep) (ef := Nat.max (hx_ef_search self) k)
    as (found & -> & HF & Hnd & Hnil & _ & Hsort); [intros j ls Hj; apply Hwf, Hj|pose proof (wf_efs _ Hwf); lia|eapply ok_target_le; [|done]; lia|].
  cbn [mbind option_bind]. clear -Hnil Hnd Hsort HF.
  set (hit := λ p : hentry, n ← node_at self p.2; Some {| nb_id := hn_id n; nb_score := p.1 |}).
  assert (Forall (λ p : hentry, ok_target (hx_nodes self) 0 p.2) (take k found)) as Hok
    by (apply Forall_take; eapply Forall_impl; [done|]; intros p [? _]; done).
  destruct (mapM_is_Some_2 hit (take k found)) as [hits Hhits].
  { eapply Forall_impl; [done|]. intros p Hp. destruct (ok_similarity self 0 p.2 [] Hp) as (nd & Hn & _). unfold compose, hit. rewrite Hn. by eexists. }
  exists hits. split; [done|]. apply mapM_Some in Hhits.
  assert (Forall2 (λ p h, nb_score h = p.1 ∧ ∃ n, node_at self p.2 = Some n ∧ nb_id h = hn_id n) (take k found) hits) as HF2.
  { eapply Forall2_impl; [done|]. intros p h Hh. unfold hit in Hh. apply bind_Some in Hh as (n & Hn & [= <-]). eauto. }
  clear Hhits. pose proof (Forall2_length _ _ _ HF2) as Hlen. split_and!.
  - rewrite <-Hlen, length_take. lia.
  - intros h Hh. apply list_elem_of_lookup in Hh as [i Hi]. destruct (Forall2_lookup_r _ _ _ _ _ HF2 Hi) as (p & _ & _ & n & Hn & ->).
    apply list_elem_of_fmap. exists n. split; [done|]. by eapply list_elem_of_lookup_2.
  - rewrite <-(take_drop k found) in Hsort. apply StronglySorted_app_1_l in Hsort. clear -HF2 Hsort. induction HF2 as [|p h ps hs [Hs _] Hps IH]; [constructor|].
    inversion Hsort as [|?? Hsort' Hall]; subst. constructor; [by apply IH|]. apply Forall_forall. intros h' Hh'.
    apply list_elem_of_lookup in Hh' as [i Hi]. destruct (Forall2_lookup_r _ _ _ _ _ Hps Hi) as (p' & Hp' & Hs' & _).
    rewrite Forall_forall in Hall. apply list_elem_of_lookup_2, Hall in Hp'. rewrite Hs, Hs'.
    unfold key_le, desc_key, ord_leb in Hp'. revert Hp'. unfold cmp at 1, prod_ord; cbn [fst snd]. unfold cmp, Z_ord.
    destruct (Z.compare_spec (- total_key p.1) (- total_key p'.1)); simpl; [lia|lia|done].
  - intros _ Hk Hh. subst. destruct found; [done|]. destruct k; [lia|]. simpl in Hlen. lia.
  - intros Hids. eapply hits_nodup; [done..|]. rewrite fmap_take. eapply sublist_NoDup; [done|]. apply sublist_take.
Qed.

(** ** Building an index *)

(** Offering vectors one after the other: a rejected one leaves the index as it is. *)
Definition hx_add_skip (o : option HnswIndex) (p : ContentHash * VersionedVector) : option HnswIndex :=
  self ← o;
  r ← hx_add self p.1 p.2;
  Some match r with Ok self' => self' | Err _ => self end.
Definition hx_build (vs : list (ContentHash * VersionedVector)) : option HnswIndex :=
  foldl hx_add_skip (Some HnswIndex_new) vs.

Lemma hnsw_new_wf : hnsw_wf HnswIndex_new.
Proof. split; try done; cbn; try lia; by intros a l ls _ Hls. Qed.

Lemma hx_build_ok vs : Z.of_nat (length vs) ≤ 2 ^ 32 →
  ∃ self, hx_build vs = Some self ∧ hnsw_wf self ∧ sublist (ids_of self) (fst <$> vs).
Proof.
  unfold hx_build. induction vs as [|[id v] vs IH] using rev_ind; intros Hlen.
  { eexists. split; [done|]. split; [apply hnsw_new_wf|constructor]. }
  rewrite length_app in Hlen. simpl in Hlen. destruct IH as (self & Hb & Hwf & Hsub); [lia|].
  rewrite foldl_snoc, Hb. unfold hx_add_skip, hx_add. cbn [mbind option_bind fst snd].
  destruct (hx_check self v); cbn [mbind option_bind].
  - pose proof (sublist_length _ _ Hsub) as Hsl. unfold ids_of in Hsl. rewrite !length_fmap in Hsl.
    destruct (insert_node_ok self id v Hwf) as (self' & -> & Hwf' & Hids); [lia|]. cbn. eexists. split; [done|].
    split; [done|]. rewrite Hids, fmap_app. by apply sublist_app.
  - eexists. split; [done|]. split; [done|]. rewrite fmap_app. by apply sublist_inserts_r.
Qed.


(** Queries always answer: on any index built from up to 2^32 vectors, a query of the
    index's model and dimension terminates without a panic and returns at most [k] hits
    from the index, best first, without repetition when the ids are distinct, and at least
    one when the index is not empty and [k] is not zero. *)
Theorem hnsw_search_answers (vs : list (ContentHash * VersionedVector)) (self : HnswIndex) (q : VersionedVector) (k : nat)
    (Hlen : Z.of_nat (length vs) ≤ 2 ^ 32) (Hb : hx_build vs = Some self) (Hq : hx_check self q = Ok tt) :
  ∃ hits, hx_search self q k = Some (Ok hits) ∧ (length hits ≤ k)%nat ∧
    (∀ h, h ∈ hits → nb_id h ∈ ids_of self) ∧
    StronglySorted (λ a b : Neighbor, total_key (nb_score b) ≤ total_key (nb_score a)) hits ∧
    (NoDup (fst <$> vs) → NoDup (nb_id <$> hits)) ∧ (hx_nodes self ≠ [] → (0 < k)%nat → hits ≠ []).
Proof.
  destruct (hx_build_ok vs Hlen) as (self' & Hb' & Hwf & Hsub). rewrite Hb' in Hb. injection Hb as ->.
  destruct (query_ok self (vv_data q) k Hwf) as (hits & Hh & H1' & H2' & H3' & H4' & H5'). exists hits.
  unfold hx_search. rewrite Hq, Hh. split_and!; [done..| |done]. intros Hnd. apply H5'. by eapply sublist_NoDup.
Qed.
End hnsw_props.
