(* ===== verification/Grant.v ===== *)
(** * Signed capability grants ([mem-authz/src/grant.rs])

    The grant record, the bytes its signature covers, and the authorization
    gate [check]: revocation, expiry, signature, resource scope, operation. *)

From S2P Require Import Prelude Bytes Externs.

Inductive Op := Read | Write.

#[export] Instance Op_eq_dec : EqDecision Op.
Proof. solve_decision. Defined.

Inductive AuthzError :=
| Revoked
| Expired
| GrantUnsigned
| GrantBadSignature
| ResourceDenied (r : string)
| OperationDenied (op : Op).

Record ResourceScope := {
  resource_id : string;
  can_read : bool;
  can_write : bool;
}.

Inductive PolicyProfile := ReadOnly | Guided | Operator | Maintainer.

Record DelegationStep := {
  delegator : string;
  at_ms : Z;
}.

Record CapabilityGrant := {
  g_id : string;
  g_issuer : string;
  g_recipient : string;
  g_allowed_resources : list ResourceScope;
  g_policy : PolicyProfile;
  g_expires_at_ms : Z;
  g_revoked : bool;
  g_delegation_chain : list DelegationStep;
  g_issuer_pubkey : bytes;
  g_signature : bytes;
}.

(** The [Debug] rendering [{:?}] *)
Definition PolicyProfile_debug (p : PolicyProfile) : string :=
  match p with
  | ReadOnly => "ReadOnly" | Guided => "Guided" | Operator => "Operator" | Maintainer => "Maintainer"
  end.

Definition feed (buf : bytes) (tag : byte) (b : bytes) : bytes :=
  buf ++ [tag] ++ to_le_bytes 8 (Z.of_nat (length b)) ++ b.

Definition resource_matches (scope requested : string) : bool :=
  bool_decide (scope = "*") || bool_decide (scope = requested).

(** [b as u8] *)
Definition bool_byte (b : bool) : byte := if b then Byte.x01 else Byte.x00.

Definition feed_resource (buf : bytes) (r : ResourceScope) : bytes :=
  let buf := feed buf Byte.x04 (as_bytes (resource_id r)) in
  feed buf Byte.x05 [bool_byte (can_read r); bool_byte (can_write r)].

Definition feed_delegation (buf : bytes) (d : DelegationStep) : bytes :=
  let buf := feed buf Byte.x08 (as_bytes (delegator d)) in
  feed buf Byte.x09 (to_le_bytes 8 (at_ms d)).

Definition signing_preimage (self : CapabilityGrant) : bytes :=
  let buf := feed [] Byte.x00 (as_bytes "mem-authz:grant:v1") in
  let buf := feed buf Byte.x01 (as_bytes (g_id self)) in
  let buf := feed buf Byte.x02 (as_bytes (g_issuer self)) in
  let buf := feed buf Byte.x03 (as_bytes (g_recipient self)) in
  let buf := foldl feed_resource buf (g_allowed_resources self) in
  let buf := feed buf Byte.x06 (as_bytes (PolicyProfile_debug (g_policy self))) in
  let buf := feed buf Byte.x07 (to_le_bytes 8 (g_expires_at_ms self)) in
  let buf := foldl feed_delegation buf (g_delegation_chain self) in
  let buf := feed buf Byte.x0a (g_issuer_pubkey self) in
  if g_revoked self then feed buf Byte.x0b (as_bytes "revoked") else buf.

Section grant.
Context `{Ed25519}.

Definition set_issuer_pubkey (self : CapabilityGrant) (pk : bytes) : CapabilityGrant :=
  {| g_id := g_id self; g_issuer := g_issuer self; g_recipient := g_recipient self;
     g_allowed_resources := g_allowed_resources self; g_policy := g_policy self;
     g_expires_at_ms := g_expires_at_ms self; g_revoked := g_revoked self;
     g_delegation_chain := g_delegation_chain self; g_issuer_pubkey := pk;
     g_signature := g_signature self |}.

Definition set_signature (self : CapabilityGrant) (sig : bytes) : CapabilityGrant :=
  {| g_id := g_id self; g_issuer := g_issuer self; g_recipient := g_recipient self;
     g_allowed_resources := g_allowed_resources self; g_policy := g_policy self;
     g_expires_at_ms := g_expires_at_ms self; g_revoked := g_revoked self;
     g_delegation_chain := g_delegation_chain self; g_issuer_pubkey := g_issuer_pubkey self;
     g_signature := sig |}.

Definition sign_with (self : CapabilityGrant) (sk : SigningKey) : CapabilityGrant :=
  let self := set_issuer_pubkey self (array_bytes (sk_verifying_key sk)) in
  set_signature self (array_bytes (sk_sign sk (signing_preimage self))).

Definition verify_signature (self : CapabilityGrant) : result AuthzError unit :=
  if bool_decide (g_signature self = []) || bool_decide (g_issuer_pubkey self = [])
  then Err GrantUnsigned
  else
    let? pk := ok_or (array_of 32 (g_issuer_pubkey self)) GrantBadSignature in
    let? sig := ok_or (array_of 64 (g_signature self)) GrantBadSignature in
    if negb (vk_decodes pk) then Err GrantBadSignature
    else if verify_strict pk (signing_preimage self) sig then Ok tt else Err GrantBadSignature.

Definition check (self : CapabilityGrant) (resource : string) (op : Op) (now_ms : Z) : result AuthzError unit :=
  if g_revoked self then Err Revoked
  else if g_expires_at_ms self <=? now_ms then Err Expired
  else
    let? _ := verify_signature self in
    let? scope := ok_or (snd <$> list_find (λ r, resource_matches (resource_id r) resource = true)
                                  (g_allowed_resources self))
                        (ResourceDenied resource) in
    let allowed := match op with Read => can_read scope | Write => can_write scope end in
    if allowed then Ok tt else Err (OperationDenied op).
End grant.

(** ** What the signature covers *)

Definition resource_frames (r : ResourceScope) : list frame :=
  [(Byte.x04, as_bytes (resource_id r)); (Byte.x05, [bool_byte (can_read r); bool_byte (can_write r)])].
Definition delegation_frames (d : DelegationStep) : list frame :=
  [(Byte.x08, as_bytes (delegator d)); (Byte.x09, to_le_bytes 8 (at_ms d))].

Definition grant_tail (g : CapabilityGrant) : list frame :=
  (Byte.x0a, g_issuer_pubkey g) :: if g_revoked g then [(Byte.x0b, as_bytes "revoked")] else [].
Definition grant_mid (g : CapabilityGrant) : list frame :=
  (Byte.x06, as_bytes (PolicyProfile_debug (g_policy g))) ::
  (Byte.x07, to_le_bytes 8 (g_expires_at_ms g)) ::
  (g_delegation_chain g ≫= delegation_frames) ++ grant_tail g.
Definition grant_frames (g : CapabilityGrant) : list frame :=
  (Byte.x00, as_bytes "mem-authz:grant:v1") :: (Byte.x01, as_bytes (g_id g)) ::
  (Byte.x02, as_bytes (g_issuer g)) :: (Byte.x03, as_bytes (g_recipient g)) ::
  (g_allowed_resources g ≫= resource_frames) ++ grant_mid g.

Lemma feed_frames buf fs t b : buf = encode_frames fs → feed buf t b = encode_frames (fs ++ [(t, b)]).
Proof. intros ->. unfold feed. rewrite encode_frames_app. unfold encode_frames at 3, feed_frame. simpl. by rewrite app_nil_r. Qed.

Lemma fold_frames {A} (f : bytes → A → bytes) (frames : A → list frame) l buf fs :
  (∀ b gs a, b = encode_frames gs → f b a = encode_frames (gs ++ frames a)) →
  buf = encode_frames fs → foldl f buf l = encode_frames (fs ++ (l ≫= frames)).
Proof.
  intros Hf. revert buf fs. induction l as [|a l IH]; intros buf fs Hbuf; simpl.
  - by rewrite app_nil_r.
  - erewrite IH; [|by apply Hf]. by rewrite <-app_assoc.
Qed.

Lemma feed_resource_frames b fs r :
  b = encode_frames fs → feed_resource b r = encode_frames (fs ++ resource_frames r).
Proof. intros Hb. unfold feed_resource. erewrite feed_frames; [|by apply feed_frames]. by rewrite <-app_assoc. Qed.
Lemma feed_delegation_frames b fs d :
  b = encode_frames fs → feed_delegation b d = encode_frames (fs ++ delegation_frames d).
Proof. intros Hb. unfold feed_delegation. erewrite feed_frames; [|by apply feed_frames]. by rewrite <-app_assoc. Qed.

Lemma signing_preimage_frames g : signing_preimage g = encode_frames (grant_frames g).
Proof.
  unfold signing_preimage.
  assert (∀ buf fs, buf = encode_frames fs →
    (if g_revoked g then feed buf Byte.x0b (as_bytes "revoked") else buf) =
    encode_frames (fs ++ if g_revoked g then [(Byte.x0b, as_bytes "revoked")] else [])) as Hrev.
  { intros buf fs Hb. destruct (g_revoked g); [by apply feed_frames|by rewrite app_nil_r]. }
  erewrite Hrev; [|apply feed_frames, (fold_frames _ delegation_frames), feed_frames, feed_frames,
    (fold_frames _ resource_frames), feed_frames, feed_frames, feed_frames, (feed_frames _ []);
    auto using feed_resource_frames, feed_delegation_frames].
  f_equal. unfold grant_frames, grant_mid, grant_tail. cbn [app]. by rewrite <-!app_assoc.
Qed.

#[export] Instance PolicyProfile_debug_inj : Inj (=) (=) PolicyProfile_debug.
Proof. by intros [] []. Qed.
#[export] Instance bool_byte_inj : Inj (=) (=) bool_byte.
Proof. by intros [] []. Qed.

(** A run of records, followed by something that starts no record, reads back. *)
Lemma bind_frames_inj {A} (P : A → Prop) (frames : A → list frame) l1 l2 t1 t2 :
  (∀ a b s1 s2, P a → P b → frames a ++ s1 = frames b ++ s2 → a = b ∧ s1 = s2) →
  (∀ a s, frames a ++ s ≠ t1) → (∀ a s, frames a ++ s ≠ t2) →
  Forall P l1 → Forall P l2 →
  (l1 ≫= frames) ++ t1 = (l2 ≫= frames) ++ t2 → l1 = l2 ∧ t1 = t2.
Proof.
  intros Hinj Ht1 Ht2 Hl1. revert l2.
  induction Hl1 as [|a l1 Ha Hl1 IH]; intros l2 Hl2; destruct Hl2 as [|b l2 Hb Hl2]; simpl.
  - done.
  - rewrite <-app_assoc. intros Heq. by destruct (Ht1 b ((l2 ≫= frames) ++ t2)).
  - rewrite <-app_assoc. intros Heq. by destruct (Ht2 a ((l1 ≫= frames) ++ t1)).
  - rewrite <-!app_assoc. intros Heq. apply Hinj in Heq as [-> Heq]; [|done..].
    by apply IH in Heq as [-> ->].
Qed.

Definition scope_wf (r : ResourceScope) : Prop := fits (as_bytes (resource_id r)).
Definition delegation_wf (d : DelegationStep) : Prop := fits (as_bytes (delegator d)) ∧ is_u64 (at_ms d).

(** What the Rust types guarantee: [u64] fields in range, buffers no longer than
    the address space. *)
Definition grant_wf (g : CapabilityGrant) : Prop :=
  fits (as_bytes (g_id g)) ∧ fits (as_bytes (g_issuer g)) ∧ fits (as_bytes (g_recipient g)) ∧
  Forall scope_wf (g_allowed_resources g) ∧ is_u64 (g_expires_at_ms g) ∧
  Forall delegation_wf (g_delegation_chain g) ∧ fits (g_issuer_pubkey g).

Lemma fits_le_bytes n z : (n ≤ 8)%nat → fits (to_le_bytes n z).
Proof. unfold fits, u64_max. rewrite length_to_le_bytes. lia. Qed.
#[export] Hint Resolve fits_le_bytes : mem.

Lemma Forall_bind {A B} (P : A → Prop) (Q : B → Prop) (f : A → list B) l :
  (∀ a, P a → Forall Q (f a)) → Forall P l → Forall Q (l ≫= f).
Proof. intros Hf. induction 1; simpl; [constructor|]. apply Forall_app. auto. Qed.

Lemma grant_frames_fit g : grant_wf g → Forall (λ f, fits f.2) (grant_frames g).
Proof.
  intros (? & ? & ? & Hr & ? & Hd & ?). unfold grant_frames, grant_mid, grant_tail.
  repeat first [apply Forall_cons; split | apply Forall_app; split]; simpl; try done.
  - apply (Forall_bind scope_wf); [|done]. intros r Hrw. by repeat constructor.
  - by destruct (g_policy g).
  - apply (Forall_bind delegation_wf); [|done]. intros d [Hd1 _]. repeat constructor; [done|].
    apply fits_le_bytes. lia.
  - destruct (g_revoked g); by repeat constructor.
Qed.

Lemma resource_frames_inj a b s1 s2 :
  scope_wf a → scope_wf b → resource_frames a ++ s1 = resource_frames b ++ s2 → a = b ∧ s1 = s2.
Proof.
  destruct a, b. unfold resource_frames; simpl. intros _ _ Heq. split_frames Heq.
  apply (inj as_bytes) in Hfr. injection Hfr0 as Hr%(inj bool_byte) Hw%(inj bool_byte). by simplify_eq.
Qed.

Lemma delegation_frames_inj a b s1 s2 :
  delegation_wf a → delegation_wf b → delegation_frames a ++ s1 = delegation_frames b ++ s2 → a = b ∧ s1 = s2.
Proof.
  destruct a, b. unfold delegation_frames, delegation_wf; simpl. intros [_ ?] [_ ?] Heq. split_frames Heq.
  apply (inj as_bytes) in Hfr. apply u64_le_bytes_inj in Hfr0; [|done..]. by simplify_eq.
Qed.

(** [C26] A grant's signature binds everything it grants: two grants with the same
    signing preimage agree on every field except the signature itself, revocation
    and the issuer key included, whatever the lengths of the resource and
    delegation lists.  So no edit of a signed grant is covered by its old
    signature, and a grant signed as revoked cannot be presented as unrevoked. *)
Theorem signing_preimage_binds (g h : CapabilityGrant) (Hg : grant_wf g) (Hh : grant_wf h)
    (Heq : signing_preimage g = signing_preimage h) :
  set_signature g [] = set_signature h [].
Proof.
  rewrite !signing_preimage_frames in Heq.
  apply encode_frames_inj in Heq; [|by apply grant_frames_fit..].
  destruct Hg as (_ & _ & _ & Hgr & Hgx & Hgd & _), Hh as (_ & _ & _ & Hhr & Hhx & Hhd & _).
  unfold grant_frames in Heq. do 4 (apply frame_cons_inj in Heq as [[_ ?] Heq]).
  apply (bind_frames_inj scope_wf) in Heq as [Hr Heq]; auto using resource_frames_inj.
  unfold grant_mid in Heq. do 2 (apply frame_cons_inj in Heq as [[_ ?] Heq]).
  apply (bind_frames_inj delegation_wf) in Heq as [Hd Heq]; auto using delegation_frames_inj.
  unfold grant_tail in Heq. apply frame_cons_inj in Heq as [[_ ?] Heq].
  assert (g_revoked g = g_revoked h) as Hrev by (by destruct (g_revoked g), (g_revoked h)).
  repeat match goal with H : as_bytes _ = as_bytes _ |- _ => apply (inj as_bytes) in H end.
  match goal with H : PolicyProfile_debug _ = _ |- _ => apply (inj PolicyProfile_debug) in H end.
  match goal with H : to_le_bytes _ _ = _ |- _ => apply u64_le_bytes_inj in H; [|done..] end.
  destruct g, h; simpl in *. by simplify_eq.
Qed.

Section grant_lemmas.
Context `{Ed25519}.

(** The scope [check] consults: the first one that matches. *)
Definition first_scope (g : CapabilityGrant) (r : string) : option ResourceScope :=
  snd <$> list_find (λ s, resource_matches (resource_id s) r = true) (g_allowed_resources g).

Definition op_allowed (s : ResourceScope) (op : Op) : bool :=
  match op with Read => can_read s | Write => can_write s end.

Lemma check_ok (g : CapabilityGrant) (r : string) (op : Op) (now : Z) :
  check g r op now = Ok tt ↔
  g_revoked g = false ∧ now < g_expires_at_ms g ∧ verify_signature g = Ok tt ∧
  ∃ s, first_scope g r = Some s ∧ op_allowed s op = true.
Proof.
  unfold check, first_scope. destruct (g_revoked g); [naive_solver|].
  destruct (Z.leb_spec (g_expires_at_ms g) now); [split; [done|lia]|].
  destruct (verify_signature g) as [[]|e]; simpl; [|naive_solver].
  destruct (list_find _ _) as [[i s]|]; simpl; [|naive_solver].
  change (match op with Read => can_read s | Write => can_write s end) with (op_allowed s op).
  destruct (op_allowed s op) eqn:Ea; split; try done; [eauto 10|].
  intros (_ & _ & _ & s' & [= <-] & ?). congruence.
Qed.


Lemma verify_sign_with `{!Ed25519Laws} g sk : verify_signature (sign_with g sk) = Ok tt.
Proof.
  unfold verify_signature, sign_with. simpl.
  assert (∀ n (a : array (S n)), array_bytes a ≠ []) as Hne.
  { intros n a Ha. pose proof (length_array a) as Hl. by rewrite Ha in Hl. }
  rewrite !bool_decide_eq_false_2 by apply Hne. simpl.
  rewrite !array_of_array. simpl. rewrite sk_verifying_key_decodes. simpl.
  match goal with |- (if verify_strict _ ?m (sk_sign _ ?m') then _ else _) = _ =>
    change m with m' end.
  by rewrite verify_strict_sign.
Qed.
End grant_lemmas.
