(* ===== verification/AuditLog.v ===== *)
(** * The tamper-evident audit log ([mem-authz/src/audit.rs])

    A blake3 hash chain of access records, kept in memory and written through
    to an append-only log file with a head sidecar.  The two files (and the
    sidecar's temporary) are a [Disk]; every file-system call consults an
    oracle that says whether it fails, so an operation returns what it left on
    disk also when it fails half-way. *)

From S2P Require Import Prelude Bytes Externs Text.

Inductive MemoryEvent := EvRead | EvWrite | EvDenied.

#[export] Instance MemoryEvent_eq_dec : EqDecision MemoryEvent.
Proof. solve_decision. Defined.

Definition MemoryEvent_debug (e : MemoryEvent) : string :=
  match e with EvRead => "Read" | EvWrite => "Write" | EvDenied => "Denied" end.

Record AuditRecord := {
  sequence : Z;
  timestamp_ms : Z;
  prev_hash : array 32;
  event : MemoryEvent;
  actor : string;
  ar_resource_id : string;
  detail : string;
}.

#[export] Instance AuditRecord_eq_dec : EqDecision AuditRecord.
Proof. solve_decision. Defined.

(** Which check found the log or the sidecar untrustworthy: one constructor per
    message the code formats. *)
Inductive CorruptReason :=
| HeadSerialize (e : string)
| RecordUnparseable (i : nat) (e : string)
| SequenceBreak (i : nat) (expected found : Z)
| PrevHashBreak (seq : Z)
| HeadMissing (e : string)
| HeadUnparseable (e : string)
| HeadHashMalformed
| MoreThanOneInFlight (log_len head_len : Z)
| HeadHashMismatch (head_len : Z)
| RecordSerialize (e : string).

Inductive AuditError :=
| Io (e : string)
| Corrupt (why : CorruptReason)
| Truncated (head log : Z)
| Locked (e : string).

(** The head sidecar's payload *)
Record Head := { len : Z; last_hash_hex : string }.

(** ** The file system *)

Record Disk := {
  d_log : option bytes;
  d_head : option bytes;
  d_tmp : option bytes;
}.

Inductive IoStep :=
| CreateDir | CreateLog | LockLog | OpenLog | ReadLog | WriteLine | SyncData
| HeadCreate | HeadWrite | HeadSync | HeadRename | ReadHead.

(** [io_fault s] is the error call [s] reports, if it fails; a write that fails
    may have appended the first [torn] bytes already. *)
Record IoOracle := { io_fault : IoStep → option string; torn : nat }.

Definition no_fault : IoOracle := {| io_fault _ := None; torn := 0 |}.

Definition io (o : IoOracle) (s : IoStep) (ok failed : Disk → Disk) : stm Disk AuditError unit :=
  λ d, match io_fault o s with
       | Some e => (failed d, Err (match s with LockLog => Locked e | _ => Io e end))
       | None => (ok d, Ok tt)
       end.

Definition log_append (b : bytes) (d : Disk) : Disk :=
  {| d_log := Some (default [] (d_log d) ++ b); d_head := d_head d; d_tmp := d_tmp d |}.
Definition set_tmp (b : bytes) (d : Disk) : Disk :=
  {| d_log := d_log d; d_head := d_head d; d_tmp := Some b |}.
(** [rename(tmp, head)] *)
Definition rename_head (d : Disk) : Disk :=
  {| d_log := d_log d; d_head := d_tmp d; d_tmp := None |}.

(** ** The chain *)

Section audit.
Context `{Blake3, Hex, Serde AuditRecord, Serde Head}.

Definition audit_feed (h : bytes) (tag : byte) (b : bytes) : bytes :=
  h ++ [tag] ++ to_le_bytes 8 (Z.of_nat (length b)) ++ b.

(** What [record_hash] feeds to the hasher *)
Definition record_preimage (r : AuditRecord) : bytes :=
  let h := audit_feed [] Byte.x00 (as_bytes "mem-authz:audit:v1") in
  let h := audit_feed h Byte.x01 (to_le_bytes 8 (sequence r)) in
  let h := audit_feed h Byte.x02 (to_le_bytes 8 (timestamp_ms r)) in
  let h := audit_feed h Byte.x03 (array_bytes (prev_hash r)) in
  let h := audit_feed h Byte.x04 (as_bytes (MemoryEvent_debug (event r))) in
  let h := audit_feed h Byte.x05 (as_bytes (actor r)) in
  let h := audit_feed h Byte.x06 (as_bytes (ar_resource_id r)) in
  audit_feed h Byte.x07 (as_bytes (detail r)).

Definition record_hash (r : AuditRecord) : array 32 := blake3 (record_preimage r).

Definition lock_log_exclusive (o : IoOracle) : stm Disk AuditError unit := io o LockLog id id.

Definition write_head (o : IoOracle) (n : Z) (h : array 32) : stm Disk AuditError unit :=
  let! payload := slift (map_err (λ e, Corrupt (HeadSerialize e))
                           (to_vec {| len := n; last_hash_hex := hex_encode (array_bytes h) |})) in
  let! _ := io o HeadCreate (set_tmp []) id in
  let! _ := io o HeadWrite (set_tmp payload) (set_tmp (take (torn o) payload)) in
  let! _ := io o HeadSync id id in
  io o HeadRename rename_head id.

Record AuditChain := {
  records : list AuditRecord;
  last_hash : array 32;
  next_seq : Z;
  sink : bool;
}.

Definition AuditChain_new : AuditChain :=
  {| records := []; last_hash := zero_array 32; next_seq := 0; sink := false |}.

Record walk := {
  w_records : list AuditRecord;
  w_hash_after : list (array 32);
  w_expected_prev : array 32;
}.

(** One line of the log: blank lines are skipped, anything else must parse and
    continue the chain. *)
Definition walk_line (w : walk) (il : nat * bytes) : result AuditError walk :=
  let '(i, line) := il in
  if negb (utf8_valid line) then Err (Io "stream did not contain valid UTF-8")
  else if trim_is_empty line then Ok w
  else
    let? r := map_err (λ e, Corrupt (RecordUnparseable i e)) (from_slice line : result string AuditRecord) in
    let n := Z.of_nat (length (w_records w)) in
    if bool_decide (sequence r ≠ n) then Err (Corrupt (SequenceBreak i n (sequence r)))
    else if bool_decide (prev_hash r ≠ w_expected_prev w) then Err (Corrupt (PrevHashBreak (sequence r)))
    else
      let h := record_hash r in
      Ok {| w_records := w_records w ++ [r]; w_hash_after := w_hash_after w ++ [h]; w_expected_prev := h |}.

Definition walk_start : walk :=
  {| w_records := []; w_hash_after := []; w_expected_prev := zero_array 32 |}.

Definition walk_log (log : bytes) : result AuditError walk :=
  rfold walk_line walk_start (imap (λ i l, (i, l)) (lines log)).

(** The sidecar must commit to a verified prefix of the log, at most one record
    behind it. *)
Definition check_head (w : walk) (head : Head) : result AuditError unit :=
  let log_len := Z.of_nat (length (w_records w)) in
  let? head_hash := ok_or (rok (hex_decode (last_hash_hex head)) ≫= array_of 32)
                          (Corrupt HeadHashMalformed) in
  if log_len <? len head then Err (Truncated (len head) log_len)
  else if len head + 1 <? log_len then Err (Corrupt (MoreThanOneInFlight log_len (len head)))
  else
    let prefix_hash := if len head =? 0 then zero_array 32
                       else default (zero_array 32) (w_hash_after w !! Z.to_nat (len head - 1)) in
    if bool_decide (prefix_hash ≠ head_hash) then Err (Corrupt (HeadHashMismatch (len head)))
    else Ok tt.

Definition open_fresh (o : IoOracle) : stm Disk AuditError AuditChain :=
  let! _ := io o CreateDir id id in
  let! _ := io o CreateLog (log_append []) id in
  let! _ := lock_log_exclusive o in
  let! _ := write_head o 0 (zero_array 32) in
  sret {| records := []; last_hash := zero_array 32; next_seq := 0; sink := true |}.

Definition open_existing (o : IoOracle) (log : bytes) : stm Disk AuditError AuditChain :=
  let! _ := io o ReadLog id id in
  let! w := slift (walk_log log) in
  let log_len := Z.of_nat (length (w_records w)) in
  let! head_bytes := sread (λ d, match io_fault o ReadHead with
                                 | Some e => Err (Corrupt (HeadMissing e))
                                 | None => ok_or (d_head d) (Corrupt (HeadMissing "No such file or directory (os error 2)"))
                                 end) in
  let! head := slift (map_err (λ e, Corrupt (HeadUnparseable e)) (from_slice head_bytes : result string Head)) in
  let! _ := slift (check_head w head) in
  let! _ := io o OpenLog id id in
  let! _ := lock_log_exclusive o in
  let! _ := if bool_decide (len head ≠ log_len) then write_head o log_len (w_expected_prev w) else sret tt in
  sret {| records := w_records w; last_hash := w_expected_prev w; next_seq := log_len; sink := true |}.

Definition AuditChain_open (o : IoOracle) : stm Disk AuditError AuditChain :=
  λ d, match d_log d with
       | None => open_fresh o d
       | Some log => open_existing o log d
       end.

Definition append_record (self : AuditChain) (ev : MemoryEvent) (who res det : string) (now_ms : Z) : AuditRecord :=
  {| sequence := next_seq self; timestamp_ms := now_ms; prev_hash := last_hash self;
     event := ev; actor := who; ar_resource_id := res; detail := det |}.

(** [append]: the log line, its fsync, then the sidecar; the in-memory chain
    grows only after all of them. *)
Definition append (o : IoOracle) (self : AuditChain) (ev : MemoryEvent) (who res det : string) (now_ms : Z)
    : stm Disk AuditError (AuditChain * AuditRecord) :=
  let record := append_record self ev who res det now_ms in
  let hash := record_hash record in
  let! _ :=
    if sink self then
      let! line := slift (map_err (λ e, Corrupt (RecordSerialize e)) (to_vec record)) in
      let line := line ++ [newline] in
      let! _ := io o WriteLine (log_append line) (log_append (take (torn o) line)) in
      let! _ := io o SyncData id id in
      write_head o (sequence record + 1) hash
    else sret tt in
  sret ({| records := records self ++ [record]; last_hash := hash;
           next_seq := next_seq self + 1; sink := sink self |}, record).

(** [verify_integrity]: the count, or a message with the sequence where the walk
    breaks *)
Fixpoint verify_from (i : Z) (expected_prev : array 32) (rs : list AuditRecord) : result string unit :=
  match rs with
  | [] => Ok tt
  | r :: rs =>
    if bool_decide (sequence r ≠ i) then Err ("sequence break at " +:+ decimal (sequence r))
    else if bool_decide (prev_hash r ≠ expected_prev) then Err ("prev_hash break at sequence " +:+ decimal (sequence r))
    else verify_from (i + 1) (record_hash r) rs
  end.

Definition verify_integrity (self : AuditChain) : result string Z :=
  rmap (λ _, Z.of_nat (length (records self))) (verify_from 0 (zero_array 32) (records self)).
End audit.

(** ** The chain invariant *)

Section chain.
Context `{Blake3, Hex, Serde AuditRecord, Serde Head}.

Definition final_hash (p : array 32) (rs : list AuditRecord) : array 32 :=
  foldl (λ _ r, record_hash r) p rs.

(** The records are numbered and linked, and the cached tip is theirs. *)
Definition chain_wf (c : AuditChain) : Prop :=
  verify_from 0 (zero_array 32) (records c) = Ok tt ∧
  last_hash c = final_hash (zero_array 32) (records c) ∧
  next_seq c = Z.of_nat (length (records c)).

Lemma verify_from_cons i p r rs :
  verify_from i p (r :: rs) = Ok tt ↔
  sequence r = i ∧ prev_hash r = p ∧ verify_from (i + 1) (record_hash r) rs = Ok tt.
Proof. simpl. repeat case_bool_decide; naive_solver. Qed.

Lemma verify_from_app i p rs ss :
  verify_from i p (rs ++ ss) = Ok tt ↔
  verify_from i p rs = Ok tt ∧ verify_from (i + Z.of_nat (length rs)) (final_hash p rs) ss = Ok tt.
Proof.
  revert i p. induction rs as [|r rs IH]; intros i p.
  - simpl. rewrite Z.add_0_r. naive_solver.
  - change ((r :: rs) ++ ss) with (r :: (rs ++ ss)). rewrite !verify_from_cons, IH. simpl length.
    rewrite Nat2Z.inj_succ. replace (i + 1 + Z.of_nat (length rs)) with (i + Z.succ (Z.of_nat (length rs))) by lia.
    naive_solver.
Qed.

Lemma final_hash_snoc p rs r : final_hash p (rs ++ [r]) = record_hash r.
Proof. unfold final_hash. by rewrite foldl_app. Qed.

(** The chain [append] moves to *)
Definition grow (c : AuditChain) (r : AuditRecord) : AuditChain :=
  {| records := records c ++ [r]; last_hash := record_hash r; next_seq := next_seq c + 1; sink := sink c |}.

Lemma grow_wf c ev who res det now :
  chain_wf c → chain_wf (grow c (append_record c ev who res det now)).
Proof.
  intros (Hv & Hl & Hn). repeat split; simpl.
  - apply verify_from_app. split; [done|]. apply verify_from_cons. simpl. rewrite Hn, Hl. done.
  - by rewrite final_hash_snoc.
  - rewrite Hn, length_app. simpl. lia.
Qed.

Lemma append_ok o c ev who res det now d d' c' r :
  append o c ev who res det now d = (d', Ok (c', r)) →
  r = append_record c ev who res det now ∧ c' = grow c r.
Proof.
  unfold append. rewrite sbind_inv. intros [(d1 & [] & _ & Hr)|(e & _ & [=])].
  by injection Hr as <- <- <-.
Qed.

(** The chain is tamper-evident in memory from the first record on: whatever
    sequence of appends succeeded, and whatever the file system did, the chain
    is numbered without gaps, each record commits to its predecessor's hash, and
    [verify_integrity] accepts it with the number of records. *)
Theorem append_verifies (o : IoOracle) (c : AuditChain) ev who res det now d d' c' r
    (Hc : chain_wf c) (Happ : append o c ev who res det now d = (d', Ok (c', r))) :
  chain_wf c' ∧ records c' = records c ++ [r] ∧
  verify_integrity c' = Ok (Z.of_nat (length (records c)) + 1).
Proof.
  apply append_ok in Happ as [-> ->]. pose proof (grow_wf c ev who res det now Hc) as Hwf.
  split_and!; [done|done|]. unfold verify_integrity. destruct Hwf as (-> & _ & _). simpl.
  rewrite length_app. simpl. f_equal. lia.
Qed.

Lemma new_wf : chain_wf AuditChain_new.
Proof. done. Qed.

(** ** Re-walking a log *)

Definition walk_wf (w : walk) : Prop :=
  verify_from 0 (zero_array 32) (w_records w) = Ok tt ∧
  w_hash_after w = record_hash <$> w_records w ∧
  w_expected_prev w = final_hash (zero_array 32) (w_records w).

Lemma walk_line_wf w il w' : walk_wf w → walk_line w il = Ok w' → walk_wf w'.
Proof.
  intros (Hv & Ha & Hp). unfold walk_line. destruct il as [i l].
  repeat case_match; intros; inv_result; try done. case_bool_decide; [done|].
  case_bool_decide; [done|]. inv_result. repeat split; simpl.
  - apply verify_from_app. split; [done|]. apply verify_from_cons. simpl. split_and!; [|congruence|done].
    rewrite Z.add_0_l. lia.
  - by rewrite Ha, fmap_app.
  - by rewrite final_hash_snoc.
Qed.

Lemma walk_log_wf log w : walk_log log = Ok w → walk_wf w.
Proof. apply (rfold_inv _ walk_wf); [by repeat split|]. intros. by eapply walk_line_wf. Qed.

Lemma open_existing_wf o log d d' c : open_existing o log d = (d', Ok c) → chain_wf c.
Proof.
  unfold open_existing. rewrite sbind_inv. intros [(d1 & [] & _ & Hr)|(e & _ & [=])].
  apply sbind_inv in Hr as [(d2 & w & Hw & Hr)|(e & _ & [=])]. injection Hw as <- Hw.
  apply walk_log_wf in Hw as (Hv & Ha & Hp).
  repeat (apply sbind_inv in Hr as [(? & ? & _ & Hr)|(? & _ & [=])]).
  injection Hr as <- <-. by repeat split.
Qed.

(** ** Persistence *)

(** A record that JSON represents exactly: its strings are UTF-8 and its
    counters are [u64]s. *)
Definition record_repr (r : AuditRecord) : Prop :=
  is_u64 (sequence r) ∧ is_u64 (timestamp_ms r) ∧
  utf8_valid (as_bytes (actor r)) = true ∧ utf8_valid (as_bytes (ar_resource_id r)) = true ∧
  utf8_valid (as_bytes (detail r)) = true.

(** serde_json on the two types this component stores: such records and heads
    serialise and read back, and a compact rendering is one non-blank line. *)
Class AuditSerdeLaws : Prop := {
  record_to_vec : ∀ r, record_repr r → ∃ b, to_vec r = Ok b ∧ from_slice b = Ok r;
  record_line : ∀ (r : AuditRecord) b, to_vec r = Ok b →
    newline ∉ b ∧ carriage_return ∉ b ∧ utf8_valid b = true ∧ trim_is_empty b = false;
  head_to_vec : ∀ n h, is_u64 n →
    let hd := {| len := n; last_hash_hex := hex_encode (array_bytes (n := 32) h) |} in
    ∃ b, to_vec hd = Ok b ∧ from_slice b = Ok hd;
}.

Context `{!HexLaws, !AuditSerdeLaws}.

Definition is_line (r : AuditRecord) (l : bytes) : Prop := to_vec r = Ok l ∧ from_slice l = Ok r.

Definition log_bytes (ls : list bytes) : bytes := flat_map (λ l, l ++ [newline]) ls.

Lemma is_line_clean rs ls :
  Forall2 is_line rs ls → Forall (λ b, newline ∉ b ∧ carriage_return ∉ b) ls.
Proof.
  induction 1 as [|r l rs ls [Hl _] _ IH]; constructor; [|done]. by apply record_line in Hl as (? & ? & _).
Qed.

Lemma walk_lines rs ls w ps :
  ps.*2 = ls → Forall2 is_line rs ls →
  verify_from (Z.of_nat (length (w_records w))) (w_expected_prev w) rs = Ok tt →
  rfold walk_line w ps =
    Ok {| w_records := w_records w ++ rs; w_hash_after := w_hash_after w ++ (record_hash <$> rs);
          w_expected_prev := final_hash (w_expected_prev w) rs |}.
Proof.
  intros Hps Hls. revert w ps Hps. induction Hls as [|r l rs ls [Hl Hr] Hls IH]; intros w ps Hps.
  - destruct ps; [|done]. intros _. simpl. rewrite !app_nil_r. by destruct w.
  - destruct ps as [|[i l'] ps]; [done|]. injection Hps as -> Hps. rewrite verify_from_cons. intros (Hs & Hp & Hv).
    destruct (record_line _ _ Hl) as (_ & _ & Hu & Ht). cbn [rfold walk_line].
    rewrite Hu, Ht. cbn [negb]. rewrite Hr. cbn [map_err rbind].
    rewrite !bool_decide_eq_false_2 by tauto. cbn [rbind].
    rewrite IH; [|done|].
    + simpl. by rewrite <-!app_assoc.
    + simpl. rewrite length_app. simpl. by replace (Z.of_nat (length (w_records w) + 1)) with (Z.of_nat (length (w_records w)) + 1) by lia.
Qed.

Lemma imap_pair_snd {A} (l : list A) : (imap (λ i a, (i, a)) l).*2 = l.
Proof. rewrite fmap_imap. apply (list_eq _ _). intros i. rewrite list_lookup_imap. by destruct (l !! i). Qed.

(** Whatever the tail of the log, its complete lines are walked first. *)
Lemma walk_log_bytes rs ls :
  Forall2 is_line rs ls → verify_from 0 (zero_array 32) rs = Ok tt →
  walk_log (log_bytes ls) =
    Ok {| w_records := rs; w_hash_after := record_hash <$> rs; w_expected_prev := final_hash (zero_array 32) rs |}.
Proof.
  intros Hls Hv. unfold walk_log. apply (walk_lines rs ls walk_start); [|done|done].
  rewrite imap_pair_snd. unfold log_bytes. rewrite <-(app_nil_r (flat_map _ ls)).
  rewrite lines_flat by (by eapply is_line_clean). apply app_nil_r.
Qed.

(** The sidecar's bytes for a chain of length [n] with tip [h] *)
Definition is_head (n : Z) (h : array 32) (b : bytes) : Prop :=
  let hd := {| len := n; last_hash_hex := hex_encode (array_bytes h) |} in
  to_vec hd = Ok b ∧ from_slice b = Ok hd.

(** The disk holds the chain [rs], its sidecar committing to the first [k]
    records. *)
Definition disk_holds (d : Disk) (rs : list AuditRecord) (k : nat) : Prop :=
  ∃ ls hb, d_log d = Some (log_bytes ls) ∧ Forall2 is_line rs ls ∧
    verify_from 0 (zero_array 32) rs = Ok tt ∧ (k ≤ length rs)%nat ∧
    d_head d = Some hb ∧ is_head (Z.of_nat k) (final_hash (zero_array 32) (take k rs)) hb.

Definition chain_of (rs : list AuditRecord) : AuditChain :=
  {| records := rs; last_hash := final_hash (zero_array 32) rs;
     next_seq := Z.of_nat (length rs); sink := true |}.

Lemma final_hash_take rs k :
  (k ≤ length rs)%nat →
  (if Z.of_nat k =? 0 then zero_array 32
   else default (zero_array 32) ((record_hash <$> rs) !! Z.to_nat (Z.of_nat k - 1))) =
  final_hash (zero_array 32) (take k rs).
Proof.
  intros Hk. destruct k as [|k]; [done|]. rewrite (proj2 (Z.eqb_neq _ _)) by lia.
  replace (Z.to_nat (Z.of_nat (S k) - 1)) with k by lia.
  destruct (lookup_lt_is_Some_2 rs k) as [r Hr]; [lia|].
  rewrite list_lookup_fmap, Hr. simpl. erewrite take_S_r by done. by rewrite final_hash_snoc.
Qed.

Lemma check_head_holds rs k :
  (k ≤ length rs)%nat →
  check_head {| w_records := rs; w_hash_after := record_hash <$> rs; w_expected_prev := final_hash (zero_array 32) rs |}
    {| len := Z.of_nat k; last_hash_hex := hex_encode (array_bytes (final_hash (zero_array 32) (take k rs))) |} =
  if (length rs <=? S k)%nat then Ok tt
  else Err (Corrupt (MoreThanOneInFlight (Z.of_nat (length rs)) (Z.of_nat k))).
Proof.
  intros Hk. unfold check_head. cbn [w_records w_hash_after w_expected_prev len last_hash_hex].
  rewrite hex_decode_encode. cbn [rok mbind option_bind]. rewrite array_of_array. cbn [ok_or rbind].
  rewrite (proj2 (Z.ltb_ge _ _)) by lia. rewrite final_hash_take by done.
  rewrite bool_decide_eq_false_2 by (intros Hn; by apply Hn).
  destruct (Nat.leb_spec (length rs) (S k)).
  - by rewrite (proj2 (Z.ltb_ge _ _)) by lia.
  - by rewrite (proj2 (Z.ltb_lt _ _)) by lia.
Qed.

(** [write_head] never touches the log; it either leaves the sidecar alone or
    replaces it whole, and an [Ok] means it was replaced. *)
Lemma write_head_effect o n h d d' r :
  is_u64 n → write_head o n h d = (d', r) →
  d_log d' = d_log d ∧
  ((d_head d' = d_head d ∧ r ≠ Ok tt) ∨ (∃ hb, d_head d' = Some hb ∧ is_head n h hb)).
Proof.
  intros Hn. destruct (head_to_vec n h Hn) as (hb & Hto & Hfrom).
  unfold write_head. rewrite Hto. unfold sbind, slift, io. simpl.
  destruct (io_fault o HeadCreate); [intros; inv_result; naive_solver|].
  destruct (io_fault o HeadWrite); [intros; inv_result; naive_solver|].
  destruct (io_fault o HeadSync); [intros; inv_result; naive_solver|].
  destruct (io_fault o HeadRename); [intros; inv_result; naive_solver|].
  intros; inv_result. split; [done|]. right. by exists hb.
Qed.

Lemma write_head_no_fault n h d : is_u64 n → ∃ d', write_head no_fault n h d = (d', Ok tt).
Proof.
  intros Hn. destruct (head_to_vec n h Hn) as (hb & Hto & Hfrom).
  unfold write_head. rewrite Hto. by eexists.
Qed.

Lemma open_holds d rs k :
  is_u64 (Z.of_nat (length rs)) → disk_holds d rs k → (length rs ≤ S k)%nat →
  ∃ d', AuditChain_open no_fault d = (d', Ok (chain_of rs)) ∧ disk_holds d' rs (length rs) ∧
        (k = length rs → d' = d).
Proof.
  intros Hu (ls & hb & Hlog & Hls & Hv & Hk & Hhead & Hto & Hfrom) Hk'.
  unfold AuditChain_open, open_existing. rewrite Hlog. unfold sbind, slift, sread, sret, lock_log_exclusive, io. simpl.
  rewrite (walk_log_bytes rs ls) by done. rewrite Hhead. simpl. rewrite Hfrom. simpl.
  rewrite check_head_holds by done. rewrite (proj2 (Nat.leb_le _ _)) by done.
  case_bool_decide as Hne.
  - destruct (write_head_no_fault (Z.of_nat (length rs)) (final_hash (zero_array 32) rs) d Hu) as [d' Hd'].
    cbn [w_records w_expected_prev len]. rewrite Hd'. exists d'. split_and!; [done| |lia].
    apply write_head_effect in Hd' as (Hl & [[_ ?]|(hb' & Hh' & Hi')]); [done| |done].
    exists ls, hb'. rewrite Hl, firstn_all. split_and!; done.
  - exists d. assert (k = length rs) as -> by (simpl in Hne; lia). split_and!; [done| |done].
    by exists ls, hb.
Qed.

Lemma disk_holds_grow d d' rs r l k :
  disk_holds d rs (length rs) → is_line r l →
  sequence r = Z.of_nat (length rs) → prev_hash r = final_hash (zero_array 32) rs →
  d_log d' = (λ b, b ++ l ++ [newline]) <$> d_log d →
  (k = length rs ∧ d_head d' = d_head d ∨
   k = S (length rs) ∧ ∃ hb, d_head d' = Some hb ∧ is_head (Z.of_nat k) (record_hash r) hb) →
  disk_holds d' (rs ++ [r]) k.
Proof.
  intros (ls & hb & Hlog & Hls & Hv & _ & Hhead & Hhd) Hl Hs Hp Hlog' Hk.
  assert (d_log d' = Some (log_bytes (ls ++ [l]))) as Hlog''.
  { rewrite Hlog', Hlog. simpl. unfold log_bytes. rewrite flat_map_app. simpl. by rewrite app_nil_r. }
  assert (Forall2 is_line (rs ++ [r]) (ls ++ [l])) by (apply Forall2_app; [done|]; apply Forall2_cons; split; [done|constructor]).
  assert (verify_from 0 (zero_array 32) (rs ++ [r]) = Ok tt).
  { apply verify_from_app. split; [done|]. apply verify_from_cons. by rewrite Z.add_0_l. }
  destruct Hk as [[-> Hh]|[-> (hb' & Hh & Hhd')]].
  - exists (ls ++ [l]), hb. rewrite length_app, take_app_length, Hh. rewrite firstn_all in Hhd.
    split_and!; try done. simpl. lia.
  - exists (ls ++ [l]), hb'. rewrite length_app.
    rewrite take_ge by (rewrite length_app; simpl; lia). rewrite final_hash_snoc.
    split_and!; try done. simpl. lia.
Qed.

(** What [append] leaves on disk, whatever fails after the log line: the record
    is in the log, and the sidecar is at most one record behind. *)
Lemma append_disk o rs ev who res det now d d' x :
  io_fault o WriteLine = None →
  is_u64 (Z.of_nat (length rs) + 1) → disk_holds d rs (length rs) →
  let r := append_record (chain_of rs) ev who res det now in
  record_repr r → append o (chain_of rs) ev who res det now d = (d', x) →
  (x = Ok (chain_of (rs ++ [r]), r) ∧ disk_holds d' (rs ++ [r]) (S (length rs))) ∨
  (∃ e k, x = Err e ∧ (length rs ≤ k)%nat ∧ disk_holds d' (rs ++ [r]) k).
Proof.
  intros Hw Hu Hd r Hr. destruct (record_to_vec r Hr) as (l & Hto & Hfrom).
  unfold append. fold r. cbn [sink chain_of]. rewrite Hto. unfold sbind, slift, io. rewrite Hw. simpl.
  assert (Hlog : d_log (log_append (l ++ [newline]) d) = (λ b, b ++ l ++ [newline]) <$> d_log d).
  { destruct Hd as (ls & hb & Hlog & _). simpl. by rewrite Hlog. }
  assert (is_line r l) as Hrl by done.
  destruct (io_fault o SyncData) as [e|].
  - intros [= <- <-]. right. exists (Io e), (length rs). split_and!; [done|lia|].
    apply (disk_holds_grow d _ rs r l); try done. by left.
  - destruct (write_head o _ _ _) as [d1 w] eqn:Hwh.
    pose proof (write_head_effect _ _ _ _ _ _ Hu Hwh) as (Hl1 & Hh1).
    assert (∀ k, k = length rs ∧ d_head d1 = d_head d ∨
      k = S (length rs) ∧ (∃ hb, d_head d1 = Some hb ∧ is_head (Z.of_nat k) (record_hash r) hb) →
      disk_holds d1 (rs ++ [r]) k) as Hgrow.
    { intros k Hk. apply (disk_holds_grow d _ rs r l); try done. by rewrite Hl1. }
    replace (Z.of_nat (length rs) + 1) with (Z.of_nat (S (length rs))) in Hh1 by lia.
    destruct w as [[]|e]; intros [= <- <-].
    + left. split.
      * f_equal. f_equal. unfold chain_of. rewrite final_hash_snoc, length_app. simpl. f_equal. lia.
      * apply Hgrow. right. destruct Hh1 as [[_ ?]|]; done.
    + right. destruct Hh1 as [[Hh _]|Hh].
      * exists e, (length rs). split_and!; [done|lia|]. apply Hgrow. auto.
      * exists e, (S (length rs)). split_and!; [done|lia|]. apply Hgrow. auto.
Qed.

(** Durability across restarts: when the file system does not fail, an
    append to a persisted chain succeeds, and opening the files afterwards
    returns exactly the chain the process had in memory, record for record, and
    changes nothing on disk. *)
Theorem append_reopens (rs : list AuditRecord) ev who res det now (d : Disk)
    (Hu : is_u64 (Z.of_nat (length rs) + 1)) (Hd : disk_holds d rs (length rs))
    (Hr : record_repr (append_record (chain_of rs) ev who res det now)) :
  let r := append_record (chain_of rs) ev who res det now in
  ∃ d', append no_fault (chain_of rs) ev who res det now d = (d', Ok (chain_of (rs ++ [r]), r)) ∧
        AuditChain_open no_fault d' = (d', Ok (chain_of (rs ++ [r]))).
Proof.
  intros r. destruct (append no_fault _ _ _ _ _ _ _) as [d' x] eqn:Happ.
  assert (x = Ok (chain_of (rs ++ [r]), r) ∧ disk_holds d' (rs ++ [r]) (S (length rs))) as [-> Hd'].
  { destruct (record_to_vec r Hr) as (l & Hto & _).
    destruct (append_disk no_fault rs ev who res det now d d' x) as [?|(e & k & -> & _)]; [done..|].
    exfalso. revert Happ. unfold append. fold r. cbn [sink chain_of]. rewrite Hto. unfold sbind, slift, io. simpl.
    match goal with |- context [write_head no_fault ?n ?h ?d0] =>
      destruct (write_head_no_fault n h d0 Hu) as [d1 ->] end. done. }
  exists d'. split; [done|].
  destruct (open_holds d' (rs ++ [r]) (S (length rs))) as (d'' & Ho & _ & Heq);
    rewrite ?length_app; simpl; try done; [|lia|].
  - unfold is_u64 in *. simpl. lia.
  - rewrite Ho, Heq; [done|]. rewrite length_app. simpl. lia.
Qed.

(** [C30] Crash tolerance: cut an append off anywhere after its log line is
    written (fsync, any step of replacing the sidecar, or not at all), and the
    next open still succeeds with the record included, and repairs the sidecar
    so the disk is fully consistent again. *)
Theorem append_crash_recovers (o : IoOracle) (rs : list AuditRecord) ev who res det now (d d' : Disk) x
    (Hw : io_fault o WriteLine = None)
    (Hu : is_u64 (Z.of_nat (length rs) + 1)) (Hd : disk_holds d rs (length rs))
    (Hr : record_repr (append_record (chain_of rs) ev who res det now))
    (Happ : append o (chain_of rs) ev who res det now d = (d', x)) :
  let rs' := rs ++ [append_record (chain_of rs) ev who res det now] in
  ∃ d'', AuditChain_open no_fault d' = (d'', Ok (chain_of rs')) ∧ disk_holds d'' rs' (length rs').
Proof.
  intros rs'. assert (length rs' = S (length rs)) as Hlen by (unfold rs'; rewrite length_app; simpl; lia).
  assert (∃ k, disk_holds d' rs' k ∧ (length rs ≤ k)%nat) as (k & Hk & Hle).
  { destruct (append_disk o rs ev who res det now d d' x) as [[_ ?]|(e & k & _ & ? & ?)]; eauto. }
  destruct (open_holds d' rs' k) as (d'' & Ho & Hd'' & _); [|done|lia|by exists d''].
  rewrite Hlen. unfold is_u64 in *. lia.
Qed.

(** Rollback is detected: put back an older, internally consistent log
    that misses the last records, and opening reports exactly how many the
    sidecar had committed to and how many are left. *)
Theorem open_detects_truncation (d : Disk) (rs ss : list AuditRecord) (ls : list bytes)
    (Hd : disk_holds d (rs ++ ss) (length (rs ++ ss))) (Hss : ss ≠ [])
    (Hls : Forall2 is_line rs ls) :
  let d' := {| d_log := Some (log_bytes ls); d_head := d_head d; d_tmp := d_tmp d |} in
  AuditChain_open no_fault d' =
    (d', Err (Truncated (Z.of_nat (length (rs ++ ss))) (Z.of_nat (length rs)))).
Proof.
  intros d'. destruct Hd as (ls0 & hb & _ & _ & Hv & _ & Hhead & Hto & Hfrom).
  apply verify_from_app in Hv as [Hv _].
  unfold AuditChain_open, open_existing. cbn [d_log d']. unfold sbind, slift, sread, io. simpl.
  rewrite (walk_log_bytes rs ls) by done. rewrite Hhead. simpl. rewrite Hfrom. simpl.
  unfold check_head. simpl. rewrite hex_decode_encode. simpl. rewrite array_of_array. simpl.
  rewrite (proj2 (Z.ltb_lt _ _)); [done|]. rewrite length_app. destruct ss; [done|]. simpl. lia.
Qed.

(** A failed append is not rolled back: after an append that failed past
    its log line, the in-memory chain is unchanged but the line is on disk, so
    the next append writes a second record with the same sequence number.  It
    reports success, and from then on every open fails with a sequence break. *)
Theorem append_after_error_bricks (o : IoOracle) (rs : list AuditRecord)
    ev who res det now ev2 who2 res2 det2 now2 (d d1 : Disk) (e : AuditError)
    (Hw : io_fault o WriteLine = None)
    (Hu : is_u64 (Z.of_nat (length rs) + 1)) (Hd : disk_holds d rs (length rs))
    (Hr : record_repr (append_record (chain_of rs) ev who res det now))
    (Hr2 : record_repr (append_record (chain_of rs) ev2 who2 res2 det2 now2))
    (Happ : append o (chain_of rs) ev who res det now d = (d1, Err e)) :
  ∃ d2 c2 r2, append no_fault (chain_of rs) ev2 who2 res2 det2 now2 d1 = (d2, Ok (c2, r2)) ∧
    AuditChain_open no_fault d2 =
      (d2, Err (Corrupt (SequenceBreak (S (length rs)) (Z.of_nat (length rs) + 1) (Z.of_nat (length rs))))).
Proof.
  set (r := append_record (chain_of rs) ev who res det now) in *.
  set (r2 := append_record (chain_of rs) ev2 who2 res2 det2 now2) in *.
  assert (∃ k, disk_holds d1 (rs ++ [r]) k) as (k & ls & hb & Hlog & Hls & Hv & _).
  { destruct (append_disk o rs ev who res det now d d1 (Err e)) as [[[=] _]|(? & k & _ & _ & ?)]; eauto. }
  destruct (record_to_vec r2 Hr2) as (l2 & Hto2 & Hfrom2).
  destruct (write_head_no_fault (Z.of_nat (length rs) + 1) (record_hash r2) (log_append (l2 ++ [newline]) d1) Hu)
    as [d2 Hwh].
  pose proof (write_head_effect _ _ _ _ _ _ Hu Hwh) as [Hl2 _].
  exists d2, (grow (chain_of rs) r2), r2. split.
  { unfold append. fold r2. cbn [sink chain_of]. rewrite Hto2. unfold sbind, slift, io. simpl.
    simpl in Hwh. by rewrite Hwh. }
  assert (d_log d2 = Some (log_bytes (ls ++ [l2]))) as Hlog2.
  { rewrite Hl2. simpl. rewrite Hlog. unfold log_bytes. rewrite flat_map_app. simpl. by rewrite app_nil_r. }
  unfold AuditChain_open, open_existing. rewrite Hlog2. unfold sbind, slift, io. simpl.
  assert (lines (log_bytes (ls ++ [l2])) = ls ++ [l2]) as Hlines.
  { unfold log_bytes. rewrite <-(app_nil_r (flat_map _ _)), lines_flat; [apply app_nil_r|].
    apply Forall_app. split; [by eapply is_line_clean|]. constructor; [|done].
    by destruct (record_line _ _ Hto2) as (? & ? & _). }
  destruct (record_line _ _ Hto2) as (_ & _ & Hut & Htr).
  apply Forall2_length in Hls as Hlen. rewrite length_app in Hlen. simpl in Hlen.
  unfold walk_log. rewrite Hlines, imap_app, rfold_app. rewrite (walk_lines (rs ++ [r]) ls walk_start);
    [|apply imap_pair_snd|done|done].
  simpl. rewrite Hut, Htr. simpl. rewrite Hfrom2. simpl.
  rewrite length_app. simpl. rewrite bool_decide_eq_true_2 by lia.
  simpl. repeat f_equal; lia.
Qed.

(** ** Tamper evidence *)

Definition record_frames (r : AuditRecord) : list frame :=
  [(Byte.x00, as_bytes "mem-authz:audit:v1"); (Byte.x01, to_le_bytes 8 (sequence r));
   (Byte.x02, to_le_bytes 8 (timestamp_ms r)); (Byte.x03, array_bytes (prev_hash r));
   (Byte.x04, as_bytes (MemoryEvent_debug (event r))); (Byte.x05, as_bytes (actor r));
   (Byte.x06, as_bytes (ar_resource_id r)); (Byte.x07, as_bytes (detail r))].

Lemma audit_feed_frame h t b : audit_feed h t b = h ++ encode_frames [(t, b)].
Proof. unfold audit_feed, encode_frames, feed_frame. simpl. by rewrite app_nil_r. Qed.

Lemma record_preimage_frames r : record_preimage r = encode_frames (record_frames r).
Proof. unfold record_preimage. rewrite !audit_feed_frame, app_nil_l. by rewrite <-!encode_frames_app. Qed.

Definition record_wf (r : AuditRecord) : Prop :=
  is_u64 (sequence r) ∧ is_u64 (timestamp_ms r) ∧ fits (as_bytes (actor r)) ∧
  fits (as_bytes (ar_resource_id r)) ∧ fits (as_bytes (detail r)).

Lemma record_preimage_inj r s :
  record_wf r → record_wf s → record_preimage r = record_preimage s → r = s.
Proof.
  assert (∀ r, record_wf r → Forall (λ f, fits f.2) (record_frames r)) as Hfit.
  { intros q (? & ? & ? & ? & ?). unfold record_frames.
    repeat (apply Forall_cons; split); simpl; try done.
    - unfold fits. by rewrite length_array.
    - by destruct (event q). }
  intros Hr Hs. rewrite !record_preimage_frames. intros Heq%encode_frames_inj; [|auto..].
  destruct Hr as (? & ? & _), Hs as (? & ? & _).
  unfold record_frames in Heq. split_frames Heq.
  repeat match goal with H : as_bytes _ = as_bytes _ |- _ => apply (inj as_bytes) in H end.
  repeat match goal with H : to_le_bytes _ _ = _ |- _ => apply u64_le_bytes_inj in H; [|done..] end.
  match goal with H : array_bytes _ = _ |- _ => apply array_eq in H end.
  match goal with H : MemoryEvent_debug _ = _ |- _ =>
    assert (event r = event s) by (by destruct (event r), (event s)) end.
  destruct r, s; simpl in *. by simplify_eq.
Qed.

(** A record of each history whose hashed byte strings differ and collide *)
Definition records_collide (rs ss : list AuditRecord) : Prop :=
  ∃ r s, r ∈ rs ∧ s ∈ ss ∧ record_preimage r ≠ record_preimage s ∧ record_hash r = record_hash s.

Lemma records_collide_mono rs ss rs' ss' : rs ⊆ rs' → ss ⊆ ss' → records_collide rs ss → records_collide rs' ss'.
Proof. intros Hr Hs (r & s & ? & ? & ?). exists r, s. split_and!; [by apply Hr|by apply Hs|by destruct_and?..]. Qed.

Lemma record_hash_inj r s :
  record_wf r → record_wf s → record_hash r = record_hash s → r = s ∨ records_collide [r] [s].
Proof.
  intros Hr Hs Heq. destruct (decide (record_preimage r = record_preimage s)) as [Hp|Hp].
  - left. by apply record_preimage_inj.
  - right. exists r, s. split_and!; [apply list_elem_of_here..|done|done].
Qed.

Lemma final_hash_inj rs ss :
  length rs = length ss → Forall record_wf rs → Forall record_wf ss →
  verify_from 0 (zero_array 32) rs = Ok tt → verify_from 0 (zero_array 32) ss = Ok tt →
  final_hash (zero_array 32) rs = final_hash (zero_array 32) ss → rs = ss ∨ records_collide rs ss.
Proof.
  revert ss. induction rs as [|r rs IH] using rev_ind; intros ss Hlen Hrs Hss Hv Hv' Hh.
  { by destruct ss; [left|]. }
  destruct ss as [|s ss _] using rev_ind; [rewrite length_app in Hlen; simpl in Hlen; lia|].
  rewrite !length_app in Hlen. simpl in Hlen.
  apply Forall_app in Hrs as [Hrs Hr], Hss as [Hss Hs].
  rewrite Forall_singleton in Hr, Hs.
  apply verify_from_app in Hv as [Hv Hvr], Hv' as [Hv' Hvs].
  apply verify_from_cons in Hvr as (_ & Hpr & _), Hvs as (_ & Hps & _).
  rewrite !final_hash_snoc in Hh.
  destruct (record_hash_inj r s Hr Hs Hh) as [->|Hc];
    [|right; eapply records_collide_mono; [| |exact Hc]; set_solver].
  assert (rs = ss ∨ records_collide rs ss) as [->|Hc];
    [|by left|right; eapply records_collide_mono; [| |exact Hc]; set_solver].
  apply IH; try done; [lia|congruence].
Qed.

(** The sidecar's commitment fixes the whole history: two logs that open to
    the same length and the same tip hash hold the same records, unless blake3
    collides on the bytes hashed for a record of one and a record of the other.
    So an adversary who edits, reorders or replaces any record of a
    log, without also rewriting the head, is detected or has found a collision. *)
Theorem open_commits_history (o o' : IoOracle) (log log' : bytes) (d d' e e' : Disk) (c c' : AuditChain)
    (Hc : open_existing o log d = (e, Ok c)) (Hc' : open_existing o' log' d' = (e', Ok c'))
    (Hwf : Forall record_wf (records c)) (Hwf' : Forall record_wf (records c'))
    (Hlen : next_seq c = next_seq c') (Hh : last_hash c = last_hash c') :
  records c = records c' ∨ records_collide (records c) (records c').
Proof.
  apply open_existing_wf in Hc as (Hv & Hl & Hn), Hc' as (Hv' & Hl' & Hn').
  apply final_hash_inj; try done; [lia|congruence].
Qed.
End chain.
