(* ===== verification/Kv.v ===== *)
(** * The key-value backend ([mem-store/src/kv.rs])

    The [KvStore] trait as a class over the backend's state, the contract every
    backend owes its callers as a class of laws over a view of the state, and
    the in-memory backend, which implements the one and satisfies the other. *)

From S2P Require Import Prelude Bytes.

Inductive KvOp :=
| Put (cf : string) (key value : bytes)
| Delete (cf : string) (key : bytes).

Class KvStore (S : Type) := {
  kv_get : S → string → bytes → result string (option bytes);
  kv_put : string → bytes → bytes → stm S string unit;
  kv_delete : string → bytes → stm S string unit;
  kv_exists : S → string → bytes → result string bool;
  kv_iter_cf : S → string → result string (list (bytes * bytes));
  kv_write_batch : list KvOp → stm S string unit;
  (** [kv_checkpoint(dest)]: whether a copy of the store could be made there *)
  kv_checkpoint : S → string → result string unit;
}.
#[global] Hint Mode KvStore ! : typeclass_instances.

(** The column families of the store ([mem-store/src/lib.rs]) *)
Definition NODES : string := "mem_nodes".
Definition EDGES_OUT : string := "mem_edges_out".
Definition EDGES_IN : string := "mem_edges_in".
Definition META : string := "mem_meta".
Definition KEYS : string := "mem_keys".

Definition ALL_CFS : list string := [NODES; EDGES_OUT; EDGES_IN; META; KEYS].
Definition known_cf (cf : string) : bool := bool_decide (cf ∈ ALL_CFS).
Definition op_cf (op : KvOp) : string := match op with Put cf _ _ => cf | Delete cf _ => cf end.
Definition known_ops (ops : list KvOp) : bool := forallb (λ op, known_cf (op_cf op)) ops.

(** The trait's default [kv_write_batch]: one operation after the other, stopping
    at the first error with the earlier ones applied. *)
Definition kv_apply {S} (put : string → bytes → bytes → stm S string unit)
    (del : string → bytes → stm S string unit) (op : KvOp) : stm S string unit :=
  match op with
  | Put cf key value => put cf key value
  | Delete cf key => del cf key
  end.
Definition default_write_batch {S} (put : string → bytes → bytes → stm S string unit)
    (del : string → bytes → stm S string unit) (ops : list KvOp) : stm S string unit :=
  sfold (λ _ op, kv_apply put del op) tt ops.

(** The trait's default [kv_checkpoint] *)
Definition default_checkpoint {S} (_ : S) (_ : string) : result string unit := Err "checkpoint not supported by this backend".

(** ** The contract

    [kv_view] is what a backend stores, column family by column family; [kv_ok]
    holds while it is usable (lock not poisoned, column families open).  The contract is
    owed for the column families of the store. *)

Abbreviation cf_map := (gmap bytes bytes).

Definition view_put (cf : string) (key value : bytes) (v : string → cf_map) : string → cf_map :=
  λ c, if decide (c = cf) then <[key := value]> (v c) else v c.
Definition view_delete (cf : string) (key : bytes) (v : string → cf_map) : string → cf_map :=
  λ c, if decide (c = cf) then delete key (v c) else v c.
Definition view_op (v : string → cf_map) (op : KvOp) : string → cf_map :=
  match op with
  | Put cf key value => view_put cf key value v
  | Delete cf key => view_delete cf key v
  end.
Definition view_ops (v : string → cf_map) (ops : list KvOp) : string → cf_map := foldl view_op v ops.

(** The rows of a column family in key order, as [BTreeMap] iteration and a
    RocksDB iterator both yield them *)
Definition sorted_rows (m : cf_map) : list (bytes * bytes) := sort_by_key fst (map_to_list m).

Class KvLaws (S : Type) `{KvStore S} := {
  kv_view : S → string → cf_map;
  kv_ok : S → Prop;
  kv_get_ok : ∀ s cf k, kv_ok s → known_cf cf = true → kv_get s cf k = Ok (kv_view s cf !! k);
  kv_exists_ok : ∀ s cf k, kv_ok s → known_cf cf = true → kv_exists s cf k = Ok (bool_decide (is_Some (kv_view s cf !! k)));
  kv_iter_cf_ok : ∀ s cf, kv_ok s → known_cf cf = true → kv_iter_cf s cf = Ok (sorted_rows (kv_view s cf));
  kv_put_ok : ∀ s cf k v, kv_ok s → known_cf cf = true →
    ∃ s', kv_put cf k v s = (s', Ok tt) ∧ kv_ok s' ∧ ∀ c, kv_view s' c = view_put cf k v (kv_view s) c;
  kv_delete_ok : ∀ s cf k, kv_ok s → known_cf cf = true →
    ∃ s', kv_delete cf k s = (s', Ok tt) ∧ kv_ok s' ∧ ∀ c, kv_view s' c = view_delete cf k (kv_view s) c;
  kv_write_batch_ok : ∀ s ops, kv_ok s → known_ops ops = true →
    ∃ s', kv_write_batch ops s = (s', Ok tt) ∧ kv_ok s' ∧ ∀ c, kv_view s' c = view_ops (kv_view s) ops c;
}.

Lemma elem_of_sorted_rows (m : cf_map) k v : (k, v) ∈ sorted_rows m ↔ m !! k = Some v.
Proof. unfold sorted_rows. rewrite elem_of_sort_by_key. apply elem_of_map_to_list. Qed.

(** ** The in-memory backend *)

(** [RwLock<CfMap>]: the lock is poisoned once a writer panicked while holding
    it, and every later acquisition fails. *)
Record InMemoryKv := {
  poisoned : bool;
  data : gmap string cf_map;
}.

Definition InMemoryKv_new : InMemoryKv := {| poisoned := false; data := ∅ |}.

Definition lock_error : string := "kv lock poisoned".

Definition with_data (s : InMemoryKv) (f : gmap string cf_map → gmap string cf_map) : InMemoryKv :=
  {| poisoned := poisoned s; data := f (data s) |}.

(** [data.entry(cf).or_default().insert(key, value)] *)
Definition entry_insert (cf : string) (key value : bytes) (d : gmap string cf_map) : gmap string cf_map :=
  <[cf := <[key := value]> (default ∅ (d !! cf))]> d.
(** [if let Some(m) = data.get_mut(cf) { m.remove(key) }] *)
Definition entry_remove (cf : string) (key : bytes) (d : gmap string cf_map) : gmap string cf_map :=
  match d !! cf with
  | Some m => <[cf := delete key m]> d
  | None => d
  end.
Definition mem_op (d : gmap string cf_map) (op : KvOp) : gmap string cf_map :=
  match op with
  | Put cf key value => entry_insert cf key value d
  | Delete cf key => entry_remove cf key d
  end.

Definition mem_kv_get (s : InMemoryKv) (cf : string) (key : bytes) : result string (option bytes) :=
  if poisoned s then Err lock_error else Ok (data s !! cf ≫= (!!) key).

Definition mem_kv_put (cf : string) (key value : bytes) : stm InMemoryKv string unit :=
  λ s, if poisoned s then (s, Err lock_error) else (with_data s (entry_insert cf key value), Ok tt).

Definition mem_kv_delete (cf : string) (key : bytes) : stm InMemoryKv string unit :=
  λ s, if poisoned s then (s, Err lock_error) else (with_data s (entry_remove cf key), Ok tt).

Definition mem_kv_exists (s : InMemoryKv) (cf : string) (key : bytes) : result string bool :=
  if poisoned s then Err lock_error
  else Ok (match data s !! cf with Some m => bool_decide (is_Some (m !! key)) | None => false end).

Definition mem_kv_iter_cf (s : InMemoryKv) (cf : string) : result string (list (bytes * bytes)) :=
  if poisoned s then Err lock_error
  else Ok (match data s !! cf with Some m => sorted_rows m | None => [] end).

(** The whole batch under one write lock *)
Definition mem_kv_write_batch (ops : list KvOp) : stm InMemoryKv string unit :=
  λ s, if poisoned s then (s, Err lock_error) else (with_data s (λ d, foldl mem_op d ops), Ok tt).

#[export] Instance InMemoryKv_store : KvStore InMemoryKv := {|
  kv_get := mem_kv_get;
  kv_put := mem_kv_put;
  kv_delete := mem_kv_delete;
  kv_exists := mem_kv_exists;
  kv_iter_cf := mem_kv_iter_cf;
  kv_write_batch := mem_kv_write_batch;
  kv_checkpoint := default_checkpoint;
|}.

Definition mem_view (d : gmap string cf_map) (cf : string) : cf_map := default ∅ (d !! cf).

Lemma mem_view_insert d cf k v c : mem_view (entry_insert cf k v d) c = view_put cf k v (mem_view d) c.
Proof.
  unfold mem_view, entry_insert, view_put. case_decide as E.
  - subst. by rewrite lookup_insert_eq.
  - by rewrite lookup_insert_ne.
Qed.
Lemma mem_view_remove d cf k c : mem_view (entry_remove cf k d) c = view_delete cf k (mem_view d) c.
Proof.
  unfold mem_view, entry_remove, view_delete. case_decide as E.
  - subst. destruct (d !! cf) as [m|] eqn:Hm; simpl.
    + by rewrite lookup_insert_eq.
    + rewrite Hm. simpl. by rewrite delete_empty.
  - destruct (d !! cf); [|done]. by rewrite lookup_insert_ne.
Qed.

Lemma view_ops_ext v w ops : (∀ c, v c = w c) → ∀ c, view_ops v ops c = view_ops w ops c.
Proof.
  revert v w. induction ops as [|op ops IH]; intros v w Hvw c; simpl; [done|].
  apply IH. intros c'. destruct op; simpl; unfold view_put, view_delete; by rewrite Hvw.
Qed.

Lemma mem_view_ops d ops c : mem_view (foldl mem_op d ops) c = view_ops (mem_view d) ops c.
Proof.
  revert d c. induction ops as [|op ops IH]; intros d c; simpl; [done|]. rewrite IH.
  apply view_ops_ext. intros c'. destruct op; simpl; [apply mem_view_insert|apply mem_view_remove].
Qed.

(** The in-memory backend keeps the contract the store is built on: while its
    lock is not poisoned every call succeeds, reads return exactly what the
    writes put there, iteration yields each row once in key order, and a batch
    is applied whole. *)
#[export] Program Instance InMemoryKv_laws : KvLaws InMemoryKv := {|
  kv_view s := mem_view (data s);
  kv_ok s := poisoned s = false;
|}.
Next Obligation.
  intros s cf k Hs _. simpl. unfold mem_kv_get, mem_view. rewrite Hs. by destruct (data s !! cf); simpl; rewrite ?lookup_empty.
Qed.
Next Obligation.
  intros s cf k Hs _. simpl. unfold mem_kv_exists, mem_view. rewrite Hs. destruct (data s !! cf); simpl; [done|].
  by rewrite lookup_empty.
Qed.
Next Obligation.
  intros s cf Hs _. simpl. unfold mem_kv_iter_cf, mem_view. rewrite Hs. destruct (data s !! cf); simpl; [done|].
  unfold sorted_rows. by rewrite map_to_list_empty.
Qed.
Next Obligation.
  intros s cf k v Hs _. simpl. unfold mem_kv_put. rewrite Hs. eexists. split_and!; [done|done|].
  intros c. apply mem_view_insert.
Qed.
Next Obligation.
  intros s cf k Hs _. simpl. unfold mem_kv_delete. rewrite Hs. eexists. split_and!; [done|done|].
  intros c. apply mem_view_remove.
Qed.
Next Obligation.
  intros s ops Hs _. simpl. unfold mem_kv_write_batch. rewrite Hs. eexists. split_and!; [done|done|].
  intros c. apply mem_view_ops.
Qed.

(** The in-memory backend's batch, applied under one lock, has the effect of
    the trait's default that applies the operations one at a time: same final
    rows in every column family, every lookup of them included. *)
Theorem mem_write_batch_sequential (s : InMemoryKv) (ops : list KvOp) (Hs : poisoned s = false) :
  kv_write_batch ops s = default_write_batch mem_kv_put mem_kv_delete ops s.
Proof.
  simpl. unfold mem_kv_write_batch, default_write_batch. rewrite Hs.
  destruct s as [p d]; simpl in Hs; subst p. unfold with_data; simpl.
  revert d. induction ops as [|[cf k v|cf k] ops IH]; intros d; [done|..]; simpl;
    unfold sbind, mem_kv_put, mem_kv_delete; simpl; apply IH.
Qed.
