(* ===== verification/Shred.v ===== *)
(** * Per-tenant crypto-shredding at rest ([mem-store/src/shred.rs])

    The sealed envelope, the keyring entry, the associated data that binds a
    ciphertext to its slot, the deterministic nonce, and seal/open. *)

From stdpp Require Import pretty.
From S2P Require Import Prelude Bytes Externs Identity.

(** [StoreError] of [mem-store/src/lib.rs] *)
Inductive StoreError :=
| Backend (e : string)
| SerdeError (e : string)
| Crypto (e : string).

#[export] Instance StoreError_eq_dec : EqDecision StoreError.
Proof. solve_decision. Defined.

Definition KEY_LEN : nat := 32.
Definition NONCE_LEN : nat := 24.

Definition CIPHER_CONTEXT : string := "citrate-memories mem-store shred cipher v1".
Definition NONCE_CONTEXT : string := "citrate-memories mem-store shred nonce v1".

Record Envelope := {
  enc : Z;
  env_tenant : string;
  kgen : Z;
  nonce : string;
  ct : string;
}.

Record KeyringEntry := {
  gen : Z;
  key : option string;
}.

Section shred.
Context `{Blake3, Hex, Aead, Serde Envelope}.

Definition key_bytes (self : KeyringEntry) : result StoreError (option (array KEY_LEN)) :=
  match key self with
  | None => Ok None
  | Some k =>
    let? b := map_err (λ e, Crypto ("keyring hex: " +:+ e)) (hex_decode k) in
    let? a := ok_or (array_of KEY_LEN b) (Crypto "keyring entry has wrong length") in
    Ok (Some a)
  end.

Definition parse_envelope (b : bytes) : option Envelope :=
  match (from_slice b : result string Envelope) with
  | Ok env => if enc env =? 1 then Some env else None
  | Err _ => None
  end.

Definition generate_key {R} `{Rng R} : stm R StoreError (array KEY_LEN) :=
  smap_err (λ e, Crypto ("os rng: " +:+ e)) (getrandom KEY_LEN).

Definition aad (tenant : string) (id : ContentHash) : bytes :=
  as_bytes tenant ++ [Byte.x00] ++ array_bytes id.

Definition aad_at (tenant cf : string) (k : bytes) : bytes :=
  as_bytes tenant ++ [Byte.x00] ++ as_bytes cf ++ [Byte.x00] ++ k.

Definition derive_nonce_parts (master : array KEY_LEN) (parts : list bytes) (plaintext : bytes) : bytes :=
  let nonce_key := blake3_derive_key NONCE_CONTEXT (array_bytes master) in
  blake3_keyed_xof nonce_key (concat parts ++ plaintext) NONCE_LEN.

Definition derive_nonce (master : array KEY_LEN) (id : ContentHash) (plaintext : bytes) : bytes :=
  derive_nonce_parts master [array_bytes id] plaintext.

Definition cipher (master : array KEY_LEN) : array 32 := blake3_derive_key CIPHER_CONTEXT (array_bytes master).

Definition seal_envelope (tenant : string) (kg : Z) (n c : bytes) : Envelope :=
  {| enc := 1; env_tenant := tenant; kgen := kg; nonce := hex_encode n; ct := hex_encode c |}.

Definition seal (master : array KEY_LEN) (tenant : string) (kg : Z) (id : ContentHash) (plaintext : bytes)
    : result StoreError bytes :=
  let n := derive_nonce master id plaintext in
  let? c := ok_or (aead_encrypt (cipher master) n (aad tenant id) plaintext) (Crypto "seal failed") in
  map_err SerdeError (to_vec (seal_envelope tenant kg n c)).

Definition open_with_aad (master : array KEY_LEN) (env : Envelope) (a : bytes) : result StoreError bytes :=
  let? n := map_err (λ e, Crypto ("bad nonce hex: " +:+ e)) (hex_decode (nonce env)) in
  if negb (length n =? NONCE_LEN)%nat
  then Err (Crypto ("nonce length " +:+ pretty (length n) +:+ " != " +:+ pretty NONCE_LEN))
  else
    let? c := map_err (λ e, Crypto ("bad ciphertext hex: " +:+ e)) (hex_decode (ct env)) in
    ok_or (aead_decrypt (cipher master) n a c)
          (Crypto "decryption failed: tampered, swapped, or wrong key").

Definition open_ (master : array KEY_LEN) (env : Envelope) (id : ContentHash) : result StoreError bytes :=
  open_with_aad master env (aad (env_tenant env) id).

Definition seal_at (master : array KEY_LEN) (tenant : string) (kg : Z) (cf : string) (k plaintext : bytes)
    : result StoreError bytes :=
  let n := derive_nonce_parts master [as_bytes cf; [Byte.x00]; k] plaintext in
  let? c := ok_or (aead_encrypt (cipher master) n (aad_at tenant cf k) plaintext) (Crypto "seal failed") in
  map_err SerdeError (to_vec (seal_envelope tenant kg n c)).

Definition open_at (master : array KEY_LEN) (env : Envelope) (cf : string) (k : bytes) : result StoreError bytes :=
  open_with_aad master env (aad_at (env_tenant env) cf k).

(** ** Sealing and opening *)

(** serde_json reads an envelope back. *)
Class EnvelopeSerdeLaws : Prop := {
  envelope_to_vec : ∀ env : Envelope, ∃ b, to_vec env = Ok b ∧ from_slice b = Ok env;
}.

Context `{!Blake3Laws, !HexLaws, !AeadLaws, !EnvelopeSerdeLaws}.

Lemma open_seal_envelope master tenant kg parts p a c :
  aead_encrypt (cipher master) (derive_nonce_parts master parts p) a p = Some c →
  open_with_aad master (seal_envelope tenant kg (derive_nonce_parts master parts p) c) a = Ok p.
Proof.
  intros Hc. unfold open_with_aad, seal_envelope. cbn [nonce ct]. rewrite !hex_decode_encode.
  cbn [map_err rbind]. unfold derive_nonce_parts at 1. rewrite blake3_keyed_xof_length, Nat.eqb_refl.
  cbn [negb map_err rbind]. by rewrite (aead_decrypt_encrypt _ _ _ _ _ Hc).
Qed.

Lemma sealed_envelope tenant kg n c b :
  to_vec (seal_envelope tenant kg n c) = Ok b →
  parse_envelope b = Some (seal_envelope tenant kg n c).
Proof.
  destruct (envelope_to_vec (seal_envelope tenant kg n c)) as (b' & Hto & Hfrom). rewrite Hto.
  intros [= <-]. unfold parse_envelope. by rewrite Hfrom.
Qed.

(** A sealed node value is an envelope naming its tenant and generation, and
    opening it under the same key and id returns the plaintext. *)
Lemma seal_open master tenant kg id p b :
  seal master tenant kg id p = Ok b →
  ∃ env, parse_envelope b = Some env ∧ env_tenant env = tenant ∧ kgen env = kg ∧ open_ master env id = Ok p.
Proof.
  unfold seal. intros Hb. inv_result. destruct (aead_encrypt _ _ _ _) as [c|] eqn:Hc; [|done].
  simpl in *. inv_result. eexists. split_and!; [by apply sealed_envelope|done|done|].
  unfold open_. by apply open_seal_envelope.
Qed.

Lemma seal_at_open master tenant kg cf k p b :
  seal_at master tenant kg cf k p = Ok b →
  ∃ env, parse_envelope b = Some env ∧ env_tenant env = tenant ∧ kgen env = kg ∧ open_at master env cf k = Ok p.
Proof.
  unfold seal_at. intros Hb. inv_result. destruct (aead_encrypt _ _ _ _) as [c|] eqn:Hc; [|done].
  simpl in *. inv_result. eexists. split_and!; [by apply sealed_envelope|done|done|].
  unfold open_at. by apply open_seal_envelope.
Qed.

Lemma key_bytes_encode g (k : array KEY_LEN) :
  key_bytes {| gen := g; key := Some (hex_encode (array_bytes k)) |} = Ok (Some k).
Proof. unfold key_bytes. simpl. rewrite hex_decode_encode. simpl. by rewrite array_of_array. Qed.
End shred.
