(* ===== verification/Store.v ===== *)
(** * The content-addressed DAG store ([mem-store/src/lib.rs])

    [MemoryDagStore<N>] over any backend: nodes, edges in both adjacencies,
    operational meta, the per-tenant keyring, sealing at rest, breadth-first
    reachability, and supersession. *)

From stdpp Require Import pretty.
From S2P Require Import Prelude Bytes Externs Text Belnap Identity Node Edge Kv Shred.

Inductive SupersessionError :=
| NotSupersedes (k : EdgeKind)
| SelfSupersede
| MissingNode (id : string)
| Cycle
| Quarantined
| PlaneViolation
| SupStore (e : StoreError).

Record SupersessionReport := { transitioned : bool }.

Record SealMigrationReport := {
  already_done : bool;
  edges_sealed : nat;
  meta_sealed : nat;
  skipped_unknown_tenant : nat;
}.

Definition SEAL_V2_MARKER_KEY : bytes := as_bytes "__shred_seal_v2_done".

Class Identified (N : Type) := node_id : N → ContentHash.
Class Tenanted (N : Type) := tenant : N → string.

#[export] Instance MemoryNode_identified `{Blake3} : Identified MemoryNode := compute_id.
#[export] Instance MemoryNode_tenanted : Tenanted MemoryNode := n_repo.

(** The store: its backend, whether it seals on write, and the state of the
    operating system's random source, which minting a key consumes. *)
Record MemoryDagStore (S R : Type) := mk_store {
  kv : S;
  encrypt_at_rest : bool;
  os_rng : R;
}.
Arguments mk_store {S R}.
Arguments kv {S R}.
Arguments encrypt_at_rest {S R}.
Arguments os_rng {S R}.

Section store.
Context {S R : Type} `{KvStore S, Rng R, Blake3, Hex, Aead}.
Context `{Serde Envelope, Serde KeyringEntry, Serde Edge}.
Context {N : Type} `{Identified N, Tenanted N, Serde N}.

Abbreviation store := (MemoryDagStore S R).
Abbreviation M := (stm store StoreError).
Abbreviation master_key := (array KEY_LEN).

(** Run a backend call, a random-source call *)
Definition on_kv {A} (m : stm S string A) : M A :=
  λ s, match m (kv s) with
       | (k, r) => (mk_store k (encrypt_at_rest s) (os_rng s), map_err Backend r)
       end.
Definition on_rng {A} (m : stm R StoreError A) : M A :=
  λ s, match m (os_rng s) with
       | (g, r) => (mk_store (kv s) (encrypt_at_rest s) g, r)
       end.

Definition get_row (s : store) (cf : string) (k : bytes) : result StoreError (option bytes) :=
  map_err Backend (kv_get (kv s) cf k).
Definition iter_rows (s : store) (cf : string) : result StoreError (list (bytes * bytes)) :=
  map_err Backend (kv_iter_cf (kv s) cf).

(** ** The keyring *)

Definition keyring_entry (s : store) (t : string) : result StoreError (option KeyringEntry) :=
  let? o := get_row s KEYS (as_bytes t) in
  match o with
  | None => Ok None
  | Some b => rmap Some (map_err SerdeError (from_slice b))
  end.

Definition put_keyring_entry (t : string) (entry : KeyringEntry) : M unit :=
  let! b := slift (map_err SerdeError (to_vec entry)) in
  on_kv (kv_put KEYS (as_bytes t) b).

Definition ensure_tenant_key (t : string) : M (Z * master_key) :=
  let! entry := sread (λ s, keyring_entry s t) in
  let! p := slift (match entry with
                   | Some e => rmap (pair (gen e)) (key_bytes e)
                   | None => Ok (0, None)
                   end) in
  match p with
  | (g, Some k) => sret (g, k)
  | (g, None) =>
    let! k := on_rng generate_key in
    let g' := wrapping_add32 g 1 in
    let! _ := put_keyring_entry t {| gen := g'; key := Some (hex_encode (array_bytes k)) |} in
    sret (g', k)
  end.

Definition shred_tenant (t : string) : M bool :=
  let! entry := sread (λ s, keyring_entry s t) in
  match entry with
  | None => sret false
  | Some e =>
    let existed := bool_decide (is_Some (key e)) in
    let! _ := put_keyring_entry t {| gen := gen e; key := None |} in
    sret existed
  end.

(** ** Nodes: encoding *)

Definition encode_node (n : N) : M bytes :=
  let! plain := slift (map_err SerdeError (to_vec n)) in
  λ s, if negb (encrypt_at_rest s) then (s, Ok plain)
       else (let! gk := ensure_tenant_key (tenant n) in
             slift (seal gk.2 (tenant n) gk.1 (node_id n) plain)) s.

(** The key a sealed value must be opened with, if it is still there: the live
    key of the envelope's tenant, when its generation is the one that sealed. *)
Definition live_key (s : store) (t : string) : result StoreError (option (Z * master_key)) :=
  let? entry := keyring_entry s t in
  match entry with
  | None => Ok None
  | Some e => let? k := key_bytes e in Ok (pair (gen e) <$> k)
  end.

Definition decode_node (s : store) (id : ContentHash) (b : bytes) : result StoreError (option N) :=
  match parse_envelope b with
  | None => rmap Some (map_err SerdeError (from_slice b))
  | Some env =>
    let? entry := keyring_entry s (env_tenant env) in
    match entry with
    | None => Ok None
    | Some e =>
      let? k := key_bytes e in
      match k with
      | None => Ok None
      | Some k =>
        if negb (gen e =? kgen env) then Ok None
        else
          let? plain := open_ k env id in
          rmap Some (map_err SerdeError (from_slice plain))
      end
    end
  end.

(** ** Edges: encoding *)

Definition stored_node_tenant (s : store) (id : ContentHash) : result StoreError (option string) :=
  let? row := get_row s NODES (array_bytes id) in
  match row with
  | None => Ok None
  | Some b =>
    match parse_envelope b with
    | Some env => Ok (Some (env_tenant env))
    | None => let? n := map_err SerdeError (from_slice b : result string N) in Ok (Some (tenant n))
    end
  end.

(** The batch's own nodes first, then the store; the [from] endpoint first, then
    [to]. *)
Definition endpoint_tenant (s : store) (batch : gmap ContentHash string) (id : ContentHash)
    : result StoreError (option string) :=
  match batch !! id with
  | Some t => Ok (Some t)
  | None => stored_node_tenant s id
  end.

Definition edge_tenant (s : store) (e : Edge) (batch : gmap ContentHash string) : result StoreError string :=
  let? t := endpoint_tenant s batch (e_from e) in
  match t with
  | Some t => Ok t
  | None =>
    let? t := endpoint_tenant s batch (e_to e) in
    ok_or t (Crypto ("cannot seal edge " +:+ to_hex (e_from e) +:+ " -> " +:+ to_hex (e_to e)
                     +:+ ": neither endpoint is in the store, so no tenant key applies"))
  end.

Definition in_key (e : Edge) : bytes :=
  array_bytes (e_to e) ++ array_bytes (e_from e) ++ [byte_of_Z (EdgeKind_tag (e_kind e))].

Definition edge_put_ops (e : Edge) (batch : gmap ContentHash string) : M (list KvOp) :=
  let! plain := slift (map_err SerdeError (to_vec e)) in
  let out_key := Edge_key e in
  let in_key := in_key e in
  λ s, (if encrypt_at_rest s then
          let! t := slift (edge_tenant s e batch) in
          let! gk := ensure_tenant_key t in
          let! out_val := slift (seal_at gk.2 t gk.1 EDGES_OUT out_key plain) in
          let! in_val := slift (seal_at gk.2 t gk.1 EDGES_IN in_key plain) in
          sret [Put EDGES_OUT out_key out_val; Put EDGES_IN in_key in_val]
        else sret [Put EDGES_OUT out_key plain; Put EDGES_IN in_key plain]) s.

(** The keyring lookups one scan has made so far *)
Abbreviation key_cache := (gmap string (option (Z * master_key))).

Definition decode_edge (s : store) (cf : string) (k b : bytes) (keys : key_cache)
    : result StoreError (option Edge * key_cache) :=
  match parse_envelope b with
  | None => rmap (λ e, (Some e, keys)) (map_err SerdeError (from_slice b))
  | Some env =>
    let? lk := match keys !! env_tenant env with
               | Some cached => Ok (cached, keys)
               | None => let? live := live_key s (env_tenant env) in
                         Ok (live, <[env_tenant env := live]> keys)
               end in
    let '(live, keys) := lk in
    match live with
    | None => Ok (None, keys)
    | Some (g, master) =>
      if negb (g =? kgen env) then Ok (None, keys)
      else
        let? plain := open_at master env cf k in
        rmap (λ e, (Some e, keys)) (map_err SerdeError (from_slice plain))
    end
  end.

(** ** Nodes *)

Definition put_node (n : N) : M ContentHash :=
  let id := node_id n in
  let! b := encode_node n in
  let! _ := on_kv (kv_put NODES (array_bytes id) b) in
  sret id.

Definition get_node (s : store) (id : ContentHash) : result StoreError (option N) :=
  let? row := get_row s NODES (array_bytes id) in
  match row with
  | None => Ok None
  | Some b => decode_node s id b
  end.

Definition has_node (s : store) (id : ContentHash) : result StoreError bool :=
  map_err Backend (kv_exists (kv s) NODES (array_bytes id)).

Definition node_count (s : store) : result StoreError nat := rmap length (iter_rows s NODES).
Definition edge_count (s : store) : result StoreError nat := rmap length (iter_rows s EDGES_OUT).

Definition all_nodes (s : store) : result StoreError (list N) :=
  let? rows := iter_rows s NODES in
  rfold (λ out '(k, v),
           let? id := ok_or (array_of 32 k) (SerdeError "node key is not a 32-byte content hash") in
           let? o := decode_node s id v in
           Ok (match o with Some n => out ++ [n] | None => out end)) [] rows.

(** ** Edges *)

Definition key_starts_with (k prefix : bytes) : bool := bool_decide (take (length prefix) k = prefix).

Definition scan_prefix (s : store) (cf : string) (prefix : bytes) : result StoreError (list Edge) :=
  let? rows := iter_rows s cf in
  rmap fst (rfold (λ '(out, keys) '(k, v),
                    if key_starts_with k prefix then
                      let? ek := decode_edge s cf k v keys in
                      Ok (match ek.1 with Some e => out ++ [e] | None => out end, ek.2)
                    else Ok (out, keys)) ([], ∅) rows).

Definition out_edges (s : store) (from : ContentHash) : result StoreError (list Edge) :=
  scan_prefix s EDGES_OUT (array_bytes from).
Definition in_edges (s : store) (to : ContentHash) : result StoreError (list Edge) :=
  scan_prefix s EDGES_IN (array_bytes to).
Definition all_edges (s : store) : result StoreError (list Edge) := scan_prefix s EDGES_OUT [].

Definition same_edge (to : ContentHash) (kind : EdgeKind) (e : Edge) : Prop := e_to e = to ∧ e_kind e = kind.
#[export] Instance same_edge_dec to kind e : Decision (same_edge to kind e).
Proof. unfold same_edge. apply _. Defined.

Definition stored_edge (s : store) (e : Edge) : result StoreError (option Edge) :=
  rmap (λ es, snd <$> list_find (same_edge (e_to e) (e_kind e)) es) (out_edges s (e_from e)).

Definition is_demoting_write (s : store) (e : Edge) : result StoreError bool :=
  if negb (e_quarantined e) then Ok false
  else rmap (λ o, match o with Some existing => negb (e_quarantined existing) | None => false end)
            (stored_edge s e).

Definition add_edge (e : Edge) : M unit :=
  let! demoting := sread (λ s, is_demoting_write s e) in
  if demoting then sret tt
  else
    let! ops := edge_put_ops e ∅ in
    on_kv (kv_write_batch ops).

Definition commit_node (st : list KvOp * gmap ContentHash string) (n : N) : M (list KvOp * gmap ContentHash string) :=
  let! b := encode_node n in
  sret (st.1 ++ [Put NODES (array_bytes (node_id n)) b], <[node_id n := tenant n]> st.2).

Definition commit_edge (batch : gmap ContentHash string) (ops : list KvOp) (e : Edge) : M (list KvOp) :=
  let! demoting := sread (λ s, is_demoting_write s e) in
  if demoting then sret ops
  else
    let! eops := edge_put_ops e batch in
    sret (ops ++ eops).

Definition commit (nodes : list N) (edges : list Edge) : M unit :=
  let! st := sfold commit_node ([], ∅) nodes in
  let! ops := sfold (commit_edge st.2) st.1 edges in
  on_kv (kv_write_batch ops).

(** ** Reachability *)

(** The body of the breadth-first loop for one popped node: [seen.insert(to)]
    decides whether an edge target is new. *)
Definition bfs_visit (kind : EdgeKind) (st : gset ContentHash * list ContentHash) (e : Edge)
    : gset ContentHash * list ContentHash :=
  let '(seen, new) := st in
  if bool_decide (e_kind e = kind) && bool_decide (e_to e ∉ seen)
  then ({[e_to e]} ∪ seen, new ++ [e_to e])
  else (seen, new).

(** [while let Some(cur) = queue.pop_front()]; [None] when the fuel runs out. *)
Fixpoint bfs (out : ContentHash → result StoreError (list Edge)) (kind : EdgeKind) (fuel : nat)
    (seen : gset ContentHash) (queue res : list ContentHash) : option (result StoreError (list ContentHash)) :=
  match queue with
  | [] => Some (Ok res)
  | cur :: queue =>
    match fuel with
    | O => None
    | Datatypes.S fuel =>
      match out cur with
      | Err e => Some (Err e)
      | Ok es =>
        let '(seen', new) := foldl (bfs_visit kind) (seen, []) es in
        bfs out kind fuel seen' (queue ++ new) (res ++ new)
      end
    end
  end.

(** Every node enters the queue once, and only the start or the target of an
    edge can: one more than the edge rows is enough. *)
Definition bfs_fuel (s : store) : nat :=
  match iter_rows s EDGES_OUT with Ok rows => Datatypes.S (length rows) | Err _ => 1%nat end.

Definition reachable_via (s : store) (start : ContentHash) (kind : EdgeKind)
    : result StoreError (list ContentHash) :=
  default (Ok []) (bfs (out_edges s) kind (bfs_fuel s) {[start]} [start] []).

Definition would_cycle_supersedes (s : store) (from to : ContentHash) : result StoreError bool :=
  rmap (λ l, bool_decide (from ∈ l)) (reachable_via s to Supersedes).

(** ** Operational meta *)

Definition put_meta (t : string) (k value : bytes) : M unit :=
  let! b := (λ s, if encrypt_at_rest s then
                    (let! gk := ensure_tenant_key t in
                     slift (seal_at gk.2 t gk.1 META k value)) s
                  else (s, Ok value)) in
  on_kv (kv_put META k b).

Definition get_meta (s : store) (k : bytes) : result StoreError (option bytes) :=
  let? row := get_row s META k in
  match row with
  | None => Ok None
  | Some b =>
    match parse_envelope b with
    | None => Ok (Some b)
    | Some env =>
      let? entry := keyring_entry s (env_tenant env) in
      match entry with
      | None => Ok None
      | Some e =>
        let? master := key_bytes e in
        match master with
        | None => Ok None
        | Some master =>
          if negb (gen e =? kgen env) then Ok None
          else rmap Some (open_at master env META k)
        end
      end
    end
  end.

(** ** Sealing an older store in place *)

Definition report_edge (r : SealMigrationReport) : SealMigrationReport :=
  {| already_done := already_done r; edges_sealed := edges_sealed r + 1; meta_sealed := meta_sealed r;
     skipped_unknown_tenant := skipped_unknown_tenant r |}.
Definition report_meta (r : SealMigrationReport) : SealMigrationReport :=
  {| already_done := already_done r; edges_sealed := edges_sealed r; meta_sealed := meta_sealed r + 1;
     skipped_unknown_tenant := skipped_unknown_tenant r |}.
Definition report_skip (r : SealMigrationReport) : SealMigrationReport :=
  {| already_done := already_done r; edges_sealed := edges_sealed r; meta_sealed := meta_sealed r;
     skipped_unknown_tenant := skipped_unknown_tenant r + 1 |}.

Definition migrate_edge_row (cf : string) (r : SealMigrationReport) (row : bytes * bytes) : M SealMigrationReport :=
  let '(k, v) := row in
  match parse_envelope v with
  | Some _ => sret r
  | None =>
    let! e := slift (map_err SerdeError (from_slice v : result string Edge)) in
    let! ot := sread (λ s, match edge_tenant s e ∅ with
                           | Ok t => Ok (Some t)
                           | Err (Crypto _) => Ok None
                           | Err x => Err x
                           end) in
    match ot with
    | None => sret (report_skip r)
    | Some t =>
      let! gk := ensure_tenant_key t in
      let! sealed := slift (seal_at gk.2 t gk.1 cf k v) in
      let! _ := on_kv (kv_put cf k sealed) in
      sret (report_edge r)
    end
  end.

(** The tenant in a [prefix:{tenant}] key: what follows the first colon *)
Definition meta_tenant (k : bytes) : option string :=
  match list_find (λ b, b = Byte.x3a) k with
  | None => None
  | Some (i, _) =>
    match from_utf8 (drop (Datatypes.S i) k) with
    | Some t => if bool_decide (t = "") then None else Some t
    | None => None
    end
  end.

Definition migrate_meta_row (r : SealMigrationReport) (row : bytes * bytes) : M SealMigrationReport :=
  let '(k, v) := row in
  if bool_decide (k = SEAL_V2_MARKER_KEY) || bool_decide (is_Some (parse_envelope v)) then sret r
  else
    match meta_tenant k with
    | None => sret (report_skip r)
    | Some t =>
      let! gk := ensure_tenant_key t in
      let! sealed := slift (seal_at gk.2 t gk.1 META k v) in
      let! _ := on_kv (kv_put META k sealed) in
      sret (report_meta r)
    end.

Definition report_default : SealMigrationReport :=
  {| already_done := false; edges_sealed := 0; meta_sealed := 0; skipped_unknown_tenant := 0 |}.

Definition migrate_seal_v2 : M SealMigrationReport :=
  λ s,
    if negb (encrypt_at_rest s) then (s, Err (Crypto "seal migration requires an encrypted store"))
    else
      (let! marker := sread (λ s, get_row s META SEAL_V2_MARKER_KEY) in
       match marker with
       | Some _ => sret {| already_done := true; edges_sealed := 0; meta_sealed := 0; skipped_unknown_tenant := 0 |}
       | None =>
         let! r := sfold (λ r cf, let! rows := sread (λ s, iter_rows s cf) in
                                  sfold (migrate_edge_row cf) r rows)
                         report_default [EDGES_OUT; EDGES_IN] in
         let! rows := sread (λ s, iter_rows s META) in
         let! r := sfold migrate_meta_row r rows in
         let! _ := on_kv (kv_put META SEAL_V2_MARKER_KEY (as_bytes "1")) in
         sret r
       end) s.

(** ** Opening *)

Definition store_new (k : S) (r : R) : store := mk_store k false r.
Definition store_new_encrypted (k : S) (r : R) : store := mk_store k true r.

Definition store_new_auto (k : S) (r : R) : store * result StoreError unit :=
  match iter_rows (mk_store k false r) KEYS with
  | Err e => (mk_store k false r, Err e)
  | Ok rows =>
    let encrypted := bool_decide (rows ≠ []) in
    let s := mk_store k encrypted r in
    if encrypted then
      match migrate_seal_v2 s with
      | (s', Ok _) => (s', Ok tt)
      | (s', Err e) => (s', Err e)
      end
    else (s, Ok tt)
  end.
End store.
