(* ===== verification/StoreSpec.v ===== *)
(** * What the store promises: an abstract store, and the refinement

    The abstract store forgets bytes: nodes by id, edges by identity, meta values
    by key, each in a cell that is either plain or sealed under a tenant's key
    generation, and a keyring.  [rel] relates the rows of a backend to it; the
    lemmas below show that every row write of [Store] is the corresponding
    abstract update, and that reads return the readable contents of the cells. *)

From S2P Require Import Prelude Bytes Externs Text Belnap Identity Node Edge Kv Shred Store.

Inductive cell (A : Type) :=
| Plain (a : A)
| Sealed (t : string) (g : Z) (a : A).
Arguments Plain {A} a.
Arguments Sealed {A} t g a.

Definition cell_val {A} (c : cell A) : A := match c with Plain a => a | Sealed _ _ a => a end.

(** A tenant's key generation and, unless shredded, its key *)
Abbreviation ring_t := (gmap string (Z * option (array KEY_LEN))).
Abbreviation ident := (ContentHash * ContentHash * EdgeKind)%type.

Record AbsStore (N : Type) := mk_abs {
  a_ring : ring_t;
  a_nodes : gmap ContentHash (cell N);
  a_edges : gmap ident (cell Edge);
  a_meta : gmap bytes (cell bytes);
}.
Arguments mk_abs {N}.
Arguments a_ring {N}.
Arguments a_nodes {N}.
Arguments a_edges {N}.
Arguments a_meta {N}.

(** What a reader gets from a cell: a sealed one only while its generation's key
    is alive. *)
Definition live (r : ring_t) (t : string) (g : Z) : Prop :=
  match r !! t with Some (g', Some _) => g' = g | _ => False end.
#[export] Instance live_dec r t g : Decision (live r t g).
Proof. unfold live. destruct (r !! t) as [[g' [k|]]|]; apply _. Defined.

Definition read_cell {A} (r : ring_t) (c : cell A) : option A :=
  match c with
  | Plain a => Some a
  | Sealed t g a => if decide (live r t g) then Some a else None
  end.

Lemma read_sealed {A} (r : ring_t) t g g' ok (x : A) :
  r !! t = Some (g', ok) →
  read_cell r (Sealed t g x) = match ok with Some _ => if g' =? g then Some x else None | None => None end.
Proof.
  intros Hr. simpl. assert (live r t g ↔ ok ≠ None ∧ g' = g) as Hl.
  { unfold live. rewrite Hr. destruct ok; naive_solver. }
  destruct ok as [k|]; [destruct (Z.eqb_spec g' g)|].
  - apply decide_True. by apply Hl.
  - apply decide_False. rewrite Hl. tauto.
  - apply decide_False. rewrite Hl. tauto.
Qed.

Definition read_node {N} (a : AbsStore N) (id : ContentHash) : option N :=
  a_nodes a !! id ≫= read_cell (a_ring a).
Definition read_edge {N} (a : AbsStore N) (i : ident) : option Edge :=
  a_edges a !! i ≫= read_cell (a_ring a).
Definition read_meta {N} (a : AbsStore N) (k : bytes) : option bytes :=
  a_meta a !! k ≫= read_cell (a_ring a).

(** The four row updates *)
Definition set_node {N} (id : ContentHash) (c : cell N) (a : AbsStore N) : AbsStore N :=
  mk_abs (a_ring a) (<[id := c]> (a_nodes a)) (a_edges a) (a_meta a).
Definition set_edge {N} (i : ident) (c : cell Edge) (a : AbsStore N) : AbsStore N :=
  mk_abs (a_ring a) (a_nodes a) (<[i := c]> (a_edges a)) (a_meta a).
Definition set_meta {N} (k : bytes) (c : cell bytes) (a : AbsStore N) : AbsStore N :=
  mk_abs (a_ring a) (a_nodes a) (a_edges a) (<[k := c]> (a_meta a)).
Definition set_ring {N} (t : string) (p : Z * option (array KEY_LEN)) (a : AbsStore N) : AbsStore N :=
  mk_abs (<[t := p]> (a_ring a)) (a_nodes a) (a_edges a) (a_meta a).

(** The values JSON represents exactly.  serde_json writes a non-finite float as
    [null], which does not read back as a float. *)
Class JsonRepr (N : Type) := json_repr : N → Prop.
#[export] Instance MemoryNode_json : JsonRepr MemoryNode :=
  λ n, match n_embedding n with
       | Some v => Forall (λ f, f32_is_finite f = true) (vv_data v)
       | None => True
       end.

Definition swap_ident (i : ident) : ident := (i.1.2, i.1.1, i.2).

Lemma in_key_ident e : in_key e = ident_key (swap_ident (edge_ident e)).
Proof. done. Qed.
Lemma swap_ident_invol i : swap_ident (swap_ident i) = i.
Proof. by destruct i as [[f t] k]. Qed.

Section spec.
Context {S R : Type} `{KvStore S, Rng R, Blake3, Hex, Aead}.
Context `{Serde Envelope, Serde KeyringEntry, Serde Edge}.
Context {N : Type} `{Identified N, Tenanted N, Serde N, JsonRepr N}.

(** serde_json on what the store writes: keyring entries, edges and nodes read
    back, and neither an edge nor a node parses as an envelope (it lacks the
    envelope's fields). *)
Class StoreSerdeLaws : Prop := {
  ring_to_vec : ∀ e : KeyringEntry, ∃ b, to_vec e = Ok b ∧ from_slice b = Ok e;
  edge_to_vec : ∀ e : Edge, ∃ b, to_vec e = Ok b ∧ from_slice b = Ok e ∧ parse_envelope b = None;
  node_to_vec : ∀ n : N, json_repr n → ∃ b, to_vec n = Ok b ∧ from_slice b = Ok n ∧ parse_envelope b = None;
}.

Context `{!KvLaws S, !Blake3Laws, !HexLaws, !AeadLaws, !EnvelopeSerdeLaws, !StoreSerdeLaws}.

Abbreviation store := (MemoryDagStore S R).
Abbreviation abs := (AbsStore N).
Abbreviation view := (string → cf_map).

(** The bytes [b] of a row hold cell [c].  A sealed cell's generation never
    exceeds its tenant's, and opens while it is the live one. *)
Definition cell_repr {A} (r : ring_t) (opn : array KEY_LEN → Envelope → result StoreError bytes)
    (dec : bytes → result string A) (c : cell A) (b : bytes) : Prop :=
  match c with
  | Plain x => parse_envelope b = None ∧ dec b = Ok x
  | Sealed t g x =>
    ∃ env, parse_envelope b = Some env ∧ env_tenant env = t ∧ kgen env = g ∧
    ∃ g' ok, r !! t = Some (g', ok) ∧ g ≤ g' ∧
      (∀ k, ok = Some k → g' = g → ∃ p, opn k env = Ok p ∧ dec p = Ok x)
  end.

(** A column family holds a table of cells, row key by row key. *)
Definition table_repr {I A} `{Countable I} (r : ring_t) (rk : I → bytes)
    (opn : bytes → array KEY_LEN → Envelope → result StoreError bytes)
    (dec : bytes → result string A) (t : gmap I (cell A)) (m : cf_map) : Prop :=
  (∀ k, is_Some (m !! k) → ∃ i, k = rk i) ∧
  (∀ i, match m !! rk i, t !! i with
        | Some b, Some c => cell_repr r (opn (rk i)) dec c b
        | None, None => True
        | _, _ => False
        end).

Definition node_open (k : bytes) (m : array KEY_LEN) (env : Envelope) : result StoreError bytes :=
  match array_of 32 k with Some id => open_ m env id | None => Err (Crypto "") end.
Definition slot_open (cf : string) (k : bytes) (m : array KEY_LEN) (env : Envelope) : result StoreError bytes :=
  open_at m env cf k.

Definition ring_repr (r : ring_t) (m : cf_map) : Prop :=
  ∀ t, match m !! as_bytes t, r !! t with
       | Some b, Some (g, ok) => ∃ e, from_slice b = Ok e ∧ gen e = g ∧ key_bytes e = Ok ok ∧ 0 < g ≤ u32_max
       | None, None => True
       | _, _ => False
       end.

Record rel (v : view) (a : abs) : Prop := {
  rel_ring : ring_repr (a_ring a) (v KEYS);
  rel_nodes : table_repr (a_ring a) array_bytes node_open from_slice (a_nodes a) (v NODES);
  rel_out : table_repr (a_ring a) ident_key (slot_open EDGES_OUT) from_slice (a_edges a) (v EDGES_OUT);
  rel_in : table_repr (a_ring a) (λ i, ident_key (swap_ident i)) (slot_open EDGES_IN) from_slice
             (a_edges a) (v EDGES_IN);
  rel_meta : table_repr (a_ring a) id (slot_open META) Ok (a_meta a) (v META);
  rel_node_ids : ∀ i c, a_nodes a !! i = Some c → node_id (cell_val c) = i ∧ json_repr (cell_val c);
  rel_node_tenants : ∀ i t g n, a_nodes a !! i = Some (Sealed t g n) → t = tenant n;
  rel_edge_ids : ∀ i c, a_edges a !! i = Some c → edge_ident (cell_val c) = i;
}.

Definition store_rel (s : store) (a : abs) : Prop := kv_ok (kv s) ∧ rel (kv_view (kv s)) a.

Lemma rel_ext v w a : (∀ c, v c = w c) → rel v a → rel w a.
Proof. intros Hvw []. split; rewrite <-?Hvw; auto. Qed.

(** ** Rows *)

Lemma table_put {I A} `{Countable I} r (rk : I → bytes) opn (dec : bytes → result string A) t m i c b :
  Inj (=) (=) rk → table_repr r rk opn dec t m → cell_repr r (opn (rk i)) dec c b →
  table_repr r rk opn dec (<[i := c]> t) (<[rk i := b]> m).
Proof.
  intros Hinj [Hk Ht] Hc. split.
  - intros k Hs. destruct (decide (k = rk i)) as [->|Hne]; [by exists i|].
    rewrite lookup_insert_ne in Hs by congruence. auto.
  - intros j. destruct (decide (i = j)) as [<-|Hne].
    + by rewrite !lookup_insert_eq.
    + rewrite !lookup_insert_ne by (done || by intros ?%(inj rk)). apply Ht.
Qed.

#[local] Instance ident_key_Inj : Inj (=) (=) ident_key.
Proof. intros i j. apply ident_key_inj. Qed.
#[local] Instance in_ident_Inj : Inj (=) (=) (λ i, ident_key (swap_ident i)).
Proof.
  intros i j Hij. apply ident_key_inj in Hij.
  by rewrite <-(swap_ident_invol i), <-(swap_ident_invol j), Hij.
Qed.

Ltac solve_other_cf :=
  unfold view_put; repeat (case_decide; [done|] || rewrite decide_False by done || rewrite decide_True by done).

Lemma rel_put_node v a c b :
  let id := node_id (cell_val c) in
  rel v a → json_repr (cell_val c) → (∀ t g n, c = Sealed t g n → t = tenant n) →
  cell_repr (a_ring a) (node_open (array_bytes id)) from_slice c b →
  rel (view_put NODES (array_bytes id) b v) (set_node id c a).
Proof.
  intros id [] Hj Ht Hc. split; simpl; solve_other_cf; try done.
  - by apply table_put; [apply _|..].
  - intros i c'. rewrite lookup_insert. case_decide; [|auto]. intros [= <-]. by subst.
  - intros i t g n. rewrite lookup_insert. case_decide; [|eauto]. intros [= ->]. eauto.
Qed.

Lemma rel_put_edge v a c bo bi :
  let i := edge_ident (cell_val c) in
  rel v a →
  cell_repr (a_ring a) (slot_open EDGES_OUT (ident_key i)) from_slice c bo →
  cell_repr (a_ring a) (slot_open EDGES_IN (ident_key (swap_ident i))) from_slice c bi →
  rel (view_put EDGES_IN (ident_key (swap_ident i)) bi (view_put EDGES_OUT (ident_key i) bo v)) (set_edge i c a).
Proof.
  intros i [] Ho Hi. split; simpl; solve_other_cf; try done.
  - by apply table_put; [apply _|..].
  - apply (table_put _ (λ i, ident_key (swap_ident i))); [apply _|done|done].
  - intros j c'. rewrite lookup_insert. case_decide; [|auto]. intros [= <-]. by subst.
Qed.

Lemma rel_put_meta v a k c b :
  rel v a → cell_repr (a_ring a) (slot_open META k) Ok c b → rel (view_put META k b v) (set_meta k c a).
Proof.
  intros [] Hc. split; simpl; solve_other_cf; try done.
  apply (table_put _ id); [apply _|done|done].
Qed.

(** ** The keyring *)

(** How a keyring may evolve: generations only grow, and at the same generation
    a key stays or is destroyed. *)
Definition ring_le (r r' : ring_t) : Prop :=
  ∀ t g ok, r !! t = Some (g, ok) →
  ∃ g' ok', r' !! t = Some (g', ok') ∧ g ≤ g' ∧ (g' = g → ok' = ok ∨ ok' = None).

Lemma cell_repr_ring {A} r r' opn (dec : bytes → result string A) c b :
  ring_le r r' → cell_repr r opn dec c b → cell_repr r' opn dec c b.
Proof.
  intros Hr. destruct c as [x|t g x]; [done|].
  intros (env & Hp & Ht & Hg & g' & ok & Hrt & Hle & Ho).
  destruct (Hr _ _ _ Hrt) as (g'' & ok'' & Hrt' & Hle' & Hok).
  exists env. split_and!; [done..|]. exists g'', ok''. split_and!; [done|lia|].
  intros k -> ->. assert (g' = g) as -> by lia. destruct (Hok eq_refl) as [<-|?]; [|done]. by apply Ho.
Qed.

Lemma table_repr_ring {I A} `{Countable I} r r' (rk : I → bytes) opn (dec : bytes → result string A) t m :
  ring_le r r' → table_repr r rk opn dec t m → table_repr r' rk opn dec t m.
Proof.
  intros Hr [Hk Ht]. split; [done|]. intros i. specialize (Ht i).
  destruct (m !! rk i), (t !! i); try done. by eapply cell_repr_ring.
Qed.

Lemma rel_put_ring v a t e g ok b :
  rel v a → ring_le (a_ring a) (<[t := (g, ok)]> (a_ring a)) →
  from_slice b = Ok e → gen e = g → key_bytes e = Ok ok → 0 < g ≤ u32_max →
  rel (view_put KEYS (as_bytes t) b v) (set_ring t (g, ok) a).
Proof.
  intros [] Hle Hb Hg Hk Hu. split; simpl; solve_other_cf; eauto using table_repr_ring.
  intros t'. rewrite decide_True by done. destruct (decide (t = t')) as [<-|Hne].
  - rewrite !lookup_insert_eq. by exists e.
  - rewrite !lookup_insert_ne by (done || by intros ?%(inj as_bytes)). apply rel_ring0.
Qed.

(** [a'] is [a] after minting keys for tenants that had none. *)
Definition minted (a a' : abs) : Prop :=
  a_nodes a' = a_nodes a ∧ a_edges a' = a_edges a ∧ a_meta a' = a_meta a ∧
  ∀ t, a_ring a' !! t = a_ring a !! t ∨
       (∃ k, a_ring a !! t = None ∧ a_ring a' !! t = Some (1, Some k)) ∨
       (∃ g k, a_ring a !! t = Some (g, None) ∧ a_ring a' !! t = Some (g + 1, Some k)).

#[export] Instance minted_preorder : PreOrder minted.
Proof.
  split.
  - intros a. repeat split; auto.
  - intros a b c (? & ? & ? & Hr) (? & ? & ? & Hr'). repeat split; try congruence.
    intros t. destruct (Hr t) as [E|[(k & E1 & E2)|(g & k & E1 & E2)]], (Hr' t) as [F|[(k' & F1 & F2)|(g' & k' & F1 & F2)]];
      try congruence.
    + left. congruence.
    + right. left. exists k'. split; congruence.
    + right. right. exists g', k'. split; congruence.
    + right. left. exists k. split; congruence.
    + right. right. exists g, k. split; congruence.
Qed.

Lemma minted_ring_le a a' : minted a a' → ring_le (a_ring a) (a_ring a').
Proof.
  intros (_ & _ & _ & Hr) t g ok Hrt. destruct (Hr t) as [E|[(k & E1 & E2)|(g' & k & E1 & E2)]].
  - exists g, ok. rewrite E. split_and!; [done|lia|auto].
  - congruence.
  - rewrite Hrt in E1. injection E1 as -> ->. exists (g' + 1), (Some k). split_and!; [done|lia|lia].
Qed.

(** Every sealed cell's tenant has a keyring entry at least as recent. *)
Definition gens_wf {A} (r : ring_t) (c : cell A) : Prop :=
  match c with
  | Plain _ => True
  | Sealed t g _ => ∃ g' ok, r !! t = Some (g', ok) ∧ g ≤ g'
  end.

Lemma cell_repr_gens {A} r opn (dec : bytes → result string A) c b : cell_repr r opn dec c b → gens_wf r c.
Proof. destruct c; [done|]. intros (env & _ & _ & _ & g' & ok & ? & ? & _). by exists g', ok. Qed.

Lemma table_gens {I A} `{Countable I} r (rk : I → bytes) opn (dec : bytes → result string A) t m i c :
  table_repr r rk opn dec t m → t !! i = Some c → gens_wf r c.
Proof.
  intros [_ Ht] Hi. specialize (Ht i). rewrite Hi in Ht. destruct (m !! rk i); [|done].
  by eapply cell_repr_gens.
Qed.

Lemma minted_read {A} a a' (c : cell A) :
  minted a a' → gens_wf (a_ring a) c → read_cell (a_ring a') c = read_cell (a_ring a) c.
Proof.
  intros (_ & _ & _ & Hr) Hg. destruct c as [x|t g x]; [done|]. destruct Hg as (g' & ok & Hrt & Hle).
  simpl. apply decide_ext. unfold live. destruct (Hr t) as [E|[(k & E1 & E2)|(g0 & k & E1 & E2)]].
  - by rewrite E.
  - congruence.
  - rewrite Hrt in E1. injection E1 as -> ->. rewrite Hrt, E2. split; [lia|done].
Qed.

Lemma minted_read_node v a a' id : rel v a → minted a a' → read_node a' id = read_node a id.
Proof.
  intros Hrel Hm. unfold read_node. destruct (Hm) as (-> & _). destruct (a_nodes a !! id) eqn:E; [|done].
  simpl. apply minted_read; [done|]. by eapply table_gens; [apply Hrel|].
Qed.
Lemma minted_read_edge v a a' i : rel v a → minted a a' → read_edge a' i = read_edge a i.
Proof.
  intros Hrel Hm. unfold read_edge. destruct (Hm) as (_ & -> & _). destruct (a_edges a !! i) eqn:E; [|done].
  simpl. apply minted_read; [done|]. by eapply table_gens; [apply Hrel|].
Qed.
Lemma minted_read_meta v a a' k : rel v a → minted a a' → read_meta a' k = read_meta a k.
Proof.
  intros Hrel Hm. unfold read_meta. destruct (Hm) as (_ & _ & -> & _). destruct (a_meta a !! k) eqn:E; [|done].
  simpl. apply minted_read; [done|]. by eapply (table_gens _ id); [apply Hrel|].
Qed.
End spec.
