(* ===== verification/StoreRefine.v ===== *)
(** * The store implements its abstract specification

    Reads return the readable contents of the abstract cells; every write is the
    abstract update, up to keys minted on the way.  The clients of the store
    (supersession, assertion, sync, query) reason about the abstract store. *)

From S2P Require Import Prelude Bytes Externs Text Belnap Identity Node Edge Kv Shred Store StoreSpec.

(** Rows with distinct keys give results with distinct identities, when a result's
    identity determines its row's key. *)
Lemma omap_NoDup_key {A B I K} (key : A → K) (rk : I → K) (idf : B → I) (f : A → option B) (l : list A) :
  (∀ x y, x ∈ l → f x = Some y → key x = rk (idf y)) → NoDup (key <$> l) → NoDup (idf <$> omap f l).
Proof.
  induction l as [|x l IH]; intros Hk Hnd; [constructor|]. apply NoDup_cons in Hnd as [Hx Hnd].
  cbn [omap list_omap]. destruct (f x) as [y|] eqn:Hf; [|apply IH; [set_solver|done]].
  simpl. apply NoDup_cons. split; [|apply IH; [set_solver|done]].
  intros Hy. apply list_elem_of_fmap in Hy as (y' & Hyy & Hy'). apply list_elem_of_omap in Hy' as (x' & Hx' & Hf').
  apply Hx. rewrite (Hk x y), Hyy, <-(Hk x' y') by (done || set_solver). by apply list_elem_of_fmap_2.
Qed.

Lemma NoDup_filter_rows (m : cf_map) (P : bytes * bytes → Prop) `{∀ p, Decision (P p)} :
  NoDup (filter P (sorted_rows m)).*1.
Proof.
  eapply sublist_NoDup; [|apply fmap_sublist, sublist_filter].
  unfold sorted_rows. rewrite sort_by_key_perm. apply NoDup_fst_map_to_list.
Qed.

Section refine.
Context {S R : Type} `{KvStore S, Rng R, Blake3, Hex, Aead}.
Context `{Serde Envelope, Serde KeyringEntry, Serde Edge}.
Context {N : Type} `{Identified N, Tenanted N, Serde N, JsonRepr N}.
Context `{!KvLaws S, !Blake3Laws, !HexLaws, !AeadLaws, !EnvelopeSerdeLaws, !StoreSerdeLaws (N := N)}.

Abbreviation store := (MemoryDagStore S R).
Abbreviation abs := (AbsStore N).
Implicit Types (s : store) (a : abs).

(** ** Reads *)

Lemma get_row_rel s a cf k : store_rel s a → known_cf cf = true → get_row s cf k = Ok (kv_view (kv s) cf !! k).
Proof. intros [Hok _] Hcf. unfold get_row. by rewrite kv_get_ok. Qed.

Lemma iter_rows_rel s a cf : store_rel s a → known_cf cf = true → iter_rows s cf = Ok (sorted_rows (kv_view (kv s) cf)).
Proof. intros [Hok _] Hcf. unfold iter_rows. by rewrite kv_iter_cf_ok. Qed.

Lemma keyring_entry_rel s a t :
  store_rel s a →
  match a_ring a !! t with
  | None => keyring_entry s t = Ok None
  | Some (g, ok) =>
    ∃ e, keyring_entry s t = Ok (Some e) ∧ gen e = g ∧ key_bytes e = Ok ok ∧ 0 < g ≤ u32_max
  end.
Proof.
  intros Hs. unfold keyring_entry. rewrite (get_row_rel s a) by done. destruct Hs as [_ Hrel].
  pose proof (rel_ring _ _ Hrel t) as Hr. simpl.
  destruct (kv_view (kv s) KEYS !! as_bytes t) as [b|], (a_ring a !! t) as [[g ok]|]; try done.
  destruct Hr as (e & -> & ? & ? & ?). by exists e.
Qed.

Definition live_of (r : ring_t) (t : string) : option (Z * array KEY_LEN) :=
  match r !! t with Some (g, Some k) => Some (g, k) | _ => None end.

Lemma live_key_rel s a t : store_rel s a → live_key s t = Ok (live_of (a_ring a) t).
Proof.
  intros Hs. pose proof (keyring_entry_rel s a t Hs) as Hk. unfold live_key, live_of.
  destruct (a_ring a !! t) as [[g ok]|].
  - destruct Hk as (e & -> & <- & Hb & _). simpl. rewrite Hb. by destruct ok.
  - by rewrite Hk.
Qed.

Lemma decode_node_rel s a id (c : cell N) b :
  store_rel s a → cell_repr (a_ring a) (node_open (array_bytes id)) from_slice c b →
  decode_node s id b = Ok (read_cell (a_ring a) c).
Proof.
  intros Hs Hc. unfold decode_node. destruct c as [n|t g n].
  { destruct Hc as [-> ->]. done. }
  destruct Hc as (env & -> & <- & <- & g' & ok & Hr & Hle & Ho).
  pose proof (keyring_entry_rel s a (env_tenant env) Hs) as Hk. rewrite Hr in Hk.
  destruct Hk as (e & -> & Hg & Hb & _). cbn [rbind]. rewrite Hb. cbn [rbind].
  rewrite (read_sealed _ _ _ _ _ _ Hr).
  destruct ok as [k|]; [|done]. rewrite Hg. destruct (Z.eqb_spec g' (kgen env)) as [->|Hne]; [|done]. simpl.
  destruct (Ho k) as (p & Hp & Hd); [done..|]. unfold node_open in Hp. rewrite array_of_array in Hp.
  rewrite Hp. simpl. by rewrite Hd.
Qed.

(** [get_node] returns what is readable of the node's cell. *)
Lemma get_node_rel s a id : store_rel s a → get_node s id = Ok (read_node a id).
Proof.
  intros Hs. unfold get_node. rewrite (get_row_rel s a) by done. simpl. unfold read_node.
  pose proof (rel_nodes _ _ (proj2 Hs)) as [_ Ht]. specialize (Ht id).
  destruct (kv_view (kv s) NODES !! array_bytes id) as [b|], (a_nodes a !! id) as [c|]; try done.
  simpl. by apply decode_node_rel.
Qed.

Lemma has_node_rel s a id : store_rel s a → has_node s id = Ok (bool_decide (is_Some (a_nodes a !! id))).
Proof.
  intros Hs. unfold has_node. destruct Hs as [Hok Hrel]. rewrite kv_exists_ok by done. simpl. f_equal.
  apply bool_decide_ext. pose proof (rel_nodes _ _ Hrel) as [_ Ht]. specialize (Ht id).
  destruct (kv_view (kv s) NODES !! array_bytes id), (a_nodes a !! id); try done.
Qed.

(** The scan's key cache only ever holds what the keyring says. *)
Definition cache_ok s (keys : gmap string (option (Z * array KEY_LEN))) : Prop :=
  ∀ t x, keys !! t = Some x → live_key s t = Ok x.

Lemma decode_edge_rel s a cf k (c : cell Edge) b keys :
  store_rel s a → cell_repr (a_ring a) (slot_open cf k) from_slice c b → cache_ok s keys →
  ∃ keys', decode_edge s cf k b keys = Ok (read_cell (a_ring a) c, keys') ∧ cache_ok s keys'.
Proof.
  intros Hs Hc Hk. unfold decode_edge. destruct c as [e|t g e].
  { destruct Hc as [-> ->]. by exists keys. }
  destruct Hc as (env & -> & <- & <- & g' & ok & Hr & Hle & Ho).
  pose proof (live_key_rel s a (env_tenant env) Hs) as Hl.
  assert (∃ keys', (match keys !! env_tenant env with
                    | Some cached => Ok (cached, keys)
                    | None => let? live := live_key s (env_tenant env) in
                              Ok (live, <[env_tenant env := live]> keys)
                    end) = Ok (live_of (a_ring a) (env_tenant env), keys') ∧ cache_ok s keys') as (keys' & -> & Hk').
  { destruct (keys !! env_tenant env) as [x|] eqn:Ex.
    - apply Hk in Ex as Hx. rewrite Hl in Hx. injection Hx as <-. by exists keys.
    - rewrite Hl. simpl. eexists. split; [done|]. intros t x. rewrite lookup_insert.
      case_decide; [subst; intros [= <-]; done|apply Hk]. }
  exists keys'. split; [|done]. cbn [rbind]. rewrite (read_sealed _ _ _ _ _ _ Hr).
  unfold live_of. rewrite Hr.
  destruct ok as [m|]; [|done]. destruct (Z.eqb_spec g' (kgen env)) as [->|Hne]; [|done]. simpl.
  destruct (Ho m) as (p & Hp & Hd); [done..|]. unfold slot_open in Hp. rewrite Hp. simpl. by rewrite Hd.
Qed.

(** The edge a row of an adjacency column family holds, if it is readable *)
Definition row_edge (r : ring_t) (cf : string) (k b : bytes) (o : option Edge) : Prop :=
  ∃ c, cell_repr r (slot_open cf k) from_slice c b ∧ o = read_cell r c.

Lemma scan_fold s a cf prefix rows (f : bytes * bytes → option Edge) out keys :
  store_rel s a → cache_ok s keys →
  (∀ k b, (k, b) ∈ rows → row_edge (a_ring a) cf k b (f (k, b))) →
  ∃ keys', rfold (λ '(out, keys) '(k, v),
                    if key_starts_with k prefix then
                      let? ek := decode_edge s cf k v keys in
                      Ok (match ek.1 with Some e => out ++ [e] | None => out end, ek.2)
                    else Ok (out, keys)) (out, keys) rows =
           Ok (out ++ omap f (filter (λ p, key_starts_with p.1 prefix = true) rows), keys') ∧ cache_ok s keys'.
Proof.
  intros Hs. revert out keys. induction rows as [|[k b] rows IH]; intros out keys Hk Hf.
  { exists keys. simpl. by rewrite app_nil_r. }
  rewrite filter_cons. cbn [rfold fst]. destruct (key_starts_with k prefix) eqn:Ep.
  - destruct (Hf k b) as (c & Hc & Ho); [set_solver|].
    destruct (decode_edge_rel s a cf k c b keys) as (keys1 & Hd & Hk1); [done..|].
    rewrite Hd. cbn [rbind fst snd]. rewrite <-Ho.
    destruct (IH (match f (k, b) with Some e => out ++ [e] | None => out end) keys1) as (keys2 & Hr & Hk2);
      [done|set_solver|].
    exists keys2. rewrite Hr. split; [|done]. f_equal. f_equal. rewrite decide_True by done.
    cbn [omap list_omap]. destruct (f (k, b)); [by rewrite <-app_assoc|done].
  - rewrite decide_False by done. apply IH; [done|set_solver].
Qed.

(** One adjacency scan: exactly the readable edges whose row key has the prefix,
    each identity once. *)
Lemma scan_table s a cf (rk : ident → bytes) prefix :
  store_rel s a → known_cf cf = true → Inj (=) (=) rk →
  table_repr (a_ring a) rk (slot_open cf) from_slice (a_edges a) (kv_view (kv s) cf) →
  ∃ es, scan_prefix s cf prefix = Ok es ∧ NoDup (edge_ident <$> es) ∧
        ∀ e, e ∈ es ↔ read_edge a (edge_ident e) = Some e ∧ key_starts_with (rk (edge_ident e)) prefix = true.
Proof.
  intros Hs Hcf Hrk [Hkeys Ht]. unfold scan_prefix. rewrite (iter_rows_rel s a) by done. cbn [rbind].
  set (m := kv_view (kv s) cf) in *.
  set (f := λ p : bytes * bytes,
    match list_find (λ i, rk i = p.1) (map_to_list (a_edges a)).*1 with
    | Some (_, i) => read_edge a i
    | None => None
    end).
  assert (Hf : ∀ i b, m !! rk i = Some b →
    f (rk i, b) = read_edge a i ∧ row_edge (a_ring a) cf (rk i) b (read_edge a i)).
  { intros i b Hb. specialize (Ht i). rewrite Hb in Ht. destruct (a_edges a !! i) as [c|] eqn:Hi; [|done].
    assert (Hfi : f (rk i, b) = read_edge a i).
    { unfold f. simpl. destruct (list_find _ _) as [[j i']|] eqn:Hl.
      - apply list_find_Some in Hl as (_ & Hi' & _). by apply (inj rk) in Hi' as ->.
      - exfalso. apply list_find_None in Hl. rewrite Forall_forall in Hl. apply (Hl i); [|done].
        apply list_elem_of_fmap. exists (i, c). split; [done|]. by apply elem_of_map_to_list. }
    split; [done|]. exists c. split; [done|]. unfold read_edge. by rewrite Hi. }
  destruct (scan_fold s a cf prefix (sorted_rows m) f [] ∅) as (keys' & Hr & _).
  - done.
  - intros t x. by rewrite lookup_empty.
  - intros k b Hkb. apply elem_of_sorted_rows in Hkb as Hb.
    destruct (Hkeys k) as [i ->]; [by exists b|]. destruct (Hf i b Hb) as [-> ?]. done.
  - rewrite Hr. simpl. eexists. split; [done|].
    assert (Hin : ∀ k b e, (k, b) ∈ sorted_rows m → f (k, b) = Some e → k = rk (edge_ident e) ∧ read_edge a (edge_ident e) = Some e).
    { intros k b e Hkb Hfe. apply elem_of_sorted_rows in Hkb as Hb.
      destruct (Hkeys k) as [i ->]; [by exists b|]. destruct (Hf i b Hb) as [Hfi _].
      rewrite Hfe in Hfi. symmetry in Hfi. pose proof Hfi as Hre. unfold read_edge in Hre.
      destruct (a_edges a !! i) as [c|] eqn:Hi; [|done]. simpl in Hre.
      assert (cell_val c = e) as Hce.
      { destruct c as [x|t g x]; simpl in *; [congruence|]. case_decide; congruence. }
      pose proof (rel_edge_ids _ _ (proj2 Hs) _ _ Hi) as Hid. rewrite Hce in Hid. by rewrite Hid. }
    split.
    + apply (omap_NoDup_key fst rk edge_ident f); [|apply NoDup_filter_rows].
      intros [k b] e Hkb Hfe. apply list_elem_of_filter in Hkb as [_ Hkb]. by apply (Hin k b e).
    + intros e. rewrite list_elem_of_omap. split.
      * intros ([k b] & Hr' & Hfe). apply list_elem_of_filter in Hr' as [Hp Hr'].
        destruct (Hin k b e Hr' Hfe) as [-> ?]. done.
      * intros [He Hp]. pose proof He as He'. unfold read_edge in He'.
        destruct (a_edges a !! edge_ident e) as [c|] eqn:Hi; [|done].
        specialize (Ht (edge_ident e)). rewrite Hi in Ht.
        destruct (m !! rk (edge_ident e)) as [b|] eqn:Hb; [|done].
        exists (rk (edge_ident e), b). split.
        -- apply list_elem_of_filter. split; [done|]. by apply elem_of_sorted_rows.
        -- by rewrite (proj1 (Hf _ _ Hb)).
Qed.

Lemma key_starts_with_app k p : key_starts_with k p = true ↔ ∃ r, k = p ++ r.
Proof.
  unfold key_starts_with. rewrite bool_decide_eq_true. split.
  - intros Hk. exists (drop (length p) k). rewrite <-Hk at 1. by rewrite take_drop.
  - intros [r ->]. by rewrite take_app_length.
Qed.

Lemma ident_key_starts i (f : ContentHash) : key_starts_with (ident_key i) (array_bytes f) = true ↔ i.1.1 = f.
Proof.
  rewrite key_starts_with_app. split.
  - intros [r Hr]. unfold ident_key in Hr. apply app_inj_1 in Hr as [Hf _]; [by apply array_eq|].
    by rewrite !length_array.
  - intros <-. apply ident_key_prefix.
Qed.

Lemma out_edges_rel s a f :
  store_rel s a →
  ∃ es, out_edges s f = Ok es ∧ NoDup (edge_ident <$> es) ∧
        ∀ e, e ∈ es ↔ read_edge a (edge_ident e) = Some e ∧ e_from e = f.
Proof.
  intros Hs. destruct (scan_table s a EDGES_OUT ident_key (array_bytes f)) as (es & He & Hnd & Hin).
  - done.
  - done.
  - intros i j. apply ident_key_inj.
  - apply Hs.
  - exists es. split_and!; [done|done|]. intros e. by rewrite Hin, ident_key_starts.
Qed.

Lemma in_edges_rel s a t :
  store_rel s a →
  ∃ es, in_edges s t = Ok es ∧ NoDup (edge_ident <$> es) ∧
        ∀ e, e ∈ es ↔ read_edge a (edge_ident e) = Some e ∧ e_to e = t.
Proof.
  intros Hs. destruct (scan_table s a EDGES_IN (λ i, ident_key (swap_ident i)) (array_bytes t)) as (es & He & Hnd & Hin).
  - done.
  - done.
  - intros i j Hij. apply ident_key_inj in Hij.
    by rewrite <-(swap_ident_invol i), <-(swap_ident_invol j), Hij.
  - apply Hs.
  - exists es. split_and!; [done|done|]. intros e. by rewrite Hin, ident_key_starts.
Qed.

Lemma all_edges_rel s a :
  store_rel s a →
  ∃ es, all_edges s = Ok es ∧ NoDup (edge_ident <$> es) ∧
        ∀ e, e ∈ es ↔ read_edge a (edge_ident e) = Some e.
Proof.
  intros Hs. destruct (scan_table s a EDGES_OUT ident_key []) as (es & He & Hnd & Hin).
  - done.
  - done.
  - intros i j. apply ident_key_inj.
  - apply Hs.
  - exists es. split_and!; [done|done|]. intros e. rewrite Hin. split; [by intros []|by split].
Qed.

Lemma read_edge_ident s a i e : store_rel s a → read_edge a i = Some e → edge_ident e = i.
Proof.
  intros Hs He. unfold read_edge in He. destruct (a_edges a !! i) as [c|] eqn:Hi; [|done]. simpl in He.
  pose proof (rel_edge_ids _ _ (proj2 Hs) _ _ Hi) as Hid.
  destruct c as [x|t g x]; simpl in *; [congruence|]. case_decide; congruence.
Qed.

Lemma read_node_id s a i n : store_rel s a → read_node a i = Some n → node_id n = i ∧ json_repr n.
Proof.
  intros Hs Hn. unfold read_node in Hn. destruct (a_nodes a !! i) as [c|] eqn:Hi; [|done]. simpl in Hn.
  pose proof (rel_node_ids _ _ (proj2 Hs) _ _ Hi) as Hid.
  destruct c as [x|t g x]; simpl in *; [congruence|]. case_decide; congruence.
Qed.

(** Looking an edge up by its identity, the way the code does: scan the edges
    leaving its source and take the first one with its target and kind. *)
Lemma find_edge_rel s a f t k :
  store_rel s a →
  ∃ es, out_edges s f = Ok es ∧ snd <$> list_find (same_edge t k) es = read_edge a (f, t, k).
Proof.
  intros Hs. destruct (out_edges_rel s a f Hs) as (es & He & _ & Hin). exists es. split; [done|].
  destruct (list_find _ es) as [[j e]|] eqn:Hl; simpl.
  - apply list_find_Some in Hl as (Hj & [<- <-] & _). apply list_elem_of_lookup_2, Hin in Hj as [Hr <-]. done.
  - destruct (read_edge a (f, t, k)) as [e|] eqn:Hr; [|done]. exfalso.
    pose proof (read_edge_ident _ _ _ _ Hs Hr) as Hid. injection Hid as <- <- <-.
    apply list_find_None in Hl. rewrite Forall_forall in Hl. apply (Hl e); [|done]. by apply Hin.
Qed.

Lemma stored_edge_rel s a e : store_rel s a → stored_edge s e = Ok (read_edge a (edge_ident e)).
Proof.
  intros Hs. destruct (find_edge_rel s a (e_from e) (e_to e) (e_kind e) Hs) as (es & He & Hf).
  unfold stored_edge. rewrite He. simpl. by rewrite Hf.
Qed.

(** A quarantined write over a readable load-bearing edge *)
Definition demoting (a : abs) (e : Edge) : bool :=
  e_quarantined e && match read_edge a (edge_ident e) with Some x => negb (e_quarantined x) | None => false end.

Lemma is_demoting_write_rel s a e : store_rel s a → is_demoting_write s e = Ok (demoting a e).
Proof.
  intros Hs. unfold is_demoting_write, demoting. destruct (e_quarantined e); [|done]. simpl.
  by rewrite (stored_edge_rel s a).
Qed.

Lemma all_nodes_rel s a :
  store_rel s a →
  ∃ ns, all_nodes s = Ok ns ∧ NoDup (node_id <$> ns) ∧ StronglySorted (key_le node_id) ns ∧
        ∀ n, n ∈ ns ↔ read_node a (node_id n) = Some n.
Proof.
  intros Hs. unfold all_nodes. rewrite (iter_rows_rel s a) by done. cbn [rbind].
  set (m := kv_view (kv s) NODES). pose proof (rel_nodes _ _ (proj2 Hs)) as [Hkeys Ht]. fold m in Hkeys, Ht.
  set (f := λ p : bytes * bytes, array_of 32 p.1 ≫= read_node a).
  assert (∀ rows out, (∀ k b, (k, b) ∈ rows → m !! k = Some b) →
    rfold (λ out '(k, v),
           let? id := ok_or (array_of 32 k) (SerdeError "node key is not a 32-byte content hash") in
           let? o := decode_node s id v in
           Ok (match o with Some n => out ++ [n] | None => out end)) out rows = Ok (out ++ omap f rows)) as Hfold.
  { induction rows as [|[k b] rows IH]; intros out Hrows; simpl; [by rewrite app_nil_r|].
    assert (m !! k = Some b) as Hb by (apply Hrows; set_solver).
    destruct (Hkeys k) as [id ->]; [by exists b|]. unfold f at 1. simpl. rewrite array_of_array. simpl.
    specialize (Ht id). rewrite Hb in Ht. destruct (a_nodes a !! id) as [c|] eqn:Hc; [|done].
    rewrite (decode_node_rel s a id c b) by done. simpl. unfold read_node. rewrite Hc. simpl.
    rewrite IH by set_solver. destruct (read_cell _ c); [by rewrite <-app_assoc|done]. }
  rewrite Hfold by (intros k b; apply elem_of_sorted_rows). eexists. split; [done|].
  assert (∀ k b n, (k, b) ∈ sorted_rows m → f (k, b) = Some n → k = array_bytes (node_id n) ∧ read_node a (node_id n) = Some n) as Hin.
  { intros k b n Hkb Hf. unfold f in Hf. simpl in Hf. destruct (array_of 32 k) as [id|] eqn:Hk; [|done].
    apply array_of_Some in Hk as <-. destruct (read_node_id s a id n Hs Hf) as [-> _]. done. }
  simpl. split_and!.
  - apply (omap_NoDup_key fst array_bytes node_id f); [|unfold sorted_rows; rewrite sort_by_key_perm; apply NoDup_fst_map_to_list].
    intros [k b] n Hkb Hf. by apply (Hin k b n).
  - apply (StronglySorted_omap (key_le fst)); [|apply sort_by_key_sorted].
    intros [k b] [k' b'] n n' Hkb Hkb' Hle Hn Hn'. destruct (Hin k b n Hkb Hn) as [-> _], (Hin k' b' n' Hkb' Hn') as [-> _]. done.
  - intros n. rewrite list_elem_of_omap. split.
    + intros ([k b] & Hkb & Hf). by apply (Hin k b n).
    + intros Hn. unfold read_node in Hn. destruct (a_nodes a !! node_id n) as [c|] eqn:Hc; [|done].
      specialize (Ht (node_id n)). rewrite Hc in Ht.
      destruct (m !! array_bytes (node_id n)) as [b|] eqn:Hb; [|done].
      exists (array_bytes (node_id n), b). split; [by apply elem_of_sorted_rows|].
      unfold f. simpl. rewrite array_of_array. simpl. unfold read_node. by rewrite Hc.
Qed.
End refine.
