(* ===== verification/StoreWrite.v ===== *)
(** * The store's writes implement the abstract updates

    Every write is the abstract row update on the store it started from, up to
    keys minted for tenants that had none; a write that fails leaves every
    readable value as it was. *)

From S2P Require Import Prelude Bytes Externs Text Belnap Identity Node Edge Kv Shred Store StoreSpec StoreRefine.

(** A value written now: plain, or sealed under its tenant's live key *)
Definition fresh_cell {A} (sealing : bool) (r : ring_t) (t : string) (x : A) (c : cell A) : Prop :=
  if sealing then ∃ g k, r !! t = Some (g, Some k) ∧ c = Sealed t g x else c = Plain x.

Lemma fresh_read {A} b r t (x : A) c : fresh_cell b r t x c → read_cell r c = Some x.
Proof.
  destruct b; simpl; [|by intros ->]. intros (g & k & Hr & ->).
  rewrite (read_sealed _ _ _ _ _ _ Hr). by rewrite Z.eqb_refl.
Qed.

Lemma fresh_val {A} b r t (x : A) c : fresh_cell b r t x c → cell_val c = x.
Proof. destruct b; [by intros (g & k & _ & ->)|by intros ->]. Qed.

Section write.
Context {S R : Type} `{KvStore S, Rng R, Blake3, Hex, Aead}.
Context `{Serde Envelope, Serde KeyringEntry, Serde Edge}.
Context {N : Type} `{Identified N, Tenanted N, Serde N, JsonRepr N}.
Context `{!KvLaws S, !Blake3Laws, !HexLaws, !AeadLaws, !EnvelopeSerdeLaws, !StoreSerdeLaws (N := N)}.

Abbreviation store := (MemoryDagStore S R).
Abbreviation abs := (AbsStore N).
Implicit Types (s : store) (a : abs).

(** No shredded tenant is at the last key generation, so minting does not wrap. *)
Definition mintable (a : abs) : Prop := ∀ t g, a_ring a !! t = Some (g, None) → g < u32_max.

Lemma minted_mintable a a' : minted a a' → mintable a → mintable a'.
Proof.
  intros (_ & _ & _ & Hr) Hm t g Ht. destruct (Hr t) as [E|[(k & E1 & E2)|(g' & k & E1 & E2)]]; [|congruence..].
  apply (Hm t). congruence.
Qed.

Lemma minted_fresh {A} a a' b t (x : A) c :
  minted a a' → fresh_cell b (a_ring a) t x c → fresh_cell b (a_ring a') t x c.
Proof.
  intros (_ & _ & _ & Hr). destruct b; [|done]. intros (g & k & Ht & ->).
  exists g, k. split; [|done]. destruct (Hr t) as [E|[(k' & E1 & E2)|(g' & k' & E1 & E2)]]; congruence.
Qed.

(** From [s] to [s'] only keys were minted. *)
Definition mints s a s' a' : Prop :=
  store_rel s' a' ∧ minted a a' ∧ encrypt_at_rest s' = encrypt_at_rest s.

Lemma mints_refl s a : store_rel s a → mints s a s a.
Proof. intros Hs. by split_and!. Qed.

Lemma mints_trans s a s1 a1 s2 a2 : mints s a s1 a1 → mints s1 a1 s2 a2 → mints s a s2 a2.
Proof. intros (_ & Hm & He) (Hs & Hm' & He'). split_and!; [done|by etrans|congruence]. Qed.

Lemma on_put s cf k v :
  kv_ok (kv s) → known_cf cf = true →
  ∃ s', on_kv (kv_put cf k v) s = (s', Ok tt) ∧ kv_ok (kv s') ∧ encrypt_at_rest s' = encrypt_at_rest s ∧
        ∀ c, kv_view (kv s') c = view_put cf k v (kv_view (kv s)) c.
Proof.
  intros Hok Hcf. destruct (kv_put_ok (kv s) cf k v Hok Hcf) as (k' & Hp & Hok' & Hv).
  unfold on_kv. rewrite Hp. simpl. by eexists.
Qed.

Lemma on_batch s ops :
  kv_ok (kv s) → known_ops ops = true →
  ∃ s', on_kv (kv_write_batch ops) s = (s', Ok tt) ∧ kv_ok (kv s') ∧ encrypt_at_rest s' = encrypt_at_rest s ∧
        ∀ c, kv_view (kv s') c = view_ops (kv_view (kv s)) ops c.
Proof.
  intros Hok Hcf. destruct (kv_write_batch_ok (kv s) ops Hok Hcf) as (k' & Hp & Hok' & Hv).
  unfold on_kv. rewrite Hp. simpl. by eexists.
Qed.

(** Writing a keyring entry that may follow the current one *)
Lemma put_keyring_entry_rel s a t e ok :
  store_rel s a → ring_le (a_ring a) (<[t := (gen e, ok)]> (a_ring a)) → key_bytes e = Ok ok →
  0 < gen e ≤ u32_max →
  ∃ s', put_keyring_entry t e s = (s', Ok tt) ∧ store_rel s' (set_ring t (gen e, ok) a) ∧
        encrypt_at_rest s' = encrypt_at_rest s.
Proof.
  intros [Hok Hrel] Hle Hk Hg. unfold put_keyring_entry. destruct (ring_to_vec e) as (b & Hto & Hfrom).
  rewrite Hto. unfold sbind, slift. cbn [map_err].
  destruct (on_put s KEYS (as_bytes t) b Hok eq_refl) as (s' & Hp & Hok' & He & Hv). rewrite Hp.
  exists s'. split_and!; [done| |done]. split; [done|].
  eapply rel_ext; [intros c; symmetry; apply Hv|]. by eapply rel_put_ring.
Qed.

Lemma ring_le_insert (r : ring_t) t g ok g' ok' :
  r !! t = Some (g, ok) → g ≤ g' → (g' = g → ok' = ok ∨ ok' = None) → ring_le r (<[t := (g', ok')]> r).
Proof.
  intros Hr Hle Hok t' h oh Ht'. destruct (decide (t = t')) as [<-|Hne].
  - rewrite Hr in Ht'. injection Ht' as <- <-. exists g', ok'. by rewrite lookup_insert_eq.
  - exists h, oh. rewrite lookup_insert_ne by done. split_and!; [done|lia|auto].
Qed.
Lemma ring_le_new (r : ring_t) t p : r !! t = None → ring_le r (<[t := p]> r).
Proof.
  intros Hr t' h oh Ht'. assert (t ≠ t') by congruence.
  exists h, oh. rewrite lookup_insert_ne by done. split_and!; [done|lia|auto].
Qed.

(** [generate_key]: the random source, and nothing else, changes. *)
Lemma on_generate s a :
  store_rel s a →
  ∃ s' r, on_rng generate_key s = (s', r) ∧ store_rel s' a ∧ encrypt_at_rest s' = encrypt_at_rest s.
Proof.
  intros [Hok Hrel]. unfold on_rng. destruct (generate_key (os_rng s)) as [g r]. by eexists _, r.
Qed.

Lemma mint_key_rel s a t g0 g k :
  store_rel s a → g = g0 + 1 → 0 < g ≤ u32_max →
  (a_ring a !! t = None ∧ g0 = 0 ∨ a_ring a !! t = Some (g0, None)) →
  ∃ s', put_keyring_entry t {| gen := g; key := Some (hex_encode (array_bytes k)) |} s = (s', Ok tt) ∧
        mints s a s' (set_ring t (g, Some k) a).
Proof.
  intros Hs -> Hg Hr.
  destruct (put_keyring_entry_rel s a t {| gen := g0 + 1; key := Some (hex_encode (array_bytes k)) |} (Some k))
    as (s' & Hp & Hs' & He); simpl; [done| |apply key_bytes_encode|done|].
  - destruct Hr as [[Hr ->]|Hr]; [by apply ring_le_new|].
    eapply ring_le_insert; [done|lia|lia].
  - exists s'. split; [done|]. split_and!; [done| |done].
    repeat split; try done. intros t'. simpl. destruct (decide (t = t')) as [<-|Hne].
    + right. rewrite lookup_insert_eq. destruct Hr as [[Hr ->]|Hr]; [left; by exists k|right; by exists g0, k].
    + left. by rewrite lookup_insert_ne.
Qed.

Lemma wrapping_add32_small g : 0 ≤ g < u32_max → wrapping_add32 g 1 = g + 1.
Proof. intros Hg. unfold wrapping_add32, u32_max in *. apply Z.mod_small. lia. Qed.

Lemma ensure_tenant_key_rel s a t :
  store_rel s a → mintable a →
  ∃ s' a' r, ensure_tenant_key t s = (s', r) ∧ mints s a s' a' ∧
             ∀ g k, r = Ok (g, k) → a_ring a' !! t = Some (g, Some k).
Proof.
  intros Hs Hm. pose proof (keyring_entry_rel s a t Hs) as Hk.
  unfold ensure_tenant_key, sread, slift. unfold sbind at 1.
  assert (∀ g0, 0 ≤ g0 < u32_max → (a_ring a !! t = None ∧ g0 = 0 ∨ a_ring a !! t = Some (g0, None)) →
    ∃ s' a' r, (let! k := on_rng generate_key in
                let! _ := put_keyring_entry t {| gen := wrapping_add32 g0 1; key := Some (hex_encode (array_bytes k)) |} in
                sret (wrapping_add32 g0 1, k)) s = (s', r) ∧ mints s a s' a' ∧
      ∀ g k, r = Ok (g, k) → a_ring a' !! t = Some (g, Some k)) as Hmint.
  { intros g0 Hg0 Hr. destruct (on_generate s a Hs) as (s1 & r & Hgen & Hs1 & He1).
    unfold sbind at 1. rewrite Hgen. destruct r as [k|e].
    - destruct (mint_key_rel s1 a t g0 (wrapping_add32 g0 1) k) as (s2 & Hp & Hmn);
        [done|by apply wrapping_add32_small|rewrite wrapping_add32_small by done; lia|done|].
      unfold sbind. rewrite Hp. eexists s2, _, _. split; [done|]. split.
      + eapply mints_trans; [|done]. by split_and!.
      + intros g' k' [= <- <-]. simpl. by rewrite lookup_insert_eq.
    - eexists s1, a, _. split; [done|]. split; [by split_and!|done]. }
  destruct (a_ring a !! t) as [[g [k|]]|] eqn:Hr.
  - destruct Hk as (e & -> & Hg & Hb & _). unfold sbind at 1. rewrite Hb. simpl. rewrite Hg.
    eexists s, a, _. split; [done|]. split; [by apply mints_refl|]. by intros g' k' [= <- <-].
  - destruct Hk as (e & -> & Hg & Hb & Hge). unfold sbind at 1. rewrite Hb. simpl. rewrite Hg.
    apply Hmint; [|by right]. specialize (Hm _ _ Hr). lia.
  - rewrite Hk. unfold sbind at 1. simpl. apply Hmint; [by unfold u32_max|by left].
Qed.

(** ** Steps that mint at most

    [runs m s a Q]: from [s], [m] mints keys and does nothing else, what it
    returns satisfies [Q], and it fails only on a store that seals (the random
    source, the cipher, or an edge with no stored endpoint). *)
Definition runs {A} (m : stm store StoreError A) s a (Q : store → abs → A → Prop) : Prop :=
  ∃ s' a' r, m s = (s', r) ∧ mints s a s' a' ∧
    match r with Ok x => Q s' a' x | Err _ => encrypt_at_rest s = true end.

Lemma runs_ret {A} (x : A) s a (Q : store → abs → A → Prop) : store_rel s a → Q s a x → runs (sret x) s a Q.
Proof. intros Hs HQ. eexists s, a, _. split; [done|]. split; [by apply mints_refl|done]. Qed.

Lemma runs_lift {A} (r : result StoreError A) s a (Q : store → abs → A → Prop) :
  store_rel s a → match r with Ok x => Q s a x | Err _ => encrypt_at_rest s = true end → runs (slift r) s a Q.
Proof. intros Hs HQ. eexists s, a, _. split; [done|]. split; [by apply mints_refl|done]. Qed.

Lemma runs_bind {A B} (m : stm store StoreError A) (k : A → stm store StoreError B) s a Q Q' :
  runs m s a Q → (∀ s1 a1 x, mints s a s1 a1 → Q s1 a1 x → runs (k x) s1 a1 Q') → runs (sbind m k) s a Q'.
Proof.
  intros (s1 & a1 & r & Hm & Hmi & HQ) Hk. unfold runs, sbind. rewrite Hm. destruct r as [x|e].
  - destruct (Hk s1 a1 x) as (s2 & a2 & r2 & Hk2 & Hmi2 & HQ2); [done|done|].
    exists s2, a2, r2. split; [done|]. split; [by eapply mints_trans|].
    destruct Hmi as (_ & _ & He). by rewrite <-He.
  - eexists s1, a1, _. split; [done|]. by split.
Qed.

Lemma runs_bind_lift {A B} (r : result StoreError A) (k : A → stm store StoreError B) s a Q :
  store_rel s a → match r with Ok x => runs (k x) s a Q | Err _ => encrypt_at_rest s = true end →
  runs (sbind (slift r) k) s a Q.
Proof.
  intros Hs Hk. destruct r as [x|e]; [done|]. eexists s, a, _. split; [done|].
  split; [by apply mints_refl|done].
Qed.

Lemma runs_ensure s a t :
  store_rel s a → mintable a → encrypt_at_rest s = true →
  runs (ensure_tenant_key t) s a (λ _ a' gk, a_ring a' !! t = Some (gk.1, Some gk.2)).
Proof.
  intros Hs Hm Henc. destruct (ensure_tenant_key_rel s a t Hs Hm) as (s' & a' & r & He & Hmi & Hr).
  exists s', a', r. split; [done|]. split; [done|]. destruct r as [[g k]|]; [by apply Hr|done].
Qed.

Lemma runs_mono {A} (m : stm store StoreError A) s a (Q Q' : store → abs → A → Prop) :
  runs m s a Q → (∀ s' a' x, mints s a s' a' → Q s' a' x → Q' s' a' x) → runs m s a Q'.
Proof.
  intros (s1 & a1 & r & Hm & Hmi & HQ) Himp. exists s1, a1, r. split; [done|]. split; [done|].
  destruct r; [by apply Himp|done].
Qed.

Lemma runs_eq {A} (m m' : stm store StoreError A) s a Q : m s = m' s → runs m' s a Q → runs m s a Q.
Proof. unfold runs. by intros ->. Qed.

(** ** Encoding *)

(** The bytes of a value sealed under a tenant's live key hold its sealed cell. *)
Lemma sealed_cell {A} (r : ring_t) opn (dec : bytes → result string A) t g k (x : A) p b :
  r !! t = Some (g, Some k) → dec p = Ok x →
  (∃ env, parse_envelope b = Some env ∧ env_tenant env = t ∧ kgen env = g ∧ opn k env = Ok p) →
  cell_repr r opn dec (Sealed t g x) b.
Proof.
  intros Hr Hd (env & Hp & Ht & Hg & Ho). exists env. split_and!; [done..|].
  exists g, (Some k). split_and!; [done|done|]. intros k' [= <-] _. by exists p.
Qed.

Definition node_cell (sealing : bool) (r : ring_t) (n : N) (c : cell N) (b : bytes) : Prop :=
  fresh_cell sealing r (tenant n) n c ∧ cell_repr r (node_open (array_bytes (node_id n))) from_slice c b.

Lemma runs_encode_node s a (n : N) :
  store_rel s a → mintable a → json_repr n →
  runs (encode_node n) s a (λ _ a' b, ∃ c, node_cell (encrypt_at_rest s) (a_ring a') n c b).
Proof.
  intros Hs Hm Hj. unfold encode_node. destruct (node_to_vec n Hj) as (p & Hto & Hfrom & Hne).
  apply runs_bind_lift; [done|]. rewrite Hto. cbn [map_err]. unfold node_cell.
  destruct (encrypt_at_rest s) eqn:Henc.
  - eapply runs_eq; [rewrite Henc; reflexivity|]. eapply runs_bind; [by apply runs_ensure|].
    intros s2 a2 [g k] (Hs2 & _ & He) Hr. simpl in Hr. apply runs_lift; [done|].
    destruct (seal _ _ _ _ _) as [b|] eqn:Hb; [|congruence].
    exists (Sealed (tenant n) g n). split; [by exists g, k|]. eapply sealed_cell; [done|done|].
    destruct (seal_open _ _ _ _ _ _ Hb) as (env & ? & ? & ? & Ho). exists env. split_and!; try done.
    unfold node_open. by rewrite array_of_array.
  - apply (runs_eq _ (sret p)); [by rewrite Henc|]. apply runs_ret; [done|]. exists (Plain n). by split.
Qed.

(** The tenant of a stored node, readable or not *)
Definition node_tenant (a : abs) (id : ContentHash) : option string :=
  tenant ∘ cell_val <$> a_nodes a !! id.

Lemma stored_node_tenant_rel s a id :
  store_rel s a → stored_node_tenant (N := N) s id = Ok (node_tenant a id).
Proof.
  intros Hs. unfold stored_node_tenant. rewrite (get_row_rel s a) by done. simpl. destruct Hs as [_ Hrel].
  pose proof (rel_nodes _ _ Hrel) as [_ Ht]. specialize (Ht id). unfold node_tenant.
  destruct (kv_view (kv s) NODES !! array_bytes id) as [b|], (a_nodes a !! id) as [c|] eqn:Hc; try done.
  destruct c as [n|t g n]; simpl in *.
  - destruct Ht as [-> ->]. done.
  - destruct Ht as (env & -> & -> & _). by rewrite (rel_node_tenants _ _ Hrel _ _ _ _ Hc).
Qed.

(** The tenant an edge is sealed for: that of its source, else of its target,
    looked up in the batch first *)
Definition tenant_of (a : abs) (batch : gmap ContentHash string) (id : ContentHash) : option string :=
  match batch !! id with Some t => Some t | None => node_tenant a id end.
Definition edge_owner (a : abs) (batch : gmap ContentHash string) (e : Edge) : option string :=
  match tenant_of a batch (e_from e) with Some t => Some t | None => tenant_of a batch (e_to e) end.

Lemma edge_tenant_rel s a e batch :
  store_rel s a → rok (edge_tenant (N := N) s e batch) = edge_owner a batch e.
Proof.
  intros Hs. assert (∀ id, endpoint_tenant (N := N) s batch id = Ok (tenant_of a batch id)) as Hep.
  { intros id. unfold endpoint_tenant, tenant_of. destruct (batch !! id); [done|]. by apply stored_node_tenant_rel. }
  unfold edge_tenant, edge_owner. rewrite Hep. simpl. destruct (tenant_of a batch (e_from e)); [done|].
  rewrite Hep. simpl. by destruct (tenant_of a batch (e_to e)).
Qed.

Lemma minted_node_tenant a a' id : minted a a' → node_tenant a' id = node_tenant a id.
Proof. intros (Hn & _). unfold node_tenant. by rewrite Hn. Qed.
Lemma minted_edge_owner a a' batch e : minted a a' → edge_owner a' batch e = edge_owner a batch e.
Proof. intros Hm. unfold edge_owner, tenant_of. by rewrite !(minted_node_tenant a a'). Qed.

Definition edge_cell (sealing : bool) (r : ring_t) (owner : option string) (e : Edge) (c : cell Edge) : Prop :=
  if sealing then ∃ t, owner = Some t ∧ fresh_cell true r t e c else c = Plain e.

Lemma edge_cell_fresh b r o e c : edge_cell b r o e c → ∃ t, fresh_cell b r t e c.
Proof. destruct b; simpl; [naive_solver|]. intros ->. by exists "". Qed.

(** The rows an edge cell is written as, one per adjacency *)
Definition edge_ops (r : ring_t) (c : cell Edge) (ops : list KvOp) : Prop :=
  let i := edge_ident (cell_val c) in
  ∃ bo bi, ops = [Put EDGES_OUT (ident_key i) bo; Put EDGES_IN (ident_key (swap_ident i)) bi] ∧
    cell_repr r (slot_open EDGES_OUT (ident_key i)) from_slice c bo ∧
    cell_repr r (slot_open EDGES_IN (ident_key (swap_ident i))) from_slice c bi.

Lemma edge_ops_known r c ops : edge_ops r c ops → known_ops ops = true.
Proof. by intros (bo & bi & -> & _). Qed.

Lemma runs_edge_put_ops s a e batch :
  store_rel s a → mintable a →
  runs (edge_put_ops (N := N) e batch) s a
    (λ _ a' ops, ∃ c, edge_cell (encrypt_at_rest s) (a_ring a') (edge_owner a batch e) e c ∧ edge_ops (a_ring a') c ops).
Proof.
  intros Hs Hm. unfold edge_put_ops. destruct (edge_to_vec e) as (p & Hto & Hfrom & Hne).
  apply runs_bind_lift; [done|]. rewrite Hto. cbn [map_err]. rewrite in_key_ident.
  destruct (encrypt_at_rest s) eqn:Henc.
  - eapply runs_eq; [rewrite Henc; reflexivity|]. apply runs_bind_lift; [done|].
    destruct (edge_tenant s e batch) as [t|] eqn:Ht; [|done].
    apply (f_equal rok) in Ht. rewrite (edge_tenant_rel s a) in Ht by done.
    eapply runs_bind; [by apply runs_ensure|]. intros s1 a1 [g k] (Hs1 & Hmi & He) Hr. simpl in Hr.
    apply runs_bind_lift; [done|]. destruct (seal_at _ _ _ EDGES_OUT _ _) as [bo|] eqn:Hbo; [|congruence].
    apply runs_bind_lift; [done|]. destruct (seal_at _ _ _ EDGES_IN _ _) as [bi|] eqn:Hbi; [|congruence].
    apply runs_ret; [done|]. exists (Sealed t g e). split.
    + exists t. split; [done|]. by exists g, k.
    + exists bo, bi. split; [done|]. split; (eapply sealed_cell; [done|done|]); by apply seal_at_open.
  - eapply runs_eq; [rewrite Henc; reflexivity|]. apply runs_ret; [done|].
    exists (Plain e). split; [done|]. by exists p, p.
Qed.

(** ** Row writes *)

(** What a write did: on success [upd] of the store it reached by minting, on
    failure nothing but minting. *)
Definition writes {A} (m : stm store StoreError A) s a (upd : abs → abs → A → Prop) : Prop :=
  ∃ s' a1 r, m s = (s', r) ∧ minted a a1 ∧ encrypt_at_rest s' = encrypt_at_rest s ∧
    match r with
    | Ok x => ∃ a', store_rel s' a' ∧ upd a1 a' x
    | Err _ => store_rel s' a1 ∧ encrypt_at_rest s = true
    end.

Lemma writes_bind {A B} (m : stm store StoreError A) (k : A → stm store StoreError B) s a Q upd :
  runs m s a Q →
  (∀ s1 a1 x, mints s a s1 a1 → Q s1 a1 x → writes (k x) s1 a1 upd) → writes (sbind m k) s a upd.
Proof.
  intros (s1 & a1 & r & Hm & Hmi & HQ) Hk. unfold writes, sbind. rewrite Hm. destruct r as [x|e].
  - destruct (Hk s1 a1 x) as (s2 & a2 & r2 & Hk2 & Hmi2 & He2 & HQ2); [done|done|].
    destruct Hmi as (_ & Hmi & He). exists s2, a2, r2. split_and!; [done|by etrans|congruence|by rewrite <-He].
  - destruct Hmi as (Hs & Hmi & He). eexists s1, a1, _. by split_and!.
Qed.

Lemma writes_batch {A} s a ops (x : A) (upd : abs → abs → A → Prop) :
  store_rel s a → known_ops ops = true →
  (∃ a', rel (view_ops (kv_view (kv s)) ops) a' ∧ upd a a' x) →
  writes (let! _ := on_kv (kv_write_batch ops) in sret x) s a upd.
Proof.
  intros [Hok Hrel] Hcf (a' & Hr & Hu). destruct (on_batch s ops Hok Hcf) as (s' & Hp & Hok' & He & Hv).
  unfold writes, sbind. rewrite Hp. eexists s', a, _. split_and!; [done..|]. exists a'. split; [|done].
  split; [done|]. eapply rel_ext; [intros c; symmetry; apply Hv|done].
Qed.

Lemma writes_put {A} s a cf k v (x : A) (upd : abs → abs → A → Prop) :
  store_rel s a → known_cf cf = true →
  (∃ a', rel (view_put cf k v (kv_view (kv s))) a' ∧ upd a a' x) →
  writes (let! _ := on_kv (kv_put cf k v) in sret x) s a upd.
Proof.
  intros [Hok Hrel] Hcf (a' & Hr & Hu). destruct (on_put s cf k v Hok Hcf) as (s' & Hp & Hok' & He & Hv).
  unfold writes, sbind. rewrite Hp. eexists s', a, _. split_and!; [done..|]. exists a'. split; [|done].
  split; [done|]. eapply rel_ext; [intros c; symmetry; apply Hv|done].
Qed.

Lemma sbind_sret_tt {St E} (m : stm St E unit) (st : St) : (let! _ := m in sret tt) st = m st.
Proof. unfold sbind. by destruct (m st) as [? [[]|e]]. Qed.

Lemma writes_tt (m : stm store StoreError unit) s a upd :
  writes (let! _ := m in sret tt) s a upd → writes m s a upd.
Proof. unfold writes. by rewrite sbind_sret_tt. Qed.

(** The row a value of the node table is written as *)
Lemma rel_fresh_node s a b n c v :
  store_rel s a → json_repr n → node_cell b (a_ring a) n c v →
  rel (view_put NODES (array_bytes (node_id n)) v (kv_view (kv s))) (set_node (node_id n) c a).
Proof.
  intros [_ Hrel] Hj [Hf Hc]. pose proof (fresh_val _ _ _ _ _ Hf) as Hv. rewrite <-Hv in *.
  apply rel_put_node; [done|done| |done]. intros t g n' ->. simpl in *.
  destruct b; [|done]. by destruct Hf as (? & ? & _ & [= -> _]).
Qed.

Lemma put_node_rel s a n :
  store_rel s a → mintable a → json_repr n →
  writes (put_node n) s a (λ a1 a' id, id = node_id n ∧
    ∃ c, fresh_cell (encrypt_at_rest s) (a_ring a1) (tenant n) n c ∧ a' = set_node (node_id n) c a1).
Proof.
  intros Hs Hm Hj. unfold put_node. eapply writes_bind; [by apply runs_encode_node|].
  intros s1 a1 v (Hs1 & Hmi & He) (c & Hc). apply writes_put; [done|done|].
  eexists. split; [by eapply rel_fresh_node|]. split; [done|]. exists c. by destruct Hc.
Qed.

Lemma rel_edge_ops v a c ops :
  rel v a → edge_ops (a_ring a) c ops → rel (view_ops v ops) (set_edge (edge_ident (cell_val c)) c a).
Proof. intros Hrel (bo & bi & -> & Ho & Hi). by apply rel_put_edge. Qed.

Lemma add_edge_rel s a e :
  store_rel s a → mintable a →
  writes (add_edge (N := N) e) s a (λ a1 a' _,
    if demoting a e then a' = a else
    ∃ c, edge_cell (encrypt_at_rest s) (a_ring a1) (edge_owner a ∅ e) e c ∧ a' = set_edge (edge_ident e) c a1).
Proof.
  intros Hs Hm. unfold add_edge, sread. unfold writes, sbind at 1. rewrite (is_demoting_write_rel s a) by done.
  destruct (demoting a e).
  { eexists s, a, _. split_and!; [done..|]. by exists a. }
  eapply writes_bind; [by apply runs_edge_put_ops|]. intros s1 a1 ops (Hs1 & Hmi & He) (c & Hc & Ho).
  apply writes_tt, writes_batch; [done|by eapply edge_ops_known|]. eexists. split; [eapply rel_edge_ops; [apply Hs1|done]|].
  exists c. split; [done|]. destruct (edge_cell_fresh _ _ _ _ _ Hc) as [t Hf]. by rewrite (fresh_val _ _ _ _ _ Hf).
Qed.

Lemma put_meta_rel s a t k value :
  store_rel s a → mintable a → (encrypt_at_rest s = false → parse_envelope value = None) →
  writes (put_meta t k value) s a (λ a1 a' _,
    ∃ c, fresh_cell (encrypt_at_rest s) (a_ring a1) t value c ∧ a' = set_meta k c a1).
Proof.
  intros Hs Hm Hv. unfold put_meta.
  eapply (writes_bind _ _ _ _ (λ _ a' b, ∃ c, fresh_cell (encrypt_at_rest s) (a_ring a') t value c ∧
    cell_repr (a_ring a') (slot_open META k) Ok c b)).
  - destruct (encrypt_at_rest s) eqn:Henc.
    + eapply runs_eq; [rewrite Henc; reflexivity|]. eapply runs_bind; [by apply runs_ensure|]. intros s1 a1 [g m] (Hs1 & _ & He) Hr. simpl in Hr.
      apply runs_lift; [done|]. destruct (seal_at _ _ _ _ _ _) as [b|] eqn:Hb; [|congruence]. exists (Sealed t g value). split; [by exists g, m|].
      eapply sealed_cell; [done|done|]. by apply seal_at_open.
    + apply (runs_eq _ (sret value)); [by rewrite Henc|]. apply runs_ret; [done|]. exists (Plain value). split; [done|]. split; [by apply Hv|done].
  - intros s1 a1 b (Hs1 & Hmi & He) (c & Hf & Hc). apply writes_tt, writes_put; [done|done|].
    eexists. split; [by apply rel_put_meta; [apply Hs1|]|]. by exists c.
Qed.

(** Shredding destroys the key at its generation and touches nothing else. *)
Lemma shred_tenant_rel s a t :
  store_rel s a →
  ∃ s', encrypt_at_rest s' = encrypt_at_rest s ∧
    match a_ring a !! t with
    | None => shred_tenant t s = (s', Ok false) ∧ store_rel s' a
    | Some (g, ok) => shred_tenant t s = (s', Ok (bool_decide (is_Some ok))) ∧ store_rel s' (set_ring t (g, None) a)
    end.
Proof.
  intros Hs. pose proof (keyring_entry_rel s a t Hs) as Hk. unfold shred_tenant, sread.
  destruct (a_ring a !! t) as [[g ok]|] eqn:Hr.
  - destruct Hk as (e & Hek & Hg & Hb & Hge).
    destruct (put_keyring_entry_rel s a t {| gen := gen e; key := None |} None) as (s' & Hp & Hs' & He);
      simpl; [done| |done|lia|].
    { eapply ring_le_insert; [done|lia|auto]. }
    exists s'. split; [done|]. unfold sbind. rewrite Hek, Hp. simpl in Hs'. rewrite Hg in Hs'. split; [|done].
    unfold sret. do 2 f_equal. apply bool_decide_ext. unfold key_bytes in Hb. destruct (key e); simpl in Hb.
    + inv_result. destruct (array_of _ _); simpl in *; inv_result; done.
    + injection Hb as <-. split; by intros [].
  - exists s. unfold sbind. rewrite Hk. by split_and!.
Qed.

(** ** Batches *)

Inductive upd :=
| UNode (c : cell N)
| UEdge (c : cell Edge).

Definition apply_upd (a : abs) (u : upd) : abs :=
  match u with
  | UNode c => set_node (node_id (cell_val c)) c a
  | UEdge c => set_edge (edge_ident (cell_val c)) c a
  end.

(** The operations collected so far, and the updates they stand for *)
Inductive pending (b : bool) (r : ring_t) : list KvOp → list upd → Prop :=
| pending_nil : pending b r [] []
| pending_node ops us n c v : pending b r ops us → json_repr n → node_cell b r n c v →
    pending b r (ops ++ [Put NODES (array_bytes (node_id n)) v]) (us ++ [UNode c])
| pending_edge ops us t e c eops : pending b r ops us → fresh_cell b r t e c → edge_ops r c eops →
    pending b r (ops ++ eops) (us ++ [UEdge c]).

Lemma pending_known b r ops us : pending b r ops us → known_ops ops = true.
Proof.
  induction 1 as [|ops us n c v _ IH _ _|ops us t e c eops _ IH _ Ho]; [done|..]; unfold known_ops in *; rewrite forallb_app, IH; [done|by eapply edge_ops_known].
Qed.

Lemma pending_minted b a a' ops us : minted a a' → pending b (a_ring a) ops us → pending b (a_ring a') ops us.
Proof.
  intros Hm. pose proof (minted_ring_le _ _ Hm) as Hle. induction 1 as [|ops us n c v _ IH Hj [Hf Hc]|ops us t e c eops _ IH Hf Ho].
  - constructor.
  - apply pending_node; [done..|]. split; [by eapply minted_fresh|by eapply cell_repr_ring].
  - eapply pending_edge; [done|by eapply minted_fresh|]. destruct Ho as (bo & bi & -> & Ho & Hi).
    exists bo, bi. split_and!; [done|by eapply cell_repr_ring..].
Qed.

Lemma ring_apply_upds a us : a_ring (foldl apply_upd a us) = a_ring a.
Proof. revert a. induction us as [|[] us IH]; intros a; simpl; [done|by rewrite IH..]. Qed.

Lemma pending_rel b v a ops us :
  rel v a → pending b (a_ring a) ops us → rel (view_ops v ops) (foldl apply_upd a us).
Proof.
  intros Hrel. remember (a_ring a) as r eqn:Er.
  induction 1 as [|ops us n c w _ IH Hj [Hf Hc]|ops us t e c eops _ IH Hf Ho]; [done|..];
    unfold view_ops in *; rewrite !foldl_app; simpl; subst r.
  - pose proof (fresh_val _ _ _ _ _ Hf) as Hv. rewrite <-Hv in *.
    apply rel_put_node; [done|done| |by rewrite ring_apply_upds].
    intros t g n' ->. simpl in *. destruct b; [|done]. by destruct Hf as (? & ? & _ & [= -> _]).
  - apply rel_edge_ops; [done|]. by rewrite ring_apply_upds.
Qed.

(** The batch of a commit: every node, then every edge that demotes nothing
    stored before the commit *)
Definition batch_tenants (nodes : list N) : gmap ContentHash string :=
  foldl (λ m n, <[node_id n := tenant n]> m) ∅ nodes.
Definition kept_edges (a : abs) (edges : list Edge) : list Edge := filter (λ e, demoting a e = false) edges.

Definition upd_vals (us : list upd) : list (N + Edge) :=
  (λ u, match u with UNode c => inl (cell_val c) | UEdge c => inr (cell_val c) end) <$> us.

Lemma minted_demoting s a a' e : store_rel s a → minted a a' → demoting a' e = demoting a e.
Proof. intros Hs Hm. unfold demoting. by rewrite (minted_read_edge _ a a' _ (proj2 Hs) Hm). Qed.

Lemma runs_commit_nodes nodes s a ops m us :
  store_rel s a → mintable a → Forall json_repr nodes → pending (encrypt_at_rest s) (a_ring a) ops us →
  runs (sfold commit_node (ops, m) nodes) s a (λ _ a' st,
    st.2 = foldl (λ m n, <[node_id n := tenant n]> m) m nodes ∧
    ∃ us', pending (encrypt_at_rest s) (a_ring a') st.1 us' ∧ upd_vals us' = upd_vals us ++ (inl <$> nodes)).
Proof.
  revert s a ops m us. induction nodes as [|n nodes IH]; intros s a ops m us Hs Hm Hj Hp; simpl.
  { apply runs_ret; [done|]. split; [done|]. exists us. by rewrite app_nil_r. }
  apply Forall_cons in Hj as [Hjn Hj]. unfold commit_node at 1. simpl.
  eapply (runs_bind _ _ _ _ (λ _ a' st, st.2 = <[node_id n := tenant n]> m ∧
    ∃ us', pending (encrypt_at_rest s) (a_ring a') st.1 us' ∧ upd_vals us' = upd_vals us ++ [inl n])).
  - eapply runs_bind; [by apply runs_encode_node|]. intros s1 a1 v (Hs1 & Hmi & He) (c & Hc).
    apply runs_ret; [done|]. split; [done|]. exists (us ++ [UNode c]). split.
    + apply pending_node; [|done|done]. by eapply pending_minted.
    + unfold upd_vals. rewrite fmap_app. simpl. destruct Hc as [Hf _]. by rewrite (fresh_val _ _ _ _ _ Hf).
  - intros s1 a1 [ops1 m1] (Hs1 & Hmi & He) (Hm1 & us1 & Hp1 & Hu1). simpl in *. subst m1.
    eapply runs_mono; [apply (IH s1 a1 ops1 _ us1); [done|by eapply minted_mintable|done|by rewrite He]|].
    intros s2 a2 [ops2 m2] _ (Hm2 & us2 & Hp2 & Hu2). split; [done|]. exists us2. rewrite He in Hp2. split; [done|].
    by rewrite Hu2, Hu1, <-app_assoc.
Qed.

Lemma runs_commit_edges edges batch s a ops us :
  store_rel s a → mintable a → pending (encrypt_at_rest s) (a_ring a) ops us →
  runs (sfold (commit_edge (N := N) batch) ops edges) s a (λ _ a' ops',
    ∃ us', pending (encrypt_at_rest s) (a_ring a') ops' us' ∧
           upd_vals us' = upd_vals us ++ (inr <$> kept_edges a edges)).
Proof.
  revert s a ops us. induction edges as [|e edges IH]; intros s a ops us Hs Hm Hp; simpl.
  { apply runs_ret; [done|]. exists us. by rewrite app_nil_r. }
  eapply (runs_bind _ _ _ _ (λ _ a' ops', ∃ us', pending (encrypt_at_rest s) (a_ring a') ops' us' ∧
    upd_vals us' = upd_vals us ++ (inr <$> kept_edges a [e]))).
  - unfold commit_edge, sread. apply (runs_bind_lift (is_demoting_write s e)); [done|].
    rewrite (is_demoting_write_rel s a) by done. unfold kept_edges. rewrite filter_cons, filter_nil. destruct (demoting a e).
    + rewrite decide_False by done. apply runs_ret; [done|]. exists us. by rewrite app_nil_r.
    + rewrite decide_True by done. eapply runs_bind; [by apply runs_edge_put_ops|].
      intros s1 a1 eops (Hs1 & Hmi & He) (c & Hc & Ho). apply runs_ret; [done|].
      destruct (edge_cell_fresh _ _ _ _ _ Hc) as [t Hf]. exists (us ++ [UEdge c]). split.
      * eapply pending_edge; [by eapply pending_minted|done|done].
      * unfold upd_vals. rewrite fmap_app. simpl. by rewrite (fresh_val _ _ _ _ _ Hf).
  - intros s1 a1 ops1 (Hs1 & Hmi & He) (us1 & Hp1 & Hu1).
    eapply runs_mono; [apply (IH s1 a1 ops1 us1); [done|by eapply minted_mintable|by rewrite He]|].
    intros s2 a2 ops2 _ (us2 & Hp2 & Hu2). exists us2. rewrite He in Hp2. split; [done|].
    rewrite Hu2, Hu1, <-app_assoc, <-fmap_app. do 2 f_equal. unfold kept_edges.
    rewrite (filter_app _ [e] edges : filter _ (e :: edges) = _). f_equal. apply list_filter_iff. intros x. by rewrite (minted_demoting s a a1).
Qed.

Lemma commit_rel s a nodes edges :
  store_rel s a → mintable a → Forall json_repr nodes →
  writes (commit nodes edges) s a (λ a1 a' _,
    ∃ ops us, pending (encrypt_at_rest s) (a_ring a1) ops us ∧
              upd_vals us = (inl <$> nodes) ++ (inr <$> kept_edges a edges) ∧ a' = foldl apply_upd a1 us).
Proof.
  intros Hs Hm Hj. unfold commit. eapply writes_bind; [apply (runs_commit_nodes nodes s a [] ∅ []); [done..|constructor]|].
  intros s1 a1 [ops m] (Hs1 & Hmi & He) (Hm1 & us & Hp & Hu). simpl in *. subst m.
  eapply writes_bind; [apply (runs_commit_edges edges _ s1 a1 ops us); [done|by eapply minted_mintable|by rewrite He]|].
  intros s2 a2 ops2 (Hs2 & Hmi2 & He2) (us2 & Hp2 & Hu2). rewrite He in Hp2. simpl in *.
  apply writes_tt, writes_batch; [done|by eapply pending_known|]. eexists. split; [eapply pending_rel; [apply Hs2|done]|].
  exists ops2, us2. split_and!; [done| |done]. rewrite Hu2, Hu. do 2 f_equal.
  apply list_filter_iff. intros x. by rewrite (minted_demoting s a a1).
Qed.
End write.
