(* ===== verification/StoreContents.v ===== *)
(** * The readable contents of a store

    What the clients of the store see of it: the nodes, edges and meta values
    that can be read, and which node ids have a row.  Minting keys changes none
    of it. *)

From S2P Require Import Prelude Bytes Externs Text Belnap Identity Node Edge Kv Shred Store StoreSpec StoreRefine.
From S2P Require Import StoreWrite.

Record Contents (N : Type) := mk_contents {
  c_nodes : gmap ContentHash N;
  c_edges : gmap ident Edge;
  c_meta : gmap bytes bytes;
  c_known : gset ContentHash;
}.
Arguments mk_contents {N}.
Arguments c_nodes {N}.
Arguments c_edges {N}.
Arguments c_meta {N}.
Arguments c_known {N}.

Definition c_put_node {N} `{Identified N} (c : Contents N) (n : N) : Contents N :=
  mk_contents (<[node_id n := n]> (c_nodes c)) (c_edges c) (c_meta c) ({[node_id n]} ∪ c_known c).
Definition c_put_edge {N} (c : Contents N) (e : Edge) : Contents N :=
  mk_contents (c_nodes c) (<[edge_ident e := e]> (c_edges c)) (c_meta c) (c_known c).
Definition c_put_meta {N} (k v : bytes) (c : Contents N) : Contents N :=
  mk_contents (c_nodes c) (c_edges c) (<[k := v]> (c_meta c)) (c_known c).

(** A quarantined write over a readable load-bearing edge *)
Definition c_demoting {N} (c : Contents N) (e : Edge) : bool :=
  e_quarantined e && match c_edges c !! edge_ident e with Some x => negb (e_quarantined x) | None => false end.

(** [add_edge] and [commit], on contents *)
Definition c_add_edge {N} (c : Contents N) (e : Edge) : Contents N :=
  if c_demoting c e then c else c_put_edge c e.
Definition c_commit {N} `{Identified N} (c : Contents N) (nodes : list N) (edges : list Edge) : Contents N :=
  foldl c_put_edge (foldl c_put_node c nodes) (filter (λ e, c_demoting c e = false) edges).

Section contents.
Context {S R : Type} `{KvStore S, Rng R, Blake3, Hex, Aead}.
Context `{Serde Envelope, Serde KeyringEntry, Serde Edge}.
Context {N : Type} `{Identified N, Tenanted N, Serde N, JsonRepr N}.
Context `{!KvLaws S, !Blake3Laws, !HexLaws, !AeadLaws, !EnvelopeSerdeLaws, !StoreSerdeLaws (N := N)}.

Abbreviation store := (MemoryDagStore S R).
Abbreviation abs := (AbsStore N).
Implicit Types (s : store) (a : abs).

Definition contents (a : abs) : Contents N :=
  mk_contents (omap (read_cell (a_ring a)) (a_nodes a)) (omap (read_cell (a_ring a)) (a_edges a))
              (omap (read_cell (a_ring a)) (a_meta a)) (dom (a_nodes a)).

Lemma contents_node a id : c_nodes (contents a) !! id = read_node a id.
Proof. apply lookup_omap. Qed.
Lemma contents_edge a i : c_edges (contents a) !! i = read_edge a i.
Proof. apply lookup_omap. Qed.
Lemma contents_meta a k : c_meta (contents a) !! k = read_meta a k.
Proof. apply lookup_omap. Qed.

Lemma contents_demoting a e : c_demoting (contents a) e = demoting a e.
Proof. unfold c_demoting. by rewrite contents_edge. Qed.

Lemma contents_minted v a a' : rel v a → minted a a' → contents a' = contents a.
Proof.
  intros Hrel Hm. unfold contents. f_equal.
  - apply map_eq. intros i. rewrite !lookup_omap. by eapply minted_read_node.
  - apply map_eq. intros i. rewrite !lookup_omap. by eapply minted_read_edge.
  - apply map_eq. intros i. rewrite !lookup_omap. by eapply minted_read_meta.
  - by destruct Hm as (-> & _).
Qed.

Lemma contents_set_node a n c :
  read_cell (a_ring a) c = Some n → contents (set_node (node_id n) c a) = c_put_node (contents a) n.
Proof.
  intros Hc. unfold contents, c_put_node. simpl. f_equal.
  - by rewrite (omap_insert_Some _ _ _ _ _ Hc).
  - by rewrite dom_insert_L.
Qed.
Lemma contents_set_edge a e c :
  read_cell (a_ring a) c = Some e → contents (set_edge (edge_ident e) c a) = c_put_edge (contents a) e.
Proof.
  intros Hc. unfold contents, c_put_edge. simpl. f_equal. by rewrite (omap_insert_Some _ _ _ _ _ Hc).
Qed.
Lemma contents_set_meta a k v c :
  read_cell (a_ring a) c = Some v → contents (set_meta k c a) = c_put_meta k v (contents a).
Proof.
  intros Hc. unfold contents, c_put_meta. simpl. f_equal. by rewrite (omap_insert_Some _ _ _ _ _ Hc).
Qed.

(** Applying a batch of pending updates writes their values, in order. *)
Definition c_upd (c : Contents N) (v : N + Edge) : Contents N :=
  match v with inl n => c_put_node c n | inr e => c_put_edge c e end.

Lemma contents_pending b a ops us :
  pending b (a_ring a) ops us → contents (foldl apply_upd a us) = foldl c_upd (contents a) (upd_vals us).
Proof.
  remember (a_ring a) as r eqn:Er.
  induction 1 as [|ops us n c v _ IH Hj [Hf Hc]|ops us t e c eops _ IH Hf Ho]; [done|..];
    unfold upd_vals; rewrite fmap_app, !foldl_app; simpl; fold (upd_vals us); rewrite <-IH; subst r.
  - pose proof (fresh_val _ _ _ _ _ Hf) as ->. apply contents_set_node. rewrite ring_apply_upds.
    by eapply fresh_read.
  - pose proof (fresh_val _ _ _ _ _ Hf) as ->. apply contents_set_edge. rewrite ring_apply_upds.
    by eapply fresh_read.
Qed.

(** ** A store holding given contents *)

Definition holds s (c : Contents N) : Prop := ∃ a, store_rel s a ∧ mintable a ∧ contents a = c.

(** A call on a store: on success it returns [x] and the contents are [c'], on
    failure they are what they were; a store that does not seal does not fail. *)
Definition effect {E A} (m : stm store E A) s (c : Contents N) (x : A) (c' : Contents N) : Prop :=
  ∃ s' r, m s = (s', r) ∧ encrypt_at_rest s' = encrypt_at_rest s ∧
    match r with
    | Ok y => y = x ∧ holds s' c'
    | Err _ => holds s' c ∧ encrypt_at_rest s = true
    end.

Lemma writes_effect {A} (m : stm store StoreError A) s a upd x c' :
  store_rel s a → mintable a → writes m s a upd →
  (∀ a1 a' y, minted a a1 → contents a1 = contents a → upd a1 a' y →
     y = x ∧ contents a' = c' ∧ a_ring a' = a_ring a1) →
  effect m s (contents a) x c'.
Proof.
  intros Hs Hm (s' & a1 & r & Hr & Hmi & He & Hres) Hupd. exists s', r. split; [done|]. split; [done|].
  pose proof (contents_minted _ a a1 (proj2 Hs) Hmi) as Hc. pose proof (minted_mintable _ _ Hmi Hm) as Hm1.
  destruct r as [y|e].
  - destruct Hres as (a' & Hs' & Hu). destruct (Hupd a1 a' y) as (-> & Hc' & Hr'); [done..|]. split; [done|].
    exists a'. split; [done|]. split; [|done]. intros t g Ht.
    rewrite Hr' in Ht. by apply (Hm1 t g).
  - destruct Hres as [Hs' Henc]. split; [|done]. by exists a1.
Qed.

Lemma put_node_effect s c n :
  holds s c → json_repr n → effect (put_node n) s c (node_id n) (c_put_node c n).
Proof.
  intros (a & Hs & Hm & <-) Hj. eapply writes_effect; [done|done|by apply put_node_rel|].
  intros a1 a' y Hmi Hc (-> & cl & Hf & ->). split; [done|]. split; [|done].
  rewrite contents_set_node by (by eapply fresh_read). by rewrite Hc.
Qed.

Lemma add_edge_effect s c e :
  holds s c → effect (add_edge (N := N) e) s c tt (c_add_edge c e).
Proof.
  intros (a & Hs & Hm & <-). pose proof (add_edge_rel s a e Hs Hm) as Hw.
  unfold c_add_edge. rewrite contents_demoting. destruct (demoting a e) eqn:Hd.
  - unfold effect, add_edge, sread. unfold sbind at 1. rewrite (is_demoting_write_rel s a), Hd by done.
    eexists s, _. split; [done|]. split; [done|]. split; [done|]. by exists a.
  - eapply writes_effect; [done..|]. intros a1 a' [] Hmi Hc (cl & Hcl & ->). split; [done|]. split; [|done].
    destruct (edge_cell_fresh _ _ _ _ _ Hcl) as [t Hf].
    rewrite contents_set_edge by (by eapply fresh_read). by rewrite Hc.
Qed.

Lemma foldl_c_upd c nodes edges :
  foldl c_upd c ((inl <$> nodes) ++ (inr <$> edges)) = foldl c_put_edge (foldl c_put_node c nodes) edges.
Proof.
  rewrite foldl_app. assert (∀ c l, foldl c_upd c (inl <$> l) = foldl c_put_node c l) as ->.
  { intros c' l. revert c'. induction l; intros c'; simpl; auto. }
  generalize (foldl c_put_node c nodes). induction edges; intros c'; simpl; auto.
Qed.

Lemma commit_effect s c nodes edges :
  holds s c → Forall json_repr nodes → effect (commit nodes edges) s c tt (c_commit c nodes edges).
Proof.
  intros (a & Hs & Hm & <-) Hj. eapply writes_effect; [done|done|by apply commit_rel|].
  intros a1 a' [] Hmi Hc (ops & us & Hp & Hu & ->). split; [done|]. split; [|apply ring_apply_upds].
  erewrite contents_pending by done. rewrite Hu, Hc, foldl_c_upd. unfold c_commit, kept_edges. f_equal.
  apply list_filter_iff. intros e. by rewrite contents_demoting.
Qed.

Lemma put_meta_effect s c t k v :
  holds s c → (encrypt_at_rest s = false → parse_envelope v = None) →
  effect (put_meta t k v) s c tt (c_put_meta k v c).
Proof.
  intros (a & Hs & Hm & <-) Hv. eapply writes_effect; [done|done|by apply put_meta_rel|].
  intros a1 a' [] Hmi Hc (cl & Hf & ->). split; [done|]. split; [|done].
  rewrite (contents_set_meta _ _ _ _ (fresh_read _ _ _ _ _ Hf)). by rewrite Hc.
Qed.

Lemma get_meta_rel s a k : store_rel s a → get_meta s k = Ok (read_meta a k).
Proof.
  intros Hs. unfold get_meta. rewrite (get_row_rel s a) by done. simpl. unfold read_meta.
  pose proof (rel_meta _ _ (proj2 Hs)) as [_ Ht]. specialize (Ht k). unfold id in Ht.
  destruct (kv_view (kv s) META !! k) as [b|], (a_meta a !! k) as [c|]; try done. simpl.
  destruct c as [v|t g v].
  { destruct Ht as [-> [= ->]]. done. }
  destruct Ht as (env & -> & <- & <- & g' & ok & Hr & Hle & Ho).
  pose proof (keyring_entry_rel s a (env_tenant env) Hs) as Hk. rewrite Hr in Hk.
  destruct Hk as (e & -> & Hg & Hb & _). cbn [rbind]. rewrite Hb. cbn [rbind].
  rewrite (read_sealed _ _ _ _ _ _ Hr).
  destruct ok as [m|]; [|done]. rewrite Hg. destruct (Z.eqb_spec g' (kgen env)) as [->|Hne]; [|done]. simpl.
  destruct (Ho m) as (p & Hp & Hd); [done..|]. unfold slot_open in Hp. rewrite Hp. simpl. congruence.
Qed.
End contents.
