(* ===== verification/StoreReach.v ===== *)
(** * Breadth-first reachability over the stored edges

    The loop of [reachable_via] terminates within [bfs_fuel] steps and returns
    each node reachable from the start along readable edges of one kind, once,
    the start excluded. *)

From stdpp Require Import relations.
From S2P Require Import Prelude Bytes Externs Text Belnap Identity Node Edge Kv Shred Store StoreSpec StoreRefine.

Section bfs.
Context (out : ContentHash → result StoreError (list Edge)) (kind : EdgeKind) (g : ContentHash → list Edge).
Context (Hout : ∀ x, out x = Ok (g x)).

(** One hop *)
Definition hop (x y : ContentHash) : Prop := ∃ e, e ∈ g x ∧ e_kind e = kind ∧ e_to e = y.

Lemma visit_spec es seen new :
  ∃ d, foldl (bfs_visit kind) (seen, new) es = (seen ∪ list_to_set d, new ++ d) ∧ NoDup d ∧
       (∀ y, y ∈ d → y ∉ seen ∧ ∃ e, e ∈ es ∧ e_kind e = kind ∧ e_to e = y) ∧
       (∀ e, e ∈ es → e_kind e = kind → e_to e ∈ seen ∪ list_to_set d).
Proof.
  revert seen new. induction es as [|e es IH]; intros seen new; simpl.
  { exists []. rewrite app_nil_r. split_and!; [f_equal; set_solver|constructor|set_solver|set_solver]. }
  destruct (bool_decide (e_kind e = kind)) eqn:Ek; simpl.
  2:{ apply bool_decide_eq_false in Ek. destruct (IH seen new) as (d & Hd & Hnd & H1 & H2).
      exists d. split_and!; [done|done| |]; [|set_solver].
      intros y Hy. destruct (H1 y Hy) as (? & e' & ? & ?). split; [done|]. exists e'. set_solver. }
  apply bool_decide_eq_true in Ek. destruct (bool_decide (e_to e ∉ seen)) eqn:Es.
  - apply bool_decide_eq_true in Es.
    destruct (IH ({[e_to e]} ∪ seen) (new ++ [e_to e])) as (d & Hd & Hnd & H1 & H2).
    exists (e_to e :: d). split_and!.
    + rewrite Hd, <-app_assoc. f_equal. set_solver.
    + constructor; [|done]. intros Hin. destruct (H1 _ Hin) as [Hn _]. set_solver.
    + intros y [->|Hy]%elem_of_cons; [split; [done|]; exists e; set_solver|].
      destruct (H1 y Hy) as (? & e' & ? & ?). split; [set_solver|]. exists e'. set_solver.
    + intros e' [->|He']%elem_of_cons Hk'; [set_solver|]. specialize (H2 e' He' Hk'). set_solver.
  - apply bool_decide_eq_false, dec_stable in Es. destruct (IH seen new) as (d & Hd & Hnd & H1 & H2).
    exists d. split_and!; [done|done| |]; [|set_solver].
    intros y Hy. destruct (H1 y Hy) as (? & e' & ? & ?). split; [done|]. exists e'. set_solver.
Qed.

(** The loop's invariant: what was seen is the start and the result, all of it
    reachable; a seen node not in the queue has had its successors seen. *)
Record bfs_inv (start : ContentHash) (seen : gset ContentHash) (queue res : list ContentHash) : Prop := {
  inv_seen : seen = {[start]} ∪ list_to_set res;
  inv_nodup : NoDup (start :: res);
  inv_reach : ∀ x, x ∈ seen → rtc hop start x;
  inv_queue : ∀ x, x ∈ queue → x ∈ seen;
  inv_done : ∀ x y, x ∈ seen → x ∉ queue → hop x y → y ∈ seen;
}.

Lemma bfs_inv_step start seen cur queue res seen' new :
  bfs_inv start seen (cur :: queue) res → foldl (bfs_visit kind) (seen, []) (g cur) = (seen', new) →
  bfs_inv start seen' (queue ++ new) (res ++ new) ∧ seen' = seen ∪ list_to_set new ∧ NoDup new ∧
  (∀ y, y ∈ new → y ∉ seen ∧ hop cur y).
Proof.
  intros [Hs Hnd Hr Hq Hd] Hv. destruct (visit_spec (g cur) seen []) as (d & Hv' & Hndd & H1 & H2).
  rewrite Hv' in Hv. injection Hv as <- <-. simpl. split_and!; [|done|done|done]. split.
  - rewrite Hs. set_solver.
  - rewrite app_comm_cons. apply NoDup_app. split_and!; [done| |done]. intros x Hx Hx'.
    destruct (H1 _ Hx') as [Hn _]. apply Hn. rewrite Hs. set_solver.
  - intros x [Hx|Hx]%elem_of_union; [by apply Hr|]. apply elem_of_list_to_set in Hx.
    destruct (H1 _ Hx) as (_ & e & He). eapply rtc_r; [apply Hr, (Hq cur); set_solver|]. by exists e.
  - intros x [Hx|Hx]%elem_of_app; set_solver.
  - intros x y Hx Hnq Hh. destruct (decide (x = cur)) as [->|Hne].
    + destruct Hh as (e & He & Hk & <-). by apply H2.
    + apply elem_of_union_l, (Hd x); [set_solver|set_solver|done].
Qed.

Lemma bfs_inv_final start seen res fuel :
  bfs_inv start seen [] res →
  ∃ l, bfs out kind fuel seen [] res = Some (Ok l) ∧ NoDup l ∧ ∀ x, x ∈ l ↔ rtc hop start x ∧ x ≠ start.
Proof.
  intros [Hs Hnd Hr _ Hd]. apply NoDup_cons in Hnd as [Hns Hnd]. exists res. split_and!; [by destruct fuel|done|].
  intros x. split.
  - intros Hx. split; [apply Hr; rewrite Hs; set_solver|]. by intros ->.
  - intros [Hx Hne]. assert (x ∈ seen) as Hxs; [|rewrite Hs in Hxs; set_solver]. clear Hne. revert x Hx.
    apply rtc_ind_r; [rewrite Hs; set_solver|]. intros y z _ Hyz Hy. eapply Hd; [done|set_solver|done].
Qed.

Lemma bfs_spec start (U : gset ContentHash) fuel seen queue res :
  (∀ x y, hop x y → y ∈ U) → (length queue + size (U ∖ seen) ≤ fuel)%nat → bfs_inv start seen queue res →
  ∃ l, bfs out kind fuel seen queue res = Some (Ok l) ∧ NoDup l ∧ ∀ x, x ∈ l ↔ rtc hop start x ∧ x ≠ start.
Proof.
  intros HU. revert seen queue res. induction fuel as [|fuel IH]; intros seen [|cur queue] res Hf Hinv.
  - by apply bfs_inv_final.
  - simpl in Hf. lia.
  - by apply bfs_inv_final.
  - simpl. rewrite Hout. destruct (foldl _ _ _) as [seen' new] eqn:Hv.
  destruct (bfs_inv_step _ _ _ _ _ _ _ Hinv Hv) as (Hinv' & -> & Hnd & Hnew). apply IH; [|done].
  rewrite length_app. simpl in Hf.
  assert (size (list_to_set new : gset ContentHash) = length new) as Hln by (by apply size_list_to_set).
  assert (U ∖ seen = (U ∖ (seen ∪ list_to_set new)) ∪ list_to_set new) as Hu.
  { apply set_eq. intros x. rewrite elem_of_union, !elem_of_difference, elem_of_union, elem_of_list_to_set.
    destruct (decide (x ∈ new)) as [Hx|Hx]; [|tauto]. destruct (Hnew x Hx) as [Hxs Hh]. specialize (HU _ _ Hh). tauto. }
  rewrite Hu, size_union, Hln in Hf by set_solver. lia.
Qed.
End bfs.

Lemma size_list_to_set_le (l : list ContentHash) : (size (list_to_set l : gset ContentHash) ≤ length l)%nat.
Proof.
  induction l as [|x l IH]; simpl; [done|].
  rewrite size_union_alt, size_singleton. etrans; [apply Nat.add_le_mono_l, subseteq_size|]; [|by apply le_n_S, IH].
  set_solver.
Qed.

(** A table has at most as many cells as its column family has rows. *)
Lemma table_size_le {I A} `{Countable I} (rk : I → bytes) (t : gmap I (cell A)) (m : cf_map) :
  Inj (=) (=) rk → (∀ i, is_Some (t !! i) → is_Some (m !! rk i)) → (size t ≤ size m)%nat.
Proof.
  intros Hinj Hin. rewrite <-!length_map_to_list, <-(length_fmap fst), <-(length_fmap rk), <-(length_fmap fst (map_to_list m)).
  apply submseteq_length, NoDup_submseteq.
  - apply NoDup_fmap_2; [done|]. apply NoDup_fst_map_to_list.
  - intros k (i & -> & ([j c] & -> & Hj)%list_elem_of_fmap)%list_elem_of_fmap. apply elem_of_map_to_list in Hj.
    destruct (Hin j) as [b Hb]; [by exists c|]. apply list_elem_of_fmap. exists (rk j, b). split; [done|].
    by apply elem_of_map_to_list.
Qed.

Section reach.
Context {S R : Type} `{KvStore S, Rng R, Blake3, Hex, Aead}.
Context `{Serde Envelope, Serde KeyringEntry, Serde Edge}.
Context {N : Type} `{Identified N, Tenanted N, Serde N, JsonRepr N}.
Context `{!KvLaws S, !Blake3Laws, !HexLaws, !AeadLaws, !EnvelopeSerdeLaws, !StoreSerdeLaws (N := N)}.

Abbreviation store := (MemoryDagStore S R).
Abbreviation abs := (AbsStore N).
Implicit Types (s : store) (a : abs).

(** A readable edge of the kind *)
Definition edge_hop (a : abs) (kind : EdgeKind) (x y : ContentHash) : Prop := is_Some (read_edge a (x, y, kind)).

Lemma reachable_via_run s a start kind :
  store_rel s a →
  ∃ l, bfs (out_edges s) kind (bfs_fuel s) {[start]} [start] [] = Some (Ok l) ∧ NoDup l ∧
       ∀ x, x ∈ l ↔ rtc (edge_hop a kind) start x ∧ x ≠ start.
Proof.
  intros Hs. set (g := λ x, match out_edges s x with Ok es => es | Err _ => [] end).
  assert (∀ x, out_edges s x = Ok (g x)) as Hout.
  { intros x. unfold g. by destruct (out_edges_rel s a x Hs) as (es & -> & _). }
  assert (∀ x y, hop kind g x y ↔ edge_hop a kind x y) as Hhop.
  { intros x y. unfold hop, g, edge_hop. destruct (out_edges_rel s a x Hs) as (es & -> & _ & Hes). split.
    - intros (e & He & <- & <-). apply Hes in He as [Hr <-]. by exists e.
    - intros [e He]. pose proof (read_edge_ident _ _ _ _ Hs He) as [= <- <- <-]. exists e. by rewrite Hes. }
  set (U := list_to_set ((λ p : ident * cell Edge, p.1.1.2) <$> map_to_list (a_edges a)) : gset ContentHash).
  destruct (bfs_spec (out_edges s) kind g Hout start U (bfs_fuel s) {[start]} [start] []) as (l & Hl & Hnd & Hin).
  - intros x y Hxy. apply Hhop in Hxy as [e He]. unfold read_edge in He.
    destruct (a_edges a !! _) as [c|] eqn:Hc; [|done]. apply elem_of_list_to_set, list_elem_of_fmap.
    exists ((x, y, kind), c). split; [done|]. by apply elem_of_map_to_list.
  - unfold bfs_fuel. rewrite (iter_rows_rel s a) by done. simpl. apply le_n_S.
    etrans; [apply subseteq_size, (subseteq_difference_l U {[start]} U); done|].
    etrans; [apply size_list_to_set_le|]. unfold sorted_rows. rewrite length_fmap, length_sort_by_key, !length_map_to_list.
    apply (table_size_le ident_key); [intros i j; apply ident_key_inj|]. intros i [c Hc].
    pose proof (rel_out _ _ (proj2 Hs)) as [_ Ht]. specialize (Ht i). rewrite Hc in Ht.
    destruct (kv_view (kv s) EDGES_OUT !! ident_key i); [by eexists|done].
  - split; simpl; [set_solver|apply NoDup_singleton|set_solver|set_solver|set_solver].
  - exists l. split_and!; [done|done|]. intros x. rewrite Hin.
    split; intros [Hx Hne]; (split; [|done]); eapply rtc_subrel; try exact Hx; intros; by apply Hhop.
Qed.

Lemma reachable_via_rel s a start kind :
  store_rel s a →
  ∃ l, reachable_via s start kind = Ok l ∧ NoDup l ∧ ∀ x, x ∈ l ↔ rtc (edge_hop a kind) start x ∧ x ≠ start.
Proof.
  intros Hs. destruct (reachable_via_run s a start kind Hs) as (l & Hl & ?). exists l.
  unfold reachable_via. by rewrite Hl.
Qed.
End reach.
