(* ===== verification/Supersession.v ===== *)
(** * Supersession ([mem-store/src/lib.rs], [impl MemoryDagStore<MemoryNode>])

    [confirm_edge], [apply_supersession] and [set_node_status], the step relation
    they implement on the readable contents, and the invariants of the
    supersession graph. *)

From stdpp Require Import relations.
From S2P Require Import Prelude Bytes Externs Text Belnap Identity Node Edge Kv Shred Store StoreSpec StoreRefine.
From S2P Require Import StoreWrite StoreContents StoreReach.

Module ConfirmOutcome.
Inductive t := Confirmed | AlreadyConfirmed | NotFound.
End ConfirmOutcome.

(** Field updates of a node and an edge *)
Definition set_status (st : Status) (vt : option Timestamp) (n : MemoryNode) : MemoryNode :=
  {| n_schema_version := n_schema_version n; n_plane := n_plane n; n_kind := n_kind n; n_repo := n_repo n;
     n_author := n_author n; n_source_ref := n_source_ref n; n_content := n_content n;
     n_valid_from := n_valid_from n; n_valid_to := vt; n_observed_at := n_observed_at n;
     n_trust_tier := n_trust_tier n; n_signature := n_signature n; n_embedding := n_embedding n;
     n_confidence := n_confidence n; n_anchors := n_anchors n; n_status := st |}.

Definition set_at (at_ : Timestamp) (p : EdgeProvenance) : EdgeProvenance :=
  {| p_method := p_method p; p_asserter := p_asserter p; p_at := at_; p_evidence := p_evidence p |}.
Definition set_edge_flags (q : bool) (p : EdgeProvenance) (e : Edge) : Edge :=
  {| e_from := e_from e; e_to := e_to e; e_kind := e_kind e; e_plane := e_plane e; e_trust_tier := e_trust_tier e;
     e_provenance := p; e_confidence := e_confidence e; e_quarantined := q; e_signature := e_signature e |}.

Section supersession.
Context {S R : Type} `{KvStore S, Rng R, Blake3, Hex, Aead}.
Context `{Serde Envelope, Serde KeyringEntry, Serde Edge, Serde MemoryNode}.

Abbreviation store := (MemoryDagStore S R).

(** What a superseding edge makes of its target *)
Definition superseded_target (e : Edge) (target : MemoryNode) : MemoryNode :=
  set_status Superseded (Some (Z.max (p_at (e_provenance e)) (n_valid_from target))) target.

Definition supersession_ops (e : Edge) (target : MemoryNode) : stm store StoreError SupersessionReport :=
  let transitioned := bool_decide (n_status target = Active) in
  let! ops := edge_put_ops (N := MemoryNode) e ∅ in
  let! ops := if transitioned then
                let! b := encode_node (superseded_target e target) in
                sret (ops ++ [Put NODES (array_bytes (e_to e)) b])
              else sret ops in
  let! _ := on_kv (kv_write_batch ops) in
  sret {| transitioned := transitioned |}.

Definition apply_supersession (e : Edge) : stm store SupersessionError SupersessionReport :=
  if negb (bool_decide (e_kind e = Supersedes)) then sfail (NotSupersedes (e_kind e))
  else if e_quarantined e then sfail Quarantined
  else if bool_decide (e_from e = e_to e) then sfail SelfSupersede
  else
    let! known := sread (λ s, map_err SupStore (has_node s (e_from e))) in
    if negb known then sfail (MissingNode (to_hex (e_from e)))
    else
      let! o := sread (λ s, map_err SupStore (get_node (N := MemoryNode) s (e_to e))) in
      let! target := slift (ok_or o (MissingNode (to_hex (e_to e)))) in
      if bool_decide (e_plane e = Asserted) && bool_decide (n_plane target = Derived)
      then sfail PlaneViolation
      else
        let! cyc := sread (λ s, map_err SupStore (would_cycle_supersedes s (e_from e) (e_to e))) in
        if cyc : bool then sfail Cycle
        else smap_err SupStore (supersession_ops e target).

Definition confirm_edge (from to : ContentHash) (kind : EdgeKind) (now_ms : Timestamp)
    : stm store SupersessionError ConfirmOutcome.t :=
  let! es := sread (λ s, map_err SupStore (out_edges s from)) in
  match snd <$> list_find (same_edge to kind) es with
  | None => sret ConfirmOutcome.NotFound
  | Some edge =>
    if negb (e_quarantined edge) then sret ConfirmOutcome.AlreadyConfirmed
    else if bool_decide (e_kind edge = Supersedes) then
      let! _ := apply_supersession (set_edge_flags false (set_at now_ms (e_provenance edge)) edge) in
      sret ConfirmOutcome.Confirmed
    else
      let! _ := smap_err SupStore (add_edge (N := MemoryNode) (set_edge_flags false (e_provenance edge) edge)) in
      sret ConfirmOutcome.Confirmed
  end.

Definition set_node_status (id : ContentHash) (status : Status) (valid_to : option Timestamp)
    : stm store StoreError bool :=
  let! o := sread (λ s, get_node (N := MemoryNode) s id) in
  match o with
  | None => sret false
  | Some node =>
    if bool_decide (n_status node = status) then sret false
    else
      let node := set_status status (match valid_to with Some _ => valid_to | None => n_valid_to node end) node in
      let! b := encode_node node in
      let! _ := on_kv (kv_write_batch [Put NODES (array_bytes id) b]) in
      sret true
  end.

(** ** The step relation

    The [Supersede] action on readable contents: one rule per outcome. *)

Abbreviation conts := (Contents MemoryNode).
Implicit Types (c : conts) (e : Edge).

Definition c_hop c (kind : EdgeKind) (x y : ContentHash) : Prop := is_Some (c_edges c !! (x, y, kind)).

(** The guards before the target is looked at *)
Definition sup_guard e : Prop := e_kind e = Supersedes ∧ e_quarantined e = false ∧ e_from e ≠ e_to e.
Definition plane_ok e (target : MemoryNode) : Prop := ¬ (e_plane e = Asserted ∧ n_plane target = Derived).

Definition c_supersede c e (target : MemoryNode) : conts :=
  let c' := c_put_edge c e in
  if bool_decide (n_status target = Active) then c_put_node c' (superseded_target e target) else c'.

Inductive sup_step c e : result SupersessionError SupersessionReport → conts → Prop :=
| sup_not_supersedes : e_kind e ≠ Supersedes → sup_step c e (Err (NotSupersedes (e_kind e))) c
| sup_quarantined : e_kind e = Supersedes → e_quarantined e = true → sup_step c e (Err Quarantined) c
| sup_self : e_kind e = Supersedes → e_quarantined e = false → e_from e = e_to e → sup_step c e (Err SelfSupersede) c
| sup_no_from : sup_guard e → e_from e ∉ c_known c → sup_step c e (Err (MissingNode (to_hex (e_from e)))) c
| sup_no_to : sup_guard e → e_from e ∈ c_known c → c_nodes c !! e_to e = None →
    sup_step c e (Err (MissingNode (to_hex (e_to e)))) c
| sup_plane target : sup_guard e → e_from e ∈ c_known c → c_nodes c !! e_to e = Some target →
    ¬ plane_ok e target → sup_step c e (Err PlaneViolation) c
| sup_cycle target : sup_guard e → e_from e ∈ c_known c → c_nodes c !! e_to e = Some target →
    plane_ok e target → rtc (c_hop c Supersedes) (e_to e) (e_from e) → sup_step c e (Err Cycle) c
| sup_applied target : sup_guard e → e_from e ∈ c_known c → c_nodes c !! e_to e = Some target →
    plane_ok e target → ¬ rtc (c_hop c Supersedes) (e_to e) (e_from e) →
    sup_step c e (Ok {| transitioned := bool_decide (n_status target = Active) |}) (c_supersede c e target).

Context `{!KvLaws S, !Blake3Laws, !HexLaws, !AeadLaws, !EnvelopeSerdeLaws, !StoreSerdeLaws (N := MemoryNode)}.
Implicit Types (s : store) (a : AbsStore MemoryNode).

Lemma superseded_target_id e n : node_id (superseded_target e n) = node_id n.
Proof. by apply compute_id_identity. Qed.
Lemma set_status_id st vt n : node_id (set_status st vt n) = node_id n.
Proof. by apply compute_id_identity. Qed.

Lemma would_cycle_rel s a x y :
  store_rel s a → x ≠ y →
  ∃ b : bool, would_cycle_supersedes s x y = Ok b ∧ (b = true ↔ rtc (c_hop (contents a) Supersedes) y x).
Proof.
  intros Hs Hne. destruct (reachable_via_rel s a y Supersedes Hs) as (l & Hl & _ & Hin).
  unfold would_cycle_supersedes. rewrite Hl. simpl. eexists. split; [done|].
  rewrite bool_decide_eq_true, Hin.
  assert (∀ u v, edge_hop a Supersedes u v ↔ c_hop (contents a) Supersedes u v) as Hh.
  { intros u v. unfold c_hop, edge_hop. by rewrite contents_edge. }
  split; [intros [Hr _]|intros Hr; split; [|done]]; (eapply rtc_subrel; [|exact Hr]); intros; by apply Hh.
Qed.

Lemma supersession_ops_rel s a e target :
  store_rel s a → mintable a → read_node a (e_to e) = Some target →
  effect (supersession_ops e target) s (contents a)
    {| transitioned := bool_decide (n_status target = Active) |} (c_supersede (contents a) e target).
Proof.
  intros Hs Hm Ht. destruct (read_node_id _ _ _ _ Hs Ht) as [Hid Hj].
  apply (writes_effect _ s a (λ a1 a' y, y = {| transitioned := bool_decide (n_status target = Active) |} ∧
    ∃ ops us, pending (encrypt_at_rest s) (a_ring a1) ops us ∧ a' = foldl apply_upd a1 us ∧
    upd_vals us = inr e :: (if bool_decide (n_status target = Active) then [inl (superseded_target e target)] else [])));
    [done|done| |].
  - unfold supersession_ops. eapply writes_bind; [by apply runs_edge_put_ops|].
    intros s1 a1 ops (Hs1 & Hmi & He) (c & Hc & Ho).
    destruct (edge_cell_fresh _ _ _ _ _ Hc) as [t Hf].
    assert (pending (encrypt_at_rest s) (a_ring a1) ops [UEdge c]) as Hp.
    { apply (pending_edge _ _ [] [] t e); [constructor|done|done]. }
    eapply (writes_bind _ _ _ _ (λ _ a2 ops2, ∃ us, pending (encrypt_at_rest s) (a_ring a2) ops2 us ∧
      upd_vals us = inr e :: (if bool_decide (n_status target = Active) then [inl (superseded_target e target)] else []))).
    + case_bool_decide.
      * eapply runs_bind; [apply runs_encode_node; [done|by eapply minted_mintable|done]|].
        intros s2 a2 b (Hs2 & Hmi2 & He2) (cn & Hcn). apply runs_ret; [done|].
        exists ([UEdge c] ++ [UNode cn]). rewrite <-Hid, <-(superseded_target_id e). split.
        -- rewrite He in Hcn. apply pending_node; [by eapply pending_minted|done|done].
        -- destruct Hcn as [Hfn _]. simpl. by rewrite (fresh_val _ _ _ _ _ Hf), (fresh_val _ _ _ _ _ Hfn).
      * apply runs_ret; [done|]. exists [UEdge c]. split; [done|]. simpl. by rewrite (fresh_val _ _ _ _ _ Hf).
    + intros s2 a2 ops2 (Hs2 & Hmi2 & He2) (us & Hp2 & Hu). apply writes_batch; [done|by eapply pending_known|].
      eexists. split; [eapply pending_rel; [apply Hs2|done]|]. split; [done|]. by exists ops2, us.
  - intros a1 a' y Hmi Hc (-> & ops & us & Hp & -> & Hu). split; [done|]. split; [|apply ring_apply_upds].
    erewrite contents_pending by done. rewrite Hu, Hc. unfold c_supersede. by case_bool_decide.
Qed.

(** What a call did: a step of the relation, or, on a sealing store only, a
    storage error that changed no contents *)
Definition stepped {E A} (inj_err : StoreError → E) (m : stm store E A) s c (step : result E A → conts → Prop) : Prop :=
  ∃ s' r, m s = (s', r) ∧ encrypt_at_rest s' = encrypt_at_rest s ∧
    ((∃ c', step r c' ∧ holds s' c') ∨
     (∃ err, r = Err (inj_err err) ∧ holds s' c ∧ encrypt_at_rest s = true)).

Lemma stepped_err {E A} inj_err (x : E) s c step :
  holds s c → step (Err x : result E A) c → stepped inj_err (sfail x) s c step.
Proof. intros Hs Hst. eexists s, _. split; [done|]. split; [done|]. left. by exists c. Qed.
Lemma stepped_ret {E A} inj_err (x : A) s c step :
  holds s c → step (Ok x : result E A) c → stepped inj_err (sret x) s c step.
Proof. intros Hs Hst. eexists s, _. split; [done|]. split; [done|]. left. by exists c. Qed.

Lemma stepped_effect {A B E} inj_err (f : A → B) (m : stm store StoreError A) s c x c' step :
  effect m s c x c' → step (Ok (f x) : result E B) c' →
  stepped inj_err (let! y := smap_err inj_err m in sret (f y)) s c step.
Proof.
  intros (s' & r & Hr & He & Hres) Hst. unfold stepped, sbind, smap_err. rewrite Hr.
  destruct r as [y|e]; simpl.
  - destruct Hres as [-> Hh]. eexists s', _. split; [done|]. split; [done|]. left. by exists c'.
  - destruct Hres as [Hh Henc]. eexists s', _. split; [done|]. split; [done|]. right. by exists e.
Qed.

Lemma sbind_sread_ok {St E A B} (f : St → result E A) (k : A → stm St E B) (st : St) x :
  f st = Ok x → sbind (sread f) k st = k x st.
Proof. unfold sbind, sread. by intros ->. Qed.

Lemma sbind_sret {St E A} (m : stm St E A) (st : St) : sbind m sret st = m st.
Proof. unfold sbind. by destruct (m st) as [? []]. Qed.

Lemma apply_supersession_step s c e :
  holds s c → stepped SupStore (apply_supersession e) s c (sup_step c e).
Proof.
  intros Hh. unfold apply_supersession.
  case_bool_decide as Hk; simpl; [|apply stepped_err; [done|by constructor]].
  destruct (e_quarantined e) eqn:Hq; [apply stepped_err; [done|by constructor]|].
  case_bool_decide as Hft; [apply stepped_err; [done|by constructor]|].
  assert (sup_guard e) as Hg by done.
  destruct Hh as (a & Hs & Hm & <-). unfold stepped.
  erewrite sbind_sread_ok by (by rewrite (has_node_rel s a)).
  case_bool_decide as Hkn; simpl.
  2:{ apply stepped_err; [by exists a|]. apply sup_no_from; [done|]. simpl. by rewrite elem_of_dom. }
  assert (e_from e ∈ c_known (contents a)) as Hkn' by (simpl; by rewrite elem_of_dom).
  erewrite sbind_sread_ok by (by rewrite (get_node_rel s a)).
  destruct (read_node a (e_to e)) as [target|] eqn:Ht; simpl.
  2:{ apply (stepped_err SupStore (MissingNode (to_hex (e_to e))) s (contents a)); [by exists a|].
      apply sup_no_to; [done..|]. by rewrite contents_node. }
  assert (c_nodes (contents a) !! e_to e = Some target) as Ht' by (by rewrite contents_node).
  rewrite (sbind_ok _ _ s s target eq_refl).
  destruct (bool_decide (e_plane e = Asserted) && bool_decide (n_plane target = Derived)) eqn:Hpl.
  { apply andb_prop in Hpl as [?%bool_decide_eq_true ?%bool_decide_eq_true].
    apply stepped_err; [by exists a|]. eapply sup_plane; [done..|]. intros Hp. by apply Hp. }
  assert (plane_ok e target) as Hpo.
  { intros [Hp1 Hp2]. by rewrite !bool_decide_eq_true_2 in Hpl. }
  destruct (would_cycle_rel s a (e_from e) (e_to e) Hs Hft) as (b & Hb & Hcyc).
  erewrite sbind_sread_ok by (by rewrite Hb). destruct b.
  { apply stepped_err; [by exists a|]. eapply sup_cycle; [done..|]. by apply Hcyc. }
  rewrite <-sbind_sret. eapply (stepped_effect SupStore (λ x, x)); [by apply supersession_ops_rel|].
  apply sup_applied; [done..|]. rewrite <-Hcyc. done.
Qed.

(** ** Confirmation *)

(** The edge a confirmation writes *)
Definition confirmed_edge (now_ms : Timestamp) e : Edge :=
  if bool_decide (e_kind e = Supersedes) then set_edge_flags false (set_at now_ms (e_provenance e)) e
  else set_edge_flags false (e_provenance e) e.

Inductive confirm_step c (i : ident) (now_ms : Timestamp) : result SupersessionError ConfirmOutcome.t → conts → Prop :=
| confirm_not_found : c_edges c !! i = None → confirm_step c i now_ms (Ok ConfirmOutcome.NotFound) c
| confirm_already e : c_edges c !! i = Some e → e_quarantined e = false →
    confirm_step c i now_ms (Ok ConfirmOutcome.AlreadyConfirmed) c
| confirm_sup e rep c' : c_edges c !! i = Some e → e_quarantined e = true → e_kind e = Supersedes →
    sup_step c (confirmed_edge now_ms e) (Ok rep) c' → confirm_step c i now_ms (Ok ConfirmOutcome.Confirmed) c'
| confirm_sup_err e err c' : c_edges c !! i = Some e → e_quarantined e = true → e_kind e = Supersedes →
    sup_step c (confirmed_edge now_ms e) (Err err) c' → confirm_step c i now_ms (Err err) c'
| confirm_other e : c_edges c !! i = Some e → e_quarantined e = true → e_kind e ≠ Supersedes →
    confirm_step c i now_ms (Ok ConfirmOutcome.Confirmed) (c_put_edge c (confirmed_edge now_ms e)).

Lemma confirm_edge_step s c from to kind now_ms :
  holds s c → stepped SupStore (confirm_edge from to kind now_ms) s c (confirm_step c (from, to, kind) now_ms).
Proof.
  intros Hh. unfold confirm_edge. destruct Hh as (a & Hs & Hm & <-).
  destruct (find_edge_rel s a from to kind Hs) as (es & Hes & Hf). unfold stepped.
  erewrite sbind_sread_ok by (by rewrite Hes). rewrite Hf. rewrite <-contents_edge in *.
  assert (holds s (contents a)) as Hh by (by exists a).
  destruct (c_edges (contents a) !! (from, to, kind)) as [e|] eqn:He.
  2:{ apply stepped_ret; [done|]. by constructor. }
  destruct (e_quarantined e) eqn:Hq; simpl.
  2:{ apply stepped_ret; [done|]. by econstructor. }
  assert (bool_decide (e_kind e = Supersedes) = true → confirmed_edge now_ms e = set_edge_flags false (set_at now_ms (e_provenance e)) e) as Hc1.
  { unfold confirmed_edge. by intros ->. }
  case_bool_decide as Hk.
  - rewrite <-Hc1 by done. destruct (apply_supersession_step s (contents a) (confirmed_edge now_ms e) Hh)
      as (s' & r & Hr & Henc & Hres). unfold sbind. rewrite Hr. destruct r as [rep|err].
    + eexists s', _. split; [done|]. split; [done|]. destruct Hres as [(c' & Hst & Hh')|(? & ? & _)]; [|done].
      left. exists c'. split; [|done]. by eapply confirm_sup.
    + eexists s', _. split; [done|]. split; [done|]. destruct Hres as [(c' & Hst & Hh')|(x & Hx & Hh' & ?)].
      * left. exists c'. split; [|done]. by eapply confirm_sup_err.
      * right. injection Hx as ->. by exists x.
  - eapply (stepped_effect SupStore (λ _, ConfirmOutcome.Confirmed)); [by apply add_edge_effect|].
    replace (c_add_edge _ _) with (c_put_edge (contents a) (confirmed_edge now_ms e)); [by apply confirm_other|].
    unfold c_add_edge, c_demoting, confirmed_edge. simpl. by rewrite bool_decide_eq_false_2.
Qed.

Lemma set_node_status_effect s c id st vt :
  holds s c →
  effect (set_node_status id st vt) s c
    (match c_nodes c !! id with Some n => negb (bool_decide (n_status n = st)) | None => false end)
    (match c_nodes c !! id with
     | Some n => if bool_decide (n_status n = st) then c
                 else c_put_node c (set_status st (match vt with Some _ => vt | None => n_valid_to n end) n)
     | None => c
     end).
Proof.
  intros (a & Hs & Hm & <-). unfold set_node_status, effect. erewrite sbind_sread_ok by (by apply get_node_rel).
  rewrite contents_node. destruct (read_node a id) as [n|] eqn:Hn.
  2:{ eexists s, _. split; [done|]. split; [done|]. split; [done|]. by exists a. }
  case_bool_decide as Hst.
  { eexists s, _. split; [done|]. split; [done|]. split; [done|]. by exists a. }
  destruct (read_node_id _ _ _ _ Hs Hn) as [Hid Hj]. set (n' := set_status _ _ n).
  assert (node_id n' = id) as Hid' by (by rewrite <-Hid; apply set_status_id).
  apply (writes_effect _ s a (λ a1 a' y, y = true ∧ ∃ cl, fresh_cell (encrypt_at_rest s) (a_ring a1) (tenant n') n' cl ∧
    a' = set_node (node_id n') cl a1)); [done|done| |].
  - eapply writes_bind; [by apply runs_encode_node|]. intros s1 a1 v (Hs1 & Hmi & He) (cl & Hc).
    rewrite <-Hid'. apply writes_batch; [done|done|]. eexists. split; [by eapply rel_fresh_node|]. split; [done|].
    exists cl. by destruct Hc.
  - intros a1 a' y Hmi Hc (-> & cl & Hf & ->). split; [done|]. split; [|done].
    rewrite contents_set_node by (by eapply fresh_read). by rewrite Hc.
Qed.

(** ** The supersession graph *)

(** A readable load-bearing [Supersedes] edge *)
Definition c_sup c (x y : ContentHash) : Prop :=
  ∃ e, c_edges c !! (x, y, Supersedes) = Some e ∧ e_quarantined e = false.

(** [SupersededDag]'s invariants, and that no validity interval ends before it
    begins *)
Definition Acyclic c : Prop := ∀ x, ¬ tc (c_sup c) x x.
Definition LatestWellDefined c : Prop :=
  ∀ x y n, c_sup c x y → c_nodes c !! y = Some n → n_status n ≠ Active.
Definition interval_ok (n : MemoryNode) : Prop := ∀ v, n_valid_to n = Some v → n_valid_from n ≤ v.
Definition ValidIntervals c : Prop := ∀ i n, c_nodes c !! i = Some n → interval_ok n.

Record dag_inv c : Prop := {
  inv_acyclic : Acyclic c;
  inv_latest : LatestWellDefined c;
  inv_intervals : ValidIntervals c;
  inv_ids : ∀ i n, c_nodes c !! i = Some n → node_id n = i;
}.

Lemma c_sup_hop c x y : c_sup c x y → c_hop c Supersedes x y.
Proof. intros (e & He & _). by exists e. Qed.

Lemma tc_mono {A} (P Q : A → A → Prop) u v : (∀ x y, P x y → Q x y) → tc P u v → tc Q u v.
Proof. intros Hpq. induction 1; [apply tc_once|eapply tc_l]; eauto. Qed.

(** Adding one edge to a relation: a new path uses it or does not. *)
Lemma tc_add_edge {A} (P Q : A → A → Prop) (f t : A) :
  (∀ u v, Q u v → P u v ∨ u = f ∧ v = t) → ∀ u v, tc Q u v → tc P u v ∨ rtc P u f ∧ rtc P t v.
Proof.
  intros Hq u v Ht. induction Ht as [u v Huv|u w v Huw Hwv IH].
  - destruct (Hq _ _ Huv) as [?|[-> ->]]; [left; by apply tc_once|by right].
  - destruct (Hq _ _ Huw) as [Hp|[-> ->]].
    + destruct IH as [?|[? ?]]; [left; by eapply tc_l|right; split; [by eapply rtc_l|done]].
    + destruct IH as [?|[? ?]]; right; (split; [done|]); [by apply tc_rtc|done].
Qed.

Lemma acyclic_put_edge c e :
  Acyclic c → (e_kind e = Supersedes → e_quarantined e = false →
    ¬ rtc (c_hop c Supersedes) (e_to e) (e_from e)) → Acyclic (c_put_edge c e).
Proof.
  intros Hac Hno x Hx.
  assert (∀ u v, c_sup (c_put_edge c e) u v →
    c_sup c u v ∨ (u = e_from e ∧ v = e_to e) ∧ e_kind e = Supersedes ∧ e_quarantined e = false) as Hnew.
  { intros u v (e' & He' & Hq'). simpl in He'. rewrite lookup_insert in He'.
    case_decide as Hi; [|left; by exists e']. injection He' as <-. injection Hi as -> -> ->. by right. }
  destruct (tc_add_edge (c_sup c) (c_sup (c_put_edge c e)) (e_from e) (e_to e)) with (u := x) (v := x) as [Hp|[Hp1 Hp2]].
  - intros u v Huv. destruct (Hnew u v Huv) as [?|[? _]]; auto.
  - done.
  - by apply (Hac x).
  - destruct (decide (e_kind e = Supersedes ∧ e_quarantined e = false)) as [[Hk Hq]|Hn].
    + apply (Hno Hk Hq). eapply rtc_subrel; [|exact (transitivity Hp2 Hp1)].
      intros; by apply c_sup_hop.
    + apply (Hac x). eapply tc_mono; [|exact Hx]. intros u v Huv. destruct (Hnew u v Huv) as [?|[_ ?]]; [done|tauto].
Qed.

Lemma acyclic_edges c c' : c_edges c' = c_edges c → Acyclic c → Acyclic c'.
Proof.
  intros He Hac x Hx. apply (Hac x). eapply tc_mono; [|exact Hx]. intros u v Huv. unfold c_sup in *. by rewrite <-He.
Qed.

Lemma dag_inv_put_node c n :
  dag_inv c → interval_ok n → (n_status n = Active → ∀ x, ¬ c_sup c x (node_id n)) → dag_inv (c_put_node c n).
Proof.
  intros [Ha Hl Hv Hi] Hn Hs. split; [by apply (acyclic_edges c)| | |].
  - intros x y m Hxy. simpl. rewrite lookup_insert. case_decide as Hd; [|by apply (Hl x)].
    intros [= <-] Hst. subst y. by apply (Hs Hst x).
  - intros i m. simpl. rewrite lookup_insert. case_decide; [by intros [= <-]|apply Hv].
  - intros i m. simpl. rewrite lookup_insert. case_decide; [by intros [= <-]|apply Hi].
Qed.

(** The supersession step keeps every invariant. *)
Lemma sup_step_inv c e r c' : sup_step c e r c' → dag_inv c → dag_inv c'.
Proof.
  intros Hst Hinv. inversion Hst as [| | | | | | |target Hg Hkn Ht Hpl Hcyc]; subst; try done.
  destruct Hg as (Hk & Hq & Hne). destruct Hinv as [Ha Hl Hv Hi]. pose proof (Hi _ _ Ht) as Hid.
  assert (Acyclic (c_put_edge c e)) as Ha' by (by apply acyclic_put_edge).
  assert (∀ x y, c_sup (c_put_edge c e) x y → c_sup c x y ∨ y = e_to e) as Hnew.
  { intros x y (e' & He' & Hq'). simpl in He'. rewrite lookup_insert in He'.
    case_decide as Hd; [|left; by exists e']. injection Hd as <- <- _. by right. }
  unfold c_supersede. case_bool_decide as Hact; split.
  - by apply (acyclic_edges (c_put_edge c e)).
  - intros x y n Hxy. simpl. rewrite superseded_target_id, Hid, lookup_insert. case_decide as Hd; [by intros [= <-]|].
    destruct (Hnew x y Hxy) as [?|?]; [by apply (Hl x)|congruence].
  - intros i n. simpl. rewrite lookup_insert. case_decide; [|apply Hv].
    intros [= <-] v [= <-]. simpl. lia.
  - intros i n. simpl. rewrite lookup_insert. case_decide; [by intros [= <-]|apply Hi].
  - done.
  - intros x y n Hxy Hn. simpl in Hn. destruct (Hnew x y Hxy) as [?| ->]; [by apply (Hl x y)|congruence].
  - done.
  - done.
Qed.

Lemma dag_inv_add_edge c e :
  dag_inv c → ¬ (e_kind e = Supersedes ∧ e_quarantined e = false) → dag_inv (c_add_edge c e).
Proof.
  intros [Ha Hl Hv Hi] Hn. unfold c_add_edge. destruct (c_demoting c e) eqn:Hd; [done|]. split; [|..|done|done].
  - apply acyclic_put_edge; [done|tauto].
  - intros x y n (e' & He' & Hq'). simpl in He'. rewrite lookup_insert in He'. case_decide as Hdi.
    + injection He' as <-. injection Hdi as _ _ ?. tauto.
    + apply (Hl x). by exists e'.
Qed.

Lemma confirm_step_inv c i now_ms r c' : confirm_step c i now_ms r c' → dag_inv c → dag_inv c'.
Proof.
  intros Hst Hinv. inversion Hst as [| |e rep c1 He Hq Hk Hs|e err c1 He Hq Hk Hs|e He Hq Hk]; subst; try done.
  - by eapply sup_step_inv.
  - by eapply sup_step_inv.
  - assert (confirmed_edge now_ms e = set_edge_flags false (e_provenance e) e) as Hc
      by (unfold confirmed_edge; by rewrite bool_decide_eq_false_2).
    replace (c_put_edge c _) with (c_add_edge c (confirmed_edge now_ms e)) by (unfold c_add_edge, c_demoting; by rewrite Hc).
    apply dag_inv_add_edge; [done|]. rewrite Hc. simpl. tauto.
Qed.

(** ** Runs *)

(** The calls a client makes on the supersession graph.  [put_node] and
    [set_node_status] may not revive a superseded node, and a load-bearing
    [Supersedes] edge goes through [apply_supersession]. *)
Inductive dag_call :=
| CallPut (n : MemoryNode)
| CallEdge (e : Edge)
| CallSupersede (e : Edge)
| CallConfirm (from to : ContentHash) (kind : EdgeKind) (now_ms : Timestamp)
| CallArchive (id : ContentHash) (valid_to : option Timestamp).

Definition call_ok c (k : dag_call) : Prop :=
  match k with
  | CallPut n => json_repr n ∧ interval_ok n ∧ (n_status n = Active → ∀ x, ¬ c_sup c x (node_id n))
  | CallEdge e => ¬ (e_kind e = Supersedes ∧ e_quarantined e = false)
  | CallArchive id (Some v) => ∀ n, c_nodes c !! id = Some n → n_valid_from n ≤ v
  | _ => True
  end.

Definition run_call (k : dag_call) s : store :=
  match k with
  | CallPut n => (put_node n s).1
  | CallEdge e => (add_edge (N := MemoryNode) e s).1
  | CallSupersede e => (apply_supersession e s).1
  | CallConfirm f t k now => (confirm_edge f t k now s).1
  | CallArchive id vt => (set_node_status id Archived vt s).1
  end.

Lemma effect_inv {E A} (m : stm store E A) s c x c' :
  effect m s c x c' → dag_inv c → dag_inv c' → ∃ c1, holds (m s).1 c1 ∧ dag_inv c1.
Proof. intros (s' & r & -> & _ & Hr) Hi Hi'. destruct r; naive_solver. Qed.

Lemma stepped_inv {E A} inj_err (m : stm store E A) s c step :
  stepped inj_err m s c step → dag_inv c → (∀ r c', step r c' → dag_inv c') → ∃ c1, holds (m s).1 c1 ∧ dag_inv c1.
Proof. intros (s' & r & -> & _ & [(c' & Hst & Hh)|(e & _ & Hh & _)]) Hi Hi'; eauto. Qed.

Lemma run_call_inv k s c : holds s c → dag_inv c → call_ok c k → ∃ c', holds (run_call k s) c' ∧ dag_inv c'.
Proof.
  intros Hh Hi. destruct k as [n|e|e|f t kd now|id vt]; simpl; intros Hok.
  - destruct Hok as (Hj & Hv & Hs). eapply effect_inv; [by apply put_node_effect|done|by apply dag_inv_put_node].
  - eapply effect_inv; [by apply add_edge_effect|done|by apply dag_inv_add_edge].
  - eapply stepped_inv; [by apply apply_supersession_step|done|]. intros r c' Hst. by eapply sup_step_inv.
  - eapply stepped_inv; [by apply confirm_edge_step|done|]. intros r c' Hst. by eapply confirm_step_inv.
  - eapply effect_inv; [by apply set_node_status_effect|done|].
    destruct (c_nodes c !! id) as [n|] eqn:Hn; [|done]. case_bool_decide as Hst; [done|].
    apply dag_inv_put_node; [done| |done]. intros v. simpl. destruct vt as [w|].
    + intros [= <-]. by apply Hok.
    + by apply (inv_intervals _ Hi _ _ Hn).
Qed.

(** A run of calls, each allowed in the contents it meets *)
Inductive dag_run : store → store → Prop :=
| run_done s : dag_run s s
| run_next s k s' : (∀ c, holds s c → call_ok c k) → dag_run (run_call k s) s' → dag_run s s'.

Lemma sup_step_functional c e r1 c1 r2 c2 : sup_step c e r1 c1 → sup_step c e r2 c2 → r1 = r2 ∧ c1 = c2.
Proof.
  intros Hs1 Hs2. destruct Hs1, Hs2; unfold sup_guard in *; destruct_and?; simplify_eq; try done;
    by exfalso; congruence || tauto.
Qed.

(** After an edge is applied nothing leads back from its target to its source,
    the new edge itself included. *)
Lemma no_return_put_edge c e :
  e_from e ≠ e_to e → ¬ rtc (c_hop c Supersedes) (e_to e) (e_from e) →
  ¬ rtc (c_hop (c_put_edge c e) Supersedes) (e_to e) (e_from e).
Proof.
  intros Hne Hno Hr.
  destruct (tc_add_edge (c_hop c Supersedes) (c_hop (c_put_edge c e) Supersedes) (e_from e) (e_to e))
    with (u := e_to e) (v := e_from e) as [Hp|[Hp _]].
  - intros u v [e' He']. simpl in He'. rewrite lookup_insert in He'. case_decide as Hd; [|left; by exists e'].
    injection Hd as <- <- _. by right.
  - destruct (rtc_inv_r _ _ Hr) as [?|(z & Hz & Hzx)]; [congruence|]. by eapply tc_rtc_l; [|apply tc_once].
  - by apply Hno, tc_rtc.
  - done.
Qed.

(** [C5] [apply_supersession] decides exactly one of its outcomes, in the order of
    the code's guards: the wrong kind, a quarantined edge, a self-supersession, a
    missing source, a missing target, an asserted edge over a derived target and
    a cycle are each refused with their own error and change nothing; otherwise
    the edge is written together with the target's transition from Active to
    Superseded.  A storage error is possible only when the store seals, and
    changes no contents. *)
Theorem apply_supersession_correct s c e (Hs : holds s c) :
  ∃ s' r c', apply_supersession e s = (s', r) ∧ holds s' c' ∧
    ((sup_step c e r c' ∧ ∀ r2 c2, sup_step c e r2 c2 → r2 = r ∧ c2 = c') ∨
     (encrypt_at_rest s = true ∧ c' = c ∧ ∃ err, r = Err (SupStore err))).
Proof.
  destruct (apply_supersession_step s c e Hs) as (s' & r & Hr & _ & [(c' & Hst & Hh)|(err & -> & Hh & Henc)]).
  - exists s', r, c'. split_and!; [done|done|]. left. split; [done|]. intros r2 c2 Hst2.
    by apply (sup_step_functional c e).
  - eexists s', _, c. split_and!; [done|done|]. right. split_and!; [done|done|by exists err].
Qed.


(** Re-applying a supersession is idempotent: after an edge was applied, the
    same edge is accepted again, reports no transition and leaves the contents
    (the target's status and [valid_to] included) exactly as they are. *)
Theorem apply_supersession_idempotent s c e s1 rep (Hs : holds s c) (Hc : dag_inv c)
    (Hplain : encrypt_at_rest s = false) (Happ : apply_supersession e s = (s1, Ok rep)) :
  ∃ c1 s2, holds s1 c1 ∧ apply_supersession e s1 = (s2, Ok {| transitioned := false |}) ∧ holds s2 c1.
Proof.
  destruct (apply_supersession_step s c e Hs) as (s' & r & Hr & He & Hres). rewrite Happ in Hr.
  injection Hr as <- <-. destruct Hres as [(c1 & Hst & Hh)|(? & ? & _)]; [|done].
  exists c1. destruct (apply_supersession_step s1 c1 e Hh) as (s2 & r2 & Hr2 & He2 & Hres2).
  exists s2. split; [done|]. destruct Hres2 as [(c2 & Hst2 & Hh2)|(? & _ & _ & ?)]; [|congruence].
  assert (sup_step c1 e (Ok {| transitioned := false |}) c1) as Hst1.
  { inversion Hst as [| | | | | | |target Hg Hkn Ht Hpl Hcyc]; subst. pose proof Hg as (Hk & Hq & Hne).
    pose proof (inv_ids _ Hc _ _ Ht) as Hid.
    assert (∃ t, c_nodes (c_supersede c e target) !! e_to e = Some t ∧ n_status t ≠ Active ∧ n_plane t = n_plane target)
      as (t & Ht' & Hnt & Hp').
    { unfold c_supersede. case_bool_decide; [|by exists target]. exists (superseded_target e target).
      split; [|done]. simpl. by rewrite superseded_target_id, Hid, lookup_insert_eq. }
    assert (c_edges (c_supersede c e target) = c_edges (c_put_edge c e)) as Hes.
    { unfold c_supersede. by case_bool_decide. }
    replace (c_supersede c e target) with (c_supersede (c_supersede c e target) e t) at 2.
    - rewrite <-(bool_decide_eq_false_2 (n_status t = Active)) by done. apply sup_applied; [done| |done|..].
      + unfold c_supersede. case_bool_decide; simpl; set_solver.
      + unfold plane_ok. by rewrite Hp'.
      + unfold c_hop. rewrite Hes. by apply no_return_put_edge.
    - unfold c_supersede at 1. rewrite bool_decide_eq_false_2 by done. unfold c_put_edge at 1. rewrite Hes.
      unfold c_supersede. case_bool_decide; simpl; unfold c_put_edge, c_put_node; simpl; by rewrite insert_insert_eq. }
  destruct (sup_step_functional _ _ _ _ _ _ Hst1 Hst2) as [<- <-]. done.
Qed.

(** Confirming an edge: an absent edge is reported as not found, a
    load-bearing one as already confirmed, a quarantined one becomes load-bearing
    with its other fields kept; a quarantined [Supersedes] edge goes through
    every supersession guard, stamped with the confirmation clock instead of the
    proposer's timestamp, and the guard's error is returned with nothing
    changed. *)
Theorem confirm_edge_correct s c from to kind now_ms (Hs : holds s c) :
  ∃ s' r c', confirm_edge from to kind now_ms s = (s', r) ∧ holds s' c' ∧
    (confirm_step c (from, to, kind) now_ms r c' ∨
     (encrypt_at_rest s = true ∧ c' = c ∧ ∃ err, r = Err (SupStore err))).
Proof.
  destruct (confirm_edge_step s c from to kind now_ms Hs) as (s' & r & Hr & _ & [(c' & Hst & Hh)|(err & -> & Hh & Henc)]).
  - exists s', r, c'. split_and!; [done|done|by left].
  - eexists s', _, c. split_and!; [done|done|]. right. split_and!; [done|done|by exists err].
Qed.
End supersession.
