(* ===== verification/StoreInterface.v ===== *)
(** * What the store promises its clients

    [MemStore] lists the operations of [MemoryDagStore<MemoryNode>] that the
    asserter, the sync engine and the query engine call; [MemStoreLaws] states
    what they do to the readable contents.  The store discharges the laws for
    every backend, sealed or not. *)

From S2P Require Import Prelude Bytes Externs Text Belnap Identity Node Edge Kv Shred Store StoreSpec StoreRefine.
From S2P Require Import StoreWrite StoreContents Supersession.

Abbreviation conts := (Contents MemoryNode).

Class MemStore (T : Type) := {
  ms_get_node : T → ContentHash → result StoreError (option MemoryNode);
  ms_has_node : T → ContentHash → result StoreError bool;
  ms_all_nodes : T → result StoreError (list MemoryNode);
  ms_node_count : T → result StoreError nat;
  ms_edge_count : T → result StoreError nat;
  ms_out_edges : T → ContentHash → result StoreError (list Edge);
  ms_in_edges : T → ContentHash → result StoreError (list Edge);
  ms_all_edges : T → result StoreError (list Edge);
  ms_get_meta : T → bytes → result StoreError (option bytes);
  ms_put_node : MemoryNode → stm T StoreError ContentHash;
  ms_add_edge : Edge → stm T StoreError unit;
  ms_commit : list MemoryNode → list Edge → stm T StoreError unit;
  ms_put_meta : string → bytes → bytes → stm T StoreError unit;
  ms_apply_supersession : Edge → stm T SupersessionError SupersessionReport;
  ms_confirm_edge : ContentHash → ContentHash → EdgeKind → Timestamp → stm T SupersessionError ConfirmOutcome.t;
  ms_set_node_status : ContentHash → Status → option Timestamp → stm T StoreError bool;
}.
#[global] Hint Mode MemStore ! : typeclass_instances.

(** On success the call returns [x] and the contents become [c'], on failure they
    stay; a store that does not seal does not fail. *)
Definition ms_effect {T E A} (holds : T → conts → Prop) (sealing : T → bool) (m : stm T E A) (t : T)
    (c : conts) (x : A) (c' : conts) : Prop :=
  ∃ t' r, m t = (t', r) ∧ sealing t' = sealing t ∧
    match r with
    | Ok y => y = x ∧ holds t' c'
    | Err _ => holds t' c ∧ sealing t = true
    end.

(** The edges a scan returns: exactly those readable with the property, each
    identity once *)
Definition lists_edges (c : conts) (P : Edge → Prop) (es : list Edge) : Prop :=
  NoDup (edge_ident <$> es) ∧ ∀ e, e ∈ es ↔ c_edges c !! edge_ident e = Some e ∧ P e.

(** [set_node_status] on contents: whether it changes anything, and what *)
Definition c_status_changes (c : conts) (id : ContentHash) (st : Status) : bool :=
  match c_nodes c !! id with Some n => negb (bool_decide (n_status n = st)) | None => false end.
Definition c_set_status `{Blake3} (c : conts) (id : ContentHash) (st : Status) (vt : option Timestamp) : conts :=
  match c_nodes c !! id with
  | Some n => if bool_decide (n_status n = st) then c
              else c_put_node c (set_status st (match vt with Some _ => vt | None => n_valid_to n end) n)
  | None => c
  end.

Class MemStoreLaws (T : Type) `{MemStore T, Blake3, Hex} := {
  ms_holds : T → conts → Prop;
  ms_sealing : T → bool;
  (** a meta value that is not itself an envelope *)
  ms_meta_value : bytes → Prop;
  ms_ids : ∀ t c, ms_holds t c →
    (∀ i n, c_nodes c !! i = Some n → compute_id n = i ∧ json_repr n) ∧
    (∀ i e, c_edges c !! i = Some e → edge_ident e = i);
  ms_get_node_ok : ∀ t c id, ms_holds t c → ms_get_node t id = Ok (c_nodes c !! id);
  ms_get_meta_ok : ∀ t c k, ms_holds t c → ms_get_meta t k = Ok (c_meta c !! k);
  ms_all_nodes_ok : ∀ t c, ms_holds t c →
    ∃ ns, ms_all_nodes t = Ok ns ∧ NoDup (compute_id <$> ns) ∧ StronglySorted (key_le compute_id) ns ∧
          ∀ n, n ∈ ns ↔ c_nodes c !! compute_id n = Some n;
  ms_out_edges_ok : ∀ t c f, ms_holds t c → ∃ es, ms_out_edges t f = Ok es ∧ lists_edges c (λ e, e_from e = f) es;
  ms_in_edges_ok : ∀ t c d, ms_holds t c → ∃ es, ms_in_edges t d = Ok es ∧ lists_edges c (λ e, e_to e = d) es;
  ms_all_edges_ok : ∀ t c, ms_holds t c → ∃ es, ms_all_edges t = Ok es ∧ lists_edges c (λ _, True) es;
  ms_put_node_ok : ∀ t c n, ms_holds t c → json_repr n →
    ms_effect ms_holds ms_sealing (ms_put_node n) t c (compute_id n) (c_put_node c n);
  ms_add_edge_ok : ∀ t c e, ms_holds t c →
    ms_effect ms_holds ms_sealing (ms_add_edge e) t c tt (c_add_edge c e);
  ms_commit_ok : ∀ t c ns es, ms_holds t c → Forall json_repr ns →
    ms_effect ms_holds ms_sealing (ms_commit ns es) t c tt (c_commit c ns es);
  ms_put_meta_ok : ∀ t c tn k v, ms_holds t c → (ms_sealing t = false → ms_meta_value v) →
    ms_effect ms_holds ms_sealing (ms_put_meta tn k v) t c tt (c_put_meta k v c);
  ms_supersede_ok : ∀ t c e, ms_holds t c →
    ∃ t' r, ms_apply_supersession e t = (t', r) ∧ ms_sealing t' = ms_sealing t ∧
      ((∃ c', sup_step c e r c' ∧ ms_holds t' c') ∨
       (∃ err, r = Err (SupStore err) ∧ ms_holds t' c ∧ ms_sealing t = true));
  ms_confirm_ok : ∀ t c from to kind now, ms_holds t c →
    ∃ t' r, ms_confirm_edge from to kind now t = (t', r) ∧ ms_sealing t' = ms_sealing t ∧
      ((∃ c', confirm_step c (from, to, kind) now r c' ∧ ms_holds t' c') ∨
       (∃ err, r = Err (SupStore err) ∧ ms_holds t' c ∧ ms_sealing t = true));
  ms_node_count_ok : ∀ t c, ms_holds t c → ms_node_count t = Ok (size (c_known c));
  ms_edge_count_ok : ∀ t c, ms_holds t c → ∃ n, ms_edge_count t = Ok n;
  ms_set_node_status_ok : ∀ t c id st vt, ms_holds t c →
    ms_effect ms_holds ms_sealing (ms_set_node_status id st vt) t c (c_status_changes c id st) (c_set_status c id st vt);
}.

Section instance.
Context {S R : Type} `{KvStore S, Rng R, Blake3, Hex, Aead}.
Context `{Serde Envelope, Serde KeyringEntry, Serde Edge, Serde MemoryNode}.

#[export] Instance dag_store : MemStore (MemoryDagStore S R) := {|
  ms_get_node := get_node;
  ms_has_node := has_node;
  ms_all_nodes := all_nodes;
  ms_node_count := node_count;
  ms_edge_count := edge_count;
  ms_out_edges := out_edges;
  ms_in_edges := in_edges;
  ms_all_edges := all_edges;
  ms_get_meta := get_meta;
  ms_put_node := put_node;
  ms_add_edge := add_edge (N := MemoryNode);
  ms_commit := commit;
  ms_put_meta := put_meta;
  ms_apply_supersession := apply_supersession;
  ms_confirm_edge := confirm_edge;
  ms_set_node_status := set_node_status;
|}.

Context `{!KvLaws S, !Blake3Laws, !HexLaws, !AeadLaws, !EnvelopeSerdeLaws, !StoreSerdeLaws (N := MemoryNode)}.

Lemma lists_edges_contents (a : AbsStore MemoryNode) (P : Edge → Prop) es :
  NoDup (edge_ident <$> es) → (∀ e, e ∈ es ↔ read_edge a (edge_ident e) = Some e ∧ P e) →
  lists_edges (contents a) P es.
Proof. intros Hnd Hes. split; [done|]. intros e. by rewrite contents_edge. Qed.

Lemma node_count_rel (s : MemoryDagStore S R) (a : AbsStore MemoryNode) : store_rel s a → node_count s = Ok (size (c_known (contents a))).
Proof.
  intros Hs. unfold node_count. rewrite (iter_rows_rel s a) by done. cbn [rmap]. f_equal. unfold sorted_rows.
  rewrite length_sort_by_key. destruct (rel_nodes _ _ (proj2 Hs)) as [Hkeys Ht]. set (m := kv_view (kv s) NODES) in *.
  change (c_known (contents a)) with (dom (a_nodes a)).
  change (size (dom (a_nodes a))) with (length (elements (dom (a_nodes a)))).
  rewrite <-(length_fmap fst), <-(length_fmap array_bytes (elements _)). apply Permutation_length, NoDup_Permutation.
  - apply NoDup_fst_map_to_list.
  - apply NoDup_fmap_2; [intros x y; apply array_eq|apply NoDup_elements].
  - intros k. rewrite !list_elem_of_fmap. setoid_rewrite elem_of_elements. setoid_rewrite elem_of_dom. split.
    + intros ([k' b] & -> & Hb%elem_of_map_to_list). cbn [fst]. destruct (Hkeys k') as [i ->]; [by exists b|].
      exists i. split; [done|]. specialize (Ht i). rewrite Hb in Ht. by destruct (a_nodes a !! i).
    + intros (i & -> & [c Hc]). specialize (Ht i). rewrite Hc in Ht. destruct (m !! array_bytes i) as [b|] eqn:Hb; [|done].
      exists (array_bytes i, b). split; [done|]. by apply elem_of_map_to_list.
Qed.

(** The store keeps its promises. *)
#[export] Program Instance dag_store_laws : MemStoreLaws (MemoryDagStore S R) := {|
  ms_holds := holds;
  ms_sealing := encrypt_at_rest;
  ms_meta_value v := parse_envelope v = None;
|}.
Next Obligation.
  intros s c (a & Hs & Hm & <-). split.
  - intros i n. rewrite contents_node. intros Hn. exact (read_node_id s a i n Hs Hn).
  - intros i e. rewrite contents_edge. by apply (read_edge_ident s).
Qed.
Next Obligation. intros s c id (a & Hs & Hm & <-). rewrite contents_node. by apply get_node_rel. Qed.
Next Obligation. intros s c k (a & Hs & Hm & <-). rewrite contents_meta. by apply get_meta_rel. Qed.
Next Obligation.
  intros s c (a & Hs & Hm & <-). destruct (all_nodes_rel s a Hs) as (ns & Hns & Hnd & Hso & Hin).
  exists ns. split_and!; [done|done|done|]. intros n. by rewrite contents_node, Hin.
Qed.
Next Obligation.
  intros s c f (a & Hs & Hm & <-). destruct (out_edges_rel s a f Hs) as (es & Hes & Hnd & Hin).
  exists es. split; [done|]. by apply lists_edges_contents.
Qed.
Next Obligation.
  intros s c f (a & Hs & Hm & <-). destruct (in_edges_rel s a f Hs) as (es & Hes & Hnd & Hin).
  exists es. split; [done|]. by apply lists_edges_contents.
Qed.
Next Obligation.
  intros s c (a & Hs & Hm & <-). destruct (all_edges_rel s a Hs) as (es & Hes & Hnd & Hin).
  exists es. split; [done|]. apply lists_edges_contents; [done|]. intros e. rewrite Hin. tauto.
Qed.
Next Obligation. intros s c n Hs Hj. exact (put_node_effect s c n Hs Hj). Qed.
Next Obligation. intros s c e Hs. by apply add_edge_effect. Qed.
Next Obligation. intros s c ns es Hs Hj. by apply commit_effect. Qed.
Next Obligation. intros s c tn k v Hs Hv. by apply put_meta_effect. Qed.
Next Obligation. intros s c e Hs. by apply apply_supersession_step. Qed.
Next Obligation. intros s c from to kind now Hs. by apply confirm_edge_step. Qed.
Next Obligation. intros s c (a & Hs & _ & <-). by apply node_count_rel. Qed.
Next Obligation. intros s c (a & Hs & _). eexists. cbn. unfold edge_count. by rewrite (iter_rows_rel s a). Qed.
Next Obligation. intros s c id st vt Hs. by apply set_node_status_effect. Qed.
End instance.

(** ** Reasoning about clients *)

(** The nodes that may meet: blake3 does not collide on the bytes hashed for one
    of [nodes] and for a stored node. *)
Definition no_collision `{Blake3} (nodes : list MemoryNode) (c : conts) : Prop :=
  ∀ n m i, n ∈ nodes → c_nodes c !! i = Some m → compute_id n = i →
    node_wf n ∧ node_wf m ∧ (blake3 (id_preimage n) = blake3 (id_preimage m) → id_preimage n = id_preimage m).

Lemma no_collision_identity `{Blake3} nodes c :
  no_collision nodes c → ∀ n m i, n ∈ nodes → c_nodes c !! i = Some m → compute_id n = i → compute_id m = i →
  identity_set n = identity_set m.
Proof.
  intros Hcol n m i Hn Hm Hi Him. destruct (Hcol n m i Hn Hm Hi) as (Hwn & Hwm & Hinj).
  apply id_preimage_inj; [done|done|]. apply Hinj. change (compute_id n = compute_id m). congruence.
Qed.

(** A call that keeps a property of the contents, whatever it returns *)
Section keeps.
Context {T : Type} `{MemStore T, Blake3, Hex, !MemStoreLaws T} (P : conts → Prop).

Definition keeps {E A} (m : stm T E A) : Prop :=
  ∀ t c, ms_holds t c → P c → ∃ c', ms_holds (m t).1 c' ∧ P c'.

Lemma keeps_ret {E A} (x : A) : keeps (E := E) (sret x).
Proof. intros t c Ht Hc. by exists c. Qed.
Lemma keeps_bind {E A B} (m : stm T E A) (k : A → stm T E B) : keeps m → (∀ x, keeps (k x)) → keeps (sbind m k).
Proof.
  intros Hm Hk t c Ht Hc. destruct (Hm t c Ht Hc) as (c1 & Ht1 & Hc1). unfold sbind.
  destruct (m t) as [t1 [x|e]]; simpl in *; [by eapply Hk|by exists c1].
Qed.
(** After a read, the continuation may use what was read. *)
Lemma keeps_bind_read {E A B} (f : T → result E A) (k : A → stm T E B) :
  (∀ t c x, ms_holds t c → P c → f t = Ok x → ∃ c', ms_holds (k x t).1 c' ∧ P c') → keeps (sbind (sread f) k).
Proof.
  intros Hk t c Ht Hc. unfold sbind, sread. destruct (f t) as [x|e] eqn:Hf; [by eapply Hk|]. by exists c.
Qed.
Lemma keeps_map_err {E F A} (f : E → F) (m : stm T E A) : keeps m → keeps (smap_err f m).
Proof. intros Hm t c Ht Hc. unfold smap_err. specialize (Hm t c Ht Hc). by destruct (m t). Qed.
Lemma keeps_read {E A} (f : T → result E A) : keeps (sread f).
Proof. intros t c Ht Hc. by exists c. Qed.
Lemma keeps_fold {E A B} (f : B → A → stm T E B) b l : (∀ b a, a ∈ l → keeps (f b a)) → keeps (sfold f b l).
Proof.
  revert b. induction l as [|a l IH]; intros b Hf; [apply keeps_ret|]. simpl. apply keeps_bind.
  - apply Hf, list_elem_of_here.
  - intros b'. apply IH. intros. apply Hf. by apply list_elem_of_further.
Qed.

Lemma effect_keeps {E A} (m : stm T E A) t c x c' :
  ms_effect ms_holds ms_sealing m t c x c' → P c → P c' → ∃ c1, ms_holds (m t).1 c1 ∧ P c1.
Proof. intros (t' & r & -> & _ & Hr) Hc Hc'. destruct r; destruct Hr; eauto. Qed.
End keeps.
