(* ===== verification/Rocks.v ===== *)
(** * The RocksDB backend ([mem-store/src/rocks.rs])

    The adapter from the backend interface to the rocksdb library, and the constructors of
    a store on it.  The library is a parameter: an open database with its column families,
    iterators, synchronous batches and checkpoints, and the disk databases are opened from. *)

From S2P Require Import Prelude Bytes Externs Text Belnap Identity Node Edge Kv Shred Store StoreSpec StoreContents Supersession StoreInterface.

(** ** rocksdb *)

Class RocksDb (D : Type) := {
  (** [cf_handle(cf).is_some()] *)
  db_cf_handle : D → string → bool;
  db_get_cf : D → string → bytes → result string (option bytes);
  db_put_cf : string → bytes → bytes → stm D string unit;
  db_delete_cf : string → bytes → stm D string unit;
  (** [iterator_cf(cf, IteratorMode::Start)], item by item *)
  db_iterator_cf : D → string → list (result string (bytes * bytes));
  (** [write_opt(batch, sync)] *)
  db_write_sync : list KvOp → stm D string unit;
  (** [Checkpoint::new] and [create_checkpoint] *)
  db_checkpoint_new : D → result string unit;
  db_create_checkpoint : D → string → result string unit;
}.
#[global] Hint Mode RocksDb ! : typeclass_instances.

(** [DB::open_cf_descriptors], creating what is missing, and [DB::repair] *)
Class RocksDisk (K D : Type) := {
  db_open : string → list string → stm K string D;
  db_repair : string → stm K string unit;
}.
#[global] Hint Mode RocksDisk ! ! : typeclass_instances.

(** What is documented of the library: a handle exists for exactly the open column
    families; a database without input-output errors reads what was written; iteration from
    the start is in key order; and a batch is applied as a whole or not at all. *)
Class RocksLaws (D : Type) `{RocksDb D} := {
  db_view : D → string → cf_map;
  db_cfs : D → gset string;
  db_healthy : D → Prop;
  db_handle_iff : ∀ d cf, db_cf_handle d cf = bool_decide (cf ∈ db_cfs d);
  db_get_ok : ∀ d cf k, db_healthy d → cf ∈ db_cfs d → db_get_cf d cf k = Ok (db_view d cf !! k);
  db_iterator_ok : ∀ d cf, db_healthy d → cf ∈ db_cfs d → db_iterator_cf d cf = Ok <$> sorted_rows (db_view d cf);
  db_put_ok : ∀ d cf k v, db_healthy d → cf ∈ db_cfs d →
    ∃ d', db_put_cf cf k v d = (d', Ok tt) ∧ db_healthy d' ∧ db_cfs d' = db_cfs d ∧ ∀ c, db_view d' c = view_put cf k v (db_view d) c;
  db_delete_ok : ∀ d cf k, db_healthy d → cf ∈ db_cfs d →
    ∃ d', db_delete_cf cf k d = (d', Ok tt) ∧ db_healthy d' ∧ db_cfs d' = db_cfs d ∧ ∀ c, db_view d' c = view_delete cf k (db_view d) c;
  db_write_ok : ∀ d ops, db_healthy d → Forall (λ op, op_cf op ∈ db_cfs d) ops →
    ∃ d', db_write_sync ops d = (d', Ok tt) ∧ db_healthy d' ∧ db_cfs d' = db_cfs d ∧ ∀ c, db_view d' c = view_ops (db_view d) ops c;
  db_write_atomic : ∀ d ops d' r, db_write_sync ops d = (d', r) →
    match r with Ok _ => ∀ c, db_view d' c = view_ops (db_view d) ops c | Err _ => ∀ c, db_view d' c = db_view d c end;
}.

(** ** The adapter *)

Record RocksKv (D : Type) := mk_rocks { db : D }.
Arguments mk_rocks {D}.
Arguments db {D}.

Section rocks.
Context {D : Type} `{RocksDb D}.
Implicit Types s : RocksKv D.

Definition on_db {A} (m : stm D string A) : stm (RocksKv D) string A := λ s, let '(d, r) := m (db s) in (mk_rocks d, r).

Definition rocks_cf s (cf : string) : result string unit :=
  if db_cf_handle (db s) cf then Ok tt else Err ("unknown column family: " +:+ cf).

Definition rocks_kv_get s (cf : string) (key : bytes) : result string (option bytes) :=
  let? _ := rocks_cf s cf in db_get_cf (db s) cf key.
Definition rocks_kv_put (cf : string) (key value : bytes) : stm (RocksKv D) string unit :=
  let! _ := sread (λ s, rocks_cf s cf) in on_db (db_put_cf cf key value).
Definition rocks_kv_delete (cf : string) (key : bytes) : stm (RocksKv D) string unit :=
  let! _ := sread (λ s, rocks_cf s cf) in on_db (db_delete_cf cf key).
Definition rocks_kv_exists s (cf : string) (key : bytes) : result string bool :=
  rmap (λ o, bool_decide (is_Some o)) (rocks_kv_get s cf key).
Definition rocks_kv_checkpoint s (dest : string) : result string unit :=
  let? _ := db_checkpoint_new (db s) in db_create_checkpoint (db s) dest.
(** The rows up to the first item that fails, which fails the call *)
Definition rocks_kv_iter_cf s (cf : string) : result string (list (bytes * bytes)) :=
  let? _ := rocks_cf s cf in
  rfold (λ out item, rmap (λ kv, out ++ [kv]) item) [] (db_iterator_cf (db s) cf).

(** The batch is put together first; an unknown column family stops before the write. *)
Definition batch_op s (batch : list KvOp) (op : KvOp) : result string (list KvOp) :=
  let? _ := rocks_cf s (op_cf op) in Ok (batch ++ [op]).
Definition rocks_kv_write_batch (ops : list KvOp) : stm (RocksKv D) string unit :=
  let! batch := sread (λ s, rfold (batch_op s) [] ops) in
  on_db (db_write_sync batch).

#[export] Instance RocksKv_store : KvStore (RocksKv D) := {|
  kv_get := rocks_kv_get;
  kv_put := rocks_kv_put;
  kv_delete := rocks_kv_delete;
  kv_exists := rocks_kv_exists;
  kv_iter_cf := rocks_kv_iter_cf;
  kv_write_batch := rocks_kv_write_batch;
  kv_checkpoint := rocks_kv_checkpoint;
|}.

(** [RocksKv::open], [RocksKv::repair] *)
Context {K R : Type} `{!RocksDisk K D}.
Definition rocks_open (path : string) (cfs : list string) : stm K string (RocksKv D) :=
  λ k, let '(k', r) := db_open path cfs k in (k', rmap mk_rocks r).
Definition rocks_repair (path : string) : stm K string unit := db_repair (D := D) path.

(** ** Stores on it ([mem-store/src/lib.rs]) *)

Context `{Rng R, Blake3, Hex, Aead, Serde Envelope, Serde KeyringEntry, Serde Edge, Serde MemoryNode}.
Definition open_rocksdb (path : string) (r : R) : stm K StoreError (MemoryDagStore (RocksKv D) R) :=
  let! kv := smap_err Backend (rocks_open path ALL_CFS) in sret (store_new kv r).
Definition open_rocksdb_encrypted (path : string) (r : R) : stm K StoreError (MemoryDagStore (RocksKv D) R) :=
  let! kv := smap_err Backend (rocks_open path ALL_CFS) in sret (store_new_encrypted kv r).
(** A store whose keyring cannot be read or whose migration fails is dropped. *)
Definition open_rocksdb_auto (path : string) (r : R) : stm K StoreError (MemoryDagStore (RocksKv D) R) :=
  let! kv := smap_err Backend (rocks_open path ALL_CFS) in
  slift (let '(s, x) := store_new_auto (N := MemoryNode) kv r in rmap (λ _, s) x).
End rocks.

(** [MemoryDagStore::checkpoint], on any backend *)
Definition store_checkpoint {S R} `{KvStore S} (s : MemoryDagStore S R) (dest : string) : result StoreError unit := map_err Backend (kv_checkpoint (kv s) dest).

(** ** The contract *)

Section rocks_laws.
Context {D : Type} `{RocksDb D, !RocksLaws D}.
Implicit Types s : RocksKv D.

Definition rocks_ok s : Prop := db_healthy (db s) ∧ list_to_set ALL_CFS ⊆ db_cfs (db s).

Lemma rocks_known s cf : rocks_ok s → known_cf cf = true → cf ∈ db_cfs (db s) ∧ rocks_cf s cf = Ok tt.
Proof.
  intros [_ Hs] Hcf%bool_decide_eq_true. assert (cf ∈ db_cfs (db s)) as Hin by (apply Hs; by apply elem_of_list_to_set).
  split; [done|]. unfold rocks_cf. by rewrite db_handle_iff, bool_decide_eq_true_2.
Qed.
Lemma batch_ops_acc s ops : rocks_ok s → known_ops ops = true → ∀ acc, rfold (batch_op s) acc ops = Ok (acc ++ ops).
Proof.
  intros Hs. unfold known_ops. induction ops as [|op ops IH]; intros Hk acc; cbn in *; [by rewrite app_nil_r|].
  apply andb_true_iff in Hk as [Hop Hk]. destruct (rocks_known s (op_cf op) Hs Hop) as [_ Hcf]. unfold batch_op at 1. rewrite Hcf. cbn.
  rewrite (IH Hk). by rewrite <- app_assoc.
Qed.
Lemma known_ops_open s ops : rocks_ok s → known_ops ops = true → Forall (λ op, op_cf op ∈ db_cfs (db s)) ops.
Proof. intros Hs Hk. apply Forall_forall. intros op Hop. apply rocks_known; [done|]. by apply (proj1 (forallb_forall _ _) Hk), list_elem_of_In. Qed.
Lemma batch_ops_ok s ops : rocks_ok s → known_ops ops = true → rfold (batch_op s) [] ops = Ok ops ∧ Forall (λ op, op_cf op ∈ db_cfs (db s)) ops.
Proof. intros Hs Hk. split; [by rewrite batch_ops_acc|by apply known_ops_open]. Qed.
Lemma iter_items_ok (rows : list (bytes * bytes)) : ∀ out, rfold (λ out (item : result string (bytes * bytes)), rmap (λ kv, out ++ [kv]) item) out (Ok <$> rows) = Ok (out ++ rows).
Proof. induction rows as [|x rows IH]; intros out; cbn; [by rewrite app_nil_r|]. by rewrite IH, <- app_assoc. Qed.

(** The adapter keeps the contract of a backend as long as the database answers and holds
    the column families of the store. *)
#[export] Program Instance RocksKv_laws : KvLaws (RocksKv D) := {|
  kv_view s := db_view (db s);
  kv_ok := rocks_ok;
|}.
Next Obligation. intros s cf k Hs Hcf. destruct (rocks_known s cf Hs Hcf) as [Hin Hr]. cbn. unfold rocks_kv_get. rewrite Hr. cbn. apply db_get_ok; [apply Hs|done]. Qed.
Next Obligation.
  intros s cf k Hs Hcf. destruct (rocks_known s cf Hs Hcf) as [Hin Hr]. cbn. unfold rocks_kv_exists, rocks_kv_get. rewrite Hr. cbn. by rewrite db_get_ok by (done || apply Hs).
Qed.
Next Obligation.
  intros s cf Hs Hcf. destruct (rocks_known s cf Hs Hcf) as [Hin Hr]. cbn. unfold rocks_kv_iter_cf. rewrite Hr. cbn. rewrite db_iterator_ok by (done || apply Hs). apply iter_items_ok.
Qed.
Next Obligation.
  intros s cf k v Hs Hcf. destruct (rocks_known s cf Hs Hcf) as [Hin Hr]. destruct (db_put_ok (db s) cf k v (proj1 Hs) Hin) as (d & Hp & Hh & Hc & Hv).
  exists (mk_rocks d). cbn. unfold rocks_kv_put, sbind, sread, on_db. rewrite Hr, Hp. split_and!; [done| |done]. split; [done|]. cbn. rewrite Hc. apply Hs.
Qed.
Next Obligation.
  intros s cf k Hs Hcf. destruct (rocks_known s cf Hs Hcf) as [Hin Hr]. destruct (db_delete_ok (db s) cf k (proj1 Hs) Hin) as (d & Hp & Hh & Hc & Hv).
  exists (mk_rocks d). cbn. unfold rocks_kv_delete, sbind, sread, on_db. rewrite Hr, Hp. split_and!; [done| |done]. split; [done|]. cbn. rewrite Hc. apply Hs.
Qed.
Next Obligation.
  intros s ops Hs Hk. destruct (batch_ops_ok s ops Hs Hk) as [Hb Hf]. destruct (db_write_ok (db s) ops (proj1 Hs) Hf) as (d & Hp & Hh & Hc & Hv).
  exists (mk_rocks d). cbn. unfold rocks_kv_write_batch, sbind, sread, on_db. rewrite Hb, Hp. split_and!; [done| |done]. split; [done|]. cbn. rewrite Hc. apply Hs.
Qed.

Lemma batch_op_acc s ops : ∀ acc b, rfold (batch_op s) acc ops = Ok b → b = acc ++ ops.
Proof.
  induction ops as [|op ops IH]; intros acc b Hr; cbn in Hr; [injection Hr as <-; by rewrite app_nil_r|].
  apply rbind_ok in Hr as (acc' & Ha & Hr). unfold batch_op in Ha. apply rbind_ok in Ha as (u & _ & [= <-]). rewrite (IH _ _ Hr). by rewrite <- app_assoc.
Qed.
(** A batch on the adapter is applied as a whole or not at all, whatever the state of the
    database and whatever column families it names. *)
Lemma rocks_batch_atomic s ops s' r : kv_write_batch ops s = (s', r) →
  match r with Ok _ => ∀ c, kv_view s' c = view_ops (kv_view s) ops c | Err _ => ∀ c, kv_view s' c = kv_view s c end.
Proof.
  cbn. unfold rocks_kv_write_batch, sbind, sread, on_db. destruct (rfold (batch_op s) [] ops) as [b|e] eqn:Hb; [|by intros [= <- <-]].
  apply batch_op_acc in Hb as ->. destruct (db_write_sync ([] ++ ops) (db s)) as [d x] eqn:Hw. intros [= <- <-]. exact (db_write_atomic _ _ _ _ Hw).
Qed.

(** A store on the adapter keeps what clients are promised, so every theorem proved against
    the store's interface holds on it. *)
Context {R : Type} `{Rng R, Blake3, Hex, Aead, Serde Envelope, Serde KeyringEntry, Serde Edge, Serde MemoryNode}.
Context `{!Blake3Laws, !HexLaws, !AeadLaws, !EnvelopeSerdeLaws, !StoreSerdeLaws (N := MemoryNode)}.
#[export] Instance rocks_store_laws : MemStoreLaws (MemoryDagStore (RocksKv D) R) := _.
End rocks_laws.

(** ** One contract, two backends

    A client's calls as data, so that runs on two backends can be compared. *)

Inductive KvCall :=
| CallGet (cf : string) (key : bytes)
| CallExists (cf : string) (key : bytes)
| CallIter (cf : string)
| CallPut (cf : string) (key value : bytes)
| CallDelete (cf : string) (key : bytes)
| CallBatch (ops : list KvOp).
Inductive KvAnswer :=
| AnswerGet (r : result string (option bytes))
| AnswerExists (r : result string bool)
| AnswerIter (r : result string (list (bytes * bytes)))
| AnswerUnit (r : result string unit).

Definition kv_step {S} `{KvStore S} (c : KvCall) (s : S) : S * KvAnswer :=
  match c with
  | CallGet cf key => (s, AnswerGet (kv_get s cf key))
  | CallExists cf key => (s, AnswerExists (kv_exists s cf key))
  | CallIter cf => (s, AnswerIter (kv_iter_cf s cf))
  | CallPut cf key value => prod_map id AnswerUnit (kv_put cf key value s)
  | CallDelete cf key => prod_map id AnswerUnit (kv_delete cf key s)
  | CallBatch ops => prod_map id AnswerUnit (kv_write_batch ops s)
  end.
Fixpoint kv_run {S} `{KvStore S} (cs : list KvCall) (s : S) : S * list KvAnswer :=
  match cs with
  | [] => (s, [])
  | c :: cs => let '(s', a) := kv_step c s in prod_map id (cons a) (kv_run cs s')
  end.

Definition known_call (c : KvCall) : bool :=
  match c with
  | CallGet cf _ | CallExists cf _ | CallIter cf | CallPut cf _ _ | CallDelete cf _ => known_cf cf
  | CallBatch ops => known_ops ops
  end.

(** What a call answers and does to the rows, by the contract alone *)
Definition spec_step (c : KvCall) (v : string → cf_map) : (string → cf_map) * KvAnswer :=
  match c with
  | CallGet cf key => (v, AnswerGet (Ok (v cf !! key)))
  | CallExists cf key => (v, AnswerExists (Ok (bool_decide (is_Some (v cf !! key)))))
  | CallIter cf => (v, AnswerIter (Ok (sorted_rows (v cf))))
  | CallPut cf key value => (view_put cf key value v, AnswerUnit (Ok tt))
  | CallDelete cf key => (view_delete cf key v, AnswerUnit (Ok tt))
  | CallBatch ops => (view_ops v ops, AnswerUnit (Ok tt))
  end.

Section contract.
Context {S : Type} `{KvStore S, !KvLaws S}.

Lemma kv_step_spec (c : KvCall) (s : S) : kv_ok s → known_call c = true →
  kv_ok (kv_step c s).1 ∧ (kv_step c s).2 = (spec_step c (kv_view s)).2 ∧ ∀ cf, kv_view (kv_step c s).1 cf = (spec_step c (kv_view s)).1 cf.
Proof.
  intros Hs Hc. destruct c as [cf k|cf k|cf|cf k v|cf k|ops]; cbn in *.
  - by rewrite kv_get_ok.
  - by rewrite kv_exists_ok.
  - by rewrite kv_iter_cf_ok.
  - by destruct (kv_put_ok s cf k v Hs Hc) as (s' & -> & Hok & Hv).
  - by destruct (kv_delete_ok s cf k Hs Hc) as (s' & -> & Hok & Hv).
  - by destruct (kv_write_batch_ok s ops Hs Hc) as (s' & -> & Hok & Hv).
Qed.
End contract.

(** Equal rows in the column families of the store *)
Definition same_rows (v w : string → cf_map) : Prop := ∀ cf, known_cf cf = true → v cf = w cf.

Lemma view_op_same (v w : string → cf_map) op : same_rows v w → same_rows (view_op v op) (view_op w op).
Proof. intros Hvw cf Hcf. destruct op; cbn; unfold view_put, view_delete; case_decide; rewrite (Hvw cf Hcf); done. Qed.
Lemma view_ops_same ops : ∀ v w, same_rows v w → same_rows (view_ops v ops) (view_ops w ops).
Proof. induction ops as [|op ops IH]; intros v w Hvw; [done|]. apply IH, view_op_same, Hvw. Qed.
Lemma spec_step_same (c : KvCall) (v w : string → cf_map) : known_call c = true → same_rows v w →
  (spec_step c v).2 = (spec_step c w).2 ∧ same_rows (spec_step c v).1 (spec_step c w).1.
Proof.
  intros Hc Hvw. destruct c as [cf k|cf k|cf|cf k x|cf k|ops]; cbn in *; rewrite ?(Hvw cf Hc); split; try done.
  - exact (view_op_same v w (Put cf k x) Hvw).
  - exact (view_op_same v w (Delete cf k) Hvw).
  - by apply view_ops_same.
Qed.

Section two_backends.
Context {S T : Type} `{KvStore S, !KvLaws S, KvStore T, !KvLaws T}.

Lemma kv_runs_agree (cs : list KvCall) : ∀ (s : S) (t : T), kv_ok s → kv_ok t → forallb known_call cs = true → same_rows (kv_view s) (kv_view t) →
  (kv_run cs s).2 = (kv_run cs t).2 ∧ same_rows (kv_view (kv_run cs s).1) (kv_view (kv_run cs t).1).
Proof.
  induction cs as [|c cs IH]; intros s t Hs Ht Hcs Hv; [done|]. cbn in Hcs. apply andb_true_iff in Hcs as [Hc Hcs].
  destruct (kv_step_spec c s Hs Hc) as (Hs' & Ha & Hsv), (kv_step_spec c t Ht Hc) as (Ht' & Hb & Htv).
  destruct (spec_step_same c _ _ Hc Hv) as [Hans Hrows]. cbn.
  destruct (kv_step c s) as [s' a], (kv_step c t) as [t' b]. cbn in *. subst a b.
  destruct (IH s' t' Hs' Ht' Hcs) as [Hrun Hfin]; [by intros cf Hcf; rewrite Hsv, Htv; apply Hrows|].
  destruct (kv_run cs s'), (kv_run cs t'). cbn in *. by rewrite Hrun, Hans.
Qed.
End two_backends.

Section claim.
Context {D : Type} `{RocksDb D, !RocksLaws D}.

(** [C19] The durable backend and the in-memory one cannot be told apart by the store: on a
    database that answers and has the store's column families open, and an in-memory
    backend whose lock is not poisoned, holding equal rows, any sequence of reads, writes,
    deletions, scans and batches on those column families gets the same answers, in the
    same order, and leaves equal rows. *)
Theorem rocks_agrees_memory (s : RocksKv D) (m : InMemoryKv) (cs : list KvCall) :
  rocks_ok s → poisoned m = false → forallb known_call cs = true → same_rows (db_view (db s)) (mem_view (data m)) →
  (kv_run cs s).2 = (kv_run cs m).2 ∧ same_rows (db_view (db (kv_run cs s).1)) (mem_view (data (kv_run cs m).1)).
Proof. exact (kv_runs_agree (S := RocksKv D) (T := InMemoryKv) cs s m). Qed.
End claim.

(** ** A database that never fails: column families in memory *)

Module SampleRocks.
Abbreviation sample_db := (gmap string cf_map).

#[export] Instance sample_rocks : RocksDb sample_db := {|
  db_cf_handle d cf := bool_decide (cf ∈ dom d);
  db_get_cf d cf k := Ok (mem_view d cf !! k);
  db_put_cf cf k v d := (entry_insert cf k v d, Ok tt);
  db_delete_cf cf k d := (entry_remove cf k d, Ok tt);
  db_iterator_cf d cf := Ok <$> sorted_rows (mem_view d cf);
  db_write_sync ops d := (foldl mem_op d ops, Ok tt);
  db_checkpoint_new _ := Ok tt;
  db_create_checkpoint _ _ := Ok tt;
|}.

Lemma mem_op_dom (op : KvOp) (d : sample_db) : op_cf op ∈ dom d → dom (mem_op d op) = dom d.
Proof.
  intros Hd. destruct op as [cf k v|cf k]; unfold mem_op, entry_insert, entry_remove, op_cf in *.
  - rewrite dom_insert_L. set_solver.
  - destruct (d !! cf) as [m|]; [|reflexivity]. rewrite dom_insert_L. set_solver.
Qed.
Lemma mem_ops_dom (ops : list KvOp) : ∀ d : sample_db, Forall (λ op, op_cf op ∈ dom d) ops → dom (foldl mem_op d ops) = dom d.
Proof.
  induction ops as [|op ops IH]; intros d Hops; [done|]. apply Forall_cons in Hops as [Hop Hops]. cbn.
  rewrite IH, mem_op_dom; [done|done|]. by rewrite mem_op_dom.
Qed.

#[export] Program Instance sample_rocks_laws : RocksLaws sample_db := {|
  db_view := mem_view;
  db_cfs := dom;
  db_healthy _ := True;
|}.
Next Obligation. done. Qed.
Next Obligation. done. Qed.
Next Obligation. done. Qed.
Next Obligation. intros d cf k v _ Hd. eexists. split_and!; [done|done|exact (mem_op_dom (Put cf k v) d Hd)|apply mem_view_insert]. Qed.
Next Obligation. intros d cf k _ Hd. eexists. split_and!; [done|done|exact (mem_op_dom (Delete cf k) d Hd)|apply mem_view_remove]. Qed.
Next Obligation. intros d ops _ Hd. eexists. split_and!; [done|done|by apply mem_ops_dom|apply mem_view_ops]. Qed.
Next Obligation. intros d ops d' r [= <- <-]. apply mem_view_ops. Qed.

Definition opened : RocksKv sample_db := mk_rocks (list_to_map ((λ cf, (cf, ∅)) <$> ALL_CFS)).
Definition calls : list KvCall :=
  [CallPut NODES [x01] [x02]; CallGet NODES [x01]; CallBatch [Put META [x03] [x04]; Delete NODES [x01]]; CallExists NODES [x01]; CallIter META].

Lemma opened_ok : rocks_ok opened.
Proof. split; [done|]. apply (bool_decide_unpack _). vm_compute. exact I. Qed.
Lemma opened_same : same_rows (db_view (db opened)) (mem_view (data InMemoryKv_new)).
Proof. intros cf Hcf. apply bool_decide_eq_true in Hcf. unfold ALL_CFS in Hcf. by decompose_list_elem_of; subst; vm_compute. Qed.

Lemma rocks_agrees_memory_witness : forallb known_call calls = true ∧ (kv_run calls opened).2 = (kv_run calls InMemoryKv_new).2.
Proof.
  split; [vm_compute; reflexivity|].
  exact (proj1 (rocks_agrees_memory opened InMemoryKv_new calls opened_ok eq_refl eq_refl opened_same)).
Defined.
End SampleRocks.
