(* ===== verification/StoreProps.v ===== *)
(** * What the store guarantees, end to end

    Read-your-writes for nodes and edges over any backend and in both storage
    modes, agreement of the two adjacencies, forgetting by key destruction, and
    reachability. *)

From stdpp Require Import relations.
From S2P Require Import Prelude Bytes Externs Text Belnap Identity Node Edge Kv Shred Store StoreSpec StoreRefine.
From S2P Require Import StoreWrite StoreContents StoreReach.

Section props.
Context {S R : Type} `{KvStore S, Rng R, Blake3, Hex, Aead}.
Context `{Serde Envelope, Serde KeyringEntry, Serde Edge}.
Context {N : Type} `{Identified N, Tenanted N, Serde N, JsonRepr N}.
Context `{!KvLaws S, !Blake3Laws, !HexLaws, !AeadLaws, !EnvelopeSerdeLaws, !StoreSerdeLaws (N := N)}.

Abbreviation store := (MemoryDagStore S R).
Implicit Types (s : store) (c : Contents N) (a : AbsStore N).

Lemma holds_get_node s c id : holds s c → get_node s id = Ok (c_nodes c !! id).
Proof. intros (a & Hs & _ & <-). rewrite contents_node. by apply get_node_rel. Qed.

Lemma holds_out_edges s c f :
  holds s c → ∃ es, out_edges s f = Ok es ∧ ∀ e, e ∈ es ↔ c_edges c !! edge_ident e = Some e ∧ e_from e = f.
Proof.
  intros (a & Hs & _ & <-). destruct (out_edges_rel s a f Hs) as (es & ? & _ & Hes).
  exists es. split; [done|]. intros e. by rewrite contents_edge.
Qed.
Lemma holds_in_edges s c t :
  holds s c → ∃ es, in_edges s t = Ok es ∧ ∀ e, e ∈ es ↔ c_edges c !! edge_ident e = Some e ∧ e_to e = t.
Proof.
  intros (a & Hs & _ & <-). destruct (in_edges_rel s a t Hs) as (es & ? & _ & Hes).
  exists es. split; [done|]. intros e. by rewrite contents_edge.
Qed.



(** Within one [commit] the guard against demotion looks only at the store,
    so a load-bearing edge and a quarantined edge of the same identity in one
    batch leave the quarantined one stored, while the same two edges through
    [add_edge], in the same order, leave the load-bearing one. *)
Theorem commit_batch_demotes s c (e1 e2 : Edge) (Hs : holds s c) (Hplain : encrypt_at_rest s = false)
    (Hid : edge_ident e1 = edge_ident e2) (Hq1 : e_quarantined e1 = false) (Hq2 : e_quarantined e2 = true)
    (Hnew : c_edges c !! edge_ident e1 = None) :
  (∃ s', commit ([] : list N) [e1; e2] s = (s', Ok tt) ∧ stored_edge s' e1 = Ok (Some e2)) ∧
  (∃ s', (let! _ := add_edge (N := N) e1 in add_edge (N := N) e2) s = (s', Ok tt) ∧ stored_edge s' e1 = Ok (Some e1)).
Proof.
  assert (∀ s c e, holds s c → stored_edge s e = Ok (c_edges c !! edge_ident e)) as Hstored.
  { intros s0 c0 e (a & Ha & _ & <-). rewrite contents_edge. by apply stored_edge_rel. }
  split.
  - destruct (commit_effect s c [] [e1; e2] Hs ltac:(constructor)) as (s' & r & Hr & He & Hres).
    destruct r as [[]|]; [|destruct Hres; congruence]. destruct Hres as [_ Hs']. exists s'. split; [done|].
    assert (∀ e, edge_ident e = edge_ident e1 → c_demoting c e = false) as Hnd.
    { intros e Hide. unfold c_demoting. rewrite Hide, Hnew. apply andb_false_r. }
    rewrite (Hstored _ _ _ Hs'). unfold c_commit. rewrite !filter_cons, filter_nil, !decide_True by (by apply Hnd).
    simpl. by rewrite Hid, lookup_insert_eq.
  - destruct (add_edge_effect s c e1 Hs) as (s1 & r & Hr & He & Hres). unfold sbind. rewrite Hr.
    destruct r as [[]|]; [|destruct Hres; congruence]. destruct Hres as [_ Hs1].
    destruct (add_edge_effect s1 _ e2 Hs1) as (s2 & r2 & Hr2 & He2 & Hres2). rewrite Hr2.
    destruct r2 as [[]|]; [|destruct Hres2; congruence]. destruct Hres2 as [_ Hs2]. exists s2. split; [done|].
    rewrite (Hstored _ _ _ Hs2). unfold c_add_edge, c_demoting. rewrite Hq1, Hq2. simpl.
    rewrite <-Hid, lookup_insert_eq, Hq1. simpl. by rewrite lookup_insert_eq.
Qed.

(** ** Forgetting *)

(** A sealed cell whose key is gone for good: its tenant moved on to a later
    generation, or its own generation's key was destroyed *)
Definition forgotten {A} (r : ring_t) (cl : cell A) : Prop :=
  match cl with
  | Plain _ => False
  | Sealed t g _ => ∃ g' ok, r !! t = Some (g', ok) ∧ (g < g' ∨ g = g' ∧ ok = None)
  end.

Lemma forgotten_unreadable {A} r (cl : cell A) : forgotten r cl → read_cell r cl = None.
Proof.
  destruct cl as [|t g x]; [done|]. intros (g' & ok & Hr & Hg). rewrite (read_sealed _ _ _ _ _ _ Hr).
  destruct ok; [|done]. destruct (Z.eqb_spec g' g); [|done]. destruct Hg as [?|[_ ?]]; [lia|done].
Qed.

Lemma forgotten_ring_le {A} r r' (cl : cell A) : ring_le r r' → forgotten r cl → forgotten r' cl.
Proof.
  intros Hle. destruct cl as [|t g x]; [done|]. intros (g' & ok & Hr & Hg).
  destruct (Hle _ _ _ Hr) as (g2 & ok2 & Hr2 & Hle2 & Hok). exists g2, ok2. split; [done|].
  destruct Hg as [?|[-> ->]]; [left; lia|]. destruct (decide (g2 = g')) as [->|]; [|left; lia].
  right. split; [done|]. by destruct (Hok eq_refl).
Qed.

Lemma forgotten_get_node s a id cl :
  store_rel s a → a_nodes a !! id = Some cl → forgotten (a_ring a) cl → get_node (N := N) s id = Ok None.
Proof.
  intros Hs Hid Hf. rewrite (get_node_rel s a id Hs). unfold read_node. rewrite Hid. simpl. f_equal.
  by apply forgotten_unreadable.
Qed.

(** [C4] Destroying a tenant's key makes every node sealed for it unreadable for good, and
    no other node: [shred_tenant] succeeds and reports whether a key existed; from
    then on every node sealed for that tenant reads as absent, also after a new
    key is minted for the tenant (the generation moved on); plaintext rows and
    the rows of every other tenant read as before. *)
Theorem shred_tenant_forgets s a t (Hs : store_rel s a)
    (Hgen : ∀ t' g ok, a_ring a !! t' = Some (g, ok) → g < u32_max) :
  ∃ s', shred_tenant t s = (s', Ok (bool_decide (is_Some (live_of (a_ring a) t)))) ∧
    (∀ id n g, a_nodes a !! id = Some (Sealed t g n) →
       get_node (N := N) s' id = Ok None ∧ get_node (N := N) (ensure_tenant_key t s').1 id = Ok None) ∧
    (∀ id, (∀ n g, a_nodes a !! id ≠ Some (Sealed t g n)) → get_node (N := N) s' id = get_node s id).
Proof.
  destruct (shred_tenant_rel s a t Hs) as (s' & He & Hsh). exists s'.
  destruct (a_ring a !! t) as [[g0 ok]|] eqn:Hr.
  - destruct Hsh as [Hsh Hs']. split; [|split].
    + rewrite Hsh. unfold live_of. rewrite Hr. do 2 f_equal. apply bool_decide_ext. destruct ok; naive_solver.
    + intros id n g Hid.
      assert (forgotten (a_ring (set_ring t (g0, None) a)) (Sealed t g n)) as Hf.
      { destruct (table_gens _ _ _ _ _ _ _ _ (rel_nodes _ _ (proj2 Hs)) Hid) as (g' & ok' & Hr' & Hle).
        rewrite Hr in Hr'. injection Hr' as <- <-. exists g0, None. simpl. rewrite lookup_insert_eq.
        split; [done|]. destruct (decide (g = g0)); [by right|left; lia]. }
      split.
      * by eapply forgotten_get_node.
      * destruct (ensure_tenant_key_rel s' (set_ring t (g0, None) a) t Hs') as (s2 & a2 & r2 & -> & (Hs2 & Hmi & _) & _).
        { intros t' g'. simpl. rewrite lookup_insert. case_decide as Hd; [|apply Hgen].
          intros [= <-]. subst. by apply (Hgen _ _ _ Hr). }
        eapply forgotten_get_node; [done|by rewrite (proj1 Hmi)|].
        eapply forgotten_ring_le; [by apply minted_ring_le|done].
    + intros id Hid. rewrite (get_node_rel s' _ id Hs'), (get_node_rel s a id Hs). f_equal. unfold read_node. simpl.
      destruct (a_nodes a !! id) as [[n|t' g n]|] eqn:Hc; [done| |done]. simpl. apply decide_ext. unfold live.
      rewrite lookup_insert_ne; [done|]. intros <-. by eapply Hid.
  - destruct Hsh as [Hsh Hs']. split; [|split].
    + rewrite Hsh. unfold live_of. by rewrite Hr.
    + intros id n g Hid. exfalso.
      destruct (table_gens _ _ _ _ _ _ _ _ (rel_nodes _ _ (proj2 Hs)) Hid) as (g' & ok' & Hr' & _). congruence.
    + intros id _. by rewrite (get_node_rel s' a), (get_node_rel s a).
Qed.

(** [C18] [reachable_via] terminates on every store, cycles in the stored edges
    included, and returns exactly the nodes reachable from the start along
    readable edges of the kind, each once, the start excluded; so
    [would_cycle_supersedes] answers whether the target already leads to the
    source. *)
Theorem reachable_via_correct s a start kind (Hs : store_rel s a) :
  (∃ l, bfs (out_edges s) kind (bfs_fuel s) {[start]} [start] [] = Some (Ok l) ∧ reachable_via s start kind = Ok l ∧
        NoDup l ∧ ∀ x, x ∈ l ↔ rtc (edge_hop a kind) start x ∧ x ≠ start) ∧
  ∀ x, x ≠ start → ∃ b : bool, would_cycle_supersedes s x start = Ok b ∧ (b = true ↔ rtc (edge_hop a Supersedes) start x).
Proof.
  split.
  - destruct (reachable_via_run s a start kind Hs) as (l & Hb & Hnd & Hin). exists l. split_and!; [done| |done|done].
    unfold reachable_via. by rewrite Hb.
  - intros x Hx. destruct (reachable_via_rel s a start Supersedes Hs) as (l & Hl & _ & Hin).
    unfold would_cycle_supersedes. rewrite Hl. simpl. eexists. split; [done|]. rewrite bool_decide_eq_true, Hin. tauto.
Qed.
End props.
