(* ===== verification/Join.v ===== *)
(** * The order-independent join of a node's advisory fields ([mem-assert/src/join.rs])

    [merge_node] and the per-field rules it folds, and the semilattice laws that
    make replicas converge. *)

From S2P Require Import Prelude Bytes Externs Identity Belnap Node.
Import Belnap.

Definition status_rank (s : Status) : Z :=
  match s with Active => 0 | Superseded => 1 | Archived => 2 end.

Definition trust_conservatism (t : TrustTier) : Z :=
  match t with
  | InferredAdvisory => 0
  | AgentAsserted => 1
  | HumanConfirmed => 2
  | DerivedDeterministic => 3
  end.

Definition less_trusted (a b : TrustTier) : TrustTier :=
  if trust_conservatism a <=? trust_conservatism b then a else b.

Definition embedding_key (v : VersionedVector) : string * list Z := (vv_model v, to_bits <$> vv_data v).

Definition min_embedding (a b : option VersionedVector) : option VersionedVector :=
  match a, b with
  | None, x => x
  | x, None => x
  | Some x, Some y => if ord_leb (embedding_key x) (embedding_key y) then Some x else Some y
  end.

Definition min_opt_bytes (a b : option bytes) : option bytes :=
  match a, b with
  | None, x => x
  | x, None => x
  | Some x, Some y => if ord_leb x y then Some x else Some y
  end.

Definition code_anchor_key (c : CodeAnchor) : string * string * option string * Z * Z :=
  (ca_repo c, ca_path c, ca_symbol c, ca_line_start c, ca_line_end c).

Definition union_anchors (a b : list CodeAnchor) : list CodeAnchor :=
  dedup_by_key code_anchor_key (sort_by_key code_anchor_key (a ++ b)).

(** [match (a, b) { (Some(a), Some(b)) => Some(a.min(b)), (a, b) => a.or(b) }] *)
Definition min_valid_to (a b : option Timestamp) : option Timestamp :=
  match a, b with
  | Some a, Some b => Some (Z.min a b)
  | Some a, None => Some a
  | None, b => b
  end.

(** The status and the end of validity move together. *)
Definition merge_status (local remote : Status * option Timestamp) : Status * option Timestamp :=
  if status_rank local.1 <? status_rank remote.1 then remote
  else if decide (remote.1 = local.1) then (local.1, min_valid_to local.2 remote.2)
  else local.

(** [joined.iter().zip(local.confidence.iter().chain(repeat(Neither)))], counting
    the positions that became contradictory *)
Definition new_contradictions (joined local : list BelnapValue) : nat :=
  length (filter (λ i, is_contradiction (conf_get joined i) && negb (is_contradiction (conf_get local i)) = true)
                 (seq 0 (length joined))).

Definition merged (local remote : MemoryNode) : MemoryNode :=
  let st := merge_status (n_status local, n_valid_to local) (n_status remote, n_valid_to remote) in
  {| n_schema_version := n_schema_version local; n_plane := n_plane local; n_kind := n_kind local;
     n_repo := n_repo local; n_author := n_author local; n_source_ref := n_source_ref local;
     n_content := n_content local;
     n_valid_from := Z.min (n_valid_from local) (n_valid_from remote);
     n_valid_to := st.2;
     n_observed_at := Z.min (n_observed_at local) (n_observed_at remote);
     n_trust_tier := less_trusted (n_trust_tier local) (n_trust_tier remote);
     n_signature := min_opt_bytes (n_signature local) (n_signature remote);
     n_embedding := min_embedding (n_embedding local) (n_embedding remote);
     n_confidence := join_confidence (n_confidence local) (n_confidence remote);
     n_anchors := union_anchors (n_anchors local) (n_anchors remote);
     n_status := st.1 |}.

Definition merge_node (local remote : MemoryNode) : MemoryNode * bool * nat :=
  let m := merged local remote in
  (m, negb (MemoryNode_eqb m local), new_contradictions (n_confidence m) (n_confidence local)).

(** ** Field laws *)

Lemma less_trusted_comm a b : less_trusted a b = less_trusted b a.
Proof. by destruct a, b. Qed.
Lemma less_trusted_assoc a b c : less_trusted (less_trusted a b) c = less_trusted a (less_trusted b c).
Proof. by destruct a, b, c. Qed.

(** The smaller of two optional values by an injective key, the present one when
    only one is there *)
Section min_by.
Context {A K : Type} `{RustOrdLaws K} (key : A → K) (key_inj : ∀ a b, key a = key b → a = b).

Definition min_by (a b : option A) : option A :=
  match a, b with
  | None, x => x
  | x, None => x
  | Some x, Some y => if ord_leb (key x) (key y) then Some x else Some y
  end.

Lemma min_by_idem a : min_by a a = a.
Proof. destruct a as [x|]; simpl; [|done]. by destruct (ord_leb _ _). Qed.

Lemma min_by_comm a b : min_by a b = min_by b a.
Proof.
  destruct a as [x|], b as [y|]; simpl; try done.
  destruct (ord_leb (key x) (key y)) eqn:E1, (ord_leb (key y) (key x)) eqn:E2; try done.
  - f_equal. by apply key_inj, ord_leb_antisym.
  - apply ord_leb_false in E1. congruence.
Qed.

Lemma min_by_assoc a b c : min_by (min_by a b) c = min_by a (min_by b c).
Proof.
  destruct a as [x|], b as [y|], c as [z|]; simpl; try done; try (by destruct (ord_leb _ _)).
  destruct (ord_leb (key x) (key y)) eqn:E1, (ord_leb (key y) (key z)) eqn:E2; simpl; rewrite ?E1, ?E2; try done.
  - by rewrite (ord_leb_trans _ _ _ E1 E2).
  - destruct (ord_leb (key x) (key z)) eqn:E3; [|done]. exfalso. apply ord_leb_false in E1.
    pose proof (ord_leb_trans _ _ _ E1 E3). congruence.
Qed.
End min_by.

Lemma embedding_key_inj v w : embedding_key v = embedding_key w → v = w.
Proof.
  destruct v as [m d], w as [m' d']. unfold embedding_key. simpl. intros [= -> Hd]. f_equal.
  assert (Inj (=) (=) to_bits) by (by intros [x] [y]; simpl; intros ->).
  by apply (inj (fmap to_bits)) in Hd.
Qed.

Lemma code_anchor_key_inj a b : code_anchor_key a = code_anchor_key b → a = b.
Proof. destruct a, b. unfold code_anchor_key. simpl. by intros [= -> -> -> -> ->]. Qed.

(** The canonical form of a list of anchors: what [union_anchors] returns *)
Definition canonical_anchors (l : list CodeAnchor) : Prop := StronglySorted (key_lt code_anchor_key) l.

Lemma union_anchors_canonical a b : canonical_anchors (union_anchors a b).
Proof. apply dedup_by_key_sorted; [apply code_anchor_key_inj|]. apply sort_by_key_sorted. Qed.

Lemma elem_of_union_anchors x a b : x ∈ union_anchors a b ↔ x ∈ a ∨ x ∈ b.
Proof.
  unfold union_anchors. rewrite elem_of_dedup_by_key by apply code_anchor_key_inj.
  by rewrite elem_of_sort_by_key, elem_of_app.
Qed.

Lemma canonical_unique l k : canonical_anchors l → canonical_anchors k → (∀ x, x ∈ l ↔ x ∈ k) → l = k.
Proof. intros. by apply (key_lt_sorted_unique code_anchor_key code_anchor_key_inj). Qed.

Lemma union_anchors_comm a b : union_anchors a b = union_anchors b a.
Proof.
  apply canonical_unique; [apply union_anchors_canonical..|]. intros x. rewrite !elem_of_union_anchors. tauto.
Qed.
Lemma union_anchors_assoc a b c : union_anchors (union_anchors a b) c = union_anchors a (union_anchors b c).
Proof.
  apply canonical_unique; [apply union_anchors_canonical..|]. intros x. rewrite !elem_of_union_anchors. tauto.
Qed.
Lemma union_anchors_idem a : canonical_anchors a → union_anchors a a = a.
Proof.
  intros Ha. apply canonical_unique; [apply union_anchors_canonical|done|]. intros x. rewrite elem_of_union_anchors. tauto.
Qed.

Lemma status_rank_inj s t : status_rank s = status_rank t → s = t.
Proof. by destruct s, t. Qed.

Lemma min_valid_to_comm a b : min_valid_to a b = min_valid_to b a.
Proof. destruct a, b; simpl; try done. f_equal. lia. Qed.
Lemma min_valid_to_assoc a b c : min_valid_to (min_valid_to a b) c = min_valid_to a (min_valid_to b c).
Proof. destruct a, b, c; simpl; try done. f_equal. lia. Qed.
Lemma min_valid_to_idem a : min_valid_to a a = a.
Proof. destruct a; simpl; [|done]. f_equal. lia. Qed.

Lemma merge_status_comm a b : merge_status a b = merge_status b a.
Proof.
  destruct a as [s v], b as [t w]. unfold merge_status.
  destruct s, t; simpl; try done; by rewrite min_valid_to_comm.
Qed.
Lemma merge_status_assoc a b c : merge_status (merge_status a b) c = merge_status a (merge_status b c).
Proof.
  destruct a as [s v], b as [t w], c as [u x]. unfold merge_status.
  destruct s, t, u; simpl; try done; by rewrite min_valid_to_assoc.
Qed.
Lemma merge_status_idem a : merge_status a a = a.
Proof.
  destruct a as [s v]. unfold merge_status. destruct s; simpl; by rewrite min_valid_to_idem.
Qed.

(** ** The join *)

Lemma merged_identity l r : identity_set (merged l r) = identity_set l.
Proof. done. Qed.

Lemma node_eq a b :
  identity_set a = identity_set b → n_valid_from a = n_valid_from b → n_valid_to a = n_valid_to b →
  n_observed_at a = n_observed_at b → n_trust_tier a = n_trust_tier b → n_signature a = n_signature b →
  n_embedding a = n_embedding b → n_confidence a = n_confidence b → n_anchors a = n_anchors b →
  n_status a = n_status b → a = b.
Proof. destruct a, b. unfold identity_set. simpl. intros [= -> -> -> -> -> -> ->]. by intros -> -> -> -> -> -> -> -> ->. Qed.

Lemma merged_comm a b : identity_set a = identity_set b → merged a b = merged b a.
Proof.
  intros Hid. apply node_eq; simpl; try done.
  - apply Z.min_comm.
  - by rewrite merge_status_comm.
  - apply Z.min_comm.
  - apply less_trusted_comm.
  - apply (min_by_comm id). done.
  - apply (min_by_comm embedding_key embedding_key_inj).
  - apply join_confidence_comm.
  - apply union_anchors_comm.
  - by rewrite merge_status_comm.
Qed.

Lemma merge_status_pair a b : ((merge_status a b).1, (merge_status a b).2) = merge_status a b.
Proof. by destruct (merge_status a b). Qed.

Lemma merged_assoc a b c : merged (merged a b) c = merged a (merged b c).
Proof.
  apply node_eq; simpl; try done.
  - lia.
  - by rewrite !merge_status_pair, merge_status_assoc.
  - lia.
  - apply less_trusted_assoc.
  - apply (min_by_assoc id).
  - apply (min_by_assoc embedding_key).
  - apply join_confidence_assoc.
  - apply union_anchors_assoc.
  - by rewrite !merge_status_pair, merge_status_assoc.
Qed.

Lemma merged_idem a : canonical_anchors (n_anchors a) → merged a a = a.
Proof.
  intros Ha. apply node_eq; simpl; try done.
  - lia.
  - by rewrite merge_status_idem.
  - lia.
  - by destruct (n_trust_tier a).
  - apply (min_by_idem id).
  - apply (min_by_idem embedding_key).
  - apply join_confidence_idem.
  - by apply union_anchors_idem.
  - by rewrite merge_status_idem.
Qed.

(** Merging in what was already merged is absorbed. *)
Lemma merged_absorb a b : merged (merged a b) b = merged a b.
Proof.
  rewrite merged_assoc. apply node_eq; simpl; try done.
  - lia.
  - by rewrite merge_status_pair, merge_status_idem.
  - lia.
  - by destruct (n_trust_tier b).
  - f_equal. apply (min_by_idem id).
  - f_equal. apply (min_by_idem embedding_key).
  - by rewrite join_confidence_idem.
  - apply canonical_unique; [apply union_anchors_canonical..|]. intros x. rewrite !elem_of_union_anchors. tauto.
  - by rewrite merge_status_pair, merge_status_idem.
Qed.

Lemma compute_id_merged `{Blake3} a b : compute_id (merged a b) = compute_id a.
Proof. by apply compute_id_identity. Qed.

(** [merge_node] is a join: on copies of one node (same identity set) it is
    commutative, it is associative, merging the same copy twice is absorbed, and
    merging a node whose anchors are in the canonical order with itself returns
    it; the content id never changes. *)
Theorem merge_node_semilattice `{Blake3} (a b c : MemoryNode) (Hab : identity_set a = identity_set b) :
  (merge_node a b).1.1 = (merge_node b a).1.1 ∧
  (merge_node (merge_node a b).1.1 c).1.1 = (merge_node a (merge_node b c).1.1).1.1 ∧
  (merge_node (merge_node a b).1.1 b).1.1 = (merge_node a b).1.1 ∧
  (canonical_anchors (n_anchors a) → (merge_node a a).1.1 = a) ∧
  compute_id (merge_node a b).1.1 = compute_id a.
Proof.
  simpl. split_and!.
  - by apply merged_comm.
  - apply merged_assoc.
  - apply merged_absorb.
  - apply merged_idem.
  - apply compute_id_merged.
Qed.

(** A replica folds the copies it receives into its own one at a time. *)
Definition gossip (local : MemoryNode) (copies : list MemoryNode) : MemoryNode :=
  foldl (λ n r, (merge_node n r).1.1) local copies.

Lemma merged_swap a b c : identity_set b = identity_set c → merged (merged a b) c = merged (merged a c) b.
Proof. intros Hbc. by rewrite !merged_assoc, (merged_comm b c). Qed.

Lemma gossip_cons n r l : gossip n (r :: l) = gossip (merged n r) l.
Proof. done. Qed.

Lemma gossip_merged n r l :
  Forall (λ x, identity_set x = identity_set r) l → gossip (merged n r) l = merged (gossip n l) r.
Proof.
  revert n. induction l as [|x l IH]; intros n Hl; [done|]. apply Forall_cons in Hl as [Hx Hl].
  rewrite !gossip_cons, <-IH by done. by rewrite merged_swap.
Qed.

Lemma gossip_perm n l k :
  Forall (λ x, identity_set x = identity_set n) l → l ≡ₚ k → gossip n l = gossip n k.
Proof.
  intros Hl Hp. revert n Hl. induction Hp as [|x l k Hp IH|x y l|l1 l2 l3 Hp1 IH1 Hp2 IH2]; intros n Hl.
  - done.
  - apply Forall_cons in Hl as [Hx Hl]. rewrite !gossip_cons. by apply IH.
  - apply Forall_cons in Hl as [Hx Hl]. apply Forall_cons in Hl as [Hy Hl].
    rewrite !gossip_cons, merged_swap; [done|congruence].
  - rewrite IH1 by done. apply IH2. by rewrite <-Hp1.
Qed.

(** The copies already folded in are absorbed when they arrive again. *)
Lemma gossip_absorb n l r :
  Forall (λ x, identity_set x = identity_set n) l → r ∈ l → merged (gossip n l) r = gossip n l.
Proof.
  intros Hl Hr. revert n Hl. induction l as [|x l IH]; intros n Hl; [by apply not_elem_of_nil in Hr|].
  apply Forall_cons in Hl as [Hx Hl]. rewrite gossip_cons. apply elem_of_cons in Hr as [->|Hr].
  - assert (Forall (λ y, identity_set y = identity_set x) l) as Hl'.
    { eapply Forall_impl; [exact Hl|]. simpl. congruence. }
    rewrite gossip_merged by done. by rewrite merged_absorb.
  - by apply IH.
Qed.

Lemma gossip_absorb_all n l k :
  Forall (λ x, identity_set x = identity_set n) l → k ⊆ l → gossip n (l ++ k) = gossip n l.
Proof.
  intros Hl. induction k as [|x k IH] using rev_ind; intros Hk; [by rewrite app_nil_r|].
  rewrite app_assoc. unfold gossip at 1. rewrite foldl_app. fold (gossip n (l ++ k)). simpl.
  rewrite IH by set_solver. apply gossip_absorb; [done|]. set_solver.
Qed.

(** [C20] Replicas converge: two replicas that start from the same copy of a node
    and receive the same set of remote copies end with the same node, whatever
    the order in which the copies arrive and however often each is repeated. *)
Theorem gossip_converges (n : MemoryNode) (l k : list MemoryNode)
    (Hl : Forall (λ x, identity_set x = identity_set n) l) (Hset : ∀ x, x ∈ l ↔ x ∈ k) :
  gossip n l = gossip n k.
Proof.
  assert (Forall (λ x, identity_set x = identity_set n) k) as Hk.
  { rewrite Forall_forall in *. intros x Hx. by apply Hl, Hset. }
  rewrite <-(gossip_absorb_all n l k), <-(gossip_absorb_all n k l) by (done || (intros x; apply Hset)).
  apply gossip_perm; [by apply Forall_app|]. apply Permutation_app_comm.
Qed.
