(* ===== verification/Assert.v ===== *)
(** * The asserted plane ([mem-assert/src/lib.rs])

    Signing and verifying assertions, and [apply_diff], which merges a session's
    diff into a store under the rule that only an item's author may set its
    unsigned state.  The store is used through its interface. *)

From stdpp Require Import pretty.
From S2P Require Import Prelude Bytes Externs Text Belnap Identity Node Edge Kv Shred Store StoreSpec StoreContents.
From S2P Require Import Supersession StoreInterface Join.

Inductive AssertError :=
| Unsigned
| BadSignature
| BadAuthor
| AssertStore (e : StoreError)
| AssertSupersession (e : SupersessionError)
| AssertSerde (m : string)
| NotAssertable (m : string)
| NotAuthor (m : string)
| EdgePromotion (m : string).

(** [{:?}] of the enums that appear in messages *)
Definition Plane_debug (p : Plane) : string := match p with Derived => "Derived" | Asserted => "Asserted" end.
Definition TrustTier_debug (t : TrustTier) : string :=
  match t with
  | DerivedDeterministic => "DerivedDeterministic"
  | HumanConfirmed => "HumanConfirmed"
  | AgentAsserted => "AgentAsserted"
  | InferredAdvisory => "InferredAdvisory"
  end.
Definition EdgeKind_debug (k : EdgeKind) : string :=
  match k with
  | TemporalNext => "TemporalNext" | MergeParent => "MergeParent" | Supersedes => "Supersedes"
  | DependsOn => "DependsOn" | CausedBy => "CausedBy" | Motivates => "Motivates" | Implements => "Implements"
  | Decides => "Decides" | Refutes => "Refutes" | Contradicts => "Contradicts" | DerivedFrom => "DerivedFrom"
  | AnalogousTo => "AnalogousTo" | References => "References" | AnchoredTo => "AnchoredTo" | Emits => "Emits"
  | Touches => "Touches" | BranchContains => "BranchContains"
  end.

Definition RELAY_CLOCK_SKEW_MS : Z := 5 * 60 * 1000.

Record Blame := { b_author : string; b_plane : Plane; b_trust_tier : TrustTier }.

Record MemoryDiff := {
  d_author : string;
  d_created_at_ms : Timestamp;
  d_nodes : list MemoryNode;
  d_edges : list Edge;
}.

Definition MemoryDiff_new (author : string) (now_ms : Timestamp) : MemoryDiff :=
  {| d_author := author; d_created_at_ms := now_ms; d_nodes := []; d_edges := [] |}.
Definition diff_add_node (d : MemoryDiff) (n : MemoryNode) : MemoryDiff :=
  {| d_author := d_author d; d_created_at_ms := d_created_at_ms d; d_nodes := d_nodes d ++ [n]; d_edges := d_edges d |}.
Definition diff_add_edge (d : MemoryDiff) (e : Edge) : MemoryDiff :=
  {| d_author := d_author d; d_created_at_ms := d_created_at_ms d; d_nodes := d_nodes d; d_edges := d_edges d ++ [e] |}.

Record MergeReport := { r_nodes : nat; r_edges : nat; r_superseded : nat; r_unembedded : nat }.

Definition needs_second_party (kind : EdgeKind) : bool :=
  match kind with Supersedes | Refutes | Contradicts => true | _ => false end.

Definition inserted_by_key (e : Edge) : bytes := as_bytes "edge-inserted-by:" ++ Edge_key e.

Definition is_as_asserted (n : MemoryNode) (now_ms : Timestamp) : bool :=
  bool_decide (n_status n = Active) && bool_decide (n_valid_to n = None) && bool_decide (n_confidence n = [True_])
  && bool_decide (n_trust_tier n = AgentAsserted) && bool_decide (n_anchors n = [])
  && (n_valid_from n <=? n_observed_at n)
  && (n_observed_at n <=? saturating_add64 now_ms RELAY_CLOCK_SKEW_MS).

Definition set_node_signature (n : MemoryNode) (sig : option bytes) : MemoryNode :=
  {| n_schema_version := n_schema_version n; n_plane := n_plane n; n_kind := n_kind n; n_repo := n_repo n;
     n_author := n_author n; n_source_ref := n_source_ref n; n_content := n_content n;
     n_valid_from := n_valid_from n; n_valid_to := n_valid_to n; n_observed_at := n_observed_at n;
     n_trust_tier := n_trust_tier n; n_signature := sig; n_embedding := n_embedding n;
     n_confidence := n_confidence n; n_anchors := n_anchors n; n_status := n_status n |}.
Definition set_edge_signature (e : Edge) (sig : option bytes) : Edge :=
  {| e_from := e_from e; e_to := e_to e; e_kind := e_kind e; e_plane := e_plane e; e_trust_tier := e_trust_tier e;
     e_provenance := e_provenance e; e_confidence := e_confidence e; e_quarantined := e_quarantined e;
     e_signature := sig |}.

Section asserter.
Context `{Blake3, Hex, Ed25519}.

Record Asserter := { pubkey_hex : string; sk : SigningKey }.

Definition Asserter_new (k : SigningKey) : Asserter :=
  {| pubkey_hex := hex_encode (array_bytes (sk_verifying_key k)); sk := k |}.

(** What [for_principal] hashes *)
Definition principal_preimage (gateway_sk : SigningKey) (sub : string) : bytes :=
  as_bytes "mem-assert:principal-subkey:v1" ++ array_bytes (sk_to_bytes gateway_sk)
  ++ to_le_bytes 8 (Z.of_nat (length (as_bytes sub))) ++ as_bytes sub.

Definition for_principal (gateway_sk : SigningKey) (sub : string) : Asserter :=
  Asserter_new (sk_from_bytes (blake3 (principal_preimage gateway_sk sub))).

Definition assert_node_with (self : Asserter) (repo : string) (kind : NodeKind) (content : string)
    (valid_from_ms observed_at_ms : Timestamp) (embedding : option VersionedVector) : MemoryNode :=
  let key := "assert:" +:+ String.substring 0 16 (blake3_to_hex (blake3 (as_bytes content))) in
  let node :=
    {| n_schema_version := SCHEMA_VERSION; n_plane := Asserted; n_kind := kind; n_repo := repo;
       n_author := pubkey_hex self; n_source_ref := DagNative key; n_content := as_bytes content;
       n_valid_from := valid_from_ms; n_valid_to := None; n_observed_at := observed_at_ms;
       n_trust_tier := AgentAsserted; n_signature := None; n_embedding := embedding;
       n_confidence := [True_]; n_anchors := []; n_status := Active |} in
  set_node_signature node (Some (array_bytes (sk_sign (sk self) (array_bytes (compute_id node))))).

Definition assert_node (self : Asserter) (repo : string) (kind : NodeKind) (content : string) (now_ms : Timestamp)
    : MemoryNode := assert_node_with self repo kind content now_ms now_ms None.

Definition sign_edge (self : Asserter) (e : Edge) : Edge :=
  set_edge_signature e (Some (array_bytes (sk_sign (sk self) (Edge_key e)))).

Definition assert_edge (self : Asserter) (from to : ContentHash) (kind : EdgeKind) (now_ms : Timestamp) : Edge :=
  sign_edge self
    {| e_from := from; e_to := to; e_kind := kind; e_plane := Asserted; e_trust_tier := AgentAsserted;
       e_provenance := {| p_method := Manual; p_asserter := pubkey_hex self; p_at := now_ms; p_evidence := None |};
       e_confidence := [True_]; e_quarantined := false; e_signature := None |}.

Definition propose_edge (self : Asserter) (from to : ContentHash) (kind : EdgeKind) (method : EdgeMethod)
    (evidence : option string) (now_ms : Timestamp) : Edge :=
  sign_edge self
    {| e_from := from; e_to := to; e_kind := kind; e_plane := Asserted; e_trust_tier := InferredAdvisory;
       e_provenance := {| p_method := method; p_asserter := pubkey_hex self; p_at := now_ms; p_evidence := evidence |};
       e_confidence := [True_]; e_quarantined := true; e_signature := None |}.

Definition verify_sig (pubkey : string) (msg : bytes) (sig : option bytes) : result AssertError unit :=
  let? sig := ok_or sig Unsigned in
  let? pk_bytes := map_err (λ _, BadAuthor) (hex_decode pubkey) in
  let? pk := ok_or (array_of 32 pk_bytes) BadAuthor in
  let? sig_bytes := ok_or (array_of 64 sig) BadSignature in
  if negb (vk_decodes pk) then Err BadAuthor
  else if verify_strict pk msg sig_bytes then Ok tt else Err BadSignature.

Definition assertable_plane_and_tier (plane : Plane) (tier : TrustTier) : result AssertError unit :=
  if negb (bool_decide (plane = Asserted))
  then Err (NotAssertable ("plane must be Asserted on the assert path, got " +:+ Plane_debug plane))
  else match tier with
       | AgentAsserted | InferredAdvisory => Ok tt
       | _ => Err (NotAssertable ("trust_tier must be AgentAsserted or InferredAdvisory, got " +:+ TrustTier_debug tier))
       end.

Definition verify_node (n : MemoryNode) : result AssertError unit :=
  let? _ := assertable_plane_and_tier (n_plane n) (n_trust_tier n) in
  verify_sig (n_author n) (array_bytes (compute_id n)) (n_signature n).

Definition verify_edge (e : Edge) : result AssertError unit :=
  let? _ := assertable_plane_and_tier (e_plane e) (e_trust_tier e) in
  verify_sig (p_asserter (e_provenance e)) (Edge_key e) (e_signature e).

Definition blame (n : MemoryNode) : Blame :=
  {| b_author := n_author n; b_plane := n_plane n; b_trust_tier := n_trust_tier n |}.

Definition diff_verify (self : MemoryDiff) : result AssertError unit :=
  let? _ := rfold (λ _ n, verify_node n) tt (d_nodes self) in
  rfold (λ _ e, verify_edge e) tt (d_edges self).
End asserter.

(** ** Merging a diff *)

Section apply_diff.
Context {T : Type} `{MemStore T, Blake3, Hex, Ed25519}.
Context (diff : MemoryDiff) (caller : option string) (now : Timestamp).

Definition is_caller (who : string) : bool := bool_decide (caller = Some who).

Definition floor : Timestamp := saturating_sub64 now RELAY_CLOCK_SKEW_MS.

(** A copy from someone other than the author contributes no embedding and no
    early times. *)
Definition incoming (n : MemoryNode) : MemoryNode :=
  if is_caller (n_author n) then n
  else
    {| n_schema_version := n_schema_version n; n_plane := n_plane n; n_kind := n_kind n; n_repo := n_repo n;
       n_author := n_author n; n_source_ref := n_source_ref n; n_content := n_content n;
       n_valid_from := Z.max (n_valid_from n) floor; n_valid_to := n_valid_to n;
       n_observed_at := Z.max (n_observed_at n) floor;
       n_trust_tier := n_trust_tier n; n_signature := n_signature n; n_embedding := None;
       n_confidence := n_confidence n; n_anchors := n_anchors n; n_status := n_status n |}.

Definition short (k : nat) (id : ContentHash) : string := String.substring 0 k (to_hex id).

(** One iteration of the node loop: the nodes to write and the dropped
    embeddings so far *)
Definition plan_node (t : T) (st : list MemoryNode * nat) (n : MemoryNode) : result AssertError (list MemoryNode * nat) :=
  let '(to_write, unembedded) := st in
  let id := compute_id n in
  let own := is_caller (n_author n) in
  let? stored := map_err AssertStore (ms_get_node t id) in
  match stored with
  | None =>
    if negb own && negb (is_as_asserted n now) then
      Err (NotAuthor ("node " +:+ short 12 id +:+ " (first insert by a non-author must carry the as-asserted state)"))
    else
      Ok (to_write ++ [incoming n],
          if negb own && bool_decide (is_Some (n_embedding n)) then Datatypes.S unembedded else unembedded)
  | Some stored =>
    let '(joined, changed, _) := merge_node stored (incoming n) in
    if negb changed then Ok st
    else if negb own then Err (NotAuthor ("node " +:+ short 12 id))
    else Ok (to_write ++ [joined], unembedded)
  end.

Definition label (e : Edge) : string :=
  "edge " +:+ short 10 (e_from e) +:+ "->" +:+ short 10 (e_to e) +:+ " " +:+ EdgeKind_debug (e_kind e).

(** A field of the target: of the diff's own copy first, else of the stored one *)
Definition target_field (f : MemoryNode → string) (t : T) (to : ContentHash) : result AssertError (option string) :=
  match list_find (λ n, compute_id n = to) (d_nodes diff) with
  | Some (_, n) => Ok (Some (f n))
  | None => rmap (fmap f) (map_err AssertStore (ms_get_node t to))
  end.

(** What the checks against a stored edge of the same identity decide: skip it,
    refuse the diff, or go on *)
Definition check_stored (stored : option Edge) (e : Edge) : result AssertError bool :=
  match stored with
  | None => Ok true
  | Some stored =>
    if bool_decide (stored = e) then Ok false
    else
      let by_asserter := is_caller (p_asserter (e_provenance stored)) in
      if e_quarantined stored && negb (e_quarantined e) && negb by_asserter then Err (EdgePromotion (label e))
      else if e_quarantined e && negb (e_quarantined stored) then Ok false
      else if negb by_asserter then Err (NotAuthor (label e))
      else Ok true
  end.

(** The rules on a proposal that contests another principal's node *)
Definition check_proposal (target_author : option string) (e : Edge) : result AssertError unit :=
  if needs_second_party (e_kind e) && e_quarantined e then
    match target_author with
    | None => Ok tt
    | Some author =>
      if bool_decide (e_kind e = Supersedes) && negb (is_caller author)
         && (RELAY_CLOCK_SKEW_MS <? abs_diff (p_at (e_provenance e)) now)
      then Err (NotAuthor (label e +:+ " (supersedes proposal on another principal's node must be timestamped now)"))
      else if negb (is_caller author) && negb (is_caller (p_asserter (e_provenance e)))
      then Err (NotAuthor (label e +:+ " (proposal contesting another principal's node must be signed by the caller)"))
      else Ok tt
    end
  else Ok tt.

(** One iteration of the edge loop: the plain edges and the supersessions so far *)
Definition plan_edge (t : T) (st : list Edge * list Edge) (e : Edge) : result AssertError (list Edge * list Edge) :=
  let '(plain, supersessions) := st in
  let? es := map_err AssertStore (ms_out_edges t (e_from e)) in
  let stored := snd <$> list_find (same_edge (e_to e) (e_kind e)) es in
  let? go := check_stored stored e in
  if negb go then Ok st
  else
    let? target_author := if needs_second_party (e_kind e) then target_field n_author t (e_to e) else Ok None in
    let? _ := check_proposal target_author e in
    if bool_decide (e_kind e = Supersedes) && negb (e_quarantined e) then
      match target_author with
      | Some author =>
        if negb (is_caller author) then Err (NotAuthor (label e +:+ " (supersedes another principal's node)"))
        else Ok (plain, supersessions ++ [e])
      | None => Ok (plain, supersessions ++ [e])
      end
    else if bool_decide (stored = None) && negb (e_quarantined e) && negb (is_caller (p_asserter (e_provenance e)))
    then Err (NotAuthor (label e +:+ " (relayed load-bearing edge)"))
    else Ok (plain ++ [e], supersessions).

(** Every check, before any write *)
Definition plan_diff (t : T) : result AssertError (list MemoryNode * nat * (list Edge * list Edge)) :=
  let? _ := diff_verify diff in
  let? nodes := rfold (plan_node t) ([], 0%nat) (d_nodes diff) in
  let? edges := rfold (plan_edge t) ([], []) (d_edges diff) in
  Ok (nodes, edges).

Definition record_inserter (c : string) (e : Edge) : stm T AssertError unit :=
  let! tenant := sread (λ t, target_field n_repo t (e_to e)) in
  match tenant with
  | Some t => smap_err AssertStore (ms_put_meta t (inserted_by_key e) (as_bytes c))
  | None => sret tt
  end.

Definition record_inserters (plain : list Edge) : stm T AssertError unit :=
  match caller with
  | None => sret tt
  | Some c => sfold (λ _ e, record_inserter c e) tt
                    (filter (λ e, needs_second_party (e_kind e) && e_quarantined e = true) plain)
  end.

Definition apply_one (superseded : nat) (e : Edge) : stm T AssertError nat :=
  let! rep := smap_err AssertSupersession (ms_apply_supersession e) in
  sret (if transitioned rep then Datatypes.S superseded else superseded).

Definition apply_diff : stm T AssertError MergeReport :=
  let! plan := sread plan_diff in
  let '(to_write, unembedded, (plain, supersessions)) := plan in
  let! _ := smap_err AssertStore (ms_commit to_write plain) in
  let! _ := record_inserters plain in
  let! superseded := sfold apply_one 0%nat supersessions in
  sret {| r_nodes := length (d_nodes diff); r_edges := length (d_edges diff);
          r_superseded := superseded; r_unembedded := unembedded |}.
End apply_diff.

(** ** Signatures *)

Lemma ok_or_ok {E A} (o : option A) (e : E) a : ok_or o e = Ok a ↔ o = Some a.
Proof. destruct o; simpl; naive_solver. Qed.

Section signatures.
Context `{Blake3, Hex, Ed25519, !HexLaws, !Ed25519Laws}.

Lemma verify_own_sig k msg :
  verify_sig (hex_encode (array_bytes (sk_verifying_key k))) msg (Some (array_bytes (sk_sign k msg))) = Ok tt.
Proof.
  unfold verify_sig. simpl. rewrite hex_decode_encode. simpl. rewrite array_of_array. simpl.
  rewrite array_of_array. simpl. rewrite sk_verifying_key_decodes. simpl. by rewrite verify_strict_sign.
Qed.

Lemma set_node_signature_id n sig : compute_id (set_node_signature n sig) = compute_id n.
Proof. by apply compute_id_identity. Qed.

(** What an asserter signs verifies: an asserted node (with any dates and
    embedding), an asserted edge and a proposal all pass the write boundary, the
    node is attributed to the asserter, and a proposal is quarantined. *)
Theorem assertions_verify (k : SigningKey) repo kind content vf obs emb f t ek method ev now :
  let a := Asserter_new k in
  let n := assert_node_with a repo kind content vf obs emb in
  verify_node n = Ok tt ∧ b_author (blame n) = pubkey_hex a ∧
  verify_edge (assert_edge a f t ek now) = Ok tt ∧
  verify_edge (propose_edge a f t ek method ev now) = Ok tt ∧
  e_quarantined (propose_edge a f t ek method ev now) = true.
Proof.
  split_and!; [|done| | |done].
  - unfold verify_node, assert_node_with. rewrite set_node_signature_id. simpl. apply verify_own_sig.
  - unfold verify_edge, assert_edge, sign_edge. simpl. apply verify_own_sig.
  - unfold verify_edge, propose_edge, sign_edge. simpl. apply verify_own_sig.
Qed.

(** Verification is exactly the policy: a node passes when it is on the
    asserted plane at one of the two agent tiers and carries a 64-byte signature
    of its content id under the key its author field names.  So nothing signed by
    an agent can claim the derived plane or a higher tier, although the tier is
    outside the signed id. *)
Theorem verify_node_iff (n : MemoryNode) :
  verify_node n = Ok tt ↔
  n_plane n = Asserted ∧ (n_trust_tier n = AgentAsserted ∨ n_trust_tier n = InferredAdvisory) ∧
  ∃ pk sig, hex_decode (n_author n) = Ok (array_bytes (n := 32) pk) ∧ n_signature n = Some (array_bytes (n := 64) sig) ∧
            vk_decodes pk = true ∧ verify_strict pk (array_bytes (compute_id n)) sig = true.
Proof.
  unfold verify_node, assertable_plane_and_tier. rewrite rbind_ok. split.
  - intros ([] & Hp & Hs). case_bool_decide as Hpl; [|done]. simpl in Hp. split; [done|]. split; [destruct (n_trust_tier n); auto; done|].
    unfold verify_sig in Hs. apply rbind_ok in Hs as (sb & Hsb & Hs). apply rbind_ok in Hs as (pb & Hpb & Hs).
    apply rbind_ok in Hs as (pk & Hpk & Hs). apply rbind_ok in Hs as (sig & Hsig & Hs).
    apply ok_or_ok in Hsb, Hpk, Hsig. apply map_err_ok in Hpb. apply array_of_Some in Hpk, Hsig. subst.
    exists pk, sig. destruct (vk_decodes pk); [|done]. simpl in Hs. by destruct (verify_strict _ _ _).
  - intros (Hpl & Ht & pk & sig & Hhex & Hsg & Hd & Hv). exists tt. rewrite bool_decide_eq_true_2 by done. simpl.
    split; [by destruct Ht as [-> | ->]|]. unfold verify_sig. rewrite Hsg. simpl. rewrite Hhex. simpl.
    rewrite !array_of_array. simpl. rewrite Hd. simpl. by rewrite Hv.
Qed.

(** Different principals, or different gateways, hash different byte strings into
    their seeds. *)
Lemma principal_preimage_inj g g' sub sub' :
  principal_preimage g sub = principal_preimage g' sub' → sk_to_bytes g = sk_to_bytes g' ∧ sub = sub'.
Proof.
  unfold principal_preimage. intros Heq. apply (inj (as_bytes _ ++.)) in Heq.
  apply app_inj_1 in Heq as [Hg%array_eq Heq]; [|by rewrite !length_array].
  apply app_inj_1 in Heq as [_ Heq]; [|by rewrite !length_to_le_bytes]. by apply (inj as_bytes) in Heq.
Qed.
End signatures.

(** ** What a diff can change *)

Section protect.
Context {T : Type} `{MemStore T, Blake3, Hex, Ed25519, !MemStoreLaws T}.
Context (diff : MemoryDiff) (caller : option string) (now : Timestamp).
Context (c0 : conts).

Context (Hcol : no_collision (d_nodes diff) c0) (Hids : ∀ i n, c_nodes c0 !! i = Some n → compute_id n = i ∧ json_repr n).
Context (Hjson : Forall json_repr (d_nodes diff)).

Lemma same_author n m i : n ∈ d_nodes diff → c_nodes c0 !! i = Some m → compute_id n = i → n_author n = n_author m.
Proof using Hcol Hids.
  intros Hn Hm Hi. pose proof (no_collision_identity _ _ Hcol n m i Hn Hm Hi (proj1 (Hids i m Hm))) as Hid.
  by injection Hid.
Qed.

(** The invariant of the writes: another principal's nodes and edges are as they
    were, and every node that is new verifies. *)
Record diff_inv (c : conts) : Prop := {
  keep_nodes : ∀ i n, c_nodes c0 !! i = Some n → caller ≠ Some (n_author n) → c_nodes c !! i = Some n;
  keep_edges : ∀ i e, c_edges c0 !! i = Some e → caller ≠ Some (p_asserter (e_provenance e)) → c_edges c !! i = Some e;
  new_verify : ∀ i n, c_nodes c !! i = Some n → c_nodes c0 !! i = None → verify_node n = Ok tt;
}.

(** What the plan may contain *)
Definition node_allowed (m : MemoryNode) : Prop :=
  json_repr m ∧
  match c_nodes c0 !! compute_id m with
  | Some stored => caller = Some (n_author stored)
  | None => verify_node m = Ok tt
  end.
Definition edge_allowed (e : Edge) : Prop :=
  match c_edges c0 !! edge_ident e with
  | Some stored => caller = Some (p_asserter (e_provenance stored))
  | None => True
  end.
Definition target_allowed (e : Edge) : Prop :=
  match c_nodes c0 !! e_to e with Some stored => caller = Some (n_author stored) | None => True end.

Lemma incoming_identity n : identity_set (incoming caller now n) = identity_set n.
Proof. unfold incoming. by destruct (is_caller _ _). Qed.

Lemma incoming_json n : json_repr n → json_repr (incoming caller now n).
Proof. unfold incoming. by destruct (is_caller _ _). Qed.

Lemma verify_node_same a b :
  identity_set a = identity_set b → n_trust_tier a = n_trust_tier b → n_signature a = n_signature b →
  verify_node a = verify_node b.
Proof.
  intros Hid Ht Hs. unfold verify_node. rewrite (compute_id_identity a b Hid), Ht, Hs. injection Hid as _ -> _ _ -> _ _. done.
Qed.

Lemma merged_json a b : json_repr a → json_repr b → json_repr (merged a b).
Proof.
  unfold json_repr, MemoryNode_json. simpl. destruct (n_embedding a), (n_embedding b); simpl; try done.
  by destruct (ord_leb _ _).
Qed.

Lemma plan_node_allowed t st n st' :
  ms_holds t c0 → n ∈ d_nodes diff → verify_node n = Ok tt → Forall node_allowed st.1 →
  plan_node caller now t st n = Ok st' → Forall node_allowed st'.1.
Proof using Hcol Hids Hjson.
  intros Ht Hn Hv Hst Hp. destruct st as [w u]. unfold plan_node in Hp. rewrite (ms_get_node_ok t c0) in Hp by done.
  cbn [map_err rbind] in Hp. assert (json_repr n) as Hj by (rewrite Forall_forall in Hjson; by apply Hjson).
  destruct (c_nodes c0 !! compute_id n) as [stored|] eqn:Hs.
  - cbn [merge_node] in Hp. destruct (negb (negb _)); [by injection Hp as <-|]. destruct (is_caller caller (n_author n)) eqn:Hown; [|done].
    injection Hp as <-. simpl. apply Forall_app. split; [done|]. apply Forall_singleton.
    destruct (Hids _ _ Hs) as [Hid Hsj]. split; [by apply merged_json; [|apply incoming_json]|].
    rewrite compute_id_merged, Hid, Hs. apply bool_decide_eq_true in Hown. rewrite Hown. f_equal.
    by eapply same_author.
  - destruct (negb _ && _); [done|]. injection Hp as <-. simpl. apply Forall_app. split; [done|]. apply Forall_singleton.
    split; [by apply incoming_json|].
    rewrite (compute_id_identity _ n (incoming_identity n)), Hs. rewrite <-Hv.
    apply verify_node_same; [apply incoming_identity|unfold incoming; by destruct (is_caller _ _)..].
Qed.

Lemma check_stored_allowed e :
  check_stored caller (c_edges c0 !! edge_ident e) e = Ok true → edge_allowed e.
Proof.
  unfold check_stored, edge_allowed. destruct (c_edges c0 !! edge_ident e) as [x|]; [|done].
  case_bool_decide; [done|]. destruct (e_quarantined x && _ && _); [done|]. destruct (e_quarantined e && _); [done|].
  destruct (is_caller caller _) eqn:Hc; [|done]. by apply bool_decide_eq_true in Hc.
Qed.

Lemma find_stored t e :
  ms_holds t c0 → ∃ es, ms_out_edges t (e_from e) = Ok es ∧
    snd <$> list_find (same_edge (e_to e) (e_kind e)) es = c_edges c0 !! edge_ident e.
Proof.
  intros Ht. destruct (ms_out_edges_ok t c0 (e_from e) Ht) as (es & Hes & _ & Hin). exists es. split; [done|].
  destruct (list_find _ es) as [[j x]|] eqn:Hl; simpl.
  - apply list_find_Some in Hl as (Hj & [Hto Hk] & _). apply list_elem_of_lookup_2, Hin in Hj as [Hr Hf].
    unfold edge_ident in *. by rewrite <-Hr, Hto, Hk, Hf.
  - destruct (c_edges c0 !! edge_ident e) as [x|] eqn:Hr; [|done]. exfalso.
    pose proof (proj2 (ms_ids t c0 Ht) _ _ Hr) as Hid. apply list_find_None in Hl. rewrite Forall_forall in Hl.
    injection Hid as Hf Hto Hk. apply (Hl x); [|done]. apply Hin. split; [|done].
    unfold edge_ident in *. by rewrite Hf, Hto, Hk.
Qed.

Lemma plan_edge_allowed t st e st' :
  ms_holds t c0 → Forall edge_allowed st.1 → Forall (λ e, edge_allowed e ∧ target_allowed e) st.2 →
  plan_edge diff caller now t st e = Ok st' →
  Forall edge_allowed st'.1 ∧ Forall (λ e, edge_allowed e ∧ target_allowed e) st'.2.
Proof using Hcol Hids.
  intros Ht Hpl Hsup Hp. destruct st as [pl sup]. unfold plan_edge in Hp.
  destruct (find_stored t e Ht) as (es & Hes & Hfind). rewrite Hes in Hp. cbn [map_err rbind] in Hp. rewrite Hfind in Hp.
  apply rbind_ok in Hp as (go & Hgo & Hp). destruct go; cbn [negb] in Hp; [|injection Hp as <-; done].
  apply check_stored_allowed in Hgo. apply rbind_ok in Hp as (ta & Hta & Hp). apply rbind_ok in Hp as ([] & _ & Hp).
  destruct (bool_decide (e_kind e = Supersedes) && negb (e_quarantined e)) eqn:Hs.
  - apply andb_prop in Hs as [Hk%bool_decide_eq_true _]. rewrite Hk in Hta. simpl in Hta.
    assert (target_allowed e ∧ st' = (pl, sup ++ [e])) as [Hta' ->].
    { unfold target_allowed. destruct (c_nodes c0 !! e_to e) as [m|] eqn:Hm.
      - assert (ta = Some (n_author m)) as ->.
        { unfold target_field in Hta. destruct (list_find _ _) as [[j n]|] eqn:Hl.
          - injection Hta as <-. apply list_find_Some in Hl as (Hj & Hn & _). f_equal.
            eapply same_author; [by eapply list_elem_of_lookup_2|done|done].
          - rewrite (ms_get_node_ok t c0), Hm in Hta by done. by injection Hta as <-. }
        destruct (is_caller caller (n_author m)) eqn:Hc; [|done]. apply bool_decide_eq_true in Hc.
        cbn [negb] in Hp. by injection Hp as <-.
      - split; [done|]. destruct ta as [au|]; [|by injection Hp as <-].
        destruct (is_caller caller au); [|done]. by injection Hp as <-. }
    split; [done|]. simpl. apply Forall_app. split; [done|]. by apply Forall_singleton.
  - destruct (bool_decide _ && _ && _); [done|]. injection Hp as <-. split; [|done].
    simpl. apply Forall_app. split; [done|]. by apply Forall_singleton.
Qed.

Lemma plan_diff_allowed t w u pl sup :
  ms_holds t c0 → plan_diff diff caller now t = Ok (w, u, (pl, sup)) →
  Forall node_allowed w ∧ Forall edge_allowed pl ∧ Forall (λ e, edge_allowed e ∧ target_allowed e) sup.
Proof using Hcol Hids Hjson.
  intros Ht Hp. unfold plan_diff in Hp. apply rbind_ok in Hp as ([] & Hv & Hp).
  apply rbind_ok in Hp as (ns & Hns & Hp). apply rbind_ok in Hp as (es & Hes & Hp). injection Hp as -> ->.
  unfold diff_verify in Hv. apply rbind_ok in Hv as ([] & Hv & _). pose proof (rfold_unit_ok _ _ Hv) as Hvn.
  split.
  - refine (rfold_inv _ (λ st, Forall node_allowed st.1) _ _ _ _ _ Hns); [constructor|].
    intros b a b' Ha Hb Hf. eapply plan_node_allowed; [done|done|by apply Hvn|done|done].
  - refine (rfold_inv _ (λ st, Forall edge_allowed st.1 ∧ Forall (λ e, edge_allowed e ∧ target_allowed e) st.2) _ _ _ _ _ Hes).
    + split; constructor.
    + intros b a b' Ha [Hb1 Hb2] Hf. by eapply plan_edge_allowed.
Qed.

(** ** The writes *)

Lemma foldl_put_node_lookup (ns : list MemoryNode) c i :
  (∀ m, m ∈ ns → compute_id m ≠ i) → c_nodes (foldl c_put_node c ns) !! i = c_nodes c !! i.
Proof.
  revert c. induction ns as [|m ns IH]; intros c Hns; simpl; [done|].
  rewrite IH by (intros x Hx; apply Hns; by apply list_elem_of_further). simpl.
  apply lookup_insert_ne. apply (Hns m), list_elem_of_here.
Qed.

Lemma foldl_put_node_inv (ns : list MemoryNode) c i n :
  c_nodes (foldl c_put_node c ns) !! i = Some n → c_nodes c !! i = Some n ∨ (n ∈ ns ∧ compute_id n = i).
Proof.
  revert c. induction ns as [|m ns IH]; intros c Hn; simpl in Hn; [by left|].
  apply IH in Hn as [Hn|[Hn Hi]]; [|right; split; [by apply list_elem_of_further|done]].
  simpl in Hn. rewrite lookup_insert in Hn. case_decide as Hd; [|by left].
  injection Hn as <-. right. split; [apply list_elem_of_here|done].
Qed.

Lemma foldl_put_node_edges (ns : list MemoryNode) c : c_edges (foldl c_put_node c ns) = c_edges c.
Proof. revert c. induction ns as [|m ns IH]; intros c; simpl; [done|]. by rewrite IH. Qed.

Lemma foldl_put_edge_nodes es c : c_nodes (N := MemoryNode) (foldl c_put_edge c es) = c_nodes c.
Proof. revert c. induction es as [|m ns IH]; intros c; simpl; [done|]. by rewrite IH. Qed.

Lemma foldl_put_edge_lookup es c i :
  (∀ e, e ∈ es → edge_ident e ≠ i) → c_edges (N := MemoryNode) (foldl c_put_edge c es) !! i = c_edges c !! i.
Proof.
  revert c. induction es as [|m ns IH]; intros c Hns; simpl; [done|].
  rewrite IH by (intros x Hx; apply Hns; by apply list_elem_of_further). simpl.
  apply lookup_insert_ne. apply (Hns m), list_elem_of_here.
Qed.

Lemma commit_diff_inv w pl : Forall node_allowed w → Forall edge_allowed pl → diff_inv (c_commit c0 w pl).
Proof.
  intros Hw Hpl. rewrite Forall_forall in Hw. rewrite Forall_forall in Hpl. unfold c_commit. split.
  - intros i n Hi Hc. rewrite foldl_put_edge_nodes, foldl_put_node_lookup; [done|].
    intros m Hm Hmi. destruct (Hw m Hm) as [_ Ha]. by rewrite Hmi, Hi in Ha.
  - intros i e Hi Hc. rewrite foldl_put_edge_lookup, foldl_put_node_edges; [done|].
    intros x Hx Hxi. apply list_elem_of_filter in Hx as [_ Hx]. specialize (Hpl x Hx).
    unfold edge_allowed in Hpl. by rewrite Hxi, Hi in Hpl.
  - intros i n Hn Hi. rewrite foldl_put_edge_nodes in Hn. apply foldl_put_node_inv in Hn as [Hn|[Hn Hni]]; [congruence|].
    destruct (Hw n Hn) as [_ Ha]. by rewrite Hni, Hi in Ha.
Qed.

Lemma sup_step_diff_inv c e r c' :
  (∀ i n, c_nodes c !! i = Some n → compute_id n = i) →
  edge_allowed e → target_allowed e → sup_step c e r c' → diff_inv c → diff_inv c'.
Proof.
  intros Hcid He Ht Hst Hinv. inversion Hst as [| | | | | | |target Hg Hkn Htg Hpl Hcyc]; subst; try done.
  destruct Hinv as [Hn Hed Hv].
  assert (compute_id (superseded_target e target) = e_to e) as Hid.
  { rewrite <-(Hcid _ _ Htg). apply superseded_target_id. }
  unfold c_supersede. split.
  - intros i n Hi Hc. assert (i ≠ e_to e) as Hne.
    { intros ->. unfold target_allowed in Ht. by rewrite Hi in Ht. }
    case_bool_decide; simpl; [|by apply Hn]. unfold node_id, MemoryNode_identified.
    rewrite Hid, lookup_insert_ne by done. by apply Hn.
  - intros i x Hi Hc. assert (edge_ident e ≠ i) as Hne.
    { intros <-. unfold edge_allowed in He. by rewrite Hi in He. }
    case_bool_decide; simpl; rewrite lookup_insert_ne by done; by apply Hed.
  - intros i n Hi Hi0. case_bool_decide; simpl in Hi; [|by eapply Hv].
    rewrite lookup_insert in Hi. case_decide as Hd; [|by eapply Hv]. injection Hi as <-.
    unfold node_id, MemoryNode_identified in Hd. rewrite Hid in Hd. subst i.
    rewrite <-(Hv _ _ Htg Hi0). by apply verify_node_same.
Qed.

Context (Hmeta : ∀ who, caller = Some who → ms_meta_value (as_bytes who)).

Lemma keeps_record pl : keeps diff_inv (record_inserters diff caller pl).
Proof using Hmeta.
  unfold record_inserters. destruct caller as [who|] eqn:Hwho; [|apply keeps_ret].
  apply keeps_fold. intros _ e _. unfold record_inserter. apply keeps_bind; [apply keeps_read|].
  intros [tn|]; [|apply keeps_ret]. apply keeps_map_err. intros t c Ht Hc.
  destruct (ms_put_meta_ok t c tn (inserted_by_key e) (as_bytes who) Ht) as (t' & r & Hr & _ & Hres).
  { intros _. by apply Hmeta. }
  rewrite Hr. simpl. destruct r; [|exists c; by destruct Hres].
  destruct Hres as [_ Ht']. eexists. split; [done|]. by destruct Hc.
Qed.

Lemma keeps_supersede n e : edge_allowed e → target_allowed e → keeps diff_inv (apply_one n e).
Proof.
  intros He Hta. unfold apply_one. apply keeps_bind; [|intros; apply keeps_ret]. apply keeps_map_err.
  intros t c Ht Hc. destruct (ms_supersede_ok t c e Ht) as (t' & r & Hr & _ & Hres). rewrite Hr. simpl.
  destruct Hres as [(c' & Hst & Ht')|(err & _ & Ht' & _)]; [|by exists c]. exists c'. split; [done|].
  eapply sup_step_diff_inv; [|done..]. intros i n' Hn'. by apply (proj1 (ms_ids t c Ht)).
Qed.

Lemma diff_inv_start : diff_inv c0.
Proof. split; [done|done|]. intros i n Hn Hi. congruence. Qed.

Lemma apply_diff_inv t :
  ms_holds t c0 → ∃ c', ms_holds (apply_diff diff caller now t).1 c' ∧ diff_inv c'.
Proof using Hcol Hids Hjson Hmeta.
  intros Ht. unfold apply_diff, sbind at 1, sread.
  destruct (plan_diff diff caller now t) as [[[w u] [pl sup]]|err] eqn:Hp.
  2:{ exists c0. split; [done|apply diff_inv_start]. }
  destruct (plan_diff_allowed t w u pl sup Ht Hp) as (Hw & Hpl & Hsup).
  assert (Forall json_repr w) as Hj by (eapply Forall_impl; [exact Hw|]; by intros ? []).
  destruct (ms_commit_ok t c0 w pl Ht Hj) as (t1 & r & Hr & _ & Hres).
  unfold sbind at 1, smap_err at 1. rewrite Hr. destruct r as [[]|err]; simpl.
  2:{ exists c0. split; [by destruct Hres|apply diff_inv_start]. }
  destruct Hres as [_ Ht1].
  assert (keeps diff_inv (let! _ := record_inserters diff caller pl in
                 let! superseded := sfold apply_one 0%nat sup in
                 sret {| r_nodes := length (d_nodes diff); r_edges := length (d_edges diff);
                         r_superseded := superseded; r_unembedded := u |})) as Hk.
  { apply keeps_bind; [apply keeps_record|]. intros _. apply keeps_bind; [|intros; apply keeps_ret].
    apply keeps_fold. intros b e He. rewrite Forall_forall in Hsup. destruct (Hsup e He). by apply keeps_supersede. }
  apply (Hk t1 _ Ht1). by apply commit_diff_inv.
Qed.
End protect.

Section diff_theorems.
Context {T : Type} `{MemStore T, Blake3, Hex, Ed25519, !MemStoreLaws T}.

Lemma smap_err_err {E F A} (f : E → F) (m : stm T E A) t t' e :
  smap_err f m t = (t', Err e) → ∃ x, e = f x.
Proof. unfold smap_err. destruct (m t) as [? [|x]]; [done|]. intros [= _ <-]. by exists x. Qed.

Lemma sfold_err {E A B} (f : B → A → stm T E B) (P : E → Prop) b l t t' e :
  (∀ b a t t' e, f b a t = (t', Err e) → P e) → sfold f b l t = (t', Err e) → P e.
Proof.
  intros Hf. revert b t. induction l as [|a l IH]; intros b t Hm; [done|].
  apply sbind_inv in Hm as [(t1 & b' & _ & Hm)|(e' & Hm & [= ->])]; eauto.
Qed.

Lemma apply_one_err k e (t t' : T) err : apply_one k e t = (t', Err err) → ∃ y, err = AssertSupersession y.
Proof. intros Hm. apply sbind_inv in Hm as [(? & ? & _ & Hm)|(e2 & Hm & [= ->])]; [done|]. by eapply smap_err_err. Qed.

Lemma record_inserters_err diff caller pl (t t' : T) err :
  record_inserters diff caller pl t = (t', Err err) → ∃ x, err = AssertStore x.
Proof.
  unfold record_inserters. destruct caller as [who|]; [|done].
  apply (sfold_err (λ _ e, record_inserter diff who e) (λ err, ∃ x, err = AssertStore x)). clear. intros _ e t t' err Hm.
  apply sbind_inv in Hm as [(t1 & tn & _ & Hm)|(e2 & Hm & [= ->])].
  - destruct tn; [by eapply smap_err_err|done].
  - unfold sread, target_field in Hm. injection Hm as _ Hm. destruct (list_find _ _) as [[??]|]; [done|].
    destruct (ms_get_node t (e_to e)) as [|y]; [done|]. injection Hm as <-. by exists y.
Qed.


(** A refused diff writes nothing: when the error is one of verification or of
    the authorship rules, the store, rows and key material included, is exactly
    the one the call started from.  So no partial diff can be planted by making a
    later item fail. *)
Theorem apply_diff_refused_unchanged (diff : MemoryDiff) (caller : option string) (now : Timestamp) (t t' : T)
    (err : AssertError) (Happ : apply_diff diff caller now t = (t', Err err))
    (Herr : ∀ x y, err ≠ AssertStore x ∧ err ≠ AssertSupersession y) :
  t' = t.
Proof.
  unfold apply_diff in Happ.
  apply sbind_inv in Happ as [(t1 & [[w u] [pl sup]] & Hp & Happ)|(e & Hp & _)]; [|by injection Hp].
  injection Hp as <- _.
  exfalso. assert ((∃ x, err = AssertStore x) ∨ ∃ y, err = AssertSupersession y) as [[x ->]|[y ->]].
  2:{ by destruct (Herr x Cycle). }
  2:{ by destruct (Herr (Backend "") y). }
  apply sbind_inv in Happ as [(t2 & [] & _ & Happ)|(e & Hm & [= ->])]; [|left; by eapply smap_err_err].
  apply sbind_inv in Happ as [(t3 & [] & _ & Happ)|(e & Hm & [= ->])]; [|left; by eapply record_inserters_err].
  apply sbind_inv in Happ as [(t4 & k & _ & Happ)|(e & Hm & [= ->])]; [done|].
  right. by eapply (sfold_err apply_one (λ e, ∃ y, e = AssertSupersession y)); [apply apply_one_err|].
Qed.
End diff_theorems.
