(* ===== verification/Sync.v ===== *)
(** * Federation sync ([mem-sync/src/lib.rs])

    Exporting a tenant, the authorization gate of a merge, the merge of a
    bundle's nodes, edges and supersessions into the local store, and the merkle
    root and anchor of a tenant's state. *)

From stdpp Require Import pretty.
From S2P Require Import Prelude Bytes Externs Text Belnap Identity Node Edge Grant Kv Shred Store StoreSpec.
From S2P Require Import StoreContents Supersession StoreInterface Join Assert.
Import Belnap.

Inductive SyncError :=
| SyncStore (e : StoreError)
| SyncSerde (m : string)
| SyncChainFailed (m : string)
| Denied (e : AuthzError)
| UnresolvableEndpoint (id : string)
| UntrustedIssuer
| Entropy (m : string).

Definition resource_for (repo : string) : string := "repo:" +:+ repo +:+ "/memory".

Record SyncBundle := {
  s_repo : string;
  s_exported_at_ms : Timestamp;
  s_nodes : list MemoryNode;
  s_edges : list Edge;
}.

Record MergeOutcome := {
  nodes_added : nat;
  nodes_merged : nat;
  edges_added : nat;
  edges_merged : nat;
  superseded : nat;
  rejected_supersessions : nat;
  rejected_signatures : nat;
  contradictions : nat;
}.

Definition outcome_default : MergeOutcome :=
  {| nodes_added := 0; nodes_merged := 0; edges_added := 0; edges_merged := 0; superseded := 0;
     rejected_supersessions := 0; rejected_signatures := 0; contradictions := 0 |}.

(** The outcome with counters increased, in the order of its fields *)
Definition bump (o : MergeOutcome) (na nm ea em su rs rg co : nat) : MergeOutcome :=
  {| nodes_added := nodes_added o + na; nodes_merged := nodes_merged o + nm;
     edges_added := edges_added o + ea; edges_merged := edges_merged o + em;
     superseded := superseded o + su; rejected_supersessions := rejected_supersessions o + rs;
     rejected_signatures := rejected_signatures o + rg; contradictions := contradictions o + co |}.

Definition nat_of (b : bool) : nat := if b then 1%nat else 0%nat.

Definition plane_rank (p : Plane) : Z := match p with Derived => 0 | Asserted => 1 end.
Definition method_rank (m : EdgeMethod) : Z :=
  match m with Trailer => 0 | Ingest => 1 | Nlp => 2 | Analogy => 3 | Manual => 4 end.

Definition edge_advisory_key (e : Edge) : Z * Z * Z * string * Z * string * bytes :=
  (trust_conservatism (e_trust_tier e), plane_rank (e_plane e), method_rank (p_method (e_provenance e)),
   p_asserter (e_provenance e), p_at (e_provenance e), default "" (p_evidence (e_provenance e)),
   default [] (e_signature e)).

(** The advisory group of an edge, and the edge merge *)
Definition merge_edge (local remote : Edge) : Edge :=
  let src := if ord_ltb (edge_advisory_key remote) (edge_advisory_key local) then remote else local in
  {| e_from := e_from local; e_to := e_to local; e_kind := e_kind local;
     e_plane := e_plane src; e_trust_tier := e_trust_tier src; e_provenance := e_provenance src;
     e_confidence := join_confidence (e_confidence local) (e_confidence remote);
     e_quarantined := e_quarantined local && e_quarantined remote;
     e_signature := e_signature src |}.

Section sync.
Context {T : Type} `{MemStore T, Blake3, Hex, Ed25519}.

(** ** A tenant's state *)

Definition extend_edges (t : T) (acc : list Edge) (n : MemoryNode) : result SyncError (list Edge) :=
  let? es := map_err SyncStore (ms_out_edges t (compute_id n)) in Ok (acc ++ es).

Definition tenant_state (t : T) (repo : string) : result SyncError (list MemoryNode * list Edge) :=
  let? all := map_err SyncStore (ms_all_nodes t) in
  let nodes := sort_by_key compute_id (filter (λ n, n_repo n = repo) all) in
  let? edges := rfold (extend_edges t) [] nodes in
  Ok (nodes, dedup_by_key Edge_key (sort_by_key Edge_key edges)).

Definition export_tenant (t : T) (repo : string) (now_ms : Timestamp) : result SyncError SyncBundle :=
  let? st := tenant_state t repo in
  Ok {| s_repo := repo; s_exported_at_ms := now_ms; s_nodes := st.1; s_edges := st.2 |}.

(** ** The gate *)

Definition endpoint_repo (t : T) (in_bundle : gmap ContentHash string) (endpoint : ContentHash)
    : result SyncError (option string) :=
  match in_bundle !! endpoint with
  | Some repo => Ok (Some repo)
  | None => rmap (fmap n_repo) (map_err SyncStore (ms_get_node t endpoint))
  end.

(** [iter().map(|n| (id, repo)).collect()]: the last node of an id wins *)
Definition bundle_repos (nodes : list MemoryNode) : gmap ContentHash string :=
  foldl (λ m n, <[compute_id n := n_repo n]> m) ∅ nodes.

Definition collect_endpoint (t : T) (in_bundle : gmap ContentHash string) (repos : gset string) (endpoint : ContentHash)
    : result SyncError (gset string) :=
  let? o := endpoint_repo t in_bundle endpoint in
  match o with
  | Some repo => Ok ({[repo]} ∪ repos)
  | None => Err (UnresolvableEndpoint (to_hex endpoint))
  end.

Definition collect_repos (t : T) (bundle : SyncBundle) : result SyncError (gset string) :=
  let in_bundle := bundle_repos (s_nodes bundle) in
  rfold (λ repos e, rfold (collect_endpoint t in_bundle) repos [e_from e; e_to e])
        (list_to_set (n_repo <$> s_nodes bundle)) (s_edges bundle).

(** The repos in the order of a [BTreeSet] *)
Definition repo_order (repos : gset string) : list string := sort_by_key id (elements repos).

Definition authorize_bundle (t : T) (grant : CapabilityGrant) (trust_root : bytes) (bundle : SyncBundle)
    (now_ms : Timestamp) : result SyncError unit :=
  if negb (bool_decide (g_issuer_pubkey grant = trust_root)) then Err UntrustedIssuer
  else
    let? repos := collect_repos t bundle in
    rfold (λ _ repo, map_err Denied (check grant (resource_for repo) Write now_ms)) tt (repo_order repos).

(** ** The merge *)

Definition rejected_node (remote : MemoryNode) : bool :=
  bool_decide (n_plane remote = Asserted) && negb (is_ok (verify_node remote)).
Definition rejected_edge (remote : Edge) : bool :=
  bool_decide (e_plane remote = Asserted) && negb (is_ok (verify_edge remote)).

Definition merge_one_node (out : MergeOutcome) (remote : MemoryNode) : stm T SyncError MergeOutcome :=
  if rejected_node remote then sret (bump out 0 0 0 0 0 0 1 0)
  else
    let! o := sread (λ t, map_err SyncStore (ms_get_node t (compute_id remote))) in
    match o with
    | None =>
      let! _ := smap_err SyncStore (ms_put_node remote) in
      sret (bump out 1 0 0 0 0 0 0 0)
    | Some local =>
      let '(m, changed, cs) := merge_node local remote in
      let out := bump out 0 0 0 0 0 0 0 cs in
      if changed then
        let! _ := smap_err SyncStore (ms_put_node m) in
        sret (bump out 0 1 0 0 0 0 0 0)
      else sret out
    end.

Definition find_edge (t : T) (remote : Edge) : result SyncError (option Edge) :=
  rmap (λ es, snd <$> list_find (same_edge (e_to remote) (e_kind remote)) es)
       (map_err SyncStore (ms_out_edges t (e_from remote))).

Definition merge_one_edge (out : MergeOutcome) (remote : Edge) : stm T SyncError MergeOutcome :=
  if rejected_edge remote then sret (bump out 0 0 0 0 0 0 1 0)
  else
    let! existing := sread (λ t, find_edge t remote) in
    match existing with
    | None =>
      let! _ := smap_err SyncStore (ms_add_edge remote) in
      sret (bump out 0 0 1 0 0 0 0 0)
    | Some local =>
      let m := merge_edge local remote in
      if negb (bool_decide (m = local)) then
        let! _ := smap_err SyncStore (ms_add_edge m) in
        sret (bump out 0 0 0 1 0 0 0 0)
      else sret out
    end.

Definition merge_one_supersession (out : MergeOutcome) (remote : Edge) : stm T SyncError MergeOutcome :=
  if rejected_edge remote then sret (bump out 0 0 0 0 0 0 1 0)
  else
    let! existing := sread (λ t, find_edge t remote) in
    let existed := bool_decide (is_Some existing) in
    λ t, match ms_apply_supersession remote t with
         | (t', Ok r) => (t', Ok (bump out 0 0 (nat_of (negb existed)) 0 (nat_of (transitioned r)) 0 0 0))
         | (t', Err (SupStore e)) => (t', Err (SyncStore e))
         | (t', Err _) => (t', Ok (bump out 0 0 0 0 0 1 0 0))
         end.

Definition is_supersession (e : Edge) : Prop := e_kind e = Supersedes ∧ e_quarantined e = false.
#[export] Instance is_supersession_dec e : Decision (is_supersession e).
Proof. unfold is_supersession. apply _. Defined.

Definition merge_bundle (bundle : SyncBundle) (grant : CapabilityGrant) (trust_root : bytes) (now_ms : Timestamp)
    : stm T SyncError MergeOutcome :=
  let! _ := sread (λ t, authorize_bundle t grant trust_root bundle now_ms) in
  let! out := sfold merge_one_node outcome_default (sort_by_key compute_id (s_nodes bundle)) in
  let edges := sort_by_key Edge_key (s_edges bundle) in
  let! out := sfold merge_one_edge out (filter (λ e, ¬ is_supersession e) edges) in
  sfold merge_one_supersession out (filter is_supersession edges).

Definition trusted_local_grant {R} `{Rng R} : stm R SyncError CapabilityGrant :=
  let! seed := smap_err Entropy (getrandom 32) in
  sret (sign_with
    {| g_id := "mem-sync:trusted-local-ingest"; g_issuer := "mem-sync"; g_recipient := "mem-sync:local";
       g_allowed_resources := [{| resource_id := "*"; can_read := true; can_write := true |}];
       g_policy := Maintainer; g_expires_at_ms := u64_max; g_revoked := false; g_delegation_chain := [];
       g_issuer_pubkey := []; g_signature := [] |} (sk_from_bytes seed)).

(** The random source is state of its own, beside the store. *)
Definition merge_bundle_trusted {R} `{Rng R} (bundle : SyncBundle) : stm (R * T) SyncError MergeOutcome :=
  λ '(r, t), match trusted_local_grant r with
             | (r', Err e) => ((r', t), Err e)
             | (r', Ok grant) =>
               match merge_bundle bundle grant (g_issuer_pubkey grant) 0 t with
               | (t', o) => ((r', t'), o)
               end
             end.

(** ** The merkle root *)

Definition node_leaf (n : MemoryNode) : array 32 :=
  blake3 (array_bytes (compute_id n) ++ [byte_of_Z (status_rank (n_status n))] ++ to_le_bytes 8 (default 0 (n_valid_to n))).
Definition edge_leaf (e : Edge) : array 32 :=
  blake3 (Edge_key e ++ [byte_of_Z (if e_quarantined e then 1 else 0)]).

(** [chunks(2)], each pair hashed; a last one alone is hashed alone *)
Fixpoint merkle_level (leaves : list (array 32)) : list (array 32) :=
  match leaves with
  | [] => []
  | [a] => [blake3 (array_bytes a)]
  | a :: b :: rest => blake3 (array_bytes a ++ array_bytes b) :: merkle_level rest
  end.

(** [while leaves.len() > 1] *)
Fixpoint merkle_loop (fuel : nat) (leaves : list (array 32)) : option (array 32) :=
  match leaves with
  | [] => None
  | [r] => Some r
  | _ => match fuel with O => None | Datatypes.S fuel => merkle_loop fuel (merkle_level leaves) end
  end.

Definition merkle_root (repo : string) (leaves : list (array 32)) : array 32 :=
  match leaves with
  | [] => blake3 (as_bytes repo)
  | _ => default (zero_array 32) (merkle_loop (length leaves) leaves)
  end.

Definition tenant_root (t : T) (repo : string) : result SyncError ContentHash :=
  let? st := tenant_state t repo in
  Ok (merkle_root repo ((node_leaf <$> st.1) ++ (edge_leaf <$> st.2))).

Record AnchorRecord := {
  a_repo : string;
  a_root : string;
  a_node_count : nat;
  a_edge_count : nat;
  a_anchored_at_ms : Timestamp;
  a_prev : option string;
}.

Definition anchor_key (repo : string) : bytes := as_bytes ("anchor:" +:+ repo).

Context `{Serde AnchorRecord}.

Definition latest_anchor (t : T) (repo : string) : result SyncError (option AnchorRecord) :=
  let? o := map_err SyncStore (ms_get_meta t (anchor_key repo)) in
  match o with
  | None => Ok None
  | Some b => rmap Some (map_err SyncSerde (from_slice b))
  end.

Definition anchor_tenant (repo : string) (now_ms : Timestamp) : stm T SyncError AnchorRecord :=
  let! root := sread (λ t, tenant_root t repo) in
  let! prev := sread (λ t, rmap (fmap (λ b, blake3_to_hex (blake3 b))) (map_err SyncStore (ms_get_meta t (anchor_key repo)))) in
  let! st := sread (λ t, tenant_state t repo) in
  let record := {| a_repo := repo; a_root := to_hex root; a_node_count := length st.1; a_edge_count := length st.2;
                   a_anchored_at_ms := now_ms; a_prev := prev |} in
  let! b := slift (map_err SyncSerde (to_vec record)) in
  let! _ := smap_err SyncStore (ms_put_meta repo (anchor_key repo) b) in
  sret record.

Definition verify_anchor (t : T) (repo : string) : result SyncError (option bool) :=
  let? o := latest_anchor t repo in
  match o with
  | None => Ok None
  | Some record => let? root := tenant_root t repo in Ok (Some (bool_decide (to_hex root = a_root record)))
  end.
End sync.
