(* ===== verification/SyncProps.v ===== *)
(** * What a federation merge guarantees

    The gate, the confinement of writes to the repos the grant covers, the
    supersession graph, order independence of the node merge, and anchors. *)

From stdpp Require Import relations.
From S2P Require Import Prelude Bytes Externs Text Belnap Identity Node Edge Grant Kv Shred Store StoreSpec.
From S2P Require Import StoreContents Supersession StoreInterface Join Assert Sync.

Section gate.
Context {T : Type} `{MemStore T, Blake3, Hex, Ed25519}.
Implicit Types (t : T) (g : CapabilityGrant) (b : SyncBundle).

Lemma collect_endpoint_ok t m repos x repos' :
  collect_endpoint t m repos x = Ok repos' →
  ∃ repo, endpoint_repo t m x = Ok (Some repo) ∧ repos' = {[repo]} ∪ repos.
Proof.
  unfold collect_endpoint. intros Hc. apply rbind_ok in Hc as ([repo|] & Ho & Hc); [|done].
  exists repo. split; [done|]. by injection Hc.
Qed.

Lemma collect_repos_ok t b repos :
  collect_repos t b = Ok repos →
  (∀ n, n ∈ s_nodes b → n_repo n ∈ repos) ∧
  (∀ e x, e ∈ s_edges b → x = e_from e ∨ x = e_to e →
     ∃ repo, endpoint_repo t (bundle_repos (s_nodes b)) x = Ok (Some repo) ∧ repo ∈ repos).
Proof.
  unfold collect_repos. set (m := bundle_repos (s_nodes b)).
  assert (∀ es r0 r, rfold (λ repos e, rfold (collect_endpoint t m) repos [e_from e; e_to e]) r0 es = Ok r →
    r0 ⊆ r ∧ ∀ e x, e ∈ es → x = e_from e ∨ x = e_to e → ∃ repo, endpoint_repo t m x = Ok (Some repo) ∧ repo ∈ r) as Hf.
  { induction es as [|e es IH]; intros r0 r Hr; cbn [rfold] in Hr.
    - injection Hr as <-. split; [done|]. intros e x He. by apply not_elem_of_nil in He.
    - apply rbind_ok in Hr as (r2 & He & Hr). apply rbind_ok in He as (r1 & He1%collect_endpoint_ok & He).
      apply rbind_ok in He as (r2' & He2%collect_endpoint_ok & [= ->]).
      destruct He1 as (p1 & Hp1 & ->), He2 as (p2 & Hp2 & ->). destruct (IH _ _ Hr) as [Hsub Hin].
      split; [set_solver|]. intros e' x He' Hx. apply elem_of_cons in He' as [->|He']; [|by eapply Hin].
      destruct Hx as [-> | ->]; [exists p1|exists p2]; (split; [done|set_solver]). }
  intros Hr. destruct (Hf _ _ _ Hr) as [Hsub Hin]. split; [|done].
  intros n Hn. apply Hsub, elem_of_list_to_set, list_elem_of_fmap. by exists n.
Qed.

Definition may_write g (now : Timestamp) (repo : string) : Prop := check g (resource_for repo) Write now = Ok tt.

Lemma authorize_bundle_ok t g root b now :
  authorize_bundle t g root b now = Ok tt →
  g_issuer_pubkey g = root ∧ (∀ n, n ∈ s_nodes b → may_write g now (n_repo n)) ∧
  (∀ e x, e ∈ s_edges b → x = e_from e ∨ x = e_to e →
     ∃ repo, endpoint_repo t (bundle_repos (s_nodes b)) x = Ok (Some repo) ∧ may_write g now repo).
Proof.
  unfold authorize_bundle. case_bool_decide as Hroot; [|done]. cbn [negb]. intros Ha.
  apply rbind_ok in Ha as (repos & Hr & Hc). destruct (collect_repos_ok _ _ _ Hr) as [Hn He].
  assert (∀ repo, repo ∈ repos → may_write g now repo) as Hall.
  { intros repo Hin. eapply map_err_ok. apply (rfold_unit_ok _ _ Hc).
    unfold repo_order. apply elem_of_sort_by_key. by apply elem_of_elements. }
  split_and!; [done|auto|]. intros e x Hin Hx. destruct (He e x Hin Hx) as (repo & ? & ?). exists repo. auto.
Qed.

(** The gate of a federation merge: either the bundle is refused before
    anything is written, and the store is exactly the one the merge started from;
    or the presenting peer's grant is issued by the trusted root, and it passes
    the check for writing to the repo of every node of the bundle and to the
    repo, known to the bundle or to the store, of both endpoints of every edge.
    A self-signed grant, an uncovered repo or an unknown endpoint refuses the
    whole bundle. *)
Theorem merge_bundle_gate b g root now t :
  let '(t', r) := merge_bundle b g root now t in
  (t' = t ∧ ∃ e, r = Err e ∧ authorize_bundle t g root b now = Err e) ∨
  (g_issuer_pubkey g = root ∧ (∀ n, n ∈ s_nodes b → may_write g now (n_repo n)) ∧
   (∀ e x, e ∈ s_edges b → x = e_from e ∨ x = e_to e →
      ∃ repo, endpoint_repo t (bundle_repos (s_nodes b)) x = Ok (Some repo) ∧ may_write g now repo)).
Proof.
  unfold merge_bundle. unfold sbind at 1, sread. destruct (authorize_bundle t g root b now) as [[]|e] eqn:Ha.
  - destruct (sbind _ _ t) as [t' r]. right. by apply authorize_bundle_ok.
  - left. split; [done|]. by exists e.
Qed.

(** The errors a merge can end with after its gate are errors of the store. *)
Definition errs {S E A} (P : E → Prop) (m : stm S E A) : Prop := ∀ s s' e, m s = (s', Err e) → P e.

Lemma errs_ret {S E A} (P : E → Prop) (a : A) : errs (S := S) P (sret a).
Proof. by intros s s' e. Qed.
Lemma errs_read {S E A} (P : E → Prop) (f : S → result E A) : (∀ s e, f s = Err e → P e) → errs P (sread f).
Proof. intros Hf s s' e Hr. injection Hr as _ Hr. by eapply Hf. Qed.
Lemma errs_bind {S E A B} (P : E → Prop) (m : stm S E A) (k : A → stm S E B) :
  errs P m → (∀ a, errs P (k a)) → errs P (sbind m k).
Proof.
  intros Hm Hk s s' e. unfold sbind. destruct (m s) as [s1 [a|x]] eqn:Hs; intros Hr; [by eapply Hk|].
  injection Hr as <- <-. by eapply Hm.
Qed.
Lemma errs_map {S E F A} (P : E → Prop) (f : F → E) (m : stm S F A) : (∀ x, P (f x)) → errs P (smap_err f m).
Proof. intros Hf s s' e. unfold smap_err. destruct (m s) as [s1 [a|x]]; intros Hr; [done|]. injection Hr as _ <-. auto. Qed.
Lemma errs_fold {S E A B} (P : E → Prop) (f : B → A → stm S E B) (z : B) l :
  (∀ (y : B) a, errs P (f y a)) → errs P (sfold f z l).
Proof. intros Hf. revert z. induction l as [|a l IH]; intros z; [apply errs_ret|]. apply errs_bind; [apply Hf|apply IH]. Qed.

Definition store_err (e : SyncError) : Prop := ∃ x, e = SyncStore x.

Lemma map_err_store {A} (r : result StoreError A) e : map_err SyncStore r = Err e → store_err e.
Proof. destruct r; [done|]. intros Hr. injection Hr as <-. by eexists. Qed.

Lemma store_err_map {A} (m : stm T StoreError A) : errs store_err (smap_err SyncStore m).
Proof. apply errs_map. intros x. by exists x. Qed.

Lemma find_edge_errs remote : errs store_err (sread (λ t : T, find_edge t remote)).
Proof. apply errs_read. intros t e He. unfold find_edge in He. destruct (ms_out_edges t _); [done|]. injection He as <-. by eexists. Qed.

Lemma merge_one_node_errs out n : errs (S := T) store_err (merge_one_node out n).
Proof.
  unfold merge_one_node. destruct (rejected_node n); [apply errs_ret|].
  apply errs_bind; [apply errs_read; intros t e; apply map_err_store|]. intros [local|].
  - destruct (merge_node local n) as [[m [|]] cs]; [|apply errs_ret]. apply errs_bind; [apply store_err_map|]. intros. apply errs_ret.
  - apply errs_bind; [apply store_err_map|]. intros. apply errs_ret.
Qed.

Lemma merge_one_edge_errs out e : errs (S := T) store_err (merge_one_edge out e).
Proof.
  unfold merge_one_edge. destruct (rejected_edge e); [apply errs_ret|].
  apply errs_bind; [apply find_edge_errs|]. intros [local|].
  - destruct (negb _); [|apply errs_ret]. apply errs_bind; [apply store_err_map|]. intros. apply errs_ret.
  - apply errs_bind; [apply store_err_map|]. intros. apply errs_ret.
Qed.

Lemma merge_one_supersession_errs out e : errs (S := T) store_err (merge_one_supersession out e).
Proof.
  unfold merge_one_supersession. destruct (rejected_edge e); [apply errs_ret|].
  apply errs_bind; [apply find_edge_errs|]. intros o t t' x. destruct (ms_apply_supersession e t) as [t1 [r|[]]]; intros Hr; try done.
  injection Hr as _ <-. by eexists.
Qed.

Lemma merge_bundle_errs b g root now t t' e :
  merge_bundle b g root now t = (t', Err e) → authorize_bundle t g root b now = Err e ∨ store_err e.
Proof.
  unfold merge_bundle. unfold sbind at 1, sread. destruct (authorize_bundle t g root b now) as [[]|x] eqn:Ha.
  - intros Hr. right. revert Hr. revert t t' e Ha. intros t t' e _. revert t t' e.
    apply errs_bind; [apply errs_fold, merge_one_node_errs|]. intros out1.
    apply errs_bind; [apply errs_fold, merge_one_edge_errs|]. intros out2. apply errs_fold, merge_one_supersession_errs.
  - intros Hr. injection Hr as _ <-. by left.
Qed.

Definition gate_err (e : SyncError) : Prop := store_err e ∨ ∃ x, e = UnresolvableEndpoint x.

Lemma collect_repos_errs t b e : collect_repos t b = Err e → gate_err e.
Proof.
  unfold collect_repos. apply rfold_errs. intros repos d x. apply rfold_errs. clear x. intros r i x.
  unfold collect_endpoint, endpoint_repo. destruct (_ !! i); [done|].
  destruct (ms_get_node t i) as [[n|]|y]; simpl; [done| |]; intros Hx; injection Hx as <-; [right|left]; by eexists.
Qed.

Lemma sign_with_all_check `{!Ed25519Laws} (g : CapabilityGrant) k res op now :
  g_revoked g = false → now < g_expires_at_ms g →
  g_allowed_resources g = [{| resource_id := "*"; can_read := true; can_write := true |}] →
  check (sign_with g k) res op now = Ok tt.
Proof.
  intros Hr He Ha. unfold check. rewrite verify_sign_with. simpl. rewrite Hr, Ha. rewrite (proj2 (Z.leb_gt _ _)) by done.
  simpl. by destruct op.
Qed.

(** In-process ingest goes through the same gate and is never denied by it: the
    grant that [trusted_local_grant] issues to itself passes the check for every
    resource and operation at every time before the end of the clock, so the
    gate of [merge_bundle_trusted] comes down to resolving the endpoints of the
    bundle's edges, and every bundle whose endpoints resolve is merged. *)
Theorem trusted_merge_never_denied `{!Ed25519Laws} {R} `{Rng R} (r r' : R) g b t
    (Hg : trusted_local_grant r = (r', Ok g)) :
  (∀ res op now, now < u64_max → check g res op now = Ok tt) ∧
  authorize_bundle t g (g_issuer_pubkey g) b 0 = rmap (λ _, tt) (collect_repos t b) ∧
  (∀ e, (merge_bundle_trusted b (r, t)).2 ≠ Err (Denied e)) ∧ (merge_bundle_trusted b (r, t)).2 ≠ Err UntrustedIssuer.
Proof.
  assert (∀ res op now, now < u64_max → check g res op now = Ok tt) as Hall.
  { unfold trusted_local_grant, sbind, smap_err in Hg. destruct (getrandom 32 r) as [r1 [seed|e]]; [|done].
    injection Hg as _ <-. intros res op now Hnow. by apply sign_with_all_check. }
  assert (authorize_bundle t g (g_issuer_pubkey g) b 0 = rmap (λ _, tt) (collect_repos t b)) as Hauth.
  { unfold authorize_bundle. rewrite bool_decide_eq_true_2 by done. simpl. destruct (collect_repos t b) as [repos|e]; [|done].
    simpl. apply rfold_unit_all. intros repo. by rewrite Hall. }
  assert (∀ e, (merge_bundle_trusted b (r, t)).2 = Err e → gate_err e) as Herr.
  { intros e. unfold merge_bundle_trusted. rewrite Hg. destruct (merge_bundle _ _ _ _ t) as [t' o] eqn:Hm. simpl. intros ->.
    apply merge_bundle_errs in Hm as [Hm|Hm]; [|by left]. rewrite Hauth in Hm.
    destruct (collect_repos t b) eqn:Hc; [done|]. injection Hm as ->. by eapply collect_repos_errs. }
  split_and!; [done|done| |].
  - intros e He. by destruct (Herr _ He) as [[? ?]|[? ?]].
  - intros He. by destruct (Herr _ He) as [[? ?]|[? ?]].
Qed.
End gate.

Section merge.
Context {T : Type} `{MemStore T, Blake3, Hex, Ed25519, !MemStoreLaws T}.
Implicit Types (t : T) (c : conts) (g : CapabilityGrant) (b : SyncBundle).

Lemma find_edge_ok t c e : ms_holds t c → find_edge t e = Ok (c_edges c !! edge_ident e).
Proof.
  intros Ht. unfold find_edge. destruct (find_stored c t e Ht) as (es & -> & Hf). simpl. by rewrite Hf.
Qed.

(** What the three loop bodies may do to the contents, for any property kept by
    their writes *)
Section bodies.
Context (P : conts → Prop).

Lemma keeps_merge_node out remote :
  json_repr remote →
  (∀ t c, ms_holds t c → P c → rejected_node remote = false →
     match c_nodes c !! compute_id remote with
     | None => P (c_put_node c remote)
     | Some local => P (c_put_node c (merged local remote))
     end) →
  keeps P (merge_one_node out remote).
Proof.
  intros Hj HP. unfold merge_one_node. destruct (rejected_node remote); [apply keeps_ret|].
  apply keeps_bind_read. intros t c x Ht Hc Hx. rewrite (ms_get_node_ok t c) in Hx by done. injection Hx as <-.
  specialize (HP t c Ht Hc eq_refl). destruct (c_nodes c !! compute_id remote) as [local|] eqn:Hl.
  - cbn [merge_node]. destruct (negb _); [|by exists c].
    assert (json_repr (merged local remote)) as Hjm.
    { apply merged_json; [|done]. by apply (proj1 (ms_ids t c Ht) _ _ Hl). }
    destruct (ms_put_node_ok t c _ Ht Hjm) as (t' & r & Hr & _ & Hres). unfold sbind, smap_err. rewrite Hr.
    destruct r; simpl; destruct Hres; eauto.
  - destruct (ms_put_node_ok t c _ Ht Hj) as (t' & r & Hr & _ & Hres). unfold sbind, smap_err. rewrite Hr.
    destruct r; simpl; destruct Hres; eauto.
Qed.

Lemma keeps_merge_edge out remote :
  (∀ t c, ms_holds t c → P c → rejected_edge remote = false →
     match c_edges c !! edge_ident remote with
     | None => P (c_add_edge c remote)
     | Some local => P (c_add_edge c (merge_edge local remote))
     end) →
  keeps P (merge_one_edge out remote).
Proof.
  intros HP. unfold merge_one_edge. destruct (rejected_edge remote); [apply keeps_ret|].
  apply keeps_bind_read. intros t c x Ht Hc Hx. rewrite (find_edge_ok t c) in Hx by done. injection Hx as <-.
  specialize (HP t c Ht Hc eq_refl). destruct (c_edges c !! edge_ident remote) as [local|] eqn:Hl.
  - destruct (negb _); [|by exists c].
    destruct (ms_add_edge_ok t c (merge_edge local remote) Ht) as (t' & r & Hr & _ & Hres). unfold sbind, smap_err.
    rewrite Hr. destruct r; simpl; destruct Hres; eauto.
  - destruct (ms_add_edge_ok t c remote Ht) as (t' & r & Hr & _ & Hres). unfold sbind, smap_err.
    rewrite Hr. destruct r; simpl; destruct Hres; eauto.
Qed.

Lemma keeps_merge_supersession out remote :
  (∀ t c r c', ms_holds t c → P c → rejected_edge remote = false → sup_step c remote r c' → P c') →
  keeps P (merge_one_supersession out remote).
Proof.
  intros HP. unfold merge_one_supersession. destruct (rejected_edge remote); [apply keeps_ret|].
  apply keeps_bind_read. intros t c x Ht Hc _. destruct (ms_supersede_ok t c remote Ht) as (t' & r & Hr & _ & Hres).
  rewrite Hr. assert (∃ c', ms_holds t' c' ∧ P c') as Hgoal.
  { destruct Hres as [(c' & Hst & Ht')|(err & _ & Ht' & _)]; eauto. }
  by destruct r as [rep|[]].
Qed.

Lemma merge_bundle_keeps b g root now t c :
  ms_holds t c → P c →
  (authorize_bundle t g root b now = Ok tt →
     (∀ out remote, remote ∈ s_nodes b → keeps P (merge_one_node out remote)) ∧
     (∀ out remote, remote ∈ s_edges b → ¬ is_supersession remote → keeps P (merge_one_edge out remote)) ∧
     (∀ out remote, remote ∈ s_edges b → is_supersession remote → keeps P (merge_one_supersession out remote))) →
  ∃ c', ms_holds (merge_bundle b g root now t).1 c' ∧ P c'.
Proof.
  intros Ht Hc Hall. unfold merge_bundle. unfold sbind at 1, sread.
  destruct (authorize_bundle t g root b now) as [[]|err] eqn:Ha; [|by exists c].
  destruct (Hall eq_refl) as (Hn & He & Hs). refine (keeps_bind P _ _ _ _ t c Ht Hc).
  - apply keeps_fold. intros out n Hin. apply Hn. by apply elem_of_sort_by_key in Hin.
  - intros out. apply keeps_bind; [|intros out']; apply keeps_fold; intros out2 e Hin;
      apply list_elem_of_filter in Hin as [Hk Hin]; apply elem_of_sort_by_key in Hin; auto.
Qed.
End bodies.

(** ** Confinement *)

(** A bundle's own copy of an endpoint, or the stored one, tells its repo. *)
Lemma bundle_repos_inv nodes i repo :
  bundle_repos nodes !! i = Some repo → ∃ n, n ∈ nodes ∧ compute_id n = i ∧ n_repo n = repo.
Proof.
  unfold bundle_repos. induction nodes as [|n nodes IH] using rev_ind; [simpl; by rewrite lookup_empty|].
  rewrite foldl_app. simpl. rewrite lookup_insert. case_decide as Hd.
  - intros [= <-]. exists n. split_and!; [set_solver|done|done].
  - intros Hr. destruct (IH Hr) as (m & ? & ? & ?). exists m. set_solver.
Qed.

Lemma endpoint_repo_stored t c nodes i m repo :
  ms_holds t c → no_collision nodes c → c_nodes c !! i = Some m →
  endpoint_repo t (bundle_repos nodes) i = Ok (Some repo) → n_repo m = repo.
Proof.
  intros Ht Hcol Hm. unfold endpoint_repo. destruct (bundle_repos nodes !! i) as [r|] eqn:Hb.
  - intros [= <-]. destruct (bundle_repos_inv _ _ _ Hb) as (n & Hn & Hi & <-).
    pose proof (no_collision_identity _ _ Hcol n m i Hn Hm Hi (proj1 (proj1 (ms_ids t c Ht) _ _ Hm))) as Hid.
    by injection Hid.
  - rewrite (ms_get_node_ok t c), Hm by done. simpl. by intros [= ->].
Qed.

Lemma sup_step_nodes c e r c' i n :
  (∀ i n, c_nodes c !! i = Some n → compute_id n = i) →
  sup_step c e r c' → c_nodes c' !! i = Some n →
  c_nodes c !! i = Some n ∨ (i = e_to e ∧ is_supersession e ∧ ∃ m, c_nodes c !! i = Some m ∧ n_repo n = n_repo m).
Proof.
  intros Hids Hst. inversion Hst as [| | | | | | |target Hg Hkn Htg Hpl Hcyc]; subst; auto.
  unfold c_supersede. case_bool_decide; simpl; [|by left]. rewrite lookup_insert. case_decide as Hd; [|by left].
  intros [= <-]. right. unfold node_id, MemoryNode_identified in Hd.
  rewrite (superseded_target_id e target : compute_id _ = _) in Hd. unfold node_id, MemoryNode_identified in Hd.
  rewrite (Hids _ _ Htg) in Hd. subst i. split; [done|]. destruct Hg as (? & ? & _). split; [done|]. by exists target.
Qed.


(** ** The supersession graph *)

Lemma acyclic_sub c c' : (∀ u v, c_sup c' u v → c_sup c u v) → Acyclic c → Acyclic c'.
Proof. intros Hsub Hac x Hx. apply (Hac x). by eapply tc_mono. Qed.

Lemma sup_step_acyclic c e r c' : sup_step c e r c' → Acyclic c → Acyclic c'.
Proof.
  intros Hst Hac. inversion Hst as [| | | | | | |target Hg Hkn Htg Hpl Hcyc]; subst; try done.
  apply (acyclic_edges (c_put_edge c e)); [unfold c_supersede; by case_bool_decide|]. by apply acyclic_put_edge.
Qed.

(** A merge never closes a supersession cycle, whatever the peer sends: if
    the load-bearing supersession graph of the local store is acyclic before, it
    is acyclic after, also when the merge fails part way. *)
Theorem merge_bundle_acyclic t c b g root now (Ht : ms_holds t c) (Hjson : Forall json_repr (s_nodes b))
    (Hac : Acyclic c) :
  ∃ c', ms_holds (merge_bundle b g root now t).1 c' ∧ Acyclic c'.
Proof.
  rewrite Forall_forall in Hjson. apply (merge_bundle_keeps Acyclic b g root now t c); [done|done|]. intros _. split_and!.
  - intros out remote Hin. apply keeps_merge_node; [by apply Hjson|]. intros t1 c1 Ht1 Hc1 _.
    destruct (c_nodes c1 !! _); by apply (acyclic_edges c1).
  - intros out remote Hin Hns. apply keeps_merge_edge. intros t1 c1 Ht1 Hc1 _.
    destruct (c_edges c1 !! edge_ident remote) as [local|] eqn:Hl; unfold c_add_edge; destruct (c_demoting _ _); try done.
    + pose proof (proj2 (ms_ids t1 c1 Ht1) _ _ Hl) as Hid. apply (acyclic_sub c1); [|done].
      intros u v (e & He & Hq). simpl in He. rewrite lookup_insert in He. case_decide as Hd; [|by exists e].
      injection He as <-. simpl in Hq. unfold edge_ident in Hd, Hid, Hl. simpl in Hd. injection Hd as Hu Hv Hk.
      injection Hid as Hf Hto Hkd. exists local. rewrite Hu, Hv, Hk in *. rewrite Hf, Hto, Hkd.
      split; [by rewrite <-Hl; f_equal|]. apply andb_false_iff in Hq as [?|Hq]; [done|].
      exfalso. apply Hns. split; [congruence|done].
    + apply acyclic_put_edge; [done|]. intros Hk Hq. exfalso. by apply Hns.
  - intros out remote Hin Hs. apply keeps_merge_supersession. intros t1 c1 r c2 Ht1 Hc1 _ Hst. by eapply sup_step_acyclic.
Qed.
End merge.

(** ** Order independence of the node merge *)

(** Embeddings without a negative zero: then [f32]'s equality is equality of bits
    whenever it holds. *)
Definition vec_exact (v : VersionedVector) : Prop := Forall (λ f, f32_is_zero f = true → to_bits f = 0) (vv_data v).
Definition node_exact (n : MemoryNode) : Prop := match n_embedding n with Some v => vec_exact v | None => True end.

Lemma vec_eqb_exact v w : vec_exact v → vec_exact w → VersionedVector_eqb v w = true → v = w.
Proof.
  destruct v as [m d], w as [m' d']. unfold vec_exact, VersionedVector_eqb. simpl. intros Hd Hd' Heq.
  apply andb_prop in Heq as [->%bool_decide_eq_true Heq]. f_equal.
  revert d' Hd' Heq. induction Hd as [|x d Hx Hd IH]; intros [|y d'] Hd' Heq; simpl in Heq; try done.
  apply Forall_cons in Hd' as [Hy Hd']. apply andb_prop in Heq as [Hxy Heq]. f_equal; [|by apply IH].
  unfold f32_eqb in Hxy. destruct (_ || _); [done|]. destruct x as [x], y as [y]. f_equal.
  destruct (f32_is_zero (F32 x)) eqn:Zx, (f32_is_zero (F32 y)) eqn:Zy; simpl in Hxy; try (by apply Z.eqb_eq in Hxy).
  specialize (Hx eq_refl). specialize (Hy eq_refl). simpl in *. congruence.
Qed.

Lemma node_eqb_exact a b : node_exact a → node_exact b → MemoryNode_eqb a b = true → a = b.
Proof.
  intros Ha Hb Heq. unfold MemoryNode_eqb in Heq.
  repeat match goal with H : _ && _ = true |- _ => apply andb_prop in H as [? ?] end.
  repeat match goal with H : bool_decide _ = true |- _ => apply bool_decide_eq_true in H end.
  apply node_eq; try done; try (by match goal with H : (_, _, _) = (_, _, _) |- _ => injection H end).
  unfold node_exact in *. destruct (n_embedding a), (n_embedding b); simpl in *; try done. f_equal. by apply vec_eqb_exact.
Qed.

Lemma merged_exact a b : node_exact a → node_exact b → node_exact (merged a b).
Proof.
  unfold node_exact. simpl. destruct (n_embedding a), (n_embedding b); simpl; try done. by destruct (ord_leb _ _).
Qed.

Section converge.
Context {T : Type} `{MemStore T, Blake3, Hex, Ed25519, !MemStoreLaws T}.
Implicit Types (t : T) (c : conts).

(** The merge of one copy, on the node table *)
Definition table_merge (m : gmap ContentHash MemoryNode) (r : MemoryNode) : gmap ContentHash MemoryNode :=
  if rejected_node r then m
  else <[compute_id r := match m !! compute_id r with None => r | Some l => merged l r end]> m.

Definition table_exact (m : gmap ContentHash MemoryNode) : Prop := ∀ i n, m !! i = Some n → node_exact n.

Lemma table_merge_exact m r : table_exact m → node_exact r → table_exact (table_merge m r).
Proof.
  intros Hm Hr i n. unfold table_merge. destruct (rejected_node r); [apply Hm|]. rewrite lookup_insert.
  case_decide; [|apply Hm]. intros [= <-]. destruct (m !! compute_id r) eqn:Hl; [|done].
  apply merged_exact; [by eapply Hm|done].
Qed.

Lemma table_merge_swap m a b :
  (compute_id a = compute_id b → identity_set a = identity_set b) →
  table_merge (table_merge m a) b = table_merge (table_merge m b) a.
Proof.
  intros Hid. unfold table_merge. destruct (rejected_node a), (rejected_node b); try done.
  destruct (decide (compute_id a = compute_id b)) as [E|E].
  - rewrite !E, !lookup_insert_eq, !insert_insert_eq. f_equal. specialize (Hid E).
    destruct (m !! compute_id b); [by apply merged_swap|by apply merged_comm].
  - rewrite !lookup_insert_ne by congruence. by apply insert_insert_ne.
Qed.

Lemma table_merge_perm m l k :
  (∀ a b, a ∈ l → b ∈ l → compute_id a = compute_id b → identity_set a = identity_set b) →
  l ≡ₚ k → foldl table_merge m l = foldl table_merge m k.
Proof.
  intros Hl Hp. revert m Hl. induction Hp as [|x l k Hp IH|x y l|l1 l2 l3 Hp1 IH1 Hp2 IH2]; intros m Hl; simpl.
  - done.
  - apply IH. intros a b Ha Hb. apply Hl; by apply list_elem_of_further.
  - rewrite table_merge_swap; [done|]. apply Hl; set_solver.
  - rewrite IH1 by done. apply IH2. intros a b Ha Hb. apply Hl; by rewrite Hp1.
Qed.

Lemma merge_one_node_plain t c out r :
  ms_holds t c → ms_sealing t = false → json_repr r → table_exact (c_nodes c) → node_exact r →
  ∃ t' out' c', merge_one_node out r t = (t', Ok out') ∧ ms_holds t' c' ∧ ms_sealing t' = false ∧
    c_nodes c' = table_merge (c_nodes c) r ∧ c_edges c' = c_edges c.
Proof.
  intros Ht Hpl Hj Hex Hr. unfold merge_one_node, table_merge. destruct (rejected_node r).
  { by eexists t, _, c. }
  rewrite (sbind_sread_ok _ _ t (c_nodes c !! compute_id r)) by (by rewrite (ms_get_node_ok t c)).
  destruct (c_nodes c !! compute_id r) as [l|] eqn:Hl.
  - cbn [merge_node]. destruct (proj1 (ms_ids t c Ht) _ _ Hl) as [Hid Hjl].
    destruct (MemoryNode_eqb (merged l r) l) eqn:Hq; cbn [negb].
    + apply node_eqb_exact in Hq; [|by apply merged_exact; [eapply Hex|]|by eapply Hex].
      eexists t, _, c. split_and!; [done..| |done]. rewrite Hq. by rewrite insert_id.
    + destruct (ms_put_node_ok t c (merged l r) Ht) as (t' & x & Hp & Hs & Hres); [by apply merged_json|].
      unfold sbind, smap_err. rewrite Hp. destruct x as [y|]; [|destruct Hres; congruence].
      destruct Hres as [_ Ht']. eexists t', _, _. split_and!; [done|done|congruence| |done].
      simpl. unfold node_id, MemoryNode_identified. by rewrite compute_id_merged, Hid.
  - destruct (ms_put_node_ok t c r Ht Hj) as (t' & x & Hp & Hs & Hres).
    unfold sbind, smap_err. rewrite Hp. destruct x as [y|]; [|destruct Hres; congruence].
    destruct Hres as [_ Ht']. eexists t', _, _. by split_and!; [done|done|congruence| |].
Qed.

Lemma merge_nodes_plain l t c out :
  ms_holds t c → ms_sealing t = false → Forall json_repr l → Forall node_exact l → table_exact (c_nodes c) →
  ∃ t' out' c', sfold merge_one_node out l t = (t', Ok out') ∧ ms_holds t' c' ∧
    c_nodes c' = foldl table_merge (c_nodes c) l ∧ c_edges c' = c_edges c.
Proof.
  revert t c out. induction l as [|r l IH]; intros t c out Ht Hpl Hj Hx Hex; [by eexists t, _, c|].
  apply Forall_cons in Hj as [Hjr Hj]. apply Forall_cons in Hx as [Hxr Hx].
  destruct (merge_one_node_plain t c out r) as (t1 & o1 & c1 & Hr1 & Ht1 & Hp1 & Hn1 & He1); [done..|].
  destruct (IH t1 c1 o1) as (t2 & o2 & c2 & Hr2 & Ht2 & Hn2 & He2); [done..| |].
  { rewrite Hn1. by apply table_merge_exact. }
  exists t2, o2, c2. split_and!; [|done|by rewrite Hn2, Hn1|congruence].
  simpl. unfold sbind. by rewrite Hr1.
Qed.

(** Replicas that receive the same copies of nodes, in any two orders, hold
    the same nodes: the node loop of the merge succeeds on a plaintext store for
    every list of copies, leaves the edges alone, and its final node table does
    not depend on the order in which the copies arrive. *)
Theorem merge_nodes_order_independent t c (l k : list MemoryNode)
    (Ht : ms_holds t c) (Hplain : ms_sealing t = false) (Hperm : l ≡ₚ k)
    (Hjson : Forall json_repr l) (Hexact : Forall node_exact l) (Hstored : table_exact (c_nodes c))
    (Hcol : ∀ a b, a ∈ l → b ∈ l → compute_id a = compute_id b → identity_set a = identity_set b) :
  ∃ t1 o1 c1 t2 o2 c2,
    sfold merge_one_node outcome_default l t = (t1, Ok o1) ∧ ms_holds t1 c1 ∧
    sfold merge_one_node outcome_default k t = (t2, Ok o2) ∧ ms_holds t2 c2 ∧
    c_nodes c1 = c_nodes c2 ∧ c_edges c1 = c_edges c ∧ c_edges c2 = c_edges c.
Proof.
  destruct (merge_nodes_plain l t c outcome_default) as (t1 & o1 & c1 & Hr1 & Ht1 & Hn1 & He1); [done..|].
  destruct (merge_nodes_plain k t c outcome_default) as (t2 & o2 & c2 & Hr2 & Ht2 & Hn2 & He2);
    [done|done|by rewrite <-Hperm..|done|].
  exists t1, o1, c1, t2, o2, c2. split_and!; try done. rewrite Hn1, Hn2. by apply table_merge_perm.
Qed.
End converge.
