(* ===== verification/SyncAnchor.v ===== *)
(** * Merkle roots, anchors and the edge merge

    A tenant's root is a function of its readable state, commits to it, and an
    anchor verifies until the state changes; the merge of one edge, and where the
    merge of supersession edges differs from it. *)

From S2P Require Import Prelude Bytes Externs Text Belnap Identity Node Edge Grant Kv Shred Store StoreSpec.
From S2P Require Import StoreContents Supersession StoreInterface Join Assert Sync SyncProps.
Import Belnap.

(** Sorting by a key that no two elements share depends only on the elements. *)
Lemma sort_by_key_unique {A K} `{RustOrdLaws K} (key : A → K) (l k : list A) :
  l ≡ₚ k → NoDup (key <$> l) → sort_by_key key l = sort_by_key key k.
Proof.
  intros Hp Hnd. apply (StronglySorted_unique_strong (key_le key)).
  - intros x y Hx Hy Hxy Hyx. apply (proj1 (elem_of_sort_by_key key x l)) in Hx.
    apply (proj1 (elem_of_sort_by_key key y k)) in Hy. rewrite <-Hp in Hy.
    assert (key x = key y) as Hk by (by apply ord_leb_antisym).
    apply list_elem_of_lookup in Hx as [i Hi], Hy as [j Hj].
    assert (i = j) as ->; [|congruence].
    eapply NoDup_lookup; [done|rewrite list_lookup_fmap, Hi; done|rewrite list_lookup_fmap, Hj; simpl; by rewrite Hk].
  - apply sort_by_key_sorted.
  - apply sort_by_key_sorted.
  - by rewrite !sort_by_key_perm.
Qed.

Section state.
Context {T : Type} `{MemStore T, Blake3, Hex, Ed25519, !MemStoreLaws T}.

Lemma extend_edges_fold (t : T) c ns acc :
  ms_holds t c → NoDup (compute_id <$> ns) → NoDup (edge_ident <$> acc) →
  (∀ e, e ∈ acc → c_edges c !! edge_ident e = Some e ∧ e_from e ∉ (compute_id <$> ns)) →
  ∃ es, rfold (extend_edges t) acc ns = Ok es ∧ NoDup (edge_ident <$> es) ∧
    ∀ e, e ∈ es ↔ e ∈ acc ∨ (c_edges c !! edge_ident e = Some e ∧ e_from e ∈ (compute_id <$> ns)).
Proof.
  intros Ht. revert acc. induction ns as [|n ns IH]; intros acc Hnd Hacc Hin; simpl.
  { exists acc. split_and!; [done|done|]. intros e. rewrite elem_of_nil. tauto. }
  apply NoDup_cons in Hnd as [Hn Hnd].
  destruct (ms_out_edges_ok t c (compute_id n) Ht) as (es & Hes & Hnde & Hine).
  unfold extend_edges at 1. rewrite Hes. cbn [map_err rbind].
  destruct (IH (acc ++ es)) as (out & Hout & Hndo & Hino); [done|..].
  - rewrite fmap_app. apply NoDup_app. split_and!; [done| |done].
    intros i Hi Hi'. apply list_elem_of_fmap in Hi as (x & -> & Hx), Hi' as (y & Hxy & Hy).
    apply Hin in Hx as [_ Hx]. apply Hine in Hy as [_ Hy]. injection Hxy as Hf _ _.
    apply Hx. rewrite Hf, Hy. apply list_elem_of_here.
  - intros e [He|He]%elem_of_app; [|apply Hine in He as [? ->]; done].
    apply Hin in He as [? Hx]. split; [done|]. intros Hx'. apply Hx. by apply list_elem_of_further.
  - exists out. split_and!; [done|done|]. intros e. rewrite Hino, elem_of_app, Hine. cbn [fmap list_fmap].
    rewrite elem_of_cons. tauto.
Qed.

Lemma tenant_state_spec (t : T) c repo :
  ms_holds t c →
  ∃ ns es, tenant_state t repo = Ok (sort_by_key compute_id ns, dedup_by_key Edge_key (sort_by_key Edge_key es)) ∧
    NoDup (compute_id <$> ns) ∧ (∀ n, n ∈ ns ↔ c_nodes c !! compute_id n = Some n ∧ n_repo n = repo) ∧
    NoDup (edge_ident <$> es) ∧
    (∀ e, e ∈ es ↔ c_edges c !! edge_ident e = Some e ∧ ∃ n, c_nodes c !! e_from e = Some n ∧ n_repo n = repo).
Proof.
  intros Ht. unfold tenant_state. destruct (ms_all_nodes_ok t c Ht) as (all & -> & Hnd & _ & Hall). cbn [map_err rbind].
  set (ns := filter (λ n, n_repo n = repo) all).
  assert (NoDup (compute_id <$> ns)) as Hndn by (eapply sublist_NoDup; [exact Hnd|apply fmap_sublist, sublist_filter]).
  assert (∀ n, n ∈ ns ↔ c_nodes c !! compute_id n = Some n ∧ n_repo n = repo) as Hns.
  { intros n. unfold ns. rewrite list_elem_of_filter, Hall. tauto. }
  destruct (extend_edges_fold t c (sort_by_key compute_id ns) []) as (es & Hes & Hnde & Hine).
  - done.
  - by rewrite sort_by_key_perm.
  - constructor.
  - intros e He. by apply not_elem_of_nil in He.
  - exists ns, es. rewrite Hes. split_and!; [done..|]. intros e. rewrite Hine, elem_of_nil, list_elem_of_fmap. split.
    + intros [?|(He & n & Hf & Hn)]; [done|]. apply elem_of_sort_by_key, Hns in Hn as [Hn Hr].
      split; [done|]. exists n. by rewrite Hf.
    + intros (He & n & Hn & Hr). right. split; [done|]. pose proof (proj1 (proj1 (ms_ids t c Ht) _ _ Hn)) as Hid.
      exists n. split; [done|]. apply elem_of_sort_by_key, Hns. by rewrite Hid.
Qed.
End state.

(** The state, and so the root, is a function of the readable nodes and edges. *)
Lemma tenant_state_determined {T T'} `{MemStore T, MemStore T', Blake3, Hex, Ed25519, !MemStoreLaws T, !MemStoreLaws T'}
    (t : T) (t' : T') c c' repo :
  ms_holds t c → ms_holds t' c' → c_nodes c = c_nodes c' → c_edges c = c_edges c' →
  tenant_state t repo = tenant_state t' repo.
Proof.
  intros Ht Ht' Hn He.
  destruct (tenant_state_spec t c repo Ht) as (ns & es & -> & Hnd & Hns & Hnde & Hes).
  destruct (tenant_state_spec t' c' repo Ht') as (ns' & es' & -> & Hnd' & Hns' & Hnde' & Hes').
  assert (∀ (l k : list Edge), l ≡ₚ k → NoDup (edge_ident <$> l) → sort_by_key Edge_key l = sort_by_key Edge_key k) as Hse.
  { intros l k Hp Hl. apply sort_by_key_unique; [done|].
    assert (Edge_key <$> l = ident_key <$> (edge_ident <$> l)) as -> by (by rewrite <-list_fmap_compose).
    apply NoDup_fmap_2; [|done]. intros i j. apply ident_key_inj. }
  rewrite (sort_by_key_unique compute_id ns ns'), (Hse es es'); [done|..]; try done.
  - apply NoDup_Permutation; [by eapply NoDup_fmap_1..|]. intros e. rewrite Hes, Hes', He, Hn. done.
  - apply NoDup_Permutation; [by eapply NoDup_fmap_1..|]. intros n. by rewrite Hns, Hns', Hn.
Qed.

(** ** The merkle tree *)

Section merkle.
Context `{Blake3}.

(** The byte strings hashed at one level, and at all levels *)
Fixpoint level_pre (leaves : list (array 32)) : list bytes :=
  match leaves with
  | [] => []
  | [a] => [array_bytes a]
  | a :: b :: rest => (array_bytes a ++ array_bytes b) :: level_pre rest
  end.
Fixpoint tree_pre (fuel : nat) (leaves : list (array 32)) : list bytes :=
  match leaves with
  | [] | [_] => []
  | _ => match fuel with O => [] | S fuel => level_pre leaves ++ tree_pre fuel (merkle_level leaves) end
  end.

(** A string of each list that differ and hash alike *)
Definition collide (xs ys : list bytes) : Prop := ∃ x y, x ∈ xs ∧ y ∈ ys ∧ x ≠ y ∧ blake3 x = blake3 y.

Lemma collide_mono xs ys xs' ys' : xs ⊆ xs' → ys ⊆ ys' → collide xs ys → collide xs' ys'.
Proof. intros Hx Hy (x & y & ? & ? & ?). exists x, y. split_and!; [by apply Hx|by apply Hy|by destruct_and?..]. Qed.

Lemma list_pair_ind {A} (P : list A → Prop) :
  P [] → (∀ a, P [a]) → (∀ a b l, P l → P (a :: b :: l)) → ∀ l, P l.
Proof.
  intros P0 P1 P2 l. assert (P l ∧ ∀ a, P (a :: l)) as [? _]; [|done].
  induction l as [|b l [IH1 IH2]]; [by split|]. split; [done|]. auto.
Qed.

Lemma merkle_level_pre ls : merkle_level ls = blake3 <$> level_pre ls.
Proof. induction ls as [| |a b l IH] using list_pair_ind; simpl; [done..|]. by rewrite IH. Qed.

Lemma length_merkle_level ls : (2 ≤ length ls → length (merkle_level ls) < length ls ∧ merkle_level ls ≠ [])%nat.
Proof.
  assert (∀ ls, (length (merkle_level ls) ≤ length ls)%nat) as Hle.
  { clear. intros ls. induction ls as [| |a b l IH] using list_pair_ind; simpl; lia. }
  destruct ls as [|a [|b ls]]; simpl; [lia..|]. specialize (Hle ls). intros _. split; [lia|done].
Qed.

Lemma merkle_loop_total fuel ls : ls ≠ [] → (length ls ≤ S fuel)%nat → ∃ r, merkle_loop fuel ls = Some r.
Proof.
  revert ls. induction fuel as [|fuel IH]; intros [|a [|b ls]] Hne Hl; simpl in *; try done; try lia; eauto.
  destruct (length_merkle_level (a :: b :: ls)) as [Hlt _]; [simpl; lia|]. simpl in Hlt. apply IH; [done|]. simpl. lia.
Qed.

Lemma level_pre_inj ls ks : length ls = length ks → level_pre ls = level_pre ks → ls = ks.
Proof.
  revert ks. induction ls as [|a|a b l IH] using list_pair_ind; intros [|c [|d k]] Hl Heq; simpl in *; try done.
  - injection Heq as Heq. apply array_eq in Heq. by subst.
  - injection Heq as Hab Hrest. apply app_inj_1 in Hab as [Ha%array_eq Hb%array_eq]; [|by rewrite !length_array].
    subst. f_equal. f_equal. apply IH; [lia|done].
Qed.

Lemma fmap_blake3_inj xs ys : blake3 <$> xs = blake3 <$> ys → xs = ys ∨ collide xs ys.
Proof.
  revert ys. induction xs as [|x xs IH]; intros [|y ys] Heq; simpl in Heq; try done; [by left|].
  injection Heq as Hxy Heq. destruct (decide (x = y)) as [->|Hne].
  - destruct (IH ys Heq) as [->|Hc]; [by left|]. right. eapply collide_mono; [| |exact Hc]; set_solver.
  - right. exists x, y. split_and!; [apply list_elem_of_here..|done|done].
Qed.

Lemma merkle_loop_binds fuel ls ks :
  length ls = length ks → (length ls ≤ S fuel)%nat → merkle_loop fuel ls = merkle_loop fuel ks →
  ls = ks ∨ collide (tree_pre fuel ls) (tree_pre fuel ks).
Proof.
  revert ls ks. induction fuel as [|fuel IH]; intros [|a [|b ls]] [|c [|d ks]] Hlen Hl Heq; simpl in Hlen, Hl; try lia.
  1,3: by left.
  1,2: simpl in Heq; left; congruence.
  destruct (length_merkle_level (a :: b :: ls)) as [Hlt _]; [simpl; lia|].
  set (xs := a :: b :: ls) in *. set (ys := c :: d :: ks) in *.
  assert (length xs = length ys) as Hxy by (simpl; lia).
  assert (length (level_pre xs) = length (level_pre ys)) as Hlp.
  { assert (∀ l k : list (array 32), length l = length k → length (level_pre l) = length (level_pre k)) as Hg; [|by apply Hg].
    clear. intros l. induction l as [|a|a b l IH] using list_pair_ind; intros [|c [|d k]] Hl; simpl in *; try done.
    f_equal. apply IH. lia. }
  change (tree_pre (S fuel) xs) with (level_pre xs ++ tree_pre fuel (merkle_level xs)).
  change (tree_pre (S fuel) ys) with (level_pre ys ++ tree_pre fuel (merkle_level ys)).
  destruct (IH (merkle_level xs) (merkle_level ys)) as [Hm|Hc].
  - by rewrite !merkle_level_pre, !length_fmap.
  - assert (length xs = S (S (length ls))) by done. lia.
  - exact Heq.
  - rewrite !merkle_level_pre in Hm. apply fmap_blake3_inj in Hm as [Hm|Hc]; [left; by apply level_pre_inj|].
    right. eapply collide_mono; [| |exact Hc]; set_solver.
  - right. eapply collide_mono; [| |exact Hc]; set_solver.
Qed.
End merkle.

(** ** What the root covers *)

Section root.
Context `{Blake3}.

Definition node_pre (n : MemoryNode) : bytes :=
  array_bytes (compute_id n) ++ [byte_of_Z (status_rank (n_status n))] ++ to_le_bytes 8 (default 0 (n_valid_to n)).
Definition edge_pre (e : Edge) : bytes := Edge_key e ++ [byte_of_Z (if e_quarantined e then 1 else 0)].

Definition state_pre (st : list MemoryNode * list Edge) : list bytes := (node_pre <$> st.1) ++ (edge_pre <$> st.2).
Definition state_leaves (st : list MemoryNode * list Edge) : list (array 32) :=
  (node_leaf <$> st.1) ++ (edge_leaf <$> st.2).

Lemma state_leaves_pre st : state_leaves st = blake3 <$> state_pre st.
Proof. unfold state_leaves, state_pre. rewrite fmap_app, <-!list_fmap_compose. done. Qed.

(** Everything hashed on the way to the root *)
Definition root_pre (st : list MemoryNode * list Edge) : list bytes :=
  state_pre st ++ tree_pre (length (state_leaves st)) (state_leaves st).

(** What of a node and of an edge the root commits to *)
Definition node_view (n : MemoryNode) : ContentHash * Status * Z := (compute_id n, n_status n, default 0 (n_valid_to n)).
Definition edge_view (e : Edge) : ident * bool := (edge_ident e, e_quarantined e).

Lemma node_pre_inj n m :
  is_u64 (default 0 (n_valid_to n)) → is_u64 (default 0 (n_valid_to m)) → node_pre n = node_pre m → node_view n = node_view m.
Proof.
  intros Hn Hm Heq. unfold node_pre in Heq. apply app_inj_1 in Heq as [Hid%array_eq Heq]; [|by rewrite !length_array].
  apply app_inj_1 in Heq as [Hs Hv]; [|done]. apply u64_le_bytes_inj in Hv; [|done..]. unfold node_view.
  rewrite Hid, Hv. by destruct (n_status n), (n_status m).
Qed.

Lemma edge_pre_inj e x : edge_pre e = edge_pre x → edge_view e = edge_view x.
Proof.
  unfold edge_pre, edge_view. intros Heq. apply app_inj_2 in Heq as [Hk Hq]; [|done].
  apply Edge_key_inj in Hk. rewrite Hk. by destruct (e_quarantined e), (e_quarantined x).
Qed.

Lemma fmap_view_inj {A B C} (f : A → B) (v : A → C) (P : A → Prop) l k :
  (∀ x y, P x → P y → f x = f y → v x = v y) → Forall P l → Forall P k → f <$> l = f <$> k → v <$> l = v <$> k.
Proof.
  intros Hf Hl. revert k. induction Hl as [|x l Hx Hl IH]; intros [|y k] Hk Heq; simpl in *; try done.
  apply Forall_cons in Hk as [Hy Hk]. injection Heq as Hxy Heq. f_equal; [by apply Hf|by apply IH].
Qed.
End root.

Section anchors.
Context {T : Type} `{MemStore T, Blake3, Hex, Ed25519, !MemStoreLaws T}.

Lemma tenant_root_ok (t : T) c repo :
  ms_holds t c → ∃ st, tenant_state t repo = Ok st ∧ tenant_root t repo = Ok (merkle_root repo (state_leaves st)).
Proof.
  intros Ht. destruct (tenant_state_spec t c repo Ht) as (ns & es & Hst & _). eexists. split; [exact Hst|].
  unfold tenant_root. by rewrite Hst.
Qed.

(** A tenant's root is replica-independent: two stores, over any backends and
    in any storage mode, that hold the same readable nodes and edges compute the
    same root, and always compute one. *)
Theorem tenant_root_replica_independent {T'} `{MemStore T', !MemStoreLaws T'} (t : T) (t' : T') c c' repo
    (Ht : ms_holds t c) (Ht' : ms_holds t' c') (Hn : c_nodes c = c_nodes c') (He : c_edges c = c_edges c') :
  ∃ root, tenant_root t repo = Ok root ∧ tenant_root t' repo = Ok root.
Proof.
  destruct (tenant_root_ok t c repo Ht) as (st & Hst & Hr). eexists. split; [done|].
  unfold tenant_root. by rewrite <-(tenant_state_determined t t' c c' repo), Hst.
Qed.

(** [C25] A tenant's root commits to its state: two states with as many nodes and
    edges and the same root agree, node by node and edge by edge in canonical
    order, on every id, status and end of validity (an absent one counting as 0)
    and on every edge identity and quarantine flag, unless blake3 collides on two
    of the strings hashed for the two roots. *)
Theorem tenant_root_commits (t t' : T) repo st st' root
    (Hst : tenant_state t repo = Ok st) (Hst' : tenant_state t' repo = Ok st')
    (Hr : tenant_root t repo = Ok root) (Hr' : tenant_root t' repo = Ok root)
    (Hnodes : length st.1 = length st'.1) (Hedges : length st.2 = length st'.2)
    (Hu : Forall (λ n, is_u64 (default 0 (n_valid_to n))) (st.1 ++ st'.1)) :
  (node_view <$> st.1 = node_view <$> st'.1 ∧ edge_view <$> st.2 = edge_view <$> st'.2) ∨
  collide (root_pre st) (root_pre st').
Proof.
  unfold tenant_root in Hr, Hr'. rewrite Hst in Hr. rewrite Hst' in Hr'. cbn [rbind] in Hr, Hr'.
  fold (state_leaves st) in Hr. fold (state_leaves st') in Hr'.
  assert (length (state_leaves st) = length (state_leaves st')) as Hl.
  { unfold state_leaves. rewrite !length_app, !length_fmap. lia. }
  assert (state_leaves st = state_leaves st' ∨ collide (root_pre st) (root_pre st')) as [Hlv|?]; [|clear Hr Hr'|by right].
  { unfold merkle_root in Hr, Hr'. unfold root_pre. destruct (state_leaves st) as [|a ls] eqn:Els, (state_leaves st') as [|b ks] eqn:Eks; try done.
    { by left. }
    destruct (merkle_loop_total (length (a :: ls)) (a :: ls)) as [r1 E1]; [done|lia|].
    destruct (merkle_loop_total (length (b :: ks)) (b :: ks)) as [r2 E2]; [done|lia|].
    rewrite E1 in Hr. rewrite E2 in Hr'. rewrite <-Hl in E2 |- *.
    destruct (merkle_loop_binds (length (a :: ls)) (a :: ls) (b :: ks)) as [?|Hc]; [done|lia| |by left|].
    - rewrite E1, E2. simpl in *. congruence.
    - right. eapply collide_mono; [| |exact Hc]; set_solver. }
  rewrite !state_leaves_pre in Hlv. apply fmap_blake3_inj in Hlv as [Hp|Hc].
  - left. unfold state_pre in Hp. apply app_inj_1 in Hp as [Hpn Hpe]; [|by rewrite !length_fmap].
    apply Forall_app in Hu as [Hu Hu']. split.
    + eapply fmap_view_inj; [|exact Hu|exact Hu'|exact Hpn]. intros. by apply node_pre_inj.
    + eapply (fmap_view_inj _ _ (λ _, True)); [|by apply Forall_true..|exact Hpe]. intros. by apply edge_pre_inj.
  - right. eapply collide_mono; [| |exact Hc]; unfold root_pre; set_solver.
Qed.

(** The root cannot tell a node that has no end of validity from one whose
    validity ended at time 0: the leaf hashes [valid_to.unwrap_or(0)], although it
    is meant to make what is current tamper-evident. *)
Theorem node_leaf_valid_to_ambiguous (n : MemoryNode) :
  set_status (n_status n) None n ≠ set_status (n_status n) (Some 0) n ∧
  node_leaf (set_status (n_status n) None n) = node_leaf (set_status (n_status n) (Some 0) n).
Proof. split; [by intros [=]|]. unfold node_leaf. by rewrite !(set_status_id _ _ n : compute_id _ = _). Qed.

Context `{Serde AnchorRecord}.

(** serde_json reads an anchor record back, and does not take one for an
    envelope. *)
Class AnchorSerdeLaws : Prop := {
  anchor_to_vec : ∀ r : AnchorRecord, ∃ b, to_vec r = Ok b ∧ from_slice b = Ok r ∧ ms_meta_value b;
}.

(** Anchoring: on a plaintext store [anchor_tenant] succeeds; whenever it
    succeeds the record is the latest anchor, it links to the hash of the bytes
    of the anchor before it, and the tenant's state verifies against it. *)
Theorem anchor_tenant_verifies `{!AnchorSerdeLaws} (t : T) c repo now (Ht : ms_holds t c) :
  ∃ t' r, anchor_tenant repo now t = (t', r) ∧
    match r with
    | Ok record => latest_anchor t' repo = Ok (Some record) ∧ verify_anchor t' repo = Ok (Some true) ∧
                   a_prev record = (λ b, blake3_to_hex (blake3 b)) <$> c_meta c !! anchor_key repo
    | Err _ => ms_sealing t = true
    end.
Proof.
  destruct (tenant_root_ok t c repo Ht) as (st & Hst & Hroot). unfold anchor_tenant.
  rewrite (sbind_sread_ok _ _ t _ Hroot).
  rewrite (sbind_sread_ok _ _ t ((λ b, blake3_to_hex (blake3 b)) <$> c_meta c !! anchor_key repo))
    by (by rewrite (ms_get_meta_ok t c)).
  rewrite (sbind_sread_ok _ _ t _ Hst). set (record := Build_AnchorRecord _ _ _ _ _ _).
  destruct (anchor_to_vec record) as (b & Hto & Hfrom & Hmv). unfold slift. unfold sbind at 1. rewrite Hto. cbn [map_err].
  destruct (ms_put_meta_ok t c repo (anchor_key repo) b Ht ltac:(done)) as (t' & r & Hp & Hs & Hres).
  unfold sbind, smap_err. rewrite Hp. destruct r as [[]|e]; cbn [map_err].
  - destruct Hres as [_ Ht']. eexists t', _. split; [done|].
    assert (latest_anchor t' repo = Ok (Some record)) as Hla.
    { unfold latest_anchor. rewrite (ms_get_meta_ok t' _ _ Ht'). cbn. by rewrite lookup_insert_eq, Hfrom. }
    split; [done|]. split; [|done]. unfold verify_anchor. rewrite Hla. cbn [rbind].
    unfold tenant_root. rewrite <-(tenant_state_determined t t' c _ repo Ht Ht' eq_refl eq_refl), Hst. cbn [rbind].
    by rewrite bool_decide_eq_true_2.
  - eexists t', _. split; [done|]. by destruct Hres.
Qed.
End anchors.

(** ** The merge of one edge *)

(** The advisory group, and the key it is chosen by *)
Definition adv (e : Edge) : Plane * TrustTier * EdgeProvenance * option bytes :=
  (e_plane e, e_trust_tier e, e_provenance e, e_signature e).
Definition adv_key (x : Plane * TrustTier * EdgeProvenance * option bytes) : Z * Z * Z * string * Z * string * bytes :=
  let '(pl, tr, pr, sg) := x in
  (trust_conservatism tr, plane_rank pl, method_rank (p_method pr), p_asserter pr, p_at pr,
   default "" (p_evidence pr), default [] sg).
(** No empty evidence and no empty signature: then the key determines the group. *)
Definition adv_wf (e : Edge) : Prop := p_evidence (e_provenance e) ≠ Some "" ∧ e_signature e ≠ Some [].

Lemma adv_key_inj a b : adv_wf a → adv_wf b → adv_key (adv a) = adv_key (adv b) → adv a = adv b.
Proof.
  destruct a as [fa ta ka pla tra [ma aa ata eva] ca qa sa], b as [fb tb kb plb trb [mb ab atb evb] cb qb sb].
  unfold adv_wf, adv. cbn. intros [Ha1 Ha2] [Hb1 Hb2] Heq. injection Heq as Htr Hpl Hm -> -> Hev Hsg.
  assert (tra = trb) as -> by (by destruct tra, trb). assert (pla = plb) as -> by (by destruct pla, plb).
  assert (ma = mb) as -> by (by destruct ma, mb).
  assert (eva = evb) as -> by (destruct eva, evb; cbn in *; congruence).
  assert (sa = sb) as -> by (destruct sa, sb; cbn in *; congruence). done.
Qed.

Lemma merge_edge_adv a b :
  adv (merge_edge a b) = if ord_leb (adv_key (adv a)) (adv_key (adv b)) then adv a else adv b.
Proof.
  unfold merge_edge, adv at 1. cbn [e_plane e_trust_tier e_provenance e_signature].
  change (edge_advisory_key a) with (adv_key (adv a)). change (edge_advisory_key b) with (adv_key (adv b)).
  rewrite ord_ltb_leb. by destruct (ord_leb (adv_key (adv a)) (adv_key (adv b))).
Qed.

Lemma ord_leb_fst {A B} `{RustOrd A, RustOrd B} (p q : A * B) : ord_leb p q = true → ord_leb p.1 q.1 = true.
Proof. unfold ord_leb, cmp at 1, prod_ord. by destruct (cmp p.1 q.1). Qed.

Lemma adv_key_trust a b :
  ord_leb (adv_key (adv a)) (adv_key (adv b)) = true →
  trust_conservatism (e_trust_tier a) ≤ trust_conservatism (e_trust_tier b).
Proof.
  intros E. do 6 apply ord_leb_fst in E. simpl in E. unfold ord_leb, cmp, Z_ord in E.
  by apply Z.leb_le.
Qed.

Lemma edge_eq a b :
  edge_ident a = edge_ident b → adv a = adv b → e_confidence a = e_confidence b → e_quarantined a = e_quarantined b → a = b.
Proof. destruct a, b. unfold edge_ident, adv. cbn. intros [= -> -> ->] [= -> -> -> ->] -> ->. done. Qed.

(** The merge of an edge is a join on well-formed copies of one edge:
    commutative, associative, idempotent; it confirms an edge that either replica
    confirmed and keeps the least-trusted advisory group. *)
Theorem merge_edge_semilattice (a b c : Edge) (Hid : edge_ident a = edge_ident b) (Ha : adv_wf a) (Hb : adv_wf b) :
  merge_edge a b = merge_edge b a ∧ merge_edge (merge_edge a b) c = merge_edge a (merge_edge b c) ∧
  merge_edge a a = a ∧ e_quarantined (merge_edge a b) = e_quarantined a && e_quarantined b ∧
  trust_conservatism (e_trust_tier (merge_edge a b)) =
    Z.min (trust_conservatism (e_trust_tier a)) (trust_conservatism (e_trust_tier b)).
Proof.
  split_and!; [| | |done|].
  - apply edge_eq; [done| |apply join_confidence_comm|apply andb_comm]. rewrite !merge_edge_adv.
    destruct (ord_leb (adv_key (adv a)) (adv_key (adv b))) eqn:E1, (ord_leb (adv_key (adv b)) (adv_key (adv a))) eqn:E2; try done.
    + by apply adv_key_inj, ord_leb_antisym.
    + apply ord_leb_false in E1. congruence.
  - apply edge_eq; [done| |apply join_confidence_assoc|symmetry; apply andb_assoc]. rewrite !merge_edge_adv.
    destruct (ord_leb (adv_key (adv a)) (adv_key (adv b))) eqn:E1, (ord_leb (adv_key (adv b)) (adv_key (adv c))) eqn:E2;
      rewrite ?E1, ?E2; try done; [by rewrite (ord_leb_trans _ _ _ E1 E2)|].
    destruct (ord_leb (adv_key (adv a)) (adv_key (adv c))) eqn:E3; [|done]. apply ord_leb_false in E1.
    pose proof (ord_leb_trans _ _ _ E1 E3). congruence.
  - apply edge_eq; [done| |apply join_confidence_idem|apply andb_diag]. rewrite merge_edge_adv. by destruct (ord_leb _ _).
  - pose proof (f_equal (λ x, x.1.1.2) (merge_edge_adv a b)) as Htr. simpl in Htr.
    destruct (ord_leb _ _) eqn:E; simpl in Htr.
    + apply adv_key_trust in E. rewrite Z.min_l by done. by rewrite <-Htr.
    + apply ord_leb_false, adv_key_trust in E. rewrite Z.min_r by done. by rewrite <-Htr.
Qed.

(** The copy of an edge whose provenance carries empty evidence *)
Definition with_evidence (ev : option string) (e : Edge) : Edge :=
  {| e_from := e_from e; e_to := e_to e; e_kind := e_kind e; e_plane := e_plane e; e_trust_tier := e_trust_tier e;
     e_provenance := {| p_method := p_method (e_provenance e); p_asserter := p_asserter (e_provenance e);
                        p_at := p_at (e_provenance e); p_evidence := ev |};
     e_confidence := e_confidence e; e_quarantined := e_quarantined e; e_signature := e_signature e |}.

(** The selection key of the edge merge is not total: it maps absent and empty
    evidence to the same value, so each replica keeps its own of two copies that
    differ only there, and the merge is not commutative on them. *)
Theorem merge_edge_not_commutative (e : Edge) :
  let a := with_evidence None e in
  let b := with_evidence (Some "") e in
  edge_ident a = edge_ident b ∧ merge_edge a b ≠ merge_edge b a.
Proof.
  simpl. split; [done|]. intros Heq. apply (f_equal adv) in Heq. rewrite !merge_edge_adv in Heq.
  change (adv_key (adv (with_evidence (Some "") e))) with (adv_key (adv (with_evidence None e))) in Heq.
  by rewrite ord_leb_refl in Heq.
Qed.

Section overwrite.
Context {T : Type} `{MemStore T, Blake3, Hex, Ed25519, !MemStoreLaws T}.

(** The supersession loop does not join: when a remote load-bearing
    [Supersedes] edge passes the guards, the stored edge of its identity is
    replaced by the remote copy, whatever its confidence, provenance and signature
    were, where the loop for the other edges stores their [merge_edge].  Two
    replicas that hold different copies of one such edge and exchange bundles swap
    them instead of converging. *)
Theorem supersession_merge_overwrites (t : T) c (local remote : Edge) rep c1 out
    (Ht : ms_holds t c) (Hplain : ms_sealing t = false) (Hlocal : c_edges c !! edge_ident remote = Some local)
    (Hver : rejected_edge remote = false) (Hok : sup_step c remote (Ok rep) c1) :
  ∃ t' out' c', merge_one_supersession out remote t = (t', Ok out') ∧ ms_holds t' c' ∧
                c_edges c' !! edge_ident remote = Some remote.
Proof.
  unfold merge_one_supersession. rewrite Hver. rewrite (sbind_sread_ok _ _ t _ (find_edge_ok t c remote Ht)).
  destruct (ms_supersede_ok t c remote Ht) as (t' & r & Hr & _ & [(c' & Hst & Ht')|(err & _ & _ & ?)]); [|congruence].
  destruct (sup_step_functional _ _ _ _ _ _ Hok Hst) as [<- <-]. rewrite Hr. eexists t', _, c1. split; [done|].
  split; [done|]. inversion Hok as [| | | | | | |target]; subst. unfold c_supersede.
  case_bool_decide; simpl; by rewrite lookup_insert_eq.
Qed.
End overwrite.
