(* ===== verification/Query.v ===== *)
(** * The read path ([mem-query/src/lib.rs])

    Recall over the store: the canonical history of a tenant and its in-flight
    branches, storylines, as-of snapshots, neighbourhoods, prefix resolution,
    the verification of one node and the completeness critique of a result.
    The reads that rank by embedding (search, analogies) are not here. *)

From Stdlib Require Import SpecFloat.
From S2P Require Import Prelude Bytes Externs Text Belnap Identity Node Float Edge Kv Shred Store StoreContents Supersession.
From S2P Require Import StoreInterface Assert.

(** ** The freshness watermark ([mem-ingest/src/lib.rs]) *)

Record Watermark := { w_repo : string; w_head : option string; w_head_count : nat; w_ingested_at_ms : Timestamp }.

#[export] Instance Watermark_eq_dec : EqDecision Watermark.
Proof. solve_decision. Defined.

Inductive IngestError :=
| GitError (m : string) | IngestStore (e : StoreError) | IngestSerde (m : string) | EmbedFailed (m : string) | ChainError (m : string).

Definition watermark_key (repo : string) : bytes := as_bytes ("derived_watermark:" +:+ repo).

(** ** Results *)

Record RecallItem := {
  ri_id : ContentHash;
  ri_kind : NodeKind;
  ri_repo : string;
  ri_title : string;
  ri_valid_from : Timestamp;
  ri_plane : Plane;
  ri_trust_tier : TrustTier;
  ri_source : SourceRef;
  ri_status : Status;
  ri_score : option f32;
  ri_in_flight_branch : option string;
}.

Record RecallResult := {
  rr_repo : string;
  rr_watermark : option Watermark;
  rr_total_in_tenant : nat;
  rr_items : list RecallItem;
}.

Inductive Direction := Out | In_.

Record NeighborItem := {
  ni_edge_kind : EdgeKind;
  ni_direction : Direction;
  ni_quarantined : bool;
  ni_node : option RecallItem;
}.

(** [Invalid] carries the error itself where the code keeps its message. *)
Inductive SignatureStatus := NotApplicableDerived | Valid | Invalid (e : AssertError) | Missing.

Record Verification := {
  v_item : RecallItem;
  v_signature : SignatureStatus;
  v_superseded_by : list ContentHash;
  v_refuted_by : list ContentHash;
  v_contradicted : bool;
}.

Inductive Gap :=
| TruncatedCoverage (shown total : nat)
| SupersededInResult (ids : list ContentHash)
| Contradicted (id : ContentHash)
| AdjacentProposal (id : ContentHash).

Record Critique := { cr_gaps : list Gap; cr_watermark_age_ms : option Timestamp; cr_completeness : f32 }.

Definition is_trustworthy (v : Verification) : bool :=
  match v_signature v with NotApplicableDerived | Valid => true | _ => false end
  && bool_decide (v_superseded_by v = []) && bool_decide (v_refuted_by v = [])
  && negb (v_contradicted v) && bool_decide (ri_status (v_item v) = Active).

(** ** The completeness score *)

(** [if gaps.is_empty() { 1.0 } else { 1.0 / (1.0 + gaps.len() as f32) }] *)
Definition completeness (gaps : nat) : f32 :=
  let one := f32_of_nat 1 in
  spec_bits (match gaps with O => one | _ => SFdiv 24 128 one (SFadd 24 128 one (f32_of_nat gaps)) end).

(** ** Reading nodes *)

(** [s.rsplit_once(c)] *)
Fixpoint rsplit_once (c : ascii) (s : string) : option (string * string) :=
  match s with
  | EmptyString => None
  | String a s =>
    match rsplit_once c s with
    | Some (l, r) => Some (String a l, r)
    | None => if bool_decide (a = c) then Some ("", s) else None
    end
  end.

(** A placeholder for a reference that is not resolved yet *)
Definition is_reference (n : MemoryNode) : bool :=
  match n_source_ref n with DagNative key => String.prefix "ref:" key | _ => false end.

(** The spine edges of the commit history *)
Definition is_spine (k : EdgeKind) : bool := bool_decide (k = TemporalNext) || bool_decide (k = MergeParent).

Definition is_both (v : BelnapValue) : bool := bool_decide (v = Both).

(** The depth-first walk of [canonical_reachable]; the stack's top is the head
    of the list, [None] when the fuel runs out. *)
Fixpoint dfs (parents : gmap ContentHash (list ContentHash)) (fuel : nat) (reachable : gset ContentHash)
    (stack : list ContentHash) : option (gset ContentHash) :=
  match stack with
  | [] => Some reachable
  | id :: stack =>
    match fuel with
    | O => None
    | S fuel =>
      if bool_decide (id ∈ reachable) then dfs parents fuel reachable stack
      else dfs parents fuel ({[id]} ∪ reachable) (reverse (default [] (parents !! id)) ++ stack)
    end
  end.

(** [recall_cfg]: the options of [Recall] *)
Record recall_cfg := { include_in_flight : bool; include_asserted : bool }.
Definition recall_default : recall_cfg := {| include_in_flight := false; include_asserted := false |}.
Definition with_in_flight (c : recall_cfg) (yes : bool) : recall_cfg :=
  {| include_in_flight := yes; include_asserted := include_asserted c |}.
Definition with_asserted (c : recall_cfg) (yes : bool) : recall_cfg :=
  {| include_in_flight := include_in_flight c; include_asserted := yes |}.

Section query.
Context {T : Type} `{MemStore T, Blake3, Hex, Ed25519, Serde Watermark}.

Definition from_node (n : MemoryNode) (score : option f32) : RecallItem :=
  {| ri_id := compute_id n; ri_kind := n_kind n; ri_repo := n_repo n; ri_title := from_utf8_lossy (n_content n);
     ri_valid_from := n_valid_from n; ri_plane := n_plane n; ri_trust_tier := n_trust_tier n;
     ri_source := n_source_ref n; ri_status := n_status n; ri_score := score; ri_in_flight_branch := None |}.

Definition set_branch (b : option string) (i : RecallItem) : RecallItem :=
  {| ri_id := ri_id i; ri_kind := ri_kind i; ri_repo := ri_repo i; ri_title := ri_title i;
     ri_valid_from := ri_valid_from i; ri_plane := ri_plane i; ri_trust_tier := ri_trust_tier i;
     ri_source := ri_source i; ri_status := ri_status i; ri_score := ri_score i; ri_in_flight_branch := b |}.

Definition read_watermark (t : T) (repo : string) : result IngestError (option Watermark) :=
  let? o := map_err IngestStore (ms_get_meta t (watermark_key repo)) in
  match o with
  | None => Ok None
  | Some b => rmap Some (map_err IngestSerde (from_slice b))
  end.

(** [.ok().flatten()]: a watermark that cannot be read counts as none *)
Definition watermark (t : T) (repo : string) : option Watermark := default None (rok (read_watermark t repo)).

Definition detect_embedding_model (t : T) (repo : string) : result StoreError (option string) :=
  rmap (λ all, (snd <$> list_find (λ n, n_repo n = repo ∧ is_Some (n_embedding n)) all)
               ≫= λ n, vv_model <$> n_embedding n) (ms_all_nodes t).

Definition detect_store_embedding_model (t : T) : result StoreError (option string) :=
  rmap (λ all, head (omap (λ n, vv_model <$> n_embedding n) all)) (ms_all_nodes t).

(** *** The canonical history *)

Definition sha_index (repo : string) (all : list MemoryNode) : gmap string ContentHash :=
  foldl (λ m n, if bool_decide (n_repo n = repo) && bool_decide (n_kind n = Commit) then
                  match n_source_ref n with GitCommit _ sha => <[sha := compute_id n]> m | _ => m end
                else m) ∅ all.

Definition parent_index (edges : list Edge) : gmap ContentHash (list ContentHash) :=
  foldl (λ m e, if is_spine (e_kind e) then <[e_from e := default [] (m !! e_from e) ++ [e_to e]]> m else m) ∅ edges.

(** Every edge puts at most one entry on the stack: one more than the edges is
    enough fuel. *)
Definition canonical_reachable (t : T) (repo : string) (all : list MemoryNode) : result StoreError (gset ContentHash) :=
  match watermark t repo ≫= w_head with
  | None => Ok ∅
  | Some head_sha =>
    match sha_index repo all !! head_sha with
    | None => Ok ∅
    | Some head_id =>
      let? edges := ms_all_edges t in
      Ok (default ∅ (dfs (parent_index edges) (S (length edges)) ∅ [head_id]))
    end
  end.

Definition branch_name (n : MemoryNode) : string := default "" (fst <$> rsplit_once "@" (from_utf8_lossy (n_content n))).

(** [map.entry(e.to).or_insert(branch)] for the edges of one branch node *)
Definition label_edge (reachable : gset ContentHash) (branch : string) (m : gmap ContentHash string) (e : Edge)
    : gmap ContentHash string :=
  if bool_decide (e_kind e = BranchContains) && bool_decide (e_to e ∉ reachable) then
    match m !! e_to e with Some _ => m | None => <[e_to e := branch]> m end
  else m.

Definition label_branch (t : T) (repo : string) (reachable : gset ContentHash) (want_active : bool)
    (m : gmap ContentHash string) (n : MemoryNode) : result StoreError (gmap ContentHash string) :=
  if bool_decide (n_repo n = repo) && bool_decide (n_kind n = Branch)
     && Bool.eqb (bool_decide (n_status n = Active)) want_active then
    let? es := ms_out_edges t (compute_id n) in
    Ok (foldl (label_edge reachable (branch_name n)) m es)
  else Ok m.

Definition in_flight_map (t : T) (repo : string) (all : list MemoryNode) : result StoreError (gmap ContentHash string) :=
  let? reachable := canonical_reachable t repo all in
  rfold (λ m want_active, rfold (label_branch t repo reachable want_active) m all) ∅ [true; false].

Definition in_tenant (cfg : recall_cfg) (repo : string) (in_flight : gmap ContentHash string) (n : MemoryNode) : bool :=
  bool_decide (n_repo n = repo) && negb (is_reference n) && negb (bool_decide (n_kind n = Branch))
  && (include_in_flight cfg || bool_decide (in_flight !! compute_id n = None)).

Definition tenant_scan (cfg : recall_cfg) (t : T) (repo : string)
    : result StoreError (list MemoryNode * gmap ContentHash string) :=
  let? all := ms_all_nodes t in
  let? in_flight := in_flight_map t repo all in
  Ok (filter (λ n, in_tenant cfg repo in_flight n = true) all, in_flight).

Definition tenant_nodes (cfg : recall_cfg) (t : T) (repo : string) : result StoreError (list MemoryNode) :=
  rmap fst (tenant_scan cfg t repo).

(** *** Storylines and snapshots *)

(** Newest first, ties by id *)
Definition newest_key (n : MemoryNode) : Z * ContentHash := (- n_valid_from n, compute_id n).

Definition storyline (cfg : recall_cfg) (t : T) (repo : string) (budget : nat) : result StoreError RecallResult :=
  let? st := tenant_scan cfg t repo in
  let nodes := sort_by_key newest_key st.1 in
  Ok {| rr_repo := repo; rr_watermark := watermark t repo; rr_total_in_tenant := length st.1;
        rr_items := (λ n, set_branch (st.2 !! compute_id n) (from_node n None)) <$> take budget nodes |}.

(** Known and not yet retired at [as_of_ms] *)
Definition current_at (cfg : recall_cfg) (as_of_ms : Timestamp) (n : MemoryNode) : bool :=
  (include_asserted cfg || bool_decide (n_plane n = Derived)) && (n_valid_from n <=? as_of_ms)
  && match n_valid_to n with Some vt => as_of_ms <? vt | None => true end.

Definition as_of (cfg : recall_cfg) (t : T) (repo : string) (as_of_ms : Timestamp) (budget : nat)
    : result StoreError RecallResult :=
  let? nodes := tenant_nodes cfg t repo in
  let current := sort_by_key newest_key (filter (λ n, current_at cfg as_of_ms n = true) nodes) in
  Ok {| rr_repo := repo; rr_watermark := watermark t repo; rr_total_in_tenant := length nodes;
        rr_items := (λ n, from_node n None) <$> take budget current |}.

(** *** Neighbourhoods *)

Definition neighbor (e : Edge) (d : Direction) (n : option MemoryNode) : NeighborItem :=
  {| ni_edge_kind := e_kind e; ni_direction := d; ni_quarantined := e_quarantined e;
     ni_node := (λ n, from_node n None) <$> n |}.

(** One of the two loops of [neighbors]; the flag says whether the budget ended it *)
Fixpoint neighbors_loop (t : T) (budget : nat) (d : Direction) (far : Edge → ContentHash) (out : list NeighborItem)
    (es : list Edge) : result StoreError (list NeighborItem * bool) :=
  match es with
  | [] => Ok (out, false)
  | e :: es =>
    if bool_decide (budget ≤ length out)%nat then Ok (out, true)
    else
      let? n := ms_get_node t (far e) in
      neighbors_loop t budget d far (out ++ [neighbor e d n]) es
  end.

Definition neighbors (t : T) (id : ContentHash) (budget : nat) : result StoreError (list NeighborItem) :=
  let? outs := ms_out_edges t id in
  let? r := neighbors_loop t budget Out e_to [] outs in
  if (r.2 : bool) then Ok r.1
  else
    let? ins := ms_in_edges t id in
    rmap fst (neighbors_loop t budget In_ e_from r.1 ins).

Fixpoint readable_loop (t : T) (budget : nat) (can_read : string → bool) (out : list NeighborItem)
    (es : list (ContentHash * Edge * Direction)) : result StoreError (list NeighborItem) :=
  match es with
  | [] => Ok out
  | (far, e, d) :: es =>
    if bool_decide (budget ≤ length out)%nat then Ok out
    else
      let? n := ms_get_node t far in
      match n with
      | Some x => if negb (can_read (n_repo x)) then readable_loop t budget can_read out es
                  else readable_loop t budget can_read (out ++ [neighbor e d n]) es
      | None => readable_loop t budget can_read (out ++ [neighbor e d n]) es
      end
  end.

Definition neighbors_readable (t : T) (id : ContentHash) (budget : nat) (can_read : string → bool)
    : result StoreError (list NeighborItem) :=
  let? outs := ms_out_edges t id in
  let? ins := ms_in_edges t id in
  readable_loop t budget can_read []
    (((λ e, (e_to e, e, Out)) <$> outs) ++ ((λ e, (e_from e, e, In_)) <$> ins)).

(** *** Prefixes *)

Fixpoint resolve_loop (prefix : string) (visible : MemoryNode → bool) (found : option ContentHash) (all : list MemoryNode)
    : option ContentHash :=
  match all with
  | [] => found
  | n :: all =>
    if negb (visible n) then resolve_loop prefix visible found all
    else if String.prefix prefix (to_hex (compute_id n)) then
      match found with
      | Some _ => None
      | None => resolve_loop prefix visible (Some (compute_id n)) all
      end
    else resolve_loop prefix visible found all
  end.

Definition resolve_prefix_where (t : T) (prefix : string) (visible : MemoryNode → bool)
    : result StoreError (option ContentHash) :=
  rmap (resolve_loop prefix visible None) (ms_all_nodes t).
Definition resolve_prefix (t : T) (prefix : string) : result StoreError (option ContentHash) :=
  resolve_prefix_where t prefix (λ _, true).
Definition resolve_prefix_in (t : T) (repo prefix : string) : result StoreError (option ContentHash) :=
  resolve_prefix_where t prefix (λ n, bool_decide (n_repo n = repo)).

(** *** Verification *)

Definition signature_status (n : MemoryNode) : SignatureStatus :=
  match n_plane n with
  | Derived => NotApplicableDerived
  | Asserted =>
    match verify_node n with
    | Ok _ => Valid
    | Err Unsigned => Missing
    | Err e => Invalid e
    end
  end.

(** What one incoming edge adds to the two lists *)
Definition verify_edge_in (t : T) (visible : option string → bool) (st : list ContentHash * list ContentHash) (e : Edge)
    : result StoreError (list ContentHash * list ContentHash) :=
  if e_quarantined e then Ok st
  else
    let? far := ms_get_node t (e_from e) in
    if negb (visible (n_repo <$> far)) then Ok st
    else match e_kind e with
         | Supersedes => Ok (st.1 ++ [e_from e], st.2)
         | Refutes | Contradicts => Ok (st.1, st.2 ++ [e_from e])
         | _ => Ok st
         end.

Definition verify_where (t : T) (id : ContentHash) (visible : option string → bool) : result StoreError (option Verification) :=
  let? o := ms_get_node t id in
  match o with
  | None => Ok None
  | Some n =>
    let? es := ms_in_edges t id in
    let? st := rfold (verify_edge_in t visible) ([], []) es in
    Ok (Some {| v_item := from_node n None; v_signature := signature_status n; v_superseded_by := st.1;
                v_refuted_by := st.2; v_contradicted := existsb is_both (n_confidence n) |})
  end.

Definition verify (t : T) (id : ContentHash) : result StoreError (option Verification) := verify_where t id (λ _, true).
(** [far.is_some_and(can_read)] *)
Definition is_some_and (can_read : string → bool) (far : option string) : bool :=
  match far with Some r => can_read r | None => false end.
Definition verify_readable (t : T) (id : ContentHash) (can_read : string → bool) : result StoreError (option Verification) :=
  verify_where t id (is_some_and can_read).

(** *** The critique of a result *)

(** Does an adjacent proposal with a visible far end exist? *)
Fixpoint has_proposal (t : T) (visible : option string → bool) (adjacent : list (ContentHash * bool)) : result StoreError bool :=
  match adjacent with
  | [] => Ok false
  | (far, quarantined) :: adjacent =>
    if (quarantined : bool) then
      let? n := ms_get_node t far in
      if visible (n_repo <$> n) then Ok true else has_proposal t visible adjacent
    else has_proposal t visible adjacent
  end.

Definition critique_item (t : T) (visible : option string → bool) (gaps : list Gap) (i : RecallItem) : result StoreError (list Gap) :=
  let? o := ms_get_node t (ri_id i) in
  match o with
  | None => Ok gaps
  | Some n =>
    let gaps := if existsb is_both (n_confidence n) then gaps ++ [Contradicted (ri_id i)] else gaps in
    let? outs := ms_out_edges t (ri_id i) in
    let? ins := ms_in_edges t (ri_id i) in
    let? q := has_proposal t visible (((λ e, (e_to e, e_quarantined e)) <$> outs) ++ ((λ e, (e_from e, e_quarantined e)) <$> ins)) in
    Ok (if (q : bool) then gaps ++ [AdjacentProposal (ri_id i)] else gaps)
  end.

Definition critique_where (t : T) (result : RecallResult) (now_ms : Timestamp) (visible : option string → bool)
    : Prelude.result StoreError Critique :=
  let shown := length (rr_items result) in
  let gaps := if bool_decide (shown < rr_total_in_tenant result)%nat
              then [TruncatedCoverage shown (rr_total_in_tenant result)] else [] in
  let superseded := ri_id <$> filter (λ i, ri_status i = Superseded) (rr_items result) in
  let gaps := if bool_decide (superseded = []) then gaps else gaps ++ [SupersededInResult superseded] in
  let? gaps := rfold (critique_item t visible) gaps (rr_items result) in
  Ok {| cr_gaps := gaps;
        cr_watermark_age_ms := (λ w, saturating_sub64 now_ms (w_ingested_at_ms w)) <$> rr_watermark result;
        cr_completeness := completeness (length gaps) |}.

Definition critique (t : T) (result : RecallResult) (now_ms : Timestamp) : Prelude.result StoreError Critique :=
  critique_where t result now_ms (λ _, true).
Definition critique_readable (t : T) (result : RecallResult) (now_ms : Timestamp) (can_read : string → bool)
    : Prelude.result StoreError Critique :=
  critique_where t result now_ms (is_some_and can_read).
End query.
