(* ===== verification/QueryProps.v ===== *)
(** * What the read path guarantees

    The canonical history is what the spine reaches from the watermark's head;
    storylines and snapshots show exactly the canonical content, in one order
    on every replica; supersession ends a node's snapshots and no other; reads
    made for a caller show nothing of the tenants the caller cannot read. *)

From stdpp Require Import relations.
From S2P Require Import Prelude Bytes Externs Text Belnap Identity Node Edge Kv Shred Store StoreContents Supersession.
From S2P Require Import StoreInterface Assert Query.

(** ** The walk *)

Section walk.
Implicit Types (parents : gmap ContentHash (list ContentHash)) (seen : gset ContentHash).

(** One step of the history: from a commit to a parent *)
Definition parent_of parents (x y : ContentHash) : Prop := y ∈ default [] (parents !! x).

(** Stack entries that commits not expanded yet can still add *)
Definition entries parents : nat := map_fold (λ _ l n, (length l + n)%nat) O parents.
Definition pending parents seen : nat := entries (filter (λ p, p.1 ∉ seen) parents).

Lemma entries_insert parents x l :
  parents !! x = None → entries (<[x := l]> parents) = (length l + entries parents)%nat.
Proof. intros Hx. unfold entries. rewrite map_fold_insert_L; [done| |done]. intros. lia. Qed.

Lemma entries_delete parents x : (length (default [] (parents !! x)) + entries (delete x parents) = entries parents)%nat.
Proof.
  destruct (parents !! x) as [l|] eqn:Hx; simpl; [|by rewrite delete_id].
  rewrite <-(entries_insert (delete x parents) x l) by apply lookup_delete_eq. by rewrite insert_delete_id.
Qed.

Lemma entries_set parents x l :
  (entries (<[x := l]> parents) + length (default [] (parents !! x)) = entries parents + length l)%nat.
Proof. rewrite <-insert_delete_eq, (entries_insert (delete x parents)) by apply lookup_delete_eq.
  rewrite <-(entries_delete parents x). lia. Qed.

Lemma pending_visit parents seen x :
  x ∉ seen → (length (default [] (parents !! x)) + pending parents ({[x]} ∪ seen) = pending parents seen)%nat.
Proof.
  intros Hx. unfold pending. rewrite <-(entries_delete (filter (λ p, p.1 ∉ seen) parents) x).
  assert (filter (λ p, p.1 ∉ seen) parents !! x = parents !! x) as ->.
  { destruct (parents !! x) as [l|] eqn:Hl; [by apply map_lookup_filter_Some|]. apply map_lookup_filter_None. by left. }
  f_equal. f_equal. apply map_eq. intros y. apply option_eq. intros l.
  rewrite lookup_delete_Some, !map_lookup_filter_Some. set_solver.
Qed.

(** The walk ends, and reaches exactly what the stack reaches. *)
Lemma dfs_spec parents fuel seen stack :
  (length stack + pending parents seen ≤ fuel)%nat →
  (∀ x y, x ∈ seen → parent_of parents x y → y ∈ seen ∨ y ∈ stack) →
  ∃ r, dfs parents fuel seen stack = Some r ∧ seen ⊆ r ∧ (∀ x, x ∈ stack → x ∈ r) ∧
       (∀ x y, x ∈ r → parent_of parents x y → y ∈ r) ∧
       (∀ x, x ∈ r → x ∈ seen ∨ ∃ s, s ∈ stack ∧ rtc (parent_of parents) s x).
Proof.
  revert seen stack. induction fuel as [|fuel IH]; intros seen [|id stack] Hf Hcl; simpl in Hf; [|lia| |].
  1,2: exists seen; split_and!; [done|done|by intros x ?%not_elem_of_nil| |by left];
    intros x y Hx Hp; destruct (Hcl x y Hx Hp) as [|?%not_elem_of_nil]; done.
  cbn [dfs]. case_bool_decide as Hid.
  - destruct (IH seen stack) as (r & -> & Hs & Hst & Hc & Hr); [lia| |].
    { intros x y Hx Hp. destruct (Hcl x y Hx Hp) as [|Hy]; [by left|]. apply elem_of_cons in Hy as [->|]; auto. }
    exists r. split_and!; [done|done| |done|].
    + intros x [->|Hx]%elem_of_cons; auto.
    + intros x Hx. destruct (Hr x Hx) as [|(s & Hin & Hrt)]; [by left|]. right. exists s. split; [by apply list_elem_of_further|done].
  - destruct (IH ({[id]} ∪ seen) (reverse (default [] (parents !! id)) ++ stack)) as (r & -> & Hs & Hst & Hc & Hr).
    + rewrite length_app, length_reverse. pose proof (pending_visit parents seen id Hid). lia.
    + intros x y Hx Hp. rewrite elem_of_app, elem_of_reverse. apply elem_of_union in Hx as [->%elem_of_singleton|Hx]; [auto|].
      rewrite elem_of_union, elem_of_singleton.
      destruct (Hcl x y Hx Hp) as [|Hy]; [auto|]. apply elem_of_cons in Hy as [->|]; auto.
    + exists r. split_and!; [done|by etrans; [apply union_subseteq_r|]| |done|].
      * intros x [->|Hx]%elem_of_cons; [apply Hs, elem_of_union_l; by apply elem_of_singleton|]. apply Hst, elem_of_app. by right.
      * intros x Hx. destruct (Hr x Hx) as [[->%elem_of_singleton|]%elem_of_union|(s & Hin & Hrt)]; [|by left|].
        { right. exists id. split; [apply list_elem_of_here|done]. }
        right. apply elem_of_app in Hin as [Hin|Hin].
        { rewrite elem_of_reverse in Hin. exists id. split; [apply list_elem_of_here|]. by eapply rtc_l. }
        exists s. split; [by apply list_elem_of_further|done].
Qed.

Lemma entries_parent_index es : (entries (parent_index es) ≤ length es)%nat.
Proof.
  unfold parent_index. induction es as [|e es IH] using rev_ind; [done|]. rewrite foldl_app, length_app. simpl.
  destruct (is_spine _); [|lia]. set (m := foldl _ _ _) in *.
  pose proof (entries_set m (e_from e) (default [] (m !! e_from e) ++ [e_to e])) as Hs. rewrite length_app in Hs. simpl in *. lia.
Qed.

Lemma elem_of_parent_index es x y :
  parent_of (parent_index es) x y ↔ ∃ e, e ∈ es ∧ is_spine (e_kind e) = true ∧ e_from e = x ∧ e_to e = y.
Proof.
  unfold parent_of, parent_index. induction es as [|e es IH] using rev_ind.
  { simpl. rewrite lookup_empty. simpl. split; [by intros ?%not_elem_of_nil|]. intros (e & He & _). by apply not_elem_of_nil in He. }
  rewrite foldl_app. simpl. set (m := foldl _ _ _) in *.
  assert ((∃ e', e' ∈ es ++ [e] ∧ is_spine (e_kind e') = true ∧ e_from e' = x ∧ e_to e' = y) ↔
          (∃ e', e' ∈ es ∧ is_spine (e_kind e') = true ∧ e_from e' = x ∧ e_to e' = y) ∨
          (is_spine (e_kind e) = true ∧ e_from e = x ∧ e_to e = y)) as ->.
  { split.
    - intros (e' & He & Hx). apply elem_of_app in He as [He|He]; [left; by exists e'|]. apply list_elem_of_singleton in He as ->. by right.
    - intros [(e' & He & Hx)|Hx]; [exists e'|exists e]; (split; [apply elem_of_app|done]); [by left|right; apply list_elem_of_here]. }
  rewrite <-IH. destruct (is_spine (e_kind e)) eqn:Hk; [|split; [by left|intros [|[? _]]; done]].
  destruct (decide (e_from e = x)) as [<-|Hne].
  - rewrite lookup_insert_eq. simpl. rewrite elem_of_app, list_elem_of_singleton. split; intros [|]; auto; right; by destruct_and?.
  - rewrite lookup_insert_ne by done. split; [by left|]. by intros [|(_ & ? & _)].
Qed.

Lemma walk_history es head :
  ∃ r, dfs (parent_index es) (S (length es)) ∅ [head] = Some r ∧ ∀ x, x ∈ r ↔ rtc (parent_of (parent_index es)) head x.
Proof.
  destruct (dfs_spec (parent_index es) (S (length es)) ∅ [head]) as (r & Hr & _ & Hst & Hc & Hs).
  - simpl. unfold pending. rewrite map_filter_id by set_solver. pose proof (entries_parent_index es). lia.
  - set_solver.
  - exists r. split; [done|]. intros x. split.
    + intros Hx. destruct (Hs x Hx) as [|(s & Hin & Hrt)]; [set_solver|]. by apply list_elem_of_singleton in Hin as ->.
    + intros Hrt. assert (head ∈ r) as Hh by (apply Hst, list_elem_of_here). clear Hs Hst Hr.
      induction Hrt as [|x y z Hxy _ IH]; [done|]. apply IH. by eapply Hc.
Qed.
End walk.

Section recall.
Context {T : Type} `{MemStore T, Blake3, Hex, Ed25519, Serde Watermark, !MemStoreLaws T}.
Implicit Types (t : T) (c : conts) (repo : string) (cfg : recall_cfg).

(** ** The canonical history of a tenant *)

Definition c_spine c (x y : ContentHash) : Prop := ∃ k, is_spine k = true ∧ is_Some (c_edges c !! (x, y, k)).

(** The commit the watermark names, if the tenant holds it *)
Definition history_head t repo (all : list MemoryNode) : option ContentHash :=
  (watermark t repo ≫= w_head) ≫= (sha_index repo all !!.).

Lemma spine_edges t c es x y :
  ms_holds t c → lists_edges c (λ _, True) es → parent_of (parent_index es) x y ↔ c_spine c x y.
Proof.
  intros Ht [_ Hes]. rewrite elem_of_parent_index. split.
  - intros (e & He & Hk & <- & <-). apply Hes in He as [He _]. exists (e_kind e). split; [done|]. by exists e.
  - intros (k & Hk & e & He). pose proof (proj2 (ms_ids t c Ht) _ _ He) as Hid. injection Hid as <- <- <-.
    exists e. split; [|done]. by apply Hes.
Qed.

Lemma canonical_reachable_spec t c repo all :
  ms_holds t c →
  ∃ r, canonical_reachable t repo all = Ok r ∧
       ∀ x, x ∈ r ↔ ∃ head, history_head t repo all = Some head ∧ rtc (c_spine c) head x.
Proof.
  intros Ht. unfold canonical_reachable, history_head. destruct (watermark t repo ≫= w_head) as [h|]; cbn [mbind option_bind].
  2:{ exists ∅. split; [done|]. intros x. split; [by intros ?%elem_of_empty|]. by intros (? & ? & _). }
  destruct (sha_index repo all !! h) as [id|] eqn:Hid.
  2:{ exists ∅. split; [done|]. intros x. split; [by intros ?%elem_of_empty|]. by intros (? & ? & _). }
  destruct (ms_all_edges_ok t c Ht) as (es & -> & Hes). cbn [rbind].
  destruct (walk_history es id) as (r & -> & Hr). exists r. split; [done|]. intros x. rewrite Hr. split.
  - intros Hx. exists id. split; [done|]. eapply rtc_subrel; [|done]. intros y z. by apply (spine_edges t).
  - intros (id' & [= <-] & Hx). eapply rtc_subrel; [|done]. intros y z. by apply (spine_edges t).
Qed.

(** ** In-flight commits *)

(** Held by a branch of the tenant, not in the history *)
Definition in_flight c repo (r : gset ContentHash) (x : ContentHash) : Prop :=
  x ∉ r ∧ ∃ b, c_nodes c !! compute_id b = Some b ∧ n_repo b = repo ∧ n_kind b = Branch ∧
               is_Some (c_edges c !! (compute_id b, x, BranchContains)).

Lemma label_edges_dom r name m es x :
  is_Some (foldl (label_edge r name) m es !! x) ↔
  is_Some (m !! x) ∨ (x ∉ r ∧ ∃ e, e ∈ es ∧ e_kind e = BranchContains ∧ e_to e = x).
Proof.
  revert m. induction es as [|e es IH]; intros m; simpl.
  { split; [by left|]. intros [|(_ & e & He & _)]; [done|]. by apply not_elem_of_nil in He. }
  rewrite IH. assert (is_Some (label_edge r name m e !! x) ↔ is_Some (m !! x) ∨ (x ∉ r ∧ e_kind e = BranchContains ∧ e_to e = x)) as ->.
  { unfold label_edge. case_bool_decide as Hk; simpl; [|split; [by left|intros [|(_ & ? & _)]; done]].
    case_bool_decide as Hr; simpl; [|split; [by left|intros [|(? & _ & <-)]; done]].
    destruct (m !! e_to e) as [b|] eqn:Hm.
    - split; [by left|]. intros [|(_ & _ & <-)]; [done|]. by rewrite Hm.
    - destruct (decide (e_to e = x)) as [<-|Hne].
      + rewrite lookup_insert_eq. split; [by right|]. intros _. by eexists.
      + rewrite lookup_insert_ne by done. split; [by left|]. by intros [|(_ & _ & ?)]. }
  split.
  - intros [[|(Hr & Hk & Hx)]|(Hr & e' & He' & Hk & Hx)]; [by left| |]; right; (split; [done|]).
    + exists e. split; [apply list_elem_of_here|done].
    + exists e'. split; [by apply list_elem_of_further|done].
  - intros [|(Hr & e' & He' & Hk & Hx)]; [by left; left|]. apply elem_of_cons in He' as [->|He']; [by left; right|].
    right. split; [done|]. by exists e'.
Qed.

Definition holds_branch c repo (want : bool) (b : MemoryNode) (x : ContentHash) : Prop :=
  n_repo b = repo ∧ n_kind b = Branch ∧ bool_decide (n_status b = Active) = want ∧
  is_Some (c_edges c !! (compute_id b, x, BranchContains)).

Lemma label_branches_dom t c repo r want m l :
  ms_holds t c →
  ∃ m', rfold (label_branch t repo r want) m l = Ok m' ∧
    ∀ x, is_Some (m' !! x) ↔ is_Some (m !! x) ∨ (x ∉ r ∧ ∃ b, b ∈ l ∧ holds_branch c repo want b x).
Proof.
  intros Ht. revert m. induction l as [|n l IH]; intros m; cbn [rfold].
  { exists m. split; [done|]. intros x. split; [by left|]. intros [|(_ & b & Hb & _)]; [done|]. by apply not_elem_of_nil in Hb. }
  assert (∃ m1, label_branch t repo r want m n = Ok m1 ∧
    ∀ x, is_Some (m1 !! x) ↔ is_Some (m !! x) ∨ (x ∉ r ∧ holds_branch c repo want n x)) as (m1 & -> & Hm1).
  { unfold label_branch, holds_branch. destruct (bool_decide _ && bool_decide _ && _) eqn:Hb.
    - apply andb_prop in Hb as [[->%bool_decide_eq_true Hk%bool_decide_eq_true]%andb_prop Hw%Bool.eqb_prop].
      destruct (ms_out_edges_ok t c (compute_id n) Ht) as (es & -> & _ & Hes). eexists. split; [done|]. intros x.
      rewrite label_edges_dom. split; (intros [|[Hr Hx]]; [by left|right; split; [done|]]).
      + destruct Hx as (e & He & Hke & <-). apply Hes in He as [He Hf]. split_and!; [done..|]. exists e. by rewrite <-He, <-Hke, <-Hf.
      + destruct Hx as (_ & _ & _ & e & He). pose proof (proj2 (ms_ids t c Ht) _ _ He) as Hid. injection Hid as Hf Hto Hke.
        exists e. split; [|done]. apply Hes. split; [|done]. unfold edge_ident. by rewrite Hf, Hto, Hke.
    - exists m. split; [done|]. intros x. split; [by left|]. intros [|(_ & Hrp & Hk & Hw & _)]; [done|].
      rewrite !bool_decide_eq_true_2, Hw, Bool.eqb_reflx in Hb by done. done. }
  cbn [rbind]. destruct (IH m1) as (m' & -> & Hm'). exists m'. split; [done|]. intros x. rewrite Hm', Hm1. split.
  - intros [[|(Hr & Hx)]|(Hr & b & Hb & Hx)]; [by left| |]; right; (split; [done|]).
    + exists n. split; [apply list_elem_of_here|done].
    + exists b. split; [by apply list_elem_of_further|done].
  - intros [|(Hr & b & Hb & Hx)]; [by left; left|]. apply elem_of_cons in Hb as [->|Hb]; [by left; right|].
    right. split; [done|]. by exists b.
Qed.

Lemma in_flight_map_spec t c repo all r :
  ms_holds t c → (∀ n, n ∈ all ↔ c_nodes c !! compute_id n = Some n) → canonical_reachable t repo all = Ok r →
  ∃ m, in_flight_map t repo all = Ok m ∧ ∀ x, is_Some (m !! x) ↔ in_flight c repo r x.
Proof.
  intros Ht Hall Hr. unfold in_flight_map. rewrite Hr. cbn [rbind rfold].
  destruct (label_branches_dom t c repo r true ∅ all Ht) as (m1 & -> & Hm1). cbn [rbind].
  destruct (label_branches_dom t c repo r false m1 all Ht) as (m2 & -> & Hm2). cbn [rbind].
  exists m2. split; [done|]. intros x. rewrite Hm2, Hm1, lookup_empty. unfold in_flight, holds_branch. split.
  - intros [[[? ?]|(Hx & b & Hb & Hrepo & Hk & _ & He)]|(Hx & b & Hb & Hrepo & Hk & _ & He)]; [done| |]; (split; [done|]);
      exists b; (split_and!; [by apply Hall|done..]).
  - intros (Hx & b & Hb & Hrepo & Hk & He). apply Hall in Hb. destruct (bool_decide (n_status b = Active)) eqn:Hw.
    + left. right. split; [done|]. by exists b.
    + right. split; [done|]. by exists b.
Qed.


(** ** Storylines *)

(** The content of a tenant that is not in flight *)
Definition canonical_content c repo r (n : MemoryNode) : Prop :=
  c_nodes c !! compute_id n = Some n ∧ n_repo n = repo ∧ is_reference n = false ∧ n_kind n ≠ Branch ∧
  ¬ in_flight c repo r (compute_id n).

Lemma tenant_scan_spec cfg t c repo :
  ms_holds t c →
  ∃ all r m, ms_all_nodes t = Ok all ∧ NoDup (compute_id <$> all) ∧ canonical_reachable t repo all = Ok r ∧
    (∀ n, n ∈ all ↔ c_nodes c !! compute_id n = Some n) ∧ (∀ x, is_Some (m !! x) ↔ in_flight c repo r x) ∧
    tenant_scan cfg t repo = Ok (filter (λ n, in_tenant cfg repo m n = true) all, m).
Proof.
  intros Ht. destruct (ms_all_nodes_ok t c Ht) as (all & Hall & Hnd & _ & Hin).
  destruct (canonical_reachable_spec t c repo all Ht) as (r & Hr & _).
  destruct (in_flight_map_spec t c repo all r Ht Hin Hr) as (m & Hm & Hmx). exists all, r, m.
  split_and!; [done..|]. unfold tenant_scan. rewrite Hall. cbn [rbind]. by rewrite Hm.
Qed.

Lemma in_tenant_iff cfg repo m n :
  in_tenant cfg repo m n = true ↔
  n_repo n = repo ∧ is_reference n = false ∧ n_kind n ≠ Branch ∧ (include_in_flight cfg = true ∨ m !! compute_id n = None).
Proof.
  unfold in_tenant. rewrite !andb_true_iff, !negb_true_iff, orb_true_iff, !bool_decide_eq_true, bool_decide_eq_false. tauto.
Qed.

Lemma newest_sorted l : NoDup (compute_id <$> l) → StronglySorted (key_lt newest_key) (sort_by_key newest_key l).
Proof.
  intros Hnd. assert (NoDup (compute_id <$> sort_by_key newest_key l)) as Hnd' by (by rewrite sort_by_key_perm).
  pose proof (sort_by_key_sorted newest_key l) as Hs. induction Hs as [|x k Hk IH Hx]; [constructor|].
  apply NoDup_cons in Hnd' as [Hni Hnd']. constructor; [by apply IH|]. rewrite Forall_forall in Hx |- *. intros y Hy.
  split; [by apply Hx|]. intros E. apply (f_equal snd) in E. simpl in E. apply Hni. rewrite E. by apply list_elem_of_fmap_2.
Qed.

Lemma NoDup_filter_ids (P : MemoryNode → Prop) `{∀ n, Decision (P n)} l : NoDup (compute_id <$> l) → NoDup (compute_id <$> filter P l).
Proof.
  induction l as [|n l IH]; intros Hnd; [done|]. apply NoDup_cons in Hnd as [Hni Hnd]. rewrite filter_cons.
  case_decide; [|by apply IH]. constructor; [|by apply IH]. intros (m & E & Hm)%list_elem_of_fmap. apply Hni.
  apply list_elem_of_filter in Hm as [_ Hm]. rewrite E. by apply list_elem_of_fmap_2.
Qed.

(** A storyline shows canonical truth only, and nothing else decides it: by
    default its items are the first [budget] of the tenant's content nodes that
    are neither placeholders, nor branch markers, nor in flight, newest first
    and ties by id, which is one order on every replica; none is labelled with
    a branch, and the total counts all of them, so a truncation is visible. *)
Theorem storyline_canonical cfg t c repo budget (Ht : ms_holds t c) (Hcfg : include_in_flight cfg = false) :
  ∃ all r res L, ms_all_nodes t = Ok all ∧ canonical_reachable t repo all = Ok r ∧ storyline cfg t repo budget = Ok res ∧
    StronglySorted (key_lt newest_key) L ∧ (∀ n, n ∈ L ↔ canonical_content c repo r n) ∧
    rr_items res = (λ n, from_node n None) <$> take budget L ∧ rr_total_in_tenant res = length L.
Proof.
  destruct (tenant_scan_spec cfg t c repo Ht) as (all & r & m & Hall & Hnd & Hr & Hin & Hm & Hscan).
  unfold storyline. rewrite Hscan. cbn [rbind]. set (ns := filter _ all) in *.
  assert (∀ n, n ∈ ns ↔ canonical_content c repo r n) as Hns.
  { intros n. unfold ns, canonical_content. rewrite list_elem_of_filter, in_tenant_iff, Hcfg, Hin, <-Hm, <-eq_None_not_Some.
    naive_solver. }
  eexists all, r, _, (sort_by_key newest_key ns). split_and!; [done|done|done| | | |].
  - by apply newest_sorted, NoDup_filter_ids.
  - intros n. by rewrite elem_of_sort_by_key.
  - simpl. apply list_fmap_ext. intros i n [Hj _]%lookup_take_Some.
    apply list_elem_of_lookup_2 in Hj. rewrite elem_of_sort_by_key, Hns in Hj. destruct Hj as (_ & _ & _ & _ & Hnf).
    rewrite <-Hm, <-eq_None_not_Some in Hnf. by rewrite Hnf.
  - simpl. by rewrite length_sort_by_key.
Qed.

(** ** Snapshots *)

Lemma elem_of_items x (l : list MemoryNode) :
  x ∈ ri_id <$> ((λ n, from_node n None) <$> l) ↔ ∃ n, n ∈ l ∧ compute_id n = x.
Proof.
  rewrite <-list_fmap_compose, list_elem_of_fmap. split; intros (n & Ha & Hb); exists n; [by split|by split].
Qed.

Lemma as_of_items cfg t repo T0 budget all m :
  tenant_scan cfg t repo = Ok (filter (λ n, in_tenant cfg repo m n = true) all, m) →
  ∃ res, as_of cfg t repo T0 budget = Ok res ∧
    rr_total_in_tenant res = length (filter (λ n, in_tenant cfg repo m n = true) all) ∧
    ((rr_total_in_tenant res ≤ budget)%nat → ∀ x, x ∈ ri_id <$> rr_items res ↔
       ∃ n, n ∈ all ∧ in_tenant cfg repo m n = true ∧ current_at cfg T0 n = true ∧ compute_id n = x).
Proof.
  intros Hscan. unfold as_of, tenant_nodes. rewrite Hscan. cbn [rmap rbind]. eexists. split; [done|]. simpl. split; [done|].
  intros Hb x. rewrite take_ge by (rewrite length_sort_by_key; etrans; [apply length_filter|done]). rewrite elem_of_items.
  setoid_rewrite elem_of_sort_by_key. setoid_rewrite list_elem_of_filter. setoid_rewrite list_elem_of_filter. naive_solver.
Qed.

(** A node list is determined by its elements once it is sorted by id. *)
Lemma sorted_ids_unique (l k : list MemoryNode) :
  NoDup (compute_id <$> l) → NoDup (compute_id <$> k) → StronglySorted (key_le compute_id) l →
  StronglySorted (key_le compute_id) k → (∀ n, n ∈ l ↔ n ∈ k) → l = k.
Proof.
  intros Hl Hk Hsl Hsk Hlk. eapply StronglySorted_unique_strong; [|exact Hsl|exact Hsk|].
  - intros x y Hx Hy Hxy Hyx. pose proof (ord_leb_antisym _ _ Hxy Hyx) as E.
    apply Hlk in Hx. apply list_elem_of_lookup in Hx as [i Hi], Hy as [j Hj].
    assert (i = j) as <-; [|congruence]. eapply (NoDup_lookup _ i j (compute_id x) Hk); rewrite list_lookup_fmap; [by rewrite Hi|].
    by rewrite Hj, E.
  - apply NoDup_Permutation; [by eapply NoDup_fmap_1|by eapply NoDup_fmap_1|done].
Qed.

Section retire.
Context (e : Edge) (target : MemoryNode) (c : conts).
Context (Hids : ∀ i n, c_nodes c !! i = Some n → compute_id n = i) (Htarget : c_nodes c !! e_to e = Some target).
Context (Hkind : e_kind e = Supersedes).

(** The node list after the transition *)
Definition retire (n : MemoryNode) : MemoryNode := if decide (n = target) then superseded_target e target else n.

Lemma retire_same n :
  compute_id (retire n) = compute_id n ∧ n_repo (retire n) = n_repo n ∧ n_kind (retire n) = n_kind n ∧
  n_source_ref (retire n) = n_source_ref n.
Proof. unfold retire. case_decide as E; [|done]. subst. split_and!; [|done..]. apply superseded_target_id. Qed.

Lemma retire_content n (c' := c_put_node (c_put_edge c e) (superseded_target e target)) :
  c_nodes c' !! compute_id n = Some n ↔ ∃ m, c_nodes c !! compute_id m = Some m ∧ retire m = n.
Proof using Hids Htarget.
  pose proof (Hids _ _ Htarget) as Hid. pose proof (superseded_target_id e target) as Hsid. unfold node_id, MemoryNode_identified in Hsid.
  unfold c', c_put_node, c_put_edge. cbn [c_nodes]. unfold node_id, MemoryNode_identified. rewrite Hsid, Hid. split.
  - rewrite lookup_insert. case_decide as E.
    + intros [= <-]. exists target. rewrite Hid. split; [done|]. unfold retire. by rewrite decide_True.
    + intros Hn. exists n. split; [done|]. unfold retire. rewrite decide_False; [done|]. intros ->. by apply E.
  - intros (m & Hm & <-). rewrite (proj1 (retire_same m)). unfold retire. case_decide as E.
    + subst m. by rewrite Hid, lookup_insert_eq.
    + rewrite lookup_insert_ne; [done|]. intros E'. rewrite <-E', Htarget in Hm. apply E. by injection Hm.
Qed.

Lemma sha_index_retire repo all : sha_index repo (retire <$> all) = sha_index repo all.
Proof.
  unfold sha_index. generalize (∅ : gmap string ContentHash). induction all as [|n all IH]; intros m; [done|]. simpl.
  destruct (retire_same n) as (-> & -> & -> & ->). apply IH.
Qed.

Abbreviation retired := (c_put_node (c_put_edge c e) (superseded_target e target)).

Lemma retire_edges x y k : k ≠ Supersedes → c_edges retired !! (x, y, k) = c_edges c !! (x, y, k).
Proof using Hkind.
  intros Hk. unfold c_put_node, c_put_edge. cbn [c_edges]. apply lookup_insert_ne. unfold edge_ident. rewrite Hkind. congruence.
Qed.

Lemma retire_spine x y : c_spine retired x y ↔ c_spine c x y.
Proof using Hkind.
  unfold c_spine. split; intros (k & Hk & He); exists k; (split; [done|]); [rewrite retire_edges in He|rewrite retire_edges]; try done;
    intros ->; done.
Qed.

Lemma retire_in_flight repo r x : in_flight retired repo r x ↔ in_flight c repo r x.
Proof using Hids Htarget Hkind.
  unfold in_flight. split; intros (Hx & b & Hb & Hrepo & Hk & He); (split; [done|]).
  - apply retire_content in Hb as (b' & Hb' & <-). destruct (retire_same b') as (Hi & Hr & Hkd & _). exists b'.
    rewrite retire_edges, Hi in He by done. rewrite Hr in Hrepo. rewrite Hkd in Hk. done.
  - exists (retire b). destruct (retire_same b) as (Hi & Hr & Hkd & _). rewrite retire_edges by done. rewrite Hr, Hkd.
    split_and!; [apply retire_content; by exists b|done|done|]. by rewrite Hi.
Qed.
End retire.

Lemma watermark_determined t t' c c' repo :
  ms_holds t c → ms_holds t' c' → c_meta c = c_meta c' → watermark t repo = watermark t' repo.
Proof.
  intros Ht Ht' Hm. unfold watermark, read_watermark. by rewrite (ms_get_meta_ok t c), (ms_get_meta_ok t' c'), Hm by done.
Qed.

(** The tenant's scan across a supersession *)
Lemma tenant_scan_retire cfg t t' c e target repo :
  ms_holds t c → ms_holds t' (c_put_node (c_put_edge c e) (superseded_target e target)) → c_nodes c !! e_to e = Some target →
  e_kind e = Supersedes →
  ∃ all m m', (∀ n, n ∈ all → c_nodes c !! compute_id n = Some n) ∧ target ∈ all ∧
    tenant_scan cfg t repo = Ok (filter (λ n, in_tenant cfg repo m n = true) all, m) ∧
    tenant_scan cfg t' repo = Ok (filter (λ n, in_tenant cfg repo m' n = true) (retire e target <$> all), m') ∧
    (∀ n, in_tenant cfg repo m' (retire e target n) = in_tenant cfg repo m n).
Proof.
  intros Ht Ht' Htg Hk. assert (∀ i n, c_nodes c !! i = Some n → compute_id n = i) as Hids
    by (intros i n Hn; by apply (proj1 (ms_ids t c Ht))).
  destruct (ms_all_nodes_ok t c Ht) as (all & Hall & Hnd & Hso & Hin).
  destruct (ms_all_nodes_ok t' _ Ht') as (all' & Hall' & Hnd' & Hso' & Hin').
  assert (all' = retire e target <$> all) as ->.
  { assert (compute_id <$> (retire e target <$> all) = compute_id <$> all) as Hids'.
    { rewrite <-list_fmap_compose. apply list_fmap_ext. intros i n _. apply (retire_same e target n). }
    apply sorted_ids_unique; [done|by rewrite Hids'|done| |].
    - clear -Hso. induction Hso as [|n l Hl IH Hn]; [constructor|]. simpl. constructor; [done|].
      apply Forall_fmap. eapply Forall_impl; [exact Hn|]. intros y. unfold key_le. simpl.
      by rewrite (proj1 (retire_same e target n)), (proj1 (retire_same e target y)).
    - intros n. rewrite Hin', (retire_content e target c Hids Htg), list_elem_of_fmap. split.
      + intros (k & Hk' & <-). exists k. split; [done|]. by apply Hin.
      + intros (k & -> & Hk'). exists k. split; [by apply Hin|done]. }
  destruct (canonical_reachable_spec t c repo all Ht) as (r & Hr & Hrx).
  destruct (canonical_reachable_spec t' _ repo (retire e target <$> all) Ht') as (r' & Hr' & Hrx').
  assert (r' = r) as ->.
  { apply set_eq. intros x. rewrite Hrx, Hrx'. unfold history_head. rewrite (watermark_determined t' t _ c) by done.
    rewrite sha_index_retire. split; intros (h & Hh & Hx); exists h; (split; [done|]); (eapply rtc_subrel; [|exact Hx]);
      intros y z; by apply retire_spine. }
  destruct (in_flight_map_spec t c repo all r Ht Hin Hr) as (m & Hm & Hmx).
  destruct (in_flight_map_spec t' _ repo _ r Ht' Hin' Hr') as (m' & Hm' & Hmx').
  exists all, m, m'. split_and!.
  - intros n. apply Hin.
  - apply Hin. by rewrite (Hids _ _ Htg).
  - unfold tenant_scan. rewrite Hall. cbn [rbind]. by rewrite Hm.
  - unfold tenant_scan. rewrite Hall'. cbn [rbind]. by rewrite Hm'.
  - intros n. apply Bool.eq_iff_eq_true. rewrite !in_tenant_iff. unfold is_reference.
    destruct (retire_same e target n) as (-> & -> & -> & ->). rewrite !eq_None_not_Some, Hmx, Hmx'.
    by rewrite retire_in_flight.
Qed.

(** Supersession ends a node's snapshots from its time on, and touches no
    other node and no earlier time: when an active node that has no end of
    validity is superseded, the as-of snapshot of any tenant at time [T0],
    with or without the asserted plane and the in-flight layer, shows
    afterwards exactly the nodes it showed before, except that the target is
    gone from every [T0] at or after the edge's time (its own start of
    validity, if that is later). *)
Theorem as_of_supersession cfg t c e t' repo T0 budget (Ht : ms_holds t c)
    (Hsup : ms_apply_supersession e t = (t', Ok {| transitioned := true |}))
    (Hopen : ∀ n, c_nodes c !! e_to e = Some n → n_valid_to n = None)
    (Hbudget : ∀ res, as_of cfg t repo T0 budget = Ok res → (rr_total_in_tenant res ≤ budget)%nat) :
  ∃ target res res', c_nodes c !! e_to e = Some target ∧
    as_of cfg t repo T0 budget = Ok res ∧ as_of cfg t' repo T0 budget = Ok res' ∧
    rr_total_in_tenant res' = rr_total_in_tenant res ∧
    ∀ x, x ∈ ri_id <$> rr_items res' ↔
      x ∈ ri_id <$> rr_items res ∧ (x = e_to e → T0 < Z.max (p_at (e_provenance e)) (n_valid_from target)).
Proof.
  destruct (ms_supersede_ok t c e Ht) as (t1 & r & Hr & _ & Hres). rewrite Hsup in Hr. injection Hr as <- <-.
  destruct Hres as [(c' & Hstep & Ht')|(err & ? & _)]; [|done].
  inversion Hstep as [| | | | | | |target Hg _ Htg _ _ Htr]; subst.
  unfold c_supersede in Ht'. rewrite Htr in Ht'.
  destruct (tenant_scan_retire cfg t t' c e target repo Ht Ht' Htg (proj1 Hg)) as (all & m & m' & Hin & Hta & Hs & Hs' & Hten).
  destruct (as_of_items cfg t repo T0 budget _ _ Hs) as (res & Hres & Htot & Hit).
  destruct (as_of_items cfg t' repo T0 budget _ _ Hs') as (res' & Hres' & Htot' & Hit').
  assert (rr_total_in_tenant res' = rr_total_in_tenant res) as Heq.
  { rewrite Htot, Htot'. clear -Hten. induction all as [|n all IH]; [done|]. cbn [fmap list_fmap]. rewrite !filter_cons, Hten.
    case_decide; simpl; congruence. }
  specialize (Hbudget res Hres). specialize (Hit Hbudget). rewrite <-Heq in Hbudget. specialize (Hit' Hbudget).
  assert (compute_id target = e_to e) as Hid by (by apply (proj1 (ms_ids t c Ht))).
  exists target, res, res'. split_and!; [done..|]. intros x. rewrite Hit, Hit'. split.
  - intros (n' & (n & -> & Hn)%list_elem_of_fmap & Hnt & Hcur & Hx). rewrite Hten in Hnt.
    rewrite (proj1 (retire_same e target n)) in Hx. unfold retire in Hcur. case_decide as E.
    + subst n. unfold current_at in Hcur. cbn in Hcur. apply andb_prop in Hcur as [Hpv Hvt]. apply Z.ltb_lt in Hvt.
      split; [|done]. exists target. split_and!; [done|done| |done]. unfold current_at. by rewrite (Hopen _ Htg), Hpv.
    + split; [by exists n|]. intros ->. destruct E. rewrite <-Hid in Hx. pose proof (Hin n Hn) as Hl. rewrite Hx, Hid, Htg in Hl. congruence.
  - intros ((n & Hn & Hnt & Hcur & Hx) & Hlt). exists (retire e target n).
    rewrite Hten, (proj1 (retire_same e target n)). split_and!; [by apply list_elem_of_fmap_2|done| |done].
    unfold retire. destruct (decide (n = target)) as [->|_]; [|done]. rewrite Hid in Hx. specialize (Hlt (eq_sym Hx)).
    unfold current_at in *. cbn. rewrite (Hopen _ Htg) in Hcur. rewrite andb_true_r in Hcur. rewrite Hcur. simpl. by apply Z.ltb_lt.
Qed.

(** ** Neighbourhoods *)

(** What a reader sees of one adjacent edge *)
Definition show c (can_read : string → bool) (x : ContentHash * Edge * Direction) : option NeighborItem :=
  match c_nodes c !! x.1.1 with
  | Some n => if can_read (n_repo n) then Some (neighbor x.1.2 x.2 (Some n)) else None
  | None => Some (neighbor x.1.2 x.2 None)
  end.

Lemma readable_loop_spec t c budget can_read out es :
  ms_holds t c → (length out ≤ budget)%nat →
  readable_loop t budget can_read out es = Ok (take budget (out ++ omap (show c can_read) es)).
Proof.
  intros Ht. revert out. induction es as [|[[far e] d] es IH]; intros out Hout; cbn [readable_loop omap list_omap].
  { by rewrite app_nil_r, take_ge. }
  case_bool_decide as Hb.
  { rewrite take_app_le, take_ge by lia. done. }
  rewrite (ms_get_node_ok t c) by done. cbn [rbind]. unfold show at 1. cbn [fst snd].
  destruct (c_nodes c !! far) as [n|]; [destruct (can_read (n_repo n)); cbn [negb]|].
  all: rewrite IH by (rewrite ?length_app; simpl; lia); by rewrite <-?app_assoc.
Qed.

(** The neighbourhood shown to a caller leaks no tenant the caller cannot
    read: it is computed as if the edges to unreadable nodes were not there,
    so they neither appear nor use up the budget; it is the first [budget] of
    what remains, the edges leaving the node before those entering it, each
    shown with its kind, direction and proposal flag; every node in it is in a
    readable tenant; and an edge whose far node is absent is kept without a node. *)
Theorem neighbors_readable_confined t c id budget can_read (Ht : ms_holds t c) :
  ∃ outs ins items, lists_edges c (λ e, e_from e = id) outs ∧ lists_edges c (λ e, e_to e = id) ins ∧
    neighbors_readable t id budget can_read = Ok items ∧
    items = take budget (omap (show c can_read)
              (((λ e, (e_to e, e, Out)) <$> outs) ++ ((λ e, (e_from e, e, In_)) <$> ins))) ∧
    ∀ i n, i ∈ items → ni_node i = Some n → can_read (ri_repo n) = true.
Proof.
  destruct (ms_out_edges_ok t c id Ht) as (outs & Ho & Houts). destruct (ms_in_edges_ok t c id Ht) as (ins & Hi & Hins).
  exists outs, ins. eexists. split_and!; [done|done| |reflexivity|].
  - unfold neighbors_readable. rewrite Ho. cbn [rbind]. rewrite Hi. cbn [rbind].
    rewrite (readable_loop_spec t c) by (done || simpl; lia). done.
  - intros i n Hit Hn. apply list_elem_of_lookup in Hit as [j [Hj _]%lookup_take_Some].
    apply list_elem_of_lookup_2, list_elem_of_omap in Hj as ([[far e] d] & _ & Hsh). unfold show in Hsh. cbn [fst snd] in Hsh.
    destruct (c_nodes c !! far) as [m|].
    + destruct (can_read (n_repo m)) eqn:Hc; [|done]. injection Hsh as <-. injection Hn as <-. exact Hc.
    + injection Hsh as <-. discriminate Hn.
Qed.

(** ** Verification of a node *)

(** Something visible and load-bearing overrides the node. *)
Definition disputes (k : EdgeKind) : Prop := k = Supersedes ∨ k = Refutes ∨ k = Contradicts.
Definition disputed c (visible : option string → bool) (id : ContentHash) : Prop :=
  ∃ x k e, disputes k ∧ c_edges c !! (x, id, k) = Some e ∧ e_quarantined e = false ∧
           visible (n_repo <$> c_nodes c !! x) = true.

(** Whether an incoming edge goes to one of the two lists *)
Definition counts c (visible : option string → bool) (e : Edge) : Prop :=
  e_quarantined e = false ∧ disputes (e_kind e) ∧ visible (n_repo <$> c_nodes c !! e_from e) = true.

Lemma verify_edges_spec t c visible st es :
  ms_holds t c →
  ∃ st', rfold (verify_edge_in t visible) st es = Ok st' ∧
    (st'.1 = [] ∧ st'.2 = [] ↔ (st.1 = [] ∧ st.2 = []) ∧ ∀ e, e ∈ es → ¬ counts c visible e).
Proof.
  intros Ht. revert st. induction es as [|e es IH]; intros st; cbn [rfold].
  { exists st. split; [done|]. split; [|by intros [? _]]. intros Hst. split; [done|]. by intros e ?%not_elem_of_nil. }
  assert (∃ st1, verify_edge_in t visible st e = Ok st1 ∧
    (st1.1 = [] ∧ st1.2 = [] ↔ (st.1 = [] ∧ st.2 = []) ∧ ¬ counts c visible e)) as (st1 & -> & Hst1).
  { unfold verify_edge_in, counts, disputes. destruct (e_quarantined e) eqn:Hq; [eexists; split; [done|]; naive_solver|].
    rewrite (ms_get_node_ok t c) by done. cbn [rbind].
    destruct (visible (n_repo <$> c_nodes c !! e_from e)) eqn:Hv; cbn [negb]; [|eexists; split; [done|]; naive_solver].
    destruct (e_kind e); eexists; (split; [reflexivity|]); simpl; split; intros Hx;
      try (destruct Hx as [Hx1 Hx2]); try (by destruct (app_cons_not_nil _ _ _ (eq_sym Hx1)) || by destruct (app_cons_not_nil _ _ _ (eq_sym Hx2)));
      try (exfalso; apply Hx2; by auto); try done; (split; [done|]); intros (_ & [?|[?|?]] & _); done. }
  cbn [rbind]. destruct (IH st1) as (st' & -> & Hst'). exists st'. split; [done|]. rewrite Hst', Hst1. split.
  - intros [[Hs He] Hes]. split; [done|]. intros x [->|Hx]%elem_of_cons; auto.
  - intros [Hs Hes]. split; [split; [done|]|].
    + apply Hes, list_elem_of_here.
    + intros x Hx. by apply Hes, list_elem_of_further.
Qed.

(** What "safe to act on" means: for a stored node, [verify] (for a caller:
    as far as that caller can see) calls it trustworthy exactly when it is
    derived, or asserted under a signature that verifies; its status is active;
    its confidence records no contradiction; and no visible load-bearing edge
    supersedes, refutes or contradicts it.  Proposals never count, in either
    direction. *)
Theorem trustworthy_iff t c id n visible (Ht : ms_holds t c) (Hn : c_nodes c !! id = Some n) :
  ∃ v, verify_where t id visible = Ok (Some v) ∧
    (is_trustworthy v = true ↔
       (n_plane n = Derived ∨ verify_node n = Ok tt) ∧ n_status n = Active ∧ Both ∉ n_confidence n ∧ ¬ disputed c visible id).
Proof.
  unfold verify_where. rewrite (ms_get_node_ok t c), Hn by done. cbn [rbind].
  destruct (ms_in_edges_ok t c id Ht) as (es & -> & _ & Hes). cbn [rbind].
  destruct (verify_edges_spec t c visible ([], []) es Ht) as (st & -> & Hst). cbn [rbind]. eexists. split; [reflexivity|].
  assert (st.1 = [] ∧ st.2 = [] ↔ ¬ disputed c visible id) as Hdis.
  { rewrite Hst. simpl. split.
    - intros [_ Hno] (x & k & e & Hk & He & Hq & Hv). pose proof (proj2 (ms_ids t c Ht) _ _ He) as Hid. injection Hid as <- Hto <-.
      apply (Hno e); [apply Hes; split; [|done]; unfold edge_ident; by rewrite Hto|done].
    - intros Hno. split; [done|]. intros e [He <-]%Hes (Hq & Hk & Hv). apply Hno. by exists (e_from e), (e_kind e), e. }
  assert (match signature_status n with NotApplicableDerived | Valid => true | _ => false end = true ↔
          n_plane n = Derived ∨ verify_node n = Ok tt) as Hsig.
  { unfold signature_status. destruct (n_plane n) eqn:Hp; [naive_solver|]. destruct (verify_node n) as [[]|x]; [naive_solver|].
    split; [by destruct x|]. by intros [|]. }
  assert (existsb is_both (n_confidence n) = false ↔ Both ∉ n_confidence n) as Hboth.
  { rewrite <-not_true_iff_false, existsb_exists. split; intros Hx Hy; apply Hx.
    - exists Both. split; [by apply list_elem_of_In|done].
    - destruct Hy as (v & Hv & ->%bool_decide_eq_true). by apply list_elem_of_In. }
  unfold is_trustworthy. cbn [v_signature v_superseded_by v_refuted_by v_contradicted v_item from_node ri_status].
  rewrite !andb_true_iff, negb_true_iff, !bool_decide_eq_true, Hsig, Hboth, <-Hdis. tauto.
Qed.

(** ** Prefixes *)

(** A prefix resolves to the one visible node it matches; what a caller cannot
    see neither matches nor makes it ambiguous. *)
Lemma resolve_loop_spec prefix visible found all x :
  resolve_loop prefix visible found all = Some x ↔
    let hits := filter (λ n, visible n = true ∧ String.prefix prefix (to_hex (compute_id n)) = true) all in
    match found with
    | Some y => x = y ∧ hits = []
    | None => compute_id <$> hits = [x]
    end.
Proof.
  revert found. induction all as [|n all IH]; intros found; cbn [resolve_loop].
  { destruct found; simpl; split; naive_solver. }
  rewrite filter_cons. destruct (visible n) eqn:Hv; cbn [negb].
  2:{ rewrite IH, decide_False by naive_solver. done. }
  destruct (String.prefix prefix _) eqn:Hp.
  2:{ rewrite IH, decide_False by naive_solver. done. }
  rewrite decide_True by done. destruct found as [y|].
  - split; [done|]. by intros [_ ?].
  - rewrite IH. cbn [fmap list_fmap]. split.
    + intros [-> ->]. done.
    + intros Hx. injection Hx as <- Hx. split; [done|]. by apply fmap_nil_inv in Hx.
Qed.

Lemma resolve_prefix_where_spec t c prefix visible :
  ms_holds t c → ∃ o, resolve_prefix_where t prefix visible = Ok o ∧
    ∀ x, o = Some x ↔ (∃ n, c_nodes c !! x = Some n ∧ visible n = true ∧ String.prefix prefix (to_hex x) = true) ∧
      ∀ y n, c_nodes c !! y = Some n → visible n = true → String.prefix prefix (to_hex y) = true → y = x.
Proof.
  intros Ht. destruct (ms_all_nodes_ok t c Ht) as (all & Hall & Hnd & _ & Hin). unfold resolve_prefix_where. rewrite Hall.
  eexists. split; [done|]. intros x. rewrite resolve_loop_spec. cbn zeta. set (hits := filter _ all).
  assert (∀ y n, c_nodes c !! y = Some n → visible n = true → String.prefix prefix (to_hex y) = true → n ∈ hits ∧ compute_id n = y) as Hhit.
  { intros y n Hn Hv Hp. destruct (proj1 (ms_ids t c Ht) _ _ Hn) as [<- _]. split; [|done]. apply list_elem_of_filter. split; [done|]. by apply Hin. }
  assert (∀ n, n ∈ hits → c_nodes c !! compute_id n = Some n ∧ visible n = true ∧ String.prefix prefix (to_hex (compute_id n)) = true) as Hhit'.
  { intros n [[Hv Hp] Hn]%list_elem_of_filter. apply Hin in Hn. done. }
  split.
  - intros Hx. split.
    + assert (x ∈ compute_id <$> hits) as (n & -> & Hn)%list_elem_of_fmap by (rewrite Hx; apply list_elem_of_here). exists n. by apply Hhit'.
    + intros y n Hn Hv Hp. destruct (Hhit y n Hn Hv Hp) as [Hh <-]. apply list_elem_of_singleton. rewrite <-Hx. by apply list_elem_of_fmap_2.
  - intros [(n & Hn & Hv & Hp) Huniq]. destruct (Hhit x n Hn Hv Hp) as [Hh Hx].
    assert (NoDup (compute_id <$> hits)) as Hndh by (by apply NoDup_filter_ids).
    assert (∀ y, y ∈ compute_id <$> hits → y = x) as Hall1.
    { intros y (k & -> & Hk)%list_elem_of_fmap. destruct (Hhit' k Hk) as (Hk1 & Hk2 & Hk3). by eapply Huniq. }
    assert (x ∈ compute_id <$> hits) as Hxin by (rewrite <-Hx; by apply list_elem_of_fmap_2).
    destruct (compute_id <$> hits) as [|y [|z l]]; [by apply not_elem_of_nil in Hxin|f_equal; apply Hall1, list_elem_of_here|].
    exfalso. apply NoDup_cons in Hndh as [Hni _]. apply Hni.
    rewrite (Hall1 y) by apply list_elem_of_here. rewrite (Hall1 z) by apply list_elem_of_further, list_elem_of_here. apply list_elem_of_here.
Qed.
End recall.
