(* ===== verification/Search.v ===== *)
(** * Ranked reads ([mem-query/src/lib.rs])

    Semantic search over a tenant, exact or through the shared cache of approximate
    indexes, and cross-tenant analogies.  Where the code calls [slice::sort_by] with a
    comparison that need not be a total order, or indexes into the graph, the result is
    an [option]: [None] is a panic. *)

From S2P Require Import Prelude Bytes Externs Text Str Belnap Identity Node Float Edge Kv Shred Store StoreContents Supersession.
From S2P Require Import StoreInterface Assert Index Hnsw Query.

(** The dimension of the default embedder ([mem-ingest/src/lib.rs]) *)
Definition EMBED_DIM : nat := 256.

Definition usize_succ (n : Z) : Z := (n + 1) mod 2 ^ 64.

(** ** The cache *)

Record CachedTenantIndex := {
  ct_watermark : option Watermark;
  ct_node_count : nat;
  ct_tenant_total : nat;
  ct_index : HnswIndex;
}.

(** The mutex-protected map and the two counters; [tc_poisoned] once a holder of the
    lock has panicked *)
Record TenantIndexCache := {
  tc_entries : gmap string CachedTenantIndex;
  tc_poisoned : bool;
  tc_builds : Z;
  tc_hits : Z;
}.
Definition TenantIndexCache_new : TenantIndexCache :=
  {| tc_entries := ∅; tc_poisoned := false; tc_builds := 0; tc_hits := 0 |}.

(** A result that may be a panic *)
Abbreviation outcome A := (option (result StoreError A)).

Definition get_or_build (self : TenantIndexCache) (repo : string) (watermark : option Watermark) (node_count : nat)
    (build : outcome (HnswIndex * nat)) : TenantIndexCache * outcome (HnswIndex * nat) :=
  if tc_poisoned self then (self, Some (Err (Backend "tenant index cache poisoned")))
  else
    let rebuild :=
      match build with
      | None => ({| tc_entries := tc_entries self; tc_poisoned := true; tc_builds := tc_builds self; tc_hits := tc_hits self |}, None)
      | Some (Err e) => (self, Some (Err e))
      | Some (Ok (index, tenant_total)) =>
        ({| tc_entries := <[repo := {| ct_watermark := watermark; ct_node_count := node_count;
                                       ct_tenant_total := tenant_total; ct_index := index |}]> (tc_entries self);
            tc_poisoned := false; tc_builds := usize_succ (tc_builds self); tc_hits := tc_hits self |},
         Some (Ok (index, tenant_total)))
      end in
    match tc_entries self !! repo with
    | Some e =>
      if bool_decide (ct_watermark e = watermark) && bool_decide (ct_node_count e = node_count) then
        ({| tc_entries := tc_entries self; tc_poisoned := false; tc_builds := tc_builds self; tc_hits := usize_succ (tc_hits self) |},
         Some (Ok (ct_index e, ct_tenant_total e)))
      else rebuild
    | None => rebuild
    end.

(** ** Analogies *)

Record AnalogyCandidate := { ac_item : RecallItem; ac_cosine : f32; ac_structural : f32; ac_score : f32 }.

Definition ANALOGY_COSINE_WEIGHT : f32 := F32 0x3f333333.
Definition ANALOGY_STRUCTURAL_WEIGHT : f32 := F32 0x3e99999a.
Definition ANALOGY_SHORTLIST_FACTOR : nat := 4.

(** A multiset of (direction, edge kind) *)
Abbreviation signature := (gmap (Z * Z) nat).
Definition count_edge (d : Z) (sig : signature) (e : Edge) : signature :=
  if e_quarantined e then sig
  else let k := (d, EdgeKind_tag (e_kind e)) in <[k := S (default O (sig !! k))]> sig.

Definition sig_inter (a b : signature) (k : Z * Z) : nat := Nat.min (default O (a !! k)) (default O (b !! k)).
Definition sig_union (a b : signature) (k : Z * Z) : nat := Nat.max (default O (a !! k)) (default O (b !! k)).
Definition sig_keys (a b : signature) : list (Z * Z) := elements (dom a ∪ dom b).
Definition inter_count (a b : signature) : nat := sum_list (sig_inter a b <$> sig_keys a b).
Definition union_count (a b : signature) : nat := sum_list (sig_union a b <$> sig_keys a b).

Section search.
Context {T : Type} `{MemStore T, Blake3, Hex, Ed25519, Serde Watermark, Unicode, FloatNan, Ln, SliceSort}.

Definition default_embedder : Embedder := HashingEmbedder_new EMBED_DIM.

(** The exact index of the embedded nodes and the nodes it accepted, by id *)
Definition index_node (st : BruteForceIndex * gmap ContentHash MemoryNode) (n : MemoryNode)
    : BruteForceIndex * gmap ContentHash MemoryNode :=
  match n_embedding n with
  | None => st
  | Some v =>
    match bf_add st.1 (compute_id n) v with
    | Ok idx => (idx, <[compute_id n := n]> st.2)
    | Err _ => st
    end
  end.
Definition index_nodes (nodes : list MemoryNode) : BruteForceIndex * gmap ContentHash MemoryNode :=
  foldl index_node (BruteForceIndex_new, ∅) nodes.

Definition embed_query (em : Embedder) (query : string) : result StoreError VersionedVector :=
  map_err (λ e, Backend (EmbedError_display e)) (em_embed em query).

(** [.unwrap_or_default()]: a rejected query has no hits *)
Definition hits_or_default {E} (o : option (result E (list Neighbor))) : option (list Neighbor) :=
  (λ r, match r with Ok hits => hits | Err _ => [] end) <$> o.

Definition search_brute (cfg : recall_cfg) (em : Embedder) (t : T) (repo query : string) (budget : nat) : outcome RecallResult :=
  match tenant_scan cfg t repo with
  | Err e => Some (Err e)
  | Ok (nodes, in_flight) =>
    let '(index, by_id) := index_nodes nodes in
    match embed_query em query with
    | Err e => Some (Err e)
    | Ok q =>
      hits ← hits_or_default (bf_search index q budget);
      let items := omap (λ nb, (λ n, set_branch (in_flight !! nb_id nb) (from_node n (Some (nb_score nb)))) <$> by_id !! nb_id nb) hits in
      Some (Ok {| rr_repo := repo; rr_watermark := watermark t repo; rr_total_in_tenant := length nodes; rr_items := items |})
    end
  end.

(** The index a cache entry holds: every embedded node, those of another model skipped *)
Definition hnsw_node (o : option HnswIndex) (n : MemoryNode) : option HnswIndex :=
  idx ← o;
  match n_embedding n with
  | None => Some idx
  | Some v => r ← hx_add idx (compute_id n) v; Some match r with Ok idx' => idx' | Err _ => idx end
  end.
Definition build_index (cfg : recall_cfg) (t : T) (repo : string) : outcome (HnswIndex * nat) :=
  match tenant_nodes cfg t repo with
  | Err e => Some (Err e)
  | Ok nodes => (λ idx, Ok (idx, length nodes)) <$> foldl hnsw_node (Some HnswIndex_new) nodes
  end.

(** The point reads of the hits *)
Definition read_hit (t : T) (items : list RecallItem) (nb : Neighbor) : result StoreError (list RecallItem) :=
  let? o := ms_get_node t (nb_id nb) in
  Ok (match o with Some n => items ++ [from_node n (Some (nb_score nb))] | None => items end).

Definition search_cached (cfg : recall_cfg) (em : Embedder) (cache : TenantIndexCache) (t : T) (repo query : string) (budget : nat)
    : TenantIndexCache * outcome RecallResult :=
  let wm := watermark t repo in
  match ms_node_count t with
  | Err e => (cache, Some (Err e))
  | Ok node_count =>
    let '(cache', o) := get_or_build cache repo wm node_count (build_index cfg t repo) in
    (cache',
     r ← o;
     match r with
     | Err e => Some (Err e)
     | Ok (index, total) =>
       match embed_query em query with
       | Err e => Some (Err e)
       | Ok q =>
         hits ← hits_or_default (hx_search index q budget);
         Some (let? items := rfold (read_hit t) [] hits in
               Ok {| rr_repo := repo; rr_watermark := wm; rr_total_in_tenant := total; rr_items := items |})
       end
     end)
  end.

(** [Recall::search]: the cache holds canonical nodes only, so a query for in-flight work
    takes the exact path *)
Definition search (cfg : recall_cfg) (em : Embedder) (cache : option TenantIndexCache) (t : T) (repo query : string) (budget : nat)
    : option TenantIndexCache * outcome RecallResult :=
  match cache with
  | Some c =>
    if negb (include_in_flight cfg) then
      let '(c', o) := search_cached cfg em c t repo query budget in (Some c', o)
    else (cache, search_brute cfg em t repo query budget)
  | None => (cache, search_brute cfg em t repo query budget)
  end.

(** *** Analogies *)

Definition edge_signature (t : T) (id : ContentHash) : result StoreError signature :=
  let? outs := ms_out_edges t id in
  let? ins := ms_in_edges t id in
  Ok (foldl (count_edge 1) (foldl (count_edge 0) ∅ outs) ins).

Definition signature_overlap (a b : signature) : f32 :=
  if bool_decide (union_count a b = O) then f32_zero
  else fdiv (spec_bits (f32_of_nat (inter_count a b))) (spec_bits (f32_of_nat (union_count a b))).

(** The coarse pass: cosine to the anchor of every comparable node of the candidate tenants *)
Definition shortlist_node (anchor : MemoryNode) (av : VersionedVector) (anchor_norm : f32) (candidate_repos : list string)
    (n : MemoryNode) : option (f32 * MemoryNode) :=
  if bool_decide (n_repo n = n_repo anchor) || negb (bool_decide (n_repo n ∈ candidate_repos)) || is_reference n then None
  else match n_embedding n with
       | None => None
       | Some v =>
         if negb (bool_decide (vv_model v = vv_model av)) then None
         else
           let d := dot (vv_data v) (vv_data av) in
           let nrm := norm (vv_data v) in
           if f32_is_zero nrm then None else Some (fdiv d (fmul nrm anchor_norm), n)
       end.

Definition shortlist_key (p : f32 * MemoryNode) : Z * ContentHash := (- total_key p.1, compute_id p.2).
Definition candidate_key (c : AnalogyCandidate) : Z * ContentHash := (- total_key (ac_score c), ri_id (ac_item c)).

Definition vet_candidate (t : T) (anchor_sig : signature) (out : list AnalogyCandidate) (p : f32 * MemoryNode)
    : result StoreError (list AnalogyCandidate) :=
  let? sig := edge_signature t (compute_id p.2) in
  let structural := signature_overlap anchor_sig sig in
  Ok (out ++ [{| ac_item := from_node p.2 None; ac_cosine := p.1; ac_structural := structural;
                 ac_score := fadd (fmul ANALOGY_COSINE_WEIGHT p.1) (fmul ANALOGY_STRUCTURAL_WEIGHT structural) |}]).

Definition analogies (t : T) (anchor_id : ContentHash) (candidate_repos : list string) (budget : nat)
    : result StoreError (list AnalogyCandidate) :=
  let? o := ms_get_node t anchor_id in
  match o with
  | None => Err (Backend "analogy anchor not in store")
  | Some anchor =>
    match n_embedding anchor with
    | None => Ok []
    | Some av =>
      let anchor_norm := norm (vv_data av) in
      if f32_is_zero anchor_norm then Ok []
      else
        let? all := ms_all_nodes t in
        let shortlist := omap (shortlist_node anchor av anchor_norm candidate_repos) all in
        let shortlist := take (Nat.max (budget * ANALOGY_SHORTLIST_FACTOR) budget) (sort_by_key shortlist_key shortlist) in
        let? anchor_sig := edge_signature t anchor_id in
        let? out := rfold (vet_candidate t anchor_sig) [] shortlist in
        Ok (take budget (sort_by_key candidate_key out))
    end
  end.
End search.
