(* ===== verification/SearchProps.v ===== *)
(** * Ranked reads are exact, confined and cached transparently

    [search_brute_exact] characterises the exact search, [search_cached_answers] and
    [search_cached_transparent] the cached one, [analogies_confined] the analogies. *)

From S2P Require Import Prelude Bytes Externs Text Str Belnap Identity Node Float Edge Kv Shred Store StoreContents Supersession.
From S2P Require Import StoreInterface Assert Index Hnsw HnswProps Query QueryProps Search.

(** ** The space of a tenant *)

(** The model and dimension of a node's vector, when the exact index can take it *)
Definition node_space (n : MemoryNode) : option (string * nat) :=
  match n_embedding n with
  | Some v => if forallb f32_is_finite (vv_data v) then Some (vv_model v, length (vv_data v)) else None
  | None => None
  end.

(** The first such node fixes the space of the tenant's index. *)
Definition tenant_space (nodes : list MemoryNode) : option (string * nat) := head (omap node_space nodes).

Definition node_data (n : MemoryNode) : list f32 := default [] (vv_data <$> n_embedding n).

(** The nodes the index holds *)
Definition indexed (nodes : list MemoryNode) : list MemoryNode :=
  filter (λ n, is_Some (node_space n) ∧ node_space n = tenant_space nodes) nodes.

Lemma tenant_space_snoc nodes n :
  tenant_space (nodes ++ [n]) = match tenant_space nodes with Some s => Some s | None => node_space n end.
Proof.
  unfold tenant_space. rewrite omap_app. destruct (omap node_space nodes); [|done]. simpl. by destruct (node_space n).
Qed.

Lemma tenant_space_none nodes n : tenant_space nodes = None → n ∈ nodes → node_space n = None.
Proof.
  unfold tenant_space. intros Hn Hin. destruct (node_space n) as [s|] eqn:Hs; [|done].
  assert (s ∈ omap node_space nodes) as Ho by (apply list_elem_of_omap; eauto).
  destruct (omap node_space nodes); [by apply not_elem_of_nil in Ho|done].
Qed.

Lemma filter_ext_in {A} (P Q : A → Prop) `{∀ x, Decision (P x), ∀ x, Decision (Q x)} (l : list A) :
  (∀ x, x ∈ l → P x ↔ Q x) → filter P l = filter Q l.
Proof.
  induction l as [|a l IH]; intros Hpq; [done|]. rewrite !filter_cons, IH by (intros; apply Hpq; by right).
  do 2 case_decide; [done| | |done]; exfalso; specialize (Hpq a); rewrite elem_of_cons in Hpq; naive_solver.
Qed.

Lemma indexed_snoc nodes n :
  indexed (nodes ++ [n]) = indexed nodes ++ (if decide (is_Some (node_space n) ∧ node_space n = tenant_space (nodes ++ [n])) then [n] else []).
Proof.
  unfold indexed. rewrite filter_app. f_equal.
  apply filter_ext_in. intros x Hx. rewrite tenant_space_snoc.
  destruct (tenant_space nodes) eqn:E; [done|]. rewrite (tenant_space_none nodes x) by done.
  split; intros [[? ?] _]; done.
Qed.

Section search_props.
Context {T : Type} `{MemStore T, Blake3, Hex, Ed25519, Serde Watermark, Unicode, FloatNan, Ln, SliceSort, !MemStoreLaws T}.
Implicit Types (t : T) (c : conts) (repo query : string) (cfg : recall_cfg) (em : Embedder).

(** ** Exact search *)

(** What the fold over the tenant leaves: the index of [indexed] and their nodes by id *)
Definition index_holds (nodes : list MemoryNode) (st : BruteForceIndex * gmap ContentHash MemoryNode) : Prop :=
  bf_model st.1 = fst <$> tenant_space nodes ∧ bf_dim st.1 = snd <$> tenant_space nodes ∧
  bf_items st.1 = (λ n, (compute_id n, node_data n)) <$> indexed nodes ∧
  (NoDup (compute_id <$> nodes) → ∀ n, n ∈ indexed nodes → st.2 !! compute_id n = Some n).

Lemma bf_check_space idx v s :
  bf_model idx = fst <$> s → bf_dim idx = snd <$> s →
  bf_check idx v = Ok tt ↔ forallb f32_is_finite (vv_data v) = true ∧ (∀ p, s = Some p → p = (vv_model v, length (vv_data v))).
Proof.
  intros Hm Hd. unfold bf_check. rewrite Hm, Hd. destruct (forallb _ _); simpl; [|naive_solver].
  destruct s as [[m d]|]; simpl; [rewrite check_space_ok; naive_solver|]. naive_solver.
Qed.

Lemma indexed_incl nodes n : n ∈ indexed nodes → n ∈ nodes.
Proof. by intros [_ Hn]%list_elem_of_filter. Qed.

Lemma index_nodes_holds nodes : index_holds nodes (index_nodes nodes).
Proof.
  unfold index_nodes. induction nodes as [|n nodes IH] using rev_ind; [split_and!; try done; intros _ n Hn%indexed_incl; by apply not_elem_of_nil in Hn|].
  rewrite foldl_snoc. destruct (foldl _ _ _) as [idx by_id]. destruct IH as (Hm & Hd & Hi & Hb). simpl in *.
  unfold index_holds. rewrite indexed_snoc, tenant_space_snoc. unfold index_node, bf_add. cbn [fst snd].
  assert (NoDup (compute_id <$> nodes ++ [n]) → ∀ m, m ∈ indexed nodes → by_id !! compute_id m = Some m ∧ compute_id n ≠ compute_id m) as Hold.
  { rewrite fmap_app. intros (Hnd & Hni & _)%NoDup_app m Hmi. split; [by apply Hb|]. intros E.
    apply (Hni (compute_id m)); [by apply list_elem_of_fmap_2, indexed_incl|]. rewrite <-E. by left. }
  destruct (n_embedding n) as [v|] eqn:Hv.
  2:{ assert (node_space n = None) as -> by (unfold node_space; by rewrite Hv).
      rewrite decide_False by (intros [[? ?] _]; done). rewrite app_nil_r.
      destruct (tenant_space nodes); split_and!; try done; intros; by apply Hold. }
  pose proof (bf_check_space idx v _ Hm Hd) as Hck. destruct (bf_check idx v) as [[]|e]; simpl.
  - destruct Hck as [[Hf Hs] _]; [done|]. assert (node_space n = Some (vv_model v, length (vv_data v))) as Hns.
    { unfold node_space. by rewrite Hv, Hf. }
    assert (match tenant_space nodes with Some s => Some s | None => node_space n end = node_space n) as ->.
    { destruct (tenant_space nodes) as [p|]; [|done]. rewrite (Hs p) by done. done. }
    rewrite decide_True by (rewrite Hns; split; [by eexists|done]). rewrite Hns, Hm, Hd, fmap_app, Hi. simpl. unfold node_data. rewrite Hv. split_and!.
    + destruct (tenant_space nodes) as [p|]; [|done]. simpl. by rewrite (Hs p).
    + destruct (tenant_space nodes) as [p|]; [|done]. simpl. by rewrite (Hs p).
    + done.
    + intros Hnd m [Hmi| ->%list_elem_of_singleton]%elem_of_app.
      * destruct (Hold Hnd m Hmi) as [Hl Hne]. by rewrite lookup_insert_ne.
      * apply lookup_insert_eq.
  - assert (¬ (is_Some (node_space n) ∧ node_space n = match tenant_space nodes with Some s => Some s | None => node_space n end)) as Hno.
    { intros [[p Hp] Heq]. assert (forallb f32_is_finite (vv_data v) = true ∧ p = (vv_model v, length (vv_data v))) as [Hf ->].
      { unfold node_space in Hp. rewrite Hv in Hp. by destruct (forallb _ _); simplify_eq. }
      destruct Hck as [_ Hck]. discriminate Hck. split; [done|]. intros p' Hp'. rewrite Hp', Hp in Heq. by simplify_eq. }
    rewrite decide_False by done. rewrite app_nil_r. destruct (tenant_space nodes) as [s|] eqn:Hts.
    + split_and!; try done. intros; by apply Hold.
    + destruct (node_space n) eqn:Hns; [exfalso; apply Hno; eauto|]. split_and!; try done. intros; by apply Hold.
Qed.

(** A node and its similarity to the query, as an item *)
Definition scored_item (m : gmap ContentHash string) (q : VersionedVector) (n : MemoryNode) : RecallItem :=
  set_branch (m !! compute_id n) (from_node n (Some (cosine (vv_data q) (node_data n)))).

Definition better (q : VersionedVector) (a b : MemoryNode) : Prop :=
  f32_ordinal (cosine (vv_data q) (node_data b)) ≤ f32_ordinal (cosine (vv_data q) (node_data a)).

Lemma sort_fmap_inv {A B} (f : A → B) (l : list A) (k : list B) : k ≡ₚ f <$> l → ∃ l', k = f <$> l' ∧ l' ≡ₚ l.
Proof. intros Hp. destruct (Permutation_map_inv f l Hp) as (l' & -> & Hl'). exists l'. by split. Qed.

Lemma StronglySorted_fmap {A B} (f : A → B) (R : B → B → Prop) l :
  StronglySorted R (f <$> l) ↔ StronglySorted (λ a b, R (f a) (f b)) l.
Proof.
  induction l as [|a l IH]; simpl; [by split; constructor|]. split; intros Hs; inversion Hs; subst; constructor;
    try (by apply IH); by apply Forall_fmap.
Qed.

(** Exact search: over a tenant whose similarities to the query are numbers, the
    uncached search never panics.  The first finite embedding of the tenant fixes one
    vector space; a query of another space has no hits, and a query of that space is
    answered with the [budget] nodes of the space nearest by cosine, best first, each
    carrying its similarity, drawn from exactly the nodes of the tenant scan: no other
    tenant, no branch marker and, by default, nothing in flight. *)
Theorem search_brute_exact cfg em t c repo query budget q (Ht : ms_holds t c) (Hq : em_embed em query = Ok q)
    (Hnum : ∀ n, c_nodes c !! compute_id n = Some n → f32_is_nan (cosine (vv_data q) (node_data n)) = false) :
  ∃ nodes m res, tenant_scan cfg t repo = Ok (nodes, m) ∧ search_brute cfg em t repo query budget = Some (Ok res) ∧
    rr_total_in_tenant res = length nodes ∧
    (∀ n, n ∈ nodes → c_nodes c !! compute_id n = Some n ∧ in_tenant cfg repo m n = true) ∧
    ((forallb f32_is_finite (vv_data q) = true ∧ tenant_space nodes = Some (vv_model q, length (vv_data q)) ∧
      ∃ ranked, ranked ≡ₚ indexed nodes ∧ StronglySorted (better q) ranked ∧
        rr_items res = scored_item m q <$> take budget ranked)
     ∨ (¬ (forallb f32_is_finite (vv_data q) = true ∧ tenant_space nodes = Some (vv_model q, length (vv_data q))) ∧ rr_items res = [])).
Proof.
  destruct (tenant_scan_spec cfg t c repo Ht) as (all & r & m & Hall & Hnd & Hr & Hin & Hm & Hscan).
  set (nodes := filter _ all) in *. exists nodes, m. unfold search_brute. rewrite Hscan.
  assert (NoDup (compute_id <$> nodes)) as Hnd' by (by apply NoDup_filter_ids).
  pose proof (index_nodes_holds nodes) as Hidx. destruct (index_nodes nodes) as [idx by_id].
  destruct Hidx as (Hmo & Hdi & Hit & Hby). specialize (Hby Hnd'). simpl in Hmo, Hdi, Hit, Hby.
  unfold embed_query. rewrite Hq. cbn [map_err].
  assert (∀ n, n ∈ nodes → c_nodes c !! compute_id n = Some n ∧ in_tenant cfg repo m n = true) as Hnodes.
  { intros n [Ha Hb]%list_elem_of_filter. by rewrite Hin in Hb. }
  pose proof (bf_check_space idx q _ Hmo Hdi) as Hck. unfold bf_search, sort_by. destruct (bf_check idx q) as [[]|e].
  2:{ eexists. split_and!; [done|done|done|done|]. right. split; [|done]. intros [Hf Hs].
      assert (Err e = Ok tt) as ?; [|done]. apply Hck. split; [done|]. rewrite Hs. by intros p [= <-]. }
  destruct Hck as [[Hf Hs] _]; [done|]. set (sc := bf_scored idx (vv_data q)).
  assert (sc = (λ n, {| nb_id := compute_id n; nb_score := cosine (vv_data q) (node_data n) |}) <$> indexed nodes) as Hsc.
  { unfold sc, bf_scored. by rewrite Hit, <-list_fmap_compose. }
  assert (no_nan sc) as Hnn.
  { rewrite Hsc. apply Forall_fmap, Forall_forall. intros n Hn%indexed_incl. apply Hnum. by apply Hnodes. }
  rewrite total_on_scores by done. pose proof (sorted_scores sc Hnn) as Hso. pose proof (stable_sort_perm score_cmp sc) as Hp.
  rewrite Hsc in Hp at 2. destruct (sort_fmap_inv _ _ _ Hp) as (ranked & Hrk & Hrp). rewrite Hrk in Hso |- *.
  rewrite StronglySorted_fmap in Hso. cbn. eexists. split_and!; [done|done|done|done|]. simpl.
  rewrite <-fmap_take. destruct (tenant_space nodes) as [s|] eqn:Hts.
  - left. rewrite (Hs s) by done. split_and!; [done|done|]. exists ranked. split_and!; [done|exact Hso|].
    assert (Forall (λ n, n ∈ indexed nodes) (take budget ranked)) as Hfa by (apply Forall_take, Forall_forall; intros x; by rewrite Hrp).
    clear -Hfa Hby. induction Hfa as [|n l Hn Hl IH]; [done|]. rewrite !fmap_cons. cbn [omap list_omap nb_id nb_score].
    rewrite (Hby n Hn), IH. done.
  - right. split; [by intros [_ ?]|]. assert (ranked = []) as ->; [|by destruct budget].
    apply elem_of_nil_inv. intros n. rewrite Hrp. intros [[[? Hn] _] Hn2]%list_elem_of_filter.
    by rewrite (tenant_space_none nodes n Hts Hn2) in Hn.
Qed.

(** ** Cached search *)

(** The vectors a tenant offers to its approximate index *)
Definition offers (nodes : list MemoryNode) : list (ContentHash * VersionedVector) :=
  omap (λ n, (λ v, (compute_id n, v)) <$> n_embedding n) nodes.

Lemma hnsw_nodes_build nodes : foldl hnsw_node (Some HnswIndex_new) nodes = hx_build (offers nodes).
Proof.
  unfold hx_build, offers. generalize (Some HnswIndex_new). induction nodes as [|n nodes IH]; intros o; [done|].
  cbn [foldl omap list_omap]. rewrite IH. unfold hnsw_node. destruct (n_embedding n); [done|].
  cbn [fmap option_fmap option_map]. by destruct o.
Qed.

Lemma length_offers nodes : (length (offers nodes) ≤ length nodes)%nat.
Proof.
  induction nodes as [|n nodes IH]; [done|]. unfold offers in *. cbn [omap list_omap length].
  destruct (n_embedding n); cbn [fmap option_fmap option_map length]; [by apply le_n_S|]. by apply Nat.le_le_succ_r.
Qed.

Lemma offers_ids nodes : sublist (offers nodes).*1 (compute_id <$> nodes).
Proof.
  induction nodes as [|n nodes IH]; [done|]. unfold offers in *. cbn [omap list_omap].
  destruct (n_embedding n); rewrite !fmap_cons; by constructor.
Qed.

(** The tenants fit the 32-bit node numbers of the graph. *)
Definition fits c : Prop := Z.of_nat (size (c_nodes c)) ≤ 2 ^ 32.

Lemma length_ids c (l : list MemoryNode) : NoDup (compute_id <$> l) → (∀ n, n ∈ l → c_nodes c !! compute_id n = Some n) →
  (length l ≤ size (c_nodes c))%nat.
Proof.
  intros Hnd Hl. rewrite <-(size_dom (c_nodes c)), <-(length_fmap compute_id l), <-(size_list_to_set (C := gset ContentHash)) by done.
  apply subseteq_size. intros x. rewrite elem_of_list_to_set, list_elem_of_fmap. intros (n & -> & Hn). apply elem_of_dom. eauto.
Qed.

(** A canonical tenant scan: what [build_index] sees *)
Lemma build_index_spec cfg t c repo : ms_holds t c → fits c →
  ∃ nodes m idx, tenant_scan cfg t repo = Ok (nodes, m) ∧ NoDup (compute_id <$> nodes) ∧
    (∀ n, n ∈ nodes → c_nodes c !! compute_id n = Some n ∧ in_tenant cfg repo m n = true) ∧
    build_index cfg t repo = Some (Ok (idx, length nodes)) ∧ hnsw_wf idx ∧ sublist (ids_of idx) (compute_id <$> nodes).
Proof.
  intros Ht Hfit. destruct (tenant_scan_spec cfg t c repo Ht) as (all & r & m & _ & Hnd & _ & Hin & _ & Hscan).
  set (nodes := filter _ all) in *. assert (NoDup (compute_id <$> nodes)) as Hnd' by (by apply NoDup_filter_ids).
  assert (∀ n, n ∈ nodes → c_nodes c !! compute_id n = Some n ∧ in_tenant cfg repo m n = true) as Hn.
  { intros n [Ha Hb]%list_elem_of_filter. by rewrite Hin in Hb. }
  assert (Z.of_nat (length (offers nodes)) ≤ 2 ^ 32) as Hlen.
  { pose proof (length_offers nodes). pose proof (length_ids c nodes Hnd' ltac:(intros; by apply Hn)). unfold fits in Hfit. lia. }
  destruct (hx_build_ok (offers nodes) Hlen) as (idx & Hb & Hwf & Hsub). exists nodes, m, idx. split_and!; try done.
  - unfold build_index, tenant_nodes. rewrite Hscan. cbn [rmap fst]. by rewrite hnsw_nodes_build, Hb.
  - etrans; [done|apply offers_ids].
Qed.

(** The items of a list of hits, all of them stored *)
Lemma read_hits t c hits items : ms_holds t c → Forall (λ h, is_Some (c_nodes c !! nb_id h)) hits →
  ∃ found, rfold (read_hit t) items hits = Ok (items ++ found) ∧
    Forall2 (λ h i, ∃ n, c_nodes c !! nb_id h = Some n ∧ compute_id n = nb_id h ∧ i = from_node n (Some (nb_score h))) hits found.
Proof.
  intros Ht Hh. revert items. induction Hh as [|h hits [n Hn] Hh IH]; intros items.
  { exists []. rewrite app_nil_r. by split. }
  cbn [rfold]. unfold read_hit at 1. rewrite (ms_get_node_ok t c) by done. rewrite Hn. cbn [rbind].
  destruct (IH (items ++ [from_node n (Some (nb_score h))])) as (found & -> & Hf).
  exists (from_node n (Some (nb_score h)) :: found). rewrite <-app_assoc. split; [done|]. constructor; [|done].
  exists n. split_and!; try done. by apply (ms_ids t c Ht).
Qed.

Lemma Forall2_fmap_eq {A B C} (f : A → C) (g : B → C) (R : A → B → Prop) l k :
  Forall2 R l k → (∀ a b, R a b → f a = g b) → f <$> l = g <$> k.
Proof. intros Hr Hf. induction Hr; [done|]. simpl. f_equal; auto. Qed.

(** What an entry of the cache stands for: the index the current store would build, when
    the stamps match *)
Definition cache_agrees t (cache : TenantIndexCache) : Prop :=
  tc_poisoned cache = false ∧
  ∀ repo e, tc_entries cache !! repo = Some e →
    ct_watermark e = watermark t repo ∧ ms_node_count t = Ok (ct_node_count e) ∧
    ∀ cfg, include_in_flight cfg = false → build_index cfg t repo = Some (Ok (ct_index e, ct_tenant_total e)).

Lemma build_index_cfg cfg cfg' t repo :
  include_in_flight cfg = include_in_flight cfg' → build_index cfg t repo = build_index cfg' t repo.
Proof. intros E. unfold build_index, tenant_nodes, tenant_scan, in_tenant. by rewrite E. Qed.

Lemma new_agrees t : cache_agrees t TenantIndexCache_new.
Proof. split; [done|]. intros repo e. cbn. by rewrite lookup_empty. Qed.

(** A lookup in an agreeing cache returns what a rebuild would return; it counts as a hit
    exactly when the tenant has an entry. *)
Lemma get_or_build_agrees cfg t c cache repo n : ms_holds t c → fits c → include_in_flight cfg = false →
  ms_node_count t = Ok n → cache_agrees t cache →
  ∃ cache', get_or_build cache repo (watermark t repo) n (build_index cfg t repo) = (cache', build_index cfg t repo) ∧
    cache_agrees t cache' ∧ dom (tc_entries cache') = {[repo]} ∪ dom (tc_entries cache) ∧
    if decide (repo ∈ dom (tc_entries cache))
    then tc_builds cache' = tc_builds cache ∧ tc_hits cache' = usize_succ (tc_hits cache)
    else tc_builds cache' = usize_succ (tc_builds cache) ∧ tc_hits cache' = tc_hits cache.
Proof.
  intros Ht Hfit Hcfg Hn [Hp Ha]. unfold get_or_build. rewrite Hp.
  destruct (tc_entries cache !! repo) as [e|] eqn:He.
  - destruct (Ha repo e He) as (Hw & Hc & Hb). rewrite Hn in Hc. injection Hc as ->.
    rewrite !bool_decide_eq_true_2 by done. rewrite (Hb cfg Hcfg). cbn [andb].
    assert (repo ∈ dom (tc_entries cache)) as Hd by (apply elem_of_dom; eauto).
    eexists. split; [done|]. rewrite decide_True by done. split_and!; try done. cbn. set_solver.
  - destruct (build_index_spec cfg t c repo Ht Hfit) as (nodes & m & idx & _ & _ & _ & Hb & _). rewrite Hb.
    eexists. split; [done|]. rewrite decide_False by (by apply not_elem_of_dom). split_and!; [|cbn; by rewrite dom_insert_L|done|done].
    split; [done|]. cbn. intros repo' e [[<- <-]|[Hne He']]%lookup_insert_Some; [|by apply Ha]. cbn. split_and!; [done|done|].
    intros cfg' Hcfg'. by rewrite (build_index_cfg cfg' cfg) by congruence.
Qed.

(** Cached search always answers, and answers from the tenant: with an embedder that
    succeeds, a store of at most 2^32 nodes and a cache that agrees with the store, the
    search terminates without a panic; it returns at most [budget] items, best first and
    without repetition, each a stored node of the tenant that is no placeholder, no branch
    marker and not in flight, and the total counts the whole tenant. *)
Theorem search_cached_answers cfg em cache t c repo query budget q (Ht : ms_holds t c) (Hfit : fits c)
    (Hcfg : include_in_flight cfg = false) (Hc : cache_agrees t cache) (Hq : em_embed em query = Ok q) :
  ∃ nodes m res, tenant_scan cfg t repo = Ok (nodes, m) ∧
    (search_cached cfg em cache t repo query budget).2 = Some (Ok res) ∧
    rr_total_in_tenant res = length nodes ∧ (length (rr_items res) ≤ budget)%nat ∧ NoDup (ri_id <$> rr_items res) ∧
    StronglySorted (λ a b, ∃ x y, ri_score a = Some x ∧ ri_score b = Some y ∧ total_key y ≤ total_key x) (rr_items res) ∧
    ∀ i, i ∈ rr_items res → ∃ n s, c_nodes c !! compute_id n = Some n ∧ in_tenant cfg repo m n = true ∧ i = from_node n (Some s).
Proof.
  pose proof (ms_node_count_ok t c Ht) as Hcnt. set (cnt := size (c_known c)) in Hcnt.
  destruct (build_index_spec cfg t c repo Ht Hfit) as (nodes & m & idx & Hscan & Hnd & Hn & Hb & Hwf & Hsub).
  destruct (get_or_build_agrees cfg t c cache repo cnt Ht Hfit Hcfg Hcnt Hc) as (cache' & Hg & _).
  unfold search_cached. rewrite Hcnt, Hg, Hb. unfold embed_query. rewrite Hq. cbn [snd mbind option_bind map_err].
  assert (∃ hits, hits_or_default (hx_search idx q budget) = Some hits ∧ (length hits ≤ budget)%nat ∧
    (∀ h, h ∈ hits → nb_id h ∈ ids_of idx) ∧
    StronglySorted (λ a b : Neighbor, total_key (nb_score b) ≤ total_key (nb_score a)) hits ∧ NoDup (nb_id <$> hits))
    as (hits & -> & Hlen & Hids & Hso & Hnd').
  { unfold hx_search. destruct (hx_check idx q); [|exists []; split_and!; try done; [cbn; lia|intros h Hh; by apply not_elem_of_nil in Hh|constructor|constructor]].
    destruct (query_ok idx (vv_data q) budget Hwf) as (hits & -> & H1' & H2' & H3' & H4' & H5'). exists hits.
    split_and!; try done. apply H5'. by eapply sublist_NoDup. }
  assert (Forall (λ h, is_Some (c_nodes c !! nb_id h)) hits) as Hst.
  { apply Forall_forall. intros h Hh%Hids. eapply elem_of_sublist in Hh; [|done]. apply list_elem_of_fmap in Hh as (n & -> & Hin).
    exists n. by apply Hn. }
  destruct (read_hits t c hits [] Ht Hst) as (found & Hrd & Hf). eexists nodes, m, _. cbn [mbind option_bind].
  rewrite Hrd. cbn [rbind app]. split; [done|]. split; [done|]. cbn [rr_items rr_total_in_tenant]. split_and!; [done| | | |].
  - by rewrite <-(Forall2_length _ _ _ Hf).
  - rewrite <-(Forall2_fmap_eq nb_id ri_id _ _ _ Hf); [done|]. by intros h i (n & _ & <- & ->).
  - clear -Hf Hso. induction Hf as [|h i hits found (n & _ & _ & ->) Hf IH]; [constructor|].
    inversion Hso as [|?? Hs Hall]; subst. constructor; [by apply IH|]. clear -Hf Hall.
    induction Hf as [|h' i' hits found (n' & _ & _ & ->) Hf IH]; [constructor|]. inversion Hall; subst. constructor; [|by apply IH]. eauto.
  - intros i (j & Hi)%list_elem_of_lookup_1. destruct (Forall2_lookup_r _ _ _ _ _ Hf Hi) as (h & Hh & n & Hcn & Hid & ->).
    apply list_elem_of_lookup_2 in Hh. exists n, (nb_score h).
    assert (n ∈ nodes) as [Hs Hten]%Hn; [|done]. apply Hids in Hh. eapply elem_of_sublist in Hh; [|done].
    apply list_elem_of_fmap in Hh as (n' & Hid' & Hin). destruct (Hn n' Hin) as [Hs' _]. congruence.
Qed.

(** Queries answered one after the other through one cache *)
Definition request : Type := string * string * nat.
Fixpoint run_searches cfg em (cache : TenantIndexCache) t (qs : list request) : TenantIndexCache * list (outcome RecallResult) :=
  match qs with
  | [] => (cache, [])
  | (repo, query, budget) :: qs =>
    let '(cache', o) := search_cached cfg em cache t repo query budget in
    let '(cache'', os) := run_searches cfg em cache' t qs in (cache'', o :: os)
  end.
Definition tenants (qs : list request) : gset string := list_to_set ((λ q : request, q.1.1) <$> qs).

Lemma search_cached_agrees cfg em cache t c repo query budget :
  ms_holds t c → fits c → include_in_flight cfg = false → cache_agrees t cache →
  ∃ cache', search_cached cfg em cache t repo query budget =
      (cache', (search_cached cfg em TenantIndexCache_new t repo query budget).2) ∧
    cache_agrees t cache' ∧ dom (tc_entries cache') = {[repo]} ∪ dom (tc_entries cache) ∧
    if decide (repo ∈ dom (tc_entries cache))
    then tc_builds cache' = tc_builds cache ∧ tc_hits cache' = usize_succ (tc_hits cache)
    else tc_builds cache' = usize_succ (tc_builds cache) ∧ tc_hits cache' = tc_hits cache.
Proof.
  intros Ht Hfit Hcfg Hc. pose proof (ms_node_count_ok t c Ht) as Hcnt. set (cnt := size (c_known c)) in Hcnt. unfold search_cached. rewrite Hcnt.
  destruct (get_or_build_agrees cfg t c cache repo cnt Ht Hfit Hcfg Hcnt Hc) as (cache' & Hg & Ha & Hd & Hk).
  destruct (get_or_build_agrees cfg t c TenantIndexCache_new repo cnt Ht Hfit Hcfg Hcnt (new_agrees t)) as (new' & Hg' & _).
  rewrite Hg, Hg'. exists cache'. by split_and!.
Qed.

(** The two counters, far from wrapping: one build per tenant with an entry, the rest hits *)
Definition counted (cache : TenantIndexCache) (n : nat) : Prop :=
  tc_builds cache = Z.of_nat (size (dom (tc_entries cache))) ∧ tc_builds cache + tc_hits cache = Z.of_nat n.

Lemma counted_step cache cache' repo n : counted cache n → Z.of_nat (S n) < 2 ^ 64 → 0 ≤ tc_hits cache →
  dom (tc_entries cache') = {[repo]} ∪ dom (tc_entries cache) →
  (if decide (repo ∈ dom (tc_entries cache))
   then tc_builds cache' = tc_builds cache ∧ tc_hits cache' = usize_succ (tc_hits cache)
   else tc_builds cache' = usize_succ (tc_builds cache) ∧ tc_hits cache' = tc_hits cache) →
  counted cache' (S n) ∧ 0 ≤ tc_hits cache'.
Proof.
  intros [Hb Hs] Hn Hh Hd. unfold counted, usize_succ. rewrite Hd. case_decide as Hin; intros [-> ->].
  - rewrite subseteq_union_1_L by set_solver. rewrite Z.mod_small by lia. lia.
  - rewrite size_union by set_solver. rewrite size_singleton. rewrite Z.mod_small by lia. lia.
Qed.

Lemma run_searches_agrees cfg em t c qs cache n :
  ms_holds t c → fits c → include_in_flight cfg = false → cache_agrees t cache → counted cache n → 0 ≤ tc_hits cache →
  Z.of_nat (n + length qs) < 2 ^ 64 →
  ∃ cache', run_searches cfg em cache t qs =
      (cache', (λ q : request, (search_cached cfg em TenantIndexCache_new t q.1.1 q.1.2 q.2).2) <$> qs) ∧
    counted cache' (n + length qs) ∧ dom (tc_entries cache') = tenants qs ∪ dom (tc_entries cache).
Proof.
  intros Ht Hfit Hcfg. revert cache n. induction qs as [|[[repo query] budget] qs IH]; intros cache n Ha Hk Hh Hlen.
  { exists cache. rewrite Nat.add_0_r. split_and!; [done..|]. unfold tenants. set_solver. }
  destruct (search_cached_agrees cfg em cache t c repo query budget Ht Hfit Hcfg Ha) as (c1 & Hs & Ha1 & Hd1 & Hk1).
  cbn [run_searches length] in *. destruct (counted_step cache c1 repo n Hk) as [Hk' Hh']; [lia|done..|].
  destruct (IH c1 (S n) Ha1 Hk' Hh') as (c2 & Hr & Hk2 & Hd2); [lia|]. rewrite Hs, Hr. exists c2.
  replace (n + S (length qs))%nat with (S n + length qs)%nat by lia. split_and!; [done|done|].
  rewrite Hd2, Hd1. unfold tenants. cbn. set_solver.
Qed.

(** [C36] The cache is transparent while the store is unchanged: any sequence of fewer than
    2^64 queries through one cache gets, query by query, the answers a fresh cache would
    give (an index rebuilt for each), while each tenant's index is built exactly once and
    every other query is a hit. *)
Theorem search_cached_transparent cfg em t c (qs : list request) (Ht : ms_holds t c) (Hfit : fits c)
    (Hcfg : include_in_flight cfg = false) (Hlen : Z.of_nat (length qs) < 2 ^ 64) :
  ∃ cache', run_searches cfg em TenantIndexCache_new t qs =
      (cache', (λ q : request, (search_cached cfg em TenantIndexCache_new t q.1.1 q.1.2 q.2).2) <$> qs) ∧
    tc_builds cache' = Z.of_nat (size (tenants qs)) ∧ tc_builds cache' + tc_hits cache' = Z.of_nat (length qs).
Proof.
  destruct (run_searches_agrees cfg em t c qs TenantIndexCache_new 0) as (cache' & Hr & [Hb Hs] & Hd);
    [done|done|done|apply new_agrees|by split|done|done|].
  exists cache'. split_and!; [done| |done]. rewrite Hb, Hd. cbn [tc_entries TenantIndexCache_new]. by rewrite dom_empty_L, union_empty_r_L.
Qed.

(** ** Analogies *)

(** How many admitted edges of kind [k] a list has *)
Definition kind_count (k : Z) (es : list Edge) : nat :=
  length (filter (λ e, e_quarantined e = false ∧ EdgeKind_tag (e_kind e) = k) es).

Lemma count_edges d sig es p :
  default O (foldl (count_edge d) sig es !! p) =
  (default O (sig !! p) + (if decide (p.1 = d) then kind_count p.2 es else O))%nat.
Proof.
  unfold kind_count. revert sig. induction es as [|e es IH]; intros sig; simpl; [case_decide; lia|].
  rewrite IH, filter_cons. unfold count_edge. destruct p as [d' k]. cbn [fst snd].
  destruct (e_quarantined e); [repeat case_decide; naive_solver|].
  destruct (decide ((d, EdgeKind_tag (e_kind e)) = (d', k))) as [[= <- <-]|Hne].
  - rewrite lookup_insert_eq. repeat case_decide; simpl; [lia|naive_solver..].
  - rewrite lookup_insert_ne by done. repeat case_decide; naive_solver.
Qed.

Lemma edge_signature_spec t c id : ms_holds t c →
  ∃ outs ins sig, lists_edges c (λ e, e_from e = id) outs ∧ lists_edges c (λ e, e_to e = id) ins ∧
    edge_signature t id = Ok sig ∧
    ∀ k, default O (sig !! (0, k)) = kind_count k outs ∧ default O (sig !! (1, k)) = kind_count k ins.
Proof.
  intros Ht. destruct (ms_out_edges_ok t c id Ht) as (outs & Ho & Hol). destruct (ms_in_edges_ok t c id Ht) as (ins & Hi & Hil).
  exists outs, ins. unfold edge_signature. rewrite Ho, Hi. cbn [rbind]. eexists. split_and!; [done..|]. intros k.
  rewrite !count_edges, !lookup_empty. cbn [fst snd default]. split; repeat case_decide; lia.
Qed.

Lemma inter_count_comm (a b : signature) : inter_count a b = inter_count b a.
Proof.
  unfold inter_count, sig_keys. rewrite (union_comm_L (dom a)). f_equal. apply list_fmap_ext. intros _ k _. apply Nat.min_comm.
Qed.
Lemma union_count_comm (a b : signature) : union_count a b = union_count b a.
Proof.
  unfold union_count, sig_keys. rewrite (union_comm_L (dom a)). f_equal. apply list_fmap_ext. intros _ k _. apply Nat.max_comm.
Qed.

Lemma sum_list_fmap_cons {A} (f : A → nat) a l : sum_list (f <$> a :: l) = (f a + sum_list (f <$> l))%nat.
Proof. done. Qed.
Lemma sum_list_le {A} (f g : A → nat) l : (∀ x, x ∈ l → f x ≤ g x)%nat → (sum_list (f <$> l) ≤ sum_list (g <$> l))%nat.
Proof.
  induction l as [|a l IH]; intros Hl; [done|]. rewrite !sum_list_fmap_cons.
  pose proof (Hl a ltac:(by left)). specialize (IH ltac:(intros; apply Hl; by right)). lia.
Qed.
Lemma sum_list_eq_pointwise {A} (f g : A → nat) l : (∀ x, x ∈ l → f x ≤ g x)%nat → sum_list (f <$> l) = sum_list (g <$> l) →
  ∀ x, x ∈ l → f x = g x.
Proof.
  induction l as [|a l IH]; intros Hl Heq x Hx; [by apply not_elem_of_nil in Hx|]. rewrite !sum_list_fmap_cons in Heq.
  pose proof (Hl a ltac:(by left)). pose proof (sum_list_le f g l ltac:(intros; apply Hl; by right)) as Hle.
  apply elem_of_cons in Hx as [->|Hx]; [lia|]. apply IH; [intros; apply Hl; by right| |done]. lia.
Qed.

(** Structural overlap is the Jaccard index of the edge multisets: a node's signature
    counts, per direction and kind, exactly its edges that are not quarantined; the
    overlap is symmetric, zero for two nodes without edges and else the quotient of the
    common count by the total count, which never exceeds one and is one exactly when the
    two nodes have the same counts. *)
Theorem signature_overlap_jaccard t c (a b : ContentHash) (Ht : ms_holds t c) :
  ∃ oa ia sa sb, lists_edges c (λ e, e_from e = a) oa ∧ lists_edges c (λ e, e_to e = a) ia ∧
    edge_signature t a = Ok sa ∧ edge_signature t b = Ok sb ∧
    (∀ k, default O (sa !! (0, k)) = kind_count k oa ∧ default O (sa !! (1, k)) = kind_count k ia) ∧
    signature_overlap sa sb = signature_overlap sb sa ∧ (inter_count sa sb ≤ union_count sa sb)%nat ∧
    (inter_count sa sb = union_count sa sb ↔ ∀ p, default O (sa !! p) = default O (sb !! p)).
Proof.
  destruct (edge_signature_spec t c a Ht) as (oa & ia & sa & Hoa & Hia & Hsa & Hka).
  destruct (edge_signature_spec t c b Ht) as (ob & ib & sb & _ & _ & Hsb & _).
  exists oa, ia, sa, sb. assert (∀ p, sig_inter sa sb p ≤ sig_union sa sb p)%nat as Hle by (intros p; unfold sig_inter, sig_union; lia).
  split_and!; [done..| | |].
  - unfold signature_overlap. by rewrite inter_count_comm, union_count_comm.
  - by apply sum_list_le.
  - split.
    + intros Heq p. destruct (decide (p ∈ sig_keys sa sb)) as [Hp|Hp].
      * pose proof (sum_list_eq_pointwise _ _ _ (λ x _, Hle x) Heq p Hp) as Hx. unfold sig_inter, sig_union in Hx. lia.
      * unfold sig_keys in Hp. assert (sa !! p = None ∧ sb !! p = None) as [-> ->]; [|done].
        split; apply not_elem_of_dom; intros ?; apply Hp, elem_of_elements; set_solver.
    + intros Heq. unfold inter_count, union_count. f_equal. apply list_fmap_ext. intros _ p _. unfold sig_inter, sig_union. rewrite Heq. lia.
Qed.

(** The candidate a shortlisted node becomes *)
Definition candidate_of (asig : signature) (p : f32 * MemoryNode) (a : AnalogyCandidate) t : Prop :=
  ∃ sig, edge_signature t (compute_id p.2) = Ok sig ∧ ac_item a = from_node p.2 None ∧ ac_cosine a = p.1 ∧
    ac_structural a = signature_overlap asig sig ∧
    ac_score a = fadd (fmul ANALOGY_COSINE_WEIGHT p.1) (fmul ANALOGY_STRUCTURAL_WEIGHT (signature_overlap asig sig)).

Lemma vet_candidates t c asig l out : ms_holds t c →
  ∃ found, rfold (vet_candidate t asig) out l = Ok (out ++ found) ∧ Forall2 (λ p a, candidate_of asig p a t) l found.
Proof.
  intros Ht. revert out. induction l as [|p l IH]; intros out; [exists []; by rewrite app_nil_r|].
  destruct (edge_signature_spec t c (compute_id p.2) Ht) as (_ & _ & sig & _ & _ & Hs & _).
  cbn [rfold]. unfold vet_candidate at 1. rewrite Hs. cbn [rbind].
  match goal with |- context [rfold _ (out ++ [?x]) l] => destruct (IH (out ++ [x])) as (found & -> & Hf); exists (x :: found) end.
  rewrite <-app_assoc. split; [done|]. constructor; [|done]. by exists sig.
Qed.

Lemma shortlist_node_some anchor av nrm repos n p : shortlist_node anchor av nrm repos n = Some p →
  p.2 = n ∧ n_repo n ≠ n_repo anchor ∧ n_repo n ∈ repos ∧ is_reference n = false ∧
  ∃ v, n_embedding n = Some v ∧ vv_model v = vv_model av ∧
    p.1 = fdiv (dot (vv_data v) (vv_data av)) (fmul (norm (vv_data v)) nrm).
Proof.
  unfold shortlist_node. case_bool_decide; [done|]. case_bool_decide; [|done]. destruct (is_reference n); [done|].
  destruct (n_embedding n) as [v|]; [|done]. cbn [orb negb]. case_bool_decide; [|done]. cbn [negb].
  destruct (f32_is_zero _); [done|]. intros [= <-]. cbn. split_and!; try done. by exists v.
Qed.

Lemma sorted_by_id_lt {A} (key : A → Z * ContentHash) (l : list A) : NoDup (snd ∘ key <$> l) →
  StronglySorted (key_lt key) (sort_by_key key l).
Proof.
  intros Hnd. assert (NoDup (snd ∘ key <$> sort_by_key key l)) as Hnd' by (by rewrite sort_by_key_perm).
  pose proof (sort_by_key_sorted key l) as Hs. induction Hs as [|x k Hk IH Hx]; [constructor|].
  apply NoDup_cons in Hnd' as [Hni Hnd']. constructor; [by apply IH|]. rewrite Forall_forall in Hx |- *. intros y Hy.
  split; [by apply Hx|]. intros E. apply (f_equal snd) in E. apply Hni. cbn. rewrite E. by apply (list_elem_of_fmap_2 (snd ∘ key)).
Qed.

Lemma StronglySorted_take {A} (R : A → A → Prop) k l : StronglySorted R l → StronglySorted R (take k l).
Proof. intros Hs. revert k. induction Hs as [|a l Hl IH Ha]; intros [|k]; simpl; constructor; [done|by apply Forall_take]. Qed.

Lemma shortlist_ids anchor av nrm repos all :
  NoDup (compute_id <$> all) → NoDup ((compute_id ∘ snd) <$> omap (shortlist_node anchor av nrm repos) all).
Proof.
  intros Hnd. eapply sublist_NoDup; [exact Hnd|]. clear Hnd. induction all as [|n all IH]; [done|]. cbn [omap list_omap].
  destruct (shortlist_node anchor av nrm repos n) as [p|] eqn:E; rewrite !fmap_cons; [|by constructor].
  apply shortlist_node_some in E as [<- _]. by constructor.
Qed.

(** A stored node the anchor can be compared with *)
Definition comparable c anchor (av : VersionedVector) repos (n : MemoryNode) : Prop :=
  c_nodes c !! compute_id n = Some n ∧ is_Some (shortlist_node anchor av (norm (vv_data av)) repos n).

(** Analogies stay in the tenants asked for: for a stored anchor the call succeeds and
    returns at most [budget] candidates in one order (best score first, ties by id), each
    a stored node of a tenant on the caller's list, never of the anchor's own tenant and
    never a placeholder, embedded by the anchor's model, scored by its cosine and its
    structural overlap; and when the comparable nodes fit the budget, none is missed. *)
Theorem analogies_confined t c anchor_id anchor repos budget (Ht : ms_holds t c) (Ha : c_nodes c !! anchor_id = Some anchor) :
  ∃ out asig, analogies t anchor_id repos budget = Ok out ∧ edge_signature t anchor_id = Ok asig ∧ (length out ≤ budget)%nat ∧
    StronglySorted (key_lt candidate_key) out ∧
    (∀ a, a ∈ out → ∃ n v av, n_embedding anchor = Some av ∧ n_embedding n = Some v ∧ vv_model v = vv_model av ∧
       comparable c anchor av repos n ∧ n_repo n ≠ n_repo anchor ∧ n_repo n ∈ repos ∧ is_reference n = false ∧
       candidate_of asig (fdiv (dot (vv_data v) (vv_data av)) (fmul (norm (vv_data v)) (norm (vv_data av))), n) a t) ∧
    (∀ av ns, n_embedding anchor = Some av → f32_is_zero (norm (vv_data av)) = false →
       (∀ n, comparable c anchor av repos n → n ∈ ns) → (length ns ≤ budget)%nat →
       ∀ n, comparable c anchor av repos n → compute_id n ∈ (ri_id ∘ ac_item <$> out)).
Proof.
  destruct (edge_signature_spec t c anchor_id Ht) as (_ & _ & asig & _ & _ & Hsig & _).
  unfold analogies. rewrite (ms_get_node_ok t c) by done. rewrite Ha. cbn [rbind].
  destruct (n_embedding anchor) as [av|] eqn:Hav; [|exists [], asig; split_and!; try done; [cbn; lia|constructor|set_solver]].
  destruct (f32_is_zero (norm (vv_data av))) eqn:Hz.
  { exists [], asig. split_and!; try done; [cbn; lia|constructor|set_solver|]. intros ?? [= <-]. congruence. }
  destruct (ms_all_nodes_ok t c Ht) as (all & Hall & Hnd & _ & Hin). rewrite Hall, Hsig. cbn [rbind].
  set (sl := omap _ all). set (short := take _ (sort_by_key shortlist_key sl)).
  destruct (vet_candidates t c asig short [] Ht) as (found & Hf & Hf2). rewrite Hf. cbn [rbind app].
  assert (∀ p, p ∈ short → p ∈ sl) as Hsub.
  { intros p Hp. apply (elem_of_sort_by_key shortlist_key). eapply elem_of_sublist; [done|apply sublist_take]. }
  assert ((compute_id ∘ snd) <$> short = ri_id ∘ ac_item <$> found) as Hids.
  { apply (Forall2_fmap_eq _ _ _ _ _ Hf2). intros p a (sig & _ & Hi & _). cbn. by rewrite Hi. }
  assert (NoDup (ri_id ∘ ac_item <$> found)) as Hnd2.
  { rewrite <-Hids. unfold short. rewrite fmap_take. eapply sublist_NoDup; [|apply sublist_take]. rewrite sort_by_key_perm. by apply shortlist_ids. }
  eexists _, asig. split; [done|]. split; [done|]. split_and!.
  - rewrite length_take. lia.
  - by apply StronglySorted_take, sorted_by_id_lt.
  - intros a Ha'. assert (a ∈ found) as (j & Hj)%list_elem_of_lookup_1.
    { apply (elem_of_sort_by_key candidate_key). eapply elem_of_sublist; [done|apply sublist_take]. }
    destruct (Forall2_lookup_r _ _ _ _ _ Hf2 Hj) as (p & Hp%list_elem_of_lookup_2%Hsub & Hc).
    apply list_elem_of_omap in Hp as (n & Hn & Hs). destruct (shortlist_node_some _ _ _ _ _ _ Hs) as (Hpn & H1' & H2' & H3' & v & Hv & Hm & Hcos).
    exists n, v, av. split_and!; try done; [split; [by apply Hin|eauto]|]. destruct p as [x y]. cbn in Hpn, Hcos. by subst.
  - intros av' ns [= <-] _ Hns Hlen n [Hcn [p Hp]].
    assert (length sl ≤ budget)%nat as Hsl.
    { rewrite <-(length_fmap (compute_id ∘ snd) sl). trans (length (compute_id <$> ns)); [|by rewrite length_fmap].
      apply NoDup_incl_length; [by apply NoDup_ListNoDup, shortlist_ids|]. intros x. rewrite <-!list_elem_of_In.
      intros (p' & -> & (m & Hm & Hs)%list_elem_of_omap)%list_elem_of_fmap. destruct (shortlist_node_some _ _ _ _ _ _ Hs) as [Heq _].
      cbn. rewrite Heq. apply list_elem_of_fmap_2, Hns. split; [by apply Hin|eauto]. }
    assert (short = sort_by_key shortlist_key sl) as Hshort by (unfold short; apply take_ge; rewrite length_sort_by_key; lia).
    rewrite take_ge by (rewrite length_sort_by_key, <-(Forall2_length _ _ _ Hf2), Hshort, length_sort_by_key; done).
    rewrite sort_by_key_perm, <-Hids. destruct (shortlist_node_some _ _ _ _ _ _ Hp) as [<- _].
    apply (list_elem_of_fmap_2 (compute_id ∘ snd)). rewrite Hshort, elem_of_sort_by_key. apply list_elem_of_omap. exists p.2.
    split; [|done]. by apply Hin.
Qed.
End search_props.
