(* ===== verification/Display.v ===== *)
(** * Formatting: [Display] and [Debug] of what appears in messages

    The [#[error("...")]] texts of the error types, [{:?}] of strings and enums, and the
    fixed-point rendering of floats.  A string is quoted by [str_debug] as the standard
    library does; its tables of printable and combining characters beyond ASCII are a
    parameter ([CharTables]). *)

From Stdlib Require Import Floats.SpecFloat.
From stdpp Require Import pretty.
From S2P Require Import Prelude Bytes Externs Text Str Belnap Identity Node Float Edge Grant AuditLog Kv Shred Store Assert.

(** [core::unicode::printable] and [grapheme_extend] for characters beyond ASCII *)
Class CharTables := { wide_printable : Z → bool; grapheme_extend : Z → bool }.

Definition quote_byte : byte := Byte.x22.
Definition backslash : byte := Byte.x5c.

(** Lower-case hexadecimal without leading zeros *)
Definition hex_nibble (z : Z) : byte := byte_of_Z (if z <? 10 then 0x30 + z else 0x57 + z).
Fixpoint hex_digits (fuel : nat) (z : Z) (acc : bytes) : bytes :=
  match fuel with
  | O => acc
  | S fuel => let acc := hex_nibble (z mod 16) :: acc in if z / 16 =? 0 then acc else hex_digits fuel (z / 16) acc
  end.
(** [\u{..}]; a scalar value has at most six digits *)
Definition escape_unicode (c : Z) : bytes := as_bytes "\u{" ++ hex_digits 6 c [] ++ as_bytes "}".

Section debug.
Context `{CharTables}.

Definition is_printable (c : Z) : bool := if c <? 0x7f then 0x20 <=? c else if c <? 0x80 then false else wide_printable c.

(** [char::escape_debug_ext] as [str]'s [Debug] calls it *)
Definition escape_debug (p : Z * bytes) : bytes :=
  let '(c, raw) := p in
  if c =? 0 then as_bytes "\0" else if c =? 9 then as_bytes "\t" else if c =? 13 then as_bytes "\r"
  else if c =? 10 then as_bytes "\n" else if c =? 0x5c then [backslash; backslash]
  else if c =? 0x22 then [backslash; quote_byte]
  else if (0x80 <=? c) && grapheme_extend c then escape_unicode c
  else if is_printable c then raw else escape_unicode c.

(** [{:?}] of a string *)
Definition str_debug (s : string) : string :=
  string_of_bytes ([quote_byte] ++ flat_map escape_debug (chunks (as_bytes s)) ++ [quote_byte]).
End debug.

(** ** Numbers *)

(** [i64]'s [Display] *)
Definition signed (z : Z) : string := if z <? 0 then "-" +:+ decimal (- z) else decimal z.

(** Round a non-negative dyadic rational times [10^p] to the nearest integer, ties to even. *)
Definition round_fixed (p : nat) (m e : Z) : Z :=
  let num := m * 10 ^ Z.of_nat p in
  if 0 <=? e then num * 2 ^ e
  else
    let d := 2 ^ (- e) in
    let q := num / d in
    let r := num mod d in
    if (d <? 2 * r) || ((2 * r =? d) && Z.odd q) then q + 1 else q.

Fixpoint zeros (n : nat) : string := match n with O => "" | S n => "0" +:+ zeros n end.
(** [{:0>w$}] of a number *)
Definition pad_left (w : nat) (s : string) : string := zeros (w - String.length s) +:+ s.

(** [{:.p}] of an [f32] *)
Definition fixed (p : nat) (f : f32) : string :=
  match f32_val f with
  | S754_nan => "NaN"
  | S754_infinity s => (if s then "-" else "") +:+ "inf"
  | S754_zero s => (if s then "-" else "") +:+ "0." +:+ zeros p
  | S754_finite s m e =>
    let n := round_fixed p (Zpos m) e in
    (if s then "-" else "") +:+ decimal (n / 10 ^ Z.of_nat p) +:+ "." +:+ pad_left p (decimal (n mod 10 ^ Z.of_nat p))
  end.

(** [bool]'s [Display] *)
Definition bool_display (b : bool) : string := if b then "true" else "false".

(** ** Enums and errors *)

Definition Op_debug (o : Op) : string := match o with Read => "Read" | Write => "Write" end.
Definition Status_debug (s : Status) : string :=
  match s with Active => "Active" | Superseded => "Superseded" | Archived => "Archived" end.

Definition StoreError_display (e : StoreError) : string :=
  match e with
  | Backend m => "backend error: " +:+ m
  | SerdeError m => "serialization error: " +:+ m
  | Crypto m => "crypto error: " +:+ m
  end.

Definition SupersessionError_display (e : SupersessionError) : string :=
  match e with
  | NotSupersedes k => "edge kind is " +:+ EdgeKind_debug k +:+ ", not Supersedes"
  | SelfSupersede => "a node cannot supersede itself"
  | MissingNode id => "node " +:+ id +:+ " not in store"
  | Cycle => "edge would close a supersession cycle"
  | Quarantined => "edge is quarantined (a proposal, not a load-bearing supersession)"
  | PlaneViolation => "an Asserted-plane edge cannot supersede a Derived-plane node"
  | SupStore e => StoreError_display e
  end.

Definition AssertError_display (e : AssertError) : string :=
  match e with
  | Unsigned => "assertion is unsigned"
  | BadSignature => "signature invalid"
  | BadAuthor => "author pubkey malformed"
  | AssertStore e => "store error: " +:+ StoreError_display e
  | AssertSupersession e => "supersession rejected: " +:+ SupersessionError_display e
  | AssertSerde m => "serialization error: " +:+ m
  | NotAssertable m => "not assertable: " +:+ m
  | NotAuthor m => "not the author of existing " +:+ m +:+ "; refusing to change another principal's signed state"
  | EdgePromotion m => "diff may not promote quarantined edge " +:+ m +:+ "; use confirm_edge"
  end.

Definition AuthzError_display (e : AuthzError) : string :=
  match e with
  | Revoked => "grant revoked"
  | Expired => "grant expired"
  | GrantUnsigned => "grant unsigned"
  | GrantBadSignature => "grant signature invalid"
  | ResourceDenied r => "resource not in grant scope: " +:+ r
  | OperationDenied op => "operation " +:+ Op_debug op +:+ " not permitted on resource"
  end.

(** The text of [AuditError::Corrupt] *)
Definition CorruptReason_display (r : CorruptReason) : string :=
  match r with
  | HeadSerialize e => "head serialize: " +:+ e
  | RecordUnparseable i e => "record " +:+ pretty i +:+ " unparseable: " +:+ e
  | SequenceBreak i expected found =>
    "sequence break at record " +:+ pretty i +:+ ": expected " +:+ decimal expected +:+ ", found " +:+ decimal found
  | PrevHashBreak seq => "prev_hash break at sequence " +:+ decimal seq
  | HeadMissing e => "head sidecar missing/unreadable (" +:+ e +:+ ") — possible tamper"
  | HeadUnparseable e => "head sidecar unparseable: " +:+ e
  | HeadHashMalformed => "head last_hash is not 32 hex bytes"
  | MoreThanOneInFlight log_len head_len =>
    "log holds " +:+ decimal log_len +:+ " records but head commits to " +:+ decimal head_len +:+ " — more than one in-flight append"
  | HeadHashMismatch head_len => "head hash does not match the log at length " +:+ decimal head_len
  | RecordSerialize e => "record serialize: " +:+ e
  end.

Definition AuditError_display (e : AuditError) : string :=
  match e with
  | Io m => "audit log io: " +:+ m
  | Corrupt r => "audit log corrupt: " +:+ CorruptReason_display r
  | Truncated head log => "audit log truncated: head commits to " +:+ decimal head +:+ " records but log holds " +:+ decimal log
  | Locked m => "audit log is locked by another process: " +:+ m
  end.

(** * JSON values

    [serde_json::Value] and the accessors the servers use.  The map of an object keeps
    one value per key; reading and printing JSON text is a parameter ([SerdeJson]). *)

(** [serde_json::Number]: an unsigned or a negative integer of 64 bits, or a double by its
    bits *)
Inductive Number := PosInt (n : Z) | NegInt (n : Z) | Float64 (bits : Z).

Inductive Value :=
| JNull
| JBool (b : bool)
| JNumber (n : Number)
| JString (s : string)
| JArray (l : list Value)
| JObject (m : gmap string Value).

(** [json!({ .. })] and friends *)
Definition obj (l : list (string * Value)) : Value := JObject (list_to_map l).
Definition jnat (n : nat) : Value := JNumber (PosInt (Z.of_nat n)).
(** [json!] of an [i64] *)
Definition jint (z : Z) : Value := JNumber (if z <? 0 then NegInt z else PosInt z).

(** [Value::get] with a string key *)
Definition jget (v : Value) (k : string) : option Value := match v with JObject m => m !! k | _ => None end.
Definition as_str (v : Value) : option string := match v with JString s => Some s | _ => None end.
Definition as_u64 (v : Value) : option Z := match v with JNumber (PosInt n) => Some n | _ => None end.
Definition as_bool (v : Value) : option bool := match v with JBool b => Some b | _ => None end.

(** [serde_json::from_str] and [to_string(..).unwrap_or_default()] *)
Class SerdeJson := {
  json_from_str : string → result string Value;
  json_to_string : Value → string;
}.

(** Typed deserialization: from text, and from a value *)
Class FromJson (A : Type) := {
  from_json_str : string → result string A;
  from_value : Value → result string A;
}.
#[global] Hint Mode FromJson ! : typeclass_instances.
