(* ===== verification/SyncChain.v ===== *)
(** * Anchors bound to the chain ([mem-sync/src/chain.rs])

    A tenant's root, or an external audit root, recorded together with the head of the
    chain it was witnessed at.  The JSON-RPC endpoint is a parameter ([Rpc]): what it
    answers to a request, a transport error, or a body that is not JSON. *)

From S2P Require Import Prelude Bytes Externs Text Str Belnap Identity Node Edge Grant Kv Shred Store StoreContents Supersession StoreInterface Assert Float.
From S2P Require Import Display Sync SyncAnchor.

(** [ureq::post(url).timeout(15s).send_json(body)], then [into_json()] *)
Class Rpc := send_json : string → Value → result string (result string Value).

Record ChainCheckpoint := { ck_chain_id : Z; ck_block_number : Z; ck_block_hash : string; ck_fetched_at_ms : Timestamp }.
Record ChainAnchorRecord := { car_anchor : AnchorRecord; car_checkpoint : ChainCheckpoint }.

Definition anchor_chain_key (repo : string) : bytes := as_bytes ("chain_anchor:" +:+ repo).
Definition external_checkpoint_key (repo : string) : bytes := as_bytes ("ext_checkpoint:" +:+ repo).
Definition MAX_EXTERNAL_ROOT_LEN : nat := 256.

(** ** Quantities *)

Definition hex_digit_val (b : byte) : option Z :=
  if is_digit b then Some (byte_Z b - 0x30)
  else if in_range 0x61 0x66 b then Some (byte_Z b - 0x57)
  else if in_range 0x41 0x46 b then Some (byte_Z b - 0x37)
  else None.
(** [from_str_radix(s, 16)] of an unsigned type: the digits from the left, the first
    offence reported *)
Fixpoint radix16_go (max acc : Z) (l : bytes) : result string Z :=
  match l with
  | [] => Ok acc
  | b :: l =>
    match hex_digit_val b with
    | None => Err "invalid digit found in string"
    | Some d => if max <? 16 * acc + d then Err "number too large to fit in target type" else radix16_go max (16 * acc + d) l
    end
  end.
Definition from_str_radix16 (max : Z) (l : bytes) : result string Z :=
  match l with
  | [] => Err "cannot parse integer from empty string"
  | [b] => if decide (b = Byte.x2b) then Err "invalid digit found in string" else radix16_go max 0 l
  | b :: k => radix16_go max 0 (if decide (b = Byte.x2b) then k else l)
  end.

Definition hex_to_u64 (s : string) : result SyncError Z :=
  let stripped := default (as_bytes s) (strip_prefix (as_bytes "0x") (as_bytes s)) in
  map_err (λ e, SyncChainFailed ("bad hex quantity '" +:+ s +:+ "': " +:+ e)) (from_str_radix16 u64_max stripped).

(** [{n:x}] *)
Definition hex_lower (n : Z) : string := string_of_bytes (hex_digits 16 n []).

(** ** Requests *)

Section rpc.
Context `{SerdeJson, Rpc}.

Definition rpc_body (method : string) (params : Value) : Value :=
  obj [("jsonrpc", JString "2.0"); ("id", jnat 1); ("method", JString method); ("params", params)].

Definition rpc_call (rpc_url method : string) (params : Value) : result SyncError Value :=
  let? sent := map_err (λ e, SyncChainFailed (method +:+ " RPC failed: " +:+ e)) (send_json rpc_url (rpc_body method params)) in
  let? resp := map_err (λ e, SyncChainFailed (method +:+ " response not JSON: " +:+ e)) sent in
  match jget resp "error" with
  | Some err => Err (SyncChainFailed (method +:+ " RPC error: " +:+ json_to_string err))
  | None => ok_or (jget resp "result") (SyncChainFailed (method +:+ " response missing 'result'"))
  end.

(** A call whose result is a hexadecimal quantity *)
Definition rpc_quantity (rpc_url method : string) : result SyncError Z :=
  let? v := rpc_call rpc_url method (JArray []) in
  let? s := ok_or (as_str v) (SyncChainFailed (method +:+ " result not a string")) in
  hex_to_u64 s.

Definition fetch_chain_checkpoint (rpc_url : string) (expected_chain_id : Z) (now_ms : Timestamp) : result SyncError ChainCheckpoint :=
  let? chain_id := rpc_quantity rpc_url "eth_chainId" in
  if negb (bool_decide (chain_id = expected_chain_id)) then
    Err (SyncChainFailed ("chain id mismatch: RPC is " +:+ decimal chain_id +:+ ", expected " +:+ decimal expected_chain_id))
  else
    let? block_number := rpc_quantity rpc_url "eth_blockNumber" in
    let? block := rpc_call rpc_url "eth_getBlockByNumber" (JArray [JString ("0x" +:+ hex_lower block_number); JBool false]) in
    let? block_hash := ok_or (jget block "hash" ≫= as_str) (SyncChainFailed "block has no hash") in
    Ok {| ck_chain_id := chain_id; ck_block_number := block_number; ck_block_hash := block_hash; ck_fetched_at_ms := now_ms |}.

(** ** Records *)

Context {T : Type} `{MemStore T, Blake3, Hex, Serde AnchorRecord, Serde ChainAnchorRecord}.

Definition put_chain_record (repo : string) (key : bytes) (record : ChainAnchorRecord) : stm T SyncError ChainAnchorRecord :=
  let! b := slift (map_err SyncSerde (to_vec record)) in
  let! _ := smap_err SyncStore (ms_put_meta repo key b) in
  sret record.
Definition read_chain_record (t : T) (key : bytes) : result SyncError (option ChainAnchorRecord) :=
  let? o := map_err SyncStore (ms_get_meta t key) in
  match o with
  | None => Ok None
  | Some b => rmap Some (map_err SyncSerde (from_slice b))
  end.

Definition anchor_tenant_to_chain (repo rpc_url : string) (expected_chain_id : Z) (now_ms : Timestamp) : stm T SyncError ChainAnchorRecord :=
  let! checkpoint := slift (fetch_chain_checkpoint rpc_url expected_chain_id now_ms) in
  let! anchor := anchor_tenant repo now_ms in
  put_chain_record repo (anchor_chain_key repo) {| car_anchor := anchor; car_checkpoint := checkpoint |}.

Definition latest_chain_anchor (t : T) (repo : string) : result SyncError (option ChainAnchorRecord) :=
  read_chain_record t (anchor_chain_key repo).

Definition checkpoint_external_root (repo external_root rpc_url : string) (expected_chain_id : Z) (now_ms : Timestamp)
    : stm T SyncError ChainAnchorRecord :=
  let root := trim (as_bytes external_root) in
  if bool_decide (root = []) then sfail (SyncChainFailed "external root required")
  else if bool_decide (MAX_EXTERNAL_ROOT_LEN < length root)%nat then
    sfail (SyncChainFailed ("external root too long (" +:+ decimal (Z.of_nat (length root)) +:+ " > 256)"))
  else
    let! checkpoint := slift (fetch_chain_checkpoint rpc_url expected_chain_id now_ms) in
    let! prev := sread (λ t, rmap (fmap (λ b, blake3_to_hex (blake3 b))) (map_err SyncStore (ms_get_meta t (external_checkpoint_key repo)))) in
    let anchor := {| a_repo := repo; a_root := string_of_bytes root; a_node_count := 0; a_edge_count := 0;
                     a_anchored_at_ms := now_ms; a_prev := prev |} in
    put_chain_record repo (external_checkpoint_key repo) {| car_anchor := anchor; car_checkpoint := checkpoint |}.

Definition latest_external_checkpoint (t : T) (repo : string) : result SyncError (option ChainAnchorRecord) :=
  read_chain_record t (external_checkpoint_key repo).
End rpc.

Definition SyncError_display (e : SyncError) : string :=
  match e with
  | SyncStore e => "store error: " +:+ StoreError_display e
  | SyncSerde m => "serialization error: " +:+ m
  | SyncChainFailed m => "chain anchor error: " +:+ m
  | Denied e => "merge denied: " +:+ AuthzError_display e
  | UnresolvableEndpoint id => "merge denied: edge endpoint " +:+ id +:+ " owns no resolvable repo (cannot authorize)"
  | UntrustedIssuer => "merge denied: grant issuer is not the trusted grant root"
  | Entropy m => "OS randomness unavailable: " +:+ m
  end.

(** The tests of the source *)
Example hex_to_u64_tests :
  hex_to_u64 "0x9d0c" = Ok 40204 ∧ hex_to_u64 "0x24887" = Ok 149639 ∧ hex_to_u64 "0x0" = Ok 0 ∧ is_ok (hex_to_u64 "0xZZ") = false.
Proof. split_and!; vm_compute; reflexivity. Qed.

(** * Checkpoints of external roots

    A checkpoint that is recorded was witnessed on the expected chain, continues the chain
    of checkpoints of its tenant and is read back; one that fails records nothing. *)

Section checkpoints.
Context {T : Type} `{SerdeJson, Rpc, MemStore T, Blake3, Hex, Serde AnchorRecord, Serde ChainAnchorRecord, !MemStoreLaws T}.

(** serde_json reads a record back, and a record is not an envelope. *)
Class ChainSerdeLaws : Prop :=
  chain_to_vec : ∀ r : ChainAnchorRecord, ∃ b, to_vec r = Ok b ∧ from_slice b = Ok r ∧ ms_meta_value b.

Implicit Types (t : T) (c : conts).

(** The three kinds of records of a tenant live under different keys. *)
Lemma chain_keys_apart r1 r2 :
  external_checkpoint_key r1 ≠ anchor_key r2 ∧ external_checkpoint_key r1 ≠ anchor_chain_key r2 ∧ anchor_chain_key r1 ≠ anchor_key r2.
Proof. by split_and!. Qed.
Lemma external_checkpoint_key_inj r1 r2 : external_checkpoint_key r1 = external_checkpoint_key r2 → r1 = r2.
Proof. intros E%(inj as_bytes). by apply (inj (String.append "ext_checkpoint:")) in E. Qed.

Lemma fetch_on_chain url chain now ck : fetch_chain_checkpoint url chain now = Ok ck → ck_chain_id ck = chain ∧ ck_fetched_at_ms ck = now.
Proof.
  unfold fetch_chain_checkpoint. intros (id & Hid & Hr)%rbind_ok. case_bool_decide as He; cbn [negb] in Hr; [|done].
  apply rbind_ok in Hr as (n & _ & Hr). apply rbind_ok in Hr as (b & _ & Hr). apply rbind_ok in Hr as (h & _ & [= <-]). done.
Qed.

Lemma put_chain_record_ok `{!ChainSerdeLaws} repo key record t c : ms_holds t c →
  ∃ t' r, put_chain_record repo key record t = (t', r) ∧ ms_sealing t' = ms_sealing t ∧
    match r with
    | Ok x => x = record ∧ ∃ b, from_slice b = Ok record ∧ ms_holds t' (c_put_meta key b c)
    | Err _ => ms_holds t' c ∧ ms_sealing t = true
    end.
Proof.
  intros Ht. destruct (chain_to_vec record) as (b & Hto & Hfrom & Hmv). unfold put_chain_record, sbind, slift. rewrite Hto. cbn [map_err].
  destruct (ms_put_meta_ok t c repo key b Ht (λ _, Hmv)) as (t' & r & Hp & Hs & Hr). unfold smap_err. rewrite Hp.
  destruct r as [[]|e]; cbn [map_err]; eexists t', _; (split; [done|]); (split; [done|]); [destruct Hr; eauto|done].
Qed.

(** An external root is recorded faithfully or not at all.  When the call succeeds the
    root is the submitted one without surrounding space, neither empty nor over 256 bytes;
    the endpoint's chain id is the expected one; the record links to the hash of the bytes
    of the tenant's previous checkpoint, is the one read back, and nothing else in the
    store changed, so graph anchors and other tenants keep theirs.  When it fails the store
    is as before.  On a plain store it fails only for a bad root or a bad endpoint. *)
Theorem checkpoint_external_root_faithful `{!ChainSerdeLaws} repo root url chain now t c (Ht : ms_holds t c) :
  ∃ t' r, checkpoint_external_root repo root url chain now t = (t', r) ∧
    match r with
    | Ok rec =>
      as_bytes (a_root (car_anchor rec)) = trim (as_bytes root) ∧ (0 < length (trim (as_bytes root)) ≤ 256)%nat ∧
      fetch_chain_checkpoint url chain now = Ok (car_checkpoint rec) ∧ ck_chain_id (car_checkpoint rec) = chain ∧
      a_prev (car_anchor rec) = (λ b, blake3_to_hex (blake3 b)) <$> c_meta c !! external_checkpoint_key repo ∧
      latest_external_checkpoint t' repo = Ok (Some rec) ∧
      ∃ b, ms_holds t' (c_put_meta (external_checkpoint_key repo) b c) ∧ latest_anchor t' repo = latest_anchor t repo ∧
           latest_chain_anchor t' repo = latest_chain_anchor t repo ∧
           ∀ repo', repo' ≠ repo → latest_external_checkpoint t' repo' = latest_external_checkpoint t repo'
    | Err _ =>
      ms_holds t' c ∧
      (trim (as_bytes root) = [] ∨ (256 < length (trim (as_bytes root)))%nat ∨ is_ok (fetch_chain_checkpoint url chain now) = false ∨
       ms_sealing t = true)
    end.
Proof.
  unfold checkpoint_external_root, MAX_EXTERNAL_ROOT_LEN. cbv zeta. case_bool_decide as He; [eexists t, _; split; [done|]; split; auto|].
  case_bool_decide as Hl; [eexists t, _; split; [done|]; split; auto|].
  destruct (fetch_chain_checkpoint url chain now) as [ck|e] eqn:Hf; [|eexists t, _; split; [done|]; split; auto].
  rewrite (sbind_ok _ _ t t ck) by done.
  rewrite (sbind_ok _ _ t t ((λ b, blake3_to_hex (blake3 b)) <$> c_meta c !! external_checkpoint_key repo))
    by (unfold sread; by rewrite (ms_get_meta_ok t c)).
  cbv beta zeta.
  match goal with |- context [put_chain_record repo ?k ?r t] => destruct (put_chain_record_ok repo k r t c Ht) as (t' & x & Hp & _ & Hx) end.
  eexists t', x. split; [exact Hp|]. destruct x as [rec|e]; [|naive_solver]. destruct Hx as [-> (b & Hfrom & Ht')]. cbn [car_anchor car_checkpoint a_root a_prev].
  assert (∀ k, k ≠ external_checkpoint_key repo → ms_get_meta t' k = ms_get_meta t k) as Hk.
  { intros k Hne. rewrite (ms_get_meta_ok _ _ _ Ht'), (ms_get_meta_ok _ _ _ Ht). cbn. by rewrite lookup_insert_ne. }
  split; [apply String.list_byte_of_string_of_list_byte|]. split; [destruct (trim _); [done|cbn in *; lia]|]. split; [done|].
  split; [by apply (fetch_on_chain url chain now)|]. split; [done|]. split.
  { unfold latest_external_checkpoint, read_chain_record. rewrite (ms_get_meta_ok _ _ _ Ht'). cbn. by rewrite lookup_insert_eq, Hfrom. }
  exists b. split; [done|]. split; [unfold latest_anchor; by rewrite Hk|]. split.
  { unfold latest_chain_anchor, read_chain_record. by rewrite Hk. }
  intros repo' Hr. unfold latest_external_checkpoint, read_chain_record. rewrite Hk; [done|]. intros E%external_checkpoint_key_inj. done.
Qed.

(** An endpoint that cannot be verified leaves the tenant's anchor chain alone. *)
Theorem anchor_to_chain_fail_closed repo url chain now t (Hf : is_ok (fetch_chain_checkpoint url chain now) = false) :
  ∃ e, anchor_tenant_to_chain repo url chain now t = (t, Err e).
Proof. unfold anchor_tenant_to_chain, sbind, slift. destruct (fetch_chain_checkpoint url chain now) as [|e]; [done|]. by exists e. Qed.
End checkpoints.
