(* ===== verification/Transport.v ===== *)
(** * The bundle transport ([mem-sync/src/transport.rs])

    One HTTP connection of a federation peer: the bounded request line and headers, the
    credential every request carries, and the two routes.  A connection is the bytes the
    peer sends, what the socket does after them (end of file, or an error such as a
    timeout) and the bytes written back.  The HTTP client of the other side is a parameter
    ([Http]), and so is the JSON text of a bundle. *)

From S2P Require Import Prelude Bytes Externs Text Str Belnap Identity Node Edge Grant Kv Shred Store StoreContents Supersession.
From S2P Require Import StoreInterface Join Assert Float Display Sync SyncAnchor SyncChain.

(** [SyncBundle::to_json] and [from_json] before their error is wrapped *)
Class BundleText := {
  bundle_to_string : SyncBundle → result string string;
  bundle_from_str : string → result string SyncBundle;
}.
(** A request of the [ureq] client with its headers: a failure, or a response whose body
    may fail to read *)
Class Http := {
  http_get : string → list (string * string) → result string (result string string);
  http_post : string → list (string * string) → string → result string (result string string);
}.

Definition MAX_BODY_BYTES : Z := 64 * 1024 * 1024.
Definition MAX_HEADER_BYTES : nat := 16 * 1024.

(** ** Connections *)

Record Conn := {
  (** bytes still to be read, and the error after them, if the peer did not close *)
  cn_in : bytes;
  cn_end : option string;
  (** bytes written; the error of a write, and how much of it goes out *)
  cn_out : bytes;
  cn_write_fault : option (nat * string);
  (** the error of setting the timeouts or cloning the socket *)
  cn_setup : option string;
}.

Definition after_read (rest : bytes) (c : Conn) : Conn :=
  {| cn_in := rest; cn_end := cn_end c; cn_out := cn_out c; cn_write_fault := cn_write_fault c; cn_setup := cn_setup c |}.
Definition after_write (b : bytes) (c : Conn) : Conn :=
  {| cn_in := cn_in c; cn_end := cn_end c; cn_out := cn_out c ++ b; cn_write_fault := cn_write_fault c; cn_setup := cn_setup c |}.

Definition io_err (e : string) : SyncError := SyncChainFailed ("transport io: " +:+ e).

(** The bytes up to a newline or a limit; [false] when the input ended first *)
Fixpoint until_newline (limit : nat) (l : bytes) : bytes * bytes * bool :=
  match limit, l with
  | O, _ => ([], l, true)
  | S _, [] => ([], [], false)
  | S limit, b :: l =>
    if decide (b = newline) then ([b], l, true)
    else let '(line, rest, full) := until_newline limit l in (b :: line, rest, full)
  end.

(** [reader.by_ref().take(limit).read_line(line)] *)
Definition read_line (limit : nat) : stm Conn SyncError bytes :=
  λ c, let '(line, rest, full) := until_newline limit (cn_in c) in
       (after_read rest c,
        match (full : bool), cn_end c with
        | false, Some e => Err (io_err e)
        | _, _ => if utf8_valid line then Ok line else Err (io_err "stream did not contain valid UTF-8")
        end).

(** [read_to_end] of [take(limit)] *)
Definition read_body (limit : nat) : stm Conn SyncError bytes :=
  λ c, (after_read (drop limit (cn_in c)) c,
        match cn_end c with
        | Some e => if bool_decide (length (cn_in c) < limit)%nat then Err (io_err e) else Ok (take limit (cn_in c))
        | None => Ok (take limit (cn_in c))
        end).

Definition crlf : string := string_of_bytes [Byte.x0d; newline].
Definition response (code : Z) (reason body : string) : string :=
  "HTTP/1.1 " +:+ decimal code +:+ " " +:+ reason +:+ crlf +:+ "content-type: application/json" +:+ crlf +:+ "content-length: "
  +:+ decimal (Z.of_nat (String.length body)) +:+ crlf +:+ "connection: close" +:+ crlf +:+ crlf +:+ body.

Definition write_json (code : Z) (reason body : string) : stm Conn SyncError unit :=
  λ c, let resp := as_bytes (response code reason body) in
       match cn_write_fault c with
       | Some (n, e) => (after_write (take n resp) c, Err (io_err e))
       | None => (after_write resp c, Ok tt)
       end.

(** ** The request *)

(** The line and what is left of the budget; no line when the section is too large *)
Definition read_bounded (budget : nat) : stm Conn SyncError (option bytes * nat) :=
  let! line := read_line budget in
  let left := (budget - length line)%nat in
  if bool_decide (0 < length line)%nat && negb (bool_decide (last line = Some newline)) && bool_decide (left = O)
  then sret (None, left) else sret (Some line, left).

Record Headers := { hd_content_length : Z; hd_credential : option string }.

Definition header_line (h : Headers) (trimmed : bytes) : Headers :=
  let lower := ascii_lowercase trimmed in
  match strip_prefix (as_bytes "content-length:") lower with
  | Some v => {| hd_content_length := default 0 (parse_u64 (trim v)); hd_credential := hd_credential h |}
  | None =>
    if starts_with (as_bytes "authorization:") lower
    then {| hd_content_length := hd_content_length h; hd_credential := Some (string_of_bytes (trim (drop 14 trimmed))) |}
    else h
  end.

(** The header loop; [None] when the section is too large *)
Fixpoint read_headers (fuel budget : nat) (h : Headers) : stm Conn SyncError (option Headers) :=
  match fuel with
  | O => sret (Some h)
  | S fuel =>
    let! p := read_bounded budget in
    match p.1 with
    | None => sret None
    | Some line =>
      if bool_decide (line = []) then sret (Some h)
      else if bool_decide (trim_end line = []) then sret (Some h)
      else read_headers fuel p.2 (header_line h (trim_end line))
    end
  end.

(** What arrived: nothing, a section over the bound (with the request line, once that was
    read), or a request *)
Inductive Arrival :=
| NoRequest
| TooLarge (line : option (string * string))
| Request (method path : string) (h : Headers).

Definition request_target (line : bytes) : string * string :=
  let parts := split_whitespace line in
  (string_of_bytes (default [] (parts !! 0%nat)), string_of_bytes (default [] (parts !! 1%nat))).

Definition read_request : stm Conn SyncError Arrival :=
  let! p := read_bounded MAX_HEADER_BYTES in
  match p.1 with
  | None => sret (TooLarge None)
  | Some line =>
    if bool_decide (line = []) then sret NoRequest
    else
      let '(method, path) := request_target line in
      let! o := read_headers (S p.2) p.2 {| hd_content_length := 0; hd_credential := None |} in
      match o with
      | None => sret (TooLarge (Some (method, path)))
      | Some h => sret (Request method path h)
      end
  end.

(** ** Credentials *)

Record PeerAuth := { pa_trust_root : bytes; pa_audience : string; pa_revoked_ids : gset string }.

Definition is_blank (s : string) : bool := bool_decide (trim (as_bytes s) = []).

Definition PeerAuth_new (trust_root : bytes) (audience : string) (revoked_ids : gset string) : result SyncError PeerAuth :=
  if is_blank audience then Err (SyncChainFailed "PeerAuth: audience (this peer's id) must not be empty")
  else Ok {| pa_trust_root := trust_root; pa_audience := audience; pa_revoked_ids := revoked_ids |}.

Definition audience_resource (peer_id : string) : string := "peer:" +:+ peer_id.

Section transport.
Context {T : Type} `{MemStore T, Blake3, Hex, Ed25519, CharTables, Serde CapabilityGrant, SerdeJson, BundleText, Http}.
(** The text of a [FromUtf8Error] *)
Context (utf8_error : bytes → string).

Definition encode_credential (grant : CapabilityGrant) : result SyncError string :=
  rmap hex_encode (map_err SyncSerde (to_vec grant)).

Definition bearer_token (header_value : string) : option bytes :=
  let raw := trim (as_bytes header_value) in
  trim <$> match strip_prefix (as_bytes "Bearer ") raw with
           | Some t => Some t
           | None => strip_prefix (as_bytes "bearer ") raw
           end.

Definition addressed_to (audience : string) (grant : CapabilityGrant) : bool :=
  existsb (λ r, bool_decide (resource_id r = audience_resource audience) && Grant.can_read r) (g_allowed_resources grant).

Definition verify_credential (auth : PeerAuth) (now_ms : Timestamp) (header_value : string) : option CapabilityGrant :=
  token ← bearer_token header_value;
  b ← rok (hex_decode (string_of_bytes token));
  grant ← rok (from_slice b);
  if is_blank (pa_audience auth) then None
  else if negb (is_ok (verify_signature grant))
          || negb (bool_decide (g_issuer_pubkey grant = pa_trust_root auth))
          || g_revoked grant
          || bool_decide (g_id grant ∈ pa_revoked_ids auth)
          || negb (addressed_to (pa_audience auth) grant)
          || (g_expires_at_ms grant <=? now_ms)
       then None
       else Some grant.

(** ** Outcomes on the wire *)

Definition outcome_fields (o : MergeOutcome) : list (string * nat) :=
  [("nodes_added", nodes_added o); ("nodes_merged", nodes_merged o); ("edges_added", edges_added o); ("edges_merged", edges_merged o);
   ("superseded", superseded o); ("rejected_supersessions", rejected_supersessions o); ("rejected_signatures", rejected_signatures o);
   ("contradictions", contradictions o)].
Definition quoted (s : string) : string := string_of_bytes [quote_byte] +:+ s +:+ string_of_bytes [quote_byte].
Definition outcome_json (o : MergeOutcome) : string :=
  "{" +:+ String.concat "," ((λ p, quoted p.1 +:+ ":" +:+ decimal (Z.of_nat p.2)) <$> outcome_fields o) +:+ "}".

Definition parse_outcome (s : string) : result SyncError MergeOutcome :=
  let? v := map_err SyncSerde (json_from_str s) in
  let g k := Z.to_nat (default 0 (jget v k ≫= as_u64)) in
  Ok {| nodes_added := g "nodes_added"; nodes_merged := g "nodes_merged"; edges_added := g "edges_added"; edges_merged := g "edges_merged";
        superseded := g "superseded"; rejected_supersessions := g "rejected_supersessions";
        rejected_signatures := g "rejected_signatures"; contradictions := g "contradictions" |}.

(** ** Routes *)

Definition to_json (b : SyncBundle) : result SyncError string := map_err SyncSerde (bundle_to_string b).
Definition from_json (s : string) : result SyncError SyncBundle := map_err SyncSerde (bundle_from_str s).

Abbreviation serving A := (stm (Conn * T) SyncError A).
Definition on_conn {A} (m : stm Conn SyncError A) : serving A := λ '(c, t), let '(c', r) := m c in ((c', t), r).
Definition on_dag {A} (m : stm T SyncError A) : serving A := λ '(c, t), let '(t', r) := m t in ((c, t'), r).
(** Run a fallible step and look at its result *)
Definition attempt {A} (m : serving A) : serving (result SyncError A) := λ st, let '(st', r) := m st in (st', Ok r).
Definition error_body (m : string) : string := "{" +:+ quoted "error" +:+ ":" +:+ quoted m +:+ "}".

Fixpoint strip_all (fuel : nat) (p l : bytes) : bytes :=
  match fuel with
  | O => l
  | S fuel => match strip_prefix p l with Some k => strip_all fuel p k | None => l end
  end.
(** [path.trim_start_matches(p)] for a string [p] *)
Definition trim_start_str (p l : bytes) : bytes := strip_all (length l) p l.

Definition serve_bundle (grant : CapabilityGrant) (now_ms : Timestamp) (path : string) : serving string :=
  let repo := string_of_bytes (trim_start_str (as_bytes "/bundle/") (as_bytes path)) in
  if negb (is_ok (check grant (resource_for repo) Read now_ms)) then
    let! _ := on_conn (write_json 403 "Forbidden" (error_body "not authorized to read tenant")) in
    sret ("GET /bundle/" +:+ repo +:+ " (403)")
  else
    let! bundle := on_dag (sread (λ t, export_tenant t repo now_ms)) in
    let! text := slift (to_json bundle) in
    let! _ := on_conn (write_json 200 "OK" text) in
    sret ("GET /bundle/" +:+ repo).

Definition serve_merge (auth : PeerAuth) (grant : CapabilityGrant) (now_ms : Timestamp) (content_length : Z) : serving string :=
  if MAX_BODY_BYTES <? content_length then
    let! _ := on_conn (write_json 413 "Payload Too Large" (error_body "bundle too large")) in
    sret "POST /merge (rejected: too large)"
  else
    let! body := on_conn (read_body (Z.to_nat content_length)) in
    if negb (utf8_valid body) then sfail (SyncChainFailed ("merge body utf8: " +:+ utf8_error body))
    else
      let! r := attempt (let! b := slift (from_json (string_of_bytes body)) in
                         on_dag (merge_bundle b grant (pa_trust_root auth) now_ms)) in
      match r with
      | Ok outcome =>
        let! _ := on_conn (write_json 200 "OK" (outcome_json outcome)) in
        sret "POST /merge"
      | Err e =>
        let! _ := on_conn (write_json 400 "Bad Request" ("{" +:+ quoted "error" +:+ ":" +:+ str_debug (SyncError_display e) +:+ "}")) in
        sret "POST /merge (rejected)"
      end.

Definition route (auth : PeerAuth) (now_ms : Timestamp) (method path : string) (h : Headers) : serving string :=
  match hd_credential h ≫= verify_credential auth now_ms with
  | None =>
    let! _ := on_conn (write_json 401 "Unauthorized" (error_body "missing or invalid peer credential")) in
    sret (method +:+ " " +:+ path +:+ " (401)")
  | Some grant =>
    if bool_decide (method = "GET") && starts_with (as_bytes "/bundle/") (as_bytes path) then serve_bundle grant now_ms path
    else if bool_decide (method = "POST") && bool_decide (path = "/merge") then serve_merge auth grant now_ms (hd_content_length h)
    else
      let! _ := on_conn (write_json 404 "Not Found" (error_body "no such route")) in
      sret (method +:+ " " +:+ path +:+ " (404)")
  end.

Definition too_large : serving unit := on_conn (write_json 431 "Request Header Fields Too Large" (error_body "headers too large")).

(** [handle_conn]; [now_ms] is the system clock when the headers are in *)
Definition handle_conn (auth : PeerAuth) (now_ms : Timestamp) : serving (option string) :=
  let! _ := on_conn (sread (λ c, match cn_setup c with Some e => Err (io_err e) | None => Ok tt end)) in
  let! a := on_conn read_request in
  match a with
  | NoRequest => sret None
  | TooLarge None => let! _ := too_large in sret (Some "(rejected: headers too large)")
  | TooLarge (Some (method, path)) => let! _ := too_large in sret (Some (method +:+ " " +:+ path +:+ " (rejected: headers too large)"))
  | Request method path h => let! label := route auth now_ms method path h in sret (Some label)
  end.

(** [serve_one]: what [accept] yields, then the connection *)
Definition serve_one (auth : PeerAuth) (now_ms : Timestamp) (accepted : result string Conn) (t : T) : T * result SyncError (option string) :=
  match accepted with
  | Err e => (t, Err (io_err e))
  | Ok c => let '((_, t'), r) := handle_conn auth now_ms (c, t) in (t', r)
  end.

(** ** The client *)

Definition is_slash (c : Z) : bool := c =? 0x2f.
Definition base (url : string) : string := string_of_bytes (trim_end_matches is_slash (as_bytes url)).
Definition bearer_header (cred : string) : string * string := ("authorization", "Bearer " +:+ cred).
Definition body_of (what url : string) (sent : result string (result string string)) : result SyncError string :=
  let? got := map_err (λ e, SyncChainFailed (what +:+ " " +:+ url +:+ " failed: " +:+ e)) sent in
  map_err (λ e, SyncChainFailed (what +:+ " " +:+ url +:+ " body: " +:+ e)) got.

Definition pull_bundle (base_url repo : string) (credential : CapabilityGrant) : result SyncError SyncBundle :=
  let url := base base_url +:+ "/bundle/" +:+ repo in
  let? cred := encode_credential credential in
  let? body := body_of "pull" url (http_get url [bearer_header cred]) in
  from_json body.

Definition push_bundle (base_url : string) (bundle : SyncBundle) (credential : CapabilityGrant) : result SyncError MergeOutcome :=
  let url := base base_url +:+ "/merge" in
  let? json := to_json bundle in
  let? cred := encode_credential credential in
  let? resp := body_of "push" url (http_post url [bearer_header cred; ("content-type", "application/json")] json) in
  parse_outcome resp.

Definition pull_and_merge (base_url repo : string) (credential grant : CapabilityGrant) (trust_root : bytes) (now_ms : Timestamp)
    : stm T SyncError MergeOutcome :=
  let! bundle := slift (pull_bundle base_url repo credential) in
  merge_bundle bundle grant trust_root now_ms.
End transport.
