(* ===== verification/TransportProps.v ===== *)
(** * Properties of the bundle transport

    What a connection can do to the store and what it can learn from it, how much of it is
    read, and the credentials a peer honours. *)

From S2P Require Import Prelude Bytes Externs Text Str Belnap Identity Node Edge Grant Kv Shred Store StoreContents Supersession.
From S2P Require Import StoreInterface Join Assert Float Display Frontmatter Sync SyncProps SyncAnchor SyncChain Transport.

(** ** Reading within bounds *)

Lemma until_newline_spec limit l line rest full : until_newline limit l = (line, rest, full) →
  l = line ++ rest ∧ (length line ≤ limit)%nat ∧ (line = [] → limit = O ∨ l = []).
Proof.
  revert l line rest full. induction limit as [|limit IH]; intros [|b l] line rest full; cbn [until_newline];
    [intros [= <- <- <-]; split_and!; auto; cbn; lia..|].
  case_decide; [intros [= <- <- <-]; split_and!; cbn; auto; [lia|done]|].
  destruct (until_newline limit l) as [[line' rest'] full'] eqn:E. intros [= <- <- <-]. destruct (IH _ _ _ _ E) as (-> & Hl & _).
  split_and!; cbn; [done|lia|done].
Qed.

(** A step over the connection takes a prefix of at most [n] bytes off the input and writes
    nothing. *)
Definition takes (n : nat) (c c' : Conn) : Prop := ∃ pre, c' = after_read (cn_in c') c ∧ cn_in c = pre ++ cn_in c' ∧ (length pre ≤ n)%nat.

Lemma takes_refl n c : takes n c c.
Proof. exists []. split_and!; [by destruct c|done|cbn; lia]. Qed.
Lemma takes_le n m c c' : (n ≤ m)%nat → takes n c c' → takes m c c'.
Proof. intros Hn (pre & H1 & H2 & H3). exists pre. split_and!; [done|done|lia]. Qed.
Lemma takes_trans n m c1 c2 c3 : takes n c1 c2 → takes m c2 c3 → takes (n + m) c1 c3.
Proof.
  intros (p & E1 & I1 & L1) (q & E2 & I2 & L2). exists (p ++ q). split_and!.
  - rewrite E2 at 1. rewrite E1. done.
  - by rewrite I1, I2, app_assoc.
  - rewrite length_app. lia.
Qed.

Lemma read_line_takes budget c c' r : read_line budget c = (c', r) → takes budget c c' ∧
  ∀ line, r = Ok line → takes (length line) c c' ∧ (length line ≤ budget)%nat.
Proof.
  unfold read_line. destruct (until_newline budget (cn_in c)) as [[line rest] full] eqn:E.
  destruct (until_newline_spec _ _ _ _ _ E) as (Hin & Hl & _). intros [= <- <-].
  assert (∀ n, (length line ≤ n)%nat → takes n c (after_read rest c)) as Ht by (intros n Hn; by exists line).
  split; [by apply Ht|]. intros x Hx. assert (x = line) as -> by (destruct full, (cn_end c), (utf8_valid line); congruence).
  split; [by apply Ht|done].
Qed.

Lemma read_bounded_takes budget c c' r : read_bounded budget c = (c', r) → takes budget c c' ∧
  ∀ o left, r = Ok (o, left) → takes (budget - left) c c' ∧ (left ≤ budget)%nat ∧
    ∀ line, o = Some line → left = (budget - length line)%nat ∧ (length line ≤ budget)%nat.
Proof.
  intros Hr. unfold read_bounded in Hr. apply sbind_inv in Hr as [(c1 & line & Hl & Hr)|(e & Hl & ->)].
  2:{ split; [by eapply read_line_takes|]. done. }
  destruct (read_line_takes _ _ _ _ Hl) as [Hb Ho]. destruct (Ho line eq_refl) as [Ht Hle].
  destruct (_ && _); injection Hr as <- <-; (split; [done|]); intros o left [= <- <-];
    (split_and!; [by replace (budget - (budget - length line))%nat with (length line) by lia|lia|]); by intros x [= <-].
Qed.

Lemma read_headers_takes fuel budget h c c' r : read_headers fuel budget h c = (c', r) → takes budget c c'.
Proof.
  revert budget h c. induction fuel as [|fuel IH]; intros budget h c Hr; cbn [read_headers] in Hr.
  { injection Hr as <- _. apply takes_refl. }
  apply sbind_inv in Hr as [(c1 & [o left] & Hb & Hr)|(e & Hb & _)]; destruct (read_bounded_takes _ _ _ _ Hb) as [Ht Ho]; [|done].
  cbn [fst snd] in Hr. destruct o as [line|]; [|by injection Hr as <- _]. case_bool_decide; [by injection Hr as <- _|].
  case_bool_decide; [by injection Hr as <- _|]. destruct (Ho _ _ eq_refl) as (Hle & Hl & _). apply IH in Hr.
  eapply takes_le; [|by eapply takes_trans]. lia.
Qed.

(** Enough fuel: every line that does not end the headers uses up a byte of the budget. *)
Lemma read_headers_fuel f1 f2 budget h c : (budget < f1)%nat → (budget < f2)%nat → read_headers f1 budget h c = read_headers f2 budget h c.
Proof.
  revert f2 budget h c. induction f1 as [|f1 IH]; intros [|f2] budget h c H1 H2; [lia..|]. cbn [read_headers]. unfold sbind.
  destruct (read_bounded budget c) as [c1 [[o left]|e]] eqn:Hb; [|done]. cbn [fst snd]. destruct o as [line|]; [|done].
  case_bool_decide as Hne; [done|]. case_bool_decide; [done|].
  destruct (proj2 (read_bounded_takes _ _ _ _ Hb) _ _ eq_refl) as (_ & _ & Hl). destruct (Hl line eq_refl) as [-> Hle].
  assert (0 < length line)%nat by (destruct line; [done|cbn; lia]). apply IH; lia.
Qed.

Lemma read_request_takes c c' r : read_request c = (c', r) → takes MAX_HEADER_BYTES c c'.
Proof.
  intros Hr. unfold read_request in Hr.
  apply sbind_inv in Hr as [(c1 & [o left] & Hb & Hr)|(e & Hb & _)]; destruct (read_bounded_takes _ _ _ _ Hb) as [Ht Ho]; [|done].
  cbn [fst snd] in Hr. destruct o as [line|]; [|by injection Hr as <- _]. case_bool_decide; [by injection Hr as <- _|].
  destruct (request_target line) as [method path]. destruct (Ho _ _ eq_refl) as (Hle & Hl & _).
  apply sbind_inv in Hr as [(c2 & o & Hh & Hr)|(e & Hh & _)]; apply read_headers_takes in Hh.
  - destruct o; injection Hr as <- _; (eapply takes_le; [|by eapply takes_trans]); lia.
  - eapply takes_le; [|by eapply takes_trans]. lia.
Qed.

Lemma read_body_takes n c c' r : read_body n c = (c', r) → takes n c c' ∧ ∀ b, r = Ok b → (length b ≤ n)%nat.
Proof.
  unfold read_body. intros [= <- <-]. split.
  - exists (take n (cn_in c)). split_and!; [done|cbn; by rewrite take_drop|rewrite length_take; lia].
  - intros b Hb. assert (b = take n (cn_in c)) as -> by (destruct (cn_end c); [case_bool_decide|]; congruence). rewrite length_take. lia.
Qed.

Section transport_props.
Context {T : Type} `{MemStore T, Blake3, Hex, Ed25519, CharTables, Serde CapabilityGrant, SerdeJson, BundleText, Http}.
Context (utf8_error : bytes → string).

Implicit Types (auth : PeerAuth) (g : CapabilityGrant) (t : T).

(** ** Credentials *)

(** The grants a peer honours at a time *)
Definition honoured auth (now : Timestamp) g : Prop :=
  is_blank (pa_audience auth) = false ∧ verify_signature g = Ok tt ∧ g_issuer_pubkey g = pa_trust_root auth ∧ g_revoked g = false ∧
  g_id g ∉ pa_revoked_ids auth ∧
  (∃ r, r ∈ g_allowed_resources g ∧ resource_id r = audience_resource (pa_audience auth) ∧ Grant.can_read r = true) ∧
  now < g_expires_at_ms g.

Lemma addressed_to_iff audience g : addressed_to audience g = true ↔
  ∃ r, r ∈ g_allowed_resources g ∧ resource_id r = audience_resource audience ∧ Grant.can_read r = true.
Proof.
  unfold addressed_to. rewrite existsb_exists. setoid_rewrite andb_true_iff. setoid_rewrite bool_decide_eq_true.
  by setoid_rewrite list_elem_of_In.
Qed.

Lemma verify_credential_iff auth now v g : verify_credential auth now v = Some g ↔
  (∃ token b, bearer_token v = Some token ∧ hex_decode (string_of_bytes token) = Ok b ∧ from_slice b = Ok g) ∧ honoured auth now g.
Proof.
  unfold verify_credential, honoured. rewrite <- addressed_to_iff.
  destruct (bearer_token v) as [token|]; cbn; [|split; [done|by intros [(? & ? & ? & _) _]]].
  destruct (hex_decode (string_of_bytes token)) as [b|] eqn:Hb; cbn; [|split; [done|intros [(? & ? & [= <-] & E & _) _]; congruence]].
  destruct (from_slice b) as [g'|] eqn:Hg; cbn; [|split; [done|intros [(? & ? & [= <-] & E & Hs) _]; congruence]].
  split.
  - destruct (is_blank _); [done|]. destruct (_ || _) eqn:E; [done|]. intros [= <-]. rewrite !orb_false_iff, !negb_false_iff in E.
    destruct E as (((((Hv & Hi) & Hr) & Hd) & Ha) & Hx). split; [by exists token, b|].
    split_and!; [done|by destruct (verify_signature g') as [[]|]|exact (bool_decide_eq_true_1 _ Hi)|done|exact (bool_decide_eq_false_1 _ Hd)|done|lia].
  - intros [(t' & b' & [= <-] & E1 & E2) (Hbl & Hv & Hi & Hr & Hd & Ha & Hx)]. assert (b' = b) as -> by congruence. assert (g' = g) as -> by congruence.
    rewrite Hbl, Hv, Hr, Ha. cbn. rewrite (bool_decide_eq_true_2 _ Hi), (bool_decide_eq_false_2 _ Hd). cbn.
    by rewrite (proj2 (Z.leb_gt _ _)).
Qed.

(** [hex::encode] yields lower-case hexadecimal digits; serde_json reads a grant back, and
    its text is not empty. *)
Class HexText : Prop := hex_encode_digits : ∀ b x, x ∈ as_bytes (hex_encode b) → is_digit x = true ∨ in_range 0x61 0x66 x = true.
Class GrantSerdeLaws : Prop := grant_from_to : ∀ g b, to_vec g = Ok b → from_slice b = Ok g ∧ b ≠ [].

Lemma hex_byte_plain x : is_digit x = true ∨ in_range 0x61 0x66 x = true → is_ascii_byte x = true ∧ is_whitespace (byte_Z x) = false.
Proof. destruct x; intros [E|E]; done. Qed.

Lemma trimmed_ends l : is_ascii l → (∀ y, head l = Some y ∨ last l = Some y → is_whitespace (byte_Z y) = false) → trim l = l.
Proof.
  intros Ha Hy. apply trim_fix. unfold trimmed, chars. rewrite chunks_ascii by done. rewrite <-list_fmap_compose, fmap_head, fmap_last.
  apply Forall_app. split; [destruct (head l) eqn:E|destruct (last l) eqn:E]; cbn; try done; (apply Forall_singleton; apply Hy; auto).
Qed.

Lemma bearer_token_hex `{!HexText, !HexLaws} b : b ≠ [] → bearer_token ("Bearer " +:+ hex_encode b) = Some (as_bytes (hex_encode b)).
Proof.
  intros Hb. unfold bearer_token. rewrite as_bytes_app. set (l := as_bytes (hex_encode b)).
  assert (∀ x, x ∈ l → is_ascii_byte x = true ∧ is_whitespace (byte_Z x) = false) as Hl by (intros x Hx; by eapply hex_byte_plain, hex_encode_digits).
  assert (l ≠ []) as Hne.
  { intros E. apply (f_equal length) in E. unfold l in E. rewrite length_as_bytes, hex_encode_length in E. destruct b; [done|cbn in E; lia]. }
  assert (is_ascii l) as Ha by (apply Forall_forall; intros x Hx; by apply Hl).
  rewrite trimmed_ends.
  - change (strip_prefix (as_bytes "Bearer ") (as_bytes "Bearer " ++ l)) with (Some l). cbn. rewrite trimmed_ends; [done|done|].
    intros y [Hy|Hy]; apply Hl; [destruct l; [done|injection Hy as ->; left]|by apply last_Some_elem_of].
  - apply is_ascii_app. split; [by repeat constructor|done].
  - intros y [[= <-]|Hy]; [done|]. apply Hl. rewrite last_app in Hy. destruct (last l) eqn:E; [|by apply last_None in E].
    injection Hy as <-. by apply last_Some_elem_of.
Qed.

(** The credential a client sends is the grant the server checks: the header made from a
    grant is accepted exactly when this peer honours the grant, and what is then checked is
    that grant. *)
Theorem credential_roundtrip `{!HexText, !HexLaws, !GrantSerdeLaws} auth now g cred (Henc : encode_credential g = Ok cred) :
  (honoured auth now g → verify_credential auth now (bearer_header cred).2 = Some g) ∧
  (¬ honoured auth now g → verify_credential auth now (bearer_header cred).2 = None).
Proof.
  unfold encode_credential in Henc. destruct (to_vec g) as [b|] eqn:Hv; [|done]. injection Henc as <-.
  destruct (grant_from_to g b Hv) as [Hg Hb]. unfold bearer_header. cbn [snd].
  assert (∀ g', verify_credential auth now ("Bearer " +:+ hex_encode b) = Some g' → g' = g ∧ honoured auth now g') as Hs.
  { intros g' [(token & b' & Ht & Hd & Hf) Hh]%verify_credential_iff. rewrite bearer_token_hex in Ht by done. injection Ht as <-.
    unfold string_of_bytes, as_bytes in Hd. rewrite String.string_of_list_byte_of_string, hex_decode_encode in Hd. injection Hd as <-.
    split; [congruence|done]. }
  split.
  - intros Hh. apply verify_credential_iff. split; [|done]. exists (as_bytes (hex_encode b)), b. split_and!; [by apply bearer_token_hex| |done].
    unfold string_of_bytes, as_bytes. by rewrite String.string_of_list_byte_of_string, hex_decode_encode.
  - intros Hn. destruct (verify_credential _ _ _) as [g'|] eqn:E; [|done]. destruct (Hs g' eq_refl) as [-> ?]. done.
Qed.

(** ** What a connection does *)

(** The bytes written are the beginning of a response. *)
Definition wrote (c c' : Conn) (resp : string) : Prop := ∃ k, cn_out c' = cn_out c ++ take k (as_bytes resp).
(** Nothing was written, or an error *)
Definition refused (c c' : Conn) : Prop :=
  cn_out c' = cn_out c ∨ ∃ code reason body, code ∈ [400; 401; 403; 404; 413; 431] ∧ wrote c c' (response code reason body).
(** At most [n] bytes were read. *)
Definition consumed (n : Z) (c c' : Conn) : Prop := ∃ pre, cn_in c = pre ++ cn_in c' ∧ Z.of_nat (length pre) ≤ n.

(** A bundle that a merge under [g] may apply *)
Definition merged_by auth (now : Timestamp) g t t' : Prop :=
  ∃ body b, Z.of_nat (length body) ≤ MAX_BODY_BYTES ∧ from_json (string_of_bytes body) = Ok b ∧
    t' = (merge_bundle b g (pa_trust_root auth) now t).1 ∧ (t' = t ∨ ∀ n, n ∈ s_nodes b → may_write g now (n_repo n)).
(** The tenant a read under [g] may show *)
Definition exported (now : Timestamp) g t (c c' : Conn) : Prop :=
  ∃ repo bundle text, check g (resource_for repo) Read now = Ok tt ∧ export_tenant t repo now = Ok bundle ∧ to_json bundle = Ok text ∧
    wrote c c' (response 200 "OK" text).

Lemma on_conn_inv {A} (m : stm Conn SyncError A) c t c' t' r : on_conn m (c, t) = ((c', t'), r) → m c = (c', r) ∧ t' = t.
Proof. unfold on_conn. destruct (m c) as [c1 r1]. by intros [= <- <- <-]. Qed.

Lemma write_json_wrote code reason body c c' r : write_json code reason body c = (c', r) → cn_in c' = cn_in c ∧ wrote c c' (response code reason body).
Proof.
  unfold write_json. destruct (cn_write_fault c) as [[n e]|]; intros [= <- _]; (split; [done|]).
  - by exists n.
  - exists (length (as_bytes (response code reason body))). cbn. by rewrite take_ge.
Qed.

Lemma takes_consumed n c c' : takes n c c' → cn_out c' = cn_out c ∧ consumed (Z.of_nat n) c c'.
Proof. intros (pre & -> & Hin & Hl). split; [done|]. exists pre. split; [done|lia]. Qed.

(** Writing an answer and naming it *)
Lemma answer_inv {A} code reason body (label : A) c t c' t' r :
  (let! _ := on_conn (write_json code reason body) in sret label) (c, t) = ((c', t'), r) →
  t' = t ∧ cn_in c' = cn_in c ∧ wrote c c' (response code reason body).
Proof.
  intros [([c1 t1] & [] & Hw & [= -> -> _])|(e & Hw & _)]%sbind_inv; apply on_conn_inv in Hw as [Hw ->]; by apply write_json_wrote in Hw as [? ?].
Qed.

Lemma serve_bundle_spec g now path c t c' t' r : serve_bundle g now path (c, t) = ((c', t'), r) →
  t' = t ∧ cn_in c' = cn_in c ∧ (refused c c' ∨ exported now g t c c').
Proof.
  unfold serve_bundle. set (repo := string_of_bytes _). destruct (check g (resource_for repo) Read now) as [[]|e] eqn:Hc; cbn [is_ok negb].
  - intros [([c1 t1] & bundle & [= <- <- Hx] & Hr)|(e & [= -> -> Hx] & _)]%sbind_inv; [|split_and!; [done..|by left; left]].
    apply sbind_inv in Hr as [([c2 t2] & text & [= <- <- Hj] & Hr)|(e & [= -> -> Hx'] & _)]; [|split_and!; [done..|by left; left]].
    apply answer_inv in Hr as (-> & Hin & Hw). split_and!; [done..|]. right. by exists repo, bundle, text.
  - intros (-> & Hin & Hw)%answer_inv. split_and!; [done..|]. left. right. exists 403. do 2 eexists. split; [set_solver|exact Hw].
Qed.

Lemma merge_gate b g root now t : (merge_bundle b g root now t).1 = t ∨ ∀ n, n ∈ s_nodes b → may_write g now (n_repo n).
Proof.
  unfold merge_bundle. unfold sbind at 1, sread. destruct (authorize_bundle t g root b now) as [[]|e] eqn:Ha; [|by left].
  right. by apply authorize_bundle_ok in Ha as (_ & ? & _).
Qed.

Lemma serve_merge_spec auth g now len c t c' t' r : serve_merge utf8_error auth g now len (c, t) = ((c', t'), r) →
  consumed MAX_BODY_BYTES c c' ∧ ((t' = t ∧ refused c c') ∨ merged_by auth now g t t').
Proof.
  unfold serve_merge. destruct (Z.ltb_spec MAX_BODY_BYTES len) as [Hlt|Hle].
  { intros (-> & Hin & Hw)%answer_inv. split; [exists []; by rewrite Hin|]. left. split; [done|]. right. exists 413. do 2 eexists.
    split; [set_solver|exact Hw]. }
  intros [([c1 t1] & body & Hb & Hr)|(e & Hb & _)]%sbind_inv; apply on_conn_inv in Hb as [Hb ->]; apply read_body_takes in Hb as [Ht Hlen];
    apply takes_consumed in Ht as (Ho & pre & Hin & Hpre); assert (Z.of_nat (length pre) ≤ MAX_BODY_BYTES) by (unfold MAX_BODY_BYTES in *; lia).
  2:{ split; [by exists pre|]. left. split; [done|]. by left. }
  specialize (Hlen body eq_refl). destruct (utf8_valid body); cbn [negb] in Hr.
  2:{ injection Hr as <- <- _. split; [by exists pre|]. left. split; [done|]. by left. }
  apply sbind_inv in Hr as [([c2 t2] & x & Hm & Hr)|(e & Hm & _)]; [|unfold attempt in Hm; by destruct (sbind _ _ _)].
  assert (t' = t2 ∧ cn_in c' = cn_in c2) as [-> Hin'] by (destruct x; by apply answer_inv in Hr as (? & ? & _)).
  unfold attempt in Hm. destruct (from_json (string_of_bytes body)) as [b|e] eqn:Hj.
  - unfold sbind, slift, on_dag in Hm. destruct (merge_bundle b g (pa_trust_root auth) now t) as [t3 y] eqn:Hmb. injection Hm as <- <- <-.
    split; [exists pre; by rewrite Hin'|]. right. exists body, b. split_and!; [unfold MAX_BODY_BYTES in *; lia|done|by rewrite Hmb|].
    pose proof (merge_gate b g (pa_trust_root auth) now t) as Hg. by rewrite Hmb in Hg.
  - injection Hm as <- <- <-. split; [exists pre; by rewrite Hin'|]. left. split; [done|]. right.
    apply answer_inv in Hr as (_ & _ & k & Hw). exists 400. do 2 eexists. split; [set_solver|]. exists k. by rewrite Hw, Ho.
Qed.

(** The credential a connection presents and the peer honours *)
Definition presents auth (now : Timestamp) (c : Conn) g : Prop :=
  ∃ c1 method path h v, read_request c = (c1, Ok (Request method path h)) ∧ hd_credential h = Some v ∧ verify_credential auth now v = Some g.

Lemma route_spec auth now method path h c t c' t' r : route utf8_error auth now method path h (c, t) = ((c', t'), r) →
  match hd_credential h ≫= verify_credential auth now with
  | None => t' = t ∧ cn_in c' = cn_in c ∧ refused c c'
  | Some g => consumed MAX_BODY_BYTES c c' ∧ ((t' = t ∧ (refused c c' ∨ exported now g t c c')) ∨ merged_by auth now g t t')
  end.
Proof.
  unfold route. assert (∀ a b : Conn, cn_in b = cn_in a → consumed MAX_BODY_BYTES a b) as Hn by (intros a b Hab; exists []; by rewrite Hab).
  destruct (hd_credential h ≫= verify_credential auth now) as [g|].
  - destruct (_ && _); [intros (-> & Hin & Hx)%serve_bundle_spec; split; [by apply Hn|by left]|].
    destruct (_ && _); [intros [Hc [[-> Hx]|Hx]]%serve_merge_spec; (split; [done|]); [left; split; [done|by left]|by right]|].
    intros (-> & Hin & Hw)%answer_inv. split; [by apply Hn|]. left. split; [done|]. left. right. exists 404. do 2 eexists.
    split; [set_solver|exact Hw].
  - intros (-> & Hin & Hw)%answer_inv. split_and!; [done..|]. right. exists 401. do 2 eexists. split; [set_solver|exact Hw].
Qed.

Lemma presented_dec auth now c c1 a : read_request c = (c1, a) →
  (∃ g method path h, a = Ok (Request method path h) ∧ hd_credential h ≫= verify_credential auth now = Some g ∧ presents auth now c g) ∨
  ((¬ ∃ g, presents auth now c g) ∧ ∀ method path h, a = Ok (Request method path h) → hd_credential h ≫= verify_credential auth now = None).
Proof.
  intros Hq. destruct a as [[| |method path h]|e].
  1,2,4: right; split; [intros (g & c2 & m & p & h & v & Hr & _); by rewrite Hq in Hr|done].
  destruct (hd_credential h ≫= verify_credential auth now) as [g|] eqn:Hv.
  - left. exists g, method, path, h. split_and!; [done..|]. apply bind_Some in Hv as (v & Hh & Hv). by exists c1, method, path, h, v.
  - right. split; [|by intros m p h' [= <- <- <-]]. intros (g & c2 & m & p & h' & v & Hr & Hh & Hg). rewrite Hq in Hr.
    injection Hr as -> -> -> <-. rewrite Hh in Hv. change (verify_credential auth now v = None) in Hv. congruence.
Qed.

Lemma refused_after c c1 c' : cn_out c1 = cn_out c → refused c1 c' → refused c c'.
Proof. intros Ho [Hr|(code & reason & body & Hin & k & Hw)]; [left; congruence|right]. exists code, reason, body. split; [done|]. exists k. by rewrite Hw, Ho. Qed.
Lemma consumed_after n m c c1 c' : consumed n c c1 → consumed m c1 c' → consumed (n + m) c c'.
Proof. intros (p & H1' & H2') (q & H3' & H4'). exists (p ++ q). split; [by rewrite H1', H3', app_assoc|]. rewrite length_app. lia. Qed.
Lemma consumed_le n m c c' : n ≤ m → consumed n c c' → consumed m c c'.
Proof. intros Hn (p & H1' & H2'). exists p. split; [done|lia]. Qed.

(** The connection up to the end of its headers *)
Lemma handle_conn_cases auth now c t c' t' r c1 a : handle_conn utf8_error auth now (c, t) = ((c', t'), r) → read_request c = (c1, a) →
  (t' = t ∧ c' = c) ∨
  (t' = t ∧ cn_in c' = cn_in c1 ∧ refused c1 c' ∧ ∀ method path h, a ≠ Ok (Request method path h)) ∨
  (∃ method path h r', a = Ok (Request method path h) ∧ route utf8_error auth now method path h (c1, t) = ((c', t'), r')).
Proof.
  intros Hc Hq. unfold handle_conn in Hc.
  apply sbind_inv in Hc as [([c0 t0] & [] & Hs & Hc)|(e & Hs & _)]; apply on_conn_inv in Hs as [[= <- _] ->]; [|by left]. right.
  apply sbind_inv in Hc as [([c2 t2] & x & Hr & Hc)|(e & Hr & _)]; apply on_conn_inv in Hr as [Hr ->]; rewrite Hq in Hr; injection Hr as <- ->;
    [|left; split_and!; [done..|by left|done]].
  destruct x as [|line|method path h].
  - injection Hc as <- <- _. left. split_and!; [done..|by left|done].
  - left. assert (t' = t ∧ cn_in c' = cn_in c1 ∧ wrote c1 c' (response 431 "Request Header Fields Too Large" (error_body "headers too large"))) as (-> & Hin & Hw)
      by (destruct line as [[m p]|]; by apply answer_inv in Hc).
    split_and!; [done..| |done]. right. exists 431. do 2 eexists. split; [set_solver|exact Hw].
  - right. exists method, path, h. apply sbind_inv in Hc as [([c2 t2] & label & Hr & [= -> -> _])|(e & Hr & _)]; by eexists.
Qed.

(** [C24] A peer gets nothing without a credential of its own.  Whatever bytes a connection
    carries and however it ends, either it presents no grant this peer honours, and then
    the store is unchanged, nothing but an error is written back and no more than the
    header bound of 16 KiB was read; or it presents a grant that is signed, issued by the
    trust root, addressed to this peer, not revoked and not expired, at most 64 MiB more
    are read, and the connection was refused, was shown the export of one tenant the grant
    may read, or merged one bundle under that grant, which changes nothing unless the grant
    may write to the tenant of every node of the bundle. *)
Theorem handle_conn_gated auth now c t c' t' r (Hc : handle_conn utf8_error auth now (c, t) = ((c', t'), r)) :
  ((¬ ∃ g, presents auth now c g) ∧ t' = t ∧ refused c c' ∧ consumed (Z.of_nat MAX_HEADER_BYTES) c c') ∨
  (∃ g, presents auth now c g ∧ honoured auth now g ∧ consumed (Z.of_nat MAX_HEADER_BYTES + MAX_BODY_BYTES) c c' ∧
        ((t' = t ∧ (refused c c' ∨ exported now g t c c')) ∨ merged_by auth now g t t')).
Proof.
  destruct (read_request c) as [c1 a] eqn:Hq. pose proof (takes_consumed _ _ _ (read_request_takes _ _ _ Hq)) as [Ho Hn].
  assert (consumed 0 c c) as H0' by (by exists []). pose proof (handle_conn_cases _ _ _ _ _ _ _ _ _ Hc Hq) as Hcase.
  assert (∀ d, cn_in d = cn_in c1 → consumed (Z.of_nat MAX_HEADER_BYTES) c d) as Hin by (intros d Hd; unfold consumed in *; by rewrite Hd).
  destruct (presented_dec auth now c c1 a Hq) as [(g & method & path & h & -> & Hv & Hp)|[Hno Hnone]].
  - right. exists g. assert (honoured auth now g) as Hg by (destruct Hp as (? & ? & ? & ? & v & _ & _ & ?); by eapply verify_credential_iff).
    destruct Hcase as [[-> ->]|[(_ & _ & _ & Hx)|(m & p & h' & r' & [= <- <- <-] & Hr)]]; [|by destruct (Hx method path h)|].
    { split_and!; [done..|eapply consumed_le, H0'; unfold MAX_BODY_BYTES; lia|]. left. split; [done|]. left. by left. }
    apply route_spec in Hr. rewrite Hv in Hr. destruct Hr as [Hb Hr].
    split; [exact Hp|]. split; [exact Hg|]. split; [exact (consumed_after _ _ _ _ _ Hn Hb)|].
    destruct Hr as [[-> [Hr|(repo & bundle & text & Hck & Hx & Hj & k & Hw)]]|Hr]; [left; split; [done|]..|by right].
    + left. by eapply refused_after.
    + right. exists repo, bundle, text. split_and!; [done..|]. exists k. by rewrite Hw, Ho.
  - left. split; [done|]. destruct Hcase as [[-> ->]|[(-> & Hi & Hr & _)|(m & p & h' & r' & Ha & Hr)]].
    + split_and!; [done|by left|]. eapply consumed_le, H0'. lia.
    + split_and!; [done|by eapply refused_after|by apply Hin].
    + apply route_spec in Hr. rewrite (Hnone _ _ _ Ha) in Hr. destruct Hr as (-> & Hi & Hr).
      split_and!; [done|by eapply refused_after|by apply Hin].
Qed.

(** A merge outcome survives the wire, if serde_json reads the text as the object it spells. *)
Lemma parse_outcome_roundtrip (o : MergeOutcome) (Hj : json_from_str (outcome_json o) = Ok (obj ((λ p, (p.1, jnat p.2)) <$> outcome_fields o))) :
  parse_outcome (outcome_json o) = Ok o.
Proof. unfold parse_outcome. rewrite Hj. destruct o. cbn [map_err rbind]. f_equal. unfold obj, jget. cbn. f_equal; vm_compute; apply Nat2Z.id. Qed.
End transport_props.

(** ** The header bound *)

(** When a line uses up the budget exactly, the headers are taken to be complete, although
    more may follow: nothing is refused and what follows is read as the body. *)
Lemma headers_end_at_bound line rest h c fuel : cn_in c = line ++ rest → utf8_valid line = true → trim_end line ≠ [] →
  until_newline (length line) (line ++ rest) = (line, rest, true) → last line = Some newline →
  read_headers (S fuel) (length line) h c = (after_read rest c, Ok (Some (header_line h (trim_end line)))).
Proof.
  intros Hin Hu Ht Hl Hn.
  assert (∀ d f k, read_headers f 0 k d = (d, Ok (Some k))) as H0.
  { intros d [|f] k; [done|]. cbn [read_headers]. unfold read_bounded, read_line, sbind. cbn [until_newline]. by destruct d. }
  cbn [read_headers]. unfold read_bounded, read_line, sbind. rewrite Hin, Hl, Hu. cbn [fst snd]. rewrite Hn, Nat.sub_diag.
  rewrite (bool_decide_eq_true_2 (Some newline = Some newline)) by done. rewrite andb_false_r. cbn [andb sret fst snd].
  rewrite (bool_decide_eq_false_2 (line = [])) by (by intros ->). rewrite bool_decide_eq_false_2 by done. apply H0.
Qed.
