(* ===== verification/Git.v ===== *)
(** * Reading git history ([mem-ingest/src/git.rs])

    The git process is a parameter: a run of [git] with given arguments ends with an exit
    status and its two outputs, or cannot be started.  What is modelled is everything the
    ingestor does with those bytes: the framed commit log and its validation, the list of
    remote branches, the default branch, the head and the count. *)

From stdpp Require Import pretty.
From S2P Require Import Prelude Bytes Externs Text Str Belnap Identity Node Edge Kv Shred Store StoreContents Supersession StoreInterface Assert Query Display.

Record Output := { o_success : bool; o_stdout : bytes; o_stderr : bytes }.

(** [Command::new("git").args(..)]: the output, or why it could not be run *)
Class Git := git_run : list string → result string Output.

Record CommitRecord := {
  cr_sha : string;
  cr_parents : list string;
  cr_author : string;
  cr_time_secs : Z;
  cr_subject : string;
  cr_body : string;
}.
#[export] Instance CommitRecord_eq_dec : EqDecision CommitRecord.
Proof. solve_decision. Defined.

Record BranchRef := { br_name : string; br_tip : string }.

Definition US : byte := Byte.x1f.
Definition NUL : byte := Byte.x00.

(** ** The commit log *)

Definition is_sha40 (s : bytes) : bool :=
  bool_decide (length s = 40%nat) && forallb (λ b, is_digit b || in_range 0x61 0x66 b) s.

(** [ParseIntError]'s text: the digits are read from the left; the first that is none, or
    that takes the number out of the type, is reported *)
Fixpoint int_error (max acc : Z) (l : bytes) : string :=
  match l with
  | [] => "invalid digit found in string"
  | b :: l =>
    if is_digit b then
      let acc := 10 * acc + digit_val b in
      if max <? acc then "number too large to fit in target type" else int_error max acc l
    else "invalid digit found in string"
  end.
Definition parse_usize (l : bytes) : result string Z :=
  match parse_u64 l with
  | Some z => Ok z
  | None => Err (match l with
                 | [] => "cannot parse integer from empty string"
                 | b :: k => int_error u64_max 0 (if decide (b = Byte.x2b) then k else l)
                 end)
  end.

Section git.
Context `{CharTables, Git}.

(** One record of the log; [None] when it is blank *)
Definition parse_record (raw : bytes) : result IngestError (option CommitRecord) :=
  let raw := trim_start_matches (λ c, c =? 10) raw in
  if bool_decide (trim raw = []) then Ok None
  else match splitn 6 US raw with
       | [f0; f1; f2; f3; f4; f5] =>
         let sha := trim f0 in
         if negb (is_sha40 sha) then
           Err (GitError ("malformed git-log record: leading field " +:+ str_debug (string_of_bytes sha)
                          +:+ " is not a 40-hex sha (possible separator injection)"))
         else
           Ok (Some {| cr_sha := string_of_bytes sha; cr_parents := string_of_bytes <$> split_whitespace f1;
                       cr_author := string_of_bytes f2; cr_time_secs := default 0 (parse_i64 (trim f3));
                       cr_subject := string_of_bytes f4; cr_body := string_of_bytes f5 |})
       | fields =>
         Err (GitError ("malformed git-log record: expected 6 fields, got " +:+ decimal (Z.of_nat (length fields))
                        +:+ " (possible separator injection)"))
       end.

Definition log_step (records : list CommitRecord) (raw : bytes) : result IngestError (list CommitRecord) :=
  let? o := parse_record raw in Ok (match o with Some r => records ++ [r] | None => records end).

Definition parse_commit_log (text : string) : result IngestError (list CommitRecord) :=
  rfold log_step [] (split NUL (as_bytes text)).

(** ** The commands *)

Definition trimmed_lossy (b : bytes) : string := string_of_bytes (trim (as_bytes (from_utf8_lossy b))).

(** [.output().map_err(..)?], then the check of the exit status with its message *)
Definition git_output (args : list string) (failed : string) : result IngestError bytes :=
  let? o := map_err (λ e, GitError ("failed to run git: " +:+ e)) (git_run args) in
  if o_success o then Ok (o_stdout o) else Err (GitError (failed +:+ ": " +:+ trimmed_lossy (o_stderr o))).

Definition repo_root (path : string) : result IngestError string :=
  rmap trimmed_lossy (git_output ["-C"; path; "rev-parse"; "--show-toplevel"] "not a git repo").

Definition us : string := string_of_bytes [US].
Definition commit_pretty : string :=
  "--pretty=tformat:%H" +:+ us +:+ "%P" +:+ us +:+ "%an" +:+ us +:+ "%at" +:+ us +:+ "%s" +:+ us +:+ "%b%x00".

Definition read_commits_range (repo : string) (since : option string) : result IngestError (list CommitRecord) :=
  let range := match since with Some s => [s +:+ "..HEAD"] | None => [] end in
  let? out := git_output (["-C"; repo; "log"; "--reverse"; "--no-color"; commit_pretty] ++ range) "git log failed" in
  parse_commit_log (from_utf8_lossy out).

Definition read_commits (repo : string) : result IngestError (list CommitRecord) := read_commits_range repo None.

Definition read_commits_between (repo exclude include : string) : result IngestError (list CommitRecord) :=
  let? out := git_output ["-C"; repo; "log"; "--reverse"; "--no-color"; commit_pretty; exclude +:+ ".." +:+ include]
                         "git log range failed" in
  parse_commit_log (from_utf8_lossy out).

(** [.status().map(|s| s.success()).unwrap_or(false)] *)
Definition git_succeeds (args : list string) : bool :=
  match git_run args with Ok o => o_success o | Err _ => false end.

Definition default_branch_ref (repo : string) : result IngestError string :=
  let? out := map_err (λ e, GitError ("failed to run git: " +:+ e))
                      (git_run ["-C"; repo; "rev-parse"; "--abbrev-ref"; "origin/HEAD"]) in
  let r := trimmed_lossy (o_stdout out) in
  if o_success out && negb (bool_decide (r = "")) && negb (bool_decide (r = "origin/HEAD")) then Ok r
  else match list_find (λ cand, git_succeeds ["-C"; repo; "rev-parse"; "--verify"; "--quiet"; cand] = true)
                       ["origin/main"; "origin/master"] with
       | Some (_, cand) => Ok cand
       | None => Err (GitError "could not resolve default branch (origin/HEAD)")
       end.

Definition REMOTE_PREFIX : string := "refs/remotes/origin/".

(** One line of [for-each-ref] *)
Definition parse_branch (default_name : bytes) (line : bytes) : option BranchRef :=
  match split_once US line with
  | None => None
  | Some (refname, tip) =>
    match strip_prefix (as_bytes REMOTE_PREFIX) refname with
    | None => None
    | Some name =>
      if bool_decide (name = []) || bool_decide (name = as_bytes "HEAD") || bool_decide (name = default_name) then None
      else Some {| br_name := string_of_bytes name; br_tip := string_of_bytes (trim tip) |}
    end
  end.

Definition list_branches (repo default_ref : string) : result IngestError (list BranchRef) :=
  let? out := git_output ["-C"; repo; "for-each-ref"; "--format=%(refname)" +:+ us +:+ "%(objectname)"; REMOTE_PREFIX]
                         "for-each-ref failed" in
  let default_name := default (as_bytes default_ref) (strip_prefix (as_bytes "origin/") (as_bytes default_ref)) in
  Ok (omap (parse_branch default_name) (lines (as_bytes (from_utf8_lossy out)))).

Definition head_sha (repo : string) : result IngestError string :=
  rmap trimmed_lossy (git_output ["-C"; repo; "rev-parse"; "HEAD"] "rev-parse HEAD failed").

Definition commit_count (repo : string) : result IngestError nat :=
  let? out := git_output ["-C"; repo; "rev-list"; "--count"; "HEAD"] "rev-list --count failed" in
  rmap Z.to_nat (map_err (λ e, GitError ("bad rev-list count: " +:+ e)) (parse_usize (as_bytes (trimmed_lossy out)))).

Definition is_ancestor (repo ancestor : string) : result IngestError bool :=
  rmap o_success (map_err (λ e, GitError ("failed to run git: " +:+ e))
                          (git_run ["-C"; repo; "merge-base"; "--is-ancestor"; ancestor; "HEAD"])).
End git.

(** * The commit log reads back

    A record of the log is framed by a byte no commit message can hold, so whatever an
    author writes into a message stays inside that commit's record. *)

Lemma as_bytes_of_bytes b : as_bytes (string_of_bytes b) = b.
Proof. apply String.list_byte_of_string_of_list_byte. Qed.
Lemma string_of_as_bytes s : string_of_bytes (as_bytes s) = s.
Proof. apply String.string_of_list_byte_of_string. Qed.

(** ** Decimal numbers *)

Lemma digits_val_app l k : digits_val (l ++ k) = digits_val l * 10 ^ Z.of_nat (length k) + digits_val k.
Proof.
  unfold digits_val. rewrite foldl_app. generalize (foldl (λ z b, 10 * z + digit_val b) 0 l).
  induction k as [|b k IH]; intros z; simpl; [lia|]. rewrite IH, (IH (10 * 0 + digit_val b)).
  rewrite Nat2Z.inj_succ, Z.pow_succ_r by lia. lia.
Qed.

Lemma pretty_char x : (x < 10)%N →
  is_digit (byte_of_ascii (pretty_N_char x)) = true ∧ digit_val (byte_of_ascii (pretty_N_char x)) = Z.of_N x.
Proof. intros Hx. destruct x as [|p]; [done|]. do 4 (destruct p as [p|p|]; try done). all: lia. Qed.

Lemma pretty_go_digits x s : ∃ ds, as_bytes (pretty_N_go x s) = ds ++ as_bytes s ∧ forallb is_digit ds = true ∧
  digits_val ds = Z.of_N x ∧ ((0 < x)%N → ds ≠ []).
Proof.
  revert s. induction (N.lt_wf_0 x) as [x _ IH]; intros s.
  destruct (decide (0 < x)%N) as [Hx|Hx]; [|assert (x = 0%N) as -> by lia; by exists []].
  rewrite pretty_N_go_step by done.
  destruct (IH (x `div` 10)%N ltac:(by apply N.div_lt) (String (pretty_N_char (x `mod` 10)) s)) as (ds & -> & Hd & Hv & _).
  destruct (pretty_char (x `mod` 10)) as [Hc Hcv]; [by apply N.mod_lt|].
  exists (ds ++ [byte_of_ascii (pretty_N_char (x `mod` 10))]). rewrite <-app_assoc. split; [done|].
  rewrite forallb_app, Hd. cbn [forallb]. rewrite Hc. split; [done|].
  rewrite digits_val_app, Hv. unfold digits_val at 1. cbn [length foldl]. rewrite Hcv. split; [|intros _; by destruct ds].
  pose proof (N.div_mod x 10 ltac:(done)). lia.
Qed.

Lemma decimal_digits z : 0 ≤ z → forallb is_digit (as_bytes (decimal z)) = true ∧ as_bytes (decimal z) ≠ [] ∧
  digits_val (as_bytes (decimal z)) = z.
Proof.
  intros Hz. unfold decimal, pretty, pretty_N. case_decide as E.
  - assert (z = 0) as -> by lia. by repeat split.
  - destruct (pretty_go_digits (Z.to_N z) "") as (ds & -> & Hd & Hv & Hne). rewrite app_nil_r.
    split; [done|]. split; [apply Hne; lia|]. rewrite Hv. lia.
Qed.

Lemma parse_digits_decimal z : 0 ≤ z → parse_digits (as_bytes (decimal z)) = Some z.
Proof.
  intros Hz. destruct (decimal_digits z Hz) as (Hd & Hn & Hv). unfold parse_digits.
  by rewrite bool_decide_false, Hd, Hv.
Qed.

Lemma is_digit_cases b : is_digit b = true → is_ascii_byte b = true ∧ is_whitespace (byte_Z b) = false ∧
  b ≠ Byte.x2b ∧ b ≠ Byte.x2d ∧ b ≠ US ∧ b ≠ NUL.
Proof. intros Hb. destruct b; try discriminate Hb; (split_and!; [reflexivity|reflexivity|discriminate..]). Qed.

Lemma parse_unsigned_decimal max z : 0 ≤ z ≤ max → parse_unsigned max (as_bytes (decimal z)) = Some z.
Proof.
  intros Hz. unfold parse_unsigned. destruct (decimal_digits z ltac:(lia)) as (Hd & Hn & _).
  assert ((match as_bytes (decimal z) with b :: k => if decide (b = Byte.x2b) then k else as_bytes (decimal z) | [] => as_bytes (decimal z) end)
          = as_bytes (decimal z)) as ->.
  { destruct (as_bytes (decimal z)) as [|b k]; [done|]. cbn [forallb] in Hd. apply andb_true_iff in Hd as [Hb _].
    destruct (is_digit_cases b Hb) as (_ & _ & H1 & _). by rewrite decide_False. }
  rewrite parse_digits_decimal by lia. by rewrite (proj2 (Z.leb_le z max)) by lia.
Qed.

Lemma parse_i64_signed z : i64_min ≤ z ≤ i64_max → parse_i64 (as_bytes (signed z)) = Some z.
Proof.
  intros Hz. unfold signed. destruct (Z.ltb_spec z 0) as [Hneg|Hpos].
  - rewrite as_bytes_app. change (as_bytes "-") with [Byte.x2d]. cbn [app parse_i64]. rewrite decide_True by done.
    rewrite parse_digits_decimal by lia. rewrite (proj2 (Z.leb_le i64_min (- - z))) by lia. f_equal. lia.
  - pose proof (parse_unsigned_decimal i64_max z ltac:(lia)) as Hp.
    destruct (decimal_digits z Hpos) as (Hd & Hn & _). destruct (as_bytes (decimal z)) as [|b k]; [done|].
    cbn [forallb] in Hd. apply andb_true_iff in Hd as [Hb _]. destruct (is_digit_cases b Hb) as (_ & _ & _ & H2 & _).
    cbn [parse_i64]. by rewrite decide_False.
Qed.

(** ** Texts without white space *)

Definition solid (l : bytes) : Prop := Forall (λ b, is_ascii_byte b = true ∧ is_whitespace (byte_Z b) = false) l.

Lemma solid_ascii l : solid l → is_ascii l.
Proof. intros Hl. eapply Forall_impl; [exact Hl|]. by intros b [? _]. Qed.

Lemma solid_trim l : solid l → trim l = l.
Proof.
  intros Hl. apply trim_fix. unfold trimmed, chars. rewrite chunks_ascii by (by apply solid_ascii).
  rewrite <-list_fmap_compose. apply Forall_app. rewrite fmap_head, fmap_last. unfold solid in Hl. rewrite Forall_forall in Hl.
  split; [destruct (head l) as [b|] eqn:E|destruct (last l) as [b|] eqn:E]; simpl; try by apply Forall_nil.
  - apply Forall_singleton. cbn. apply Hl. destruct l; [done|]. injection E as ->. by left.
  - apply Forall_singleton. cbn. apply Hl. apply last_Some in E as [k ->]. apply elem_of_app. right. by left.
Qed.

Lemma solid_sha s : is_sha40 s = true → solid s ∧ US ∉ s ∧ NUL ∉ s ∧ s ≠ [].
Proof.
  unfold is_sha40. intros [Hlen Hs]%andb_true_iff. apply bool_decide_eq_true_1 in Hlen.
  assert (∀ b, b ∈ s → is_ascii_byte b = true ∧ is_whitespace (byte_Z b) = false ∧ b ≠ US ∧ b ≠ NUL) as Hb.
  { intros b Hb. rewrite forallb_forall in Hs. specialize (Hs b (proj1 (list_elem_of_In _ _) Hb)).
    destruct b; try discriminate Hs; (split_and!; [reflexivity|reflexivity|discriminate|discriminate]). }
  split_and!.
  - apply Forall_forall. intros b Hin. by destruct (Hb b Hin) as (? & ? & _).
  - intros Hin. by destruct (Hb _ Hin) as (_ & _ & ? & _).
  - intros Hin. by destruct (Hb _ Hin) as (_ & _ & _ & ?).
  - by intros ->.
Qed.

Lemma signed_solid z : solid (as_bytes (signed z)) ∧ US ∉ as_bytes (signed z) ∧ NUL ∉ as_bytes (signed z).
Proof.
  assert (∀ z, ∀ b, b ∈ as_bytes (decimal z) → is_digit b = true) as Hd.
  { intros w b Hb. destruct (Z.le_gt_cases 0 w) as [Hw|Hw].
    - destruct (decimal_digits w Hw) as (Hd & _). rewrite forallb_forall in Hd. by apply Hd, list_elem_of_In.
    - unfold decimal in Hb. replace (Z.to_N w) with 0%N in Hb by lia. vm_compute in Hb. apply list_elem_of_singleton in Hb as ->. done. }
  assert (∀ b, b ∈ as_bytes (signed z) → is_ascii_byte b = true ∧ is_whitespace (byte_Z b) = false ∧ b ≠ US ∧ b ≠ NUL) as Hb.
  { intros b. unfold signed. destruct (z <? 0).
    - rewrite as_bytes_app. change (as_bytes "-") with [Byte.x2d]. intros [->|Hb]%elem_of_cons; [done|].
      apply Hd, is_digit_cases in Hb as (? & ? & _ & _ & ? & ?). done.
    - intros (? & ? & _ & _ & ? & ?)%Hd%is_digit_cases. done. }
  split; [apply Forall_forall; intros b Hin; by destruct (Hb b Hin) as (? & ? & _)|].
  split; intros Hin; by destruct (Hb _ Hin) as (_ & _ & ? & ?).
Qed.

(** Words joined by spaces *)
Fixpoint unwords (ws : list bytes) : bytes :=
  match ws with [] => [] | [w] => w | w :: ws => w ++ Byte.x20 :: unwords ws end.

Lemma words_solid acc w cs : solid w → words_go acc (((λ b, (byte_Z b, [b])) <$> w) ++ cs) = words_go (acc ++ w) cs.
Proof.
  revert acc. induction w as [|b w IH]; intros acc Hw; simpl; [by rewrite app_nil_r|].
  apply Forall_cons in Hw as [[_ Hb] Hw]. rewrite Hb, IH by done. by rewrite <-app_assoc.
Qed.

Lemma unwords_ascii ws : Forall solid ws → is_ascii (unwords ws).
Proof.
  induction ws as [|w [|w' ws] IH]; intros Hws; [by apply Forall_nil| |]; apply Forall_cons in Hws as [Hw Hws].
  - by apply solid_ascii.
  - apply Forall_app; split; [by apply solid_ascii|]. apply Forall_cons; split; [done|by apply IH].
Qed.

Lemma split_unwords ws : Forall (λ w, solid w ∧ w ≠ []) ws → split_whitespace (unwords ws) = ws.
Proof.
  intros Hws. unfold split_whitespace. rewrite chunks_ascii.
  2:{ apply unwords_ascii. eapply Forall_impl; [exact Hws|]. by intros w [? _]. }
  induction ws as [|w [|w' ws] IH]; [done| |]; apply Forall_cons in Hws as [[Hw Hne] Hws].
  - cbn [unwords]. rewrite <-(app_nil_r (_ <$> w)), words_solid by done. simpl. by rewrite bool_decide_false.
  - change (unwords (w :: w' :: ws)) with (w ++ Byte.x20 :: unwords (w' :: ws)).
    rewrite fmap_app, words_solid by done. cbn [fmap list_fmap app words_go].
    change (is_whitespace (byte_Z Byte.x20)) with true. cbn [app]. rewrite bool_decide_false by done.
    cbn [app]. f_equal. by apply IH.
Qed.

(** ** Records *)

Definition render_record (r : CommitRecord) : bytes :=
  as_bytes (cr_sha r) ++ US :: unwords (as_bytes <$> cr_parents r) ++ US :: as_bytes (cr_author r) ++ US ::
  as_bytes (signed (cr_time_secs r)) ++ US :: as_bytes (cr_subject r) ++ US :: as_bytes (cr_body r).
(** What [git log] prints for [commit_pretty]: each record, its NUL and a newline *)
Definition render_log (rs : list CommitRecord) : bytes := flat_map (λ r, render_record r ++ [NUL; newline]) rs.

(** A commit as git holds it.  Nothing is asked of the body but that it has no NUL. *)
Record record_ok (r : CommitRecord) : Prop := {
  ro_sha : is_sha40 (as_bytes (cr_sha r)) = true;
  ro_parents : Forall (λ p, is_sha40 (as_bytes p) = true) (cr_parents r);
  ro_time : i64_min ≤ cr_time_secs r ≤ i64_max;
  ro_author : US ∉ as_bytes (cr_author r) ∧ NUL ∉ as_bytes (cr_author r);
  ro_subject : US ∉ as_bytes (cr_subject r) ∧ NUL ∉ as_bytes (cr_subject r);
  ro_body : NUL ∉ as_bytes (cr_body r);
}.

Lemma splitn_cons n c x y : c ∉ x → splitn (S (S n)) c (x ++ c :: y) = x :: splitn (S n) c y.
Proof. intros Hx. cbn [splitn]. by rewrite (proj2 (split_once_spec c _ x y)). Qed.

Lemma unwords_free c ws : c ≠ Byte.x20 → Forall (λ w, c ∉ w) ws → c ∉ unwords ws.
Proof.
  intros Hc. induction ws as [|w [|w' ws] IH]; intros Hws; [by apply not_elem_of_nil| |]; apply Forall_cons in Hws as [Hw Hws].
  - done.
  - change (unwords (w :: w' :: ws)) with (w ++ Byte.x20 :: unwords (w' :: ws)).
    apply not_elem_of_app. split; [done|]. apply not_elem_of_cons. split; [done|by apply IH].
Qed.

Lemma parents_free r : record_ok r → US ∉ unwords (as_bytes <$> cr_parents r) ∧ NUL ∉ unwords (as_bytes <$> cr_parents r).
Proof.
  intros Hr. split; (apply unwords_free; [done|]); apply Forall_fmap; (eapply Forall_impl; [apply ro_parents, Hr|]);
    intros p (_ & ? & ? & _)%solid_sha; done.
Qed.

Lemma render_record_nul r : record_ok r → NUL ∉ render_record r.
Proof.
  intros Hr. destruct (parents_free r Hr) as [_ Hp], (solid_sha _ (ro_sha r Hr)) as (_ & _ & Hs & _).
  destruct (ro_author r Hr) as [_ Ha], (ro_subject r Hr) as [_ Hsu], (signed_solid (cr_time_secs r)) as (_ & _ & Ht).
  unfold render_record. rewrite !not_elem_of_app, !not_elem_of_cons, !not_elem_of_app, !not_elem_of_cons, !not_elem_of_app,
    !not_elem_of_cons, !not_elem_of_app, !not_elem_of_cons, !not_elem_of_app, !not_elem_of_cons. split_and!; try done. apply Hr.
Qed.

Section records.
Context `{CharTables}.

Lemma trim_newlines pre l b k : Forall (λ b, b = newline) pre → l = b :: k → is_ascii_byte b = true → is_whitespace (byte_Z b) = false →
  trim_start_matches (λ c, c =? 10) (pre ++ l) = l.
Proof.
  intros Hpre -> Ha Hb. unfold trim_start_matches. induction pre as [|x pre IH]; cbn [app].
  - rewrite chunks_cons_ascii by done. cbn [drop_while]. unfold compose at 1. cbn [fst].
    destruct (Z.eqb_spec (byte_Z b) 10) as [E|_]; [rewrite E in Hb; discriminate Hb|].
    rewrite <-(unchunk_chunks (b :: k)). by rewrite (chunks_cons_ascii b k).
  - apply Forall_cons in Hpre as [-> Hpre]. rewrite chunks_cons_ascii by done. cbn [drop_while]. by apply IH.
Qed.

Lemma parse_record_render pre r : record_ok r → Forall (λ b, b = newline) pre → parse_record (pre ++ render_record r) = Ok (Some r).
Proof.
  intros Hr Hpre. destruct (solid_sha _ (ro_sha r Hr)) as (Hsol & Hus & _ & Hne).
  destruct (parents_free r Hr) as [Hp _]. destruct (ro_author r Hr) as [Ha _], (ro_subject r Hr) as [Hsu _].
  destruct (signed_solid (cr_time_secs r)) as (Hts & Htu & _).
  unfold parse_record. destruct (as_bytes (cr_sha r)) as [|b0 sh] eqn:Esha; [done|].
  assert (is_ascii_byte b0 = true ∧ is_whitespace (byte_Z b0) = false) as [Hb1 Hb2] by (by apply Forall_cons in Hsol as [? _]).
  rewrite (trim_newlines pre (render_record r) b0 (drop 1 (render_record r))); [|done|unfold render_record; by rewrite Esha|done|done].
  rewrite bool_decide_false.
  2:{ intros E. apply (trim_nil _ b0) in E; [congruence| |done]. unfold render_record. rewrite Esha. by left. }
  unfold render_record. rewrite Esha, !splitn_cons by done. cbn [splitn].
  rewrite <-Esha, solid_trim by (by rewrite Esha). rewrite (ro_sha r Hr). cbn [negb].
  rewrite solid_trim, parse_i64_signed by (done || apply Hr). cbn [default].
  rewrite split_unwords.
  2:{ apply Forall_fmap. eapply Forall_impl; [apply ro_parents, Hr|]. intros p (? & _ & _ & ?)%solid_sha. done. }
  rewrite <-list_fmap_compose, !string_of_as_bytes. do 2 f_equal. destruct r as [sha ps au ti su bo]; cbn in *. f_equal.
  transitivity (id <$> ps); [|apply list_fmap_id]. apply list_fmap_ext. intros ? ? _. apply string_of_as_bytes.
Qed.

Lemma parse_log_frames pre rs acc : Forall record_ok rs → Forall (λ b, b = newline) pre →
  rfold log_step acc (split NUL (pre ++ render_log rs)) = Ok (acc ++ rs).
Proof.
  revert pre acc. induction rs as [|r rs IH]; intros pre acc Hrs Hpre.
  - unfold render_log. cbn [flat_map]. rewrite app_nil_r, split_end.
    2:{ intros Hin. rewrite Forall_forall in Hpre. by specialize (Hpre _ Hin). }
    cbn [rfold]. unfold log_step, parse_record. assert (trim_start_matches (λ c, c =? 10) pre = []) as ->.
    { unfold trim_start_matches. induction Hpre as [|x pre -> _ IHp]; [done|]. by rewrite chunks_cons_ascii. }
    by rewrite app_nil_r.
  - apply Forall_cons in Hrs as [Hr Hrs]. unfold render_log. cbn [flat_map]. rewrite app_assoc, <-(app_assoc pre).
    change ([NUL; newline] ++ ?x) with (NUL :: newline :: x). rewrite <-app_assoc.
    rewrite app_assoc. cbn [app]. rewrite split_join.
    2:{ apply not_elem_of_app. split; [|by apply render_record_nul]. intros Hin. rewrite Forall_forall in Hpre. by specialize (Hpre _ Hin). }
    cbn [rfold]. unfold log_step at 1. rewrite parse_record_render by done. cbn [rbind].
    change (newline :: flat_map _ rs) with ([newline] ++ render_log rs). rewrite IH by (done || by apply Forall_singleton).
    by rewrite <-app_assoc.
Qed.

(** A commit message cannot forge history: the printed log of any list of commits,
    whatever separators, record-like lines or trailers their messages contain (a message
    has no NUL byte; author names and subjects have no unit separator), parses to exactly
    those commits, in order. *)
Theorem parse_commit_log_roundtrip (rs : list CommitRecord) (Hrs : Forall record_ok rs) :
  parse_commit_log (string_of_bytes (render_log rs)) = Ok rs.
Proof.
  unfold parse_commit_log. rewrite as_bytes_of_bytes. exact (parse_log_frames [] rs [] Hrs (Forall_nil_2 _)).
Qed.

Abbreviation blank f := (trim (trim_start_matches (λ c, c =? 10) f) = []).

Lemma parse_record_none f : parse_record f = Ok None ↔ blank f.
Proof.
  unfold parse_record. case_bool_decide as Hb; [done|]. split; [|done]. intros Ho. repeat (case_match; try discriminate Ho).
Qed.
Lemma parse_record_sha f r : parse_record f = Ok (Some r) → is_sha40 (as_bytes (cr_sha r)) = true.
Proof.
  unfold parse_record. intros Ho. repeat (case_match; try discriminate Ho). injection Ho as <-. cbn [cr_sha].
  rewrite as_bytes_of_bytes. by apply negb_false_iff.
Qed.

Lemma log_steps acc frames rs : rfold log_step acc frames = Ok rs →
  ∃ rs', rs = acc ++ rs' ∧ Forall2 (λ f r, parse_record f = Ok (Some r)) (filter (λ f, ¬ blank f) frames) rs'.
Proof.
  revert acc. induction frames as [|f fs IH]; intros acc Hf; cbn [rfold] in Hf.
  { injection Hf as <-. exists []. split; [by rewrite app_nil_r|constructor]. }
  apply rbind_ok in Hf as (acc' & Ha & Hf). apply rbind_ok in Ha as (o & Ho & [= <-]). rewrite filter_cons.
  destruct (IH _ Hf) as (rs' & -> & Hall). destruct o as [r|].
  - rewrite decide_True by (intros Hb%parse_record_none; congruence). exists (r :: rs'). rewrite <-app_assoc. by split; [|constructor].
  - apply parse_record_none in Ho. rewrite decide_False by (intros Hn; by apply Hn). eauto.
Qed.

(** Nothing is dropped in silence: a log that parses has one record per frame that is
    not blank, in order, each under a 40-digit id; one malformed frame fails the whole log. *)
Theorem parse_commit_log_complete (text : string) (rs : list CommitRecord) (Hp : parse_commit_log text = Ok rs) :
  Forall2 (λ f r, parse_record f = Ok (Some r) ∧ is_sha40 (as_bytes (cr_sha r)) = true)
    (filter (λ f, ¬ blank f) (split NUL (as_bytes text))) rs.
Proof.
  destruct (log_steps [] _ rs Hp) as (rs' & -> & Hall). eapply Forall2_impl; [exact Hall|].
  intros f r Hr. split; [done|exact (parse_record_sha f r Hr)].
Qed.
End records.
