(* ===== verification/Docs.v ===== *)
(** * Markdown documents ([mem-ingest/src/docs.rs])

    The kind, title and status of a tracked document, the edge a fenced directive stands
    for, and the two listings of tracked files. *)

From S2P Require Import Prelude Bytes Externs Text Str Belnap Identity Node Edge Trailers Frontmatter Kv Shred Store StoreContents Supersession.
From S2P Require Import StoreInterface Assert Query Display Git.

Definition slash : byte := Byte.x2f.
Definition tab : byte := Byte.x09.
Definition eq_ignore_ascii_case (a b : bytes) : bool := bool_decide (ascii_lowercase a = ascii_lowercase b).

Definition claim_status_of (value : bytes) : option ClaimStatus :=
  let v := ascii_lowercase value in
  if bool_decide (v = as_bytes "confirmed") then Some Confirmed
  else if bool_decide (v = as_bytes "corrected") then Some Corrected
  else if bool_decide (v = as_bytes "refined") then Some Refined
  else None.

Definition claim_status_from_body (body : bytes) : option ClaimStatus :=
  let blocks := parse_agentile_blocks body in
  let is_claim := existsb (λ t, eq_ignore_ascii_case (tr_key t) (as_bytes "node")
                                && eq_ignore_ascii_case (tr_value t) (as_bytes "claim")) blocks in
  if negb is_claim then None
  else (snd <$> list_find (λ t, eq_ignore_ascii_case (tr_key t) (as_bytes "claim-status") = true) blocks)
       ≫= λ t, claim_status_of (tr_value t).

Definition classify (rel_path : string) (fm : gmap string string) (body : bytes) : NodeKind :=
  let p := slash :: ascii_lowercase (as_bytes rel_path) in
  let file := last_part slash p in
  let has s := contains_str (as_bytes s) p in
  match claim_status_from_body body with
  | Some cs => Claim cs
  | None =>
    if starts_with (as_bytes "adr-") file || has "/adrs/" then Adr
    else if has "/sprints/" || bool_decide (is_Some (fm !! "sprint")) then
      Sprint (if contains_str (as_bytes "retro") file || bool_decide (fm !! "status" = Some "archived") then Close else Kickoff)
    else if has "/journal/" || has "/journals/" then Narrative Journal
    else if has "/essays/" then Narrative Essay
    else if has "/case_studies/" || has "/case-studies/" then Narrative CaseStudy
    else if has "/handoffs/" || contains_str (as_bytes "handoff") file then Handoff
    else Doc
  end.

Definition directive_table : list (bytes * EdgeKind) :=
  [(as_bytes "implements", Implements); (as_bytes "decides", Decides); (as_bytes "supersedes", Supersedes);
   (as_bytes "refutes", Refutes); (as_bytes "depends-on", DependsOn); (as_bytes "references", References);
   (as_bytes "ref", References); (as_bytes "see-also", References)].
Definition map_block_directive (key : bytes) : option EdgeKind :=
  snd <$> (snd <$> list_find (λ p, p.1 = ascii_lowercase key) directive_table).

(** The first non-empty [# ] heading *)
Definition heading (line : bytes) : option bytes :=
  match strip_prefix (as_bytes "# ") (trim line) with
  | Some h => if bool_decide (trim h = []) then None else Some (trim h)
  | None => None
  end.

Definition doc_title (rel_path : string) (fm : gmap string string) (body : bytes) : string :=
  match head (omap heading (lines body)) with
  | Some h => string_of_bytes h
  | None =>
    let stem := string_of_bytes (trim_end_str (as_bytes ".md") (last_part slash (as_bytes rel_path))) in
    match (match fm !! "title" with Some t => Some t | None => fm !! "sprint" end) with
    | Some t => if bool_decide (t = "") then stem else t
    | None => stem
    end
  end.

Definition status_from_fm (fm : gmap string string) : Status :=
  match fm !! "status" with
  | Some s => if bool_decide (s = "superseded") then Superseded else if bool_decide (s = "archived") then Archived else Active
  | None => Active
  end.

(** One line of [ls-files -s]: [<mode> <sha> <stage>\t<path>] *)
Definition parse_blob_line (line : bytes) : option (string * string) :=
  match split_once tab line with
  | None => None
  | Some (meta, path) =>
    match split_whitespace meta with
    | _ :: sha :: _ => Some (string_of_bytes (trim path), string_of_bytes sha)
    | _ => None
    end
  end.

Section docs.
Context `{Git}.

(** As [git_output], with the two messages of the listing *)
Definition ls_output (cmd : string) (args : list string) : result IngestError bytes :=
  let? o := map_err (λ e, GitError ("failed to run " +:+ cmd +:+ ": " +:+ e)) (git_run args) in
  if o_success o then Ok (o_stdout o) else Err (GitError (cmd +:+ " failed: " +:+ trimmed_lossy (o_stderr o))).

Definition list_md_files (repo : string) : result IngestError (list string) :=
  let? out := ls_output "git ls-files" ["-C"; repo; "ls-files"; "--"; "*.md"] in
  Ok (string_of_bytes <$> filter (λ l, l ≠ []) (trim <$> lines (as_bytes (from_utf8_lossy out)))).

Definition list_md_blobs (repo : string) : result IngestError (gmap string string) :=
  let? out := ls_output "git ls-files -s" ["-C"; repo; "ls-files"; "-s"; "--"; "*.md"] in
  Ok (foldl (λ m p, <[p.1 := p.2]> m) ∅ (omap parse_blob_line (lines (as_bytes (from_utf8_lossy out))))).
End docs.

(** The tests of the source *)
Definition eol : string := string_of_bytes [newline].
Example classify_tests :
  classify "docs/adrs/ADR-2026-x.md" ∅ [] = Adr ∧ classify "a/ADR-foo.md" ∅ [] = Adr ∧
  classify "repos/x/sprints/active/MEM-S1.md" ∅ [] = Sprint Kickoff ∧
  classify "x.md" {["sprint" := "MEM-S0"; "status" := "archived"]} [] = Sprint Close ∧
  classify "docs/journal/saul/2026-06-04.md" ∅ [] = Narrative Journal ∧ classify "PLANSET/00_OVERVIEW.md" ∅ [] = Doc ∧
  classify "handoffs/PIN_DGX.md" ∅ [] = Handoff ∧
  classify "PLANSET/x.md" ∅ (as_bytes ("intro" +:+ eol +:+ eol +:+ "```agentile" +:+ eol +:+ "node: claim" +:+ eol
                                       +:+ "claim-status: corrected" +:+ eol +:+ "```" +:+ eol)) = Claim Corrected.
Proof. split_and!; vm_compute; reflexivity. Qed.
Example title_tests :
  doc_title "a/b.md" ∅ (as_bytes ("# Real Title" +:+ eol +:+ eol +:+ "body")) = "Real Title" ∧
  doc_title "a/b.md" {["sprint" := "MEM-S0"]} (as_bytes "no heading") = "MEM-S0" ∧
  doc_title "a/my-doc.md" ∅ (as_bytes "no heading") = "my-doc".
Proof. split_and!; vm_compute; reflexivity. Qed.
