(* ===== verification/Chunk.v ===== *)
(** * Citations ([mem-corpus/src/cite.rs])

    [<repo>:<path>#<anchor>] for a passage, the anchor taken from the breadcrumb on the
    passage's first line. *)

From S2P Require Import Prelude Bytes Text Str Node Frontmatter Docs Chars.

Definition BREADCRUMB_SEP : string := " › ".

(** [str::rsplit_once]: at the last occurrence of the pattern *)
Fixpoint rsplit_once_str (p l : bytes) : option (bytes * bytes) :=
  match l with
  | [] => if bool_decide (p = []) then Some ([], []) else None
  | b :: k =>
    match rsplit_once_str p k with
    | Some (x, y) => Some (b :: x, y)
    | None => (λ y, ([], y)) <$> strip_prefix p l
    end
  end.

Section cite.
Context `{Unicode}.

Definition slug_char (p : Z * bytes) : option bytes :=
  let '(c, raw) := p in
  if is_alphanumeric c || is_whitespace c || (c =? 0x5f) || (c =? 0x2d)
  then Some (if is_whitespace c then as_bytes "-" else raw) else None.

Definition slug (heading : bytes) : bytes :=
  mjoin (omap slug_char (chunks (as_bytes (to_lowercase (string_of_bytes (trim heading)))))).

Definition repo_relative (prefix rel : bytes) : bytes :=
  let p := trim_matches (Z.eqb 0x2f) prefix in
  if bool_decide (p = []) then rel else p ++ as_bytes "/" ++ rel.

Definition section_anchor (content : bytes) : option bytes :=
  if utf8_valid content then
    first ← head (lines content);
    '(_, section) ← rsplit_once_str (as_bytes BREADCRUMB_SEP) first;
    let s := slug section in
    if bool_decide (s = []) then None else Some s
  else None.

Definition cite (source : SourceRef) (content : bytes) : option string :=
  match source with
  | Artifact repo path _ _ _ =>
    Some match section_anchor content with
         | Some a => repo +:+ ":" +:+ path +:+ "#" +:+ string_of_bytes a
         | None => repo +:+ ":" +:+ path
         end
  | _ => None
  end.
End cite.

(** * Chunking ([mem-corpus/src/chunk.rs])

    A text is split at its headings, a section into chunks of about a given number of
    characters, with the byte span each chunk comes from.  Offsets are [usize] values of a
    text in memory, which never overflow. *)

Record Chunk := { k_breadcrumb : bytes; k_text : bytes; k_byte_start : nat; k_byte_end : nat }.

(** A section: its heading and its lines with their offsets *)
Abbreviation Section_lines := (option bytes * list (bytes * nat))%type.

Definition slice (l : bytes) (a b : nat) : bytes := take (b - a) (drop a l).

(** The heading of a line for one marker *)
Definition heading_with (marker : byte) (t : bytes) : option bytes :=
  let level := length (take_while (λ c, bool_decide (c = marker)) t) in
  if negb (bool_decide (1 ≤ level ≤ 6)%nat) then None
  else
    h ← strip_prefix (as_bytes " ") (drop level t);
    let h := trim (trim_end_matches (Z.eqb (byte_Z marker)) (trim h)) in
    if bool_decide (h = []) then None else Some h.
Definition heading (line : bytes) : option bytes :=
  let t := trim_end line in
  match heading_with Byte.x23 t with Some h => Some h | None => heading_with Byte.x3d t end.

Definition is_code_fence (line : bytes) : bool :=
  starts_with (as_bytes "```") (trim_start line) || starts_with (as_bytes "~~~") (trim_start line).

(** ** Sections *)

(** The sections before the last one, the last one, whether a fence is open, the offset *)
Record scan := { sn_done : list Section_lines; sn_last : Section_lines; sn_fence : bool; sn_pos : nat }.

Definition push_line (st : scan) (fence : bool) (line : bytes) : scan :=
  {| sn_done := sn_done st; sn_last := ((sn_last st).1, (sn_last st).2 ++ [(line, sn_pos st)]);
     sn_fence := fence; sn_pos := sn_pos st + length line |}.
Definition open_section (st : scan) (h line : bytes) : scan :=
  {| sn_done := sn_done st ++ [sn_last st]; sn_last := (Some h, [(line, sn_pos st)]);
     sn_fence := sn_fence st; sn_pos := sn_pos st + length line |}.
Definition scan_line (st : scan) (line : bytes) : scan :=
  if is_code_fence line then push_line st (negb (sn_fence st)) line
  else if sn_fence st then push_line st (sn_fence st) line
  else match heading line with Some h => open_section st h line | None => push_line st (sn_fence st) line end.

Definition sections (text : bytes) : list Section_lines :=
  let st := foldl scan_line {| sn_done := []; sn_last := (None, []); sn_fence := false; sn_pos := 0 |} (split_inclusive_nl text) in
  sn_done st ++ [sn_last st].

(** ** Chunks of a section *)

Definition breadcrumb (title : bytes) (head : option bytes) : bytes :=
  match head with
  | Some h => if bool_decide (h = title) then title else title ++ as_bytes BREADCRUMB_SEP ++ h
  | None => title
  end.

Record writer := { wr_buf : bytes; wr_start : option nat; wr_end : nat; wr_out : list Chunk }.

Section chunking.
Context (body_offset max_chars : nat).

(** [flush(&mut buf, &mut buf_start, end, &mut out)] *)
Definition flush_chunk (crumb : bytes) (end_ : nat) (w : writer) : writer :=
  let t := trim_matches is_eol (wr_buf w) in
  {| wr_buf := []; wr_start := None; wr_end := wr_end w;
     wr_out := if bool_decide (trim t = []) then wr_out w
               else match wr_start w with
                    | Some s => wr_out w ++ [{| k_breadcrumb := crumb; k_text := t; k_byte_start := body_offset + s; k_byte_end := body_offset + end_ |}]
                    | None => wr_out w
                    end |}.

(** One character of an over-long line that starts at [start]: [seg] is where the current
    piece begins in the line, [count] its characters, [i] the offset of this character. *)
Definition split_char (crumb line : bytes) (start : nat) (st : writer * nat * nat * nat) (c : Z * bytes) : writer * nat * nat * nat :=
  let '(w, seg, count, i) := st in
  let '(w, seg, count) :=
    if bool_decide (count = max_chars)
    then (flush_chunk crumb (start + i) {| wr_buf := wr_buf w ++ slice line seg i; wr_start := Some (start + seg)%nat; wr_end := wr_end w; wr_out := wr_out w |}, i, O)
    else (w, seg, count) in
  (w, seg, S count, (i + length c.2)%nat).

Definition split_long (crumb line : bytes) (start : nat) (w : writer) : writer :=
  let '(w, seg, _, _) := foldl (split_char crumb line start) (flush_chunk crumb (wr_end w) w, O, O, O) (chunks line) in
  {| wr_buf := wr_buf w ++ drop seg line; wr_start := Some (start + seg)%nat; wr_end := start + length line; wr_out := wr_out w |}.

Definition write_line (crumb : bytes) (w : writer) (p : bytes * nat) : writer :=
  let '(line, start) := p in
  if bool_decide (max_chars < char_count line)%nat then split_long crumb line start w
  else
    let w := if bool_decide (max_chars < char_count (wr_buf w) + char_count line)%nat && negb (bool_decide (trim (wr_buf w) = []))
             then flush_chunk crumb (wr_end w) w else w in
    {| wr_buf := wr_buf w ++ line; wr_start := Some (default start (wr_start w)); wr_end := start + length line; wr_out := wr_out w |}.

Definition section_chunks (title : bytes) (out : list Chunk) (s : Section_lines) : list Chunk :=
  let crumb := breadcrumb title s.1 in
  let w := foldl (write_line crumb) {| wr_buf := []; wr_start := None; wr_end := 0; wr_out := out |} s.2 in
  wr_out (flush_chunk crumb (wr_end w) w).
End chunking.

Definition chunk_text (title text : bytes) (body_offset max_chars : nat) : list Chunk :=
  foldl (section_chunks body_offset max_chars title) [] (sections text).

(** ** Titles *)

Definition h1 (t : bytes) (p : string) : option bytes :=
  h ← strip_prefix (as_bytes p) t; if bool_decide (trim h = []) then None else Some (trim h).

(** The first heading outside fenced code *)
Fixpoint first_h1 (in_fence : bool) (ls : list bytes) : option bytes :=
  match ls with
  | [] => None
  | line :: ls =>
    if is_code_fence line then first_h1 (negb in_fence) ls
    else if in_fence then first_h1 in_fence ls
    else match head (omap (h1 (trim_start line)) ["# "; "= "]) with
         | Some h => Some h
         | None => first_h1 in_fence ls
         end
  end.

Definition is_quote (c : Z) : bool := c =? 0x22.

(** [file.rsplit_once('.')] with a stem that is not empty *)
Definition file_stem (file : bytes) : bytes :=
  match rsplit_once_str (as_bytes ".") file with
  | Some (stem, _) => if bool_decide (stem = []) then file else stem
  | None => file
  end.

Definition title_of (rel_path : bytes) (fm_title : option bytes) (body : bytes) : bytes :=
  match first_h1 false (lines body) with
  | Some h => h
  | None =>
    match trim <$> fm_title with
    | Some (_ :: _ as t) => trim_matches is_quote t
    | _ => file_stem (last_part slash rel_path)
    end
  end.

(** * What chunking does to a text

    The chunks of a text are a partition of it without its blank pieces. *)

(** ** What a text is split into *)

(** The chunks of consecutive pieces of a text that starts at [at_]: blank pieces are left
    out, the others keep their span and lose the line ends around them. *)
Fixpoint pieces_chunks (at_ : nat) (ps : list (bytes * bytes)) : list Chunk :=
  match ps with
  | [] => []
  | (crumb, p) :: ps =>
    (if bool_decide (trim (trim_matches is_eol p) = []) then []
     else [{| k_breadcrumb := crumb; k_text := trim_matches is_eol p; k_byte_start := at_; k_byte_end := at_ + length p |}])
    ++ pieces_chunks (at_ + length p) ps
  end.
Lemma pieces_chunks_app at_ ps qs : pieces_chunks at_ (ps ++ qs) = pieces_chunks at_ ps ++ pieces_chunks (at_ + length (mjoin ps.*2)) qs.
Proof.
  revert at_. induction ps as [|[c p] ps IH]; intros at_; cbn [app pieces_chunks fmap list_fmap mjoin list_join length]; [by rewrite Nat.add_0_r|].
  rewrite IH, length_app, Nat.add_assoc. by rewrite <- app_assoc.
Qed.

Lemma slice_app l a b : (a ≤ b)%nat → slice l 0 a ++ slice l a b = slice l 0 b.
Proof. intros Hab. unfold slice. rewrite !drop_0, !Nat.sub_0_r. rewrite take_take_drop. f_equal. lia. Qed.
Lemma take_slice l a b : (a ≤ b)%nat → take a l ++ slice l a b = take b l.
Proof. intros Hab. unfold slice. rewrite take_take_drop. f_equal. lia. Qed.

Section chunking_props.
Context (off max : nat) (Hmax : (0 < max)%nat).

(** The writer has turned the pieces [ps] into chunks and holds the rest of [pre]. *)
Record written (ps : list (bytes * bytes)) (pre : bytes) (w : writer) : Prop := {
  wt_out : wr_out w = pieces_chunks off ps;
  wt_text : mjoin ps.*2 ++ wr_buf w = pre;
  wt_start : wr_start w = None ∧ wr_buf w = [] ∨ wr_start w = Some (length (mjoin ps.*2));
  wt_fit : Forall (λ p, width p ≤ max)%nat ps.*2;
  wt_buf : (width (wr_buf w) ≤ max)%nat;
}.
Definition with_crumb (crumb : bytes) (ps : list bytes) : list (bytes * bytes) := pair crumb <$> ps.
Lemma with_crumb_snd crumb ps : (with_crumb crumb ps).*2 = ps.
Proof. unfold with_crumb. rewrite <- list_fmap_compose. apply list_fmap_id. Qed.

Lemma flush_written crumb end_ ps pre w : written ps pre w → wr_buf w = [] ∨ end_ = length pre →
  written (ps ++ [(crumb, wr_buf w)]) pre (flush_chunk off crumb end_ w).
Proof.
  intros [Ho Hp Hs Hf Hwb] He. split; cbn [flush_chunk wr_out wr_buf wr_start].
  - rewrite Ho, pieces_chunks_app. cbn [pieces_chunks]. rewrite app_nil_r. case_bool_decide as Hb; [by rewrite app_nil_r|].
    destruct He as [He|He]; [by rewrite He in Hb|]. destruct Hs as [[_ Hs]|Hs]; [by rewrite Hs in Hb|].
    by rewrite Hs, He, <- Hp, length_app, Nat.add_assoc.
  - rewrite fmap_app, join_app. cbn. by rewrite !app_nil_r.
  - by left.
  - rewrite fmap_app. apply Forall_app. split; [done|]. by apply Forall_singleton.
  - cbn. lia.
Qed.

(** The characters of an over-long line: [cs] are to come, [run] is the current piece. *)
Lemma split_chars_written crumb line text0 cs : ∀ ca run w ps, chunks line = ca ++ run ++ cs → (length run ≤ max)%nat →
  wr_buf w = [] → wr_start w = None → written ps (text0 ++ unchunk ca) w →
  ∃ qs w' ca' run' i', foldl (split_char off max crumb line (length text0)) (w, length (unchunk ca), length run, length (unchunk (ca ++ run))) cs
      = (w', length (unchunk ca'), length run', i') ∧
    chunks line = ca' ++ run' ∧ (length run' ≤ max)%nat ∧ wr_buf w' = [] ∧ wr_start w' = None ∧
    written (ps ++ with_crumb crumb qs) (text0 ++ unchunk ca') w'.
Proof.
  induction cs as [|c cs IH]; intros ca run w ps Hl Hrun Hb Hs Hw.
  { exists [], w, ca, run, (length (unchunk (ca ++ run))). rewrite app_nil_r in Hl. cbn [with_crumb fmap list_fmap foldl]. rewrite app_nil_r. by split_and!. }
  assert (∀ a b : list (Z * bytes), unchunk (a ++ b) = unchunk a ++ unchunk b) as Hu by (intros a b; unfold unchunk; by rewrite fmap_app, join_app).
  assert (line = unchunk ca ++ unchunk run ++ unchunk (c :: cs)) as El by (rewrite <- (unchunk_chunks line), Hl, !Hu; done).
  assert (∀ a, length (unchunk (a ++ [c])) = (length (unchunk a) + length c.2)%nat) as Hc1
    by (intros a; rewrite Hu, length_app; unfold unchunk at 2; cbn; by rewrite app_nil_r).
  cbn [foldl]. unfold split_char at 2. case_bool_decide as Hc.
  - set (w1 := {| wr_buf := _ |}).
    assert (slice line (length (unchunk ca)) (length (unchunk (ca ++ run))) = unchunk run) as Hsl.
    { unfold slice. rewrite Hu, length_app, El, drop_app_length. replace (_ + _ - _)%nat with (length (unchunk run)) by lia. apply take_app_length. }
    assert (written ps (text0 ++ unchunk (ca ++ run)) w1) as Hw1.
    { destruct Hw as [Ho Ht Hst Hf _]. rewrite Hb, app_nil_r in Ht. split; cbn [w1 wr_out wr_buf wr_start]; [done| | |done|].
      - rewrite Hb, Ht, Hsl, Hu. cbn. by rewrite <- app_assoc.
      - right. by rewrite Ht, length_app.
      - rewrite Hb, Hsl. cbn [app]. etrans; [apply width_le|]. unfold char_count.
        rewrite (chunks_prefix (unchunk (run ++ c :: cs)) run (c :: cs)); [lia|]. by apply (chunks_suffix line ca). }
    pose proof (flush_written crumb (length text0 + length (unchunk (ca ++ run))) ps _ w1 Hw1 ltac:(right; by rewrite length_app)) as Hf.
    destruct (IH (ca ++ run) [c] (flush_chunk off crumb (length text0 + length (unchunk (ca ++ run))) w1) _ ltac:(rewrite <- app_assoc; exact Hl) ltac:(cbn; lia) eq_refl eq_refl Hf)
      as (qs & w' & ca' & run' & i' & Hr & Hrest).
    exists (wr_buf w1 :: qs), w', ca', run', i'. rewrite <- app_assoc in Hrest. rewrite Hc1 in Hr. split; [exact Hr|exact Hrest].
  - destruct (IH ca (run ++ [c]) w ps ltac:(rewrite <- app_assoc; exact Hl) ltac:(rewrite length_app; cbn; lia) Hb Hs Hw) as (qs & w' & ca' & run' & i' & Hr & Hrest).
    exists qs, w', ca', run', i'. rewrite app_assoc, Hc1, length_app, Nat.add_1_r in Hr. by split.
Qed.

Lemma write_line_written crumb line ps pre w : written ps pre w → wr_buf w = [] ∨ wr_end w = length pre → complete (wr_buf w) →
  ∃ qs, let w' := write_line off max crumb w (line, length pre) in
    written (ps ++ with_crumb crumb qs) (pre ++ line) w' ∧ wr_end w' = length (pre ++ line) ∧ (complete line → complete (wr_buf w')).
Proof.
  intros Hw He Hcm. cbn zeta. unfold write_line. rewrite length_app. case_bool_decide as Hlong.
  - unfold split_long. pose proof (flush_written crumb _ ps pre w Hw He) as Hf.
    destruct (split_chars_written crumb line pre (chunks line) [] [] (flush_chunk off crumb (wr_end w) w) (ps ++ [(crumb, wr_buf w)]) eq_refl ltac:(cbn; lia) eq_refl eq_refl
                ltac:(by rewrite app_nil_r)) as (qs & w' & ca & run & i & Hr & Hl & Hrun & Hb & Hs & [Ho Ht _ Hfit _]).
    cbn [app unchunk fmap list_fmap mjoin list_join length] in Hr. rewrite Hr.
    assert (line = unchunk ca ++ unchunk run) as El by (rewrite <- (unchunk_chunks line), Hl; unfold unchunk; by rewrite fmap_app, join_app).
    assert (drop (length (unchunk ca)) line = unchunk run) as Hd by (rewrite El; apply drop_app_length).
    exists (wr_buf w :: qs). rewrite <- app_assoc in Ho, Ht, Hfit. rewrite Hb, app_nil_r in Ht. cbn [wr_end wr_buf]. rewrite Hb, Hd. cbn [app].
    change (with_crumb crumb (wr_buf w :: qs)) with ([(crumb, wr_buf w)] ++ with_crumb crumb qs).
    split_and!; [|done|intros Hcl; by apply (complete_suffix ca run line)].
    split; cbn [wr_out wr_buf wr_start]; [exact Ho| | |exact Hfit|].
    + rewrite Ht, El. by rewrite <- app_assoc.
    + right. by rewrite Ht, length_app.
    + etrans; [apply width_le|]. unfold char_count. by rewrite (chunks_suffix line ca run Hl).
  - assert (∀ ps v, written ps pre v → complete (wr_buf v) → (trim (wr_buf v) = [] ∨ char_count (wr_buf v) + char_count line ≤ max)%nat → written ps (pre ++ line)
      {| wr_buf := wr_buf v ++ line; wr_start := Some (default (length pre) (wr_start v)); wr_end := length pre + length line; wr_out := wr_out v |}) as Hpush.
    { intros ps' v [Ho Ht Hs Hf Hb] Hcv Hroom. split; cbn [wr_out wr_buf wr_start]; [done|by rewrite app_assoc, Ht| |done|].
      - right. destruct Hs as [[-> Hb']| ->]; [|done]. cbn. by rewrite <- Ht, Hb', app_nil_r.
      - destruct Hroom as [Hbl|Hle]; [rewrite width_blank_app by done; etrans; [apply width_le|lia]|].
        etrans; [apply width_le|]. by rewrite char_count_app. }
    destruct (bool_decide _ && negb _) eqn:Hfl.
    + exists [wr_buf w]. split_and!; [|done|by intros Hcl; cbn]. apply (Hpush _ (flush_chunk off crumb (wr_end w) w)); [by apply flush_written|done|by left].
    + exists []. cbn [with_crumb fmap list_fmap]. rewrite app_nil_r. split_and!; [|done|intros Hcl; by apply complete_app].
      apply Hpush; [done..|]. apply andb_false_iff in Hfl as [Hfl|Hfl]; [right; apply bool_decide_eq_false_1 in Hfl; lia|left].
      by apply negb_false_iff, bool_decide_eq_true_1 in Hfl.
Qed.

(** Lines with their offsets from [at_] on *)
Fixpoint lines_at (at_ : nat) (ls : list (bytes * nat)) : Prop :=
  match ls with [] => True | (l, o) :: ls => o = at_ ∧ lines_at (at_ + length l) ls end.
Lemma lines_at_app at_ l1 l2 : lines_at at_ (l1 ++ l2) ↔ lines_at at_ l1 ∧ lines_at (at_ + length (mjoin l1.*1)) l2.
Proof.
  revert at_. induction l1 as [|[l o] l1 IH]; intros at_; cbn [app lines_at fmap list_fmap mjoin list_join length fst].
  - rewrite Nat.add_0_r. tauto.
  - rewrite IH, length_app, Nat.add_assoc. tauto.
Qed.

(** Every line but the last ends its own characters. *)
Fixpoint closed_lines (ls : list bytes) : Prop :=
  match ls with [] | [_] => True | l :: (_ :: _) as ls => complete l ∧ closed_lines ls end.

Lemma write_lines_written crumb ls : ∀ ps pre w, written ps pre w → wr_buf w = [] ∨ wr_end w = length pre → lines_at (length pre) ls →
  complete (wr_buf w) → closed_lines ls.*1 →
  ∃ qs, let w' := foldl (write_line off max crumb) w ls in
    written (ps ++ with_crumb crumb qs) (pre ++ mjoin ls.*1) w' ∧ (wr_buf w' = [] ∨ wr_end w' = length (pre ++ mjoin ls.*1)).
Proof.
  induction ls as [|[line o] ls IH]; intros ps pre w Hw He Hl Hcm Hcl.
  { exists []. cbn. rewrite !app_nil_r. by split. }
  destruct Hl as [-> Hl]. destruct (write_line_written crumb line ps pre w Hw He Hcm) as (qs & Hw' & He' & Hc').
  cbn [foldl fmap list_fmap mjoin list_join fst]. destruct ls as [|p ls].
  { exists qs. cbn [foldl fmap list_fmap mjoin list_join]. rewrite app_nil_r. split; [exact Hw'|by right]. }
  destruct Hcl as [Hcl Hcls]. destruct (IH _ _ _ Hw' (or_intror He') ltac:(by rewrite length_app) (Hc' Hcl) Hcls) as (qs' & Hr & Hr').
  exists (qs ++ qs'). unfold with_crumb in *. rewrite fmap_app. rewrite <- !app_assoc in Hr. rewrite <- app_assoc in Hr'. by split.
Qed.

Lemma section_chunks_written title ps s : lines_at (length (mjoin ps.*2)) s.2 → closed_lines s.2.*1 → Forall (λ p, width p ≤ max)%nat ps.*2 →
  ∃ qs, section_chunks off max title (pieces_chunks off ps) s = pieces_chunks off (ps ++ with_crumb (breadcrumb title s.1) qs) ∧
        mjoin qs = mjoin s.2.*1 ∧ Forall (λ p, width p ≤ max)%nat qs.
Proof.
  intros Hl Hcl Hfit. unfold section_chunks. set (w0 := {| wr_buf := [] |}).
  assert (written ps (mjoin ps.*2) w0) as Hw by (split; [done|by cbn; rewrite app_nil_r|by left|done|cbn; lia]).
  destruct (write_lines_written (breadcrumb title s.1) s.2 ps _ w0 Hw (or_introl eq_refl) Hl complete_nil Hcl) as (qs & Hr & He).
  pose proof (flush_written (breadcrumb title s.1) _ _ _ _ Hr He) as [Ho Ht _ Hf _]. cbn [flush_chunk wr_buf] in Ht. rewrite app_nil_r in Ht.
  eexists (qs ++ [_]). unfold with_crumb in *. rewrite fmap_app, app_assoc. split; [exact Ho|].
  pose proof (with_crumb_snd (breadcrumb title s.1) qs) as Hsnd. unfold with_crumb in Hsnd. rewrite !fmap_app, Hsnd in Ht, Hf. split.
  - rewrite !join_app in Ht. rewrite <- app_assoc in Ht. apply app_inv_head in Ht. by rewrite <- Ht, join_app.
  - apply Forall_app in Hf as [Hf1 Hf2]. apply Forall_app in Hf1 as [_ Hf1]. by apply Forall_app.
Qed.
End chunking_props.

Lemma closed_lines_app a b : closed_lines (a ++ b) → closed_lines a ∧ closed_lines b.
Proof.
  induction a as [|x a IH]; [done|]. cbn [app]. destruct a as [|y a]; [cbn [app]; destruct b; [done|by intros [_ ?]]|]. intros [Hx Hr]. destruct (IH Hr). by split.
Qed.
Lemma split_inclusive_closed l : closed_lines (split_inclusive_nl l).
Proof.
  unfold split_inclusive_nl. generalize ([] : bytes). induction l as [|b l IH]; intros acc; cbn [inclusive_go]; [by destruct acc|].
  case_decide as Hb; [|apply IH]. specialize (IH []). destruct (inclusive_go [] l) eqn:E; [done|]. split; [|done].
  rewrite reverse_cons. apply complete_ascii. by subst.
Qed.

Lemma scan_line_sections st line : let st' := scan_line st line in
  mjoin (sn_done st' ++ [sn_last st']).*2 = mjoin (sn_done st ++ [sn_last st]).*2 ++ [(line, sn_pos st)] ∧ sn_pos st' = (sn_pos st + length line)%nat.
Proof.
  unfold scan_line, push_line, open_section. repeat case_match; cbn [sn_done sn_last sn_pos]; rewrite ?fmap_app, ?join_app; cbn; rewrite ?app_nil_r, <- ?app_assoc; done.
Qed.

Lemma sections_lines text : lines_at 0 (mjoin (sections text).*2) ∧ (mjoin (sections text).*2).*1 = split_inclusive_nl text.
Proof.
  assert (∀ ls st, lines_at 0 (mjoin (sn_done st ++ [sn_last st]).*2) → sn_pos st = length (mjoin (mjoin (sn_done st ++ [sn_last st]).*2).*1) →
    let st' := foldl scan_line st ls in lines_at 0 (mjoin (sn_done st' ++ [sn_last st']).*2) ∧
      (mjoin (sn_done st' ++ [sn_last st']).*2).*1 = (mjoin (sn_done st ++ [sn_last st]).*2).*1 ++ ls) as Hx.
  { clear. induction ls as [|l ls IH]; intros st Hl Hp; cbn [foldl]; [cbn; by rewrite app_nil_r|].
    destruct (scan_line_sections st l) as [Hs Hpos]. destruct (IH (scan_line st l)) as [H1 H2].
    - rewrite Hs. apply lines_at_app. split; [done|]. cbn. by rewrite Hp.
    - rewrite Hs, Hpos, fmap_app, join_app, length_app. cbn. rewrite app_nil_r. lia.
    - split; [exact H1|]. rewrite H2, Hs, fmap_app. cbn. by rewrite <- app_assoc. }
  exact (Hx (split_inclusive_nl text) {| sn_done := []; sn_last := (None, []); sn_fence := false; sn_pos := 0 |} I eq_refl).
Qed.

(** The pieces of the sections, each with the breadcrumb of its section *)
Definition crumbed (title : bytes) (ss : list Section_lines) (pss : list (list bytes)) : list (bytes * bytes) :=
  mjoin (zip_with (λ s ps, with_crumb (breadcrumb title s.1) ps) ss pss).

Lemma chunk_sections_partition title off max ss : (0 < max)%nat → ∀ ps, lines_at (length (mjoin ps.*2)) (mjoin ss.*2) → closed_lines (mjoin ss.*2).*1 →
  Forall (λ p, width p ≤ max)%nat ps.*2 →
  ∃ pss, Forall2 (λ s qs, mjoin qs = mjoin s.2.*1 ∧ Forall (λ p, width p ≤ max)%nat qs) ss pss ∧
    foldl (section_chunks off max title) (pieces_chunks off ps) ss = pieces_chunks off (ps ++ crumbed title ss pss).
Proof.
  intros Hmax. induction ss as [|s ss IH]; intros ps Hl Hcl Hfit.
  { exists []. split; [constructor|]. by rewrite app_nil_r. }
  cbn [fmap list_fmap mjoin list_join] in Hl, Hcl. apply lines_at_app in Hl as [H1 H2]. rewrite fmap_app in Hcl. apply closed_lines_app in Hcl as [C1 C2].
  destruct (section_chunks_written off max Hmax title ps s H1 C1 Hfit) as (qs & Hs & Hq & Hw). cbn [foldl]. rewrite Hs.
  destruct (IH (ps ++ with_crumb (breadcrumb title s.1) qs)) as (pss & Hf & Hr).
  { by rewrite fmap_app, join_app, with_crumb_snd, length_app, Hq. }
  { done. }
  { rewrite fmap_app, with_crumb_snd. by apply Forall_app. }
  exists (qs :: pss). split; [by constructor|]. rewrite Hr, <- app_assoc. done.
Qed.

(** [C38] Chunking loses nothing and keeps to its bound.  Every section of the text is cut
    into pieces that make it up again, the sections make up the text, and the chunks are
    exactly the pieces that are not blank, in order: each with the breadcrumb of its
    section, the span its piece has in the file and the text of that span without the line
    ends around it; and no piece has more than the maximum of characters between its outer
    blanks. *)
Theorem chunk_text_partition title text off max (Hmax : (0 < max)%nat) : ∃ pss,
  Forall2 (λ s ps, mjoin ps = mjoin s.2.*1 ∧ Forall (λ p, char_count (trim p) ≤ max)%nat ps) (sections text) pss ∧
  mjoin (mjoin (sections text).*2).*1 = text ∧
  chunk_text title text off max = pieces_chunks off (crumbed title (sections text) pss).
Proof.
  destruct (sections_lines text) as [Hl E].
  destruct (chunk_sections_partition title off max (sections text) Hmax [] Hl) as (pss & Hf & Hr); [rewrite E; apply split_inclusive_closed|constructor|].
  exists pss. split_and!; [exact Hf|by rewrite E, split_inclusive_join|exact Hr].
Qed.

(** Blank lines before a text are kept with it without counting: the chunk may be longer
    than the maximum. *)
Lemma blank_lines_exceed_target :
  let blank := as_bytes "    " ++ [newline] in
  (λ c, char_count (k_text c)) <$> chunk_text (as_bytes "t") (blank ++ blank ++ as_bytes "ab") 0 5 = [12%nat].
Proof. vm_compute. reflexivity. Qed.
