(* ===== verification/Ingest.v ===== *)
(** * Derived-plane ingestion ([mem-ingest/src/lib.rs])

    Commits, branches and documents become nodes and edges, which one batch commits; the
    load-bearing supersessions are applied after it, and a watermark records how far the
    history was read.  One run sees one state of the repository: the git process ([Git])
    and the work tree ([Worktree]) are parameters, the wall clock is an argument. *)

From S2P Require Import Prelude Bytes Externs Text Str Belnap Identity Node Float Edge Trailers Frontmatter Index.
From S2P Require Import Kv Shred Store StoreContents Supersession StoreInterface Assert Query Search Display Git Docs.

Record IngestReport := {
  ir_commits : nat;
  ir_docs : nat;
  ir_nodes_in_store : nat;
  ir_edges_in_store : nat;
  ir_superseded : nat;
  ir_supersessions_rejected : nat;
  ir_watermark : Watermark;
}.
Record BranchIngestReport := { bi_branches_ingested : nat; bi_in_flight_commits : nat; bi_unchanged : nat }.
Record ReapReport := { rp_archived : nat; rp_merged : nat; rp_deleted : nat; rp_advanced : nat }.

Definition branch_watermark_key (repo branch : string) : bytes :=
  as_bytes ("derived_branch_watermark:" +:+ repo +:+ ":" +:+ branch).

(** ** The work tree *)

Class Worktree := {
  (** [symlink_metadata(path).ok()]: is it a regular file, and its length *)
  symlink_metadata : string → option (bool * Z);
  (** [canonicalize().ok()]: the components of the real path *)
  canonicalize : string → option (list string);
  (** [File::open(real).ok()?.take(n).read_to_end(..).ok()] *)
  read_take : list string → Z → option bytes;
}.
Class WorktreeLaws `{Worktree} : Prop :=
  read_take_bound : ∀ p n b, read_take p n = Some b → Z.of_nat (length b) ≤ n.

Definition MAX_DOC_BYTES : Z := 4 * 1024 * 1024.

(** [Path::join]: an absolute path replaces the base *)
Definition path_join (root rel : string) : string :=
  if String.prefix "/" rel then rel
  else if bool_decide (root = "") || bool_decide (last (as_bytes root) = Some slash) then root +:+ rel
  else root +:+ "/" +:+ rel.

Definition read_tracked_doc `{Worktree} (repo_root rel : string) : option bytes :=
  let path := path_join repo_root rel in
  match symlink_metadata path with
  | None => None
  | Some (is_file, len) =>
    if negb is_file || (MAX_DOC_BYTES <? len) then None
    else
      root ← canonicalize repo_root;
      real ← canonicalize path;
      if negb (bool_decide (take (length root) real = root)) then None
      else
        buf ← read_take real (MAX_DOC_BYTES + 1);
        if MAX_DOC_BYTES <? Z.of_nat (length buf) then None else Some buf
  end.

(** ** Nodes and edges *)

Definition with_embedding (v : option VersionedVector) (n : MemoryNode) : MemoryNode :=
  {| n_schema_version := n_schema_version n; n_plane := n_plane n; n_kind := n_kind n; n_repo := n_repo n;
     n_author := n_author n; n_source_ref := n_source_ref n; n_content := n_content n; n_valid_from := n_valid_from n;
     n_valid_to := n_valid_to n; n_observed_at := n_observed_at n; n_trust_tier := n_trust_tier n;
     n_signature := n_signature n; n_embedding := v; n_confidence := n_confidence n; n_anchors := n_anchors n;
     n_status := n_status n |}.

Definition no_reuse (_ : ContentHash) : option VersionedVector := None.

(** A vector of the embedder's model and dimension *)
Definition of_model (em : Embedder) (v : VersionedVector) : bool :=
  bool_decide (vv_model v = em_model_id em) && bool_decide (length (vv_data v) = em_dim em).

Definition opt_filter {A} (p : A → bool) (o : option A) : option A :=
  match o with Some a => if p a then Some a else None | None => None end.

Definition is_authority_bearing (kind : EdgeKind) : bool :=
  match kind with Supersedes | Refutes => true | _ => false end.

Definition is_marker_kind (kind : NodeKind) : bool := match kind with Branch => true | _ => false end.

Definition make_edge (from to : ContentHash) (kind : EdgeKind) (method : EdgeMethod) (now_ms : Timestamp)
    (evidence : option string) : Edge :=
  {| e_from := from; e_to := to; e_kind := kind; e_plane := Derived; e_trust_tier := DerivedDeterministic;
     e_provenance := {| p_method := method; p_asserter := "ingest"; p_at := now_ms; p_evidence := evidence |};
     e_confidence := [True_]; e_quarantined := false; e_signature := None |}.

Definition make_trailer_edge (from to : ContentHash) (kind : EdgeKind) (now_ms : Timestamp) (evidence : option string)
    (author : string) (authoritative : gset string) : Edge :=
  let quarantined := is_authority_bearing kind && negb (bool_decide (author ∈ authoritative)) in
  {| e_from := from; e_to := to; e_kind := kind; e_plane := Derived; e_trust_tier := DerivedDeterministic;
     e_provenance := {| p_method := Edge.Trailer; p_asserter := author; p_at := now_ms; p_evidence := evidence |};
     e_confidence := [True_]; e_quarantined := quarantined; e_signature := None |}.

(** A Derived node of the ingestor with the fields all of them share *)
Definition derived_node (kind : NodeKind) (repo author : string) (src : SourceRef) (content : bytes)
    (valid_from observed : Timestamp) (confidence : list BelnapValue) (status : Status) : MemoryNode :=
  {| n_schema_version := SCHEMA_VERSION; n_plane := Derived; n_kind := kind; n_repo := repo; n_author := author;
     n_source_ref := src; n_content := content; n_valid_from := valid_from; n_valid_to := None; n_observed_at := observed;
     n_trust_tier := DerivedDeterministic; n_signature := None; n_embedding := None; n_confidence := confidence;
     n_anchors := []; n_status := status |}.

Definition ref_kind (slug : bytes) : NodeKind :=
  if Str.starts_with (as_bytes "adr") (ascii_lowercase slug) then Adr else WorkPackage.

Definition ref_node (repo : string) (slug : bytes) (now_ms : Timestamp) : MemoryNode :=
  derived_node (ref_kind slug) repo "ingest" (DagNative ("ref:" +:+ string_of_bytes slug)) slug now_ms now_ms [] Active.

Definition branch_node (repo name tip : string) (now_ms : Timestamp) : MemoryNode :=
  derived_node Branch repo "ingest" (DagNative ("branch:" +:+ name)) (as_bytes (name +:+ "@" +:+ tip)) now_ms now_ms [True_] Active.

(** [(secs.max(0) as u64).saturating_mul(1000)] *)
Definition commit_millis (secs : Z) : Timestamp := Z.min (Z.max secs 0 * 1000) u64_max.

Definition bare_commit (repo : string) (rec : CommitRecord) (now_ms : Timestamp) : MemoryNode :=
  derived_node Commit repo (cr_author rec) (GitCommit repo (cr_sha rec)) (as_bytes (cr_subject rec))
    (commit_millis (cr_time_secs rec)) now_ms [True_] Active.

Definition doc_author (fm : gmap string string) : string := default "ingest" (fm !! "author").

Definition bare_doc (repo rel_path title blob_sha : string) (fm : gmap string string) (kind : NodeKind) (now_ms : Timestamp) : MemoryNode :=
  derived_node kind repo (doc_author fm) (Artifact repo rel_path blob_sha 0 0) (as_bytes title)
    (default now_ms (created_ms fm)) now_ms [True_] (status_from_fm fm).

(** The first [n] characters *)
Definition take_chars (n : nat) (l : bytes) : bytes := unchunk (take n (chunks l)).

(** What a build accumulates *)
Record build := {
  b_shas : gmap string ContentHash;
  b_refs : gmap bytes ContentHash;
  b_nodes : list MemoryNode;
  b_edges : list Edge;
}.
Definition empty_build : build := {| b_shas := ∅; b_refs := ∅; b_nodes := []; b_edges := [] |}.

(** [edges.push(e)] *)
Definition push_edge (e : Edge) (b : build) : build :=
  {| b_shas := b_shas b; b_refs := b_refs b; b_nodes := b_nodes b; b_edges := b_edges b ++ [e] |}.

Section builders.
Context `{Blake3}.

Definition embed_or_reuse (node : MemoryNode) (text : string) (em : Embedder) (reuse : ContentHash → option VersionedVector)
    : result IngestError MemoryNode :=
  let? v := match opt_filter (of_model em) (reuse (compute_id node)) with
            | Some v => Ok v
            | None => map_err (EmbedFailed ∘ EmbedError_display) (em_embed em text)
            end in
  Ok (with_embedding (Some v) node).

Definition commit_node (repo : string) (rec : CommitRecord) (now_ms : Timestamp) (em : Embedder)
    (reuse : ContentHash → option VersionedVector) : result IngestError MemoryNode :=
  embed_or_reuse (bare_commit repo rec now_ms) (cr_subject rec +:+ eol +:+ cr_body rec) em reuse.

Definition doc_node (repo rel_path title blob_sha : string) (fm : gmap string string) (kind : NodeKind) (body : bytes)
    (now_ms : Timestamp) (em : Embedder) (reuse : ContentHash → option VersionedVector) : result IngestError MemoryNode :=
  embed_or_reuse (bare_doc repo rel_path title blob_sha fm kind now_ms)
    (title +:+ eol +:+ string_of_bytes (take_chars 512 body)) em
    (if bool_decide (blob_sha = "") then no_reuse else reuse).

(** The parent links of one commit: only parents seen before *)
Definition parent_edges (id : ContentHash) (shas : gmap string ContentHash) (now_ms : Timestamp) (parents : list string) : list Edge :=
  omap (λ p, (λ pid, make_edge id pid (if bool_decide (p.1 = O) then TemporalNext else MergeParent) Ingest now_ms (Some p.2))
             <$> shas !! p.2) (imap pair parents).

(** The edge of one trailer, and the placeholder it points to when it is new *)
Definition trailer_step (repo : string) (now_ms : Timestamp) (map_key : bytes → option EdgeKind) (author : string)
    (authoritative : gset string) (id : ContentHash) (b : build) (t : Trailer) : build :=
  match map_key (tr_key t) with
  | None => b
  | Some ek =>
    let rn := ref_node repo (tr_value t) now_ms in
    let '(rid, refs, nodes) :=
      match b_refs b !! tr_value t with
      | Some rid => (rid, b_refs b, b_nodes b)
      | None => (compute_id rn, <[tr_value t := compute_id rn]> (b_refs b), b_nodes b ++ [rn])
      end in
    {| b_shas := b_shas b; b_refs := refs; b_nodes := nodes;
       b_edges := b_edges b ++ [make_trailer_edge id rid ek now_ms (Some (string_of_bytes (tr_key t))) author authoritative] |}
  end.

(** A commit joins the build: its node and parent links *)
Definition add_commit (now_ms : Timestamp) (rec : CommitRecord) (node : MemoryNode) (b : build) : build :=
  let id := compute_id node in
  let shas := <[cr_sha rec := id]> (b_shas b) in
  {| b_shas := shas; b_refs := b_refs b; b_nodes := b_nodes b ++ [node];
     b_edges := b_edges b ++ parent_edges id shas now_ms (cr_parents rec) |}.

Definition commit_step (repo : string) (now_ms : Timestamp) (em : Embedder) (authoritative : gset string)
    (reuse : ContentHash → option VersionedVector) (b : build) (rec : CommitRecord) : result IngestError build :=
  let? node := commit_node repo rec now_ms em reuse in
  Ok (foldl (trailer_step repo now_ms map_trailer (cr_author rec) authoritative (compute_id node))
        (add_commit now_ms rec node b) (parse_trailers (as_bytes (cr_body rec)))).

Definition build_graph_gated_reuse (repo : string) (recs : list CommitRecord) (now_ms : Timestamp) (em : Embedder)
    (authoritative : gset string) (reuse : ContentHash → option VersionedVector) : result IngestError (list MemoryNode * list Edge) :=
  rmap (λ b, (b_nodes b, b_edges b)) (rfold (commit_step repo now_ms em authoritative reuse) empty_build recs).

Definition build_graph_gated (repo : string) (recs : list CommitRecord) (now_ms : Timestamp) (em : Embedder)
    (authoritative : gset string) : result IngestError (list MemoryNode * list Edge) :=
  build_graph_gated_reuse repo recs now_ms em authoritative no_reuse.

Definition build_graph (repo : string) (recs : list CommitRecord) (now_ms : Timestamp) (em : Embedder)
    : result IngestError (list MemoryNode * list Edge) :=
  build_graph_gated repo recs now_ms em ∅.

(** A commit unique to a branch: as [commit_step] without trailers, and the edge that holds it *)
Definition branch_step (repo branch_name : string) (bid : ContentHash) (now_ms : Timestamp) (em : Embedder)
    (reuse : ContentHash → option VersionedVector) (b : build) (rec : CommitRecord) : result IngestError build :=
  let? node := commit_node repo rec now_ms em reuse in
  Ok (push_edge (make_edge bid (compute_id node) BranchContains Ingest now_ms (Some branch_name)) (add_commit now_ms rec node b)).

Definition build_branch_graph (repo branch_name tip : string) (recs : list CommitRecord) (now_ms : Timestamp) (em : Embedder)
    (reuse : ContentHash → option VersionedVector) : result IngestError (list MemoryNode * list Edge) :=
  let branch := branch_node repo branch_name tip now_ms in
  let start := {| b_shas := ∅; b_refs := ∅; b_nodes := [branch]; b_edges := [] |} in
  rmap (λ b, (b_nodes b, b_edges b)) (rfold (branch_step repo branch_name (compute_id branch) now_ms em reuse) start recs).

Context `{Git, Worktree}.

(** One tracked document; what cannot be read is skipped *)
Definition doc_step (repo root : string) (blobs : gmap string string) (now_ms : Timestamp) (em : Embedder)
    (reuse : ContentHash → option VersionedVector) (st : build * nat) (rel : string) : result IngestError (build * nat) :=
  let '(b, doc_count) := st in
  match read_tracked_doc root rel with
  | None => Ok (b, doc_count)
  | Some raw =>
    let text := as_bytes (from_utf8_lossy raw) in
    let '(fm, body) := parse text in
    let kind := classify rel fm body in
    let title := doc_title rel fm body in
    let blob_sha := default "" (blobs !! rel) in
    let? node := doc_node repo rel title blob_sha fm kind body now_ms em reuse in
    let b := {| b_shas := b_shas b; b_refs := b_refs b; b_nodes := b_nodes b ++ [node]; b_edges := b_edges b |} in
    Ok (foldl (trailer_step repo now_ms map_block_directive (doc_author fm) ∅ (compute_id node)) b (parse_agentile_blocks text),
        S doc_count)
  end.

Definition build_doc_graph (repo root : string) (now_ms : Timestamp) (em : Embedder)
    (reuse : ContentHash → option VersionedVector) : result IngestError (list MemoryNode * list Edge * nat) :=
  let? paths := list_md_files root in
  let? blobs := list_md_blobs root in
  rmap (λ st, (b_nodes st.1, b_edges st.1, st.2)) (rfold (doc_step repo root blobs now_ms em reuse) (empty_build, O) paths).
End builders.

(** ** The ingestor *)

Record Ingestor := {
  in_repo_name : string;
  in_embedder : Embedder;
  in_authoritative_authors : gset string;
}.
Definition with_embedder (repo_name : string) (em : Embedder) : Ingestor :=
  {| in_repo_name := repo_name; in_embedder := em; in_authoritative_authors := ∅ |}.
Definition Ingestor_new `{Blake3, Unicode, FloatNan} (repo_name : string) : Ingestor := with_embedder repo_name default_embedder.
Definition with_authoritative_authors (self : Ingestor) (authors : list string) : Ingestor :=
  {| in_repo_name := in_repo_name self; in_embedder := in_embedder self; in_authoritative_authors := list_to_set authors |}.

Section ingestor.
Context {T : Type} `{MemStore T, Blake3, Serde Watermark, CharTables, Git, Worktree}.
Context (self : Ingestor) (now : Timestamp).

Abbreviation repo_name := (in_repo_name self).

Definition store_reuse (t : T) (id : ContentHash) : option VersionedVector :=
  opt_filter (of_model (in_embedder self)) (default None (rok (ms_get_node t id)) ≫= n_embedding).

(** A store call under [?] *)
Definition on_store {A} (m : stm T StoreError A) : stm T IngestError A := smap_err IngestStore m.
Definition read_store {A} (f : T → result StoreError A) : stm T IngestError A := sread (λ t, map_err IngestStore (f t)).

Definition apply_one (st : nat * nat) (e : Edge) : stm T IngestError (nat * nat) :=
  λ t, match ms_apply_supersession e t with
       | (t, Ok r) => (t, Ok ((if transitioned r then S st.1 else st.1), st.2))
       | (t, Err (SupStore e)) => (t, Err (IngestStore e))
       | (t, Err _) => (t, Ok (st.1, S st.2))
       end.
Definition apply_supersessions (edges : list Edge) : stm T IngestError (nat * nat) := sfold apply_one (O, O) edges.

(** [e.kind == Supersedes && !e.quarantined] *)
Definition load_bearing_supersession (e : Edge) : bool := bool_decide (e_kind e = Supersedes) && negb (e_quarantined e).

Definition put_watermark (key : bytes) (w : Watermark) : stm T IngestError unit :=
  let! b := slift (map_err IngestSerde (to_vec w)) in
  on_store (ms_put_meta repo_name key b).

(** Commits and documents of one run, as nodes and edges *)
Definition derive (root : string) (recs : list CommitRecord) (t : T)
    : result IngestError (list MemoryNode * list Edge * nat) :=
  let? g := build_graph_gated_reuse repo_name recs now (in_embedder self) (in_authoritative_authors self) (store_reuse t) in
  let? d := build_doc_graph repo_name root now (in_embedder self) (store_reuse t) in
  Ok (g.1 ++ d.1.1, g.2 ++ d.1.2, d.2).

(** Commit the batch, apply the supersessions, stamp the watermark *)
Definition store_graph (nodes : list MemoryNode) (edges : list Edge) (docs commits : nat)
    (watermark : result IngestError Watermark) : stm T IngestError IngestReport :=
  let! _ := on_store (ms_commit nodes (filter (λ e, load_bearing_supersession e = false) edges)) in
  let! counts := apply_supersessions (filter (λ e, load_bearing_supersession e = true) edges) in
  let! w := slift watermark in
  let! _ := put_watermark (watermark_key repo_name) w in
  let! nc := read_store ms_node_count in
  let! ec := read_store ms_edge_count in
  sret {| ir_commits := commits; ir_docs := docs; ir_nodes_in_store := nc; ir_edges_in_store := ec;
          ir_superseded := counts.1; ir_supersessions_rejected := counts.2; ir_watermark := w |}.

Definition ingest (repo_path : string) : stm T IngestError IngestReport :=
  let! root := slift (repo_root repo_path) in
  let! recs := slift (read_commits root) in
  let! g := sread (derive root recs) in
  let '(nodes, edges, docs) := g in
  store_graph nodes edges docs (length recs)
    (Ok {| w_repo := repo_name; w_head := cr_sha <$> last recs; w_head_count := length recs; w_ingested_at_ms := now |}).

(** The prior head when it is still an ancestor of HEAD *)
Definition ingest_since (root : string) (t : T) : result IngestError (option string) :=
  let? prior := read_watermark t repo_name in
  match prior ≫= w_head with
  | Some h => let? yes := is_ancestor root h in Ok (if (yes : bool) then Some h else None)
  | None => Ok None
  end.

Definition ingest_incremental (repo_path : string) : stm T IngestError IngestReport :=
  let! root := slift (repo_root repo_path) in
  let! since := sread (ingest_since root) in
  match since with
  | None => ingest repo_path
  | Some since =>
    let! recs := slift (read_commits_range root (Some since)) in
    let! g := sread (derive root recs) in
    let '(nodes, edges, docs) := g in
    store_graph nodes edges docs (length recs)
      (let? head := head_sha root in
       let? n := commit_count root in
       Ok {| w_repo := repo_name; w_head := Some head; w_head_count := n; w_ingested_at_ms := now |})
  end.

(** ** Branches *)

(** Is the stored branch watermark at this tip? *)
Definition branch_seen (t : T) (br : BranchRef) : result IngestError bool :=
  let? o := map_err IngestStore (ms_get_meta t (branch_watermark_key repo_name (br_name br))) in
  Ok (match o with
      | Some b => match from_slice b with Ok w => bool_decide (w_head w = Some (br_tip br)) | Err _ => false end
      | None => false
      end).

Definition one_unchanged (r : BranchIngestReport) : BranchIngestReport :=
  {| bi_branches_ingested := bi_branches_ingested r; bi_in_flight_commits := bi_in_flight_commits r; bi_unchanged := S (bi_unchanged r) |}.
Definition one_ingested (n : nat) (r : BranchIngestReport) : BranchIngestReport :=
  {| bi_branches_ingested := S (bi_branches_ingested r); bi_in_flight_commits := bi_in_flight_commits r + n; bi_unchanged := bi_unchanged r |}.

(** [reuse] reads the store while the loop runs, so it sees the branches before this one. *)
Definition branch_pass (root default_ref : string) (r : BranchIngestReport) (br : BranchRef) : stm T IngestError BranchIngestReport :=
  let wkey := branch_watermark_key repo_name (br_name br) in
  let! seen := sread (λ t, branch_seen t br) in
  if (seen : bool) then sret (one_unchanged r)
  else
    let! recs := slift (read_commits_between root default_ref (br_tip br)) in
    let wm := {| w_repo := repo_name; w_head := Some (br_tip br); w_head_count := length recs; w_ingested_at_ms := now |} in
    if bool_decide (recs = []) then
      let! _ := put_watermark wkey wm in
      sret (one_unchanged r)
    else
      let! g := sread (λ t, build_branch_graph repo_name (br_name br) (br_tip br) recs now (in_embedder self) (store_reuse t)) in
      let! _ := on_store (ms_commit g.1 g.2) in
      let! _ := put_watermark wkey wm in
      sret (one_ingested (length recs) r).

Definition ingest_branches (repo_path : string) : stm T IngestError BranchIngestReport :=
  let! root := slift (repo_root repo_path) in
  let! default_ref := slift (default_branch_ref root) in
  let! branches := slift (list_branches root default_ref) in
  sfold (branch_pass root default_ref) {| bi_branches_ingested := 0; bi_in_flight_commits := 0; bi_unchanged := 0 |} branches.

Definition read_branch_watermark (t : T) (branch : string) : result IngestError (option Watermark) :=
  let? o := map_err IngestStore (ms_get_meta t (branch_watermark_key repo_name branch)) in
  match o with
  | None => Ok None
  | Some b => rmap Some (map_err IngestSerde (from_slice b))
  end.

Inductive reap_reason := Deleted | Advanced | Merged.

(** Why a branch node is no live work any more *)
Definition reap_reason_of (root : string) (live : gmap string string) (name tip : string) : option reap_reason :=
  match live !! name with
  | None => Some Deleted
  | Some l => if negb (bool_decide (l = tip)) then Some Advanced
              else if default false (rok (is_ancestor root tip)) then Some Merged
              else None
  end.

Definition count_reap (why : reap_reason) (r : ReapReport) : ReapReport :=
  {| rp_archived := S (rp_archived r);
     rp_merged := (match why with Merged => 1 | _ => 0 end) + rp_merged r;
     rp_deleted := (match why with Deleted => 1 | _ => 0 end) + rp_deleted r;
     rp_advanced := (match why with Advanced => 1 | _ => 0 end) + rp_advanced r |}.

(** Name and tip of a live branch node of the tenant *)
Definition branch_content (node : MemoryNode) : option (string * string) :=
  if bool_decide (n_kind node = Branch) && bool_decide (n_repo node = repo_name) && bool_decide (n_status node = Active)
  then rsplit_once "@" (from_utf8_lossy (n_content node)) else None.

Definition reap_node (root : string) (live : gmap string string) (r : ReapReport) (node : MemoryNode) : stm T IngestError ReapReport :=
  match branch_content node ≫= λ p, reap_reason_of root live p.1 p.2 with
  | None => sret r
  | Some why =>
    let! changed := on_store (ms_set_node_status (compute_id node) Archived (Some now)) in
    sret (if (changed : bool) then count_reap why r else r)
  end.

Definition reap_branches (repo_path : string) : stm T IngestError ReapReport :=
  let! root := slift (repo_root repo_path) in
  let! default_ref := slift (default_branch_ref root) in
  let! branches := slift (list_branches root default_ref) in
  let live := foldl (λ m b, <[br_name b := br_tip b]> m) ∅ branches in
  let! nodes := read_store ms_all_nodes in
  sfold (reap_node root live) {| rp_archived := 0; rp_merged := 0; rp_deleted := 0; rp_advanced := 0 |} nodes.
End ingestor.
