(* ===== verification/IngestBuild.v ===== *)
(** * What the ingestor's builders guarantee

    The graph of a run is a function of the repository: clocks, embedders and stored
    vectors change no identity.  Its edges end at its own nodes, and an edge that retracts
    or contradicts is load-bearing only under a trusted author's name. *)

From S2P Require Import Prelude Bytes Externs Text Str Belnap Identity Node Float Edge Trailers Frontmatter Index.
From S2P Require Import Kv Shred Store StoreSpec StoreContents Supersession StoreInterface Assert Query Search Display Git Docs Ingest.

Lemma rfold_sim {E A B C} (R : B → C → Prop) (f : B → A → result E B) (g : C → A → result E C) b c l b' c' :
  R b c → (∀ b c a b' c', a ∈ l → R b c → f b a = Ok b' → g c a = Ok c' → R b' c') →
  rfold f b l = Ok b' → rfold g c l = Ok c' → R b' c'.
Proof.
  revert b c. induction l as [|a l IH]; simpl; intros b c Hbc Hfg Hb Hc; [congruence|].
  apply rbind_ok in Hb as (b1 & Hb1 & Hb). apply rbind_ok in Hc as (c1 & Hc1 & Hc). eapply (IH b1 c1); [| |done|done].
  - eapply Hfg; [|done..]. apply list_elem_of_here.
  - intros ????? Ha. apply Hfg. by apply list_elem_of_further.
Qed.

Lemma rfold_total {E A B} (f : B → A → result E B) b l : (∀ b a, a ∈ l → ∃ b', f b a = Ok b') → ∃ b', rfold f b l = Ok b'.
Proof.
  revert b. induction l as [|a l IH]; intros b Hf; [by exists b|]. cbn [rfold].
  destruct (Hf b a) as [b' ->]; [by left|]. cbn [rbind]. apply IH. intros. apply Hf. by right.
Qed.

(** [read_tracked_doc] never leaves the repository and never reads past its limit. *)
Lemma read_tracked_doc_bounded `{Worktree} root rel b :
  read_tracked_doc root rel = Some b →
  Z.of_nat (length b) ≤ MAX_DOC_BYTES ∧ (∃ len, symlink_metadata (path_join root rel) = Some (true, len)) ∧
  ∃ base below, canonicalize root = Some base ∧ canonicalize (path_join root rel) = Some (base ++ below) ∧
    read_take (base ++ below) (MAX_DOC_BYTES + 1) = Some b.
Proof.
  unfold read_tracked_doc. destruct (symlink_metadata _) as [[[] len]|]; try done. cbn [negb orb].
  destruct (MAX_DOC_BYTES <? len); [done|]. destruct (canonicalize root) as [base|]; [|done].
  destruct (canonicalize (path_join root rel)) as [real|]; [|done]. cbn [mbind option_bind].
  case_bool_decide as Hp; [|done]. cbn [negb]. destruct (read_take real _) as [buf|] eqn:Hr; [|done]. cbn [mbind option_bind].
  destruct (Z.ltb_spec MAX_DOC_BYTES (Z.of_nat (length buf))) as [|Hle]; [done|]. intros [= <-].
  split; [done|]. split; [by eexists|]. exists base, (drop (length base) real).
  assert (real = base ++ drop (length base) real) as E by (by rewrite <-Hp at 1; rewrite take_drop).
  by rewrite <-E.
Qed.

Lemma classify_not_commit rel fm body : classify rel fm body ≠ Commit.
Proof. unfold classify. destruct (claim_status_from_body body); [done|]. by repeat case_match. Qed.

(** What does not depend on the run *)
Definition erase_node (n : MemoryNode) : MemoryNode :=
  {| n_schema_version := n_schema_version n; n_plane := n_plane n; n_kind := n_kind n; n_repo := n_repo n;
     n_author := n_author n; n_source_ref := n_source_ref n; n_content := n_content n;
     n_valid_from := (if bool_decide (n_kind n = Commit) then n_valid_from n else 0);
     n_valid_to := n_valid_to n; n_observed_at := 0; n_trust_tier := n_trust_tier n; n_signature := n_signature n;
     n_embedding := None; n_confidence := n_confidence n; n_anchors := n_anchors n; n_status := n_status n |}.
Definition erase_edge (e : Edge) : Edge := set_edge_flags (e_quarantined e) (set_at 0 (e_provenance e)) e.

Section builders.
Context `{Blake3}.

Lemma compute_id_erase n : compute_id (erase_node n) = compute_id n.
Proof. by apply compute_id_identity. Qed.
Lemma compute_id_embedding v n : compute_id (with_embedding v n) = compute_id n.
Proof. by apply compute_id_identity. Qed.
Lemma erase_embedding v n : erase_node (with_embedding v n) = erase_node n.
Proof. done. Qed.
Lemma edge_ident_erase e : edge_ident (erase_edge e) = edge_ident e.
Proof. done. Qed.

Lemma erase_ref repo slug now1 now2 : erase_node (ref_node repo slug now1) = erase_node (ref_node repo slug now2).
Proof. unfold erase_node, ref_node, derived_node, ref_kind. cbn. by destruct (Str.starts_with _ _). Qed.

Lemma ids_erase (l k : list MemoryNode) : erase_node <$> l = erase_node <$> k → compute_id <$> l = compute_id <$> k.
Proof.
  intros E. apply (f_equal (fmap compute_id)) in E. rewrite <-!list_fmap_compose in E.
  assert (∀ l, (compute_id ∘ erase_node) <$> l = compute_id <$> l) as Hx
    by (intros x; apply list_fmap_ext; intros ? ? _; apply compute_id_erase).
  by rewrite !Hx in E.
Qed.

(** ** One vector per node *)

Lemma embed_or_reuse_ok node text em reuse n : embed_or_reuse node text em reuse = Ok n →
  ∃ v, n = with_embedding (Some v) node ∧ (em_embed em text = Ok v ∨ ∃ i, reuse i = Some v ∧ of_model em v = true).
Proof.
  unfold embed_or_reuse. intros (v & Hv & [= <-])%rbind_ok. exists v. split; [done|].
  unfold opt_filter in Hv. destruct (reuse (compute_id node)) as [w|] eqn:Hr; [destruct (of_model em w) eqn:Hm|].
  - injection Hv as <-. right. eauto.
  - left. destruct (em_embed em text); [|done]. by injection Hv as ->.
  - left. destruct (em_embed em text); [|done]. by injection Hv as ->.
Qed.

(** The embedder answers every text with a finite vector. *)
Definition total_embedder (em : Embedder) : Prop :=
  ∀ text, ∃ v, em_embed em text = Ok v ∧ Forall (λ f, f32_is_finite f = true) (vv_data v).
Definition finite_reuse (reuse : ContentHash → option VersionedVector) : Prop :=
  ∀ i v, reuse i = Some v → Forall (λ f, f32_is_finite f = true) (vv_data v).

Lemma embed_or_reuse_total node text em reuse : total_embedder em → ∃ n, embed_or_reuse node text em reuse = Ok n.
Proof.
  intros Hem. unfold embed_or_reuse. destruct (opt_filter _ _) as [v|]; [by eexists|].
  destruct (Hem text) as (v & -> & _). by eexists.
Qed.
Lemma embed_or_reuse_json node text em reuse n : total_embedder em → finite_reuse reuse →
  embed_or_reuse node text em reuse = Ok n → json_repr n.
Proof.
  intros Hem Hre (v & -> & [Hv|(i & Hv & _)])%embed_or_reuse_ok; unfold json_repr, MemoryNode_json; cbn.
  - destruct (Hem text) as (w & Hw & Hf). congruence.
  - by eapply Hre.
Qed.

(** ** Two runs over one repository *)

Record similar (b1 b2 : build) : Prop := {
  sim_shas : b_shas b1 = b_shas b2;
  sim_refs : b_refs b1 = b_refs b2;
  sim_nodes : erase_node <$> b_nodes b1 = erase_node <$> b_nodes b2;
  sim_edges : erase_edge <$> b_edges b1 = erase_edge <$> b_edges b2;
}.

Lemma trailer_step_similar repo now1 now2 mk au auth id ts b1 b2 :
  similar b1 b2 → similar (foldl (trailer_step repo now1 mk au auth id) b1 ts) (foldl (trailer_step repo now2 mk au auth id) b2 ts).
Proof.
  revert b1 b2. induction ts as [|t ts IH]; intros b1 b2 Hb; [done|]. cbn [foldl]. apply IH.
  unfold trailer_step. destruct (mk (tr_key t)) as [ek|]; [|done]. destruct Hb as [Hs Hr Hn He]. rewrite Hr.
  assert (compute_id (ref_node repo (tr_value t) now1) = compute_id (ref_node repo (tr_value t) now2)) as Hid
    by (by apply compute_id_identity).
  destruct (b_refs b2 !! tr_value t) as [rid|] eqn:Hl; split; cbn [b_shas b_refs b_nodes b_edges].
  - done.
  - done.
  - done.
  - by rewrite !fmap_app, He.
  - done.
  - by rewrite Hid.
  - rewrite !fmap_app, Hn. cbn [fmap list_fmap]. by rewrite (erase_ref _ _ now1 now2).
  - by rewrite !fmap_app, He, Hid.
Qed.

Lemma parent_edges_erase id shas now1 now2 ps :
  erase_edge <$> parent_edges id shas now1 ps = erase_edge <$> parent_edges id shas now2 ps.
Proof.
  unfold parent_edges. induction (imap pair ps) as [|p l IH]; [done|]. cbn [omap list_omap].
  destruct (shas !! p.2); cbn [fmap option_fmap option_map]; [|exact IH]. rewrite !fmap_cons. f_equal. exact IH.
Qed.

Lemma add_commit_similar now1 now2 rec n1 n2 b1 b2 :
  erase_node n1 = erase_node n2 → similar b1 b2 → similar (add_commit now1 rec n1 b1) (add_commit now2 rec n2 b2).
Proof.
  intros Hn [Hs Hr Hns He]. assert (compute_id n1 = compute_id n2) as Hid by (by rewrite <-compute_id_erase, Hn, compute_id_erase).
  unfold add_commit. rewrite Hid, Hs. split; cbn [b_shas b_refs b_nodes b_edges]; [done|done| |].
  - rewrite !fmap_app, Hns. cbn [fmap list_fmap]. by rewrite Hn.
  - by rewrite !fmap_app, He, (parent_edges_erase _ _ now1 now2).
Qed.

Lemma push_edge_similar e1 e2 b1 b2 : erase_edge e1 = erase_edge e2 → similar b1 b2 → similar (push_edge e1 b1) (push_edge e2 b2).
Proof.
  intros He [Hs Hr Hns Hes]. split; cbn [push_edge b_shas b_refs b_nodes b_edges]; [done|done|done|].
  rewrite !fmap_app, Hes. cbn [fmap list_fmap]. by rewrite He.
Qed.

Lemma commit_node_erase repo rec now1 now2 em1 em2 r1 r2 n1 n2 :
  commit_node repo rec now1 em1 r1 = Ok n1 → commit_node repo rec now2 em2 r2 = Ok n2 → erase_node n1 = erase_node n2.
Proof. intros (v & -> & _)%embed_or_reuse_ok (w & -> & _)%embed_or_reuse_ok. done. Qed.

Lemma commit_steps_similar repo recs now1 now2 em1 em2 auth r1 r2 b1 b2 b1' b2' : similar b1 b2 →
  rfold (commit_step repo now1 em1 auth r1) b1 recs = Ok b1' → rfold (commit_step repo now2 em2 auth r2) b2 recs = Ok b2' →
  similar b1' b2'.
Proof.
  intros Hb. eapply rfold_sim; [exact Hb|]. intros x1 x2 rec y1 y2 _ Hx.
  intros (n1 & Hn1 & [= <-])%rbind_ok (n2 & Hn2 & [= <-])%rbind_ok.
  pose proof (commit_node_erase _ _ _ _ _ _ _ _ _ _ Hn1 Hn2) as Hn.
  assert (compute_id n1 = compute_id n2) as -> by (by rewrite <-compute_id_erase, Hn, compute_id_erase).
  by apply trailer_step_similar, add_commit_similar.
Qed.

Lemma branch_steps_similar repo name bid recs now1 now2 em1 em2 r1 r2 b1 b2 b1' b2' : similar b1 b2 →
  rfold (branch_step repo name bid now1 em1 r1) b1 recs = Ok b1' → rfold (branch_step repo name bid now2 em2 r2) b2 recs = Ok b2' →
  similar b1' b2'.
Proof.
  intros Hb. eapply rfold_sim; [exact Hb|]. intros x1 x2 rec y1 y2 _ Hx.
  intros (n1 & Hn1 & [= <-])%rbind_ok (n2 & Hn2 & [= <-])%rbind_ok.
  pose proof (commit_node_erase _ _ _ _ _ _ _ _ _ _ Hn1 Hn2) as Hn.
  assert (compute_id n1 = compute_id n2) as Hid by (by rewrite <-compute_id_erase, Hn, compute_id_erase).
  apply push_edge_similar; [by rewrite Hid|by apply add_commit_similar].
Qed.

Lemma doc_steps_similar `{Git, Worktree} repo root blobs paths now1 now2 em1 em2 r1 r2 b1 b2 k b1' b2' k1 k2 : similar b1 b2 →
  rfold (doc_step repo root blobs now1 em1 r1) (b1, k) paths = Ok (b1', k1) →
  rfold (doc_step repo root blobs now2 em2 r2) (b2, k) paths = Ok (b2', k2) → similar b1' b2' ∧ k1 = k2.
Proof.
  intros Hb H1' H2'. eapply (rfold_sim (λ x y, similar x.1 y.1 ∧ x.2 = y.2) _ _ (b1, k) (b2, k) _ (b1', k1) (b2', k2)); [done| |exact H1'|exact H2'].
  intros [x1 m1] [x2 m2] rel y1 y2 _ [Hx Hm]. cbn in Hx, Hm. subst m2. unfold doc_step.
  destruct (read_tracked_doc root rel) as [raw|]; [|by intros [= <-] [= <-]].
  destruct (parse _) as [fm body]. intros (n1 & Hn1 & [= <-])%rbind_ok (n2 & Hn2 & [= <-])%rbind_ok.
  assert (erase_node n1 = erase_node n2 ∧ compute_id n1 = compute_id n2) as [Hn Hid].
  { apply embed_or_reuse_ok in Hn1 as (v & -> & _), Hn2 as (w & -> & _). rewrite !erase_embedding, !compute_id_embedding.
    split; [unfold erase_node; cbn; by rewrite !bool_decide_false by apply classify_not_commit|by apply compute_id_identity]. }
  cbn. split; [|done]. rewrite Hid. apply trailer_step_similar. destruct Hx as [Hs Hr Hns He]. split; cbn [b_shas b_refs b_nodes b_edges]; try done.
  rewrite !fmap_app, Hns. cbn [fmap list_fmap]. by rewrite Hn.
Qed.
End builders.

(** ** Invariant of a build *)

Section invariant.
Context `{Blake3} (R : MemoryNode → Prop) (Q : Edge → Prop).

Definition ids (b : build) : list ContentHash := compute_id <$> b_nodes b.

(** Every id in the tables and at the ends of edges belongs to a node of the build. *)
Record wf_build (b : build) : Prop := {
  wb_shas : ∀ k i, b_shas b !! k = Some i → i ∈ ids b;
  wb_refs : ∀ k i, b_refs b !! k = Some i → i ∈ ids b;
  wb_nodes : Forall R (b_nodes b);
  wb_edges : Forall (λ e, e_from e ∈ ids b ∧ e_to e ∈ ids b ∧ Q e) (b_edges b);
}.

Lemma wf_empty : wf_build empty_build.
Proof. split; [intros k i Hk; cbn [empty_build b_shas b_refs] in Hk; by rewrite lookup_empty in Hk..|constructor|constructor]. Qed.

Lemma wf_push e b : wf_build b → e_from e ∈ ids b → e_to e ∈ ids b → Q e → wf_build (push_edge e b).
Proof. intros [Hs Hr Hn He] Hf Ht Hq. split; [exact Hs|exact Hr|exact Hn|]. apply Forall_app. split; [exact He|by apply Forall_singleton]. Qed.

Lemma wf_node n b : wf_build b → R n →
  wf_build {| b_shas := b_shas b; b_refs := b_refs b; b_nodes := b_nodes b ++ [n]; b_edges := b_edges b |}.
Proof.
  intros [Hs Hr Hn He] Hrn. assert (∀ i, i ∈ ids b → i ∈ compute_id <$> (b_nodes b ++ [n])) as Hsub
    by (intros i Hi; rewrite fmap_app; apply elem_of_app; by left).
  split; unfold ids; cbn [b_shas b_refs b_nodes b_edges].
  - intros k i Hk. by eapply Hsub, Hs.
  - intros k i Hk. by eapply Hsub, Hr.
  - apply Forall_app. split; [done|by apply Forall_singleton].
  - eapply Forall_impl; [exact He|]. intros e (? & ? & ?). auto.
Qed.

Lemma wf_ref v i b : wf_build b → i ∈ ids b →
  wf_build {| b_shas := b_shas b; b_refs := <[v := i]> (b_refs b); b_nodes := b_nodes b; b_edges := b_edges b |}.
Proof.
  intros [Hs Hr Hn He] Hi. split; [exact Hs| |exact Hn|exact He]. cbn [b_refs]. intros k j Hk.
  rewrite lookup_insert in Hk. case_decide; [by simplify_eq|by eapply Hr].
Qed.

Lemma trailer_step_wf repo now mk au auth id b t : wf_build b → id ∈ ids b → (∀ v, R (ref_node repo v now)) →
  (∀ ek rid, mk (tr_key t) = Some ek → Q (make_trailer_edge id rid ek now (Some (string_of_bytes (tr_key t))) au auth)) →
  wf_build (trailer_step repo now mk au auth id b t) ∧ ∀ i, i ∈ ids b → i ∈ ids (trailer_step repo now mk au auth id b t).
Proof.
  intros Hb Hid Href Hq. unfold trailer_step. destruct (mk (tr_key t)) as [ek|] eqn:Hk; [|done].
  set (rn := ref_node repo (tr_value t) now).
  destruct (b_refs b !! tr_value t) as [rid|] eqn:Hl.
  - split; [|done]. apply wf_push; [done|done|by eapply wb_refs|by apply Hq].
  - pose proof (wf_ref (tr_value t) (compute_id rn) _ (wf_node rn b Hb (Href _))) as Hw. cbn [b_shas b_refs b_nodes b_edges] in Hw.
    assert (compute_id rn ∈ compute_id <$> (b_nodes b ++ [rn])) as Hrn by (rewrite fmap_app; apply elem_of_app; right; by left).
    assert (∀ i, i ∈ ids b → i ∈ compute_id <$> (b_nodes b ++ [rn])) as Hsub
      by (intros i Hi; rewrite fmap_app; apply elem_of_app; by left).
    split; [|exact Hsub].
    apply (wf_push (make_trailer_edge id (compute_id rn) ek now (Some (string_of_bytes (tr_key t))) au auth) _ (Hw Hrn)); [by apply Hsub|exact Hrn|by apply Hq].
Qed.

Lemma trailer_steps_wf repo now mk au auth id ts b : wf_build b → id ∈ ids b → (∀ v, R (ref_node repo v now)) →
  (∀ t ek rid, t ∈ ts → mk (tr_key t) = Some ek → Q (make_trailer_edge id rid ek now (Some (string_of_bytes (tr_key t))) au auth)) →
  wf_build (foldl (trailer_step repo now mk au auth id) b ts).
Proof.
  revert b. induction ts as [|t ts IH]; intros b Hb Hid Href Hq; [done|]. cbn [foldl].
  destruct (trailer_step_wf repo now mk au auth id b t) as [Hb' Hsub]; [done..|intros; apply Hq; [by left|done]|].
  apply IH; [done|by apply Hsub|done|]. intros t' ek rid Ht. apply Hq. by right.
Qed.

Lemma add_commit_wf now rec n b : wf_build b → R n →
  (∀ pid k p, is_spine k = true → Q (make_edge (compute_id n) pid k Ingest now (Some p))) →
  wf_build (add_commit now rec n b) ∧ compute_id n ∈ ids (add_commit now rec n b) ∧ ∀ i, i ∈ ids b → i ∈ ids (add_commit now rec n b).
Proof.
  intros Hb Hn Hq. destruct (wf_node n b Hb Hn) as [Hs Hr Hns He]. cbn [b_shas b_refs b_nodes b_edges] in *.
  assert (compute_id n ∈ compute_id <$> (b_nodes b ++ [n])) as Hin by (rewrite fmap_app; apply elem_of_app; right; by left).
  split_and!; [|exact Hin|intros i Hi; unfold ids; cbn; rewrite fmap_app; apply elem_of_app; by left].
  assert (∀ k i, <[cr_sha rec := compute_id n]> (b_shas b) !! k = Some i → i ∈ compute_id <$> (b_nodes b ++ [n])) as Hs'.
  { intros k i Hk. rewrite lookup_insert in Hk. case_decide; [by simplify_eq|by eapply Hs]. }
  split; unfold ids; cbn [add_commit b_shas b_refs b_nodes b_edges]; [exact Hs'|exact Hr|exact Hns|]. apply Forall_app. split; [exact He|].
  apply Forall_forall. intros e ([k p] & _ & He')%list_elem_of_omap. cbn [fst snd] in He'.
  destruct (<[cr_sha rec := compute_id n]> (b_shas b) !! p) as [pid|] eqn:Hp; [|done]. injection He' as <-. cbn [make_edge e_from e_to].
  split; [exact Hin|]. split; [by eapply Hs'|]. apply Hq. by case_bool_decide.
Qed.

(** The nodes a run makes *)
Definition commit_nodes_ok repo (recs : list CommitRecord) now em reuse : Prop :=
  (∀ v, R (ref_node repo v now)) ∧ ∀ rec n, rec ∈ recs → commit_node repo rec now em reuse = Ok n → R n.
(** The edges a run makes *)
Definition spine_ok now : Prop := ∀ i j k p, is_spine k = true → Q (make_edge i j k Ingest now (Some p)).
Definition trailers_ok now (mk : bytes → option EdgeKind) au auth (ts : list Trailer) : Prop :=
  ∀ t ek i j, t ∈ ts → mk (tr_key t) = Some ek → Q (make_trailer_edge i j ek now (Some (string_of_bytes (tr_key t))) au auth).

Lemma commit_steps_wf repo recs now em auth reuse b b' : wf_build b → commit_nodes_ok repo recs now em reuse → spine_ok now →
  (∀ rec, rec ∈ recs → trailers_ok now map_trailer (cr_author rec) auth (parse_trailers (as_bytes (cr_body rec)))) →
  rfold (commit_step repo now em auth reuse) b recs = Ok b' → wf_build b'.
Proof.
  intros Hb [Href Hn] Hsp Htr. apply rfold_inv; [done|]. intros x rec y Hin Hx (n & Hcn & [= <-])%rbind_ok.
  destruct (add_commit_wf now rec n x Hx) as (Hw & Hid & _); [by eapply Hn|intros; by apply Hsp|].
  apply trailer_steps_wf; [done|done|done|]. intros t ek rid Ht Hk. by eapply Htr.
Qed.

Lemma branch_steps_wf repo name bid recs now em reuse b b' : wf_build b → bid ∈ ids b → commit_nodes_ok repo recs now em reuse → spine_ok now →
  (∀ j p, Q (make_edge bid j BranchContains Ingest now (Some p))) →
  rfold (branch_step repo name bid now em reuse) b recs = Ok b' → wf_build b'.
Proof.
  intros Hb Hbid [Href Hn] Hsp Hbc Hf.
  cut (wf_build b' ∧ bid ∈ ids b'); [tauto|]. revert Hf. apply (rfold_inv _ (λ x, wf_build x ∧ bid ∈ ids x)); [done|]. intros x rec y Hin [Hx Hxb] (n & Hcn & [= <-])%rbind_ok.
  destruct (add_commit_wf now rec n x Hx) as (Hw & Hid & Hsub); [by eapply Hn|intros; by apply Hsp|].
  split; [|by apply Hsub]. apply wf_push; [done|by apply Hsub|done|apply Hbc].
Qed.

Lemma doc_steps_wf `{Git, Worktree} repo root blobs paths now em reuse b k b' k' : wf_build b → (∀ v, R (ref_node repo v now)) →
  (∀ rel title blob fm kind body n, kind ≠ Commit → doc_node repo rel title blob fm kind body now em reuse = Ok n → R n) →
  (∀ t ek au i j, map_block_directive (tr_key t) = Some ek → Q (make_trailer_edge i j ek now (Some (string_of_bytes (tr_key t))) au ∅)) →
  rfold (doc_step repo root blobs now em reuse) (b, k) paths = Ok (b', k') → wf_build b'.
Proof.
  intros Hb Href Hn Htr Hf. cut (wf_build (b', k').1); [done|]. revert Hf. apply (rfold_inv _ (λ x, wf_build x.1)); [done|].
  intros [x m] rel y _ Hx. unfold doc_step. destruct (read_tracked_doc root rel) as [raw|]; [|by intros [= <-]].
  destruct (parse _) as [fm body]. intros (n & Hdn & [= <-])%rbind_ok. cbn [fst] in *.
  apply trailer_steps_wf; [apply wf_node; [done|]| |done|intros; by apply Htr].
  - eapply Hn; [|exact Hdn]. apply classify_not_commit.
  - unfold ids. cbn. rewrite fmap_app. apply elem_of_app. right. by left.
Qed.
End invariant.
