(* ===== verification/IngestProps.v ===== *)
(** * What ingestion does to a store

    The effect of a run on the readable contents, for every store that keeps the laws of
    [MemStore]: a run on a plain store with an embedder that answers succeeds, a second one
    adds nothing, and only a trusted author's commits retire nodes. *)

From S2P Require Import Prelude Bytes Externs Text Str Belnap Identity Node Float Edge Trailers Frontmatter Index.
From S2P Require Import Kv Shred Store StoreSpec StoreContents Supersession StoreInterface Assert Query QueryProps Search Display Git Docs Ingest IngestBuild.

(** ** Contents after a batch *)

Section contents.
Context `{Blake3, Hex}.
Implicit Types (c : conts).

Lemma put_nodes_dom (ns : list MemoryNode) c :
  dom (c_nodes (foldl c_put_node c ns)) = dom (c_nodes c) ∪ list_to_set (compute_id <$> ns) ∧
  c_known (foldl c_put_node c ns) = c_known c ∪ list_to_set (compute_id <$> ns) ∧
  c_edges (foldl c_put_node c ns) = c_edges c ∧ c_meta (foldl c_put_node c ns) = c_meta c.
Proof.
  revert c. induction ns as [|n ns IH]; intros c; cbn [foldl fmap list_fmap list_to_set]; [split_and!; solve [done|symmetry; apply right_id_L, _]|].
  destruct (IH (c_put_node c n)) as (-> & -> & -> & ->). unfold c_put_node. cbn [c_nodes c_known c_edges c_meta].
  rewrite dom_insert_L. unfold node_id, MemoryNode_identified.
  split_and!; [by rewrite (comm_L _ {[_]}), (assoc_L (∪))..|done|done].
Qed.

Lemma put_edges_dom es c :
  dom (c_edges (foldl c_put_edge c es)) = dom (c_edges c) ∪ list_to_set (edge_ident <$> es) ∧
  c_nodes (foldl c_put_edge c es) = c_nodes c ∧ c_known (foldl c_put_edge c es) = c_known c ∧
  c_meta (foldl c_put_edge c es) = c_meta c.
Proof.
  revert c. induction es as [|e es IH]; intros c; cbn [foldl fmap list_fmap list_to_set]; [split_and!; solve [done|symmetry; apply right_id_L, _]|].
  destruct (IH (c_put_edge c e)) as (-> & -> & -> & ->). unfold c_put_edge. cbn [c_nodes c_known c_edges c_meta].
  rewrite dom_insert_L. split_and!; [by rewrite (comm_L _ {[_]}), (assoc_L (∪))|done..].
Qed.

Lemma commit_dom c ns es :
  dom (c_nodes (c_commit c ns es)) = dom (c_nodes c) ∪ list_to_set (compute_id <$> ns) ∧
  c_known (c_commit c ns es) = c_known c ∪ list_to_set (compute_id <$> ns) ∧
  dom (c_edges (c_commit c ns es)) = dom (c_edges c) ∪ list_to_set (edge_ident <$> es) ∧
  c_meta (c_commit c ns es) = c_meta c.
Proof.
  unfold c_commit. set (kept := filter _ es). destruct (put_nodes_dom ns c) as (Hn & Hk & He & Hm).
  destruct (put_edges_dom kept (foldl c_put_node c ns)) as (-> & -> & -> & ->). rewrite Hn, Hk, He, Hm.
  split_and!; [done..| |done]. apply set_eq. intros i. rewrite !elem_of_union, !elem_of_list_to_set, !list_elem_of_fmap.
  split; [intros [Hi|(e & -> & [_ Hin]%list_elem_of_filter)]; eauto|].
  intros [Hi|(e & -> & Hin)]; [by left|]. destruct (c_demoting c e) eqn:Hd; [left|right; exists e; split; [done|by apply list_elem_of_filter]].
  apply elem_of_dom. unfold c_demoting in Hd. destruct (c_edges c !! edge_ident e); [by eexists|]. by rewrite andb_false_r in Hd.
Qed.

(** ** A run of supersessions *)

Inductive sups_run c : list Edge → conts → Prop :=
| run_nil : sups_run c [] c
| run_cons e es r c1 c' : sup_step c e r c1 → sups_run c1 es c' → sups_run c (e :: es) c'.

Lemma sup_step_dom c e r c' : sup_step c e r c' → (∀ i n, c_nodes c !! i = Some n → compute_id n = i) →
  dom (c_nodes c') = dom (c_nodes c) ∧ c_known c ⊆ c_known c' ⊆ c_known c ∪ {[e_to e]} ∧ c_meta c' = c_meta c ∧
  (∀ i n, c_nodes c' !! i = Some n → compute_id n = i) ∧
  (∀ i n, c_nodes c' !! i = Some n → c_nodes c !! i = Some n ∨ e_kind e = Supersedes ∧ e_quarantined e = false ∧ i = e_to e) ∧
  dom (c_edges c') = dom (c_edges c) ∪ (if is_ok r then {[edge_ident e]} else ∅).
Proof.
  intros [ | | | | | | |target (Hk & Hq & Hne) Hf Ht Hp Hc] Hid; cbn [is_ok]; [split_and!; [done|done|apply union_subseteq_l|done|exact Hid|auto|symmetry; apply right_id_L, _]..|].
  unfold c_supersede. assert (node_id (superseded_target e target) = e_to e) as Hsid
    by (rewrite superseded_target_id; by apply Hid).
  case_bool_decide; unfold c_put_node, c_put_edge; cbn [c_nodes c_known c_edges c_meta]; rewrite ?Hsid, ?dom_insert_L.
  - split_and!; [|apply union_subseteq_r|by rewrite (comm_L (∪))|done| | |by rewrite (comm_L (∪))].
    + apply elem_of_dom_2 in Ht. by apply subseteq_union_1_L, singleton_subseteq_l.
    + intros i n Hn. rewrite lookup_insert in Hn. case_decide; [by simplify_eq|auto].
    + intros i n Hn. rewrite lookup_insert in Hn. case_decide; [by simplify_eq; auto|auto].
  - split_and!; [done|done|apply union_subseteq_l|done|exact Hid|auto|by rewrite (comm_L (∪))].
Qed.

Lemma sups_run_dom c es c' : sups_run c es c' → (∀ i n, c_nodes c !! i = Some n → compute_id n = i) →
  dom (c_nodes c') = dom (c_nodes c) ∧ c_known c ⊆ c_known c' ⊆ c_known c ∪ list_to_set (e_to <$> es) ∧ c_meta c' = c_meta c ∧
  (∀ i n, c_nodes c' !! i = Some n → compute_id n = i) ∧
  (∀ i n, c_nodes c' !! i = Some n →
     c_nodes c !! i = Some n ∨ ∃ e, e ∈ es ∧ e_kind e = Supersedes ∧ e_quarantined e = false ∧ i = e_to e) ∧
  dom (c_edges c) ⊆ dom (c_edges c') ⊆ dom (c_edges c) ∪ list_to_set (edge_ident <$> es).
Proof.
  induction 1 as [c|c e es r c1 c' Hst _ IH]; intros Hid; [split_and!; [done|done|apply union_subseteq_l|done|exact Hid|auto|done|apply union_subseteq_l]|].
  destruct (sup_step_dom c e r c1 Hst Hid) as (Hn1 & Hk1 & Hm1 & Hid1 & Ho1 & He1).
  destruct (IH Hid1) as (Hn & [Hk Hk'] & Hm & Hid' & Ho & [He He']). cbn [fmap list_fmap list_to_set].
  split_and!; [congruence| | |congruence|done| | |].
  - etrans; [apply Hk1|done].
  - etrans; [exact Hk'|]. rewrite (assoc_L (∪)). apply union_mono_r, Hk1.
  - intros i n [Hi|(x & Hx & ?)]%Ho; [apply Ho1 in Hi as [?|?]; [by left|right; exists e; split; [by left|done]]|].
    right. exists x. split; [by right|done].
  - etrans; [|exact He]. rewrite He1. apply union_subseteq_l.
  - etrans; [exact He'|]. rewrite (assoc_L (∪)), He1. apply union_mono_r, union_mono_l. destruct (is_ok r); [done|apply empty_subseteq].
Qed.

Lemma hop_mono c c' k x y : dom (c_edges c) ⊆ dom (c_edges c') → rtc (c_hop c k) x y → rtc (c_hop c' k) x y.
Proof.
  intros Hsub. induction 1 as [x|x y z Hxy _ IH]; [done|]. eapply rtc_l; [|exact IH]. unfold c_hop in *.
  apply elem_of_dom, Hsub, elem_of_dom. exact Hxy.
Qed.

(** A derived supersession between nodes of the store *)
Definition derived_sup c e : Prop :=
  e_kind e = Supersedes ∧ e_quarantined e = false ∧ e_plane e = Derived ∧ e_from e ∈ c_known c ∧ e_to e ∈ dom (c_nodes c).
(** What a run leaves behind for an edge: it is stored, or it would close a cycle. *)
Definition decided c e : Prop := edge_ident e ∈ dom (c_edges c) ∨ rtc (c_hop c Supersedes) (e_to e) (e_from e).

Lemma decided_mono c c' e : dom (c_edges c) ⊆ dom (c_edges c') → decided c e → decided c' e.
Proof. intros Hsub [He|Hr]; [left; by apply Hsub|right; by eapply hop_mono]. Qed.

Lemma sup_step_decided c e r c' : derived_sup c e → sup_step c e r c' → (∀ i n, c_nodes c !! i = Some n → compute_id n = i) →
  decided c' e ∧ (decided c e → dom (c_edges c') = dom (c_edges c)).
Proof.
  intros (Hk & Hq & Hp & Hf & Ht) Hst Hid. pose proof (sup_step_dom c e r c' Hst Hid) as (_ & _ & _ & _ & _ & He).
  destruct Hst as [Hx| |Hk' Hq' Heq|? Hx|? ? Hx|target ? ? Htg Hx|target ? ? Htg ? Hc|target ? ? Htg ? Hc]; cbn [is_ok] in *; try congruence.
  - split; [right; rewrite Heq; apply rtc_refl|done].
  - by apply not_elem_of_dom in Hx.
  - destruct Hx. intros [Ha _]. congruence.
  - split; [by right|done].
  - split; [left; rewrite He; apply elem_of_union_r, elem_of_singleton; done|]. intros [Hin|Hr]; [|done].
    rewrite He, (comm_L (∪)). by apply subseteq_union_1_L, singleton_subseteq_l.
Qed.

Lemma derived_sup_mono c c' e : c_known c ⊆ c_known c' → dom (c_nodes c') = dom (c_nodes c) → derived_sup c e → derived_sup c' e.
Proof. intros Hk Hn (? & ? & ? & Hf & ?). unfold derived_sup. rewrite Hn. split_and!; [done..|by apply Hk|done]. Qed.

Lemma sups_run_decided c es c' : sups_run c es c' → (∀ i n, c_nodes c !! i = Some n → compute_id n = i) → Forall (derived_sup c) es →
  Forall (decided c') es ∧ (Forall (decided c) es → dom (c_edges c') = dom (c_edges c)).
Proof.
  induction 1 as [c|c e es r c1 c' Hst Hrun IH]; intros Hid Hes; [done|]. apply Forall_cons in Hes as [He Hes].
  destruct (sup_step_dom c e r c1 Hst Hid) as (Hn1 & [Hk1 _] & _ & Hid1 & _ & _).
  destruct (sup_step_decided c e r c1 He Hst Hid) as [Hd Hsame].
  destruct IH as [Hall Hrest]; [done|eapply Forall_impl; [exact Hes|]; intros x; by apply derived_sup_mono|].
  destruct (sups_run_dom c1 es c' Hrun Hid1) as (_ & _ & _ & _ & _ & [Hsub _]). split.
  - apply Forall_cons. split; [by eapply decided_mono|done].
  - intros [Hde Hdes]%Forall_cons. rewrite <-(Hsame Hde). apply Hrest.
    eapply Forall_impl; [exact Hdes|]. intros x. apply decided_mono. by rewrite Hsame.
Qed.

(** One run on contents: batch, then supersessions *)
Record run_spec c (ns : list MemoryNode) (plain sups : list Edge) c' : Prop := {
  rs_known : ∀ i n, c_nodes c !! i = Some n → compute_id n = i;
  rs_run : sups_run (c_commit c ns plain) sups c';
  rs_sups : Forall (derived_sup (c_commit c ns plain)) sups;
  rs_to : Forall (λ e, e_to e ∈ compute_id <$> ns) sups;
}.

Lemma put_nodes_ids (ns : list MemoryNode) es c : (∀ i n, c_nodes c !! i = Some n → compute_id n = i) →
  ∀ i n, c_nodes (c_commit c ns es) !! i = Some n → compute_id n = i.
Proof.
  intros Hc i n. unfold c_commit. rewrite foldl_put_edge_nodes. intros [Hn|[_ Hi]]%foldl_put_node_inv; [by apply Hc|done].
Qed.

Lemma run_spec_dom c ns pl su c' : run_spec c ns pl su c' →
  dom (c_nodes c') = dom (c_nodes c) ∪ list_to_set (compute_id <$> ns) ∧
  c_known c' = c_known c ∪ list_to_set (compute_id <$> ns) ∧
  dom (c_edges c) ∪ list_to_set (edge_ident <$> pl) ⊆ dom (c_edges c') ∧
  Forall (decided c') su ∧
  (Forall (decided (c_commit c ns pl)) su → dom (c_edges c') = dom (c_edges c) ∪ list_to_set (edge_ident <$> pl)).
Proof.
  intros [Hid Hrun Hsu Hto]. destruct (commit_dom c ns pl) as (Hn & Hk & He & _).
  pose proof (put_nodes_ids ns pl c Hid) as Hid'.
  destruct (sups_run_dom _ _ _ Hrun Hid') as (Hn' & [Hk1 Hk2] & _ & _ & _ & [He1 _]).
  destruct (sups_run_decided _ _ _ Hrun Hid' Hsu) as [Hdec Hsame]. rewrite Hn', Hn. split; [done|]. split.
  { apply (anti_symm (⊆)); [|by rewrite <-Hk]. etrans; [exact Hk2|]. rewrite Hk. apply union_least; [done|].
    intros i Hi. apply elem_of_list_to_set, list_elem_of_fmap in Hi as (e & -> & Hin). rewrite Forall_forall in Hto.
    apply elem_of_union_r, elem_of_list_to_set, Hto, Hin. }
  rewrite <-He. split_and!; [done|done|]. intros Hd. by apply Hsame.
Qed.

(** [decided] looks at an edge's identity only. *)
Lemma decided_idents c (es1 es2 : list Edge) : edge_ident <$> es1 = edge_ident <$> es2 → Forall (decided c) es1 → Forall (decided c) es2.
Proof.
  revert es2. induction es1 as [|e1 es1 IH]; intros [|e2 es2] E; try discriminate E; [done|].
  rewrite !fmap_cons in E. apply cons_inj in E as [E1 E]. intros [Hd Hds]%Forall_cons. apply Forall_cons. split; [|by apply IH].
  unfold decided in *. rewrite <-E1. injection E1 as Ef Et _. by rewrite <-Ef, <-Et.
Qed.

Lemma run_twice c ns1 pl1 su1 c1 k b ns2 pl2 su2 c2 : run_spec c ns1 pl1 su1 c1 → run_spec (c_put_meta k b c1) ns2 pl2 su2 c2 →
  compute_id <$> ns1 = compute_id <$> ns2 → edge_ident <$> pl1 = edge_ident <$> pl2 → edge_ident <$> su1 = edge_ident <$> su2 →
  dom (c_nodes c2) = dom (c_nodes c1) ∧ dom (c_edges c2) = dom (c_edges c1) ∧ c_known c2 = c_known c1.
Proof.
  intros H1' H2' Ens Epl Esu. destruct (run_spec_dom _ _ _ _ _ H1') as (Hn1 & Hk1 & He1 & Hd1 & _).
  destruct (run_spec_dom _ _ _ _ _ H2') as (Hn2 & Hk2 & He2 & _ & Hsame). rewrite <-Ens in Hn2, Hk2. rewrite <-Epl in Hsame.
  cbn [c_put_meta c_nodes c_edges c_known] in Hn2, Hk2, Hsame.
  assert (∀ (X Y Z : gset ContentHash), Z = X ∪ Y → Z ∪ Y = Z) as Habs by (intros X Y Z ->; by rewrite <-(assoc_L (∪)), (idemp_L (∪))).
  split; [rewrite Hn2; by eapply Habs|]. split; [|rewrite Hk2; by eapply Habs].
  rewrite Hsame.
  - rewrite (comm_L (∪)). apply subseteq_union_1_L. etrans; [|exact He1]. apply union_subseteq_r.
  - apply (decided_idents _ _ _ Esu). eapply Forall_impl; [exact Hd1|]. intros e. apply decided_mono.
    destruct (commit_dom (c_put_meta k b c1) ns2 pl2) as (_ & _ & -> & _). apply union_subseteq_l.
Qed.
End contents.

Section ingest_props.
Context {T : Type} `{MemStore T, Blake3, Hex, Serde Watermark, CharTables, Git, Worktree, !MemStoreLaws T}.

(** serde_json reads a watermark back, and does not take one for an envelope. *)
Class WatermarkSerdeLaws : Prop :=
  watermark_to_vec : ∀ w : Watermark, ∃ b, to_vec w = Ok b ∧ from_slice b = Ok w ∧ ms_meta_value b.

Implicit Types (t : T) (c : conts) (self : Ingestor).

(** ** The graph of a run *)

Lemma store_reuse_finite self t c : ms_holds t c → finite_reuse (store_reuse self t).
Proof.
  intros Ht i v. unfold store_reuse, opt_filter. rewrite (ms_get_node_ok t c) by done. cbn [rok default].
  destruct (c_nodes c !! i) as [n|] eqn:Hn; [|done]. cbn [id mbind option_bind]. destruct (n_embedding n) as [w|] eqn:Hw; [|done].
  case_match; [|done]. intros [= <-]. destruct (proj1 (ms_ids t c Ht) i n Hn) as [_ Hj].
  unfold json_repr, MemoryNode_json in Hj. by rewrite Hw in Hj.
Qed.

(** Who stands behind an edge that retracts or contradicts *)
Definition authored self (recs : list CommitRecord) (e : Edge) : Prop :=
  is_authority_bearing (e_kind e) = true → e_quarantined e = false →
  ∃ rec tr, rec ∈ recs ∧ tr ∈ parse_trailers (as_bytes (cr_body rec)) ∧ map_trailer (tr_key tr) = Some (e_kind e) ∧
    cr_author rec ∈ in_authoritative_authors self ∧ p_asserter (e_provenance e) = cr_author rec.

(** A node that is not active from the start is a document that says so. *)
Definition declared self (n : MemoryNode) : Prop :=
  n_status n ≠ Active → ∃ path blob, n_source_ref n = Artifact (in_repo_name self) path blob 0 0.

Lemma derive_wf self now root recs t c ns es d : ms_holds t c → total_embedder (in_embedder self) →
  derive self now root recs t = Ok (ns, es, d) →
  Forall (λ n, json_repr n ∧ declared self n) ns ∧
  Forall (λ e, e_from e ∈ compute_id <$> ns ∧ e_to e ∈ compute_id <$> ns ∧ e_plane e = Derived ∧ authored self recs e) es.
Proof.
  intros Ht Hem. pose proof (store_reuse_finite self t c Ht) as Hre.
  unfold derive, build_graph_gated_reuse, build_doc_graph. intros ([gn ge] & Hg & Hd)%rbind_ok.
  apply rbind_ok in Hd as ([[dn de] dc] & Hd & [= <- <- <-]). cbn [fst snd] in *.
  apply rbind_ok in Hd as (paths & _ & Hd). apply rbind_ok in Hd as (blobs & _ & Hd).
  destruct (rfold _ empty_build recs) as [b|] eqn:Hb in Hg; [|done]. injection Hg as <- <-.
  destruct (rfold _ (empty_build, O) paths) as [[b2 k]|] eqn:Hb2 in Hd; [|done]. injection Hd as <- <- <-.
  set (Q := λ e, e_plane e = Derived ∧ authored self recs e).
  set (R := λ n, json_repr n ∧ declared self n). assert (∀ v, R (ref_node (in_repo_name self) v now)) as Href by (intros v; split; [exact I|by intros []]).
  assert (wf_build R Q b) as [_ _ Hn He].
  { eapply commit_steps_wf; [apply wf_empty| | | |exact Hb].
    - split; [done|]. intros rec n _ Hn. split; [by eapply embed_or_reuse_json|].
      apply embed_or_reuse_ok in Hn as (v & -> & _). by intros [].
    - intros i j k' p Hk. split; [done|]. intros Hau. cbn in Hau. by destruct k'.
    - intros rec Hin tr ek i j Htr Hk. split; [done|]. intros Hau Hq. cbn in Hau, Hq. rewrite Hau in Hq. cbn in Hq. exists rec, tr.
      apply negb_false_iff, bool_decide_eq_true_1 in Hq. done. }
  assert (wf_build R Q b2) as [_ _ Hn2 He2].
  { eapply (doc_steps_wf R Q); [apply wf_empty|done| | |exact Hb2].
    - intros rel title blob fm kind body n _ Hn'. split; [eapply embed_or_reuse_json; [done| |exact Hn']; by case_bool_decide|].
      apply embed_or_reuse_ok in Hn' as (v & -> & _). intros _. by do 2 eexists.
    - intros tr ek au i j Hk. split; [done|]. intros Hau Hq. cbn in Hau, Hq. rewrite Hau in Hq. cbn in Hq.
      apply negb_false_iff, bool_decide_eq_true_1 in Hq. set_solver. }
  split; [by apply Forall_app|]. rewrite fmap_app. apply Forall_app. split; (eapply Forall_impl; [eassumption|]); unfold ids, Q;
    intros e (? & ? & ? & ?); rewrite !elem_of_app; auto.
Qed.

Lemma derive_total self now root recs t paths blobs : total_embedder (in_embedder self) →
  list_md_files root = Ok paths → list_md_blobs root = Ok blobs → ∃ x, derive self now root recs t = Ok x.
Proof.
  intros Hem Hp Hbl. unfold derive, build_graph_gated_reuse, build_doc_graph. rewrite Hp, Hbl. cbn [rbind].
  destruct (rfold_total (commit_step (in_repo_name self) now (in_embedder self) (in_authoritative_authors self) (store_reuse self t))
              empty_build recs) as [b ->].
  { intros b0 rec _. unfold commit_step, commit_node.
    destruct (embed_or_reuse_total (bare_commit (in_repo_name self) rec now) (cr_subject rec +:+ eol +:+ cr_body rec) _ (store_reuse self t) Hem) as [n ->].
    by eexists. }
  cbn [rmap rbind].
  destruct (rfold_total (doc_step (in_repo_name self) root blobs now (in_embedder self) (store_reuse self t)) (empty_build, O) paths) as [x ->].
  { intros [b0 k] rel _. unfold doc_step. destruct (read_tracked_doc root rel) as [raw|]; [|by eexists]. destruct (parse _) as [fm body].
    unfold doc_node. match goal with |- context [embed_or_reuse ?n ?s ?e ?r] => destruct (embed_or_reuse_total n s e r Hem) as [x ->] end.
    by eexists. }
  by eexists.
Qed.

Lemma derive_similar self1 self2 now1 now2 root recs t1 t2 ns1 es1 d1 ns2 es2 d2 :
  in_repo_name self1 = in_repo_name self2 → in_authoritative_authors self1 = in_authoritative_authors self2 →
  derive self1 now1 root recs t1 = Ok (ns1, es1, d1) → derive self2 now2 root recs t2 = Ok (ns2, es2, d2) →
  erase_node <$> ns1 = erase_node <$> ns2 ∧ erase_edge <$> es1 = erase_edge <$> es2 ∧ d1 = d2.
Proof.
  intros Hrepo Hauth. unfold derive, build_graph_gated_reuse, build_doc_graph. rewrite Hrepo, Hauth.
  intros ([gn1 ge1] & Hg1 & Hd1)%rbind_ok ([gn2 ge2] & Hg2 & Hd2)%rbind_ok.
  apply rbind_ok in Hd1 as ([[dn1 de1] dc1] & Hd1 & [= <- <- <-]). apply rbind_ok in Hd2 as ([[dn2 de2] dc2] & Hd2 & [= <- <- <-]).
  cbn [fst snd] in *.
  apply rbind_ok in Hd1 as (paths & Hp & Hd1). rewrite Hp in Hd2. cbn [rbind] in Hd2.
  apply rbind_ok in Hd1 as (blobs & Hbl & Hd1). rewrite Hbl in Hd2. cbn [rbind] in Hd2.
  destruct (rfold _ empty_build recs) as [b1|] eqn:Hb1 in Hg1; [|done]. injection Hg1 as <- <-.
  destruct (rfold _ empty_build recs) as [b2|] eqn:Hb2 in Hg2; [|done]. injection Hg2 as <- <-.
  destruct (rfold _ (empty_build, O) paths) as [[c1 k1]|] eqn:Hc1 in Hd1; [|done]. injection Hd1 as <- <- <-.
  destruct (rfold _ (empty_build, O) paths) as [[c2 k2]|] eqn:Hc2 in Hd2; [|done]. injection Hd2 as <- <- <-.
  assert (similar empty_build empty_build) as He by done.
  destruct (commit_steps_similar _ _ _ _ _ _ _ _ _ _ _ _ _ He Hb1 Hb2) as [_ _ Hn Hes].
  destruct (doc_steps_similar _ _ _ _ _ _ _ _ _ _ _ _ _ _ _ _ _ He Hc1 Hc2) as [[_ _ Hn' Hes'] Hk].
  cbn [fst snd]. by rewrite !fmap_app, Hn, Hn', Hes, Hes', Hk.
Qed.

(** Two machines derive the same graph: from one repository, whatever their clocks,
    embedding models and stored vectors, two runs that succeed make the same nodes and edges
    in the same order, with the same identities, kinds, dates of commits, authors, statuses
    and quarantine flags; only the time of observation and the vectors may differ. *)
Theorem derive_deterministic self1 self2 now1 now2 root recs t1 t2 ns1 es1 d1 ns2 es2 d2
    (Hrepo : in_repo_name self1 = in_repo_name self2)
    (Hauth : in_authoritative_authors self1 = in_authoritative_authors self2)
    (H1' : derive self1 now1 root recs t1 = Ok (ns1, es1, d1)) (H2' : derive self2 now2 root recs t2 = Ok (ns2, es2, d2)) :
  compute_id <$> ns1 = compute_id <$> ns2 ∧ erase_node <$> ns1 = erase_node <$> ns2 ∧ erase_edge <$> es1 = erase_edge <$> es2 ∧ d1 = d2.
Proof.
  destruct (derive_similar self1 self2 now1 now2 root recs t1 t2 _ _ _ _ _ _ Hrepo Hauth H1' H2') as (Hn & He & Hd).
  split; [by apply ids_erase|done].
Qed.

(** ** Runs on a plain store *)

Lemma apply_supersessions_ok es t c st : ms_holds t c → ms_sealing t = false →
  ∃ t' x c', sfold apply_one st es t = (t', Ok x) ∧ ms_holds t' c' ∧ ms_sealing t' = false ∧ sups_run c es c'.
Proof.
  revert t c st. induction es as [|e es IH]; intros t c st Ht Hs.
  { exists t, st, c. split_and!; [done..|constructor]. }
  cbn [sfold]. unfold sbind, apply_one at 1.
  destruct (ms_supersede_ok t c e Ht) as (t1 & r & -> & Hs1 & [(c1 & Hst & Ht1)|(err & -> & _ & Hx)]); [|congruence].
  rewrite Hs in Hs1.
  assert (∃ st', match r with
                 | Ok r => (t1, Ok (if transitioned r then S st.1 else st.1, st.2))
                 | Err (SupStore e) => (t1, Err (IngestStore e))
                 | Err _ => (t1, Ok (st.1, S st.2))
                 end = (t1, Ok st')) as [st' Hst'] by (destruct Hst; by eexists).
  assert (match r with
          | Ok r => (t1, Ok (if transitioned r then S st.1 else st.1, st.2))
          | Err (SupStore e) => (t1, Err (IngestStore e))
          | Err _ => (t1, Ok (st.1, S st.2))
          end = (t1, Ok st')) as Hm by exact Hst'.
  destruct (IH t1 c1 st' Ht1 Hs1) as (t' & x & c' & Hf & Ht' & Hs' & Hrun).
  exists t', x, c'. split_and!; [|done|done|by econstructor].
  destruct r as [rep|err]; [by injection Hm as ->|]. destruct err; try discriminate Hm; by injection Hm as ->.
Qed.

Lemma put_watermark_ok `{!WatermarkSerdeLaws} self key w t c : ms_holds t c → ms_sealing t = false →
  ∃ t' b, put_watermark self key w t = (t', Ok tt) ∧ ms_holds t' (c_put_meta key b c) ∧ ms_sealing t' = false ∧
          from_slice b = Ok w.
Proof.
  intros Ht Hs. destruct (watermark_to_vec w) as (b & Hto & Hfrom & Hmv). unfold put_watermark, sbind, slift. rewrite Hto. cbn [map_err].
  destruct (ms_put_meta_ok t c (in_repo_name self) key b Ht (λ _, Hmv)) as (t' & r & Hp & Hs' & Hr).
  unfold on_store, smap_err. rewrite Hp. destruct r as [[]|]; [|destruct Hr; congruence]. destruct Hr as [_ Ht'].
  exists t', b. split_and!; [done|done|congruence|done].
Qed.

Abbreviation plain es := (filter (λ e, load_bearing_supersession e = false) es).
Abbreviation sups es := (filter (λ e, load_bearing_supersession e = true) es).

Lemma store_graph_ok `{!WatermarkSerdeLaws} self ns es docs commits w t c : ms_holds t c → ms_sealing t = false → Forall json_repr ns →
  ∃ t' rep c1 b, store_graph self ns es docs commits (Ok w) t = (t', Ok rep) ∧ sups_run (c_commit c ns (plain es)) (sups es) c1 ∧
    ms_holds t' (c_put_meta (watermark_key (in_repo_name self)) b c1) ∧ ms_sealing t' = false ∧ from_slice b = Ok w ∧
    ir_watermark rep = w ∧ ir_commits rep = commits ∧ ir_docs rep = docs ∧ ir_nodes_in_store rep = size (c_known c1).
Proof.
  intros Ht Hs Hj. unfold store_graph.
  destruct (ms_commit_ok t c ns (plain es) Ht Hj) as (t1 & r1 & Hc & Hs1 & Hr1). destruct r1 as [[]|]; [|destruct Hr1; congruence].
  destruct Hr1 as [_ Ht1]. rewrite (sbind_ok _ _ t t1 tt) by (unfold on_store, smap_err; by rewrite Hc).
  destruct (apply_supersessions_ok (sups es) t1 _ (O, O) Ht1 ltac:(congruence)) as (t2 & x & c1 & Ha & Ht2 & Hs2 & Hrun).
  rewrite (sbind_ok _ _ t1 t2 x) by exact Ha. rewrite (sbind_ok _ _ t2 t2 w) by done.
  destruct (put_watermark_ok self (watermark_key (in_repo_name self)) w t2 c1 Ht2 Hs2) as (t3 & b & Hp & Ht3 & Hs3 & Hb).
  rewrite (sbind_ok _ _ t2 t3 tt) by exact Hp.
  pose proof (ms_node_count_ok _ _ Ht3) as Hnc. destruct (ms_edge_count_ok _ _ Ht3) as [ec Hec].
  rewrite (sbind_ok _ _ t3 t3 (size (c_known c1))) by (unfold read_store, sread; by rewrite Hnc).
  rewrite (sbind_ok _ _ t3 t3 ec) by (unfold read_store, sread; by rewrite Hec).
  eexists t3, _, c1, b. split; [done|]. by split_and!.
Qed.

(** What git and the work tree answer in one run *)
Record repository (path root : string) (recs : list CommitRecord) : Prop := {
  rp_root : repo_root path = Ok root;
  rp_log : read_commits root = Ok recs;
  rp_files : is_ok (list_md_files root) = true;
  rp_blobs : is_ok (list_md_blobs root) = true;
}.

Lemma lb_erase e1 e2 : erase_edge e1 = erase_edge e2 → load_bearing_supersession e1 = load_bearing_supersession e2.
Proof. intros E. change (load_bearing_supersession (erase_edge e1) = load_bearing_supersession (erase_edge e2)). by rewrite E. Qed.
Lemma idents_erase (es1 es2 : list Edge) b : erase_edge <$> es1 = erase_edge <$> es2 →
  edge_ident <$> filter (λ e, load_bearing_supersession e = b) es1 = edge_ident <$> filter (λ e, load_bearing_supersession e = b) es2.
Proof.
  revert es2. induction es1 as [|e1 es1 IH]; intros [|e2 es2] E; try discriminate E; [done|].
  rewrite !fmap_cons in E. apply cons_inj in E as [He E].
  rewrite !filter_cons, (lb_erase e1 e2 He). specialize (IH es2 E). case_decide; [|done].
  rewrite !fmap_cons, IH. f_equal. by rewrite <-(edge_ident_erase e1), He.
Qed.

Lemma sups_derived self now root recs t c ns es d c0 : ms_holds t c → total_embedder (in_embedder self) →
  derive self now root recs t = Ok (ns, es, d) →
  Forall (derived_sup (c_commit c0 ns (plain es))) (sups es).
Proof.
  intros Ht Hem Hd. destruct (derive_wf self now root recs t c ns es d Ht Hem Hd) as [_ He].
  destruct (commit_dom c0 ns (plain es)) as (Hn & Hk & _ & _). apply Forall_forall. intros e [Hlb Hin]%list_elem_of_filter.
  rewrite Forall_forall in He. destruct (He e Hin) as (Hf & Hto & Hpl & _).
  unfold load_bearing_supersession in Hlb. apply andb_true_iff in Hlb as [Hkind%bool_decide_eq_true_1 Hq%negb_true_iff].
  unfold derived_sup. rewrite Hn, Hk. split_and!; [done|done|done|apply elem_of_union_r; by apply elem_of_list_to_set..].
Qed.

Lemma commit_ids t c ns es : ms_holds t c → ∀ i n, c_nodes (c_commit c ns es) !! i = Some n → compute_id n = i.
Proof.
  intros Ht i n. unfold c_commit. rewrite foldl_put_edge_nodes. intros [Hn|[_ Hi]]%foldl_put_node_inv; [|done].
  by apply (proj1 (ms_ids t c Ht)) in Hn as [? _].
Qed.

Lemma derive_run_spec self now root recs t c ns es d c' : ms_holds t c → total_embedder (in_embedder self) →
  derive self now root recs t = Ok (ns, es, d) → sups_run (c_commit c ns (plain es)) (sups es) c' →
  run_spec c ns (plain es) (sups es) c'.
Proof.
  intros Ht Hem Hd Hrun. split; [|exact Hrun|by eapply sups_derived|].
  - intros i n Hn. by apply (proj1 (ms_ids t c Ht)) in Hn as [? _].
  - destruct (derive_wf self now root recs t c ns es d Ht Hem Hd) as [_ He]. rewrite Forall_forall in He.
    apply Forall_forall. intros e [_ Hin]%list_elem_of_filter. by apply He.
Qed.

Lemma ingest_ok `{!WatermarkSerdeLaws} self now path root recs t c : ms_holds t c → ms_sealing t = false →
  total_embedder (in_embedder self) → repository path root recs →
  ∃ t' rep ns es d c1 b, ingest self now path t = (t', Ok rep) ∧ derive self now root recs t = Ok (ns, es, d) ∧
    sups_run (c_commit c ns (plain es)) (sups es) c1 ∧
    ms_holds t' (c_put_meta (watermark_key (in_repo_name self)) b c1) ∧ ms_sealing t' = false ∧ from_slice b = Ok (ir_watermark rep) ∧
    ir_watermark rep = {| w_repo := in_repo_name self; w_head := cr_sha <$> last recs; w_head_count := length recs; w_ingested_at_ms := now |} ∧
    ir_commits rep = length recs ∧ ir_docs rep = d ∧ ir_nodes_in_store rep = size (c_known c1).
Proof.
  intros Ht Hs Hem [Hroot Hlog Hf Hb]. destruct (list_md_files root) as [paths|] eqn:Hp; [|done]. destruct (list_md_blobs root) as [blobs|] eqn:Hbl; [|done].
  destruct (derive_total self now root recs t paths blobs Hem Hp Hbl) as [[[ns es] d] Hd].
  destruct (derive_wf self now root recs t c ns es d Ht Hem Hd) as [Hjd _].
  assert (Forall json_repr ns) as Hj by (eapply Forall_impl; [exact Hjd|]; by intros n [? _]).
  set (w := {| w_repo := in_repo_name self; w_head := cr_sha <$> last recs; w_head_count := length recs; w_ingested_at_ms := now |}).
  destruct (store_graph_ok self ns es d (length recs) w t c Ht Hs Hj) as (t' & rep & c1 & b & Hg & Hrun & Ht' & Hs' & Hfrom & Hw & Hc & Hdo & Hn).
  exists t', rep, ns, es, d, c1, b. unfold ingest. rewrite (sbind_ok _ _ t t root) by (unfold slift; by rewrite Hroot).
  rewrite (sbind_ok _ _ t t recs) by (unfold slift; by rewrite Hlog). rewrite (sbind_ok _ _ t t (ns, es, d)) by (unfold sread; by rewrite Hd).
  rewrite Hw. by split_and!.
Qed.

(** [C34] Ingestion completes and is idempotent: on a plain store, with an embedder that
    answers, a run over a readable repository succeeds; every derived node is in the store,
    every derived edge is stored or, for a supersession, would close a cycle; the watermark
    read back is the one of this run, at the newest commit; and a second run over the same
    repository succeeds too, adds no node and no edge, and reports the same counts. *)
Theorem ingest_idempotent `{!WatermarkSerdeLaws} self now1 now2 path root recs t c (Ht : ms_holds t c) (Hs : ms_sealing t = false)
    (Hem : total_embedder (in_embedder self)) (Hrp : repository path root recs) :
  ∃ t1 rep1 c1 t2 rep2 c2 ns es d,
    ingest self now1 path t = (t1, Ok rep1) ∧ ms_holds t1 c1 ∧ derive self now1 root recs t = Ok (ns, es, d) ∧
    dom (c_nodes c1) = dom (c_nodes c) ∪ list_to_set (compute_id <$> ns) ∧ Forall (decided c1) es ∧
    read_watermark t1 (in_repo_name self) = Ok (Some (ir_watermark rep1)) ∧ w_head (ir_watermark rep1) = cr_sha <$> last recs ∧
    ingest self now2 path t1 = (t2, Ok rep2) ∧ ms_holds t2 c2 ∧ dom (c_nodes c2) = dom (c_nodes c1) ∧
    dom (c_edges c2) = dom (c_edges c1) ∧ ir_commits rep2 = ir_commits rep1 ∧ ir_docs rep2 = ir_docs rep1 ∧
    ir_nodes_in_store rep2 = ir_nodes_in_store rep1.
Proof.
  destruct (ingest_ok self now1 path root recs t c Ht Hs Hem Hrp)
    as (t1 & rep1 & ns1 & es1 & d1 & x1 & b1 & Hi1 & Hd1 & Hrun1 & Ht1 & Hs1 & Hf1 & Hw1 & Hc1 & Hdo1 & Hn1).
  destruct (ingest_ok self now2 path root recs t1 _ Ht1 Hs1 Hem Hrp)
    as (t2 & rep2 & ns2 & es2 & d2 & x2 & b2 & Hi2 & Hd2 & Hrun2 & Ht2 & Hs2 & Hf2 & Hw2 & Hc2 & Hdo2 & Hn2).
  destruct (derive_similar self self now1 now2 root recs t t1 _ _ _ _ _ _ eq_refl eq_refl Hd1 Hd2) as (Hn & He & Hd).
  pose proof (derive_run_spec self now1 root recs t c _ _ _ _ Ht Hem Hd1 Hrun1) as Hrs1.
  pose proof (derive_run_spec self now2 root recs t1 _ _ _ _ _ Ht1 Hem Hd2 Hrun2) as Hrs2.
  destruct (run_twice _ _ _ _ _ _ _ _ _ _ _ Hrs1 Hrs2 (ids_erase _ _ Hn) (idents_erase _ _ _ He) (idents_erase _ _ _ He)) as (Hdn & Hde & Hdk).
  destruct (run_spec_dom _ _ _ _ _ Hrs1) as (Hnn & _ & Hpl & Hsu & _).
  exists t1, rep1, (c_put_meta (watermark_key (in_repo_name self)) b1 x1), t2, rep2, (c_put_meta (watermark_key (in_repo_name self)) b2 x2), ns1, es1, d1.
  split_and!; [done|done|done|exact Hnn| | |by rewrite Hw1|done|done|exact Hdn|exact Hde|congruence|congruence|].
  - apply Forall_forall. intros e Hin. destruct (load_bearing_supersession e) eqn:Hlb.
    + rewrite Forall_forall in Hsu. apply Hsu. by apply list_elem_of_filter.
    + left. apply Hpl, elem_of_union_r, elem_of_list_to_set, list_elem_of_fmap. exists e. split; [done|]. by apply list_elem_of_filter.
  - unfold read_watermark. rewrite (ms_get_meta_ok _ _ _ Ht1). cbn. by rewrite lookup_insert_eq, Hf1.
  - by rewrite Hn1, Hn2, Hdk.
Qed.

(** ** Who may retire a node *)

(** A retired node was retired before, is a document that declares it, or is the target of
    a supersession trailer of a trusted author's commit. *)
Definition retired_by self (path : string) c (i : ContentHash) (n : MemoryNode) : Prop :=
  (∃ n0, c_nodes c !! i = Some n0 ∧ n_status n0 = n_status n) ∨
  (∃ rel blob, n_source_ref n = Artifact (in_repo_name self) rel blob 0 0) ∨
  (∃ root recs rec tr, repo_root path = Ok root ∧ read_commits root = Ok recs ∧ rec ∈ recs ∧
     tr ∈ parse_trailers (as_bytes (cr_body rec)) ∧ map_trailer (tr_key tr) = Some Supersedes ∧
     cr_author rec ∈ in_authoritative_authors self).
Definition retire_inv self path c c' : Prop :=
  ∀ i n, c_nodes c' !! i = Some n → n_status n ≠ Active → retired_by self path c i n.

Lemma keeps_put_watermark `{!WatermarkSerdeLaws} self path c0 key w : keeps (retire_inv self path c0) (put_watermark self key w).
Proof.
  unfold put_watermark. destruct (watermark_to_vec w) as (b & Hto & _ & Hmv). rewrite Hto. intros t c Ht Hc. unfold sbind, slift. cbn [map_err].
  pose proof (ms_put_meta_ok t c (in_repo_name self) key b Ht (λ _, Hmv)) as He.
  destruct (effect_keeps (retire_inv self path c0) _ t c tt _ He Hc Hc) as (c1 & H1' & H2'). exists c1. unfold on_store, smap_err.
  destruct (ms_put_meta _ _ _ _); done.
Qed.

Lemma keeps_apply_one self path c0 st e :
  (load_bearing_supersession e = true → ∀ i n, retired_by self path c0 i n) → keeps (retire_inv self path c0) (apply_one st e).
Proof.
  intros Hall t c Ht Hc. unfold apply_one.
  destruct (ms_supersede_ok t c e Ht) as (t1 & r & Hr & _ & [(c1 & Hst & Ht1)|(err & -> & Ht1 & _)]); rewrite Hr.
  2:{ exists c. split; done. }
  exists c1. split; [by destruct r as [|[]]|]. intros i n Hn Hs.
  destruct (sup_step_dom c e r c1 Hst) as (_ & _ & _ & _ & Ho & _).
  { intros j m Hj. by apply (proj1 (ms_ids t c Ht)) in Hj as [? _]. }
  destruct (Ho i n Hn) as [Hi|(Hk & Hq & _)]; [by apply Hc|]. apply Hall. unfold load_bearing_supersession.
  by rewrite bool_decide_true, Hq.
Qed.

Lemma keeps_store_graph `{!WatermarkSerdeLaws} self path c0 ns es docs n w :
  Forall (λ n, json_repr n ∧ declared self n) ns →
  (∀ e, e ∈ es → load_bearing_supersession e = true → ∀ i n, retired_by self path c0 i n) →
  keeps (retire_inv self path c0) (store_graph self ns es docs n w).
Proof.
  intros Hns Hes. unfold store_graph. apply keeps_bind.
  { apply keeps_map_err. intros t c Ht Hc. eapply effect_keeps; [apply ms_commit_ok; [done|]|done|].
    - eapply Forall_impl; [exact Hns|]. by intros x [? _].
    - intros i m Hm Hs. unfold c_commit in Hm. rewrite foldl_put_edge_nodes in Hm. apply foldl_put_node_inv in Hm as [Hm|[Hin _]]; [by apply Hc|].
      rewrite Forall_forall in Hns. destruct (Hns m Hin) as [_ Hd]. right. left. by apply Hd. }
  intros _. apply keeps_bind.
  { apply keeps_fold. intros st e [Hlb Hin]%list_elem_of_filter. apply keeps_apply_one. intros _. by eapply Hes. }
  intros counts. apply keeps_bind; [destruct w; intros t c Ht Hc; by exists c|]. intros wm.
  apply keeps_bind; [apply keeps_put_watermark|]. intros _.
  apply keeps_bind; [apply keeps_read|]. intros nc. apply keeps_bind; [apply keeps_read|]. intros ec. apply keeps_ret.
Qed.


(** ** Branches *)

(** What git says about branches in one run *)
Record branches_of (path root default_ref : string) (branches : list BranchRef) : Prop := {
  bo_root : repo_root path = Ok root;
  bo_default : default_branch_ref root = Ok default_ref;
  bo_list : list_branches root default_ref = Ok branches;
}.
Definition live_map (branches : list BranchRef) : gmap string string := foldl (λ m b, <[br_name b := br_tip b]> m) ∅ branches.

Definition stale self root live (n : MemoryNode) : bool :=
  bool_decide (is_Some (branch_content self n ≫= λ p, reap_reason_of root live p.1 p.2)).
(** A stale branch node is archived as of now. *)
Definition reaped self now root live (n : MemoryNode) : MemoryNode :=
  if stale self root live n then set_status Archived (Some now) n else n.
Definition c_reap self now root live c (ns : list MemoryNode) : conts :=
  foldl (λ c n, if stale self root live n then c_set_status c (compute_id n) Archived (Some now) else c) c ns.

Definition reap_balanced (r : ReapReport) : Prop := rp_archived r = (rp_merged r + rp_deleted r + rp_advanced r)%nat.

Lemma reap_fold_ok self now root live ns r t c : ms_holds t c → ms_sealing t = false → reap_balanced r →
  ∃ t' r', sfold (reap_node self now root live) r ns t = (t', Ok r') ∧ ms_holds t' (c_reap self now root live c ns) ∧ reap_balanced r'.
Proof.
  revert r t c. induction ns as [|n ns IH]; intros r t c Ht Hs Hr; [by exists t, r|]. cbn [sfold c_reap foldl].
  change (foldl _ ?c ns) with (c_reap self now root live c ns).
  unfold sbind, reap_node at 1, stale. destruct (branch_content self n ≫= _) as [why|]; [|by apply IH]. cbn [is_Some_dec].
  rewrite bool_decide_true by done.
  destruct (ms_set_node_status_ok t c (compute_id n) Archived (Some now) Ht) as (t1 & x & Hx & Hs1 & Hres).
  unfold on_store, smap_err, sbind. rewrite Hx. destruct x as [y|]; [|destruct Hres; congruence]. destruct Hres as [_ Ht1]. cbn [map_err sret].
  apply IH; [exact Ht1|congruence|]. destruct y; [|done]. unfold reap_balanced, count_reap in *. cbn. destruct why; lia.
Qed.

Lemma c_reap_lookup self now root live ns c : NoDup (compute_id <$> ns) → (∀ n, n ∈ ns → c_nodes c !! compute_id n = Some n) →
  (∀ i, c_nodes (c_reap self now root live c ns) !! i =
        match c_nodes c !! i with
        | Some n => Some (if bool_decide (i ∈ compute_id <$> ns) then reaped self now root live n else n)
        | None => None
        end) ∧
  c_edges (c_reap self now root live c ns) = c_edges c ∧ c_meta (c_reap self now root live c ns) = c_meta c.
Proof.
  revert c. induction ns as [|n ns IH]; intros c Hnd Hns.
  { split; [|done]. intros i. cbn. by destruct (c_nodes c !! i). }
  rewrite fmap_cons in Hnd. apply NoDup_cons in Hnd as [Hni Hnd]. cbn [c_reap foldl]. change (foldl _ ?c ns) with (c_reap self now root live c ns).
  set (c1 := if stale self root live n then c_set_status c (compute_id n) Archived (Some now) else c).
  assert (c_nodes c !! compute_id n = Some n) as Hn by (apply Hns; by left).
  assert (c_nodes c1 = <[compute_id n := reaped self now root live n]> (c_nodes c) ∧ c_edges c1 = c_edges c ∧ c_meta c1 = c_meta c) as (Hc1 & He1 & Hm1).
  { unfold c1, reaped. destruct (stale self root live n) eqn:Est; [|by rewrite insert_id].
    unfold c_set_status. rewrite Hn. rewrite bool_decide_false.
    - unfold c_put_node. cbn [c_nodes c_edges c_meta]. by rewrite (set_status_id _ _ n : node_id _ = _).
    - intros Ha. unfold stale, branch_content in Est. rewrite Ha in Est. rewrite (bool_decide_false (Archived = Active)), andb_false_r in Est by done.
      cbn in Est. done. }
  destruct (IH c1 Hnd) as (Hl & -> & ->).
  { intros m Hm. rewrite Hc1, lookup_insert_ne; [apply Hns; by right|]. intros E. apply Hni. rewrite E. by apply list_elem_of_fmap_2. }
  split_and!; [|done|done]. intros i. rewrite Hl, Hc1, lookup_insert. case_decide as E.
  - subst i. rewrite Hn. rewrite bool_decide_false by done. by rewrite bool_decide_true by (by left).
  - destruct (c_nodes c !! i) as [m|]; [|done]. f_equal.
    rewrite (bool_decide_ext (i ∈ compute_id <$> n :: ns) (i ∈ compute_id <$> ns)); [done|]. rewrite fmap_cons, elem_of_cons. naive_solver.
Qed.

Lemma reaped_live self now root live n name tip : branch_content self (reaped self now root live n) = Some (name, tip) →
  live !! name = Some tip ∧ is_ancestor root tip ≠ Ok true.
Proof.
  unfold reaped. destruct (stale self root live n) eqn:Est.
  { unfold branch_content. cbn [set_status n_status]. rewrite (bool_decide_false (Archived = Active)), andb_false_r by done. done. }
  intros Hb. unfold stale in Est. rewrite Hb in Est. cbn [mbind option_bind fst snd] in Est. apply bool_decide_eq_false_1 in Est.
  unfold reap_reason_of in Est. destruct (live !! name) as [l|]; [|destruct Est; by eexists].
  case_bool_decide as El; cbn [negb] in Est; [|destruct Est; by eexists]. subst l. split; [done|].
  intros Ha. rewrite Ha in Est. cbn in Est. destruct Est. by eexists.
Qed.

(** Reaping leaves exactly the live branches in flight: on a plain store the pass
    succeeds and archives, as of now, each active branch node of the tenant whose branch is
    gone, has moved to another tip or is merged into the default branch, and touches
    nothing else; afterwards every active branch node names a live branch at its tip that
    is not merged, and the reasons add up to the number archived. *)
Theorem reap_branches_live self now path root default_ref branches t c (live := live_map branches) (Ht : ms_holds t c)
    (Hs : ms_sealing t = false) (Hb : branches_of path root default_ref branches) :
  ∃ t' rep c', reap_branches self now path t = (t', Ok rep) ∧ ms_holds t' c' ∧
    c_nodes c' = reaped self now root live <$> c_nodes c ∧ c_edges c' = c_edges c ∧ c_meta c' = c_meta c ∧
    (∀ i n name tip, c_nodes c' !! i = Some n → branch_content self n = Some (name, tip) →
       live !! name = Some tip ∧ is_ancestor root tip ≠ Ok true) ∧
    rp_archived rep = (rp_merged rep + rp_deleted rep + rp_advanced rep)%nat.
Proof.
  destruct Hb as [Hroot Hdef Hlist]. destruct (ms_all_nodes_ok t c Ht) as (ns & Hns & Hnd & _ & Hin).
  destruct (reap_fold_ok self now root live ns {| rp_archived := 0; rp_merged := 0; rp_deleted := 0; rp_advanced := 0 |} t c Ht Hs eq_refl)
    as (t' & rep & Hf & Ht' & Hbal).
  destruct (c_reap_lookup self now root live ns c Hnd) as (Hl & He & Hm); [intros n Hn; by apply Hin|].
  assert (c_nodes (c_reap self now root live c ns) = reaped self now root live <$> c_nodes c) as Hn.
  { apply map_eq. intros i. rewrite Hl, lookup_fmap. destruct (c_nodes c !! i) as [n|] eqn:Hi; [|done]. cbn. rewrite bool_decide_true; [done|].
    destruct (proj1 (ms_ids t c Ht) i n Hi) as [<- _]. apply list_elem_of_fmap_2. by apply Hin. }
  exists t', rep, (c_reap self now root live c ns). split_and!; [|done|done|done|done| |done].
  - unfold reap_branches. rewrite (sbind_ok _ _ t t root) by (unfold slift; by rewrite Hroot).
    rewrite (sbind_ok _ _ t t default_ref) by (unfold slift; by rewrite Hdef). rewrite (sbind_ok _ _ t t branches) by (unfold slift; by rewrite Hlist).
    rewrite (sbind_ok _ _ t t ns) by (unfold read_store, sread; by rewrite Hns). exact Hf.
  - intros i n name tip Hi. rewrite Hn, lookup_fmap in Hi. apply fmap_Some in Hi as (m & _ & ->). apply reaped_live.
Qed.

(** The subgraph of a branch: its marker, every commit, and the edges that hold them *)
Definition bid self (br : BranchRef) : ContentHash := compute_id (branch_node (in_repo_name self) (br_name br) (br_tip br) 0).
Definition cid self (rec : CommitRecord) : ContentHash := compute_id (bare_commit (in_repo_name self) rec 0).
Lemma bid_now self br now : compute_id (branch_node (in_repo_name self) (br_name br) (br_tip br) now) = bid self br.
Proof. by apply compute_id_identity. Qed.
Lemma cid_now self rec now : compute_id (bare_commit (in_repo_name self) rec now) = cid self rec.
Proof. by apply compute_id_identity. Qed.

Lemma branch_steps_hold self name i recs now em reuse b b' : rfold (branch_step (in_repo_name self) name i now em reuse) b recs = Ok b' →
  (∀ x, x ∈ ids b → x ∈ ids b') ∧ (∀ e, e ∈ b_edges b → e ∈ b_edges b') ∧
  ∀ rec, rec ∈ recs → cid self rec ∈ ids b' ∧ (i, cid self rec, BranchContains) ∈ edge_ident <$> b_edges b'.
Proof.
  revert b. induction recs as [|rec recs IH]; intros b Hf; cbn [rfold] in Hf.
  { injection Hf as <-. split_and!; [done|done|]. by intros rec Hr%not_elem_of_nil. }
  apply rbind_ok in Hf as (b1 & Hs & Hf). unfold branch_step in Hs. apply rbind_ok in Hs as (n & Hn & [= <-]).
  apply embed_or_reuse_ok in Hn as (v & -> & _). rewrite compute_id_embedding, cid_now in Hf.
  destruct (IH _ Hf) as (Hn1 & He1 & Hr1).
  assert (∀ x, x ∈ ids b ∨ x = cid self rec → x ∈ ids b') as Hx.
  { intros x Hx. apply Hn1. unfold ids. cbn. rewrite fmap_app. apply elem_of_app. destruct Hx as [Hx| ->]; [by left|right].
    apply list_elem_of_singleton. by rewrite compute_id_embedding, cid_now. }
  split_and!; [auto|intros e He; apply He1; cbn; rewrite <-app_assoc; apply elem_of_app; by left|].
  intros r [->|Hr]%elem_of_cons; [|by apply Hr1]. split; [auto|].
  apply list_elem_of_fmap. exists (make_edge i (cid self rec) BranchContains Ingest now (Some name)). split; [done|]. apply He1. cbn.
  apply elem_of_app. right. by left.
Qed.

Definition in_flight_kind (k : EdgeKind) : bool := is_spine k || bool_decide (k = BranchContains).

Lemma build_branch_graph_ok self br recs now t c : ms_holds t c → total_embedder (in_embedder self) →
  ∃ ns es, build_branch_graph (in_repo_name self) (br_name br) (br_tip br) recs now (in_embedder self) (store_reuse self t) = Ok (ns, es) ∧
    Forall json_repr ns ∧ Forall (λ n, n_status n = Active) ns ∧ Forall (λ e, in_flight_kind (e_kind e) = true) es ∧
    bid self br ∈ compute_id <$> ns ∧
    ∀ rec, rec ∈ recs → cid self rec ∈ compute_id <$> ns ∧ (bid self br, cid self rec, BranchContains) ∈ edge_ident <$> es.
Proof.
  intros Ht Hem. unfold build_branch_graph. rewrite bid_now. set (start := Build_build _ _ _ _).
  destruct (rfold_total (branch_step (in_repo_name self) (br_name br) (bid self br) now (in_embedder self) (store_reuse self t)) start recs) as [b Hb].
  { intros x rec _. unfold branch_step, commit_node.
    destruct (embed_or_reuse_total (bare_commit (in_repo_name self) rec now) (cr_subject rec +:+ eol +:+ cr_body rec) _ (store_reuse self t) Hem) as [n ->].
    by eexists. }
  set (R := λ n, json_repr n ∧ n_status n = Active). set (Q := λ e, in_flight_kind (e_kind e) = true).
  assert (wf_build R Q b) as [_ _ Hn He].
  { eapply (branch_steps_wf R Q); [| | | | |exact Hb].
    - split; cbn; [by intros k i Hk; rewrite lookup_empty in Hk..|by apply Forall_singleton|by apply Forall_nil].
    - unfold ids. cbn. apply list_elem_of_singleton. by rewrite bid_now.
    - split; [done|]. intros rec n _ Hn. split; [by eapply embed_or_reuse_json; [|eapply store_reuse_finite|]|].
      by apply embed_or_reuse_ok in Hn as (v & -> & _).
    - intros i j k p Hk. unfold Q, in_flight_kind. cbn. by rewrite Hk.
    - done. }
  destruct (branch_steps_hold self _ _ _ _ _ _ _ _ Hb) as (Hin & _ & Hr).
  exists (b_nodes b), (b_edges b). rewrite Hb. split_and!; [done|..].
  - eapply Forall_impl; [exact Hn|]. by intros n [? _].
  - eapply Forall_impl; [exact Hn|]. by intros n [_ ?].
  - eapply Forall_impl; [exact He|]. by intros e (_ & _ & ?).
  - apply Hin. unfold ids. cbn. apply list_elem_of_singleton. by rewrite bid_now.
  - exact Hr.
Qed.

(** The stored watermark of a branch is at its tip. *)
Definition seen self c (br : BranchRef) : Prop :=
  ∃ b w, c_meta c !! branch_watermark_key (in_repo_name self) (br_name br) = Some b ∧ from_slice b = Ok w ∧ w_head w = Some (br_tip br).
(** The branch's work is in the store: marker, commits and the edges that hold them. *)
Definition in_flight self c br (recs : list CommitRecord) : Prop :=
  bid self br ∈ dom (c_nodes c) ∧
  ∀ rec, rec ∈ recs → cid self rec ∈ dom (c_nodes c) ∧ (bid self br, cid self rec, BranchContains) ∈ dom (c_edges c).
(** Contents grew by branch work only: active nodes, and spine or branch edges *)
Record grown c c' : Prop := {
  gr_nodes : dom (c_nodes c) ⊆ dom (c_nodes c');
  gr_edges : dom (c_edges c) ⊆ dom (c_edges c');
  gr_active : ∀ i n, c_nodes c' !! i = Some n → c_nodes c !! i = Some n ∨ n_status n = Active;
  gr_kinds : ∀ i, i ∈ dom (c_edges c') → i ∈ dom (c_edges c) ∨ in_flight_kind i.2 = true;
}.
#[local] Instance grown_po : PreOrder grown.
Proof.
  split; [intros c; split; auto|]. intros c1 c2 c3 [Hn1 He1 Ha1 Hk1] [Hn2 He2 Ha2 Hk2]. split.
  - by etrans.
  - by etrans.
  - intros i n [Hn|?]%Ha2; auto.
  - intros i [Hi|?]%Hk2; auto.
Qed.

Lemma in_flight_grown self c c' br recs : grown c c' → in_flight self c br recs → in_flight self c' br recs.
Proof. intros [Hn He _ _] [Hb Hr]. split; [by apply Hn|]. intros rec Hin. destruct (Hr rec Hin). split; [by apply Hn|by apply He]. Qed.

Lemma commit_grown c ns es : Forall (λ n, n_status n = Active) ns → Forall (λ e, in_flight_kind (e_kind e) = true) es → grown c (c_commit c ns es).
Proof.
  intros Hns Hes. destruct (commit_dom c ns es) as (Hn & _ & He & _). rewrite !Forall_forall in *. split.
  - rewrite Hn. apply union_subseteq_l.
  - rewrite He. apply union_subseteq_l.
  - intros i n. unfold c_commit. rewrite foldl_put_edge_nodes. intros [?|[Hin _]]%foldl_put_node_inv; [by left|right; by apply Hns].
  - intros i. rewrite He, elem_of_union, elem_of_list_to_set, list_elem_of_fmap. intros [?|(e & -> & Hin)]; [by left|right; by apply Hes].
Qed.

Lemma grown_put_meta k b c : grown c (c_put_meta k b c).
Proof. split; [done|done|by left|by left]. Qed.

Lemma branch_watermark_key_inj repo n1 n2 : branch_watermark_key repo n1 = branch_watermark_key repo n2 → n1 = n2.
Proof.
  unfold branch_watermark_key. intros E%as_bytes_inj. apply (inj _) in E. apply (inj _) in E. by apply (inj _) in E.
Qed.

Lemma branch_seen_iff self t c br : ms_holds t c →
  ∃ s : bool, branch_seen self t br = Ok s ∧ (s = true ↔ seen self c br).
Proof.
  intros Ht. unfold branch_seen, seen. rewrite (ms_get_meta_ok _ _ _ Ht). cbn [map_err rbind].
  destruct (c_meta c !! _) as [b|]; [|exists false; split; [done|]; split; [done|]; by intros (? & ? & [=] & _)].
  destruct (from_slice b) as [w|] eqn:Hf; [|exists false; split; [done|]; split; [done|]; intros (? & ? & [= <-] & ? & _); congruence].
  eexists. split; [done|]. rewrite bool_decide_eq_true. split; [by exists b, w|]. intros (? & ? & [= <-] & ? & ?). congruence.
Qed.

Definition handled (r : BranchIngestReport) : nat := bi_branches_ingested r + bi_unchanged r.

Lemma branch_pass_ok `{!WatermarkSerdeLaws} self now root default_ref br recs r t c : ms_holds t c → ms_sealing t = false →
  total_embedder (in_embedder self) → read_commits_between root default_ref (br_tip br) = Ok recs →
  ∃ t' r' c', branch_pass self now root default_ref r br t = (t', Ok r') ∧ ms_holds t' c' ∧ ms_sealing t' = false ∧
    grown c c' ∧ seen self c' br ∧
    (∀ k, k ≠ branch_watermark_key (in_repo_name self) (br_name br) → c_meta c' !! k = c_meta c !! k) ∧
    (¬ seen self c br → recs ≠ [] → in_flight self c' br recs) ∧ handled r' = S (handled r) ∧
    (seen self c br → t' = t ∧ r' = one_unchanged r).
Proof.
  intros Ht Hs Hem Hlog. unfold branch_pass. destruct (branch_seen_iff self t c br Ht) as (s & Hseen & Hiff).
  rewrite (sbind_ok _ _ t t s) by (unfold sread; by rewrite Hseen). destruct s.
  { exists t, (one_unchanged r), c. assert (seen self c br) by (by apply Hiff). split_and!; try done. unfold handled. cbn. lia. }
  assert (¬ seen self c br) as Hns by (intros Hx%Hiff; done). rewrite (sbind_ok _ _ t t recs) by (unfold slift; by rewrite Hlog).
  set (w := {| w_repo := _; w_head := Some (br_tip br); w_head_count := _; w_ingested_at_ms := now |}).
  set (key := branch_watermark_key (in_repo_name self) (br_name br)).
  case_bool_decide as Hrecs.
  - destruct (put_watermark_ok self key w t c Ht Hs) as (t1 & b & Hp & Ht1 & Hs1 & Hb). rewrite (sbind_ok _ _ t t1 tt) by exact Hp.
    exists t1, (one_unchanged r), (c_put_meta key b c). split_and!; try done; [apply grown_put_meta| | |unfold handled; cbn; lia].
    + exists b, w. split; [apply lookup_insert_eq|done].
    + intros k Hk. by apply lookup_insert_ne.
  - destruct (build_branch_graph_ok self br recs now t c Ht Hem) as (ns & es & Hg & Hj & Hact & Hkind & Hbid & Hrec).
    rewrite (sbind_ok _ _ t t (ns, es)) by (unfold sread; by rewrite Hg). cbn [fst snd].
    destruct (ms_commit_ok t c ns es Ht Hj) as (t1 & r1 & Hc & Hs1 & Hr1). destruct r1 as [[]|]; [|destruct Hr1; congruence].
    destruct Hr1 as [_ Ht1]. rewrite (sbind_ok _ _ t t1 tt) by (unfold on_store, smap_err; by rewrite Hc).
    destruct (put_watermark_ok self key w t1 _ Ht1 ltac:(congruence)) as (t2 & b & Hp & Ht2 & Hs2 & Hb). rewrite (sbind_ok _ _ t1 t2 tt) by exact Hp.
    pose proof (commit_grown c ns es Hact Hkind) as Hgr. destruct (commit_dom c ns es) as (Hn & _ & He & Hm).
    exists t2, (one_ingested (length recs) r), (c_put_meta key b (c_commit c ns es)).
    split_and!; try done; [etrans; [exact Hgr|apply grown_put_meta]| | |].
    + exists b, w. split; [apply lookup_insert_eq|done].
    + intros k Hk. etrans; [by apply lookup_insert_ne|]. by rewrite Hm.
    + intros _ _. unfold in_flight. cbn [c_put_meta c_nodes c_edges]. rewrite Hn, He. setoid_rewrite elem_of_union. setoid_rewrite elem_of_list_to_set.
      split; [by right|]. intros rec Hin. destruct (Hrec rec Hin). auto.
Qed.

(** Every listed branch has a readable log. *)
Definition logs_of root default_ref (log : string → list CommitRecord) (branches : list BranchRef) : Prop :=
  Forall (λ br, read_commits_between root default_ref (br_tip br) = Ok (log (br_tip br))) branches.

Lemma branch_passes_ok `{!WatermarkSerdeLaws} self now root default_ref log brs r t c : ms_holds t c → ms_sealing t = false →
  total_embedder (in_embedder self) → logs_of root default_ref log brs → NoDup (br_name <$> brs) →
  ∃ t' r' c', sfold (branch_pass self now root default_ref) r brs t = (t', Ok r') ∧ ms_holds t' c' ∧ ms_sealing t' = false ∧
    grown c c' ∧ Forall (seen self c') brs ∧
    (∀ k, Forall (λ br, k ≠ branch_watermark_key (in_repo_name self) (br_name br)) brs → c_meta c' !! k = c_meta c !! k) ∧
    Forall (λ br, ¬ seen self c br → log (br_tip br) ≠ [] → in_flight self c' br (log (br_tip br))) brs ∧
    handled r' = (handled r + length brs)%nat.
Proof.
  intros Ht Hs Hem. revert r t c Ht Hs. induction brs as [|br brs IH]; intros r t c Ht Hs Hlog Hnd.
  { exists t, r, c. cbn. split_and!; try done; try lia; by apply Forall_nil. }
  apply Forall_cons in Hlog as [Hl Hlog]. rewrite fmap_cons in Hnd. apply NoDup_cons in Hnd as [Hni Hnd]. cbn [sfold].
  destruct (branch_pass_ok self now root default_ref br _ r t c Ht Hs Hem Hl)
    as (t1 & r1 & c1 & Hp & Ht1 & Hs1 & Hg1 & Hsn1 & Hm1 & Hin1 & Hh1 & _).
  rewrite (sbind_ok _ _ t t1 r1) by exact Hp.
  destruct (IH r1 t1 c1 Ht1 Hs1 Hlog Hnd) as (t2 & r2 & c2 & Hf & Ht2 & Hs2 & Hg2 & Hsn2 & Hm2 & Hin2 & Hh2).
  assert (∀ br', br' ∈ brs → branch_watermark_key (in_repo_name self) (br_name br) ≠ branch_watermark_key (in_repo_name self) (br_name br')) as Hkey.
  { intros br' Hb E%branch_watermark_key_inj. apply Hni. rewrite E. by apply list_elem_of_fmap_2. }
  exists t2, r2, c2. split_and!; try done; [by etrans| | | |cbn; lia].
  - apply Forall_cons. split; [|done]. destruct Hsn1 as (b & w & Hb & Hrest). exists b, w. split; [|done]. rewrite Hm2; [done|].
    by apply Forall_forall.
  - intros k [Hk Hks]%Forall_cons. rewrite Hm2 by done. by apply Hm1.
  - apply Forall_cons. split; [intros Hn Hne; eapply in_flight_grown; [exact Hg2|by apply Hin1]|].
    rewrite Forall_forall in Hin2 |- *. intros br' Hb Hn. apply Hin2; [done|]. intros (b & w & Hb' & Hrest). apply Hn. exists b, w. split; [|done].
    rewrite Hm1 in Hb'; [done|]. intros E. by eapply Hkey.
Qed.

Lemma branch_passes_again self now root default_ref brs r t c : ms_holds t c → Forall (seen self c) brs →
  sfold (branch_pass self now root default_ref) r brs t = (t, Ok (foldr (λ _, one_unchanged) r brs)).
Proof.
  intros Ht. revert r. induction brs as [|br brs IH]; intros r Hsn; [done|]. apply Forall_cons in Hsn as [Hb Hsn]. cbn [sfold].
  destruct (branch_seen_iff self t c br Ht) as (s & Hseen & Hiff). apply Hiff in Hb. subst s.
  rewrite (sbind_ok _ _ t t (one_unchanged r)).
  - rewrite IH by done. do 2 f_equal. cbn [foldr]. clear. induction brs as [|x brs IH]; [done|]. cbn [foldr]. by rewrite IH.
  - unfold branch_pass. by rewrite (sbind_ok _ _ t t true) by (unfold sread; by rewrite Hseen).
Qed.

(** Branch ingestion captures the work in flight and nothing else: on a plain store,
    over branches with distinct names and readable logs, the pass succeeds and accounts for
    every branch; each branch's stored watermark is then at its tip; a branch whose tip had
    not been recorded and that has commits of its own has its marker, all these commits and
    the edges that hold them in the store; only active nodes and spine or branch edges are
    added, so no in-flight trailer takes effect; no other metadata changes; and a second
    pass finds every branch unchanged and leaves the store as it is. *)
Theorem ingest_branches_captures `{!WatermarkSerdeLaws} self now1 now2 path root default_ref branches log t c (Ht : ms_holds t c)
    (Hs : ms_sealing t = false) (Hem : total_embedder (in_embedder self)) (Hb : branches_of path root default_ref branches)
    (Hlog : logs_of root default_ref log branches) (Hnd : NoDup (br_name <$> branches)) :
  ∃ t' rep c', ingest_branches self now1 path t = (t', Ok rep) ∧ ms_holds t' c' ∧ grown c c' ∧
    (bi_branches_ingested rep + bi_unchanged rep)%nat = length branches ∧ Forall (seen self c') branches ∧
    Forall (λ br, ¬ seen self c br → log (br_tip br) ≠ [] → in_flight self c' br (log (br_tip br))) branches ∧
    (∀ k, Forall (λ br, k ≠ branch_watermark_key (in_repo_name self) (br_name br)) branches → c_meta c' !! k = c_meta c !! k) ∧
    ∃ rep', ingest_branches self now2 path t' = (t', Ok rep') ∧ bi_branches_ingested rep' = 0%nat ∧ bi_unchanged rep' = length branches.
Proof.
  destruct Hb as [Hroot Hdef Hlist].
  destruct (branch_passes_ok self now1 root default_ref log branches {| bi_branches_ingested := 0; bi_in_flight_commits := 0; bi_unchanged := 0 |} t c Ht Hs Hem Hlog Hnd)
    as (t' & rep & c' & Hf & Ht' & _ & Hg & Hsn & Hm & Hin & Hh).
  assert (∀ now (t0 : T), ingest_branches self now path t0 =
    sfold (branch_pass self now root default_ref) {| bi_branches_ingested := 0; bi_in_flight_commits := 0; bi_unchanged := 0 |} branches t0) as Hrun.
  { intros now t0. unfold ingest_branches. rewrite (sbind_ok _ _ t0 t0 root) by (unfold slift; by rewrite Hroot).
    rewrite (sbind_ok _ _ t0 t0 default_ref) by (unfold slift; by rewrite Hdef).
    by rewrite (sbind_ok _ _ t0 t0 branches) by (unfold slift; by rewrite Hlist). }
  exists t', rep, c'. rewrite Hrun. split_and!; try done. eexists. rewrite Hrun, (branch_passes_again self now2 _ _ _ _ t' c') by done.
  split; [done|]. clear. induction branches as [|br brs [IH1 IH2]]; [done|]. cbn [foldr one_unchanged bi_branches_ingested bi_unchanged length].
  by rewrite IH1, IH2.
Qed.
End ingest_props.
