(* ===== verification/ChainIngest.v ===== *)
(** * Ingestion of chain state ([mem-ingest/src/chain.rs])

    The contract catalog of a network and the walk over its blocks, projected into the
    reserved tenant [chain-state].  A block source is a function from heights to blocks;
    the recorded transcript and the JSON-RPC endpoint are two of them.  The wall clock and
    the embedder are arguments. *)

From S2P Require Import Prelude Bytes Externs Text Str Belnap Identity Node Float Edge Index.
From S2P Require Import Kv Shred Store StoreContents Supersession StoreInterface Assert Query Search Display Sync SyncChain Git Docs Ingest.

Definition CHAIN_STATE_TENANT : string := "chain-state".
Definition CATALOG_GROUPS : list string := ["aaStack"; "contracts"; "genesis"; "precompiles"].

Definition u128_max : Z := 2 ^ 128 - 1.
(** [hex_u64] and [hex_u128] *)
Definition hex_unsigned (max : Z) (s : string) : result IngestError Z :=
  let stripped := default (as_bytes s) (strip_prefix (as_bytes "0x") (as_bytes s)) in
  map_err (λ e, ChainError ("bad hex quantity '" +:+ s +:+ "': " +:+ e)) (from_str_radix16 max stripped).
Definition hex_u64 : string → result IngestError Z := hex_unsigned u64_max.
Definition hex_u128 : string → result IngestError Z := hex_unsigned u128_max.

Definition norm_hex (s : string) : string := string_of_bytes (ascii_lowercase (trim (as_bytes s))).

(** ** The catalog *)

Record CatalogEntry := { ce_group : string; ce_name : string; ce_address : string }.
Record ChainCatalog := {
  ct_chain_id : Z;
  ct_chain_name : string;
  ct_rpc_url : string;
  ct_explorer_url : string;
  ct_deployer : string;
  ct_entries : list CatalogEntry;
}.

(** The entries of an object in the order of its keys *)
Definition object_entries (v : Value) : list (string * Value) :=
  match v with JObject m => sort_by_key fst (map_to_list m) | _ => [] end.

Definition add_entry (group : string) (m : gmap (string * string) string) (p : string * Value)
    : result IngestError (gmap (string * string) string) :=
  let? addr := ok_or (as_str p.2) (ChainError (group +:+ "." +:+ p.1 +:+ " address is not a string")) in
  Ok (<[(group, p.1) := norm_hex addr]> m).
Definition add_group (v : Value) (m : gmap (string * string) string) (group : string) : result IngestError (gmap (string * string) string) :=
  rfold (add_entry group) m (default [] (object_entries <$> jget v group)).

Definition catalog_entry (p : string * string * string) : CatalogEntry := {| ce_group := p.1.1; ce_name := p.1.2; ce_address := p.2 |}.

Definition parse_catalog `{SerdeJson} (json : string) : result IngestError ChainCatalog :=
  let? v := map_err (λ e, ChainError ("catalog is not JSON: " +:+ e)) (json_from_str json) in
  let? chain_id := ok_or (jget v "chainId" ≫= as_u64) (ChainError "catalog missing numeric 'chainId'") in
  let text k := default "" (jget v k ≫= as_str) in
  let? sorted := rfold (add_group v) ∅ CATALOG_GROUPS in
  Ok {| ct_chain_id := chain_id; ct_chain_name := text "chainName"; ct_rpc_url := text "rpcUrl"; ct_explorer_url := text "explorerUrl";
        ct_deployer := norm_hex (text "deployer"); ct_entries := catalog_entry <$> sort_by_key fst (map_to_list sorted) |}.

(** ** Nodes *)

Definition bare_chain (kind : NodeKind) (key content : string) (valid_from now_ms : Timestamp) : MemoryNode :=
  derived_node kind CHAIN_STATE_TENANT "ingest" (DagNative key) (as_bytes content) valid_from now_ms [True_] Active.
Definition chain_node (kind : NodeKind) (key content : string) (valid_from now_ms : Timestamp) (em : Embedder) : result IngestError MemoryNode :=
  let? v := map_err (EmbedFailed ∘ EmbedError_display) (em_embed em content) in
  Ok (with_embedding (Some v) (bare_chain kind key content valid_from now_ms)).

Definition network_key (chain_id : Z) : string := "chain:" +:+ decimal chain_id.
Definition contract_key (chain_id : Z) (e : CatalogEntry) : string :=
  "chain:" +:+ decimal chain_id +:+ "/contract/" +:+ ce_group e +:+ "/" +:+ ce_name e +:+ "@" +:+ ce_address e.
Definition contract_logical_key (full_key : string) : string := default full_key (fst <$> rsplit_once "@" full_key).
Definition block_prefix (chain_id : Z) : string := "chain:" +:+ decimal chain_id +:+ "/block/".
Definition checkpoint_key (chain_id number : Z) (hash : string) : string := block_prefix chain_id +:+ decimal number +:+ "@" +:+ hash.
Definition event_key (chain_id : Z) (tx_hash : string) : string := "chain:" +:+ decimal chain_id +:+ "/tx/" +:+ tx_hash.
Definition dag_key (n : MemoryNode) : option string := match n_source_ref n with DagNative k => Some k | _ => None end.

Section catalog.
Context `{Blake3}.

Definition network_content (cat : ChainCatalog) : string :=
  ct_chain_name cat +:+ " — chainId " +:+ decimal (ct_chain_id cat) +:+ ", rpc " +:+ ct_rpc_url cat +:+ ", explorer " +:+ ct_explorer_url cat
  +:+ ", deployer " +:+ ct_deployer cat.
Definition contract_content (chain_id : Z) (e : CatalogEntry) : string :=
  ce_name e +:+ " @ " +:+ ce_address e +:+ " (" +:+ ce_group e +:+ ") on chain " +:+ decimal chain_id.

Definition catalog_step (cat : ChainCatalog) (net_id : ContentHash) (now_ms : Timestamp) (em : Embedder)
    (g : list MemoryNode * list Edge) (e : CatalogEntry) : result IngestError (list MemoryNode * list Edge) :=
  let? node := chain_node ChainContract (contract_key (ct_chain_id cat) e) (contract_content (ct_chain_id cat) e) now_ms now_ms em in
  Ok (g.1 ++ [node], g.2 ++ [make_edge (compute_id node) net_id References Ingest now_ms (Some "deployed-on")]).

Definition build_catalog_graph (cat : ChainCatalog) (now_ms : Timestamp) (em : Embedder) : result IngestError (list MemoryNode * list Edge) :=
  let? network := chain_node ChainNetwork (network_key (ct_chain_id cat)) (network_content cat) now_ms now_ms em in
  rfold (catalog_step cat (compute_id network) now_ms em) ([network], []) (ct_entries cat).
End catalog.

(** ** Blocks *)

Record TxRecord := { tx_hash : string; tx_from : string; tx_to : option string; tx_value_wei : Z }.
Record BlockRecord := {
  bk_number : Z;
  bk_hash : string;
  bk_parent_hash : string;
  bk_timestamp_secs : Z;
  bk_txs : list TxRecord;
}.

Definition str_field (what : string) (v : Value) (k : string) : result IngestError string :=
  ok_or (jget v k ≫= as_str) (ChainError (what +:+ " missing string field '" +:+ k +:+ "'")).

Definition parse_tx (t : Value) : result IngestError TxRecord :=
  let? to := match jget t "to" with
             | None | Some JNull => Ok None
             | Some v => let? s := ok_or (as_str v) (ChainError "tx 'to' is neither null nor a string") in Ok (Some (norm_hex s))
             end in
  let? hash := str_field "tx" t "hash" in
  let? from := str_field "tx" t "from" in
  let? value := str_field "tx" t "value" in
  let? wei := hex_u128 value in
  Ok {| tx_hash := norm_hex hash; tx_from := norm_hex from; tx_to := to; tx_value_wei := wei |}.

Definition as_array (v : Value) : option (list Value) := match v with JArray l => Some l | _ => None end.

Definition parse_rpc_block (result : Value) : Prelude.result IngestError BlockRecord :=
  let? number := rbind (str_field "block" result "number") hex_u64 in
  let? hash := str_field "block" result "hash" in
  let? parent_hash := str_field "block" result "parentHash" in
  let? timestamp_secs := rbind (str_field "block" result "timestamp") hex_u64 in
  let? list := ok_or (jget result "transactions" ≫= as_array) (ChainError "block missing 'transactions' array (fetch with full tx bodies)") in
  let? txs := rfold (λ txs t, let? tx := parse_tx t in Ok (txs ++ [tx])) [] list in
  Ok {| bk_number := number; bk_hash := norm_hex hash; bk_parent_hash := norm_hex parent_hash; bk_timestamp_secs := timestamp_secs; bk_txs := txs |}.

(** [BlockSource::block_by_number] *)
Abbreviation BlockSource := (Z → result IngestError (option BlockRecord)).

Definition from_transcript `{SerdeJson} (json : string) : result IngestError (gmap Z BlockRecord) :=
  let? v := map_err (λ e, ChainError ("transcript is not JSON: " +:+ e)) (json_from_str json) in
  let? results := ok_or (jget v "results" ≫= as_array) (ChainError "transcript missing 'results' array") in
  rfold (λ blocks r, let? b := parse_rpc_block r in Ok (<[bk_number b := b]> blocks)) ∅ results.
Definition FixtureBlockSource (blocks : gmap Z BlockRecord) : BlockSource := λ number, Ok (blocks !! number).

Section rpc_source.
Context `{SerdeJson, Rpc}.

(** [RpcBlockSource::connect]; the source is its URL. *)
Definition connect (rpc_url : string) (expected_chain_id : Z) : result IngestError string :=
  let? got := map_err (ChainError ∘ SyncError_display) (rpc_call rpc_url "eth_chainId" (JArray [])) in
  let? s := ok_or (as_str got) (ChainError "eth_chainId result not a string") in
  let? got := hex_u64 s in
  if negb (bool_decide (got = expected_chain_id)) then
    Err (ChainError ("chain id mismatch: RPC is " +:+ decimal got +:+ ", expected " +:+ decimal expected_chain_id))
  else Ok rpc_url.

Definition RpcBlockSource (rpc_url : string) : BlockSource := λ number,
  let? v := map_err (ChainError ∘ SyncError_display)
              (rpc_call rpc_url "eth_getBlockByNumber" (JArray [JString ("0x" +:+ hex_lower number); JBool true])) in
  match v with JNull => Ok None | _ => rmap Some (parse_rpc_block v) end.
End rpc_source.

(** ** Runs *)

Record ChainCatalogReport := {
  cc_chain_id : Z;
  cc_contracts : nat;
  cc_superseded : nat;
  cc_supersessions_rejected : nat;
  cc_watermark : Watermark;
}.
Record EventCursor := { cu_chain_id : Z; cu_next_block : Z }.
Record ChainEventReport := {
  ev_blocks : nat;
  ev_events : nat;
  ev_reorgs_superseded : nat;
  ev_supersessions_rejected : nat;
  ev_cursor : EventCursor;
}.

Definition cursor_key (chain_id : Z) : bytes := as_bytes ("chain_cursor:" +:+ decimal chain_id).

(** [n + 1] on [u64] as the release build computes it *)
Definition inc64 (n : Z) : Z := (n + 1) mod 2 ^ 64.
Definition saturating_mul64 (a b : Z) : Z := Z.min (a * b) u64_max.

(** What the walk keeps between blocks *)
Record Walk := {
  wk_cursor : EventCursor;
  wk_by_height : gmap Z (list (ContentHash * string));
  wk_prev : option (string * ContentHash);
  wk_blocks : nat;
  wk_events : nat;
  wk_reorgs : nat;
  wk_rejected : nat;
}.

Section runs.
Context {T : Type} `{MemStore T, Blake3, Serde Watermark, Serde EventCursor, SerdeJson}.

(** The tenant's watermark *)
Definition put_tenant_watermark (tenant : string) (w : Watermark) : stm T IngestError unit :=
  let! b := slift (map_err IngestSerde (to_vec w)) in
  on_store (ms_put_meta tenant (watermark_key tenant) b).

Definition active_chain_nodes (t : T) (kind : NodeKind) : result IngestError (list MemoryNode) :=
  rmap (filter (λ n, n_repo n = CHAIN_STATE_TENANT ∧ n_kind n = kind ∧ n_status n = Active)) (map_err IngestStore (ms_all_nodes t)).

(** *** The catalog *)

Definition prior_step (m : gmap string (ContentHash * string)) (n : MemoryNode) : gmap string (ContentHash * string) :=
  match dag_key n with Some key => <[contract_logical_key key := (compute_id n, key)]> m | None => m end.

(** The edge that retires the earlier address of a contract *)
Definition redeploy (prior : gmap string (ContentHash * string)) (now_ms : Timestamp) (n : MemoryNode) : option Edge :=
  key ← (if bool_decide (n_kind n = ChainContract) then dag_key n else None);
  '(old_id, old_key) ← prior !! contract_logical_key key;
  if bool_decide (old_key = key) then None
  else Some (make_edge (compute_id n) old_id Supersedes Ingest now_ms (Some "catalog redeploy: same (group, name), new address")).

Definition ingest_chain_catalog_str (json : string) (em : Embedder) (now_ms : Timestamp) : stm T IngestError ChainCatalogReport :=
  let! cat := slift (parse_catalog json) in
  let! g := slift (build_catalog_graph cat now_ms em) in
  let! contracts := sread (λ t, active_chain_nodes t ChainContract) in
  let prior := foldl prior_step ∅ contracts in
  let supersessions := omap (redeploy prior now_ms) g.1 in
  let! _ := on_store (ms_commit g.1 g.2) in
  let! counts := apply_supersessions supersessions in
  let wm := {| w_repo := CHAIN_STATE_TENANT; w_head := Some (blake3_to_hex (blake3 (as_bytes json))); w_head_count := length g.1; w_ingested_at_ms := now_ms |} in
  let! _ := put_tenant_watermark CHAIN_STATE_TENANT wm in
  sret {| cc_chain_id := ct_chain_id cat; cc_contracts := length (ct_entries cat); cc_superseded := counts.1;
          cc_supersessions_rejected := counts.2; cc_watermark := wm |}.

(** [ingest_chain_catalog]; [file] is what reading the path gives. *)
Definition ingest_chain_catalog (path : string) (file : result string string) (em : Embedder) (now_ms : Timestamp) : stm T IngestError ChainCatalogReport :=
  let! json := slift (map_err (λ e, ChainError ("read " +:+ path +:+ ": " +:+ e)) file) in
  ingest_chain_catalog_str json em now_ms.

(** *** The cursor *)

Definition read_chain_cursor (t : T) (chain_id : Z) : result IngestError (option EventCursor) :=
  let? o := map_err IngestStore (ms_get_meta t (cursor_key chain_id)) in
  match o with
  | None => Ok None
  | Some b => rmap Some (map_err IngestSerde (from_slice b))
  end.
Definition write_chain_cursor (cursor : EventCursor) : stm T IngestError unit :=
  let! b := slift (map_err IngestSerde (to_vec cursor)) in
  on_store (ms_put_meta CHAIN_STATE_TENANT (cursor_key (cu_chain_id cursor)) b).

(** *** The walk *)

Context (source : BlockSource) (chain_id : Z) (watch : gset string) (em : Embedder) (now_ms : Timestamp).

Definition contract_step (m : gmap string ContentHash) (n : MemoryNode) : gmap string ContentHash :=
  match dag_key n ≫= rsplit_once "@" with Some (_, addr) => <[addr := compute_id n]> m | None => m end.

(** The height in the key of a checkpoint *)
Definition checkpoint_height (key : string) : option Z :=
  rest ← strip_prefix (as_bytes (block_prefix chain_id)) (as_bytes key);
  '(h, _) ← split_once Byte.x40 rest;
  parse_u64 h.
Definition push_height (m : gmap Z (list (ContentHash * string))) (height : Z) (p : ContentHash * string) : gmap Z (list (ContentHash * string)) :=
  <[height := default [] (m !! height) ++ [p]]> m.
Definition height_step (m : gmap Z (list (ContentHash * string))) (n : MemoryNode) : gmap Z (list (ContentHash * string)) :=
  match dag_key n with
  | Some key => match checkpoint_height key with Some h => push_height m h (compute_id n, key) | None => m end
  | None => m
  end.

Definition is_watched (tx : TxRecord) : bool :=
  bool_decide (tx_from tx ∈ watch) || match tx_to tx with Some t => bool_decide (t ∈ watch) | None => false end.

Definition event_content (tx : TxRecord) (number : Z) : string :=
  "tx " +:+ tx_hash tx +:+ ": " +:+ tx_from tx +:+ " -> " +:+ default "create" (tx_to tx) +:+ " value " +:+ decimal (tx_value_wei tx)
  +:+ " wei in block " +:+ decimal number +:+ " on chain " +:+ decimal chain_id.

Definition counterparties (tx : TxRecord) : list string := sort_by_key id (remove_dups (tx_from tx :: option_list (tx_to tx))).

(** One transaction: its node, the edge from the checkpoint and those to known contracts *)
Definition tx_step (contract_ids : gmap string ContentHash) (cp_id : ContentHash) (valid_from : Timestamp) (number : Z)
    (g : list MemoryNode * list Edge * nat) (tx : TxRecord) : result IngestError (list MemoryNode * list Edge * nat) :=
  let '(nodes, edges, events) := g in
  if negb (is_watched tx) then Ok g
  else
    let? ev := chain_node ChainEvent (event_key chain_id (tx_hash tx)) (event_content tx number) valid_from now_ms em in
    let ev_id := compute_id ev in
    let touches := omap (λ addr, (λ cid, make_edge ev_id cid Touches Ingest now_ms (Some addr)) <$> contract_ids !! addr) (counterparties tx) in
    Ok (nodes ++ [ev], edges ++ [make_edge cp_id ev_id Emits Ingest now_ms (Some (tx_hash tx))] ++ touches, S events).

Definition checkpoint_content (b : BlockRecord) : string :=
  "block " +:+ decimal (bk_number b) +:+ " on chain " +:+ decimal chain_id +:+ " hash " +:+ bk_hash b +:+ " parent " +:+ bk_parent_hash b.

(** The edges that retire other checkpoints of the height *)
Definition reorg_edges (cp_id : ContentHash) (cp_key : string) (prior : list (ContentHash * string)) : list Edge :=
  omap (λ p, if bool_decide (p.2 = cp_key) then None
             else Some (make_edge cp_id p.1 Supersedes Ingest now_ms (Some "re-org: same height, new hash"))) prior.
(** The link to the block before, when the hashes chain *)
Definition spine_edge (cp_id : ContentHash) (prev : option (string * ContentHash)) (parent_hash : string) : list Edge :=
  match prev with
  | Some (prev_hash, prev_id) =>
    if bool_decide (prev_hash = parent_hash) then [make_edge cp_id prev_id TemporalNext Ingest now_ms (Some prev_hash)] else []
  | None => []
  end.

Definition block_graph (contract_ids : gmap string ContentHash) (w : Walk) (b : BlockRecord)
    : result IngestError (MemoryNode * list MemoryNode * list Edge * nat) :=
  let valid_from := saturating_mul64 (bk_timestamp_secs b) 1000 in
  let? cp := chain_node Node.ChainCheckpoint (checkpoint_key chain_id (bk_number b) (bk_hash b)) (checkpoint_content b) valid_from now_ms em in
  let? g := rfold (tx_step contract_ids (compute_id cp) valid_from (bk_number b)) ([cp], spine_edge (compute_id cp) (wk_prev w) (bk_parent_hash b), O) (bk_txs b) in
  Ok (cp, g.1.1, g.1.2, g.2).

Definition walk_block (contract_ids : gmap string ContentHash) (w : Walk) (b : BlockRecord) : stm T IngestError Walk :=
  let! g := slift (block_graph contract_ids w b) in
  let '(cp, nodes, edges, events) := g in
  let cp_id := compute_id cp in
  let cp_key := checkpoint_key chain_id (bk_number b) (bk_hash b) in
  let supersessions := reorg_edges cp_id cp_key (default [] (wk_by_height w !! bk_number b)) in
  let! _ := on_store (ms_commit nodes edges) in
  let! counts := apply_supersessions supersessions in
  let cursor := {| cu_chain_id := chain_id; cu_next_block := inc64 (bk_number b) |} in
  let! _ := write_chain_cursor cursor in
  sret {| wk_cursor := cursor; wk_by_height := push_height (wk_by_height w) (bk_number b) (cp_id, cp_key);
          wk_prev := Some (bk_hash b, cp_id); wk_blocks := S (wk_blocks w); wk_events := wk_events w + events;
          wk_reorgs := wk_reorgs w + counts.1; wk_rejected := wk_rejected w + counts.2 |}.

(** The loop over [n..=to_block]; [None] when the fuel runs out *)
Fixpoint walk_blocks (contract_ids : gmap string ContentHash) (to_block : Z) (fuel : nat) (n : Z) (w : Walk) (t : T) : option (T * result IngestError Walk) :=
  if to_block <? n then Some (t, Ok w)
  else
    match fuel with
    | O => None
    | S fuel =>
      match source n with
      | Err e => Some (t, Err e)
      | Ok None => Some (t, Ok w)
      | Ok (Some b) =>
        match walk_block contract_ids w b t with
        | (t, Err e) => Some (t, Err e)
        | (t, Ok w) => walk_blocks contract_ids to_block fuel (inc64 n) w t
        end
      end
    end.

Definition events_start (from_block : option Z) (t : T) : result IngestError Z :=
  match from_block with
  | Some b => Ok b
  | None => rmap (λ o, default 0 (cu_next_block <$> o)) (read_chain_cursor t chain_id)
  end.

Definition first_walk (start : Z) (checkpoints : list MemoryNode) : Walk :=
  {| wk_cursor := {| cu_chain_id := chain_id; cu_next_block := start |}; wk_by_height := foldl height_step ∅ checkpoints;
     wk_prev := None; wk_blocks := 0; wk_events := 0; wk_reorgs := 0; wk_rejected := 0 |}.
Definition event_report (w : Walk) : ChainEventReport :=
  {| ev_blocks := wk_blocks w; ev_events := wk_events w; ev_reorgs_superseded := wk_reorgs w;
     ev_supersessions_rejected := wk_rejected w; ev_cursor := wk_cursor w |}.

(** [ingest_chain_events] after the watch list is normalized; the fuel is the number of
    heights up to [to_block]. *)
Definition walk_events (from_block : option Z) (to_block : Z) (t : T) : option (T * result IngestError ChainEventReport) :=
  match (let? start := events_start from_block t in
         let? contracts := active_chain_nodes t ChainContract in
         let? checkpoints := active_chain_nodes t Node.ChainCheckpoint in
         Ok (start, contracts, checkpoints)) with
  | Err e => Some (t, Err e)
  | Ok (start, contracts, checkpoints) =>
    (λ p, (p.1, rmap event_report p.2)) <$>
      walk_blocks (foldl contract_step ∅ contracts) to_block (Z.to_nat (to_block - start + 1)) start (first_walk start checkpoints) t
  end.
End runs.

Definition ingest_chain_events {T} `{MemStore T, Blake3, Serde EventCursor} (source : BlockSource) (chain_id : Z) (watch : list string)
    (from_block : option Z) (to_block : Z) (em : Embedder) (now_ms : Timestamp) (t : T) : option (T * result IngestError ChainEventReport) :=
  walk_events source chain_id (list_to_set (norm_hex <$> watch)) em now_ms from_block to_block t.
