(* ===== verification/ChainIngestProps.v ===== *)
(** * What chain ingestion does to a store

    The walk over a block range stops exactly where its source stops, with everything up to
    the cursor in the store; and what a catalog run leaves behind. *)

From S2P Require Import Prelude Bytes Externs Text Str Belnap Identity Node Float Edge Trailers Frontmatter Index.
From S2P Require Import Kv Shred Store StoreSpec StoreContents Supersession StoreInterface Assert Query QueryProps Search Display Sync SyncAnchor SyncChain.
From S2P Require Import Git Docs Ingest IngestBuild IngestProps ChainIngest.

Section chain_props.
Context {T : Type} `{MemStore T, Blake3, Hex, Serde Watermark, Serde EventCursor, SerdeJson, !MemStoreLaws T}.
Context (source : BlockSource) (chain_id : Z) (watch : gset string) (em : Embedder).

Implicit Types (t : T) (c : conts).

(** serde_json reads a cursor back, and does not take one for an envelope. *)
Class CursorSerdeLaws : Prop :=
  cursor_to_vec : ∀ cu : EventCursor, ∃ b, to_vec cu = Ok b ∧ from_slice b = Ok cu ∧ ms_meta_value b.

(** ** The graph of a block *)

Lemma chain_node_ok kind key content vf now : total_embedder em → ∃ n, chain_node kind key content vf now em = Ok n ∧
  json_repr n ∧ compute_id n = compute_id (bare_chain kind key content 0 0).
Proof.
  intros Hem. unfold chain_node. destruct (Hem content) as (v & -> & Hv). eexists. split; [done|]. split; [exact Hv|].
  rewrite compute_id_embedding. by apply compute_id_identity.
Qed.

(** The ids of the nodes of a block do not depend on when and by whom it is read. *)
Definition checkpoint_id (b : BlockRecord) : ContentHash :=
  compute_id (bare_chain Node.ChainCheckpoint (checkpoint_key chain_id (bk_number b) (bk_hash b)) (checkpoint_content chain_id b) 0 0).
Definition event_id (b : BlockRecord) (tx : TxRecord) : ContentHash :=
  compute_id (bare_chain ChainEvent (event_key chain_id (tx_hash tx)) (event_content chain_id tx (bk_number b)) 0 0).

(** A block is in the store: its checkpoint, and every watched transaction with the edge
    that says the block emitted it. *)
Definition witnessed c (b : BlockRecord) : Prop :=
  checkpoint_id b ∈ dom (c_nodes c) ∧
  ∀ tx, tx ∈ bk_txs b → is_watched watch tx = true →
    event_id b tx ∈ dom (c_nodes c) ∧ (checkpoint_id b, event_id b tx, Emits) ∈ dom (c_edges c).

(** Nodes and edges are never lost. *)
Definition grows c c' : Prop := dom (c_nodes c) ⊆ dom (c_nodes c') ∧ dom (c_edges c) ⊆ dom (c_edges c').
Lemma witnessed_grows c c' b : grows c c' → witnessed c b → witnessed c' b.
Proof. intros [Hn He] [Hc Hx]. split; [by apply Hn|]. intros tx Hin Hw. destruct (Hx tx Hin Hw). split; [by apply Hn|by apply He]. Qed.
Lemma grows_trans c1 c2 c3 : grows c1 c2 → grows c2 c3 → grows c1 c3.
Proof. intros [? ?] [? ?]. split; by etrans. Qed.

Lemma tx_steps_ok ids b cp_id vf now txs ns es k : total_embedder em → Forall json_repr ns → cp_id = checkpoint_id b →
  ∃ ns' es' k', rfold (tx_step chain_id watch em now ids cp_id vf (bk_number b)) (ns, es, k) txs = Ok (ns', es', k') ∧
    Forall json_repr ns' ∧ ns ⊆ ns' ∧ es ⊆ es' ∧
    ∀ tx, tx ∈ txs → is_watched watch tx = true →
      event_id b tx ∈ compute_id <$> ns' ∧ (checkpoint_id b, event_id b tx, Emits) ∈ edge_ident <$> es'.
Proof.
  intros Hem Hj ->. revert ns es k Hj. induction txs as [|tx txs IH]; intros ns es k Hj.
  { exists ns, es, k. split_and!; try done. intros tx Hin. by apply not_elem_of_nil in Hin. }
  cbn [rfold]. unfold tx_step at 1. destruct (is_watched watch tx) eqn:Hw; cbn [negb rbind].
  - destruct (chain_node_ok ChainEvent (event_key chain_id (tx_hash tx)) (event_content chain_id tx (bk_number b)) vf now Hem) as (ev & Hev & Hje & Hid).
    rewrite Hev. cbn [rbind]. fold (event_id b tx) in Hid. rewrite Hid.
    destruct (IH (ns ++ [ev]) (es ++ [make_edge (checkpoint_id b) (event_id b tx) Emits Ingest now (Some (tx_hash tx))] ++
        omap (λ addr, (λ cid, make_edge (event_id b tx) cid Touches Ingest now (Some addr)) <$> ids !! addr) (counterparties tx)) (S k))
      as (ns' & es' & k' & Hf & Hj' & Hn & He & Htx).
    { apply Forall_app. split; [done|by apply Forall_singleton]. }
    exists ns', es', k'. split_and!; [done|done| | |].
    + intros x Hx. apply Hn. set_solver.
    + intros x Hx. apply He. set_solver.
    + intros x [->|Hx]%elem_of_cons Hwx; [|by apply Htx]. split; apply list_elem_of_fmap; [exists ev; split; [done|apply Hn; set_solver]|].
      eexists. split; [|apply He, elem_of_app; right; apply elem_of_app; left; by apply list_elem_of_singleton]. done.
  - destruct (IH ns es k Hj) as (ns' & es' & k' & Hf & Hj' & Hn & He & Htx). exists ns', es', k'. split_and!; try done.
    intros x [->|Hx]%elem_of_cons Hwx; [congruence|by apply Htx].
Qed.

Lemma block_graph_ok ids w b now : total_embedder em → ∃ cp ns es k, block_graph chain_id watch em now ids w b = Ok (cp, ns, es, k) ∧
  compute_id cp = checkpoint_id b ∧ Forall json_repr ns ∧ cp ∈ ns ∧
  ∀ tx, tx ∈ bk_txs b → is_watched watch tx = true →
    event_id b tx ∈ compute_id <$> ns ∧ (checkpoint_id b, event_id b tx, Emits) ∈ edge_ident <$> es.
Proof.
  intros Hem. unfold block_graph.
  destruct (chain_node_ok Node.ChainCheckpoint (checkpoint_key chain_id (bk_number b) (bk_hash b)) (checkpoint_content chain_id b)
              (saturating_mul64 (bk_timestamp_secs b) 1000) now Hem) as (cp & -> & Hj & Hid). cbn [rbind].
  destruct (tx_steps_ok ids b (compute_id cp) (saturating_mul64 (bk_timestamp_secs b) 1000) now (bk_txs b) [cp]
              (spine_edge now (compute_id cp) (wk_prev w) (bk_parent_hash b)) O Hem) as (ns & es & k & -> & Hj' & Hn & _ & Htx); [by apply Forall_singleton|done|].
  exists cp, ns, es, k. split_and!; [done|done|done| |done]. apply Hn. by left.
Qed.

(** ** One block *)

Lemma cursor_key_watermark : cursor_key chain_id ≠ watermark_key CHAIN_STATE_TENANT.
Proof. done. Qed.

Lemma write_cursor_ok `{!CursorSerdeLaws} cu t c : ms_holds t c → ms_sealing t = false →
  ∃ t' b, write_chain_cursor cu t = (t', Ok tt) ∧ ms_holds t' (c_put_meta (cursor_key (cu_chain_id cu)) b c) ∧ ms_sealing t' = false ∧ from_slice b = Ok cu.
Proof.
  intros Ht Hs. destruct (cursor_to_vec cu) as (b & Hto & Hfrom & Hmv). unfold write_chain_cursor, sbind, slift. rewrite Hto. cbn [map_err].
  destruct (ms_put_meta_ok t c CHAIN_STATE_TENANT (cursor_key (cu_chain_id cu)) b Ht (λ _, Hmv)) as (t' & r & Hp & Hs' & Hr).
  unfold on_store, smap_err. rewrite Hp. destruct r as [[]|]; [|destruct Hr; congruence]. destruct Hr as [_ Ht'].
  exists t', b. split_and!; [done|done|congruence|done].
Qed.

(** Where the stored cursor of the chain stands *)
Definition cursor_at t (n : Z) : Prop := read_chain_cursor t chain_id = Ok (Some {| cu_chain_id := chain_id; cu_next_block := n |}).

Lemma walk_block_ok `{!CursorSerdeLaws} ids w b now t c : ms_holds t c → ms_sealing t = false → total_embedder em →
  ∃ t' w' c', walk_block chain_id watch em now ids w b t = (t', Ok w') ∧ ms_holds t' c' ∧ ms_sealing t' = false ∧ grows c c' ∧ witnessed c' b ∧
    cursor_at t' (inc64 (bk_number b)) ∧ wk_cursor w' = {| cu_chain_id := chain_id; cu_next_block := inc64 (bk_number b) |} ∧
    wk_blocks w' = S (wk_blocks w).
Proof.
  intros Ht Hs Hem. unfold walk_block. destruct (block_graph_ok ids w b now Hem) as (cp & ns & es & k & Hg & Hid & Hj & Hcp & Htx).
  rewrite (sbind_ok _ _ t t (cp, ns, es, k)) by (unfold slift; by rewrite Hg).
  destruct (ms_commit_ok t c ns es Ht Hj) as (t1 & r1 & Hc & Hs1 & Hr1). destruct r1 as [[]|]; [|destruct Hr1; congruence].
  destruct Hr1 as [_ Ht1]. rewrite (sbind_ok _ _ t t1 tt) by (unfold on_store, smap_err; by rewrite Hc).
  set (sups := reorg_edges _ _ _ _).
  destruct (apply_supersessions_ok sups t1 _ (O, O) Ht1 ltac:(congruence)) as (t2 & x & c1 & Ha & Ht2 & Hs2 & Hrun).
  rewrite (sbind_ok _ _ t1 t2 x) by exact Ha.
  set (cu := {| cu_chain_id := chain_id; cu_next_block := inc64 (bk_number b) |}).
  destruct (write_cursor_ok cu t2 c1 Ht2 Hs2) as (t3 & v & Hw & Ht3 & Hs3 & Hv). rewrite (sbind_ok _ _ t2 t3 tt) by exact Hw.
  destruct (commit_dom c ns es) as (Dn & _ & De & _).
  destruct (sups_run_dom _ _ _ Hrun (commit_ids t c ns es Ht)) as (Sn & _ & _ & _ & _ & [Se _]).
  eexists t3, _, _. split; [done|]. split; [exact Ht3|]. split_and!; [done| | | |done|done].
  - split; cbn [c_nodes c_edges c_put_meta]; [rewrite Sn, Dn; apply union_subseteq_l|]. etrans; [|exact Se]. rewrite De. apply union_subseteq_l.
  - split; cbn [c_nodes c_edges c_put_meta].
    + rewrite Sn, Dn, <- Hid. apply elem_of_union_r, elem_of_list_to_set, list_elem_of_fmap. by exists cp.
    + intros tx Hin Hwx. destruct (Htx tx Hin Hwx) as [Hn He]. split.
      * rewrite Sn, Dn. by apply elem_of_union_r, elem_of_list_to_set.
      * apply Se. rewrite De. by apply elem_of_union_r, elem_of_list_to_set.
  - unfold cursor_at, read_chain_cursor. rewrite (ms_get_meta_ok _ _ _ Ht3). unfold c_put_meta. cbn [c_meta map_err rbind cu_chain_id cu].
    rewrite lookup_insert_eq, Hv. done.
Qed.

(** ** The walk *)

(** The source answers a height with the block of that height. *)
Definition honest_source : Prop := ∀ n b, source n = Ok (Some b) → bk_number b = n.

(** A walk that started at [n] got [k] blocks far and left the contents [c']. *)
Record walked c (n : Z) (k : nat) c' : Prop := {
  wd_grows : grows c c';
  wd_blocks : ∀ i, n ≤ i < n + Z.of_nat k → ∃ b, source i = Ok (Some b) ∧ witnessed c' b;
}.

Lemma inc64_small n : 0 ≤ n < u64_max → inc64 n = n + 1.
Proof. intros Hn. unfold inc64. apply Z.mod_small. unfold u64_max in Hn. lia. Qed.

Lemma walk_ok `{!CursorSerdeLaws} ids to now fuel n w t c : ms_holds t c → ms_sealing t = false → total_embedder em → honest_source →
  0 ≤ n → to < u64_max → (Z.to_nat (to - n + 1) ≤ fuel)%nat → cu_chain_id (wk_cursor w) = chain_id → cu_next_block (wk_cursor w) = n →
  ∃ t' r c' k, walk_blocks source chain_id watch em now ids to fuel n w t = Some (t', r) ∧ ms_holds t' c' ∧ walked c n k c' ∧
    (if decide (k = 0%nat) then t' = t else cursor_at t' (n + Z.of_nat k)) ∧
    match r with
    | Ok w' => wk_blocks w' = (wk_blocks w + k)%nat ∧ wk_cursor w' = {| cu_chain_id := chain_id; cu_next_block := n + Z.of_nat k |} ∧
               (to < n + Z.of_nat k ∨ source (n + Z.of_nat k) = Ok None)
    | Err e => n + Z.of_nat k ≤ to ∧ source (n + Z.of_nat k) = Err e
    end.
Proof.
  intros Ht Hs Hem Hsrc Hn0 Hto. revert n w t c Ht Hs Hn0. induction fuel as [|fuel IH]; intros n w t c Ht Hs Hn0 Hfuel Hci Hcn.
  all: assert (wk_cursor w = {| cu_chain_id := chain_id; cu_next_block := n + 0 |}) as Hcu by (destruct (wk_cursor w); cbn in *; subst; by rewrite Z.add_0_r).
  all: assert (walked c n 0 c) as H0' by (split; [by split|intros i Hi; lia]).
  - cbn [walk_blocks]. destruct (Z.ltb_spec to n) as [Hlt|Hle]; [|lia]. exists t, (Ok w), c, 0%nat. split_and!; try done; try lia.
  - cbn [walk_blocks]. destruct (Z.ltb_spec to n) as [Hlt|Hle].
    { exists t, (Ok w), c, 0%nat. split_and!; try done; try lia. }
    destruct (source n) as [[b|]|e] eqn:Hb.
    2:{ exists t, (Ok w), c, 0%nat. split_and!; try done; try lia. right. by rewrite Z.add_0_r. }
    2:{ exists t, (Err e), c, 0%nat. split_and!; try done; try lia. by rewrite Z.add_0_r. }
    destruct (walk_block_ok ids w b now t c Ht Hs Hem) as (t1 & w1 & c1 & -> & Ht1 & Hs1 & Hg & Hw & Hcur & Hw1 & Hbl).
    rewrite (Hsrc n b Hb) in *. rewrite inc64_small in * by lia.
    destruct (IH (n + 1) w1 t1 c1 Ht1 Hs1) as (t' & r & c' & k & Hwk & Ht' & [Hg' Hbs] & Hc' & Hr); [lia|lia|by rewrite Hw1|by rewrite Hw1|].
    exists t', r, c', (S k). replace (n + Z.of_nat (S k)) with (n + 1 + Z.of_nat k) by lia. split_and!; [done|done| | |].
    + split; [by eapply grows_trans|]. intros i Hi. destruct (decide (i = n)) as [->|Hne]; [|apply Hbs; lia].
      exists b. split; [done|]. by eapply witnessed_grows.
    + cbn. destruct (decide (k = 0%nat)) as [->|Hk]; [subst t'; by rewrite Z.add_0_r|done].
    + destruct r as [w'|e]; [|done]. destruct Hr as (Hk & Hrest). split; [lia|done].
Qed.


(** A transcript answers a height with its own block. *)
Lemma transcript_honest json blocks : from_transcript json = Ok blocks → ∀ n b, FixtureBlockSource blocks n = Ok (Some b) → bk_number b = n.
Proof.
  unfold from_transcript. intros (v & _ & (rs & _ & Hf)%rbind_ok)%rbind_ok.
  assert (∀ rs (m : gmap Z BlockRecord), (∀ n b, m !! n = Some b → bk_number b = n) →
    rfold (λ blocks r, let? b := parse_rpc_block r in Ok (<[bk_number b := b]> blocks)) m rs = Ok blocks → ∀ n b, blocks !! n = Some b → bk_number b = n) as Hx.
  { clear. induction rs as [|r rs IH]; intros m Hm Hr; cbn [rfold] in Hr; [by injection Hr as <-|].
    apply rbind_ok in Hr as (m' & (b0 & _ & [= <-])%rbind_ok & Hr). eapply IH; [|exact Hr]. intros n b Hb.
    rewrite lookup_insert in Hb. case_decide; [congruence|by apply Hm]. }
  intros n b [= Hb]. by eapply (Hx rs ∅).
Qed.

(** The first block of a run is never linked to the one before it: a walk in two runs lacks
    an edge that the walk in one run has. *)
Lemma resume_breaks_spine start checkpoints ids b now cp ns es k :
  block_graph chain_id watch em now ids (first_walk chain_id start checkpoints) b = Ok (cp, ns, es, k) → Forall (λ e, e_kind e ≠ TemporalNext) es.
Proof.
  unfold block_graph. intros (cp' & _ & ([[ns' es'] k'] & Hf & [= <- <- <- <-])%rbind_ok)%rbind_ok. cbn [spine_edge first_walk wk_prev] in Hf.
  cbn [fst snd]. revert Hf. generalize ([cp'] : list MemoryNode), O. assert (Forall (λ e, e_kind e ≠ TemporalNext) ([] : list Edge)) as H0' by constructor.
  revert H0'. generalize ([] : list Edge). induction (bk_txs b) as [|tx txs IH]; intros es0 H0' ns0 k0 Hf; cbn [rfold] in Hf; [by injection Hf as <- <- <-|].
  apply rbind_ok in Hf as ([[ns1 es1] k1] & Ht & Hf). eapply IH, Hf. unfold tx_step in Ht. destruct (is_watched watch tx); [|by injection Ht as <- <- <-].
  apply rbind_ok in Ht as (ev & _ & [= <- <- <-]). apply Forall_app. split; [done|]. apply Forall_cons. split; [done|].
  apply Forall_forall. intros e (addr & _ & He)%list_elem_of_omap. apply fmap_Some in He as (cid & _ & ->). done.
Qed.

(** ** The catalog *)

Definition network_id (cat : ChainCatalog) : ContentHash := compute_id (bare_chain ChainNetwork (network_key (ct_chain_id cat)) (network_content cat) 0 0).
Definition contract_id (cat : ChainCatalog) (e : CatalogEntry) : ContentHash :=
  compute_id (bare_chain ChainContract (contract_key (ct_chain_id cat) e) (contract_content (ct_chain_id cat) e) 0 0).

Lemma chain_node_key kind key content vf now n : chain_node kind key content vf now em = Ok n → n_kind n = kind ∧ dag_key n = Some key.
Proof. unfold chain_node. by intros (v & _ & [= <-])%rbind_ok. Qed.

Lemma catalog_graph_ok cat now : total_embedder em → ∃ ns es, build_catalog_graph cat now em = Ok (ns, es) ∧ Forall json_repr ns ∧
  length ns = S (length (ct_entries cat)) ∧ network_id cat ∈ compute_id <$> ns ∧
  ∀ e, e ∈ ct_entries cat →
    (∃ n, n ∈ ns ∧ compute_id n = contract_id cat e ∧ n_kind n = ChainContract ∧ dag_key n = Some (contract_key (ct_chain_id cat) e)) ∧
    (contract_id cat e, network_id cat, References) ∈ edge_ident <$> es.
Proof.
  intros Hem. unfold build_catalog_graph.
  destruct (chain_node_ok ChainNetwork (network_key (ct_chain_id cat)) (network_content cat) now now Hem) as (net & -> & Hj & Hid). cbn [rbind].
  fold (network_id cat) in Hid. rewrite Hid.
  assert (∀ entries ns es, Forall json_repr ns → ∃ ns' es', rfold (catalog_step cat (network_id cat) now em) (ns, es) entries = Ok (ns', es') ∧
    Forall json_repr ns' ∧ length ns' = (length ns + length entries)%nat ∧ ns ⊆ ns' ∧ es ⊆ es' ∧
    ∀ e, e ∈ entries →
      (∃ n, n ∈ ns' ∧ compute_id n = contract_id cat e ∧ n_kind n = ChainContract ∧ dag_key n = Some (contract_key (ct_chain_id cat) e)) ∧
      (contract_id cat e, network_id cat, References) ∈ edge_ident <$> es') as Hx.
  { induction entries as [|e entries IH]; intros ns es Hns.
    { exists ns, es. split_and!; try done; try (cbn; lia). intros e He. by apply not_elem_of_nil in He. }
    cbn [rfold]. unfold catalog_step at 1.
    destruct (chain_node_ok ChainContract (contract_key (ct_chain_id cat) e) (contract_content (ct_chain_id cat) e) now now Hem) as (n & Hn & Hjn & Hidn).
    destruct (chain_node_key _ _ _ _ _ _ Hn) as [Hkind Hkey]. rewrite Hn. cbn [rbind fst snd].
    destruct (IH (ns ++ [n]) (es ++ [make_edge (compute_id n) (network_id cat) References Ingest now (Some "deployed-on")])) as (ns' & es' & Hf & Hj' & Hl & Hsn & Hse & Hall).
    { apply Forall_app. split; [done|by apply Forall_singleton]. }
    exists ns', es'. split_and!; [done|done|rewrite Hl, length_app; cbn; lia|set_solver|set_solver|].
    intros e' [->|He']%elem_of_cons; [|by apply Hall]. split; [exists n; split_and!; [set_solver|done..]|].
    apply list_elem_of_fmap. eexists. split; [|apply Hse, elem_of_app; right; by left]. unfold edge_ident. cbn. by rewrite Hidn. }
  destruct (Hx (ct_entries cat) [net] []) as (ns & es & -> & Hj' & Hl & Hsn & _ & Hall); [by apply Forall_singleton|].
  exists ns, es. split_and!; [done|done|done| |done]. apply list_elem_of_fmap. exists net. split; [done|]. apply Hsn. by left.
Qed.

Lemma prior_spec (ns : list MemoryNode) k p : foldl prior_step ∅ ns !! k = Some p →
  ∃ n, n ∈ ns ∧ p.1 = compute_id n ∧ dag_key n = Some p.2 ∧ k = contract_logical_key p.2.
Proof.
  assert (∀ m, (∀ j q, m !! j = Some q → ∃ n, n ∈ ns ∧ q.1 = compute_id n ∧ dag_key n = Some q.2 ∧ j = contract_logical_key q.2) → ∀ l, l ⊆ ns →
    ∀ j q, foldl prior_step m l !! j = Some q → ∃ n, n ∈ ns ∧ q.1 = compute_id n ∧ dag_key n = Some q.2 ∧ j = contract_logical_key q.2) as Hx.
  { intros m Hm l. revert m Hm. induction l as [|n l IH]; intros m Hm Hl; [done|]. cbn [foldl]. apply IH; [|set_solver].
    intros j q Hq. unfold prior_step in Hq. destruct (dag_key n) as [key|] eqn:Hk; [|by apply Hm].
    rewrite lookup_insert in Hq. case_decide; [|by apply Hm]. injection Hq as <-. exists n. split_and!; [apply Hl; by left|done..]. }
  apply (Hx ∅); [|done]. intros j q Hq. by rewrite lookup_empty in Hq.
Qed.

(** The contract nodes that were current before a run *)
Definition current_contract c (n : MemoryNode) (key : string) : Prop :=
  c_nodes c !! compute_id n = Some n ∧ n_repo n = CHAIN_STATE_TENANT ∧ n_kind n = ChainContract ∧ n_status n = Active ∧ dag_key n = Some key.

Lemma prior_total (ns : list MemoryNode) n key : n ∈ ns → dag_key n = Some key → is_Some (foldl prior_step ∅ ns !! contract_logical_key key).
Proof.
  intros Hn Hk. generalize (∅ : gmap string (ContentHash * string)). revert Hn.
  assert (∀ l m j, is_Some (m !! j) → is_Some (foldl prior_step m l !! j)) as Hkeep.
  { induction l as [|x l IH]; intros m j Hm; [done|]. cbn [foldl]. apply IH. unfold prior_step. destruct (dag_key x); [|done].
    rewrite lookup_insert. case_decide; [by eexists|done]. }
  induction ns as [|x ns IH]; intros Hn m; [by apply not_elem_of_nil in Hn|]. cbn [foldl]. apply elem_of_cons in Hn as [<-|Hn]; [|by apply IH].
  apply Hkeep. unfold prior_step. rewrite Hk, lookup_insert_eq. by eexists.
Qed.

Lemma active_chain_spec t c kind : ms_holds t c → ∃ ns, active_chain_nodes t kind = Ok ns ∧
  ∀ n, n ∈ ns ↔ c_nodes c !! compute_id n = Some n ∧ n_repo n = CHAIN_STATE_TENANT ∧ n_kind n = kind ∧ n_status n = Active.
Proof.
  intros Ht. destruct (ms_all_nodes_ok t c Ht) as (ns & Hns & _ & _ & Hin). unfold active_chain_nodes. rewrite Hns. eexists. split; [done|].
  intros n. rewrite list_elem_of_filter, Hin. tauto.
Qed.

Lemma redeploy_some prior now n e : redeploy prior now n = Some e → ∃ key p, dag_key n = Some key ∧ n_kind n = ChainContract ∧
  prior !! contract_logical_key key = Some p ∧ p.2 ≠ key ∧ e = make_edge (compute_id n) p.1 Supersedes Ingest now (Some "catalog redeploy: same (group, name), new address").
Proof.
  unfold redeploy. case_bool_decide as Hkind; [|done]. destruct (dag_key n) as [key|]; [|done]. cbn.
  destruct (prior !! contract_logical_key key) as [[oid okey]|] eqn:Hp; [|done]. cbn. case_bool_decide; [done|]. intros [= <-].
  by exists key, (oid, okey).
Qed.

Lemma put_tenant_watermark_ok `{!WatermarkSerdeLaws} tenant w t c : ms_holds t c → ms_sealing t = false →
  ∃ t' b, put_tenant_watermark tenant w t = (t', Ok tt) ∧ ms_holds t' (c_put_meta (watermark_key tenant) b c) ∧ ms_sealing t' = false ∧
          read_watermark t' tenant = Ok (Some w).
Proof.
  intros Ht Hs. destruct (put_watermark_ok (with_embedder tenant em) (watermark_key tenant) w t c Ht Hs) as (t' & b & Hp & Ht' & Hs' & Hb).
  exists t', b. split_and!; [exact Hp|done|done|]. unfold read_watermark. rewrite (ms_get_meta_ok _ _ _ Ht'). cbn. rewrite lookup_insert_eq. cbn. by rewrite Hb.
Qed.

(** A catalog run succeeds and is complete: on a plain store, with an embedder that
    answers, a catalog that parses leaves its network, every contract at its address and
    the edge that says where it is deployed in the store, the watermark is the hash of the
    text, and a contract that was current at another address, and at no second one, is
    superseded by the new node, unless that would close a cycle of supersessions. *)
Theorem catalog_ingested `{!WatermarkSerdeLaws} json now cat t c (Ht : ms_holds t c) (Hs : ms_sealing t = false) (Hem : total_embedder em)
    (Hcat : parse_catalog json = Ok cat) :
  ∃ t' rep c', ingest_chain_catalog_str json em now t = (t', Ok rep) ∧ ms_holds t' c' ∧ grows c c' ∧
    cc_contracts rep = length (ct_entries cat) ∧ read_watermark t' CHAIN_STATE_TENANT = Ok (Some (cc_watermark rep)) ∧
    w_head (cc_watermark rep) = Some (blake3_to_hex (blake3 (as_bytes json))) ∧
    network_id cat ∈ dom (c_nodes c') ∧
    ∀ e, e ∈ ct_entries cat →
      contract_id cat e ∈ dom (c_nodes c') ∧ (contract_id cat e, network_id cat, References) ∈ dom (c_edges c') ∧
      ∀ n key, current_contract c n key → key ≠ contract_key (ct_chain_id cat) e →
        contract_logical_key key = contract_logical_key (contract_key (ct_chain_id cat) e) →
        (∀ n' key', current_contract c n' key' → contract_logical_key key' = contract_logical_key key → n' = n) →
        (contract_id cat e, compute_id n, Supersedes) ∈ dom (c_edges c') ∨ rtc (c_hop c' Supersedes) (compute_id n) (contract_id cat e).
Proof.
  destruct (catalog_graph_ok cat now Hem) as (ns & es & Hg & Hj & Hlen & Hnet & Hent).
  destruct (active_chain_spec t c ChainContract Ht) as (olds & Holds & Hin). set (prior := foldl prior_step ∅ olds). set (sups := omap (redeploy prior now) ns).
  destruct (ms_commit_ok t c ns es Ht Hj) as (t1 & r1 & Hc & Hs1 & Hr1). destruct r1 as [[]|]; [|destruct Hr1; congruence]. destruct Hr1 as [_ Ht1].
  destruct (apply_supersessions_ok sups t1 _ (O, O) Ht1 ltac:(congruence)) as (t2 & x & c1 & Ha & Ht2 & Hs2 & Hrun).
  set (w := {| w_repo := CHAIN_STATE_TENANT; w_head := Some (blake3_to_hex (blake3 (as_bytes json))); w_head_count := length ns; w_ingested_at_ms := now |}).
  destruct (put_tenant_watermark_ok CHAIN_STATE_TENANT w t2 c1 Ht2 Hs2) as (t3 & v & Hw & Ht3 & Hs3 & Hrw).
  destruct (commit_dom c ns es) as (Dn & Dk & De & _). pose proof (commit_ids t c ns es Ht) as Hids.
  destruct (sups_run_dom _ _ _ Hrun Hids) as (Sn & _ & _ & _ & _ & [Se _]).
  assert (Forall (derived_sup (c_commit c ns es)) sups) as Hds.
  { apply Forall_forall. intros e (n & Hn & He)%list_elem_of_omap. apply redeploy_some in He as (key & p & _ & _ & Hp & _ & ->).
    apply prior_spec in Hp as (o & Ho & Hpo & _). apply Hin in Ho as (Ho & _). unfold derived_sup. cbn. split_and!; [done..| |].
    - rewrite Dk. apply elem_of_union_r, elem_of_list_to_set, list_elem_of_fmap. by exists n.
    - rewrite Dn, Hpo. apply elem_of_union_l. by eapply elem_of_dom_2. }
  destruct (sups_run_decided _ _ _ Hrun Hids Hds) as [Hdec _].
  eexists t3, _, _. split.
  { unfold ingest_chain_catalog_str. rewrite (sbind_ok _ _ t t cat) by (unfold slift; by rewrite Hcat).
    rewrite (sbind_ok _ _ t t (ns, es)) by (unfold slift; by rewrite Hg). rewrite (sbind_ok _ _ t t olds) by (unfold sread; by rewrite Holds).
    cbv zeta. cbn [fst snd]. rewrite (sbind_ok _ _ t t1 tt) by (unfold on_store, smap_err; by rewrite Hc). rewrite (sbind_ok _ _ t1 t2 x) by exact Ha.
    rewrite (sbind_ok _ _ t2 t3 tt) by exact Hw. reflexivity. }
  split; [exact Ht3|]. cbn [c_nodes c_edges c_put_meta]. rewrite Sn, Dn. split_and!; [|done|done|done|by apply elem_of_union_r, elem_of_list_to_set|].
  { split; cbn [c_nodes c_edges c_put_meta]; [rewrite Sn, Dn; apply union_subseteq_l|]. etrans; [|exact Se]. rewrite De. apply union_subseteq_l. }
  intros e He. destruct (Hent e He) as [(n0 & Hn0 & Hid0 & Hk0 & Hd0) Hee]. split_and!.
  - apply elem_of_union_r, elem_of_list_to_set. rewrite <- Hid0. by apply list_elem_of_fmap_2.
  - apply Se. rewrite De. by apply elem_of_union_r, elem_of_list_to_set.
  - intros n key (Hn & Hrepo & Hkind & Hact & Hkey) Hne Hlk Huniq.
    assert (n ∈ olds) as Hno by (by apply Hin). destruct (prior_total olds n key Hno Hkey) as [p Hp]. fold prior in Hp.
    destruct (prior_spec olds _ p Hp) as (n' & Hn' & Hp1 & Hp2 & Hp3). apply Hin in Hn' as (? & ? & ? & ?).
    assert (n' = n) as -> by (apply (Huniq n' p.2); [done|congruence]). assert (p.2 = key) as Hpk by congruence.
    assert (make_edge (compute_id n0) p.1 Supersedes Ingest now (Some "catalog redeploy: same (group, name), new address") ∈ sups) as Hsup.
    { apply list_elem_of_omap. exists n0. split; [done|]. unfold redeploy. rewrite bool_decide_eq_true_2, Hd0 by done. cbn. rewrite <- Hlk, Hp. cbn.
      destruct p as [oid okey]. cbn in *. by rewrite bool_decide_eq_false_2 by congruence. }
    rewrite Forall_forall in Hdec. apply Hdec in Hsup. unfold decided, edge_ident in Hsup. cbn in Hsup. rewrite Hid0, Hp1 in Hsup. exact Hsup.
Qed.
End chain_props.
