(* ===== verification/Federation.v ===== *)
(** * The federation graph ([mem-ingest/src/federation.rs])

    The manifest of the federation read line by line, and its projection: one node per
    declared repository and one edge per declared dependency, in the reserved tenant
    [federation]. *)

From S2P Require Import Prelude Bytes Externs Text Str Belnap Identity Node Float Edge Index Kv Shred Store StoreContents Supersession StoreInterface Assert.
From S2P Require Import Query Search Display Sync SyncChain Git Docs Ingest ChainIngest Chars Trailers Frontmatter StoreSpec QueryProps SyncAnchor IngestBuild IngestProps ChainIngestProps.

Definition FEDERATION_TENANT : string := "federation".

Record ManifestRepo := { mr_name : bytes; mr_tier : bytes; mr_role : bytes; mr_visibility : bytes; mr_notes : bytes }.
(** A dependency: the consumer and the repository it depends on.  The derived order compares
    the fields in turn. *)
Record DriftDep := { dd_consumer : bytes; dd_dep_repo : bytes }.
Definition dep_fields (d : DriftDep) : bytes * bytes := (dd_consumer d, dd_dep_repo d).
#[export] Instance DriftDep_eq_dec : EqDecision DriftDep.
Proof. solve_decision. Defined.
#[export] Instance DriftDep_countable : Countable DriftDep.
Proof. by apply (inj_countable' dep_fields (λ '(c, r), {| dd_consumer := c; dd_dep_repo := r |})); intros []. Defined.
#[export] Instance DriftDep_ord : RustOrd DriftDep := λ d e, cmp (dep_fields d) (dep_fields e).
#[export] Instance DriftDep_ord_laws : RustOrdLaws DriftDep.
Proof. apply (inj_ord_laws dep_fields); [|done]. by intros [] [] [= -> ->]. Qed.

Inductive Section_ := InRepo (name : bytes) | InDrift | InOther.

Definition is_dquote (c : Z) : bool := c =? 0x22.
Definition is_bracket (c : Z) : bool := c =? 0x5d.
Definition unquote (s : bytes) : bytes := trim_matches is_dquote (trim s).

Definition empty_repo (name : bytes) : ManifestRepo := {| mr_name := name; mr_tier := []; mr_role := []; mr_visibility := []; mr_notes := [] |}.

(** The reader: repositories by name, dependencies, the table it is in and the dependency
    under construction *)
Record manifest_reader := {
  rd_repos : gmap bytes ManifestRepo;
  rd_deps : gset DriftDep;
  rd_section : Section_;
  rd_drift : option bytes * option bytes;
}.
Definition new_manifest_reader : manifest_reader := {| rd_repos := ∅; rd_deps := ∅; rd_section := InOther; rd_drift := (None, None) |}.

Definition flush_drift (r : manifest_reader) : gset DriftDep :=
  match rd_drift r with
  | (Some consumer, Some dep_repo) => {[{| dd_consumer := consumer; dd_dep_repo := dep_repo |}]} ∪ rd_deps r
  | _ => rd_deps r
  end.

Definition drift_header : bytes := as_bytes "[[drift]]".

Definition read_header (r : manifest_reader) (line : bytes) : manifest_reader :=
  let deps := flush_drift r in
  if bool_decide (line = drift_header) then {| rd_repos := rd_repos r; rd_deps := deps; rd_section := InDrift; rd_drift := (None, None) |}
  else
    match strip_prefix (as_bytes "[repos.") line with
    | Some rest =>
      let name := unquote (trim_end_matches is_bracket rest) in
      {| rd_repos := match rd_repos r !! name with Some _ => rd_repos r | None => <[name := empty_repo name]> (rd_repos r) end;
         rd_deps := deps; rd_section := InRepo name; rd_drift := (None, None) |}
    | None => {| rd_repos := rd_repos r; rd_deps := deps; rd_section := InOther; rd_drift := (None, None) |}
    end.

Definition set_field (key value : bytes) (m : ManifestRepo) : ManifestRepo :=
  if bool_decide (key = as_bytes "tier") then {| mr_name := mr_name m; mr_tier := value; mr_role := mr_role m; mr_visibility := mr_visibility m; mr_notes := mr_notes m |}
  else if bool_decide (key = as_bytes "role") then {| mr_name := mr_name m; mr_tier := mr_tier m; mr_role := value; mr_visibility := mr_visibility m; mr_notes := mr_notes m |}
  else if bool_decide (key = as_bytes "visibility") then {| mr_name := mr_name m; mr_tier := mr_tier m; mr_role := mr_role m; mr_visibility := value; mr_notes := mr_notes m |}
  else if bool_decide (key = as_bytes "notes") then {| mr_name := mr_name m; mr_tier := mr_tier m; mr_role := mr_role m; mr_visibility := mr_visibility m; mr_notes := value |}
  else m.

Definition set_drift (key value : bytes) (d : option bytes * option bytes) : option bytes * option bytes :=
  if bool_decide (key = as_bytes "consumer") then (Some value, d.2)
  else if bool_decide (key = as_bytes "dep_repo") then (d.1, Some value)
  else d.

Definition read_pair (r : manifest_reader) (key value : bytes) : manifest_reader :=
  match rd_section r with
  | InRepo name => {| rd_repos := alter (set_field key value) name (rd_repos r); rd_deps := rd_deps r; rd_section := rd_section r; rd_drift := rd_drift r |}
  | InDrift => {| rd_repos := rd_repos r; rd_deps := rd_deps r; rd_section := rd_section r; rd_drift := set_drift key value (rd_drift r) |}
  | InOther => r
  end.

Definition read_manifest_line (r : manifest_reader) (raw : bytes) : manifest_reader :=
  let line := trim raw in
  if bool_decide (line = []) || starts_with (as_bytes "#") line then r
  else if starts_with (as_bytes "[") line then read_header r line
  else match split_once Byte.x3d line with
       | Some (key, value) => read_pair r (trim key) (unquote value)
       | None => r
       end.

(** [into_values] and [into_iter] of the sorted collections *)
Definition close_manifest (r : manifest_reader) : list ManifestRepo * list DriftDep :=
  (snd <$> sort_by_key fst (map_to_list (rd_repos r)), sort_by_key id (elements (flush_drift r))).

Definition parse_manifest (toml : bytes) : list ManifestRepo * list DriftDep := close_manifest (foldl read_manifest_line new_manifest_reader (lines toml)).

(** ** The graph *)

Definition or_unknown (b : bytes) : bytes := if bool_decide (b = []) then as_bytes "?" else b.
Definition tenant_content (r : ManifestRepo) : bytes :=
  mr_name r ++ as_bytes " — role: " ++ or_unknown (mr_role r) ++ as_bytes ", tier: " ++ or_unknown (mr_tier r) ++ as_bytes ", visibility: "
  ++ or_unknown (mr_visibility r) ++ (if bool_decide (mr_notes r = []) then [] else as_bytes ". " ++ mr_notes r).

Definition bare_tenant (r : ManifestRepo) (now_ms : Timestamp) : MemoryNode :=
  derived_node Tenant FEDERATION_TENANT "ingest" (DagNative ("tenant:" +:+ string_of_bytes (mr_name r))) (tenant_content r) now_ms now_ms [True_] Active.
Definition tenant_node (r : ManifestRepo) (now_ms : Timestamp) (em : Embedder) : result IngestError MemoryNode :=
  let? v := map_err (EmbedFailed ∘ EmbedError_display) (em_embed em (string_of_bytes (tenant_content r))) in
  Ok (with_embedding (Some v) (bare_tenant r now_ms)).

Record MetaReport := { mt_tenants : nat; mt_depends_on : nat; mt_skipped_deps : nat; mt_watermark : Watermark }.

Section federation.
Context {T : Type} `{MemStore T, Blake3, Serde Watermark}.

Definition depends_on (from to : MemoryNode) (now_ms : Timestamp) : Edge :=
  make_edge (compute_id from) (compute_id to) DependsOn Ingest now_ms (Some "manifest [[drift]]").

Definition dep_edge (nodes : gmap bytes MemoryNode) (now_ms : Timestamp) (d : DriftDep) : option Edge :=
  match nodes !! dd_consumer d, nodes !! dd_dep_repo d with Some from, Some to => Some (depends_on from to now_ms) | _, _ => None end.

Definition ingest_federation_meta_str (manifest : string) (em : Embedder) (now_ms : Timestamp) : stm T IngestError MetaReport :=
  let '(repos, deps) := parse_manifest (as_bytes manifest) in
  let! nodes := slift (rfold (λ m r, let? n := tenant_node r now_ms em in Ok (<[mr_name r := n]> m)) ∅ repos) in
  let edges := omap (dep_edge nodes now_ms) deps in
  let node_vec := snd <$> sort_by_key fst (map_to_list nodes) in
  let! _ := on_store (ms_commit node_vec edges) in
  let wm := {| w_repo := FEDERATION_TENANT; w_head := Some (blake3_to_hex (blake3 (as_bytes manifest))); w_head_count := length node_vec; w_ingested_at_ms := now_ms |} in
  let! _ := put_tenant_watermark FEDERATION_TENANT wm in
  sret {| mt_tenants := length node_vec; mt_depends_on := length edges; mt_skipped_deps := length deps - length edges; mt_watermark := wm |}.

(** [ingest_federation_meta]; [file] is what reading the path gives. *)
Definition ingest_federation_meta (path : string) (file : result string string) (em : Embedder) (now_ms : Timestamp) : stm T IngestError MetaReport :=
  let! manifest := slift (map_err (λ e, GitError ("read " +:+ path +:+ ": " +:+ e)) file) in
  ingest_federation_meta_str manifest em now_ms.
End federation.

(** * Properties of the federation graph

    The manifest reader reads back what a manifest of the documented shapes says, and a run
    leaves exactly the declared repositories and dependencies in the store, once. *)

(** ** Quotes and brackets *)

Lemma strip_quotes v : 0x22 ∉ chars v → trim_matches is_dquote (Byte.x22 :: v ++ [Byte.x22]) = v.
Proof.
  intros Hq. unfold trim_matches. rewrite chunks_between by done. apply chars_without in Hq. set (p := is_dquote ∘ fst). set (q := (byte_Z Byte.x22, [Byte.x22])).
  assert (p q = true) as Hp by done. cbn [drop_while]. rewrite Hp. destruct (chunks v) as [|a cs] eqn:E.
  - cbn [app drop_while]. rewrite Hp. rewrite <- (unchunk_chunks v), E. done.
  - rewrite drop_while_fix by (right; exists a; split; [done|]; by apply Forall_cons in Hq as [? _]).
    rewrite drop_while_end_keep; [by rewrite <- E, unchunk_chunks|done|by apply Forall_singleton].
Qed.
Lemma strip_no_quotes v : 0x22 ∉ chars v → trim_matches is_dquote v = v.
Proof.
  intros Hq. unfold trim_matches. apply chars_without in Hq. rewrite drop_while_fix.
  - rewrite <- (app_nil_r (chunks v)). rewrite drop_while_end_keep; [apply unchunk_chunks|done|constructor].
  - destruct (chunks v) as [|a cs]; [by left|right]. exists a. split; [done|]. by apply Forall_cons in Hq as [? _].
Qed.
Lemma strip_bracket v : 0x5d ∉ chars v → trim_end_matches is_bracket (v ++ [Byte.x5d]) = v.
Proof.
  intros Hb. unfold trim_end_matches. rewrite chunks_app, chunks_cons_ascii by done. apply chars_without in Hb.
  rewrite drop_while_end_keep; [apply unchunk_chunks|done|by repeat constructor].
Qed.

(** ** Rendering *)

(** A value of a manifest: one line without quotes *)
Definition value_ok (v : bytes) : Prop := 0x22 ∉ chars v ∧ newline ∉ v ∧ carriage_return ∉ v.
(** A name of a table *)
Definition name_ok (v : bytes) : Prop := value_ok v ∧ trimmed v ∧ 0x5d ∉ chars v.
Definition repo_ok (r : ManifestRepo) : Prop :=
  name_ok (mr_name r) ∧ value_ok (mr_tier r) ∧ value_ok (mr_role r) ∧ value_ok (mr_visibility r) ∧ value_ok (mr_notes r).

Definition pair_line (key : string) (v : bytes) : bytes := as_bytes key ++ as_bytes " = " ++ Byte.x22 :: v ++ [Byte.x22].
Definition repo_lines (r : ManifestRepo) : list bytes :=
  [as_bytes "[repos." ++ mr_name r ++ [Byte.x5d]; pair_line "tier" (mr_tier r); pair_line "role" (mr_role r);
   pair_line "visibility" (mr_visibility r); pair_line "notes" (mr_notes r)].
Definition dep_lines (d : DriftDep) : list bytes := [drift_header; pair_line "consumer" (dd_consumer d); pair_line "dep_repo" (dd_dep_repo d)].
Definition render_manifest (repos : list ManifestRepo) (deps : list DriftDep) : bytes :=
  flat_map (λ b, b ++ [newline]) (flat_map repo_lines repos ++ flat_map dep_lines deps).

Lemma read_pair_line r key v : value_ok v → key ∈ ["tier"; "role"; "visibility"; "notes"; "consumer"; "dep_repo"] →
  read_manifest_line r (pair_line key v) = read_pair r (as_bytes key) v.
Proof.
  intros (Hq & _ & _) Hk. unfold read_manifest_line.
  assert (unquote (Byte.x20 :: Byte.x22 :: v ++ [Byte.x22]) = v) as Hu.
  { unfold unquote. replace (trim (Byte.x20 :: Byte.x22 :: v ++ [Byte.x22])) with (Byte.x22 :: v ++ [Byte.x22]); [by apply strip_quotes|].
    rewrite <- (trim_between Byte.x22 v Byte.x22) at 1 by done. unfold trim, trim_matches.
    rewrite (chunks_cons_ascii Byte.x20) by done. done. }
  assert (∃ x k, as_bytes key = x :: k ∧ is_ascii_byte x = true ∧ is_whitespace (byte_Z x) = false) as (x & k & E & Hx & Wx).
  { clear -Hk. repeat (apply elem_of_cons in Hk as [->|Hk]); [..|by apply not_elem_of_nil in Hk]. all: eexists _, _; by split; [reflexivity|]. }
  assert (trim (pair_line key v) = pair_line key v) as ->.
  { unfold pair_line. rewrite E. replace ((x :: k) ++ as_bytes " = " ++ Byte.x22 :: v ++ [Byte.x22])
      with (x :: (k ++ as_bytes " = " ++ Byte.x22 :: v) ++ [Byte.x22]) by (cbn; by rewrite <- !app_assoc). by apply trim_between. }
  clear E.
  repeat (apply elem_of_cons in Hk as [->|Hk]); [..|by apply not_elem_of_nil in Hk].
  all: unfold pair_line; match goal with |- context [split_once _ (as_bytes ?k ++ _ ++ ?w)] =>
    change (split_once Byte.x3d (as_bytes k ++ as_bytes " = " ++ w)) with (Some (as_bytes k ++ [Byte.x20], Byte.x20 :: w));
    change (starts_with (as_bytes "#") (as_bytes k ++ as_bytes " = " ++ w)) with false;
    change (starts_with (as_bytes "[") (as_bytes k ++ as_bytes " = " ++ w)) with false;
    rewrite (bool_decide_eq_false_2 (as_bytes k ++ as_bytes " = " ++ w = [])) by done; cbn [orb];
    change (trim (as_bytes k ++ [Byte.x20])) with (as_bytes k) end; by rewrite Hu.
Qed.

Lemma read_repo_header r name : name_ok name → rd_repos r !! name = None →
  read_manifest_line r (as_bytes "[repos." ++ name ++ [Byte.x5d]) =
    {| rd_repos := <[name := empty_repo name]> (rd_repos r); rd_deps := flush_drift r; rd_section := InRepo name; rd_drift := (None, None) |}.
Proof.
  intros ((Hq & _) & Ht & Hb) Hn. unfold read_manifest_line.
  assert (trim (as_bytes "[repos." ++ name ++ [Byte.x5d]) = as_bytes "[repos." ++ name ++ [Byte.x5d]) as ->.
  { change (as_bytes "[repos." ++ name ++ [Byte.x5d]) with (Byte.x5b :: (as_bytes "repos." ++ name ++ [Byte.x5d])). rewrite app_assoc. by apply trim_between. }
  rewrite bool_decide_eq_false_2 by done. change (starts_with (as_bytes "#") (as_bytes "[repos." ++ name ++ [Byte.x5d])) with false.
  change (starts_with (as_bytes "[") (as_bytes "[repos." ++ name ++ [Byte.x5d])) with true. cbn [orb]. unfold read_header.
  rewrite bool_decide_eq_false_2 by done.
  change (strip_prefix (as_bytes "[repos.") (as_bytes "[repos." ++ name ++ [Byte.x5d])) with (Some (name ++ [Byte.x5d])). cbv iota.
  rewrite strip_bracket by done. unfold unquote. rewrite trim_fix, strip_no_quotes by done. by rewrite Hn.
Qed.

Lemma read_repo r m : repo_ok m → rd_repos r !! mr_name m = None →
  foldl read_manifest_line r (repo_lines m) =
    {| rd_repos := <[mr_name m := m]> (rd_repos r); rd_deps := flush_drift r; rd_section := InRepo (mr_name m); rd_drift := (None, None) |}.
Proof.
  intros (Hn & Ht & Hr & Hv & Ho) Hnew. unfold repo_lines. cbn [foldl]. rewrite read_repo_header by done.
  rewrite !read_pair_line by (done || set_solver). unfold read_pair. cbn [rd_section rd_repos rd_deps rd_drift].
  f_equal. destruct m as [name tier role vis notes]. cbn [mr_name mr_tier mr_role mr_visibility mr_notes] in *.
  rewrite !alter_insert_eq. done.
Qed.

Lemma read_dep r d : value_ok (dd_consumer d) → value_ok (dd_dep_repo d) →
  foldl read_manifest_line r (dep_lines d) =
    {| rd_repos := rd_repos r; rd_deps := flush_drift r; rd_section := InDrift; rd_drift := (Some (dd_consumer d), Some (dd_dep_repo d)) |}.
Proof.
  intros H1 H2. unfold dep_lines. cbn [foldl]. change (read_manifest_line r drift_header)
    with {| rd_repos := rd_repos r; rd_deps := flush_drift r; rd_section := InDrift; rd_drift := (None, None) |}.
  rewrite !read_pair_line by (done || set_solver). done.
Qed.

Lemma read_repos r ms : Forall repo_ok ms → NoDup (mr_name <$> ms) → (∀ m, m ∈ ms → rd_repos r !! mr_name m = None) → rd_drift r = (None, None) →
  ∃ sec, foldl read_manifest_line r (flat_map repo_lines ms) =
    {| rd_repos := list_to_map ((λ m, (mr_name m, m)) <$> ms) ∪ rd_repos r; rd_deps := rd_deps r; rd_section := sec; rd_drift := (None, None) |}.
Proof.
  revert r. induction ms as [|m ms IH]; intros r Hok Hnd Hnew Hd.
  { exists (rd_section r). cbn. rewrite (left_id_L ∅ (∪)), <- Hd. by destruct r. }
  apply Forall_cons in Hok as [Hm Hok]. cbn [fmap list_fmap] in Hnd. apply NoDup_cons in Hnd as [Hni Hnd].
  cbn [flat_map]. rewrite foldl_app, read_repo by (done || apply Hnew; by left).
  assert (flush_drift r = rd_deps r) as -> by (unfold flush_drift; by rewrite Hd).
  match goal with |- context [foldl _ ?x _] => destruct (IH x) as [sec Hsec]; [done|done| |done|] end.
  { intros m' Hm'. cbn. rewrite lookup_insert_ne; [apply Hnew; by right|]. intros E. apply Hni. rewrite E. by apply list_elem_of_fmap_2. }
  exists sec. rewrite Hsec. cbn [rd_repos rd_deps]. f_equal. cbn [fmap list_fmap list_to_map foldr].
  rewrite <- insert_union_r; [by rewrite insert_union_l|]. apply not_elem_of_list_to_map_1. rewrite <- list_fmap_compose. exact Hni.
Qed.

Lemma read_deps r ds : Forall (λ d, value_ok (dd_consumer d) ∧ value_ok (dd_dep_repo d)) ds →
  ∃ r', foldl read_manifest_line r (flat_map dep_lines ds) = r' ∧ rd_repos r' = rd_repos r ∧ flush_drift r' = list_to_set ds ∪ flush_drift r.
Proof.
  revert r. induction ds as [|d ds IH]; intros r Hok; [exists r; split_and!; [done|done|set_solver]|].
  apply Forall_cons in Hok as [[H1 H2] Hok]. cbn [flat_map]. rewrite foldl_app, read_dep by done.
  match goal with |- context [foldl _ ?x _] => destruct (IH x Hok) as (r' & -> & Hr & Hf) end.
  exists r'. split_and!; [done|by rewrite Hr|]. rewrite Hf. unfold flush_drift at 1. cbn. destruct d. cbn. set_solver.
Qed.

(** Sorting finds the sorted list with the same elements, when keys are distinct. *)
Lemma sort_by_key_fixed {A K} `{RustOrdLaws K} (key : A → K) l1 l2 : l1 ≡ₚ l2 → NoDup (key <$> l2) → StronglySorted (key_le key) l2 →
  sort_by_key key l1 = l2.
Proof.
  intros Hp Hnd Hs. apply (StronglySorted_unique_strong (key_le key)); [|apply sort_by_key_sorted|done|by rewrite sort_by_key_perm].
  intros x1 x2 H1 H2 Hle Hge. apply elem_of_sort_by_key in H1. rewrite Hp in H1.
  assert (key x1 = key x2) as E by (by apply ord_leb_antisym).
  apply list_elem_of_lookup in H1 as [i Hi]. apply list_elem_of_lookup in H2 as [j Hj].
  assert (i = j) as -> by (eapply NoDup_lookup; [exact Hnd|rewrite list_lookup_fmap, Hi; done|rewrite list_lookup_fmap, Hj; cbn; by rewrite E]).
  congruence.
Qed.
Lemma sorted_keys_nodup {A K} `{RustOrdLaws K} (key : A → K) l : StronglySorted (key_lt key) l → NoDup (key <$> l) ∧ StronglySorted (key_le key) l.
Proof.
  induction 1 as [|a l Hs [IH1 IH2] Ha]; [split; constructor|]. rewrite Forall_forall in Ha. split.
  - cbn. apply NoDup_cons. split; [|done]. intros (b & E & Hb)%list_elem_of_fmap. by apply (Ha b Hb).
  - constructor; [done|]. apply Forall_forall. intros b Hb. by apply Ha.
Qed.

(** A rendered line is one line. *)
Definition one_line (b : bytes) : Prop := newline ∉ b ∧ carriage_return ∉ b.
Lemma pair_one_line key v : value_ok v → one_line (as_bytes key) → one_line (pair_line key v).
Proof.
  intros (_ & Hn & Hc) [Kn Kc]. unfold pair_line, one_line. split; rewrite !elem_of_app, elem_of_cons, elem_of_app, list_elem_of_singleton.
  - intros [?|[Hx|[?|[?|?]]]]; try done. by apply (bool_decide_eq_true_2 (_ ∈ _)) in Hx.
  - intros [?|[Hx|[?|[?|?]]]]; try done. by apply (bool_decide_eq_true_2 (_ ∈ _)) in Hx.
Qed.
Lemma key_one_line b : bool_decide (newline ∈ b) = false → bool_decide (carriage_return ∈ b) = false → one_line b.
Proof. intros H1%bool_decide_eq_false_1 H2%bool_decide_eq_false_1. by split. Qed.
Lemma repo_one_line m : repo_ok m → Forall one_line (repo_lines m).
Proof.
  intros (((_ & Hn & Hc) & _) & Ht & Hr & Hv & Ho). unfold repo_lines.
  repeat (apply Forall_cons; split); [|by apply pair_one_line; [done|apply key_one_line]..|constructor].
  split; rewrite !elem_of_app, list_elem_of_singleton; intros [Hx|[?|?]]; try done; by apply (bool_decide_eq_true_2 (_ ∈ _)) in Hx.
Qed.
Lemma dep_one_line d : value_ok (dd_consumer d) ∧ value_ok (dd_dep_repo d) → Forall one_line (dep_lines d).
Proof.
  intros [H1 H2]. unfold dep_lines. repeat (apply Forall_cons; split); [by apply key_one_line|by apply pair_one_line; [done|apply key_one_line]..|constructor].
Qed.
Lemma Forall_flat_map {A B} (P : B → Prop) (f : A → list B) l : Forall (λ a, Forall P (f a)) l → Forall P (flat_map f l).
Proof. induction 1; cbn; [constructor|]. by apply Forall_app. Qed.


(** ** Runs *)

Lemma read_line_named r raw : (∀ k m, rd_repos r !! k = Some m → mr_name m = k) → ∀ k m, rd_repos (read_manifest_line r raw) !! k = Some m → mr_name m = k.
Proof.
  intros Hr. unfold read_manifest_line. destruct (_ || _); [done|]. destruct (starts_with _ _).
  - unfold read_header. case_bool_decide; [done|]. destruct (strip_prefix _ _) as [rest|]; [|done]. cbn [rd_repos].
    destruct (rd_repos r !! _) eqn:E; [done|]. intros k m. rewrite lookup_insert. case_decide; [|apply Hr]. intros [= <-]. done.
  - destruct (split_once _ _) as [[key value]|]; [|done]. unfold read_pair. destruct (rd_section r) as [name| |]; try done. cbn [rd_repos].
    intros k m. rewrite lookup_alter. case_decide; [|apply Hr]. intros (m0 & Hm & ->)%fmap_Some. apply Hr in Hm. subst.
    unfold set_field. repeat case_bool_decide; done.
Qed.

Lemma parse_manifest_names toml : NoDup (mr_name <$> (parse_manifest toml).1).
Proof.
  unfold parse_manifest, close_manifest. cbn [fst].
  assert (∀ ls r, (∀ k m, rd_repos r !! k = Some m → mr_name m = k) → ∀ k m, rd_repos (foldl read_manifest_line r ls) !! k = Some m → mr_name m = k) as Hx.
  { induction ls as [|l ls IH]; intros r Hr; [done|]. cbn [foldl]. apply IH, read_line_named, Hr. }
  set (rs := rd_repos _). assert (∀ k m, rs !! k = Some m → mr_name m = k) as Hn by (apply Hx; intros k m Hk; cbn [rd_repos new_manifest_reader] in Hk; by rewrite lookup_empty in Hk).
  rewrite <- list_fmap_compose.
  assert (mr_name ∘ snd <$> sort_by_key fst (map_to_list rs) = fst <$> sort_by_key fst (map_to_list rs)) as ->.
  { apply list_fmap_ext. intros i [k m] Hi. apply list_elem_of_lookup_2, elem_of_sort_by_key, elem_of_map_to_list in Hi. cbn. by apply Hn. }
  rewrite sort_by_key_perm. apply NoDup_fst_map_to_list.
Qed.

Section federation_props.
Context {T : Type} `{MemStore T, Blake3, Hex, Serde Watermark, !MemStoreLaws T}.
Implicit Types (t : T) (c : conts).

Definition tenant_id (r : ManifestRepo) : ContentHash := compute_id (bare_tenant r 0).

Lemma tenant_node_ok em r now : total_embedder em → ∃ n, tenant_node r now em = Ok n ∧ json_repr n ∧ compute_id n = tenant_id r.
Proof.
  intros Hem. unfold tenant_node. destruct (Hem (string_of_bytes (tenant_content r))) as (v & -> & Hv). eexists. split; [done|].
  split; [exact Hv|]. rewrite compute_id_embedding. by apply compute_id_identity.
Qed.

Lemma tenant_nodes_ok em now repos : total_embedder em → NoDup (mr_name <$> repos) →
  ∃ nodes : gmap bytes MemoryNode, rfold (λ m r, let? n := tenant_node r now em in Ok (<[mr_name r := n]> m)) ∅ repos = Ok nodes ∧
    (∀ r, r ∈ repos → ∃ n, nodes !! mr_name r = Some n ∧ compute_id n = tenant_id r) ∧
    (∀ k n, nodes !! k = Some n → json_repr n ∧ ∃ r, r ∈ repos ∧ k = mr_name r ∧ compute_id n = tenant_id r) ∧ size nodes = length repos.
Proof.
  intros Hem. assert (∀ m : gmap bytes MemoryNode, NoDup (mr_name <$> repos) → (∀ r, r ∈ repos → m !! mr_name r = None) → (∀ k n, m !! k = Some n → json_repr n) →
    ∃ nodes : gmap bytes MemoryNode, rfold (λ m r, let? n := tenant_node r now em in Ok (<[mr_name r := n]> m)) m repos = Ok nodes ∧
      (∀ r, r ∈ repos → ∃ n, nodes !! mr_name r = Some n ∧ compute_id n = tenant_id r) ∧
      (∀ k n, nodes !! k = Some n → json_repr n ∧ (m !! k = Some n ∨ ∃ r, r ∈ repos ∧ k = mr_name r ∧ compute_id n = tenant_id r)) ∧
      (∀ k, is_Some (m !! k) → nodes !! k = m !! k) ∧ size nodes = (size m + length repos)%nat) as Hx.
  { induction repos as [|r repos IH]; intros m Hnd Hm Hj.
    { exists m. cbn. split_and!; [done|intros r Hr; by apply not_elem_of_nil in Hr|intros k n Hk; split; [by eapply Hj|by left]|done|lia]. }
    cbn [fmap list_fmap] in Hnd. apply NoDup_cons in Hnd as [Hni Hnd]. cbn [rfold]. destruct (tenant_node_ok em r now Hem) as (n & -> & Hjn & Hid). cbn [rbind].
    assert (m !! mr_name r = None) as Hmr by (apply Hm; by left).
    destruct (IH (<[mr_name r := n]> m) Hnd) as (nodes & Hf & H1' & H2' & H3' & H4').
    - intros x Hx. rewrite lookup_insert_ne; [apply Hm; by right|]. intros E. apply Hni. rewrite E. by apply list_elem_of_fmap_2.
    - intros k x. rewrite lookup_insert. case_decide; [by intros [= <-]|apply Hj].
    - exists nodes. split_and!; [done| | | |].
      + intros x [->|Hx]%elem_of_cons; [|by apply H1']. exists n. split; [|done]. rewrite H3'; rewrite lookup_insert_eq; [done|by eexists].
      + intros k x Hk. destruct (H2' k x Hk) as [Hjx [Hl|(y & Hy & ? & ?)]]; (split; [done|]).
        * rewrite lookup_insert in Hl. case_decide as E; [|by left]. injection Hl as <-. right. exists r. split_and!; [by left|done|done].
        * right. exists y. split_and!; [by right|done|done].
      + intros k [x Hk]. rewrite H3'; rewrite lookup_insert_ne; try done; intros E; subst k; congruence.
      + rewrite H4', map_size_insert_None by done. cbn. lia. }
  intros Hnd. destruct (Hx ∅ Hnd) as (nodes & Hf & H1' & H2' & _ & H4').
  - intros r _. apply lookup_empty.
  - intros k n Hk. by rewrite lookup_empty in Hk.
  - exists nodes. split_and!; [done|done| |by rewrite map_size_empty in H4'].
    intros k n Hk. destruct (H2' k n Hk) as [Hj [Hl|Hl]]; [by rewrite lookup_empty in Hl|done].
Qed.

(** A federation run leaves exactly what the manifest declares: on a plain store, with an
    embedder that answers, it succeeds; the nodes it adds are those of the declared
    repositories, the edges those of the dependencies between two declared repositories,
    whatever the time and the model, so a second run adds nothing; dependencies are counted
    as linked or skipped, and the watermark read back is the hash of the manifest. *)
Theorem federation_ingested `{!WatermarkSerdeLaws} manifest em now t c (Ht : ms_holds t c) (Hs : ms_sealing t = false) (Hem : total_embedder em) :
  let '(repos, deps) := parse_manifest (as_bytes manifest) in
  ∃ t' rep c', ingest_federation_meta_str manifest em now t = (t', Ok rep) ∧ ms_holds t' c' ∧
    dom (c_nodes c') = dom (c_nodes c) ∪ list_to_set (tenant_id <$> repos) ∧
    (∀ i, i ∈ dom (c_edges c') ↔ i ∈ dom (c_edges c) ∨
       ∃ r1 r2, r1 ∈ repos ∧ r2 ∈ repos ∧ {| dd_consumer := mr_name r1; dd_dep_repo := mr_name r2 |} ∈ deps ∧ i = (tenant_id r1, tenant_id r2, DependsOn)) ∧
    mt_tenants rep = length repos ∧ (mt_depends_on rep + mt_skipped_deps rep)%nat = length deps ∧
    read_watermark t' FEDERATION_TENANT = Ok (Some (mt_watermark rep)) ∧
    w_head (mt_watermark rep) = Some (blake3_to_hex (blake3 (as_bytes manifest))).
Proof.
  pose proof (parse_manifest_names (as_bytes manifest)) as Hnames. unfold ingest_federation_meta_str.
  destruct (parse_manifest (as_bytes manifest)) as [repos deps]. cbn [fst] in Hnames.
  destruct (tenant_nodes_ok em now repos Hem Hnames) as (nodes & Hf & Hin & Hout & Hsize).
  rewrite (sbind_ok _ _ t t nodes) by (unfold slift; by rewrite Hf).
  set (vec := snd <$> sort_by_key fst (map_to_list nodes)). set (edges := omap (dep_edge nodes now) deps).
  assert (∀ n, n ∈ vec ↔ ∃ k, nodes !! k = Some n) as Hvec.
  { intros n. unfold vec. rewrite list_elem_of_fmap. setoid_rewrite elem_of_sort_by_key. split.
    - intros ([k x] & -> & Hx%elem_of_map_to_list). by exists k.
    - intros [k Hk]. exists (k, n). split; [done|by apply elem_of_map_to_list]. }
  assert (length vec = length repos) as Hlen by (unfold vec; rewrite length_fmap, length_sort_by_key, length_map_to_list; exact Hsize).
  assert (length edges ≤ length deps)%nat as Hle.
  { unfold edges. clear. induction deps as [|d deps IH]; [done|]. cbn. destruct (dep_edge nodes now d); cbn; lia. }
  assert (Forall json_repr vec) as Hj by (apply Forall_forall; intros n [k Hk]%Hvec; by apply Hout in Hk as [? _]).
  destruct (ms_commit_ok t c vec edges Ht Hj) as (t1 & r1 & Hc & Hs1 & Hr1). destruct r1 as [[]|]; [|destruct Hr1; congruence]. destruct Hr1 as [_ Ht1].
  rewrite (sbind_ok _ _ t t1 tt) by (unfold on_store, smap_err; by rewrite Hc).
  set (w := {| w_repo := FEDERATION_TENANT; w_head := Some (blake3_to_hex (blake3 (as_bytes manifest))); w_head_count := length vec; w_ingested_at_ms := now |}).
  destruct (put_tenant_watermark_ok em FEDERATION_TENANT w t1 _ Ht1 ltac:(congruence)) as (t2 & v & Hw & Ht2 & _ & Hrw).
  rewrite (sbind_ok _ _ t1 t2 tt) by exact Hw. destruct (commit_dom c vec edges) as (Dn & _ & De & _).
  eexists t2, _, _. split; [reflexivity|]. split; [exact Ht2|]. cbn [c_nodes c_edges c_put_meta mt_tenants mt_depends_on mt_skipped_deps mt_watermark].
  split_and!; [| |exact Hlen|lia|exact Hrw|done].
  - rewrite Dn. f_equal. apply set_eq. intros i. rewrite !elem_of_list_to_set, !list_elem_of_fmap. split.
    + intros (n & -> & [k Hk]%Hvec). apply Hout in Hk as (_ & r & Hr & _ & Hid). by exists r.
    + intros (r & -> & Hr). destruct (Hin r Hr) as (n & Hn & Hid). exists n. split; [done|]. apply Hvec. by exists (mr_name r).
  - intros i. rewrite De, elem_of_union, elem_of_list_to_set, list_elem_of_fmap. f_equiv. unfold edges. setoid_rewrite list_elem_of_omap. split.
    + intros (e & -> & d & Hd & He). unfold dep_edge in He. destruct (nodes !! dd_consumer d) as [n1|] eqn:E1; [|done]. destruct (nodes !! dd_dep_repo d) as [n2|] eqn:E2; [|done].
      injection He as <-. apply Hout in E1 as (_ & r1 & Hr1 & Hk1 & Hi1). apply Hout in E2 as (_ & r2 & Hr2 & Hk2 & Hi2).
      exists r1, r2. rewrite <- Hk1, <- Hk2, <- Hi1, <- Hi2. split_and!; [done|done|by destruct d|done].
    + intros (r1 & r2 & Hr1 & Hr2 & Hd & ->). destruct (Hin r1 Hr1) as (n1 & Hn1 & Hi1). destruct (Hin r2 Hr2) as (n2 & Hn2 & Hi2).
      exists (depends_on n1 n2 now). split; [unfold depends_on, edge_ident; cbn; by rewrite Hi1, Hi2|]. exists {| dd_consumer := mr_name r1; dd_dep_repo := mr_name r2 |}. split; [done|].
      unfold dep_edge. cbn. by rewrite Hn1, Hn2.
Qed.
End federation_props.
