(* ===== verification/Control.v ===== *)
(** * The gateway's control plane ([mem-gateway/src/{control,allowlist,webhook}.rs])

    Organisations and memberships with their file, the team allowlist that admits a
    teammate at first login, and the receiver of push events.  The file system calls of
    [Control::save] may each fail, a write after any number of bytes; the environment, the
    HMAC and the JSON text of a type are parameters. *)

From S2P Require Import Prelude Bytes Externs Text Str Display.

(** [std::env::var(key).ok()] *)
Class Env := env_var : string → option string.

(** The JSON text of a type: [to_string_pretty] and [from_str] *)
Class JsonText (A : Type) := {
  to_string_pretty : A → result string string;
  from_text : string → result string A;
}.
#[global] Hint Mode JsonText ! : typeclass_instances.
Class JsonTextLaws (A : Type) `{JsonText A} : Prop :=
  text_roundtrip : ∀ (a : A) s, to_string_pretty a = Ok s → from_text s = Ok a ∧ utf8_valid (as_bytes s) = true.

(** ** Organisations and memberships *)

Inductive ControlError := ControlIo (m : string) | ControlParse (m : string).
Definition ControlError_display (e : ControlError) : string :=
  match e with ControlIo m => "control file io: " +:+ m | ControlParse m => "control file parse: " +:+ m end.

Inductive OrgStatus := OrgActive | Suspended.
#[export] Instance OrgStatus_eq_dec : EqDecision OrgStatus.
Proof. solve_decision. Defined.

(** [Role::ReadOnly] is [Reader]. *)
Inductive Role := OrgOwner | Admin | Member | Reader.
#[export] Instance Role_eq_dec : EqDecision Role.
Proof. solve_decision. Defined.
Definition can_administer (r : Role) : bool := match r with OrgOwner | Admin => true | _ => false end.

Record Scope := { sc_resource_id : string; sc_can_read : bool; sc_can_write : bool }.
#[export] Instance Scope_eq_dec : EqDecision Scope.
Proof. solve_decision. Defined.

Record Org := { o_id : string; o_name : string; o_created_at_ms : Z; o_store_path : string; o_status : OrgStatus }.
Record Membership := { m_sub : string; m_org : string; m_role : Role; m_scopes : list Scope; m_parent : option string }.
Record Control := { orgs : list Org; memberships : list Membership }.
Definition control_default : Control := {| orgs := []; memberships := [] |}.

(** [iter().find(p)] *)
Definition find_in {A} (p : A → bool) (l : list A) : option A := snd <$> list_find (λ a, p a = true) l.

Definition find_org (self : Control) (id : string) : option Org := find_in (λ o, bool_decide (o_id o = id)) (orgs self).
Definition is_row (sub org : string) (m : Membership) : bool := bool_decide (m_sub m = sub) && bool_decide (m_org m = org).
Definition membership (self : Control) (sub org : string) : option Membership := find_in (is_row sub org) (memberships self).

(** [ensure_org], [upsert_membership] and [upsert_membership_full]: the new value and
    whether it changed *)
Definition ensure_org (self : Control) (id store_path : string) (now_ms : Z) : Control * bool :=
  if bool_decide (is_Some (find_org self id)) then (self, false)
  else ({| orgs := orgs self ++ [{| o_id := id; o_name := id; o_created_at_ms := now_ms; o_store_path := store_path; o_status := OrgActive |}];
           memberships := memberships self |}, true).

(** [if let Some(m) = iter_mut().find(p) { *m = f(m) }]: the first match is replaced in place *)
Fixpoint update_first {A} (p : A → bool) (f : A → A) (l : list A) : list A :=
  match l with [] => [] | a :: l => if p a then f a :: l else a :: update_first p f l end.

Definition set_role (r : Role) (m : Membership) : Membership :=
  {| m_sub := m_sub m; m_org := m_org m; m_role := r; m_scopes := m_scopes m; m_parent := m_parent m |}.
Definition set_role_scopes (r : Role) (s : list Scope) (m : Membership) : Membership :=
  {| m_sub := m_sub m; m_org := m_org m; m_role := r; m_scopes := s; m_parent := m_parent m |}.
Definition set_memberships (ms : list Membership) (self : Control) : Control := {| orgs := orgs self; memberships := ms |}.
Definition fresh_row (sub org : string) (role : Role) (scopes : list Scope) : Membership :=
  {| m_sub := sub; m_org := org; m_role := role; m_scopes := scopes; m_parent := None |}.

Definition upsert_membership (self : Control) (sub org : string) (role : Role) : Control * bool :=
  match membership self sub org with
  | Some m =>
    if bool_decide (m_role m = role) then (self, false)
    else (set_memberships (update_first (is_row sub org) (set_role role) (memberships self)) self, true)
  | None => (set_memberships (memberships self ++ [fresh_row sub org role []]) self, true)
  end.

Definition upsert_membership_full (self : Control) (sub org : string) (role : Role) (scopes : list Scope) : Control * bool :=
  match membership self sub org with
  | Some m =>
    (set_memberships (update_first (is_row sub org) (set_role_scopes role scopes) (memberships self)) self,
     negb (bool_decide (m_role m = role)) || negb (bool_decide (m_scopes m = scopes)))
  | None => (set_memberships (memberships self ++ [fresh_row sub org role scopes]) self, true)
  end.

(** ** The control file *)

Abbreviation Files := (gmap string bytes).

(** What the file system does during one call: the error of each step, if it fails; a
    write that fails may leave the file untouched or hold a prefix of the text. *)
Record SaveIo := {
  io_mkdir : option string;
  io_write : option (string * option nat);
  io_rename : option string;
}.
Definition save_fine : SaveIo := {| io_mkdir := None; io_write := None; io_rename := None |}.

Definition slash_byte : byte := Byte.x2f.
Definition dot_byte : byte := Byte.x2e.

(** The text before the last slash, and after it; for a path that ends in a plain name *)
Fixpoint split_last (c : byte) (l : bytes) : option (bytes * bytes) :=
  match l with
  | [] => None
  | b :: l =>
    match split_last c l with
    | Some (x, y) => Some (b :: x, y)
    | None => if decide (b = c) then Some ([], l) else None
    end
  end.
Definition parent (path : string) : bytes := default [] (fst <$> split_last slash_byte (as_bytes path)).
Definition file_name (path : string) : bytes := match split_last slash_byte (as_bytes path) with Some (_, f) => f | None => as_bytes path end.
(** [Path::with_extension]: the last dot of the file name that is not its first byte starts
    the extension *)
Definition file_stem (path : string) : bytes :=
  match split_last dot_byte (file_name path) with
  | Some (x, _) => if bool_decide (x = []) then file_name path else x
  | None => file_name path
  end.
Definition with_extension (path ext : string) : string :=
  let stem := file_stem path in
  let dir := match split_last slash_byte (as_bytes path) with Some (d, _) => d ++ [slash_byte] | None => [] end in
  string_of_bytes (dir ++ stem ++ [dot_byte] ++ as_bytes ext).

Section control_file.
Context `{JsonText Control}.

(** [Control::load]; [fault] is a read error other than an absent file *)
Definition load (fault : option string) (path : string) (fs : Files) : result ControlError Control :=
  match fault with
  | Some e => Err (ControlIo e)
  | None =>
    match fs !! path with
    | None => Ok control_default
    | Some b => if utf8_valid b then map_err ControlParse (from_text (string_of_bytes b))
                else Err (ControlIo "stream did not contain valid UTF-8")
    end
  end.

Definition fs_step (fault : option string) (ok : Files → Files) : stm Files ControlError unit :=
  λ fs, match fault with Some e => (fs, Err (ControlIo e)) | None => (ok fs, Ok tt) end.

(** [std::fs::write] *)
Definition fs_write (fault : option (string * option nat)) (path : string) (b : bytes) : stm Files ControlError unit :=
  λ fs, match fault with
        | Some (e, None) => (fs, Err (ControlIo e))
        | Some (e, Some n) => (<[path := take n b]> fs, Err (ControlIo e))
        | None => (<[path := b]> fs, Ok tt)
        end.

Definition fs_rename (from to : string) (fs : Files) : Files :=
  match fs !! from with Some b => <[to := b]> (delete from fs) | None => fs end.

Definition save (io : SaveIo) (self : Control) (path : string) : stm Files ControlError unit :=
  let! _ := if bool_decide (parent path = []) then sret tt else fs_step (io_mkdir io) id in
  let! json := slift (map_err ControlParse (to_string_pretty self)) in
  let tmp := with_extension path "json.tmp" in
  let! _ := fs_write (io_write io) tmp (as_bytes json) in
  fs_step (io_rename io) (fs_rename tmp path).
End control_file.

(** ** The team allowlist *)

Record AllowEntry := {
  al_name : option string;
  al_email : option string;
  al_wallet : option string;
  al_role : Role;
  al_scopes : list Scope;
}.
Record TeamAllowlist := { members : list AllowEntry }.

Definition norm (s : string) : bytes := ascii_lowercase (trim (as_bytes s)).

(** [map(norm).filter(|s| !s.is_empty())] *)
Definition norm_opt (o : option string) : option bytes :=
  match o with Some s => if bool_decide (norm s = []) then None else Some (norm s) | None => None end.

(** [matches!((a, b), (Some(a), Some(b)) if a == b)] *)
Definition hit (a b : option bytes) : bool := match a, b with Some x, Some y => bool_decide (x = y) | _, _ => false end.

Definition match_identity (self : TeamAllowlist) (email : option string) (email_verified : bool) (wallet : option string)
    : option AllowEntry :=
  let want_email := if email_verified then norm_opt email else None in
  let want_wallet := norm_opt wallet in
  if bool_decide (want_email = None) && bool_decide (want_wallet = None) then None
  else find_in (λ m, hit want_email (norm_opt (al_email m)) || hit want_wallet (norm_opt (al_wallet m))) (members self).

(** [load_or_empty]: an absent, unreadable or malformed file matches nobody *)
Definition load_or_empty `{JsonText TeamAllowlist} (fault : option string) (path : string) (fs : Files) : TeamAllowlist :=
  match fault, fs !! path with
  | None, Some b => if utf8_valid b then default {| members := [] |} (rok (from_text (string_of_bytes b))) else {| members := [] |}
  | _, _ => {| members := [] |}
  end.

(** ** Push events *)

(** HMAC-SHA256; [verify_slice] compares all 32 bytes *)
Class Hmac := hmac_sha256 : bytes → bytes → array 32.

Record PushEvent := { pe_repo : string; pe_git_ref : string; pe_after : string }.

Section webhook.
Context `{Env}.

Definition allowed_owner : string :=
  match env_var "MEM_ALLOWED_OWNER" with
  | Some s => let t := trim (as_bytes s) in if bool_decide (t = []) then "CitrateNetwork" else string_of_bytes t
  | None => "CitrateNetwork"
  end.

Definition verify_hub_signature `{Hex, Hmac} (secret : bytes) (signature_header : option string) (body : bytes) : bool :=
  if bool_decide (secret = []) then false
  else match signature_header with
       | None => false
       | Some header =>
         match strip_prefix (as_bytes "sha256=") (as_bytes header) with
         | None | Some [] => false
         | Some hex_sig =>
           match hex_decode (string_of_bytes hex_sig) with
           | Err _ => false
           | Ok provided => bool_decide (provided = array_bytes (hmac_sha256 secret body))
           end
         end
       end.

Definition is_name_byte (b : byte) : bool :=
  is_ascii_alphanumeric b || bool_decide (b = Byte.x2d) || bool_decide (b = Byte.x5f) || bool_decide (b = dot_byte).
Definition is_safe_repo_name (name : bytes) : bool :=
  if bool_decide (name = []) || bool_decide (name = [dot_byte]) || bool_decide (name = [dot_byte; dot_byte])
     || bool_decide (100 < length name)%nat then false
  else forallb is_name_byte name.

Definition allowed_repo (full_name : string) : option string :=
  match split_once slash_byte (as_bytes full_name) with
  | None => None
  | Some (owner, repo) =>
    if negb (bool_decide (owner = as_bytes allowed_owner)) then None
    else if negb (is_safe_repo_name repo) then None
    else Some (string_of_bytes repo)
  end.

(** [serde_json::from_slice(body).ok()] *)
Definition json_from_slice `{SerdeJson} (body : bytes) : option Value :=
  if utf8_valid body then rok (json_from_str (string_of_bytes body)) else None.

Definition parse_push_event `{SerdeJson} (body : bytes) : option PushEvent :=
  v ← json_from_slice body;
  full_name ← jget v "repository" ≫= λ r, jget r "full_name" ≫= as_str;
  repo ← allowed_repo full_name;
  git_ref ← jget v "ref" ≫= as_str;
  Some {| pe_repo := repo; pe_git_ref := git_ref; pe_after := default "" (jget v "after" ≫= as_str) |}.
End webhook.

(** * What the control plane guarantees

    One row per member, a control file that is either the old or the new one whatever the
    file system does, an allowlist that trusts verified addresses only, and push events of
    safe repositories of one owner. *)

Lemma as_bytes_string b : as_bytes (string_of_bytes b) = b.
Proof. apply String.list_byte_of_string_of_list_byte. Qed.

(** ** Lists *)

Lemma find_in_Some {A} (p : A → bool) l a : find_in p l = Some a → a ∈ l ∧ p a = true.
Proof.
  unfold find_in. intros ([i x] & Hf & ->)%fmap_Some. apply list_find_Some in Hf as (Hl & Hp & _).
  split; [by eapply list_elem_of_lookup_2|done].
Qed.
Lemma find_in_None {A} (p : A → bool) l : find_in p l = None ↔ ∀ a, a ∈ l → p a = false.
Proof.
  unfold find_in. rewrite fmap_None. split.
  - intros Hn%list_find_None a Ha. rewrite Forall_forall in Hn. by apply not_true_iff_false, Hn.
  - intros Hn. apply list_find_None, Forall_forall. intros a Ha. rewrite Hn by done. done.
Qed.
Lemma find_in_cons {A} (p : A → bool) a l : find_in p (a :: l) = if p a then Some a else find_in p l.
Proof.
  unfold find_in. cbn [list_find]. destruct (p a) eqn:E; [by rewrite decide_True|]. rewrite decide_False by congruence.
  rewrite <-!option_fmap_compose. by destruct (list_find _ l) as [[]|].
Qed.
Lemma find_in_app {A} (p : A → bool) l k : find_in p (l ++ k) = match find_in p l with Some a => Some a | None => find_in p k end.
Proof. induction l as [|a l IH]; [done|]. cbn [app]. rewrite !find_in_cons. by destruct (p a). Qed.

Lemma update_first_fmap {A B} (g : A → B) p f (l : list A) : (∀ a, g (f a) = g a) → g <$> update_first p f l = g <$> l.
Proof. intros Hg. induction l as [|a l IH]; [done|]. cbn [update_first]. destruct (p a); rewrite !fmap_cons; [by rewrite Hg|by rewrite IH]. Qed.

Lemma find_update_same {A} (p : A → bool) f l : (∀ a, p (f a) = p a) → find_in p (update_first p f l) = f <$> find_in p l.
Proof. intros Hf. induction l as [|a l IH]; [done|]. cbn [update_first]. destruct (p a) eqn:Hp; rewrite !find_in_cons, ?Hf, Hp; done. Qed.
Lemma find_update_other {A} (p q : A → bool) f l : (∀ a, q (f a) = q a) → (∀ a, p a = true → q a = false) →
  find_in q (update_first p f l) = find_in q l.
Proof.
  intros Hq Hpq. induction l as [|a l IH]; [done|]. cbn [update_first].
  destruct (p a) eqn:Hp; rewrite !find_in_cons, ?Hq; [by rewrite Hpq|by rewrite IH].
Qed.

(** ** Memberships *)

Definition row_key (m : Membership) : string * string := (m_sub m, m_org m).
(** One row per member of an organisation, one organisation per id *)
Definition control_wf (c : Control) : Prop := NoDup (row_key <$> memberships c) ∧ NoDup (o_id <$> orgs c).

Lemma is_row_key sub org m : is_row sub org m = true ↔ row_key m = (sub, org).
Proof. unfold is_row, row_key. rewrite andb_true_iff, !bool_decide_eq_true. naive_solver. Qed.
Lemma is_row_other sub org sub' org' m : (sub', org') ≠ (sub, org) → is_row sub org m = true → is_row sub' org' m = false.
Proof. intros Hne Hm%is_row_key. apply not_true_iff_false. rewrite is_row_key. congruence. Qed.

Lemma membership_None_key c sub org : membership c sub org = None → (sub, org) ∉ row_key <$> memberships c.
Proof.
  unfold membership. rewrite find_in_None. intros Hn (m & Hk & Hm)%list_elem_of_fmap. specialize (Hn m Hm).
  apply not_true_iff_false in Hn. apply Hn. by apply is_row_key.
Qed.

(** What an upsert of a row does, whichever of the two calls makes it *)
Lemma upsert_rows c sub org f row : control_wf c → (∀ m, row_key (f m) = row_key m) → row_key row = (sub, org) →
  let c' := set_memberships (match membership c sub org with
                             | Some _ => update_first (is_row sub org) f (memberships c)
                             | None => memberships c ++ [row]
                             end) c in
  control_wf c' ∧ orgs c' = orgs c ∧
  membership c' sub org = Some (default row (f <$> membership c sub org)) ∧
  ∀ sub' org', (sub', org') ≠ (sub, org) → membership c' sub' org' = membership c sub' org'.
Proof.
  intros [Hnd Ho] Hf Hrow. cbn zeta.
  assert (∀ s o m, is_row s o (f m) = is_row s o m) as Hr by (intros s o m; apply eq_bool_prop_intro; rewrite !Is_true_true, !is_row_key, Hf; done).
  unfold control_wf, membership, set_memberships. cbn [memberships orgs].
  destruct (find_in (is_row sub org) (memberships c)) as [m|] eqn:Hm; cbn [fmap option_fmap option_map default].
  - split_and!; [by rewrite update_first_fmap|done|done| |].
    + rewrite find_update_same by done. by rewrite Hm.
    + intros s o Hne. apply find_update_other; [done|]. intros a. by apply is_row_other.
  - split_and!; [|done|done| |].
    + rewrite fmap_app. apply NoDup_app. split; [done|]. split; [|apply NoDup_singleton].
      intros k Hk ->%list_elem_of_singleton. rewrite Hrow in Hk. by apply membership_None_key in Hm.
    + rewrite find_in_app, Hm, find_in_cons. by rewrite (proj2 (is_row_key sub org row) Hrow).
    + intros s o Hne. rewrite find_in_app, find_in_cons. destruct (find_in (is_row s o) (memberships c)) as [x|]; [done|].
      by rewrite (is_row_other sub org s o row Hne (proj2 (is_row_key sub org row) Hrow)).
Qed.

(** Upserting a member is exact and local: afterwards the member has the given role
    and scopes, nobody else's row and no organisation changed, there is still one row per
    member, and the call reports a change exactly when role or scopes differ. *)
Theorem upsert_membership_full_exact c sub org role scopes (Hc : control_wf c) :
  let '(c', changed) := upsert_membership_full c sub org role scopes in
  control_wf c' ∧ orgs c' = orgs c ∧
  (∃ m, membership c' sub org = Some m ∧ m_role m = role ∧ m_scopes m = scopes) ∧
  (∀ sub' org', (sub', org') ≠ (sub, org) → membership c' sub' org' = membership c sub' org') ∧
  (changed = false ↔ ∃ m, membership c sub org = Some m ∧ m_role m = role ∧ m_scopes m = scopes).
Proof.
  pose proof (upsert_rows c sub org (set_role_scopes role scopes) (fresh_row sub org role scopes) Hc (λ m, eq_refl) eq_refl) as Hu.
  unfold upsert_membership_full. cbn zeta in Hu. destruct (membership c sub org) as [m|] eqn:Hm.
  - destruct Hu as (Hw & Ho & Hs & Hx). split_and!; [done|done|eexists; split; [exact Hs|done]|done|].
    rewrite orb_false_iff, !negb_false_iff, !bool_decide_eq_true. naive_solver.
  - destruct Hu as (Hw & Ho & Hs & Hx). split_and!; [done|done|eexists; split; [exact Hs|done]|done|]. naive_solver.
Qed.

(** ** The control file *)

Lemma split_last_Some c l x y : split_last c l = Some (x, y) → l = x ++ c :: y ∧ c ∉ y.
Proof.
  revert x y. induction l as [|b l IH]; intros x y Hl; [done|]. cbn [split_last] in Hl.
  destruct (split_last c l) as [[x' y']|] eqn:E; [injection Hl as <- <-; destruct (IH x' y' eq_refl) as [-> ?]; done|].
  destruct (decide (b = c)) as [->|]; [|done]. injection Hl as <- <-. split; [done|]. clear -E.
  induction l as [|b l IH]; [by intros ?%not_elem_of_nil|]. cbn [split_last] in E. destruct (split_last c l) as [[]|]; [done|].
  destruct (decide (b = c)); [done|]. intros [->|Hin]%elem_of_cons; [done|]. by apply IH.
Qed.

(** The temporary is never the control file itself. *)
Lemma tmp_is_other path : with_extension path "json.tmp" ≠ path.
Proof.
  intros E. assert (as_bytes (with_extension path "json.tmp") = as_bytes path) as E' by (by rewrite E).
  unfold with_extension in E'. rewrite (String.list_byte_of_string_of_list_byte _ : as_bytes (string_of_bytes _) = _) in E'.
  assert (as_bytes path = match split_last slash_byte (as_bytes path) with Some (d, _) => d ++ [slash_byte] | None => [] end ++ file_name path) as Hp.
  { unfold file_name. destruct (split_last slash_byte (as_bytes path)) as [[d f]|] eqn:Hs; [|done].
    apply split_last_Some in Hs as [-> _]. by rewrite <-app_assoc. }
  rewrite Hp in E' at 2. apply app_inv_head in E'. unfold file_stem in E'.
  destruct (split_last dot_byte (file_name path)) as [[x y]|] eqn:Hd.
  2:{ rewrite <-(app_nil_r (file_name path)) in E' at 2. by apply app_inv_head in E'. }
  case_bool_decide; [rewrite <-(app_nil_r (file_name path)) in E' at 2; by apply app_inv_head in E'|].
  apply split_last_Some in Hd as [Hf Hy]. rewrite Hf in E'. apply app_inv_head in E'. injection E' as E'. apply Hy. rewrite <-E'.
  by apply (bool_decide_unpack _).
Qed.

Section file.
Context `{JsonText Control, !JsonTextLaws Control}.

Lemma save_loads io c path fs fs' r (Hsave : save io c path fs = (fs', r)) :
  match r with
  | Ok _ => load None path fs' = Ok c
  | Err _ => load None path fs' = load None path fs
  end ∧
  ∀ p, p ≠ path → p ≠ with_extension path "json.tmp" → fs' !! p = fs !! p.
Proof.
  pose proof (tmp_is_other path) as Hne. set (tmp := with_extension path "json.tmp") in *.
  assert (∀ b, load None path (<[tmp := b]> fs) = load None path fs) as Hl by (intros b; unfold load; by rewrite lookup_insert_ne).
  assert (∀ b p, p ≠ tmp → <[tmp := b]> fs !! p = fs !! p) as Ho by (intros b p Hp; by rewrite lookup_insert_ne).
  unfold save in Hsave. fold tmp in Hsave. unfold sbind at 1 in Hsave.
  assert ((if bool_decide (parent path = []) then sret tt else fs_step (io_mkdir io) id) fs = (fs, Ok tt) ∨
          ∃ e, (if bool_decide (parent path = []) then sret tt else fs_step (io_mkdir io) id) fs = (fs, Err e)) as [E|[e E]]
    by (case_bool_decide; [by left|]; unfold fs_step; destruct (io_mkdir io); eauto).
  2:{ rewrite E in Hsave. injection Hsave as <- <-. done. }
  rewrite E in Hsave. unfold sbind at 1, slift in Hsave. destruct (to_string_pretty c) as [json|m] eqn:Hj; [|by injection Hsave as <- <-].
  cbn [map_err] in Hsave. destruct (text_roundtrip c json Hj) as [Hback Hutf].
  unfold sbind, fs_write in Hsave. destruct (io_write io) as [[m [n|]]|]; [by injection Hsave as <- <-; auto..|].
  unfold fs_step in Hsave. destruct (io_rename io) as [m|]; [injection Hsave as <- <-; auto|]. injection Hsave as <- <-.
  unfold fs_rename. rewrite lookup_insert_eq, delete_insert_eq. split.
  - unfold load. rewrite lookup_insert_eq, Hutf. unfold string_of_bytes, as_bytes. by rewrite String.string_of_list_byte_of_string, Hback.
  - intros p Hp Ht. rewrite lookup_insert_ne by done. by rewrite lookup_delete_ne.
Qed.

(** [C32] Saving the control plane is atomic: whatever step the file system fails at, and
    however much of the temporary was written, the next load reads exactly what it would
    have read before when the save reports an error, and the new control plane when it
    reports success; no other file but the temporary is touched. *)
Theorem save_atomic io c path fs fs' r (Hsave : save io c path fs = (fs', r)) :
  match r with
  | Ok _ => load None path fs' = Ok c
  | Err _ => load None path fs' = load None path fs
  end ∧
  ∀ p, p ≠ path → p ≠ with_extension path "json.tmp" → fs' !! p = fs !! p.
Proof. by apply (save_loads io). Qed.
End file.

(** ** The allowlist *)

Lemma norm_opt_Some o b : norm_opt o = Some b → ∃ s, o = Some s ∧ b = norm s ∧ b ≠ [].
Proof. unfold norm_opt. destruct o as [s|]; [|done]. case_bool_decide; [done|]. intros [= <-]. eauto. Qed.
Lemma hit_Some a b : hit a b = true ↔ ∃ x, a = Some x ∧ b = Some x.
Proof. destruct a as [x|], b as [y|]; cbn; rewrite ?bool_decide_eq_true; naive_solver. Qed.

(** Two texts name the same identity: equal up to case and surrounding space, not blank. *)
Definition same_identity (s t : string) : Prop := norm s = norm t ∧ norm s ≠ [].

(** Only a verified address or a wallet admits anyone: a match is a member of the list
    whose address is the caller's verified one, or whose wallet is the caller's; an
    unverified address on its own matches nobody, and neither does an entry that names no
    identity. *)
Theorem match_identity_trusted self email verified wallet e (Hm : match_identity self email verified wallet = Some e) :
  e ∈ members self ∧
  ((∃ a b, verified = true ∧ email = Some a ∧ al_email e = Some b ∧ same_identity a b) ∨
   (∃ a b, wallet = Some a ∧ al_wallet e = Some b ∧ same_identity a b)).
Proof.
  unfold match_identity in Hm. case_match; [done|]. apply find_in_Some in Hm as [Hin Hh]. split; [done|].
  apply orb_true_iff in Hh as [(x & H1 & H2)%hit_Some|(x & H1 & H2)%hit_Some].
  - destruct verified; [|done]. apply norm_opt_Some in H1 as (a & -> & Ha & Hne). apply norm_opt_Some in H2 as (b & -> & Hb & _).
    left. exists a, b. split_and!; [done..|]. split; congruence.
  - apply norm_opt_Some in H1 as (a & -> & Ha & Hne). apply norm_opt_Some in H2 as (b & -> & Hb & _).
    right. exists a, b. split_and!; [done..|]. split; congruence.
Qed.

(** ** Push events *)

Section webhook.
Context `{Env}.

(** A name that is one path component and holds nothing a shell or a path gives meaning to *)
Definition safe_name (name : bytes) : Prop :=
  name ≠ [] ∧ name ≠ as_bytes "." ∧ name ≠ as_bytes ".." ∧ (length name ≤ 100)%nat ∧ Forall (λ b, is_name_byte b = true) name.

Lemma is_safe_repo_name_iff name : is_safe_repo_name name = true ↔ safe_name name.
Proof.
  unfold is_safe_repo_name, safe_name. change (as_bytes ".") with [dot_byte]. change (as_bytes "..") with [dot_byte; dot_byte].
  rewrite Forall_forall. setoid_rewrite list_elem_of_In. destruct (_ || _) eqn:E.
  - rewrite !orb_true_iff, !bool_decide_eq_true in E. split; [done|]. intros (? & ? & ? & ? & _). lia || naive_solver lia.
  - rewrite !orb_false_iff, !bool_decide_eq_false in E. rewrite forallb_forall. destruct E as [[[? ?] ?] ?].
    split; [intros Hf; split_and!; [done..|lia|done]|by intros (_ & _ & _ & _ & ?)].
Qed.

Lemma safe_name_plain name : safe_name name → slash_byte ∉ name ∧ newline ∉ name ∧ Byte.x00 ∉ name ∧ Byte.x20 ∉ name.
Proof.
  intros (_ & _ & _ & _ & Hb). rewrite Forall_forall in Hb. split_and!; intros Hin; by apply Hb in Hin.
Qed.

Lemma allowed_repo_spec (full_name repo : string) :
  allowed_repo full_name = Some repo ↔ full_name = allowed_owner +:+ "/" +:+ repo ∧ slash_byte ∉ as_bytes allowed_owner ∧ safe_name (as_bytes repo).
Proof.
  unfold allowed_repo. destruct (split_once slash_byte (as_bytes full_name)) as [[owner name]|] eqn:Hs.
  - apply split_once_spec in Hs as [Hf Ho]. case_bool_decide as He; cbn [negb].
    + subst owner. destruct (is_safe_repo_name name) eqn:Hn; cbn [negb].
      * apply is_safe_repo_name_iff in Hn. split.
        -- intros [= <-]. rewrite as_bytes_string. split_and!; [|done|done]. apply (inj as_bytes). by rewrite Hf, !as_bytes_app, as_bytes_string.
        -- intros (E & _ & _). f_equal. rewrite E, !as_bytes_app in Hf. apply app_inv_head in Hf. injection Hf as Hf.
           apply (inj as_bytes). by rewrite as_bytes_string.
      * split; [done|]. intros (E & _ & Hr). rewrite E, !as_bytes_app in Hf. apply app_inv_head in Hf. injection Hf as Hf.
        rewrite <-Hf in Hn. apply is_safe_repo_name_iff in Hr. congruence.
    + split; [done|]. intros (E & Hns & _). destruct He. rewrite E, !as_bytes_app in Hf.
      assert (split_once slash_byte (as_bytes allowed_owner ++ slash_byte :: as_bytes repo) = Some (as_bytes allowed_owner, as_bytes repo)) as H1
        by (by apply split_once_spec).
      assert (split_once slash_byte (as_bytes allowed_owner ++ slash_byte :: as_bytes repo) = Some (owner, name)) as H2
        by (apply split_once_spec; done).
      congruence.
  - apply split_once_none in Hs. split; [done|]. intros (-> & _ & _). destruct Hs. rewrite !as_bytes_app. apply elem_of_app. right. by left.
Qed.
Lemma allowed_repo_safe full repo : allowed_repo full = Some repo → safe_name (as_bytes repo).
Proof. intros (_ & _ & Hs)%allowed_repo_spec. done. Qed.

(** An accepted push names a safe repository of the configured owner: the full name is
    the owner, a slash and a name of at most 100 letters, digits and [-_.], not [.] or
    [..]; and every such name is accepted. *)
Theorem allowed_repo_iff (full_name repo : string) :
  allowed_repo full_name = Some repo ↔ full_name = allowed_owner +:+ "/" +:+ repo ∧ slash_byte ∉ as_bytes allowed_owner ∧ safe_name (as_bytes repo).
Proof. apply allowed_repo_spec. Qed.
End webhook.
