(* ===== verification/Corpus.v ===== *)
(** * Corpus data and sources ([mem-corpus/src/lib.rs], [spec.rs], [lock.rs], [manifest.rs], [walk.rs])

    The specification of a corpus, the lock of the skills it may ship, the manifest it
    ships with, and the file access of the build, which follows no symbolic link.  What the
    file system answers is a parameter ([Files]), and so are TOML, JSON and SHA-256. *)

From S2P Require Import Prelude Bytes Externs Text Str Node Edge Frontmatter Display Chunk Docs Git Ingest Control Identity Float Index Sync.

(** ** Constants and errors *)

Definition KNOWLEDGE_TENANTS : list string := ["citrate-docs"; "methodology"; "refs"; "skills"].
Definition FORMAT : string := "citrate-corpus/2".
Definition TENANTS_DIR : string := "tenants".
Definition MANIFEST_FILE : string := "manifest.json".
Definition SKILLS_LOCK_FILE : string := "skills.lock".
Definition NOTICE_FILE : string := "NOTICE.md".
Definition tenant_file (tenant : string) : string := TENANTS_DIR +:+ "/" +:+ tenant +:+ ".corpus.json".

Inductive CorpusError :=
| SpecError (m : string)
| LockError (m : string)
| SourceError (source_id msg : string)
| CorpusIo (m : string)
| CorpusSerde (m : string)
| VerifyError (m : string)
| CorpusStore (m : string)
| CorpusEmbed (m : string).
Definition CorpusError_display (e : CorpusError) : string :=
  match e with
  | SpecError m => "corpus spec: " +:+ m
  | LockError m => "skills.lock: " +:+ m
  | SourceError s m => "source " +:+ s +:+ ": " +:+ m
  | CorpusIo m => "io: " +:+ m
  | CorpusSerde m => "serialization: " +:+ m
  | VerifyError m => "corpus verification failed: " +:+ m
  | CorpusStore m => "store: " +:+ m
  | CorpusEmbed m => "embedding: " +:+ m
  end.

Class Sha256 := sha256 : bytes → array 32.
Definition sha256_hex `{Sha256, Hex} (b : bytes) : string := hex_encode (array_bytes (sha256 b)).

(** ** The file system *)

Inductive FileType := RegularFile | Directory | Symlink | OtherFile.
Record Files := {
  (** [symlink_metadata]: the type and the length, or whether the path is missing and the error *)
  symlink_meta : string → result (bool * string) (FileType * Z);
  (** [File::open(p)?.take(n).read_to_end(..)] *)
  read_up_to : string → Z → result string bytes;
  (** [std::fs::read] *)
  read_file : string → result string bytes;
  (** [std::fs::read_dir]: the file names of the entries *)
  dir_entries : string → result string (list (result string bytes));
  (** [Path::exists] *)
  path_exists : string → bool;
}.

Definition MAX_FILE_BYTES : Z := 1024 * 1024.
Definition MAX_DEPTH : nat := 12.

Inductive Component := RootDir | CurDir | ParentDir | Normal (name : string).
Definition component (first : bool) (seg : bytes) : option Component :=
  if bool_decide (seg = []) then None
  else if bool_decide (seg = as_bytes ".") then (if first then Some CurDir else None)
  else if bool_decide (seg = as_bytes "..") then Some ParentDir
  else Some (Normal (string_of_bytes seg)).
(** [Path::components]: repeated separators and inner [.] are dropped *)
Definition components (p : string) : list Component :=
  match split slash (as_bytes p) with
  | [] => []
  | seg :: segs =>
    (if String.prefix "/" p then [RootDir] else option_list (component true seg)) ++ omap (component false) segs
  end.

Definition is_inner (c : Component) : bool := match c with Normal _ | CurDir => true | _ => false end.

Inductive Refusal := Missing | NotRegularFile | TooLargeFile (n : Z) | Unreadable (m : string).
Definition Refusal_display (r : Refusal) : string :=
  match r with
  | Missing => "missing"
  | NotRegularFile => "not a regular file (symlink, device or directory)"
  | TooLargeFile n => "too large (" +:+ decimal n +:+ " bytes > " +:+ decimal MAX_FILE_BYTES +:+ ")"
  | Unreadable e => "unreadable: " +:+ e
  end.

Section walk.
Context `{CharTables}.

Definition check_relative (p : string) : result string unit :=
  if bool_decide (p = "") then Err "empty path"
  else if bool_decide (Byte.x5c ∈ as_bytes p) then Err (str_debug p +:+ " uses a backslash; use `/`")
  else if forallb is_inner (components p) then Ok tt
  else Err (str_debug p +:+ " must be relative and stay inside its base").

(** The path of a file below [cur], when every directory on the way is one *)
Fixpoint descend (fs : Files) (cur : string) (comps : list Component) : result Refusal string :=
  match comps with
  | [] => Ok cur
  | Normal name :: rest =>
    let cur := path_join cur name in
    match symlink_meta fs cur with
    | Err (true, _) => Err Missing
    | Err (false, e) => Err (Unreadable e)
    | Ok (ft, len) =>
      let ok := match rest, ft with [], RegularFile | _ :: _, Directory => true | _, _ => false end in
      if negb ok then Err NotRegularFile
      else match rest with
           | [] => if MAX_FILE_BYTES <? len then Err (TooLargeFile len) else Ok cur
           | _ => descend fs cur rest
           end
    end
  | _ :: rest => descend fs cur rest
  end.

Definition read_regular (fs : Files) (root rel : string) : result Refusal bytes :=
  let? _ := map_err Unreadable (check_relative rel) in
  let? cur := descend fs root (components rel) in
  let? buf := map_err Unreadable (read_up_to fs cur (MAX_FILE_BYTES + 1)) in
  if MAX_FILE_BYTES <? Z.of_nat (length buf) then Err (TooLargeFile (Z.of_nat (length buf))) else Ok buf.
End walk.

Definition is_real_dir (fs : Files) (root : string) : bool :=
  match symlink_meta fs root with Ok (Directory, _) => true | _ => false end.

Definition has_ext (name : string) (extensions : list string) : bool :=
  match rsplit_once_str (as_bytes ".") (as_bytes name) with
  | Some (stem, ext) => negb (bool_decide (stem = [])) && existsb (λ e, eq_ignore_ascii_case (as_bytes e) ext) extensions
  | None => false
  end.

Abbreviation Listing := (list string * list (string * string))%type.

Definition entry_names (l : list (result string bytes)) : list string :=
  sort_by_key id (string_of_bytes <$> filter (λ b, utf8_valid b = true) (omap rok l)).

(** [walk] at the depth that leaves [levels] more *)
Fixpoint walk_files (fs : Files) (extensions exclude_dirs : list string) (levels : nat) (dir pre : string) (acc : Listing) : result string Listing :=
  match levels with
  | O => Ok (acc.1, acc.2 ++ [(pre, "deeper than " +:+ decimal (Z.of_nat MAX_DEPTH) +:+ " levels")])
  | S levels =>
    let? names := map_err (λ e, "read_dir " +:+ dir +:+ ": " +:+ e) (dir_entries fs dir) in
    rfold (λ acc name,
      let path := path_join dir name in
      let rel := if bool_decide (pre = "") then name else pre +:+ "/" +:+ name in
      let? meta := map_err (λ e, "stat " +:+ rel +:+ ": " +:+ e.2) (symlink_meta fs path) in
      match meta.1 with
      | Symlink => Ok (if has_ext name extensions then (acc.1, acc.2 ++ [(rel, "symlink (not followed)")]) else acc)
      | Directory =>
        if String.prefix "." name || bool_decide (name ∈ exclude_dirs) then Ok acc
        else walk_files fs extensions exclude_dirs levels path rel acc
      | RegularFile => Ok (if has_ext name extensions then (acc.1 ++ [rel], acc.2) else acc)
      | OtherFile => Ok acc
      end) acc (entry_names names)
  end.

Definition list_files (fs : Files) (root : string) (extensions exclude_dirs : list string) : result string Listing :=
  let? acc := walk_files fs extensions exclude_dirs (S MAX_DEPTH) root "" ([], []) in
  Ok (sort_by_key id acc.1, sort_by_key id acc.2).

(** ** The specification *)

Definition SPEC_VERSION : Z := 1.
Inductive SourceKind := DocsSource | SkillsSource.
#[export] Instance SourceKind_eq_dec : EqDecision SourceKind.
Proof. solve_decision. Defined.

Record SourceSpec := {
  ss_id : string; ss_tenant : string; ss_kind : SourceKind; ss_root : string; ss_repo : option string; ss_repo_path : string;
  ss_upstream : string; ss_license : string; ss_licence_cleared : bool; ss_licence_note : option string; ss_attribution : option string;
  ss_commit : option string; ss_optional : bool; ss_extensions : list string; ss_include : list string; ss_exclude_dirs : list string;
  ss_require_frontmatter : gmap string string; ss_skills_lock : option string; ss_lock_source : option string }.
Definition cite_repo (s : SourceSpec) : string := default (ss_id s) (ss_repo s).

Record CorpusSpec := { cs_version : Z; cs_name : string; cs_max_chunk_chars : nat; cs_sources : list SourceSpec }.

(** ** The skills lock *)

Record LockSource := { ls_label : string; ls_upstream : string; ls_commit : string; ls_license : string }.
Record LockRef := { lr_path : string; lr_sha256 : string }.
Record LockSkill := {
  lk_name : string; lk_source : string; lk_commit : string; lk_path : string; lk_verdict : string;
  lk_skill_md_sha256 : option string; lk_refs : list LockRef }.
Record SkillsLock := { sl_version : Z; sl_sources : list LockSource; sl_skills : list LockSkill }.

Inductive Ship := ShipText | ShipNo.

(** [toml::from_str] of the two documents *)
Class Toml := {
  spec_from_toml : string → result string CorpusSpec;
  lock_from_toml : string → result string SkillsLock;
}.

Section documents.
Context `{CharTables, Toml}.

Definition ship (s : LockSkill) : result CorpusError Ship :=
  if bool_decide (lk_verdict s ∈ ["include-as-is"; "include-with-scripts-stripped"; "convert-script-to-capsule"]) then Ok ShipText
  else if bool_decide (lk_verdict s = "exclude") then Ok ShipNo
  else Err (LockError ("skill " +:+ str_debug (lk_name s) +:+ ": unknown verdict " +:+ str_debug (lk_verdict s) +:+ " (refusing to guess)")).

Definition lock_of_text (text : string) : result CorpusError SkillsLock :=
  let? lock := map_err LockError (lock_from_toml text) in
  if negb (bool_decide (sl_version lock = 1)) then Err (LockError ("unsupported skills.lock version " +:+ decimal (sl_version lock)))
  else Ok lock.
Definition lock_source (lock : SkillsLock) (label : string) : option LockSource := snd <$> list_find (λ s, ls_label s = label) (sl_sources lock).

Definition is_id_char (b : byte) : bool := negb (bool_decide (b ∈ [slash; Byte.x5c; Byte.x7c])).
Definition is_repo_char (c : Z) : bool := negb ((c =? 0x3a) || (c =? 0x23) || (c =? 0x7c) || is_whitespace c).

Definition in_source (s : SourceSpec) (what : string) (r : result string unit) : result CorpusError unit :=
  map_err (λ e, SpecError ("source " +:+ str_debug (ss_id s) +:+ " " +:+ what +:+ ": " +:+ e)) r.

Definition check_kind (s : SourceSpec) : result CorpusError unit :=
  match ss_kind s with
  | DocsSource =>
    if bool_decide (ss_extensions s = []) && bool_decide (ss_include s = [])
    then Err (SpecError ("docs source " +:+ str_debug (ss_id s) +:+ " needs `extensions` or `include`")) else Ok tt
  | SkillsSource =>
    match ss_skills_lock s, ss_lock_source s with
    | Some lock, Some _ => in_source s "skills_lock" (check_relative lock)
    | _, _ => Err (SpecError ("skills source " +:+ str_debug (ss_id s) +:+ " needs `skills_lock` and `lock_source`"))
    end
  end.

Definition check_source (seen : gset string) (s : SourceSpec) : result CorpusError (gset string) :=
  if bool_decide (ss_id s ∈ seen) then Err (SpecError ("duplicate source id " +:+ str_debug (ss_id s)))
  else if negb (bool_decide (ss_tenant s ∈ KNOWLEDGE_TENANTS)) then
    Err (SpecError ("source " +:+ str_debug (ss_id s) +:+ ": tenant " +:+ str_debug (ss_tenant s) +:+ " is not a knowledge tenant"))
  else if bool_decide (ss_id s = "") || negb (forallb is_id_char (as_bytes (ss_id s))) then
    Err (SpecError ("source id " +:+ str_debug (ss_id s) +:+ " is not a plain name"))
  else
    let? _ := in_source s "root" (check_relative (ss_root s)) in
    let repo := cite_repo s in
    if bool_decide (repo = "") || negb (forallb is_repo_char (chars (as_bytes repo))) then
      Err (SpecError ("source " +:+ str_debug (ss_id s) +:+ ": repo " +:+ str_debug repo +:+ " must be a plain name (no ':', '#', '|' or spaces)"))
    else
      let? _ := if bool_decide (ss_repo_path s = "") then Ok tt else in_source s "repo_path" (check_relative (ss_repo_path s)) in
      let? _ := rfold (λ _ f, in_source s "include" (check_relative f)) tt (ss_include s) in
      let? _ := check_kind s in
      Ok ({[ss_id s]} ∪ seen).

Definition validate (spec : CorpusSpec) : result CorpusError unit :=
  if negb (bool_decide (cs_version spec = SPEC_VERSION)) then
    Err (SpecError ("unsupported spec version " +:+ decimal (cs_version spec) +:+ " (expected " +:+ decimal SPEC_VERSION +:+ ")"))
  else if bool_decide (cs_max_chunk_chars spec < 200)%nat then Err (SpecError "max_chunk_chars must be at least 200")
  else rmap (λ _, tt) (rfold check_source ∅ (cs_sources spec)).

Definition spec_of_text (text : string) : result CorpusError CorpusSpec :=
  let? spec := map_err SpecError (spec_from_toml text) in
  let? _ := validate spec in
  Ok spec.
End documents.

(** ** The manifest *)

Record FileEntry := { fe_path : string; fe_sha256 : string; fe_bytes : Z; fe_chunks : nat }.
Record SkippedEntry := { sk_path : string; sk_reason : string }.
Record SourceEntry := {
  sy_id : string; sy_tenant : string; sy_repo : string; sy_repo_path : string; sy_upstream : string; sy_commit : string; sy_license : string;
  sy_licence_cleared : bool; sy_licence_note : option string; sy_attribution : option string; sy_included : bool;
  sy_excluded_reason : option string; sy_files : list FileEntry; sy_skipped : list SkippedEntry }.
Record VectorsEntry := { ve_file : string; ve_sha256 : string; ve_encoding : string; ve_model : string; ve_dim : nat; ve_weights_sha256 : string }.
Record TenantEntry := {
  te_tenant : string; te_file : string; te_sha256 : string; te_nodes : nat; te_edges : nat; te_vectors : option VectorsEntry }.
Record Manifest := {
  mf_format : string; mf_name : string; mf_source_date_ms : Z; mf_builder : string; mf_spec_sha256 : string;
  mf_skills_lock_sha256 : option string; mf_sources : list SourceEntry; mf_tenants : list TenantEntry; mf_bundle_digest : string }.
Definition with_digest (d : string) (m : Manifest) : Manifest :=
  {| mf_format := mf_format m; mf_name := mf_name m; mf_source_date_ms := mf_source_date_ms m; mf_builder := mf_builder m;
     mf_spec_sha256 := mf_spec_sha256 m; mf_skills_lock_sha256 := mf_skills_lock_sha256 m; mf_sources := mf_sources m;
     mf_tenants := mf_tenants m; mf_bundle_digest := d |}.

Section manifest.
Context `{Sha256, Hex, Serde Manifest, JsonText Manifest}.

Definition compute_digest (m : Manifest) : result CorpusError string :=
  rmap sha256_hex (map_err CorpusSerde (to_vec (with_digest "" m))).
Definition manifest_to_json (m : Manifest) : result CorpusError string :=
  rmap (λ s, s +:+ eol) (map_err CorpusSerde (to_string_pretty m)).
Definition manifest_from_json (text : string) : result CorpusError Manifest :=
  map_err (λ e, VerifyError ("manifest: " +:+ e)) (from_text text).
End manifest.

Definition bullet (k v : string) : string := "- " +:+ k +:+ ": " +:+ v +:+ eol.
Definition source_notice (s : SourceEntry) : string :=
  "## " +:+ sy_id s +:+ eol +:+ eol +:+ bullet "Upstream" (sy_upstream s) +:+ bullet "Commit" (sy_commit s) +:+ bullet "Licence" (sy_license s)
  +:+ match sy_attribution s with Some a => bullet "Attribution" a | None => "" end
  +:+ "- Changes: chunked into memory nodes; " +:+ decimal (Z.of_nat (length (sy_files s))) +:+ " file(s) included, "
  +:+ decimal (Z.of_nat (length (sy_skipped s))) +:+ " left out (listed in manifest.json)." +:+ eol +:+ eol.
Definition notice (m : Manifest) : string :=
  let excluded := filter (λ s, sy_included s = false) (mf_sources m) in
  "# " +:+ mf_name m +:+ " knowledge corpus: notices" +:+ eol +:+ eol
  +:+ "This corpus is a derived work: each source below was split into text chunks for a local memory graph. Executable files are never included. Skills ship only the files the skills.lock pins."
  +:+ eol +:+ eol
  +:+ String.concat "" (source_notice <$> filter (λ s, sy_included s = true) (mf_sources m))
  +:+ if bool_decide (excluded = []) then ""
      else "## Not included" +:+ eol +:+ eol +:+ String.concat "" ((λ s, bullet (sy_id s) (default "excluded" (sy_excluded_reason s))) <$> excluded).

(** * Tenant files and vectors ([mem-corpus/src/bundle.rs], [vectors.rs])

    A tenant file holds a bundle with its texts as JSON strings and its edge endpoints as
    hex; the vectors file holds one half-precision vector per node. *)

(** ** The compact encoding *)

Record CompactBundle := {
  cb_repo : string; cb_exported_at_ms : Timestamp; cb_nodes : list (gmap string Value); cb_edges : list (gmap string Value) }.

(** [serde_json::to_value], and the text of a compact bundle *)
Class ToValue (A : Type) := to_value : A → result string Value.
#[global] Hint Mode ToValue ! : typeclass_instances.
Class CompactText := {
  compact_to_string : CompactBundle → result string string;
  compact_from_str : string → result string CompactBundle;
}.

Definition object (v : Value) (what : string) : result CorpusError (gmap string Value) :=
  match v with JObject m => Ok m | _ => Err (CorpusSerde (what +:+ " did not serialize to an object")) end.
Definition bytes_value (b : bytes) : Value := JArray ((λ x, JNumber (PosInt (byte_Z x))) <$> b).
Definition is_lower_hex (x : byte) : bool := is_digit x || in_range 0x61 0x66 x.

Section bundle.
Context `{Hex, ToValue MemoryNode, ToValue Edge, FromJson MemoryNode, FromJson Edge, CompactText}.

Definition compact_node (n : MemoryNode) : result CorpusError (gmap string Value) :=
  let? v := map_err CorpusSerde (to_value n) in
  let? m := object v "node" in
  Ok (if utf8_valid (n_content n) then <["content" := JString (string_of_bytes (n_content n))]> m else m).
Definition compact_edge (e : Edge) : result CorpusError (gmap string Value) :=
  let? v := map_err CorpusSerde (to_value e) in
  let? m := object v "edge" in
  Ok (<["to" := JString (to_hex (e_to e))]> (<["from" := JString (to_hex (e_from e))]> m)).

(** [.map(f).collect::<Result<Vec<_>, _>>()] *)
Definition try_map {E A B} (f : A → result E B) (l : list A) : result E (list B) :=
  rfold (λ out a, let? b := f a in Ok (out ++ [b])) [] l.

Definition encode (b : SyncBundle) : result CorpusError string :=
  let? nodes := try_map compact_node (s_nodes b) in
  let? edges := try_map compact_edge (s_edges b) in
  map_err CorpusSerde
    (compact_to_string {| cb_repo := s_repo b; cb_exported_at_ms := s_exported_at_ms b; cb_nodes := nodes; cb_edges := edges |}).

Definition hash_value (field : string) (v : Value) : result CorpusError Value :=
  let? s := ok_or (as_str v) (VerifyError ("edge " +:+ field +:+ " is not a hex string")) in
  if negb (bool_decide (String.length s = 64%nat)) || negb (forallb is_lower_hex (as_bytes s))
  then Err (VerifyError ("edge " +:+ field +:+ " is not 64 lowercase hex characters"))
  else rmap bytes_value (map_err VerifyError (hex_decode s)).

Definition expand_node (m : gmap string Value) : result CorpusError MemoryNode :=
  let m := match m !! "content" with Some (JString s) => <["content" := bytes_value (as_bytes s)]> m | _ => m end in
  map_err VerifyError (from_value (JObject m)).
Definition expand_field (m : gmap string Value) (field : string) : result CorpusError (gmap string Value) :=
  let? v := ok_or (m !! field) (VerifyError ("edge has no " +:+ field)) in
  let? expanded := hash_value field v in
  Ok (<[field := expanded]> m).
Definition expand_edge (m : gmap string Value) : result CorpusError Edge :=
  let? m := rfold expand_field m ["from"; "to"] in
  map_err VerifyError (from_value (JObject m)).

Definition decode (text : string) : result CorpusError SyncBundle :=
  let? c := map_err VerifyError (compact_from_str text) in
  let? nodes := try_map expand_node (cb_nodes c) in
  let? edges := try_map expand_edge (cb_edges c) in
  Ok {| s_repo := cb_repo c; s_exported_at_ms := cb_exported_at_ms c; s_nodes := nodes; s_edges := edges |}.
End bundle.

(** ** Vectors *)

Definition ENCODING_F16LE : string := "f16le".
Definition MAX_DIM : nat := 4096.
Definition vectors_file (tenant : string) : string := TENANTS_DIR +:+ "/" +:+ tenant +:+ ".vectors.f16".

(** [half::f16]: to and from its two bytes *)
Class Half := {
  f16_to_le_bytes : f32 → byte * byte;
  f16_from_le_bytes : byte → byte → f32;
}.

Definition checked_usize (z : Z) : option Z := if z <=? u64_max then Some z else None.

Section vectors.
Context `{Half, FloatNan}.

Definition encode_vector (dim : nat) (out : bytes) (v : list f32) : result CorpusError bytes :=
  if negb (bool_decide (length v = dim)) then
    Err (CorpusEmbed ("vector of length " +:+ decimal (Z.of_nat (length v)) +:+ " where " +:+ decimal (Z.of_nat dim) +:+ " was expected"))
  else Ok (out ++ flat_map (λ x, [(f16_to_le_bytes x).1; (f16_to_le_bytes x).2]) v).
Definition encode_vectors (vectors : list (list f32)) (dim : nat) : result CorpusError bytes := rfold (encode_vector dim) [] vectors.

(** [as_chunks::<2>().0] *)
Fixpoint halves (l : bytes) : list f32 :=
  match l with a :: b :: l => f16_from_le_bytes a b :: halves l | _ => [] end.

Definition vector_at (b : bytes) (dim index : nat) (model : string) : option VersionedVector :=
  start ← checked_usize (Z.of_nat index * Z.of_nat dim) ≫= λ n, checked_usize (n * 2);
  width ← checked_usize (Z.of_nat dim * 2);
  end_ ← checked_usize (start + width);
  if negb (end_ <=? Z.of_nat (length b)) then None
  else
    let data := halves (take (Z.to_nat width) (drop (Z.to_nat start) b)) in
    if negb (forallb f32_is_finite data) then None
    else Some {| vv_model := model; vv_data := if f32_gtb (Float.norm data) f32_zero then (λ x, fdiv x (Float.norm data)) <$> data else data |}.
End vectors.
