(* ===== verification/CorpusBuild.v ===== *)
(** * Building a corpus ([mem-corpus/src/build.rs])

    The sources of a specification become the graphs of the knowledge tenants, their files
    and the manifest.  The file system and git are parameters; writing a corpus is the list
    of writes that were carried out, with an error for any of them. *)

From S2P Require Import Prelude Bytes Externs Text Str Belnap Identity Node Float Edge Frontmatter Display Index Chunk Docs Git Ingest Control Sync.
From S2P Require Import Corpus.

Definition CORPUS_ASSERTER : string := "corpus".
Definition BUILDER : string := "mem-corpus 0.0.1".

Record BuildOptions := { bo_sources_base : string; bo_source_date_ms : Timestamp }.
Record TenantFile := { tf_tenant : string; tf_rel_path : string; tf_bytes : bytes }.
Record BuiltCorpus := {
  bc_manifest : Manifest; bc_tenants : list TenantFile; bc_vector_files : list TenantFile; bc_skills_lock : option bytes }.

(** ** Graphs *)

Record TenantGraph := { tg_nodes : gmap ContentHash MemoryNode; tg_edges : gmap bytes Edge }.
Definition empty_graph : TenantGraph := {| tg_nodes := ∅; tg_edges := ∅ |}.
(** [entry(k).or_insert(v)] *)
Definition or_insert {K A} `{Countable K} (k : K) (a : A) (m : gmap K A) : gmap K A :=
  match m !! k with Some _ => m | None => <[k := a]> m end.

Section nodes.
Context `{Blake3}.

Definition add_node (g : TenantGraph) (n : MemoryNode) : TenantGraph :=
  {| tg_nodes := or_insert (compute_id n) n (tg_nodes g); tg_edges := tg_edges g |}.
Definition graph_add_edge (g : TenantGraph) (e : Edge) : TenantGraph :=
  {| tg_nodes := tg_nodes g; tg_edges := or_insert (Edge_key e) e (tg_edges g) |}.

Definition corpus_node (source : SourceSpec) (rel file_sha : string) (span : Z * Z) (content : bytes) (source_date_ms : Timestamp)
    (fm : gmap string string) : MemoryNode :=
  {| n_schema_version := SCHEMA_VERSION; n_plane := Derived; n_kind := Doc; n_repo := ss_tenant source; n_author := "corpus:" +:+ ss_id source;
     n_source_ref := Artifact (cite_repo source) (string_of_bytes (repo_relative (as_bytes (ss_repo_path source)) (as_bytes rel))) file_sha span.1 span.2;
     n_content := content; n_valid_from := default source_date_ms (created_ms fm); n_valid_to := None; n_observed_at := source_date_ms;
     n_trust_tier := DerivedDeterministic; n_signature := None; n_embedding := None; n_confidence := [True_]; n_anchors := []; n_status := Active |}.
Definition doc_node (source : SourceSpec) (rel file_sha : string) (title : bytes) (source_date_ms : Timestamp) (fm : gmap string string) : MemoryNode :=
  corpus_node source rel file_sha (0, 0) title source_date_ms fm.

Definition corpus_edge (from to : ContentHash) (kind : EdgeKind) (at_ : Timestamp) (evidence : string) : Edge :=
  {| e_from := from; e_to := to; e_kind := kind; e_plane := Derived; e_trust_tier := DerivedDeterministic;
     e_provenance := {| p_method := Edge.Ingest; p_asserter := CORPUS_ASSERTER; p_at := at_; p_evidence := Some evidence |};
     e_confidence := [True_]; e_quarantined := false; e_signature := None |}.

(** ** Files *)

Definition chunk_content (c : Chunk) : bytes := k_breadcrumb c ++ [newline; newline] ++ k_text c.

Section files.
Context `{Sha256, Hex}.

Definition add_chunk (source : SourceSpec) (rel file_sha : string) (doc_id : ContentHash) (date : Timestamp) (fm : gmap string string)
    (g : TenantGraph) (c : Chunk) : TenantGraph :=
  let n := corpus_node source rel file_sha (Z.of_nat (k_byte_start c), Z.of_nat (k_byte_end c)) (chunk_content c) date fm in
  graph_add_edge (add_node g n) (corpus_edge (compute_id n) doc_id DerivedFrom date rel).

Definition file_title (rel : string) (headline : option bytes) (text : bytes) : bytes :=
  let '(fm, body) := parse text in
  match headline with Some h => h | None => title_of (as_bytes rel) (as_bytes <$> fm !! "title") body end.

(** [add_file]: the graph and the number of chunks; [text] is [bytes] read as UTF-8 *)
Definition add_file (spec : CorpusSpec) (source : SourceSpec) (rel : string) (text : bytes) (headline : option bytes) (date : Timestamp)
    (g : TenantGraph) : TenantGraph * nat :=
  let file_sha := sha256_hex text in
  let '(fm, body) := parse text in
  let title := file_title rel headline text in
  let doc := doc_node source rel file_sha title date fm in
  let cs := chunk_text title body (length text - length body) (cs_max_chunk_chars spec) in
  (foldl (add_chunk source rel file_sha (compute_id doc) date fm) (add_node g doc) cs, length cs).

Definition file_entry (rel : string) (b : bytes) (chunks : nat) : FileEntry :=
  {| fe_path := rel; fe_sha256 := sha256_hex b; fe_bytes := Z.of_nat (length b); fe_chunks := chunks |}.

(** What a source has added so far *)
Record Building := { bd_graph : TenantGraph; bd_files : list FileEntry; bd_skipped : list SkippedEntry }.
Definition skip (path reason : string) (b : Building) : Building :=
  {| bd_graph := bd_graph b; bd_files := bd_files b; bd_skipped := bd_skipped b ++ [{| sk_path := path; sk_reason := reason |}] |}.
Definition ship_file (spec : CorpusSpec) (source : SourceSpec) (rel : string) (b : bytes) (headline : option bytes) (date : Timestamp) (st : Building) : Building :=
  let '(g, chunks) := add_file spec source rel b headline date (bd_graph st) in
  {| bd_graph := g; bd_files := bd_files st ++ [file_entry rel b chunks]; bd_skipped := bd_skipped st |}.

Definition src_err (source : SourceSpec) (msg : string) : CorpusError := SourceError (ss_id source) msg.

Context `{CharTables}.

(** The first required key the frontmatter does not have with its value *)
Definition unmet (require fm : gmap string string) : option (string * string) :=
  snd <$> list_find (λ p, (trim_matches is_quote ∘ trim ∘ as_bytes <$> fm !! p.1) ≠ Some (as_bytes p.2)) (sort_by_key fst (map_to_list require)).

(** ** Sources *)

Definition docs_file (fs : Files) (spec : CorpusSpec) (source : SourceSpec) (root : string) (date : Timestamp) (st : Building) (rel : string) : result CorpusError Building :=
  match read_regular fs root rel with
  | Err Missing => if bool_decide (ss_include source = []) then Ok st else Err (src_err source ("listed file " +:+ rel +:+ " is missing"))
  | Err r => Ok (skip rel (Refusal_display r) st)
  | Ok b =>
    if negb (utf8_valid b) then Ok (skip rel "not UTF-8" st)
    else
      let '(fm, _) := parse b in
      match unmet (ss_require_frontmatter source) fm with
      | Some (k, want) =>
        Ok (skip rel ("frontmatter " +:+ k +:+ " = " +:+ str_debug (default "(absent)" (fm !! k)) +:+ ", required " +:+ str_debug want) st)
      | None => Ok (ship_file spec source rel b None date st)
      end
  end.

Definition build_docs (fs : Files) (spec : CorpusSpec) (source : SourceSpec) (root : string) (date : Timestamp) (st : Building) : result CorpusError Building :=
  let? p := if bool_decide (ss_include source = []) then
              let? l := map_err (src_err source) (list_files fs root (ss_extensions source) (ss_exclude_dirs source)) in
              Ok (l.1, {| bd_graph := bd_graph st; bd_files := bd_files st;
                          bd_skipped := bd_skipped st ++ ((λ p, {| sk_path := p.1; sk_reason := p.2 |}) <$> l.2) |})
            else Ok (dedup_by_key id (sort_by_key id (ss_include source)), st) in
  rfold (docs_file fs spec source root date) p.2 p.1.

Definition read_pinned (fs : Files) (source : SourceSpec) (root rel want : string) : result CorpusError bytes :=
  let? b := map_err (λ r, src_err source (rel +:+ ": " +:+ Refusal_display r)) (read_regular fs root rel) in
  if negb (eq_ignore_ascii_case (as_bytes (sha256_hex b)) (as_bytes want)) then
    Err (src_err source (rel +:+ ": sha256 " +:+ sha256_hex b +:+ " does not match skills.lock " +:+ want +:+ " (re-run the skill-intake review)"))
  else Ok b.

(** The first line a skill is known by *)
Definition skill_headline (name : string) (fm : gmap string string) : bytes :=
  match trim_matches is_quote ∘ trim ∘ as_bytes <$> fm !! "description" with
  | Some d => if bool_decide (d ∈ [[]; as_bytes ">"; as_bytes "|"; as_bytes ">-"; as_bytes "|-"]) then as_bytes "Skill " ++ as_bytes name
              else as_bytes "Skill " ++ as_bytes name ++ as_bytes ": " ++ d
  | None => as_bytes "Skill " ++ as_bytes name
  end.

Definition skill_ref (fs : Files) (spec : CorpusSpec) (source : SourceSpec) (root : string) (date : Timestamp) (skill : LockSkill) (skill_id : ContentHash)
    (st : Building) (r : LockRef) : result CorpusError Building :=
  let? _ := map_err (src_err source) (check_relative (lr_path r)) in
  let rel := lk_path skill +:+ "/" +:+ lr_path r in
  let? b := read_pinned fs source root rel (lr_sha256 r) in
  if negb (utf8_valid b) then Ok (skip rel "pinned, but not UTF-8 text" st)
  else
    let '(rfm, rbody) := parse b in
    let ref_doc := doc_node source rel (sha256_hex b) (title_of (as_bytes rel) (as_bytes <$> rfm !! "title") rbody) date rfm in
    let st := ship_file spec source rel b None date st in
    Ok {| bd_graph := graph_add_edge (bd_graph st) (corpus_edge skill_id (compute_id ref_doc) References date rel);
          bd_files := bd_files st; bd_skipped := bd_skipped st |}.

Definition build_skill (fs : Files) (spec : CorpusSpec) (source : SourceSpec) (root : string) (date : Timestamp) (st : Building) (skill : LockSkill) : result CorpusError Building :=
  let? s := ship skill in
  let skill_md := lk_path skill +:+ "/SKILL.md" in
  match s with
  | ShipNo => Ok (skip skill_md ("skills.lock verdict " +:+ str_debug (lk_verdict skill)) st)
  | ShipText =>
    let? _ := map_err (src_err source) (check_relative (lk_path skill)) in
    let? want := ok_or (lk_skill_md_sha256 skill) (src_err source ("skill " +:+ lk_name skill +:+ " ships without a SKILL.md hash")) in
    let? b := read_pinned fs source root skill_md want in
    if negb (utf8_valid b) then Err (src_err source (skill_md +:+ " is not UTF-8"))
    else
      let '(fm, _) := parse b in
      let headline := skill_headline (lk_name skill) fm in
      let skill_doc := doc_node source skill_md (sha256_hex b) headline date fm in
      let st := ship_file spec source skill_md b (Some headline) date st in
      rfold (skill_ref fs spec source root date skill (compute_id skill_doc)) st (sort_by_key lr_path (lk_refs skill))
  end.

Definition build_skills (fs : Files) (spec : CorpusSpec) (source : SourceSpec) (lock : SkillsLock) (label root : string) (date : Timestamp) (st : Building) : result CorpusError Building :=
  rfold (build_skill fs spec source root date) st
    (sort_by_key (λ s, (lk_path s, lk_name s)) (filter (λ s, lk_source s = label) (sl_skills lock))).

Context `{Git}.

(** The commit of a checkout *)
Definition resolve_git (root : string) (include : list string) : string :=
  match git_run ["-C"; root; "rev-parse"; "HEAD"] with
  | Err _ => "unpinned"
  | Ok head =>
    if negb (o_success head) then "unpinned"
    else
      let sha := trimmed_lossy (o_stdout head) in
      let paths := if bool_decide (include = []) then ["."] else (λ f, ":(literal)" +:+ f) <$> include in
      let dirty := match git_run (["-C"; root; "status"; "--porcelain"; "--"] ++ paths) with
                   | Ok o => negb (o_success o) || negb (bool_decide (o_stdout o = []))
                   | Err _ => true
                   end in
      if dirty then sha +:+ "-dirty" else sha
  end.

Definition source_entry (source : SourceSpec) (commit : string) (cleared included : bool) (reason : option string) (files : list FileEntry)
    (skipped : list SkippedEntry) : SourceEntry :=
  {| sy_id := ss_id source; sy_tenant := ss_tenant source; sy_repo := cite_repo source; sy_repo_path := ss_repo_path source;
     sy_upstream := ss_upstream source; sy_commit := commit; sy_license := ss_license source; sy_licence_cleared := cleared;
     sy_licence_note := ss_licence_note source; sy_attribution := ss_attribution source; sy_included := included;
     sy_excluded_reason := reason; sy_files := files; sy_skipped := skipped |}.
Definition excluded_entry (source : SourceSpec) (commit reason : string) : SourceEntry :=
  source_entry source (if bool_decide (commit = "git") then "unpinned" else commit) (ss_licence_cleared source) false (Some reason) [] [].

Definition pinned_commit (source : SourceSpec) (locked : option LockSource) : string :=
  default "unpinned" (match ss_commit source with Some c => Some c | None => ls_commit <$> locked end).

Definition locked_source (source : SourceSpec) (lock : option SkillsLock) : result CorpusError (option LockSource) :=
  match ss_kind source, lock, ss_lock_source source with
  | SkillsSource, Some l, Some label =>
    rmap Some (ok_or (lock_source l label) (src_err source ("skills.lock has no source " +:+ str_debug label)))
  | _, _, _ => Ok None
  end.

Definition read_source (fs : Files) (spec : CorpusSpec) (source : SourceSpec) (lock : option SkillsLock) (root : string) (date : Timestamp) (g : TenantGraph) : result CorpusError Building :=
  let st := {| bd_graph := g; bd_files := []; bd_skipped := [] |} in
  match ss_kind source with
  | DocsSource => build_docs fs spec source root date st
  | SkillsSource =>
    let? lock := ok_or lock (src_err source "skills source without a skills.lock") in
    build_skills fs spec source lock (default "" (ss_lock_source source)) root date st
  end.

Definition build_source (fs : Files) (spec : CorpusSpec) (source : SourceSpec) (lock : option SkillsLock) (opts : BuildOptions) (g : TenantGraph) :
    result CorpusError (TenantGraph * SourceEntry) :=
  let root := path_join (bo_sources_base opts) (ss_root source) in
  let? locked := locked_source source lock in
  let pinned := pinned_commit source locked in
  if negb (ss_licence_cleared source) then
    Ok (g, excluded_entry source pinned "licence not cleared for redistribution (pending owner sign-off)")
  else if negb (is_real_dir fs root) then
    if ss_optional source then Ok (g, excluded_entry source pinned "source not present on the build host")
    else Err (src_err source ("root " +:+ ss_root source +:+ " is missing (and the source is not optional)"))
  else
    let commit := if bool_decide (pinned = "git") then resolve_git root (ss_include source) else pinned in
    let? st := read_source fs spec source lock root (bo_source_date_ms opts) g in
    let files := sort_by_key fe_path (bd_files st) in
    let skipped := sort_by_key sk_path (bd_skipped st) in
    if bool_decide (ss_kind source = DocsSource) && bool_decide (files = []) then
      if ss_optional source then Ok (bd_graph st, excluded_entry source commit "no matching files on the build host")
      else Err (src_err source ("no matching files under " +:+ ss_root source +:+ " (and the source is not optional)"))
    else Ok (bd_graph st, source_entry source commit true true None files skipped).

(** ** The corpus *)

Context `{Toml, Serde Manifest, JsonText Manifest, ToValue MemoryNode, ToValue Edge, FromJson MemoryNode, FromJson Edge, CompactText}.

Definition add_source (fs : Files) (spec : CorpusSpec) (lock : option SkillsLock) (opts : BuildOptions)
    (acc : gmap string TenantGraph * list SourceEntry) (source : SourceSpec) : result CorpusError (gmap string TenantGraph * list SourceEntry) :=
  let g := default empty_graph (acc.1 !! ss_tenant source) in
  let? p := build_source fs spec source lock opts g in
  Ok (<[ss_tenant source := p.1]> acc.1, acc.2 ++ [p.2]).

Definition graph_bundle (tenant : string) (date : Timestamp) (g : TenantGraph) : SyncBundle :=
  {| s_repo := tenant; s_exported_at_ms := date; s_nodes := snd <$> sort_by_key fst (map_to_list (tg_nodes g));
     s_edges := snd <$> sort_by_key fst (map_to_list (tg_edges g)) |}.

Definition emit_tenant (graphs : gmap string TenantGraph) (date : Timestamp) (acc : list TenantEntry * list TenantFile) (tenant : string) :
    result CorpusError (list TenantEntry * list TenantFile) :=
  match graphs !! tenant with
  | None => Ok acc
  | Some g =>
    if bool_decide (tg_nodes g = ∅) then Ok acc
    else
      let bundle := graph_bundle tenant date g in
      let? text := encode bundle in
      let b := as_bytes text ++ [newline] in
      Ok (acc.1 ++ [{| te_tenant := tenant; te_file := tenant_file tenant; te_sha256 := sha256_hex b; te_nodes := length (s_nodes bundle);
                       te_edges := length (s_edges bundle); te_vectors := None |}],
          acc.2 ++ [{| tf_tenant := tenant; tf_rel_path := tenant_file tenant; tf_bytes := b |}])
  end.

(** The one lock of a specification and its bytes *)
Definition read_lock (fs : Files) (spec : CorpusSpec) (opts : BuildOptions) : result CorpusError (option (SkillsLock * bytes)) :=
  let paths := elements (list_to_set (omap ss_skills_lock (cs_sources spec)) : gset string) in
  match paths with
  | [] => Ok None
  | [p] =>
    let? b := map_err (λ e, LockError ("read " +:+ p +:+ ": " +:+ e)) (read_file fs (path_join (bo_sources_base opts) p)) in
    let? text := ok_or (from_utf8 b) (LockError "not UTF-8") in
    let? lock := lock_of_text text in
    Ok (Some (lock, b))
  | _ => Err (SpecError "all skills sources must use the same skills_lock")
  end.

Definition build_corpus (fs : Files) (spec_text : string) (opts : BuildOptions) : result CorpusError BuiltCorpus :=
  let? spec := spec_of_text spec_text in
  let? lock := read_lock fs spec opts in
  let? acc := rfold (add_source fs spec (fst <$> lock) opts) (∅, []) (cs_sources spec) in
  let? out := rfold (emit_tenant acc.1 (bo_source_date_ms opts)) ([], []) KNOWLEDGE_TENANTS in
  let m := {| mf_format := FORMAT; mf_name := cs_name spec; mf_source_date_ms := bo_source_date_ms opts; mf_builder := BUILDER;
              mf_spec_sha256 := sha256_hex (as_bytes spec_text); mf_skills_lock_sha256 := sha256_hex ∘ snd <$> lock;
              mf_sources := acc.2; mf_tenants := out.1; mf_bundle_digest := "" |} in
  let? d := compute_digest m in
  Ok {| bc_manifest := with_digest d m; bc_tenants := out.2; bc_vector_files := []; bc_skills_lock := snd <$> lock |}.

(** ** Vectors *)

Context `{Half}.
(** The text of a [Utf8Error] *)
Context (utf8_error : bytes → string).

(** The corpus being embedded and the calls of [on_progress] *)
Abbreviation embedding := (BuiltCorpus * list (string * nat * nat))%type.

Definition set_vectors (tenant : string) (v : VectorsEntry) (m : Manifest) : option Manifest :=
  '(i, e) ← list_find (λ e, te_tenant e = tenant) (mf_tenants m);
  Some {| mf_format := mf_format m; mf_name := mf_name m; mf_source_date_ms := mf_source_date_ms m; mf_builder := mf_builder m;
          mf_spec_sha256 := mf_spec_sha256 m; mf_skills_lock_sha256 := mf_skills_lock_sha256 m; mf_sources := mf_sources m;
          mf_tenants := <[i := {| te_tenant := te_tenant e; te_file := te_file e; te_sha256 := te_sha256 e; te_nodes := te_nodes e;
                                  te_edges := te_edges e; te_vectors := Some v |}]> (mf_tenants m);
          mf_bundle_digest := mf_bundle_digest m |}.
Definition with_manifest (m : Manifest) (b : BuiltCorpus) : BuiltCorpus :=
  {| bc_manifest := m; bc_tenants := bc_tenants b; bc_vector_files := bc_vector_files b; bc_skills_lock := bc_skills_lock b |}.

(** The text the importer would embed for a node *)
Definition node_text (n : MemoryNode) : string := from_utf8_lossy (n_content n).

Definition embed_node (em : Embedder) (tenant : string) (total : nat) (vectors : list (list f32)) (n : MemoryNode) : stm embedding CorpusError (list (list f32)) :=
  λ '(b, log), match em_embed em (node_text n) with
               | Err e => ((b, log), Err (CorpusEmbed (EmbedError_display e)))
               | Ok v => ((b, log ++ [(tenant, S (length vectors), total)]), Ok (vectors ++ [vv_data v]))
               end.

Definition embed_tenant (em : Embedder) (weights_sha256 : string) (files : list TenantFile) (t : TenantFile) : stm embedding CorpusError (list TenantFile) :=
  let! text := slift (ok_or (from_utf8 (tf_bytes t)) (CorpusSerde (utf8_error (tf_bytes t)))) in
  let! bundle := slift (decode (string_of_bytes (trim_end (as_bytes text)))) in
  let! vectors := sfold (embed_node em (tf_tenant t) (length (s_nodes bundle))) [] (s_nodes bundle) in
  let! b := slift (encode_vectors vectors (em_dim em)) in
  let file := vectors_file (tf_tenant t) in
  let v := {| ve_file := file; ve_sha256 := sha256_hex b; ve_encoding := ENCODING_F16LE; ve_model := em_model_id em; ve_dim := em_dim em;
              ve_weights_sha256 := weights_sha256 |} in
  λ '(built, log), match set_vectors (tf_tenant t) v (bc_manifest built) with
                   | None => ((built, log), Err (CorpusSerde ("tenant " +:+ tf_tenant t +:+ " not in the manifest")))
                   | Some m => ((with_manifest m built, log), Ok (files ++ [{| tf_tenant := tf_tenant t; tf_rel_path := file; tf_bytes := b |}]))
                   end.

Definition embed_vectors (em : Embedder) (weights_sha256 : string) : stm embedding CorpusError unit :=
  if bool_decide (em_dim em = O) || bool_decide (MAX_DIM < em_dim em)%nat then
    sfail (CorpusEmbed ("unsupported embedding dimension " +:+ decimal (Z.of_nat (em_dim em))))
  else
    let! tenants := sread (λ st, Ok (bc_tenants st.1)) in
    let! files := sfold (embed_tenant em weights_sha256) [] tenants in
    λ '(b, log),
      let b := {| bc_manifest := bc_manifest b; bc_tenants := bc_tenants b; bc_vector_files := files; bc_skills_lock := bc_skills_lock b |} in
      match compute_digest (bc_manifest b) with
      | Err e => ((b, log), Err e)
      | Ok d => ((with_manifest (with_digest d (bc_manifest b)) b, log), Ok tt)
      end.

(** ** Writing *)

Inductive FsWrite := CreateDirAll (path : string) | WriteFile (path : string) (b : bytes).

(** One write, which fails as [io] says *)
Definition fs_do (io : FsWrite → option string) (w : FsWrite) : stm (list FsWrite) CorpusError unit :=
  λ log, match io w with Some e => (log, Err (CorpusIo e)) | None => (log ++ [w], Ok tt) end.

Definition write_corpus (fs : Files) (io : FsWrite → option string) (built : BuiltCorpus) (out_dir : string) : stm (list FsWrite) CorpusError unit :=
  let put rel b := fs_do io (WriteFile (path_join out_dir rel) b) in
  let! _ := slift (if path_exists fs out_dir then
                     let? l := map_err CorpusIo (dir_entries fs out_dir) in
                     if bool_decide (l = []) then Ok tt else Err (CorpusIo (out_dir +:+ " is not empty"))
                   else Ok tt) in
  let! _ := fs_do io (CreateDirAll (path_join out_dir TENANTS_DIR)) in
  let! _ := sfold (λ _ t, put (tf_rel_path t) (tf_bytes t)) tt (bc_tenants built ++ bc_vector_files built) in
  let! _ := match bc_skills_lock built with Some lock => put SKILLS_LOCK_FILE lock | None => sret tt end in
  let! _ := put NOTICE_FILE (as_bytes (notice (bc_manifest built))) in
  let! text := slift (manifest_to_json (bc_manifest built)) in
  put MANIFEST_FILE (as_bytes text).
End files.
End nodes.
