(* ===== verification/CorpusImport.v ===== *)
(** * Importing a corpus ([mem-corpus/src/import.rs], [progress.rs])

    Verification of a corpus directory against its manifest, the import of a verified corpus
    into a store, and the lines it reports.  The calls of the event callback are part of the
    state, as they happen even when the import fails later. *)

From S2P Require Import Prelude Bytes Externs Text Str Belnap Identity Node Float Edge Grant Kv Shred Store StoreContents Supersession StoreInterface Join Assert.
From S2P Require Import Sync Display Index Docs Git Ingest Control Corpus SyncChain.

Definition MAX_MANIFEST_BYTES : Z := 64 * 1024 * 1024.
Definition MAX_BUNDLE_BYTES : Z := 1024 * 1024 * 1024.
Definition IMPORT_BATCH : nat := 128.
Definition tenant_meta_key (tenant : string) : bytes := as_bytes ("corpus_tenant_sha256:" +:+ tenant).

Record VerifiedCorpus := { vc_manifest : Manifest; vc_tenants : list (TenantEntry * SyncBundle); vc_vectors : gmap string bytes }.

(** ** Verification *)

Definition read_capped (fs : Files) (path : string) (cap : Z) : result CorpusError bytes :=
  let? meta := map_err (λ e, VerifyError (path +:+ ": " +:+ e.2)) (symlink_meta fs path) in
  let too_big := Err (VerifyError (path +:+ " exceeds " +:+ decimal cap +:+ " bytes")) in
  match meta.1 with
  | RegularFile =>
    if cap <? meta.2 then too_big
    else
      let? buf := map_err (λ e, VerifyError (path +:+ ": " +:+ e)) (read_up_to fs path (cap + 1)) in
      if cap <? Z.of_nat (length buf) then too_big else Ok buf
  | _ => Err (VerifyError (path +:+ " is not a regular file"))
  end.

Section verify.
Context `{Blake3, Hex, Sha256, CharTables, Serde Manifest, JsonText Manifest, FromJson MemoryNode, FromJson Edge, CompactText}.

Definition plain_node (tenant : string) (n : MemoryNode) : bool :=
  bool_decide (n_repo n = tenant) && bool_decide (n_plane n = Derived) && bool_decide (n_trust_tier n = DerivedDeterministic)
  && bool_decide (n_signature n = None) && bool_decide (n_status n = Active) && bool_decide (n_valid_to n = None) && String.prefix "corpus:" (n_author n).
Definition plain_edge (ids : gset ContentHash) (e : Edge) : bool :=
  bool_decide (e_kind e ∈ [DerivedFrom; References]) && bool_decide (e_plane e = Derived) && negb (e_quarantined e)
  && bool_decide (e_signature e = None) && bool_decide (e_from e ∈ ids) && bool_decide (e_to e ∈ ids).

Definition check_node (tenant : string) (ids : gset ContentHash) (n : MemoryNode) : result CorpusError (gset ContentHash) :=
  if negb (plain_node tenant n) then
    Err (VerifyError ("tenant " +:+ str_debug tenant +:+ ": node " +:+ short 12 (compute_id n) +:+ " is not a plain corpus node"))
  else Ok ({[compute_id n]} ∪ ids).
Definition check_edge (tenant : string) (ids : gset ContentHash) (e : Edge) : result CorpusError unit :=
  if negb (plain_edge ids e) then
    Err (VerifyError ("tenant " +:+ str_debug tenant +:+ ": edge " +:+ EdgeKind_debug (e_kind e) +:+ " " +:+ short 10 (e_from e) +:+ "->"
                      +:+ short 10 (e_to e) +:+ " is not allowed in a corpus"))
  else Ok tt.

Definition check_bundle (t : TenantEntry) (b : SyncBundle) : result CorpusError unit :=
  if negb (bool_decide (s_repo b = te_tenant t)) then
    Err (VerifyError ("bundle repo " +:+ str_debug (s_repo b) +:+ " is not tenant " +:+ str_debug (te_tenant t)))
  else if negb (bool_decide (length (s_nodes b) = te_nodes t)) || negb (bool_decide (length (s_edges b) = te_edges t)) then
    Err (VerifyError ("tenant " +:+ str_debug (te_tenant t) +:+ " counts do not match the manifest"))
  else
    let? ids := rfold (check_node (te_tenant t)) ∅ (s_nodes b) in
    rfold (λ _ e, check_edge (te_tenant t) ids e) tt (s_edges b).

Definition read_vectors (fs : Files) (dir : string) (t : TenantEntry) (v : VectorsEntry) : result CorpusError bytes :=
  let tenant := "tenant " +:+ str_debug (te_tenant t) in
  let expected := vectors_file (te_tenant t) in
  if negb (bool_decide (ve_file v = expected)) then Err (VerifyError (tenant +:+ " vectors file must be " +:+ expected))
  else if negb (bool_decide (ve_encoding v = ENCODING_F16LE)) then
    Err (VerifyError (tenant +:+ " vectors encoding " +:+ str_debug (ve_encoding v) +:+ " is not supported"))
  else if bool_decide (ve_dim v = O) || bool_decide (MAX_DIM < ve_dim v)%nat then
    Err (VerifyError (tenant +:+ " vectors dimension " +:+ decimal (Z.of_nat (ve_dim v)) +:+ " is not supported"))
  else
    let? b := read_capped fs (path_join dir (ve_file v)) MAX_BUNDLE_BYTES in
    if negb (bool_decide (sha256_hex b = ve_sha256 v)) then Err (VerifyError (ve_file v +:+ " does not match its manifest hash"))
    else
      let? want := ok_or (checked_usize (Z.of_nat (te_nodes t) * Z.of_nat (ve_dim v)) ≫= λ n, checked_usize (n * 2)) (VerifyError "vectors size overflows") in
      if negb (bool_decide (Z.of_nat (length b) = want)) then
        Err (VerifyError (ve_file v +:+ " holds " +:+ decimal (Z.of_nat (length b)) +:+ " bytes, expected " +:+ decimal want +:+ " ("
             +:+ decimal (Z.of_nat (te_nodes t)) +:+ " nodes x " +:+ decimal (Z.of_nat (ve_dim v)) +:+ " dims x 2)"))
      else Ok b.

Definition verify_tenant (fs : Files) (dir : string) (acc : gset string * list (TenantEntry * SyncBundle) * gmap string bytes) (t : TenantEntry) :
    result CorpusError (gset string * list (TenantEntry * SyncBundle) * gmap string bytes) :=
  let '(seen, tenants, vectors) := acc in
  if negb (bool_decide (te_tenant t ∈ KNOWLEDGE_TENANTS)) then Err (VerifyError ("tenant " +:+ str_debug (te_tenant t) +:+ " is not a knowledge tenant"))
  else if bool_decide (te_tenant t ∈ seen) then Err (VerifyError ("tenant " +:+ str_debug (te_tenant t) +:+ " listed twice"))
  else if negb (bool_decide (te_file t = tenant_file (te_tenant t))) then
    Err (VerifyError ("tenant " +:+ str_debug (te_tenant t) +:+ " file must be " +:+ tenant_file (te_tenant t)))
  else
    let? b := read_capped fs (path_join dir (te_file t)) MAX_BUNDLE_BYTES in
    if negb (bool_decide (sha256_hex b = te_sha256 t)) then Err (VerifyError (te_file t +:+ " does not match its manifest hash"))
    else
      let? text := ok_or (from_utf8 b) (VerifyError (te_file t +:+ " is not UTF-8")) in
      let? bundle := map_err (λ e, VerifyError (te_file t +:+ ": " +:+ CorpusError_display e)) (decode (string_of_bytes (trim_end (as_bytes text)))) in
      let? _ := check_bundle t bundle in
      let? vectors := match te_vectors t with
                      | Some v => let? vb := read_vectors fs dir t v in Ok (<[te_tenant t := vb]> vectors)
                      | None => Ok vectors
                      end in
      Ok ({[te_tenant t]} ∪ seen, tenants ++ [(t, bundle)], vectors).

Definition verify_corpus (fs : Files) (dir : string) : result CorpusError VerifiedCorpus :=
  if negb (is_real_dir fs dir) then Err (VerifyError (dir +:+ " is not a corpus directory"))
  else
    let? raw := read_capped fs (path_join dir MANIFEST_FILE) MAX_MANIFEST_BYTES in
    let? text := ok_or (from_utf8 raw) (VerifyError "manifest is not UTF-8") in
    let? m := manifest_from_json text in
    if negb (bool_decide (mf_format m = FORMAT)) then Err (VerifyError ("unsupported corpus format " +:+ str_debug (mf_format m)))
    else
      let? d := compute_digest m in
      if negb (bool_decide (d = mf_bundle_digest m)) then Err (VerifyError "manifest digest does not match its contents")
      else
        let? _ := match mf_skills_lock_sha256 m with
                  | Some want =>
                    let? lock := read_capped fs (path_join dir SKILLS_LOCK_FILE) MAX_MANIFEST_BYTES in
                    if negb (bool_decide (sha256_hex lock = want)) then Err (VerifyError "skills.lock does not match the manifest") else Ok tt
                  | None => Ok tt
                  end in
        let? acc := rfold (verify_tenant fs dir) (∅, [], ∅) (mf_tenants m) in
        Ok {| vc_manifest := m; vc_tenants := acc.1.2; vc_vectors := acc.2 |}.
End verify.

(** ** Import *)

Inductive ImportEvent :=
| TenantStart (tenant : string) (nodes edges : nat)
| Progress (tenant : string) (done total : nat)
| TenantSkipped (tenant reason : string)
| TenantDone (tenant : string).

Record ImportReport := {
  im_bundle_digest : string; im_embed_model : string; im_tenants_imported : list string; im_tenants_skipped : list string;
  im_nodes_added : nat; im_nodes_merged : nat; im_edges_added : nat; im_nodes_embedded : nat; im_vectors_reused : nat }.
Definition new_report (digest model : string) : ImportReport :=
  {| im_bundle_digest := digest; im_embed_model := model; im_tenants_imported := []; im_tenants_skipped := []; im_nodes_added := 0;
     im_nodes_merged := 0; im_edges_added := 0; im_nodes_embedded := 0; im_vectors_reused := 0 |}.
(** The report with tenants and counts added *)
Definition add_report (r : ImportReport) (imported skipped : list string) (added merged edges embedded reused : nat) : ImportReport :=
  {| im_bundle_digest := im_bundle_digest r; im_embed_model := im_embed_model r; im_tenants_imported := im_tenants_imported r ++ imported;
     im_tenants_skipped := im_tenants_skipped r ++ skipped; im_nodes_added := im_nodes_added r + added; im_nodes_merged := im_nodes_merged r + merged;
     im_edges_added := im_edges_added r + edges; im_nodes_embedded := im_nodes_embedded r + embedded; im_vectors_reused := im_vectors_reused r + reused |}.

Definition vectors_match (v : VectorsEntry) (em : Embedder) (weights_sha256 : option string) : bool :=
  bool_decide (ve_model v = em_model_id em) && bool_decide (ve_dim v = em_dim em)
  && match weights_sha256 with Some w => eq_ignore_ascii_case (as_bytes w) (as_bytes (ve_weights_sha256 v)) | None => false end.

Definition with_embedding (n : MemoryNode) (v : VersionedVector) : MemoryNode :=
  {| n_schema_version := n_schema_version n; n_plane := n_plane n; n_kind := n_kind n; n_repo := n_repo n; n_author := n_author n;
     n_source_ref := n_source_ref n; n_content := n_content n; n_valid_from := n_valid_from n; n_valid_to := n_valid_to n;
     n_observed_at := n_observed_at n; n_trust_tier := n_trust_tier n; n_signature := n_signature n; n_embedding := Some v;
     n_confidence := n_confidence n; n_anchors := n_anchors n; n_status := n_status n |}.

(** [slice::chunks(n)], for [n > 0]; every step takes an element *)
Fixpoint chunks_of_go {A} (fuel n : nat) (l : list A) : list (list A) :=
  match fuel, l with
  | S fuel, _ :: _ => take n l :: chunks_of_go fuel n (drop n l)
  | _, _ => []
  end.
Definition chunks_of {A} (n : nat) (l : list A) : list (list A) := chunks_of_go (length l) n l.

Section import.
Context {T R : Type} `{MemStore T, Rng R, Blake3, Hex, Ed25519, Half, FloatNan}.
Context (em : Embedder) (weights_sha256 : option string).

(** The random source, the store and the events so far *)
Abbreviation importing A := (stm (R * T * list ImportEvent) CorpusError A).
Definition on_event (ev : ImportEvent) : importing unit := λ '(rt, log), ((rt, log ++ [ev]), Ok tt).
Definition on_mem {A} (m : stm T StoreError A) : importing A :=
  λ '((r, t), log), let '(t', x) := m t in (((r, t'), log), map_err (CorpusStore ∘ StoreError_display) x).
Definition merge_part (part : SyncBundle) : importing MergeOutcome :=
  λ '(rt, log), let '(rt', x) := merge_bundle_trusted part rt in ((rt', log), map_err (CorpusStore ∘ SyncError_display) x).

(** The vector of the [index]-th node *)
Definition vector_for (reuse : option (VectorsEntry * bytes)) (index : nat) (n : MemoryNode) : result CorpusError VersionedVector :=
  match reuse with
  | Some (v, b) => ok_or (vector_at b (ve_dim v) index (ve_model v)) (VerifyError (ve_file v +:+ ": vector " +:+ decimal (Z.of_nat index) +:+ " is unreadable"))
  | None => map_err (CorpusEmbed ∘ EmbedError_display) (em_embed em (from_utf8_lossy (n_content n)))
  end.
Definition embed_batch (reuse : option (VectorsEntry * bytes)) (done : nat) (batch : list MemoryNode) : result CorpusError (list MemoryNode) :=
  rfold (λ out n, let? v := vector_for reuse (done + length out) n in Ok (out ++ [with_embedding n v])) [] batch.

Definition part_of (b : SyncBundle) (nodes : list MemoryNode) (edges : list Edge) : SyncBundle :=
  {| s_repo := s_repo b; s_exported_at_ms := s_exported_at_ms b; s_nodes := nodes; s_edges := edges |}.

Definition import_batch (tenant : string) (bundle : SyncBundle) (reuse : option (VectorsEntry * bytes)) (acc : ImportReport * nat)
    (batch : list MemoryNode) : importing (ImportReport * nat) :=
  let '(report, done) := acc in
  let! nodes := slift (embed_batch reuse done batch) in
  let! out := merge_part (part_of bundle nodes []) in
  let k := length batch in
  let! _ := on_event (Progress tenant (done + k) (length (s_nodes bundle))) in
  sret (add_report report [] [] (nodes_added out) (nodes_merged out) 0 (if reuse then 0 else k) (if reuse then k else 0), (done + k)%nat).

Definition import_edges (bundle : SyncBundle) (report : ImportReport) : importing ImportReport :=
  if bool_decide (s_edges bundle = []) then sret report
  else
    let! out := merge_part (part_of bundle [] (s_edges bundle)) in
    sret (add_report report [] [] 0 0 (edges_added out) 0 0).

Definition import_tenant (corpus : VerifiedCorpus) (report : ImportReport) (p : TenantEntry * SyncBundle) : importing ImportReport :=
  let '(entry, bundle) := p in
  let tenant := te_tenant entry in
  let key := tenant_meta_key tenant in
  let! done_hash := on_mem (sread (λ t, ms_get_meta t key)) in
  if bool_decide (done_hash = Some (as_bytes (te_sha256 entry))) then
    let! _ := on_event (TenantSkipped tenant "already-imported") in
    sret (add_report report [] [tenant] 0 0 0 0 0)
  else
    let! _ := on_event (TenantStart tenant (length (s_nodes bundle)) (length (s_edges bundle))) in
    let reuse := v ← te_vectors entry; if vectors_match v em weights_sha256 then pair v <$> vc_vectors corpus !! tenant else None in
    let! acc := sfold (import_batch tenant bundle reuse) (report, O) (chunks_of IMPORT_BATCH (s_nodes bundle)) in
    let! report := import_edges bundle acc.1 in
    let! _ := on_mem (ms_put_meta tenant key (as_bytes (te_sha256 entry))) in
    let! _ := on_event (TenantDone tenant) in
    sret (add_report report [tenant] [] 0 0 0 0 0).

Definition import_corpus_with (corpus : VerifiedCorpus) : importing ImportReport :=
  sfold (import_tenant corpus) (new_report (mf_bundle_digest (vc_manifest corpus)) (em_model_id em)) (vc_tenants corpus).

(** *** Reports *)

Definition tenant_node_counts (t : T) : result CorpusError (gmap string nat) :=
  rmap (foldl (λ m n, <[n_repo n := S (default O (m !! n_repo n))]> m) ∅) (map_err (CorpusStore ∘ StoreError_display) (ms_all_nodes t)).
End import.

(** [import_corpus]: nothing is reused without the hash of the weights *)
Definition import_corpus {T R} `{MemStore T, Rng R, Blake3, Hex, Ed25519, Half, FloatNan} (em : Embedder) (corpus : VerifiedCorpus) :
    stm (R * T * list ImportEvent) CorpusError ImportReport := import_corpus_with em None corpus.

Definition node_ids `{Blake3} (b : SyncBundle) : gset ContentHash := list_to_set (compute_id <$> s_nodes b).

(** ** The progress lines *)

Definition event_json (ev : ImportEvent) : Value :=
  match ev with
  | TenantStart t n e => obj [("event", JString "tenant_start"); ("tenant", JString t); ("nodes", jnat n); ("edges", jnat e)]
  | Progress t d n => obj [("event", JString "progress"); ("tenant", JString t); ("done", jnat d); ("total", jnat n)]
  | TenantSkipped t r => obj [("event", JString "tenant_skipped"); ("tenant", JString t); ("reason", JString r)]
  | TenantDone t => obj [("event", JString "tenant_done"); ("tenant", JString t)]
  end.
Definition error_json (stage : string) (e : CorpusError) : Value :=
  obj [("event", JString "error"); ("stage", JString stage); ("message", JString (CorpusError_display e))].
Definition verified_json (c : VerifiedCorpus) : Value :=
  obj [("event", JString "verified"); ("bundle_digest", JString (mf_bundle_digest (vc_manifest c))); ("tenants", jnat (length (vc_tenants c)));
       ("nodes", jnat (sum_list (te_nodes ∘ fst <$> vc_tenants c))); ("edges", jnat (sum_list (te_edges ∘ fst <$> vc_tenants c)))].
Definition done_json (r : ImportReport) : Value :=
  let names l := JArray (JString <$> l) in
  obj [("event", JString "done"); ("bundle_digest", JString (im_bundle_digest r)); ("embed_model", JString (im_embed_model r));
       ("nodes_added", jnat (im_nodes_added r)); ("nodes_merged", jnat (im_nodes_merged r)); ("edges_added", jnat (im_edges_added r));
       ("tenants_imported", names (im_tenants_imported r)); ("tenants_skipped", names (im_tenants_skipped r));
       ("nodes_embedded", jnat (im_nodes_embedded r)); ("vectors_reused", jnat (im_vectors_reused r))].

(** The lines that were emitted, the random source, the store and the outcome; a failure of
    the output is ignored, so the lines are those the import tried to write. *)
Definition import_dir_with_progress_reusing {T R} `{MemStore T, Rng R, Blake3, Hex, Ed25519, Half, FloatNan, Sha256, CharTables, Serde Manifest,
    JsonText Manifest, FromJson MemoryNode, FromJson Edge, CompactText} (fs : Files) (dir : string) (em : Embedder) (weights_sha256 : option string)
    (rt : R * T) : list Value * (R * T) * result CorpusError ImportReport :=
  match verify_corpus fs dir with
  | Err e => ([error_json "verify" e], rt, Err e)
  | Ok c =>
    let '((rt', log), x) := import_corpus_with em weights_sha256 c (rt, []) in
    ([verified_json c] ++ (event_json <$> log) ++ [match x with Ok r => done_json r | Err e => error_json "import" e end], rt', x)
  end.
Definition import_dir_with_progress {T R} `{MemStore T, Rng R, Blake3, Hex, Ed25519, Half, FloatNan, Sha256, CharTables, Serde Manifest,
    JsonText Manifest, FromJson MemoryNode, FromJson Edge, CompactText} (fs : Files) (dir : string) (em : Embedder)
    (rt : R * T) : list Value * (R * T) * result CorpusError ImportReport := import_dir_with_progress_reusing fs dir em None rt.
