(* ===== verification/CorpusBuildProps.v ===== *)
(** * A built corpus verifies

    The tenant files of the build read back as the bundles they were made of, the graphs
    of the build hold only what verification admits, and so a corpus that was built and
    written is accepted by the importer. *)

From S2P Require Import Prelude Bytes Externs Text Str Chars Belnap Identity Node Float Edge Frontmatter Display Index Chunk Docs Git Ingest.
From S2P Require Import Control Sync Corpus CorpusBuild Grant Kv Shred Store StoreSpec StoreContents Supersession StoreInterface Join Assert TransportProps CorpusImport.

(** ** Lists *)

Lemma try_map_go {E A B} (f : A → result E B) (l : list A) (k : list B) out : Forall2 (λ a b, f a = Ok b) l k →
  rfold (λ out a, let? b := f a in Ok (out ++ [b])) out l = Ok (out ++ k).
Proof.
  intros Hf. revert out. induction Hf as [|a b l k Hab _ IH]; intros out; [by rewrite app_nil_r|]. cbn [rfold]. rewrite Hab. cbn [rbind].
  rewrite IH. by rewrite <- app_assoc.
Qed.
Lemma try_map_ok {E A B} (f : A → result E B) l k : Forall2 (λ a b, f a = Ok b) l k → try_map f l = Ok k.
Proof. intros Hf. unfold try_map. by rewrite (try_map_go f l k []). Qed.

(** ** The tenant file *)

Section roundtrip.
Context `{Hex, ToValue MemoryNode, ToValue Edge, FromJson MemoryNode, FromJson Edge, CompactText}.

(** serde_json writes nodes and edges as objects, their bytes as arrays of numbers, and
    reads them back. *)
Class ValueLaws : Prop := {
  node_value : ∀ n : MemoryNode, json_repr n →
    ∃ m, to_value n = Ok (JObject m) ∧ m !! "content" = Some (bytes_value (n_content n)) ∧ from_value (JObject m) = Ok n;
  edge_value : ∀ e : Edge,
    ∃ m, to_value e = Ok (JObject m) ∧ m !! "from" = Some (bytes_value (array_bytes (e_from e))) ∧
         m !! "to" = Some (bytes_value (array_bytes (e_to e))) ∧ from_value (JObject m) = Ok e;
}.
(** It writes the compact form of a bundle as UTF-8 text without white space around it and
    reads it back. *)
Class CompactTextLaws : Prop :=
  compact_round : ∀ repo at_ms ns es nodes edges, Forall json_repr ns → Forall2 (λ n m, compact_node n = Ok m) ns nodes → Forall2 (λ e m, compact_edge e = Ok m) es edges →
    let c := {| cb_repo := repo; cb_exported_at_ms := at_ms; cb_nodes := nodes; cb_edges := edges |} in
    ∃ s, compact_to_string c = Ok s ∧ compact_from_str s = Ok c ∧ utf8_valid (as_bytes s) = true ∧ trimmed (as_bytes s).

Context `{!HexLaws, !HexText, !ValueLaws, !CompactTextLaws}.

Lemma expand_compact_node n : json_repr n → ∃ m, compact_node n = Ok m ∧ expand_node m = Ok n.
Proof.
  intros Hj. destruct (node_value n Hj) as (m & Hv & Hc & Hf). unfold compact_node. rewrite Hv. cbn [map_err rbind object]. eexists. split; [done|].
  unfold expand_node. destruct (utf8_valid (n_content n)).
  - rewrite lookup_insert_eq, insert_insert_eq. unfold as_bytes, string_of_bytes. rewrite String.list_byte_of_string_of_list_byte.
    rewrite insert_id by done. by rewrite Hf.
  - rewrite Hc. cbn. by rewrite Hf.
Qed.

Lemma hash_value_hex field (h : ContentHash) : hash_value field (JString (to_hex h)) = Ok (bytes_value (array_bytes h)).
Proof.
  unfold hash_value, to_hex. cbn [as_str ok_or rbind]. rewrite hex_encode_length, length_array. rewrite bool_decide_eq_true_2 by done. cbn [negb orb].
  rewrite (proj2 (forallb_forall _ _)).
  - cbn. by rewrite hex_decode_encode.
  - intros x Hx%list_elem_of_In. unfold is_lower_hex. apply orb_true_iff. exact (hex_encode_digits _ x Hx).
Qed.
Lemma expand_compact_edge e : ∃ m, compact_edge e = Ok m ∧ expand_edge m = Ok e.
Proof.
  destruct (edge_value e) as (m & Hv & Hf & Ht & Hr). unfold compact_edge. rewrite Hv. cbn [map_err rbind object]. eexists. split; [done|].
  unfold expand_edge. cbn [rfold]. unfold expand_field at 1. rewrite lookup_insert_ne, lookup_insert_eq by done. cbn [ok_or rbind].
  rewrite hash_value_hex. cbn [rbind]. unfold expand_field. rewrite lookup_insert_ne, lookup_insert_eq by done. cbn [ok_or rbind].
  rewrite hash_value_hex. cbn [rbind].
  match goal with |- context [JObject ?x] => assert (x = m) as -> end; [|by rewrite Hr].
  apply map_eq. intros k. rewrite !lookup_insert. repeat case_decide; subst; congruence.
Qed.

(** A tenant file reads back as its bundle. *)
Lemma bundle_roundtrip b : Forall json_repr (s_nodes b) →
  ∃ s, encode b = Ok s ∧ decode s = Ok b ∧ utf8_valid (as_bytes s) = true ∧ trimmed (as_bytes s).
Proof.
  intros Hj.
  assert (∃ ms, Forall2 (λ n m, compact_node n = Ok m ∧ expand_node m = Ok n) (s_nodes b) ms) as (ms & Hms).
  { induction Hj as [|n ns Hn _ (ms & IH)]; [by exists []|]. destruct (expand_compact_node n Hn) as (m & Hm). exists (m :: ms). by constructor. }
  assert (∃ es, Forall2 (λ e m, compact_edge e = Ok m ∧ expand_edge m = Ok e) (s_edges b) es) as (es & Hes).
  { induction (s_edges b) as [|e l (es & IH)]; [by exists []|]. destruct (expand_compact_edge e) as (m & Hm). exists (m :: es). by constructor. }
  assert (Forall2 (λ n m, compact_node n = Ok m) (s_nodes b) ms) as Hms' by (eapply Forall2_impl; [exact Hms|by intros ?? [? _]]).
  assert (Forall2 (λ e m, compact_edge e = Ok m) (s_edges b) es) as Hes' by (eapply Forall2_impl; [exact Hes|by intros ?? [? _]]).
  unfold encode, decode. rewrite (try_map_ok compact_node _ ms), (try_map_ok compact_edge _ es) by done.
  cbn [rbind]. destruct (compact_round (s_repo b) (s_exported_at_ms b) (s_nodes b) (s_edges b) ms es Hj Hms' Hes') as (s & -> & Hf & Hu).
  exists s. split; [done|]. split; [|done]. rewrite Hf. cbn [map_err rbind cb_nodes cb_edges].
  rewrite (try_map_ok expand_node ms (s_nodes b)), (try_map_ok expand_edge es (s_edges b)).
  - cbn. by destruct b.
  - apply Forall2_flip. eapply Forall2_impl; [exact Hes|by intros ?? [_ ?]].
  - apply Forall2_flip. eapply Forall2_impl; [exact Hms|by intros ?? [_ ?]].
Qed.
End roundtrip.

(** ** Graphs *)

Section graphs.
Context `{Blake3}.

(** A graph of a tenant that verification admits *)
Record graph_ok (tenant : string) (g : TenantGraph) : Prop := {
  gk_nodes : map_Forall (λ i n, compute_id n = i ∧ plain_node tenant n = true ∧ n_embedding n = None) (tg_nodes g);
  gk_edges : map_Forall (λ k e, Edge_key e = k ∧ plain_edge (dom (tg_nodes g)) e = true) (tg_edges g);
}.
Definition subgraph (g g' : TenantGraph) : Prop := dom (tg_nodes g) ⊆ dom (tg_nodes g').
#[export] Instance subgraph_preorder : PreOrder subgraph.
Proof. unfold subgraph. split; [by intros g|]. intros g1 g2 g3. by etrans. Qed.

Lemma dom_or_insert {K A} `{Countable K} (k : K) (a : A) m : dom (or_insert k a m) = {[k]} ∪ dom m.
Proof. unfold or_insert. destruct (m !! k) eqn:E; [|by rewrite dom_insert_L]. apply elem_of_dom_2 in E. set_solver. Qed.
Lemma or_insert_Forall {K A} `{Countable K} (P : K → A → Prop) (k : K) (a : A) m : map_Forall P m → P k a → map_Forall P (or_insert k a m).
Proof. intros Hm Hk. unfold or_insert. destruct (m !! k); [done|]. by apply map_Forall_insert_2. Qed.

Lemma plain_edge_mono ids ids' e : ids ⊆ ids' → plain_edge ids e = true → plain_edge ids' e = true.
Proof.
  unfold plain_edge. intros Hs Hp. rewrite !andb_true_iff in *. destruct Hp as [[Hp Hf%bool_decide_eq_true] Ht%bool_decide_eq_true].
  split; [split; [done|]|]; apply bool_decide_eq_true; set_solver.
Qed.
Lemma corpus_node_plain source rel sha span content date fm : plain_node (ss_tenant source) (corpus_node source rel sha span content date fm) = true.
Proof. unfold plain_node. cbn -[String.prefix]. rewrite bool_decide_eq_true_2 by done. cbn. by destruct (ss_id source). Qed.
Lemma corpus_edge_plain ids from to kind date rel : kind ∈ [DerivedFrom; References] → from ∈ ids → to ∈ ids →
  plain_edge ids (corpus_edge from to kind date rel) = true.
Proof. intros Hk Hf Ht. unfold plain_edge. cbn [corpus_edge e_kind e_plane e_quarantined e_signature e_from e_to]. by rewrite !bool_decide_eq_true_2. Qed.

Lemma add_node_ok tenant g n : graph_ok tenant g → plain_node tenant n = true → n_embedding n = None →
  graph_ok tenant (add_node g n) ∧ subgraph g (add_node g n) ∧ compute_id n ∈ dom (tg_nodes (add_node g n)).
Proof.
  intros [Hn He] Hp Hem. unfold subgraph. cbn [add_node tg_nodes]. rewrite dom_or_insert. split_and!; [|set_solver..].
  split; cbn [add_node tg_nodes tg_edges]; [by apply or_insert_Forall|]. rewrite dom_or_insert.
  intros k e Hk. destruct (He k e Hk) as [? ?]. split; [done|]. eapply plain_edge_mono; [|eassumption]. set_solver.
Qed.
Lemma graph_add_edge_ok tenant g e : graph_ok tenant g → plain_edge (dom (tg_nodes g)) e = true → graph_ok tenant (graph_add_edge g e).
Proof. intros [Hn He] Hp. split; cbn [graph_add_edge tg_nodes tg_edges]; [done|]. by apply or_insert_Forall. Qed.

Context `{Sha256, Hex}.

Lemma add_chunks_ok source rel sha doc date fm cs : ∀ g, graph_ok (ss_tenant source) g → doc ∈ dom (tg_nodes g) →
  let g' := foldl (add_chunk source rel sha doc date fm) g cs in graph_ok (ss_tenant source) g' ∧ subgraph g g'.
Proof.
  induction cs as [|c cs IH]; intros g Hg Hd; cbn [foldl]; [by split|]. unfold add_chunk at 2 4. set (n := corpus_node _ _ _ _ _ _ _).
  destruct (add_node_ok _ g n Hg (corpus_node_plain _ _ _ _ _ _ _) eq_refl) as (Q1 & Q2 & Q3). set (g2 := graph_add_edge _ _).
  assert (graph_ok (ss_tenant source) g2) as Hg2 by (apply graph_add_edge_ok; [done|]; apply corpus_edge_plain; [set_solver|done|by apply Q2]).
  destruct (IH g2 Hg2) as [Q4 Q5]; [by apply Q2|]. split; [exact Q4|]. etrans; [exact Q2|exact Q5].
Qed.

Lemma ship_file_ok spec source rel b headline date st : graph_ok (ss_tenant source) (bd_graph st) →
  let st' := ship_file spec source rel b headline date st in
  graph_ok (ss_tenant source) (bd_graph st') ∧ subgraph (bd_graph st) (bd_graph st') ∧
  compute_id (doc_node source rel (sha256_hex b) (file_title rel headline b) date (parse b).1) ∈ dom (tg_nodes (bd_graph st')).
Proof.
  intros Hg. unfold ship_file, add_file. destruct (parse b) as [fm body] eqn:Hp. cbn [bd_graph fst].
  set (doc := doc_node _ _ _ _ _ _). destruct (add_node_ok _ _ doc Hg (corpus_node_plain _ _ _ _ _ _ _) eq_refl) as (Q1 & Q2 & Q3).
  match goal with |- context [foldl ?f ?g ?cs] => destruct (add_chunks_ok source rel (sha256_hex b) (compute_id doc) date fm cs g Q1 Q3) as [Q4 Q5] end.
  split_and!; [exact Q4|by etrans|by apply Q5].
Qed.

(** A step of the build that keeps graphs admissible *)
Definition keeps_graph (source : SourceSpec) (st st' : Building) : Prop :=
  graph_ok (ss_tenant source) (bd_graph st) → graph_ok (ss_tenant source) (bd_graph st') ∧ subgraph (bd_graph st) (bd_graph st').
Lemma keeps_graph_skip source path reason st : keeps_graph source st (skip path reason st).
Proof. by split. Qed.
Lemma keeps_graph_rfold {A} source (f : Building → A → result CorpusError Building) l : (∀ st a st', f st a = Ok st' → keeps_graph source st st') →
  ∀ st st', rfold f st l = Ok st' → keeps_graph source st st'.
Proof.
  intros Hf. induction l as [|a l IH]; intros st st' Hr; cbn [rfold] in Hr; [injection Hr as <-; by split|].
  apply rbind_ok in Hr as (st1 & Q1 & Q2). intros Hg. destruct (Hf _ _ _ Q1 Hg) as [G1 S1]. destruct (IH _ _ Q2 G1) as [G2 S2]. split; [done|]. by etrans.
Qed.

Context `{CharTables}.

Lemma docs_file_ok fs spec source root date st rel st' : docs_file fs spec source root date st rel = Ok st' → keeps_graph source st st'.
Proof.
  unfold docs_file. destruct (read_regular fs root rel) as [b|[]].
  2: case_bool_decide; [|done].
  2-5: intros [= <-]; by split.
  destruct (utf8_valid b); cbn [negb]; [|intros [= <-]; by split]. destruct (parse b) as [fm body].
  destruct (unmet _ fm) as [[k want]|]; intros [= <-]; [by split|]. intros Hg. destruct (ship_file_ok spec source rel b None date st Hg) as (? & ? & _). by split.
Qed.
Lemma build_docs_ok fs spec source root date st st' : build_docs fs spec source root date st = Ok st' → keeps_graph source st st'.
Proof.
  unfold build_docs. intros ([l st1] & Q1 & Q2)%rbind_ok. cbn [fst snd] in Q2.
  assert (bd_graph st1 = bd_graph st) as E.
  { case_bool_decide; [|by injection Q1 as <- <-]. apply rbind_ok in Q1 as (p & _ & [= <- <-]). done. }
  intros Hg. rewrite <- E in Hg. destruct (keeps_graph_rfold source _ _ (docs_file_ok fs spec source root date) _ _ Q2 Hg). unfold subgraph in *. rewrite E in *. by split.
Qed.

Lemma skill_ref_ok fs spec source root date skill id st r st' : skill_ref fs spec source root date skill id st r = Ok st' →
  id ∈ dom (tg_nodes (bd_graph st)) → keeps_graph source st st'.
Proof.
  unfold skill_ref. intros (u & _ & (b & _ & Hr)%rbind_ok)%rbind_ok Hid Hg. set (rel := lk_path skill +:+ "/" +:+ lr_path r) in *.
  destruct (utf8_valid b); cbn [negb] in Hr; [|injection Hr as <-; by split].
  destruct (ship_file_ok spec source rel b None date st Hg) as (Q1 & Q2 & Q3). unfold file_title in Q3. destruct (parse b) as [fm body] eqn:Hp. cbn [fst] in Q3.
  injection Hr as <-. split; [|exact Q2]. cbn [bd_graph]. apply graph_add_edge_ok; [done|]. apply corpus_edge_plain; [set_solver|by apply Q2|exact Q3].
Qed.
Lemma build_skill_ok fs spec source root date st skill st' : build_skill fs spec source root date st skill = Ok st' → keeps_graph source st st'.
Proof.
  unfold build_skill. intros ([|] & _ & Hb)%rbind_ok; [|injection Hb as <-; by split].
  apply rbind_ok in Hb as (u & _ & (want & _ & (b & _ & Hb)%rbind_ok)%rbind_ok). destruct (utf8_valid b); cbn [negb] in Hb; [|done].
  intros Hg. destruct (parse b) as [fm body] eqn:Hp. set (rel := lk_path skill +:+ "/SKILL.md") in *. set (headline := skill_headline _ _) in *.
  destruct (ship_file_ok spec source rel b (Some headline) date st Hg) as (Q1 & Q2 & Q3). unfold file_title in Q3. rewrite Hp in Q3. cbn [fst] in Q3.
  set (st1 := ship_file _ _ _ _ _ _ _) in *. revert Hb Q3. generalize (compute_id (doc_node source rel (sha256_hex b) headline date fm)). intros id Hb Q3.
  assert (∀ l s s', rfold (skill_ref fs spec source root date skill id) s l = Ok s' → id ∈ dom (tg_nodes (bd_graph s)) → keeps_graph source s s') as Hx.
  { induction l as [|r l IH]; intros s s' Hs Hid; cbn [rfold] in Hs; [injection Hs as <-; by split|].
    apply rbind_ok in Hs as (s1 & Hs1 & Hs2). intros Hgs. destruct (skill_ref_ok _ _ _ _ _ _ _ _ _ _ Hs1 Hid Hgs) as [G1 S1].
    destruct (IH _ _ Hs2 (S1 _ Hid) G1) as [G2 S2]. split; [done|]. by etrans. }
  destruct (Hx _ _ _ Hb Q3 Q1) as [G2 S2]. split; [done|]. by etrans.
Qed.

Context `{Git}.

Lemma build_source_ok fs spec source lock opts g g' e : build_source fs spec source lock opts g = Ok (g', e) → graph_ok (ss_tenant source) g → graph_ok (ss_tenant source) g'.
Proof.
  unfold build_source. intros (locked & _ & Hb)%rbind_ok Hg. destruct (ss_licence_cleared source); cbn [negb] in Hb; [|by injection Hb as <- _].
  destruct (is_real_dir _ _); cbn [negb] in Hb; [|destruct (ss_optional source); [by injection Hb as <- _|done]].
  apply rbind_ok in Hb as (st & Hst & Hb). assert (graph_ok (ss_tenant source) (bd_graph st)) as Hg'.
  { unfold read_source in Hst. destruct (ss_kind source); [by apply (build_docs_ok _ _ _ _ _ _ _ Hst)|].
    apply rbind_ok in Hst as (l & _ & Hst). by apply (keeps_graph_rfold source _ _ (build_skill_ok fs spec source _ _) _ _ Hst). }
  destruct (_ && _); [destruct (ss_optional source); [by injection Hb as <- _|done]|by injection Hb as <- _].
Qed.
End graphs.

(** * From the build to the importer

    What the build leaves in memory, what writing it leaves on disk, and what the importer
    makes of that. *)

(** ** Paths *)

Lemma string_app_assoc (a b c : string) : a +:+ (b +:+ c) = (a +:+ b) +:+ c.
Proof. induction a as [|x a IH]; [done|]. change (String x (a +:+ (b +:+ c)) = String x ((a +:+ b) +:+ c)). by rewrite IH. Qed.
Lemma string_app_nil_r (a : string) : a +:+ "" = a.
Proof. induction a as [|x a IH]; [done|]. change (String x (a +:+ "") = String x a). by rewrite IH. Qed.
Lemma string_app_inj_l (a b c : string) : a +:+ b = a +:+ c → b = c.
Proof. induction a as [|x a IH]; [done|]. change (String x (a +:+ b) = String x (a +:+ c) → b = c). intros [= E]. by apply IH. Qed.
Lemma path_join_rel dir rel : String.prefix "/" rel = false → path_join dir rel = path_join dir "" +:+ rel.
Proof.
  intros Hp. unfold path_join. rewrite Hp. replace (String.prefix "/" "") with false by done. destruct (_ || _); rewrite ?string_app_nil_r; [done|].
  by rewrite string_app_assoc.
Qed.
Lemma path_join_inj dir rel rel' : String.prefix "/" rel = false → String.prefix "/" rel' = false → path_join dir rel = path_join dir rel' → rel = rel'.
Proof. intros Hp Hp'. rewrite (path_join_rel dir rel), (path_join_rel dir rel') by done. apply string_app_inj_l. Qed.

Section verify_built.
Context `{Blake3, Sha256, Hex, CharTables, Git, Toml, Serde Manifest, JsonText Manifest}.
Context `{ToValue MemoryNode, ToValue Edge, FromJson MemoryNode, FromJson Edge, CompactText, Half}.
Context `{!HexLaws, !HexText, !ValueLaws, !CompactTextLaws}.

(** serde_json reads a pretty-printed manifest back, also with a line end after it. *)
Class ManifestLaws : Prop :=
  manifest_round : ∀ (m : Manifest) s, to_string_pretty m = Ok s → from_text (s +:+ eol) = Ok m ∧ utf8_valid (as_bytes (s +:+ eol)) = true.

(** ** Bundles *)

Lemma check_nodes_ok tenant ns : ∀ ids, Forall (λ n, plain_node tenant n = true) ns →
  rfold (check_node tenant) ids ns = Ok (list_to_set (compute_id <$> ns) ∪ ids).
Proof.
  induction ns as [|n ns IH]; intros ids Hp; cbn [rfold]; [f_equal; set_solver|]. apply Forall_cons in Hp as [Hn Hp].
  unfold check_node at 1. rewrite Hn. cbn [negb rbind]. rewrite IH by done. f_equal. set_solver.
Qed.
Lemma check_edges_ok tenant ids es : Forall (λ e, plain_edge ids e = true) es → rfold (λ _ e, check_edge tenant ids e) tt es = Ok tt.
Proof. induction 1 as [|e es He _ IH]; [done|]. cbn [rfold]. unfold check_edge at 1. rewrite He. cbn [negb rbind]. exact IH. Qed.

Lemma elem_of_values {K A} `{Countable K, RustOrdLaws K} (m : gmap K A) a : a ∈ snd <$> sort_by_key fst (map_to_list m) ↔ ∃ k, m !! k = Some a.
Proof.
  rewrite list_elem_of_fmap. split.
  - intros ([k a'] & -> & Hk). apply elem_of_sort_by_key, elem_of_map_to_list in Hk. by exists k.
  - intros [k Hk]. exists (k, a). split; [done|]. by apply elem_of_sort_by_key, elem_of_map_to_list.
Qed.

Lemma graph_bundle_ok tenant date g e : graph_ok tenant g → te_tenant e = tenant → te_nodes e = length (s_nodes (graph_bundle tenant date g)) →
  te_edges e = length (s_edges (graph_bundle tenant date g)) →
  check_bundle e (graph_bundle tenant date g) = Ok tt ∧ Forall json_repr (s_nodes (graph_bundle tenant date g)).
Proof.
  intros [Hn He] Ht Hns Hes.
  assert (Forall (λ n, plain_node tenant n = true) (s_nodes (graph_bundle tenant date g))) as Hpl.
  { apply Forall_forall. intros n [k Hk]%elem_of_values. by destruct (Hn k n Hk) as (_ & ? & _). }
  split.
  - unfold check_bundle. rewrite Ht, !bool_decide_eq_true_2 by done. cbn [negb orb].
    rewrite check_nodes_ok by done. cbn [rbind]. apply check_edges_ok, Forall_forall. intros x [k Hk]%elem_of_values.
    destruct (He k x Hk) as [_ Hp]. eapply plain_edge_mono; [|exact Hp]. intros i [n Hi]%elem_of_dom. apply elem_of_union_l, elem_of_list_to_set.
    apply list_elem_of_fmap. exists n. split; [by destruct (Hn i n Hi)|]. apply elem_of_values. by exists i.
  - apply Forall_forall. intros n [k Hk]%elem_of_values. destruct (Hn k n Hk) as (_ & _ & Hem). unfold json_repr, MemoryNode_json. by rewrite Hem.
Qed.

(** ** The built corpus *)

(** A manifest entry and the file it stands for *)
Record tenant_ok (e : TenantEntry) (f : TenantFile) : Prop := {
  to_known : te_tenant e ∈ KNOWLEDGE_TENANTS;
  to_file : te_file e = tenant_file (te_tenant e) ∧ tf_rel_path f = te_file e;
  to_sha : te_sha256 e = sha256_hex (tf_bytes f);
  to_vectors : te_vectors e = None;
  to_bundle : ∃ b s, tf_bytes f = as_bytes s ++ [newline] ∧ decode s = Ok b ∧ utf8_valid (as_bytes s) = true ∧ trimmed (as_bytes s) ∧ check_bundle e b = Ok tt;
}.

Lemma emit_tenants_ok graphs date ts : map_Forall graph_ok graphs → (∀ x, x ∈ ts → x ∈ KNOWLEDGE_TENANTS) → ∀ acc out,
  rfold (emit_tenant graphs date) acc ts = Ok out →
  ∃ es fs, out = (acc.1 ++ es, acc.2 ++ fs) ∧ Forall2 tenant_ok es fs ∧ (te_tenant <$> es) `sublist_of` ts.
Proof.
  intros Hg. induction ts as [|t ts IH]; intros Hkt acc out Hr; cbn [rfold] in Hr.
  { injection Hr as <-. exists [], []. rewrite !app_nil_r. destruct acc. split_and!; [done|constructor|done]. }
  apply rbind_ok in Hr as (acc1 & H1' & H2'). destruct (IH (λ x Hx, Hkt x (list_elem_of_further _ _ _ Hx)) _ _ H2') as (es & fs & -> & Hf & Hs).
  unfold emit_tenant in H1'. destruct (graphs !! t) as [g|] eqn:Hgt; [|injection H1' as <-; exists es, fs; split_and!; [done..|by constructor]].
  case_bool_decide; [injection H1' as <-; exists es, fs; split_and!; [done..|by constructor]|].
  apply rbind_ok in H1' as (text & Henc & [= <-]). cbn [fst snd]. eexists (_ :: es), (_ :: fs).
  split; [by rewrite <- !app_assoc|]. split; [|cbn; by constructor]. constructor; [|done].
  match goal with |- tenant_ok ?e _ => destruct (graph_bundle_ok t date g e (Hg _ _ Hgt) eq_refl eq_refl eq_refl) as [Hc Hj] end.
  destruct (bundle_roundtrip _ Hj) as (s & Hs' & Hd & Hu & Htr). rewrite Henc in Hs'. injection Hs' as ->.
  split; cbn; [apply Hkt; by left|done|done|done|]. by exists (graph_bundle t date g), s.
Qed.

Lemma add_sources_ok fs spec lock opts l : ∀ acc acc', rfold (add_source fs spec lock opts) acc l = Ok acc' → map_Forall graph_ok acc.1 → map_Forall graph_ok acc'.1.
Proof.
  induction l as [|s l IH]; intros acc acc' Hr Hg; cbn [rfold] in Hr; [by injection Hr as <-|].
  apply rbind_ok in Hr as (acc1 & (p & Hb & [= <-])%rbind_ok & Hr). eapply IH; [exact Hr|]. cbn [fst]. apply map_Forall_insert_2; [|done].
  destruct p as [g e]. eapply build_source_ok; [exact Hb|]. destruct (acc.1 !! ss_tenant s) eqn:E; [by apply Hg|]. split; apply map_Forall_empty.
Qed.

Record corpus_ok (b : BuiltCorpus) : Prop := {
  co_format : mf_format (bc_manifest b) = FORMAT;
  co_digest : compute_digest (bc_manifest b) = Ok (mf_bundle_digest (bc_manifest b));
  co_lock : mf_skills_lock_sha256 (bc_manifest b) = sha256_hex <$> bc_skills_lock b;
  co_tenants : Forall2 tenant_ok (mf_tenants (bc_manifest b)) (bc_tenants b);
  co_distinct : (te_tenant <$> mf_tenants (bc_manifest b)) `sublist_of` KNOWLEDGE_TENANTS;
  co_vectors : bc_vector_files b = [];
}.
Lemma build_corpus_ok fs text opts b : build_corpus fs text opts = Ok b → corpus_ok b.
Proof.
  unfold build_corpus. intros (spec & _ & (lock & _ & (acc & Ha & (out & Ho & (d & Hd & [= <-])%rbind_ok)%rbind_ok)%rbind_ok)%rbind_ok)%rbind_ok.
  apply add_sources_ok in Ha; [|apply map_Forall_empty]. destruct (emit_tenants_ok _ _ _ Ha (λ x Hx, Hx) _ _ Ho) as (es & fs' & -> & Hf & Hs).
  split; cbn; try done. by destruct lock as [[]|].
Qed.

(** ** Writing *)

(** The files a run of writes leaves: the last write to a path wins. *)
Definition written_files (log : list FsWrite) : gmap string bytes :=
  list_to_map (reverse (omap (λ w, match w with WriteFile p b => Some (p, b) | CreateDirAll _ => None end) log)).
(** A file system that shows them as regular files *)
Definition shows (fs : Files) (files : gmap string bytes) : Prop :=
  map_Forall (λ p b, symlink_meta fs p = Ok (RegularFile, Z.of_nat (length b)) ∧ ∀ n, 0 ≤ n → read_up_to fs p n = Ok (take (Z.to_nat n) b)) files.

Lemma shows_read fs files p b cap : shows fs files → files !! p = Some b → 0 ≤ cap → Z.of_nat (length b) ≤ cap → read_capped fs p cap = Ok b.
Proof.
  intros Hf Hp Hc Hl. destruct (Hf _ _ Hp) as [Hm Hr]. unfold read_capped. rewrite Hm. cbn [map_err rbind fst snd]. destruct (Z.ltb_spec cap (Z.of_nat (length b))); [lia|].
  rewrite Hr by lia. cbn [map_err rbind]. rewrite take_ge by lia. by destruct (Z.ltb_spec cap (Z.of_nat (length b))); [lia|].
Qed.

Lemma fs_do_ok io w log log' : fs_do io w log = (log', Ok tt) → log' = log ++ [w].
Proof. unfold fs_do. destruct (io w); [done|]. by intros [= <-]. Qed.
Lemma fs_dos_ok {A} io (w : A → FsWrite) l : ∀ log log', sfold (λ _ a, fs_do io (w a)) tt l log = (log', Ok tt) → log' = log ++ (w <$> l).
Proof.
  induction l as [|a l IH]; intros log log' Hr; cbn [sfold] in Hr; [injection Hr as <-; by rewrite app_nil_r|].
  apply sbind_inv in Hr as [(log1 & [] & H1' & H2')|(e & _ & [=])]. apply fs_do_ok in H1' as ->. rewrite (IH _ _ H2'). by rewrite <- app_assoc.
Qed.

(** The paths and contents a corpus is written as *)
Definition corpus_files (b : BuiltCorpus) (text : string) : list (string * bytes) :=
  ((λ f, (tf_rel_path f, tf_bytes f)) <$> (bc_tenants b ++ bc_vector_files b)) ++ option_list (pair SKILLS_LOCK_FILE <$> bc_skills_lock b)
  ++ [(NOTICE_FILE, as_bytes (notice (bc_manifest b))); (MANIFEST_FILE, as_bytes text)].

Lemma write_corpus_log fs io b dir log : write_corpus fs io b dir [] = (log, Ok tt) →
  ∃ text, manifest_to_json (bc_manifest b) = Ok text ∧
    log = CreateDirAll (path_join dir TENANTS_DIR) :: ((λ p, WriteFile (path_join dir p.1) p.2) <$> corpus_files b text).
Proof.
  unfold write_corpus. intros [(l0 & [] & H0' & Hr)|(e & _ & [=])]%sbind_inv. injection H0' as <- _.
  apply sbind_inv in Hr as [(l1 & [] & H1'%fs_do_ok & Hr)|(e & _ & [=])]. apply sbind_inv in Hr as [(l2 & [] & H2' & Hr)|(e & _ & [=])].
  apply (fs_dos_ok io (λ t, WriteFile (path_join dir (tf_rel_path t)) (tf_bytes t))) in H2'.
  apply sbind_inv in Hr as [(l3 & [] & H3' & Hr)|(e & _ & [=])]. apply sbind_inv in Hr as [(l4 & [] & H4'%fs_do_ok & Hr)|(e & _ & [=])].
  apply sbind_inv in Hr as [(l5 & text & H5' & H6'%fs_do_ok)|(e & _ & [=])]. injection H5' as <- Ht. exists text. split; [exact Ht|].
  assert (l3 = l2 ++ option_list ((λ lk, WriteFile (path_join dir SKILLS_LOCK_FILE) lk) <$> bc_skills_lock b)) as ->.
  { destruct (bc_skills_lock b); cbn; [by apply fs_do_ok in H3'|]. injection H3' as <-. by rewrite app_nil_r. }
  subst. unfold corpus_files. rewrite !fmap_app, <- !app_assoc. cbn [app fmap list_fmap]. f_equal. rewrite <- !list_fmap_compose. f_equal. f_equal.
  by destruct (bc_skills_lock b).
Qed.

(** Every path a corpus may be written to, in order *)
Definition all_paths : list string := (tenant_file <$> KNOWLEDGE_TENANTS) ++ [SKILLS_LOCK_FILE; NOTICE_FILE; MANIFEST_FILE].

Lemma corpus_paths b text : corpus_ok b → (corpus_files b text).*1 `sublist_of` all_paths.
Proof.
  intros [_ _ _ Ht Hd Hv]. unfold corpus_files, all_paths. rewrite Hv, app_nil_r, !fmap_app, <- list_fmap_compose. apply sublist_app.
  - replace (fst ∘ (λ f, (tf_rel_path f, tf_bytes f)) <$> bc_tenants b) with (tenant_file <$> (te_tenant <$> mf_tenants (bc_manifest b))); [by apply fmap_sublist|].
    rewrite <- list_fmap_compose. clear Hd Hv. induction Ht as [|e f es fs Hef _ IH]; [done|]. cbn. rewrite IH. f_equal. destruct (to_file _ _ Hef) as [-> ->]. done.
  - destruct (bc_skills_lock b); cbn; repeat constructor.
Qed.

Lemma corpus_written b text dir p : corpus_ok b → p ∈ corpus_files b text →
  written_files (CreateDirAll (path_join dir TENANTS_DIR) :: ((λ p, WriteFile (path_join dir p.1) p.2) <$> corpus_files b text)) !! path_join dir p.1 = Some p.2.
Proof.
  intros Hb Hp. unfold written_files.
  match goal with |- context [reverse ?l] => assert (l = (λ p, (path_join dir p.1, p.2)) <$> corpus_files b text) as -> end.
  { clear Hp. cbn. induction (corpus_files b text) as [|x l IH]; [done|]. cbn. f_equal. exact IH. }
  apply elem_of_list_to_map_1.
  - rewrite fmap_reverse, reverse_Permutation, <- list_fmap_compose.
    change (fst ∘ (λ p, (path_join dir p.1, p.2))) with (path_join dir ∘ (fst : string * bytes → string)). rewrite list_fmap_compose.
    apply (sublist_NoDup _ (path_join dir <$> all_paths)); [|by apply fmap_sublist, corpus_paths].
    apply NoDup_fmap_2_strong; [|by apply (bool_decide_unpack _); vm_compute].
    assert (Forall (λ rel, String.prefix "/" rel = false) all_paths) as Hrel by (by repeat constructor). rewrite Forall_forall in Hrel.
    intros x y Hx Hy. by apply path_join_inj; apply Hrel.
  - apply elem_of_reverse, list_elem_of_fmap. exists p. by destruct p.
Qed.

(** ** Verification *)

Lemma tenant_text (s : string) : utf8_valid (as_bytes s) = true → trimmed (as_bytes s) →
  from_utf8 (as_bytes s ++ [newline]) = Some (string_of_bytes (as_bytes s ++ [newline])) ∧ string_of_bytes (trim_end (as_bytes (string_of_bytes (as_bytes s ++ [newline])))) = s.
Proof.
  intros Hu Ht. split; [unfold from_utf8; by rewrite utf8_valid_app|].
  unfold as_bytes at 1, string_of_bytes at 2. rewrite String.list_byte_of_string_of_list_byte. unfold trim_end, trim_end_matches.
  rewrite chunks_app, chunks_cons_ascii by done. change (chunks []) with ([] : list (Z * bytes)). unfold drop_while_end at 1. rewrite reverse_snoc.
  cbn [drop_while]. change ((is_whitespace ∘ fst) (byte_Z newline, [newline])) with true. cbn iota.
  fold (drop_while_end (is_whitespace ∘ fst) (chunks (as_bytes s))). rewrite drop_while_end_fix.
  - rewrite unchunk_chunks. apply String.string_of_list_byte_of_string.
  - unfold trimmed, chars in Ht. rewrite fmap_last in Ht. apply Forall_app in Ht as [_ Ht].
    destruct (last (chunks (as_bytes s))) as [x|]; [|by left]. right. exists x. split; [done|]. cbn in Ht. apply Forall_cons in Ht as [Hx _]. exact Hx.
Qed.

Lemma verify_tenants_ok fs dir files es fls : Forall2 tenant_ok es fls → shows fs files →
  (∀ f, f ∈ fls → files !! path_join dir (tf_rel_path f) = Some (tf_bytes f) ∧ Z.of_nat (length (tf_bytes f)) ≤ MAX_BUNDLE_BYTES) →
  ∀ seen ts vs, NoDup (te_tenant <$> es) → (∀ e, e ∈ es → te_tenant e ∉ seen) →
  ∃ seen' bs, rfold (verify_tenant fs dir) (seen, ts, vs) es = Ok (seen', ts ++ zip es bs, vs) ∧
    Forall2 (λ b f, ∃ s, tf_bytes f = as_bytes s ++ [newline] ∧ decode s = Ok b) bs fls.
Proof.
  intros Hok Hsh. induction Hok as [|e f es fls Hef Hok IH]; intros Hf seen ts vs Hnd Hns.
  { exists seen, []. cbn. rewrite app_nil_r. split; [done|constructor]. }
  cbn [fmap list_fmap] in Hnd. apply NoDup_cons in Hnd as [Hne Hnd]. destruct Hef as [Hk [Hp Hp'] Hs Hv (b & s & Hb & Hd & Hu & Ht & Hc)].
  destruct (Hf f) as [Hfile Hlen]; [by left|]. destruct (IH (λ x Hx, Hf x (list_elem_of_further _ _ _ Hx)) ({[te_tenant e]} ∪ seen) (ts ++ [(e, b)]) vs Hnd) as (seen' & bs & Hr & Hbs).
  { intros x Hx. apply not_elem_of_union. split; [|apply Hns; by right]. intros E%elem_of_singleton. apply Hne. rewrite <- E. by apply list_elem_of_fmap_2. }
  exists seen', (b :: bs). split; [|constructor; [by exists s|done]]. cbn [rfold zip zip_with]. unfold verify_tenant at 1.
  rewrite (bool_decide_eq_true_2 (te_tenant e ∈ KNOWLEDGE_TENANTS)) by done. cbn [negb].
  rewrite (bool_decide_eq_false_2 (te_tenant e ∈ seen)) by (apply Hns; by left). rewrite bool_decide_eq_true_2 by done. cbn [negb].
  rewrite Hp' in Hfile. rewrite (shows_read fs files _ _ _ Hsh Hfile) by (done || lia). cbn [rbind].
  rewrite bool_decide_eq_true_2 by done. cbn [negb]. rewrite Hb. destruct (tenant_text s Hu Ht) as [E1 E2]. rewrite E1. cbn [ok_or rbind]. rewrite E2.
  rewrite Hd. cbn [map_err rbind]. rewrite Hc. cbn [rbind]. rewrite Hv. cbn [rbind]. rewrite Hr. by rewrite <- app_assoc.
Qed.

(** [C23] What is built is accepted.  A corpus that was built from any sources and written
    without an error is verified by the importer, on any file system that shows the files
    as they were written, if none exceeds the size the importer reads: the manifest is the
    built one, its tenants are all there, and the bundle of each is what its file encodes. *)
Theorem built_corpus_verifies `{!ManifestLaws} src text opts io out dir log fs built (Hbuild : build_corpus src text opts = Ok built)
    (Hwrite : write_corpus out io built dir [] = (log, Ok tt)) (Hfs : shows fs (written_files log)) (Hdir : is_real_dir fs dir = true)
    (Htenants : Forall (λ f, Z.of_nat (length (tf_bytes f)) ≤ MAX_BUNDLE_BYTES) (bc_tenants built))
    (Hmanifest : ∀ s, manifest_to_json (bc_manifest built) = Ok s → Z.of_nat (String.length s) ≤ MAX_MANIFEST_BYTES)
    (Hlock : ∀ b, bc_skills_lock built = Some b → Z.of_nat (length b) ≤ MAX_MANIFEST_BYTES) :
  ∃ vc, verify_corpus fs dir = Ok vc ∧ vc_manifest vc = bc_manifest built ∧ (vc_tenants vc).*1 = mf_tenants (bc_manifest built) ∧
    Forall2 (λ b f, ∃ s, tf_bytes f = as_bytes s ++ [newline] ∧ decode s = Ok b) (vc_tenants vc).*2 (bc_tenants built).
Proof.
  pose proof (build_corpus_ok _ _ _ _ Hbuild) as Hb. destruct (write_corpus_log _ _ _ _ _ Hwrite) as (s & Hs & ->).
  pose proof (λ p, corpus_written built s dir p Hb) as Hw. set (files := written_files _) in *. set (m := bc_manifest built) in *.
  assert (∃ s0, to_string_pretty m = Ok s0 ∧ s = s0 +:+ eol) as (s0 & Hs0 & ->).
  { unfold manifest_to_json in Hs. destruct (to_string_pretty m) as [s0|]; [|done]. exists s0. by injection Hs as <-. }
  destruct (manifest_round m s0 Hs0) as [Hround Hutf]. unfold verify_corpus. rewrite Hdir. cbn [negb].
  assert (length (as_bytes (s0 +:+ eol)) = String.length (s0 +:+ eol)) as Hlen by apply length_as_bytes.
  rewrite (shows_read fs files _ (as_bytes (s0 +:+ eol)) _ Hfs); [|apply (Hw (MANIFEST_FILE, _)); unfold corpus_files; set_solver|done|rewrite Hlen; by apply Hmanifest].
  cbn [rbind]. unfold from_utf8. rewrite Hutf. cbn [ok_or rbind]. unfold manifest_from_json, string_of_bytes, as_bytes.
  rewrite String.string_of_list_byte_of_string, Hround. cbn [map_err rbind]. rewrite (bool_decide_eq_true_2 (mf_format m = FORMAT)) by apply (co_format _ Hb). cbn [negb].
  unfold m at 1. rewrite (co_digest _ Hb). cbn [rbind]. rewrite bool_decide_eq_true_2 by done. cbn [negb]. unfold m at 1. rewrite (co_lock _ Hb).
  match goal with |- context [rbind (match ?o with Some _ => _ | None => _ end) _] => assert (match o with
    | Some want => let? lock := read_capped fs (path_join dir SKILLS_LOCK_FILE) MAX_MANIFEST_BYTES in
                   if negb (bool_decide (sha256_hex lock = want)) then Err (VerifyError "skills.lock does not match the manifest") else Ok tt
    | None => Ok tt end = Ok tt) as -> end.
  { destruct (bc_skills_lock built) as [b|] eqn:El; [|done]. cbn. rewrite (shows_read fs files _ b _ Hfs); [|apply (Hw (SKILLS_LOCK_FILE, b)); unfold corpus_files; rewrite El; set_solver|done|by apply Hlock].
    cbn [rbind]. by rewrite bool_decide_eq_true_2. }
  cbn [rbind]. destruct (verify_tenants_ok fs dir files _ _ (co_tenants _ Hb) Hfs) with (seen := ∅ : gset string) (ts := @nil (TenantEntry * SyncBundle)) (vs := ∅ : gmap string bytes) as (seen & bs & Hr & Hbs).
  - intros f Hf. rewrite Forall_forall in Htenants. split; [|by apply Htenants]. apply (Hw (tf_rel_path f, tf_bytes f)). unfold corpus_files. apply elem_of_app. left.
    apply list_elem_of_fmap. exists f. split; [done|]. apply elem_of_app. by left.
  - eapply sublist_NoDup; [|apply (co_distinct _ Hb)]. by apply (bool_decide_unpack _); vm_compute.
  - intros e _. set_solver.
  - unfold m. rewrite Hr. cbn [rbind]. eexists. split; [done|]. cbn [vc_manifest vc_tenants fst snd app].
    pose proof (Forall2_length _ _ _ Hbs) as L1. pose proof (Forall2_length _ _ _ (co_tenants _ Hb)) as L2.
    split; [done|]. split; [apply fst_zip; lia|]. rewrite snd_zip by lia. exact Hbs.
Qed.
End verify_built.
