(* ===== verification/CorpusImportProps.v ===== *)
(** * What an import does to a store

    A verified corpus can only add knowledge, whatever happens on the way; and an import
    that succeeds is complete and happens once. *)

From S2P Require Import Prelude Bytes Externs Text Str Belnap Identity Node Float Edge Grant Kv Shred Store StoreSpec StoreContents Supersession StoreInterface Join Assert.
From S2P Require Import Sync SyncProps Display Index Docs Git Ingest IngestBuild Control Corpus SyncChain CorpusImport.

(** ** Verified corpora *)

Section verified.
Context `{Blake3, Hex, Sha256, CharTables, Serde Manifest, JsonText Manifest, FromJson MemoryNode, FromJson Edge, CompactText}.

(** A tenant that verification admits *)
Record tenant_verified (p : TenantEntry * SyncBundle) : Prop := {
  tv_known : te_tenant p.1 ∈ KNOWLEDGE_TENANTS;
  tv_sha : ∃ b, te_sha256 p.1 = sha256_hex b;
  tv_nodes : Forall (λ n, plain_node (te_tenant p.1) n = true) (s_nodes p.2);
  tv_edges : Forall (λ e, plain_edge (node_ids p.2) e = true) (s_edges p.2);
}.
Record verified (vc : VerifiedCorpus) : Prop := {
  vf_tenants : Forall tenant_verified (vc_tenants vc);
  vf_distinct : NoDup (te_tenant ∘ fst <$> vc_tenants vc);
}.

Lemma check_bundle_inv e b : check_bundle e b = Ok tt →
  Forall (λ n, plain_node (te_tenant e) n = true) (s_nodes b) ∧ Forall (λ x, plain_edge (node_ids b) x = true) (s_edges b).
Proof.
  unfold check_bundle. destruct (negb _); [done|]. destruct (_ || _); [done|]. intros (ids & Hn & He)%rbind_ok.
  assert (∀ ns i i', rfold (check_node (te_tenant e)) i ns = Ok i' → Forall (λ n, plain_node (te_tenant e) n = true) ns ∧ i' = list_to_set (compute_id <$> ns) ∪ i) as Hx.
  { induction ns as [|n ns IH]; intros i i' Hr; cbn [rfold] in Hr; [injection Hr as <-; split; [constructor|set_solver]|].
    apply rbind_ok in Hr as (i1 & H1' & H2'). unfold check_node in H1'. destruct (plain_node (te_tenant e) n) eqn:Hp; [|done]. injection H1' as <-.
    destruct (IH _ _ H2') as [Hf ->]. split; [by constructor|set_solver]. }
  destruct (Hx _ _ _ Hn) as [Hf ->]. split; [done|]. unfold node_ids. rewrite union_empty_r_L in He. clear Hn Hf Hx.
  induction (s_edges b) as [|x es IH]; [constructor|]. cbn [rfold] in He. unfold check_edge at 1 in He. destruct (plain_edge _ x) eqn:Hp; [|done]. by constructor; [|apply IH].
Qed.

Lemma verify_corpus_verified fs dir vc : verify_corpus fs dir = Ok vc → verified vc.
Proof.
  unfold verify_corpus. destruct (negb _); [done|]. intros (raw & _ & (text & _ & (m & _ & Hv)%rbind_ok)%rbind_ok)%rbind_ok.
  destruct (negb _); [done|]. apply rbind_ok in Hv as (d & _ & Hv). destruct (negb _); [done|]. apply rbind_ok in Hv as (u & _ & (acc & Hf & [= <-])%rbind_ok).
  assert (∀ es seen ts vs acc, rfold (verify_tenant fs dir) (seen, ts, vs) es = Ok acc → Forall tenant_verified ts → NoDup (te_tenant ∘ fst <$> ts) →
    (∀ p, p ∈ ts → te_tenant p.1 ∈ seen) → Forall tenant_verified acc.1.2 ∧ NoDup (te_tenant ∘ fst <$> acc.1.2)) as Hx.
  { clear. induction es as [|e es IH]; intros seen ts vs acc Hr Ht Hnd Hs; cbn [rfold] in Hr; [by injection Hr as <-|].
    apply rbind_ok in Hr as ([[seen1 ts1] vs1] & H1' & Hr). unfold verify_tenant in H1'. case_bool_decide as Hk; [|done]. cbn [negb] in H1'.
    case_bool_decide as Hse; [done|]. destruct (negb _) in H1'; [done|]. apply rbind_ok in H1' as (b & _ & H1'). case_bool_decide as Hsha; [|done]. cbn [negb] in H1'.
    apply rbind_ok in H1' as (text & _ & (bundle & _ & ([] & Hc & (vs2 & _ & [= <- <- <-])%rbind_ok)%rbind_ok)%rbind_ok).
    destruct (check_bundle_inv _ _ Hc) as [Hn He]. apply (IH _ _ _ _ Hr).
    - apply Forall_app. split; [done|]. apply Forall_singleton. split; [done|by exists b|done|done].
    - rewrite fmap_app. apply NoDup_app. split_and!; [done| |apply NoDup_singleton]. intros x (p & -> & Hp)%list_elem_of_fmap Hx%list_elem_of_singleton.
      apply Hse. cbn in Hx. rewrite <- Hx. by apply Hs.
    - intros p [Hp| ->%list_elem_of_singleton]%elem_of_app; [|set_solver]. apply Hs in Hp. set_solver. }
  destruct (Hx _ _ _ _ _ Hf) as [? ?]; [constructor|constructor|by intros p Hp%not_elem_of_nil|]. by split.
Qed.
End verified.

(** ** Only additions *)

Section import_props.
Context {T R : Type} `{MemStore T, Rng R, Blake3, Hex, Ed25519, Half, FloatNan, Sha256, !MemStoreLaws T}.
Implicit Types (t : T) (c : conts).

(** The hex text of a hash is not taken for an envelope. *)
Class HashMetaLaws : Prop := hash_meta : ∀ b : bytes, ms_meta_value (as_bytes (hex_encode b)).
(** The vectors that are shipped with a corpus are finite, also after they are normalised. *)
Definition finite_vectors (vc : VerifiedCorpus) : Prop :=
  map_Forall (λ _ b, ∀ dim i model v, vector_at b dim i model = Some v → Forall (λ f, f32_is_finite f = true) (vv_data v)) (vc_vectors vc).
(** What an embedder answers is finite. *)
Definition finite_embedder (em : Embedder) : Prop := ∀ text v, em_embed em text = Ok v → Forall (λ f, f32_is_finite f = true) (vv_data v).

(** The nodes and edges of a corpus *)
Definition corpus_ids (vc : VerifiedCorpus) : gset ContentHash := ⋃ (node_ids <$> (vc_tenants vc).*2).
Definition corpus_edges (vc : VerifiedCorpus) : gset ident := list_to_set (edge_ident <$> mjoin (s_edges <$> (vc_tenants vc).*2)).

(** From [c] to [c'] a corpus was at most added: other nodes, edges and records are as they
    were, no node was retired or revived, and new nodes are plain nodes of its tenants. *)
Record only_added (vc : VerifiedCorpus) c c' : Prop := {
  oa_nodes : ∀ i, i ∉ corpus_ids vc → c_nodes c' !! i = c_nodes c !! i;
  oa_edges : ∀ k, k ∉ corpus_edges vc → c_edges c' !! k = c_edges c !! k;
  oa_meta : ∀ k, k ∉ tenant_meta_key <$> KNOWLEDGE_TENANTS → c_meta c' !! k = c_meta c !! k;
  oa_status : ∀ i n, c_nodes c !! i = Some n → ∃ n', c_nodes c' !! i = Some n' ∧ n_status n' = n_status n ∧ n_valid_to n' = n_valid_to n ∧ identity_set n' = identity_set n;
  oa_new : ∀ i n', c_nodes c' !! i = Some n' → c_nodes c !! i = None → n_repo n' ∈ KNOWLEDGE_TENANTS ∧ n_plane n' = Derived ∧ n_status n' = Active;
  oa_kept : ∀ k e, c_edges c !! k = Some e → is_Some (c_edges c' !! k);
}.

Section safety.
Context (em : Embedder) (weights : option string) (vc : VerifiedCorpus) (c0 : conts).
Context (Hvf : verified vc) (Hem : finite_embedder em) (Hfv : finite_vectors vc) `{!HashMetaLaws}.
Abbreviation P := (only_added vc c0).

Lemma plain_node_fields tenant n : plain_node tenant n = true →
  n_repo n = tenant ∧ n_plane n = Derived ∧ n_status n = Active ∧ n_valid_to n = None.
Proof.
  unfold plain_node. rewrite !andb_true_iff, !bool_decide_eq_true. tauto.
Qed.
Lemma plain_edge_fields ids e : plain_edge ids e = true →
  e_kind e ∈ [DerivedFrom; References] ∧ e_plane e = Derived ∧ e_quarantined e = false ∧ e_from e ∈ ids ∧ e_to e ∈ ids.
Proof. unfold plain_edge. rewrite !andb_true_iff, !bool_decide_eq_true, negb_true_iff. tauto. Qed.
Lemma plain_edge_not_supersession ids e : plain_edge ids e = true → ¬ is_supersession e.
Proof. intros (Hk & _)%plain_edge_fields [Hs _]. rewrite Hs in Hk. by repeat (apply elem_of_cons in Hk as [Hk|Hk]; [done|]); apply not_elem_of_nil in Hk. Qed.

(** A node of the corpus, with or without its vector *)
Definition corpus_member (n : MemoryNode) : Prop :=
  compute_id n ∈ corpus_ids vc ∧ n_repo n ∈ KNOWLEDGE_TENANTS ∧ n_plane n = Derived ∧ n_status n = Active ∧ n_valid_to n = None.
Lemma member_with_embedding n v : corpus_member n → corpus_member (with_embedding n v).
Proof. done. Qed.
Lemma bundle_member p n : p ∈ vc_tenants vc → n ∈ s_nodes p.2 → corpus_member n.
Proof.
  intros Hp Hn. pose proof (vf_tenants _ Hvf) as Ht. rewrite Forall_forall in Ht. destruct (Ht p Hp) as [Hk _ Hns _].
  rewrite Forall_forall in Hns. destruct (plain_node_fields _ _ (Hns n Hn)) as (Hr & Hrest). split; [|split; [by rewrite Hr|exact Hrest]].
  unfold corpus_ids. apply elem_of_union_list. exists (node_ids p.2). split; [apply list_elem_of_fmap; exists p.2; split; [done|]; by apply list_elem_of_fmap_2|].
  unfold node_ids. apply elem_of_list_to_set. by apply list_elem_of_fmap_2.
Qed.

Lemma merged_active l r : n_status r = Active → n_valid_to r = None → n_status (merged l r) = n_status l ∧ n_valid_to (merged l r) = n_valid_to l.
Proof.
  intros Hs Hv. unfold merged. cbn [n_status n_valid_to]. rewrite Hs, Hv. unfold merge_status. cbn [fst snd]. destruct (n_status l); cbn; [|done|done].
  by destruct (n_valid_to l).
Qed.

Lemma keeps_member out n : json_repr n → corpus_member n → keeps P (merge_one_node (T := T) out n).
Proof.
  intros Hj (Hid & Hr & Hpl & Hst & Hvt). apply keeps_merge_node; [done|]. intros t c Ht [On Oe Om Os Onew Ok_] _.
  destruct (c_nodes c !! compute_id n) as [l|] eqn:Hl.
  - destruct (proj1 (ms_ids t c Ht) _ _ Hl) as [Hidl _]. destruct (merged_active l n Hst Hvt) as [Es Ev].
    assert (node_id (merged l n) = compute_id n) as Em by (unfold node_id, MemoryNode_identified; by rewrite compute_id_merged).
    split; unfold c_put_node; cbn [c_nodes c_edges c_meta]; try done; rewrite Em.
    + intros i Hi. rewrite lookup_insert_ne; [by apply On|]. by intros <-.
    + intros i m Hm. destruct (Os i m Hm) as (m' & Hm' & Hrest). rewrite lookup_insert. case_decide as E; [|by exists m'].
      subst i. rewrite Hl in Hm'. injection Hm' as <-. exists (merged l n). split; [done|]. rewrite Es, Ev. destruct Hrest as (-> & -> & <-). done.
    + intros i m. rewrite lookup_insert. case_decide as E; [|apply Onew]. intros [= <-] Hno. subst i.
      destruct (Onew _ _ Hl Hno) as (? & ? & ?). rewrite Es. done.
  - assert (node_id n = compute_id n) as Em by done. split; unfold c_put_node; cbn [c_nodes c_edges c_meta]; try done; rewrite Em.
    + intros i Hi. rewrite lookup_insert_ne; [by apply On|]. by intros <-.
    + intros i m Hm. destruct (Os i m Hm) as (m' & Hm' & Hrest). rewrite lookup_insert_ne; [by exists m'|]. intros <-. congruence.
    + intros i m. rewrite lookup_insert. case_decide as E; [|apply Onew]. intros [= <-] _. by split_and!.
Qed.

Lemma keeps_edge out e : edge_ident e ∈ corpus_edges vc → keeps P (merge_one_edge (T := T) out e).
Proof.
  intros Hid. assert (∀ c x, edge_ident x = edge_ident e → P c → P (c_add_edge c x)) as Hx.
  { intros c x Ex [On Oe Om Os Onew Ok_]. unfold c_add_edge. destruct (c_demoting c x); [done|]. split; cbn; try done.
    - intros k Hk. rewrite lookup_insert_ne; [by apply Oe|]. intros <-. by rewrite Ex in Hk.
    - intros k y Hy. rewrite lookup_insert. case_decide; [by eexists|]. by eapply Ok_. }
  apply keeps_merge_edge. intros t c Ht Hc _. destruct (c_edges c !! edge_ident e) as [l|] eqn:Hl; apply Hx; try done.
  apply (proj2 (ms_ids t c Ht)) in Hl. unfold edge_ident in *. exact Hl.
Qed.

(** *** The import *)

(** Nothing but additions, however the step ends *)
Definition adds {A} (m : stm (R * T * list ImportEvent) CorpusError A) : Prop :=
  ∀ r t log c, ms_holds t c → P c → ∃ c', ms_holds (m ((r, t), log)).1.1.2 c' ∧ P c'.
Lemma adds_ret {A} (x : A) : adds (sret x).
Proof. intros r t log c Ht Hc. by exists c. Qed.
Lemma adds_lift {A} (x : result CorpusError A) : adds (slift x).
Proof. intros r t log c Ht Hc. by exists c. Qed.
Lemma adds_bind {A B} (m : stm (R * T * list ImportEvent) CorpusError A) (k : A → stm (R * T * list ImportEvent) CorpusError B) :
  adds m → (∀ x, adds (k x)) → adds (sbind m k).
Proof.
  intros Hm Hk r t log c Ht Hc. destruct (Hm r t log c Ht Hc) as (c1 & Ht1 & Hc1). unfold sbind.
  destruct (m (r, t, log)) as [[[r1 t1] log1] [x|e]]; cbn in *; [by eapply Hk|by exists c1].
Qed.
Lemma adds_fold {A B} (f : B → A → stm (R * T * list ImportEvent) CorpusError B) l : (∀ b a, a ∈ l → adds (f b a)) → ∀ b, adds (sfold f b l).
Proof.
  induction l as [|a l IH]; intros Hf b; [apply adds_ret|]. cbn [sfold]. apply adds_bind; [apply Hf; by left|]. intros b'. apply IH. intros b2 a' Ha. apply Hf. by right.
Qed.
Lemma adds_event ev : adds (on_event ev).
Proof. intros r t log c Ht Hc. by exists c. Qed.
Lemma adds_mem {A} (m : stm T StoreError A) : keeps P m → adds (on_mem m).
Proof. intros Hm r t log c Ht Hc. destruct (Hm t c Ht Hc) as (c' & Ht' & Hc'). unfold on_mem. destruct (m t) as [t' x]. by exists c'. Qed.

Lemma adds_merge_part b : (∀ n, n ∈ s_nodes b → json_repr n ∧ corpus_member n) →
  (∀ e, e ∈ s_edges b → ¬ is_supersession e ∧ edge_ident e ∈ corpus_edges vc) → adds (merge_part b).
Proof.
  intros Hn He r t log c Ht Hc. unfold merge_part, merge_bundle_trusted. destruct (trusted_local_grant r) as [r' [g|e]]; [|by exists c].
  destruct (merge_bundle_keeps P b g (g_issuer_pubkey g) 0 t c Ht Hc) as (c' & Ht' & Hc').
  { intros _. split_and!.
    - intros out n Hin. by apply keeps_member; apply Hn.
    - intros out e Hin _. by apply keeps_edge, He.
    - intros out e Hin Hs. by destruct (proj1 (He e Hin)). }
  destruct (merge_bundle b g (g_issuer_pubkey g) 0 t) as [t' o]. by exists c'.
Qed.

(** The vectors of a tenant that are reused *)
Definition reused (p : TenantEntry * SyncBundle) : option (VectorsEntry * bytes) :=
  v ← te_vectors p.1; if vectors_match v em weights then pair v <$> vc_vectors vc !! te_tenant p.1 else None.
Lemma reused_shipped p v b : reused p = Some (v, b) → te_vectors p.1 = Some v ∧ vc_vectors vc !! te_tenant p.1 = Some b.
Proof.
  unfold reused. intros (v' & Hv & Hr)%bind_Some. destruct (vectors_match _ _ _); [|done]. apply fmap_Some in Hr as (b' & Hb & [= -> ->]). done.
Qed.

Lemma embed_batch_members p done batch ns : embed_batch em (reused p) done batch = Ok ns → (∀ n, n ∈ batch → corpus_member n) →
  ∀ n, n ∈ ns → json_repr n ∧ corpus_member n.
Proof.
  unfold embed_batch. intros Hr Hb.
  assert (∀ l out ns, rfold (λ out n, let? v := vector_for em (reused p) (done + length out) n in Ok (out ++ [with_embedding n v])) out l = Ok ns →
    (∀ n, n ∈ l → corpus_member n) → (∀ n, n ∈ out → json_repr n ∧ corpus_member n) → ∀ n, n ∈ ns → json_repr n ∧ corpus_member n) as Hx.
  { clear Hr Hb. induction l as [|a l IH]; intros out ns' Hr Hl Ho; cbn [rfold] in Hr; [by injection Hr as <-|].
    apply rbind_ok in Hr as (out1 & (v & Hv & [= <-])%rbind_ok & Hr). apply (IH _ _ Hr); [intros n Hn; apply Hl; by right|].
    intros n [Hn| ->%list_elem_of_singleton]%elem_of_app; [by apply Ho|]. split; [|apply member_with_embedding, Hl; by left].
    unfold vector_for in Hv. destruct (reused p) as [[ve b]|] eqn:Er.
    - destruct (vector_at _ _ _ _) as [w|] eqn:E; [|done]. injection Hv as <-. destruct (reused_shipped _ _ _ Er) as [_ Hb]. exact (Hfv _ _ Hb _ _ _ _ E).
    - destruct (em_embed em _) as [w|] eqn:E; [|done]. injection Hv as <-. exact (Hem _ _ E). }
  apply (Hx _ _ _ Hr Hb). intros n Hn. by apply not_elem_of_nil in Hn.
Qed.

Lemma chunks_of_join {A} n (l : list A) : (0 < n)%nat → mjoin (chunks_of n l) = l.
Proof.
  intros Hn. unfold chunks_of. assert (∀ f (l : list A), (length l ≤ f)%nat → mjoin (chunks_of_go f n l) = l) as Hx; [|by apply Hx].
  clear l. induction f as [|f IH]; intros l Hl; [by destruct l; [|cbn in Hl; lia]|]. destruct l as [|x l]; [done|]. cbn [chunks_of_go].
  change (take n (x :: l) ++ mjoin (chunks_of_go f n (drop n (x :: l))) = x :: l). rewrite IH; [apply take_drop|]. rewrite length_drop. cbn [length] in *. lia.
Qed.
Lemma chunks_of_elem {A} (l b : list A) a : b ∈ chunks_of IMPORT_BATCH l → a ∈ b → a ∈ l.
Proof.
  intros Hb Ha. rewrite <- (chunks_of_join IMPORT_BATCH l) by (unfold IMPORT_BATCH; lia). apply list_elem_of_join. by exists b.
Qed.

Lemma adds_lift_bind {A B} (x : result CorpusError A) (k : A → stm (R * T * list ImportEvent) CorpusError B) :
  (∀ a, x = Ok a → adds (k a)) → adds (sbind (slift x) k).
Proof. intros Hk r t log c Ht Hc. destruct x as [a|e]; [exact (Hk a eq_refl r t log c Ht Hc)|by exists c]. Qed.

Lemma adds_batch p acc batch : p ∈ vc_tenants vc → batch ∈ chunks_of IMPORT_BATCH (s_nodes p.2) →
  adds (import_batch em (te_tenant p.1) p.2 (reused p) acc batch).
Proof.
  intros Hp Hb. destruct acc as [rep d]. unfold import_batch. apply adds_lift_bind. intros ns Hns. apply adds_bind.
  - apply adds_merge_part; cbn [s_nodes s_edges part_of]; [|by intros e He%not_elem_of_nil].
    intros n Hn. refine (embed_batch_members _ _ _ _ Hns _ n Hn). intros m Hm. apply (bundle_member p); [done|]. by apply (chunks_of_elem _ batch).
  - intros out. apply adds_bind; [apply adds_event|]. intros []. apply adds_ret.
Qed.

Lemma adds_edges p report : p ∈ vc_tenants vc → adds (import_edges p.2 report).
Proof.
  intros Hp. unfold import_edges. case_bool_decide; [apply adds_ret|]. apply adds_bind; [|intros out; apply adds_ret].
  apply adds_merge_part; cbn [s_nodes s_edges part_of]; [by intros n Hn%not_elem_of_nil|]. intros e He.
  pose proof (vf_tenants _ Hvf) as Ht. rewrite Forall_forall in Ht. destruct (Ht p Hp) as [_ _ _ Hes]. rewrite Forall_forall in Hes. split.
  - by eapply plain_edge_not_supersession, Hes.
  - unfold corpus_edges. apply elem_of_list_to_set, list_elem_of_fmap_2, list_elem_of_join. exists (s_edges p.2). split; [done|].
    by apply list_elem_of_fmap_2, list_elem_of_fmap_2.
Qed.

Lemma adds_record p : p ∈ vc_tenants vc → adds (on_mem (ms_put_meta (te_tenant p.1) (tenant_meta_key (te_tenant p.1)) (as_bytes (te_sha256 p.1)))).
Proof.
  intros Hp. pose proof (vf_tenants _ Hvf) as Ht. rewrite Forall_forall in Ht. destruct (Ht p Hp) as [Hk (sb & Hsha) _ _].
  intros r t log c Ht' [On Oe Om Os Onew Ok_]. unfold on_mem.
  destruct (ms_put_meta_ok t c (te_tenant p.1) (tenant_meta_key (te_tenant p.1)) (as_bytes (te_sha256 p.1)) Ht') as (t' & x & -> & _ & Hx);
    [intros _; rewrite Hsha; apply hash_meta|].
  destruct x as [y|e]; cbn in *; [|exists c; by destruct Hx]. destruct Hx as [_ Hh]. eexists. split; [exact Hh|]. split; cbn; try done.
  intros k Hnk. rewrite lookup_insert_ne; [by apply Om|]. intros <-. apply Hnk. exact (list_elem_of_fmap_2 tenant_meta_key KNOWLEDGE_TENANTS _ Hk).
Qed.

Lemma adds_tenant report p : p ∈ vc_tenants vc → adds (import_tenant em weights vc report p).
Proof.
  intros Hp. destruct p as [e b]. unfold import_tenant. apply adds_bind; [apply adds_mem, keeps_read|]. intros done_hash. case_bool_decide.
  { apply adds_bind; [apply adds_event|]. intros []. apply adds_ret. }
  apply adds_bind; [apply adds_event|]. intros []. apply adds_bind; [apply adds_fold; intros acc batch Hb; by apply (adds_batch (e, b))|].
  intros acc. apply adds_bind; [by apply (adds_edges (e, b))|]. intros rep. apply adds_bind; [by apply (adds_record (e, b))|]. intros _.
  apply adds_bind; [apply adds_event|]. intros []. apply adds_ret.
Qed.
End safety.

Lemma only_added_refl vc c : only_added vc c c.
Proof. split; try done; [intros i n Hn; by exists n|intros i n Hn ?; congruence]. Qed.

(** *** Imports that succeed *)

Section complete.
Context (em : Embedder) (weights : option string) (vc : VerifiedCorpus).
Context (Hvf : verified vc) (Hem : total_embedder em) (Hfv : finite_vectors vc) `{!HashMetaLaws, !Ed25519Laws}.

(** The source of random bytes always answers. *)
Definition total_rng : Prop := ∀ r : R, ∃ r' x, getrandom 32 r = (r', Ok x).
(** Every vector of the corpus can be read. *)
Definition readable_vectors : Prop := ∀ p v b i, p ∈ vc_tenants vc → te_vectors p.1 = Some v → vc_vectors vc !! te_tenant p.1 = Some b →
  (i < length (s_nodes p.2))%nat → is_Some (vector_at b (ve_dim v) i (ve_model v)).
Context (Hrng : total_rng) (Hrv : readable_vectors).

(** Nodes, edges and records stay. *)
Record grows c c' : Prop := {
  gr_nodes : ∀ i, is_Some (c_nodes c !! i) → is_Some (c_nodes c' !! i);
  gr_edges : ∀ k, is_Some (c_edges c !! k) → is_Some (c_edges c' !! k);
}.
#[local] Instance grows_preorder : PreOrder grows.
Proof. split; [by split|]. intros c1 c2 c3 [N1 E1] [N2 E2]. split; eauto. Qed.

(** On a plain store whose contents have [P0], a call succeeds, and the contents have [Q] *)
Definition lands {E A} (P0 Q : conts → Prop) (m : stm T E A) : Prop :=
  ∀ t c, ms_holds t c → ms_sealing t = false → P0 c →
    ∃ t' x c', m t = (t', Ok x) ∧ ms_holds t' c' ∧ ms_sealing t' = false ∧ grows c c' ∧ c_meta c' = c_meta c ∧ Q c'.

Lemma lands_fold {E A B} (Q : A → conts → Prop) (f : B → A → stm T E B) l :
  (∀ a c c', grows c c' → Q a c → Q a c') → (∀ b a, a ∈ l → lands (λ _, True) (Q a) (f b a)) →
  ∀ b, lands (λ _, True) (λ c, ∀ a, a ∈ l → Q a c) (sfold f b l).
Proof.
  intros Hm. induction l as [|a l IH]; intros Hf b t c Ht Hs _.
  - exists t, b, c. split_and!; try done. by intros a Ha%not_elem_of_nil.
  - cbn [sfold]. destruct (Hf b a ltac:(by left) t c Ht Hs I) as (t1 & b1 & c1 & Hr1 & Ht1 & Hs1 & G1 & M1 & Q1).
    destruct (IH ltac:(intros b' a' Ha; apply Hf; by right) b1 t1 c1 Ht1 Hs1 I) as (t2 & b2 & c2 & Hr2 & Ht2 & Hs2 & G2 & M2 & Q2).
    exists t2, b2, c2. rewrite (sbind_ok _ _ t t1 b1) by done. split_and!; [done..|by etrans|congruence|].
    intros a' [->|Ha]%elem_of_cons; [by eapply Hm|by apply Q2].
Qed.

Lemma grows_put_node c n : grows c (c_put_node c n).
Proof. split; cbn; [|done]. intros i Hi. rewrite lookup_insert. by case_decide. Qed.
Lemma grows_add_edge c e : grows c (c_add_edge c e).
Proof. unfold c_add_edge. destruct (c_demoting c e); [done|]. split; cbn; [done|]. intros k Hk. rewrite lookup_insert. by case_decide. Qed.

Lemma lands_node out n : json_repr n → n_plane n = Derived → lands (λ _, True) (λ c, is_Some (c_nodes c !! compute_id n)) (merge_one_node out n).
Proof.
  intros Hj Hp t c Ht Hs _. unfold merge_one_node, rejected_node. rewrite Hp. cbn [bool_decide andb].
  rewrite bool_decide_eq_false_2 by done. cbn [andb]. rewrite (sbind_sread_ok _ _ t (c_nodes c !! compute_id n)) by (by rewrite (ms_get_node_ok t c)).
  assert (∀ m, json_repr m → ∃ t', ms_put_node m t = (t', Ok (compute_id m)) ∧ ms_holds t' (c_put_node c m) ∧ ms_sealing t' = false) as Hput.
  { intros m Hm. destruct (ms_put_node_ok t c m Ht Hm) as (t' & [x|x] & Hr & Hs' & Hx); [|destruct Hx; congruence]. destruct Hx as [-> Hx]. exists t'. split_and!; [done|done|congruence]. }
  destruct (c_nodes c !! compute_id n) as [l|] eqn:Hl.
  - destruct (proj1 (ms_ids t c Ht) _ _ Hl) as [Hid Hjl]. destruct (merge_node l n) as [[m ch] cs] eqn:Hm. unfold merge_node in Hm. injection Hm as <- Hch _. destruct ch.
    + destruct (Hput (merged l n)) as (t' & Hr & Ht' & Hs'); [by apply merged_json|]. unfold sbind, smap_err. rewrite Hr.
      eexists t', _, _. split_and!; [done|done|done|apply grows_put_node|done|]. cbn. unfold node_id, MemoryNode_identified. rewrite compute_id_merged, Hid, lookup_insert_eq. by eexists.
    + eexists t, _, c. split_and!; done.
  - destruct (Hput n Hj) as (t' & Hr & Ht' & Hs'). unfold sbind, smap_err. rewrite Hr.
    eexists t', _, _. split_and!; [done|done|done|apply grows_put_node|done|]. cbn. rewrite lookup_insert_eq. by eexists.
Qed.

Lemma lands_edge out e : e_plane e = Derived → e_quarantined e = false → lands (λ _, True) (λ c, is_Some (c_edges c !! edge_ident e)) (merge_one_edge out e).
Proof.
  intros Hp Hq t c Ht Hs _. unfold merge_one_edge, rejected_edge. rewrite Hp. rewrite bool_decide_eq_false_2 by done. cbn [andb].
  rewrite (sbind_sread_ok _ _ t (c_edges c !! edge_ident e)) by (by apply find_edge_ok).
  assert (∀ x, ∃ t', ms_add_edge x t = (t', Ok tt) ∧ ms_holds t' (c_add_edge c x) ∧ ms_sealing t' = false) as Hadd.
  { intros x. destruct (ms_add_edge_ok t c x Ht) as (t' & [y|y] & Hr & Hs' & Hy); [|destruct Hy; congruence]. destruct Hy as [-> Hy]. exists t'. split_and!; [done|done|congruence]. }
  destruct (c_edges c !! edge_ident e) as [l|] eqn:Hl.
  - destruct (negb _); [|eexists t, _, c; split_and!; try done; by rewrite Hl]. destruct (Hadd (merge_edge l e)) as (t' & Hr & Ht' & Hs'). unfold sbind, smap_err. rewrite Hr.
    eexists t', _, _. split_and!; [done|done|done|apply grows_add_edge|by unfold c_add_edge; destruct (c_demoting _ _)|].
    apply (gr_edges _ _ (grows_add_edge c _)). by rewrite Hl.
  - destruct (Hadd e) as (t' & Hr & Ht' & Hs'). unfold sbind, smap_err. rewrite Hr.
    eexists t', _, _. split_and!; [done|done|done|apply grows_add_edge|by unfold c_add_edge; destruct (c_demoting _ _)|].
    unfold c_add_edge, c_demoting. rewrite Hq. cbn. rewrite lookup_insert_eq. by eexists.
Qed.

(** The endpoints of the edges of a part are among the nodes of the store. *)
Lemma lands_merge b g : (∀ res op now, now < u64_max → check g res op now = Ok tt) →
  (∀ n, n ∈ s_nodes b → json_repr n ∧ n_plane n = Derived) →
  (∀ e, e ∈ s_edges b → ¬ is_supersession e ∧ e_plane e = Derived ∧ e_quarantined e = false) →
  lands (λ c, ∀ e, e ∈ s_edges b → is_Some (c_nodes c !! e_from e) ∧ is_Some (c_nodes c !! e_to e))
        (λ c, (∀ n, n ∈ s_nodes b → is_Some (c_nodes c !! compute_id n)) ∧ (∀ e, e ∈ s_edges b → is_Some (c_edges c !! edge_ident e)))
        (merge_bundle b g (g_issuer_pubkey g) 0).
Proof.
  intros Hg Hn He t c Ht Hs Hc. unfold merge_bundle. rewrite (sbind_sread_ok _ _ t tt).
  2:{ unfold authorize_bundle. rewrite bool_decide_eq_true_2 by done. cbn [negb]. unfold collect_repos.
      destruct (rfold_total (λ repos e, rfold (collect_endpoint t (bundle_repos (s_nodes b))) repos [e_from e; e_to e]) (list_to_set (n_repo <$> s_nodes b)) (s_edges b)) as (rs & ->).
      { intros rs e Hin. apply rfold_total. intros rs' i Hi. unfold collect_endpoint, endpoint_repo. destruct (_ !! i); [by eexists|].
        rewrite (ms_get_node_ok t c) by done. destruct (Hc e Hin) as [[x Hx] [y Hy]].
        apply elem_of_cons in Hi as [->|Hi]; [rewrite Hx; by eexists|]. apply list_elem_of_singleton in Hi as ->. rewrite Hy. by eexists. }
      cbn. apply rfold_unit_all. intros repo. by rewrite Hg. }
  destruct (lands_fold (λ n c, is_Some (c_nodes c !! compute_id n)) merge_one_node (sort_by_key compute_id (s_nodes b)) ltac:(intros ? ? ? [G _]; apply G)
    ltac:(intros out n Hin%elem_of_sort_by_key; apply lands_node; by apply Hn) outcome_default t c Ht Hs I) as (t1 & o1 & c1 & Hr1 & Ht1 & Hs1 & G1 & M1 & Q1).
  rewrite (sbind_ok _ _ t t1 o1) by done.
  destruct (lands_fold (λ e c, is_Some (c_edges c !! edge_ident e)) merge_one_edge (filter (λ e, ¬ is_supersession e) (sort_by_key Edge_key (s_edges b))) ltac:(intros ? ? ? [_ G]; apply G)
    ltac:(intros out e [_ Hin%elem_of_sort_by_key]%list_elem_of_filter; apply lands_edge; by apply He) o1 t1 c1 Ht1 Hs1 I) as (t2 & o2 & c2 & Hr2 & Ht2 & Hs2 & G2 & M2 & Q2).
  rewrite (sbind_ok _ _ t1 t2 o2) by done. assert (filter is_supersession (sort_by_key Edge_key (s_edges b)) = []) as ->.
  { apply elem_of_nil_inv. intros e [Hsup Hin%elem_of_sort_by_key]%list_elem_of_filter. by apply (He e Hin). }
  exists t2, o2, c2. split_and!; [done|done|done|by etrans|congruence| |].
  - intros n Hin. apply (gr_nodes _ _ G2), Q1. by apply elem_of_sort_by_key.
  - intros e Hin. apply Q2. apply list_elem_of_filter. split; [by apply He|by apply elem_of_sort_by_key].
Qed.

Lemma total_finite : finite_embedder em.
Proof. intros text v Hv. destruct (Hem text) as (w & Hw & Hf). congruence. Qed.

Lemma grant_ok (r : R) : ∃ r' g, trusted_local_grant r = (r', Ok g) ∧ ∀ res op now, now < u64_max → check g res op now = Ok tt.
Proof.
  destruct (Hrng r) as (r' & x & Hr). unfold trusted_local_grant, sbind, smap_err. rewrite Hr. eexists _, _. split; [done|].
  intros res op now Hnow. by apply sign_with_all_check.
Qed.

Lemma part_lands b (r : R) t log c : (∀ n, n ∈ s_nodes b → json_repr n ∧ n_plane n = Derived) →
  (∀ e, e ∈ s_edges b → ¬ is_supersession e ∧ e_plane e = Derived ∧ e_quarantined e = false) →
  ms_holds t c → ms_sealing t = false → (∀ e, e ∈ s_edges b → is_Some (c_nodes c !! e_from e) ∧ is_Some (c_nodes c !! e_to e)) →
  ∃ r' t' x c', merge_part b ((r, t), log) = (((r', t'), log), Ok x) ∧ ms_holds t' c' ∧ ms_sealing t' = false ∧ grows c c' ∧ c_meta c' = c_meta c ∧
    (∀ n, n ∈ s_nodes b → is_Some (c_nodes c' !! compute_id n)) ∧ (∀ e, e ∈ s_edges b → is_Some (c_edges c' !! edge_ident e)).
Proof.
  intros Hn He Ht Hs Hc. destruct (grant_ok r) as (r' & g & Hg & Hchk).
  destruct (lands_merge b g Hchk Hn He t c Ht Hs Hc) as (t' & x & c' & Hr & Ht' & Hs' & G & M & Q). exists r', t', x, c'.
  unfold merge_part, merge_bundle_trusted. rewrite Hg, Hr. by split_and!; try apply Q.
Qed.

Lemma embed_batch_ok reuse d batch : (∀ i n, (i < d + length batch)%nat → ∃ v, vector_for em reuse i n = Ok v) →
  ∃ ns, embed_batch em reuse d batch = Ok ns ∧ compute_id <$> ns = compute_id <$> batch.
Proof.
  intros Hv. unfold embed_batch. assert (∀ l out, (∀ i n, (i < d + length out + length l)%nat → ∃ v, vector_for em reuse i n = Ok v) →
    ∃ ns, rfold (λ out n, let? v := vector_for em reuse (d + length out) n in Ok (out ++ [with_embedding n v])) out l = Ok ns ∧
      compute_id <$> ns = (compute_id <$> out) ++ (compute_id <$> l)) as Hx.
  { clear Hv. induction l as [|n l IH]; intros out Hv; cbn [rfold]; [exists out; by rewrite app_nil_r|].
    destruct (Hv (d + length out)%nat n) as [v ->]; [cbn; lia|]. cbn [rbind]. destruct (IH (out ++ [with_embedding n v])) as (ns & Hns & Ens).
    - intros i m Hi. apply Hv. rewrite length_app in Hi. cbn in *. lia.
    - exists ns. split; [done|]. rewrite Ens, fmap_app, <- app_assoc. done. }
  destruct (Hx batch []) as (ns & Hns & Ens); [|by exists ns]. intros i n Hi. apply Hv. cbn in Hi. lia.
Qed.

Definition same_tenants (r r' : ImportReport) : Prop :=
  im_tenants_imported r' = im_tenants_imported r ∧ im_tenants_skipped r' = im_tenants_skipped r.
Lemma same_tenants_add rep rep' a b d e f : same_tenants (add_report rep [] [] a b d e f) rep' → same_tenants rep rep'.
Proof. unfold same_tenants, add_report. cbn. by rewrite !app_nil_r. Qed.

Lemma batches_land p : p ∈ vc_tenants vc → (∀ i n, (i < length (s_nodes p.2))%nat → ∃ v, vector_for em (reused em weights vc p) i n = Ok v) →
  ∀ bs rep d (r : R) t log c, ms_holds t c → ms_sealing t = false → (d + length (mjoin bs) ≤ length (s_nodes p.2))%nat → (∀ n, n ∈ mjoin bs → n ∈ s_nodes p.2) →
  ∃ r' t' log' rep' d' c', sfold (import_batch em (te_tenant p.1) p.2 (reused em weights vc p)) (rep, d) bs ((r, t), log) = (((r', t'), log'), Ok (rep', d')) ∧
    ms_holds t' c' ∧ ms_sealing t' = false ∧ grows c c' ∧ c_meta c' = c_meta c ∧ (∀ n, n ∈ mjoin bs → is_Some (c_nodes c' !! compute_id n)) ∧ same_tenants rep rep'.
Proof.
  intros Hp Hv. induction bs as [|b bs IH]; intros rep d r t log c Ht Hs Hd Hin.
  { eexists r, t, log, rep, d, c. split_and!; try done. by intros n Hn%not_elem_of_nil. }
  change (mjoin (b :: bs)) with (b ++ mjoin bs) in *. rewrite length_app in Hd. cbn [sfold].
  set (reuse := reused em weights vc p). destruct (embed_batch_ok reuse d b) as (ns & Hns & Ens); [intros i n Hi; apply Hv; lia|].
  pose proof (embed_batch_members em weights vc total_finite Hfv p d b ns Hns ltac:(intros n Hn; apply (bundle_member vc Hvf p); [done|]; apply Hin, elem_of_app; by left)) as Hmem.
  destruct (part_lands (part_of p.2 ns []) r t log c) as (r1 & t1 & o1 & c1 & Hr1 & Ht1 & Hs1 & G1 & M1 & Qn1 & _); cbn [s_nodes s_edges part_of] in *; try done.
  { intros n Hn. destruct (Hmem n Hn) as [? (? & ? & ? & ?)]. done. }
  { by intros e He%not_elem_of_nil. }
  { by intros e He%not_elem_of_nil. }
  set (ev := Progress (te_tenant p.1) (d + length b) (length (s_nodes p.2))).
  set (rep1 := add_report rep [] [] (nodes_added o1) (nodes_merged o1) 0 (if reuse then 0 else length b) (if reuse then length b else 0)).
  destruct (IH rep1 (d + length b)%nat r1 t1 (log ++ [ev]) c1 Ht1 Hs1) as (r2 & t2 & log2 & rep2 & d2 & c2 & Hr2 & Ht2 & Hs2 & G2 & M2 & Qn2 & Hst);
    [lia|intros n Hn; apply Hin, elem_of_app; by right|].
  exists r2, t2, log2, rep2, d2, c2. split_and!; [|done|done|by etrans|congruence| |by eapply same_tenants_add].
  - rewrite (sbind_ok _ _ _ ((r1, t1), log ++ [ev]) (rep1, (d + length b)%nat)); [exact Hr2|]. unfold import_batch.
    rewrite (sbind_ok _ _ _ ((r, t), log) ns) by (unfold slift; by rewrite Hns). by rewrite (sbind_ok _ _ _ ((r1, t1), log) o1).
  - intros n [Hn|Hn]%elem_of_app; [|by apply Qn2]. apply (gr_nodes _ _ G2). assert (compute_id n ∈ compute_id <$> ns) as (m & -> & Hm)%list_elem_of_fmap; [|by apply Qn1].
    rewrite Ens. by apply list_elem_of_fmap_2.
Qed.

Lemma edges_land p rep (r : R) t log c : p ∈ vc_tenants vc → ms_holds t c → ms_sealing t = false → (∀ n, n ∈ s_nodes p.2 → is_Some (c_nodes c !! compute_id n)) →
  ∃ r' t' rep' c', import_edges p.2 rep ((r, t), log) = (((r', t'), log), Ok rep') ∧ ms_holds t' c' ∧ ms_sealing t' = false ∧ grows c c' ∧
    c_meta c' = c_meta c ∧ (∀ e, e ∈ s_edges p.2 → is_Some (c_edges c' !! edge_ident e)) ∧ same_tenants rep rep'.
Proof.
  intros Hp Ht Hs Hn. unfold import_edges. case_bool_decide as Hnil.
  { exists r, t, rep, c. split_and!; try done. rewrite Hnil. by intros e He%not_elem_of_nil. }
  pose proof (vf_tenants _ Hvf) as Hall. rewrite Forall_forall in Hall. destruct (Hall p Hp) as [_ _ _ Hes]. rewrite Forall_forall in Hes.
  destruct (part_lands (part_of p.2 [] (s_edges p.2)) r t log c) as (r1 & t1 & o1 & c1 & Hr1 & Ht1 & Hs1 & G1 & M1 & _ & Qe1); cbn [s_nodes s_edges part_of] in *; try done.
  { by intros n Hx%not_elem_of_nil. }
  { intros e He. split; [by eapply plain_edge_not_supersession, Hes|]. by destruct (plain_edge_fields _ _ (Hes e He)) as (_ & ? & ? & _). }
  { intros e He. destruct (plain_edge_fields _ _ (Hes e He)) as (_ & _ & _ & Hf & Hto). unfold node_ids in *.
    apply elem_of_list_to_set, list_elem_of_fmap in Hf as (n1 & -> & H1'). apply elem_of_list_to_set, list_elem_of_fmap in Hto as (n2 & -> & H2'). split; by apply Hn. }
  eexists r1, t1, _, c1. rewrite (sbind_ok _ _ _ ((r1, t1), log) o1) by done. split_and!; [done..|]. by apply (same_tenants_add _ _ 0 0 (edges_added o1) 0 0).
Qed.

(** The contents say that a tenant was imported; the contents hold a bundle. *)
Definition recorded c (p : TenantEntry * SyncBundle) : Prop := c_meta c !! tenant_meta_key (te_tenant p.1) = Some (as_bytes (te_sha256 p.1)).
Definition holds_bundle c (b : SyncBundle) : Prop :=
  (∀ n, n ∈ s_nodes b → is_Some (c_nodes c !! compute_id n)) ∧ (∀ e, e ∈ s_edges b → is_Some (c_edges c !! edge_ident e)).
Lemma holds_bundle_grows c c' b : grows c c' → holds_bundle c b → holds_bundle c' b.
Proof. intros [G1 G2] [H1' H2']. split; eauto. Qed.
#[export] Instance recorded_dec c p : Decision (recorded c p).
Proof. unfold recorded. apply _. Defined.

Lemma tenant_lands p rep (r : R) t log c : p ∈ vc_tenants vc → ms_holds t c → ms_sealing t = false →
  ∃ r' t' log' rep' c', import_tenant em weights vc rep p ((r, t), log) = (((r', t'), log'), Ok rep') ∧ ms_holds t' c' ∧ ms_sealing t' = false ∧ grows c c' ∧
    c_meta c' = <[tenant_meta_key (te_tenant p.1) := as_bytes (te_sha256 p.1)]> (c_meta c) ∧ (¬ recorded c p → holds_bundle c' p.2) ∧
    im_tenants_skipped rep' = im_tenants_skipped rep ++ (if decide (recorded c p) then [te_tenant p.1] else []) ∧
    im_tenants_imported rep' = im_tenants_imported rep ++ (if decide (recorded c p) then [] else [te_tenant p.1]).
Proof.
  intros Hp Ht Hs. destruct p as [en b]. unfold import_tenant.
  rewrite (sbind_ok _ _ _ ((r, t), log) (c_meta c !! tenant_meta_key (te_tenant en))) by (unfold on_mem, sread; by rewrite (ms_get_meta_ok t c)).
  destruct (decide (recorded c (en, b))) as [Hd|Hd]; unfold recorded in Hd; cbn [fst] in Hd.
  { rewrite bool_decide_eq_true_2 by done. eexists r, t, _, _, c. split_and!; [done..|by rewrite insert_id|done| |]; cbn; by rewrite ?app_nil_r. }
  rewrite bool_decide_eq_false_2 by done. change (te_vectors en ≫= _) with (reused em weights vc (en, b)).
  rewrite (sbind_ok _ _ _ ((r, t), log ++ [TenantStart (te_tenant en) (length (s_nodes b)) (length (s_edges b))]) tt) by done.
  assert (∀ i n, (i < length (s_nodes b))%nat → ∃ v, vector_for em (reused em weights vc (en, b)) i n = Ok v) as Hv.
  { intros i n Hi. unfold vector_for. destruct (reused em weights vc (en, b)) as [[v vb]|] eqn:Er.
    - destruct (reused_shipped _ _ _ _ _ _ Er) as [Hv Hvb]. destruct (Hrv (en, b) v vb i Hp Hv Hvb Hi) as [x ->]. by eexists.
    - destruct (Hem (from_utf8_lossy (n_content n))) as (v & -> & _). by eexists. }
  pose proof (chunks_of_join IMPORT_BATCH (s_nodes b) ltac:(unfold IMPORT_BATCH; lia)) as Hj.
  destruct (batches_land (en, b) Hp Hv (chunks_of IMPORT_BATCH (s_nodes b)) rep 0 r t
    (log ++ [TenantStart (te_tenant en) (length (s_nodes b)) (length (s_edges b))]) c Ht Hs) as (r1 & t1 & log1 & rep1 & d1 & c1 & Hr1 & Ht1 & Hs1 & G1 & M1 & Q1 & S1);
    [rewrite Hj; cbn; lia|by rewrite Hj|]. rewrite Hj in Q1. rewrite (sbind_ok _ _ _ _ _ Hr1). cbn [fst].
  destruct (edges_land (en, b) rep1 r1 t1 log1 c1 Hp Ht1 Hs1 Q1) as (r2 & t2 & rep2 & c2 & Hr2 & Ht2 & Hs2 & G2 & M2 & Q2 & S2). cbn [snd] in Hr2. rewrite (sbind_ok _ _ _ _ _ Hr2).
  pose proof (vf_tenants _ Hvf) as Hall. rewrite Forall_forall in Hall. destruct (Hall _ Hp) as [_ (sb & Hsha) _ _].
  destruct (ms_put_meta_ok t2 c2 (te_tenant en) (tenant_meta_key (te_tenant en)) (as_bytes (te_sha256 en)) Ht2) as (t3 & [[]|x] & Hr3 & Hs3 & Hx);
    [intros _; cbn [fst] in Hsha; rewrite Hsha; apply hash_meta| |destruct Hx; congruence]. destruct Hx as [_ Ht3].
  rewrite (sbind_ok _ _ _ ((r2, t3), log1) tt) by (unfold on_mem; by rewrite Hr3).
  eexists r2, t3, _, _, _. split_and!; [done|done|congruence| | | | |]; cbn [c_meta c_put_meta fst snd im_tenants_skipped im_tenants_imported add_report].
  - etrans; [exact G1|]. etrans; [exact G2|]. by split.
  - cbn. by rewrite M2, M1.
  - intros _. split; cbn; [|done]. intros n Hn. by apply (gr_nodes _ _ G2), Q1.
  - rewrite (proj2 S2), (proj2 S1). done.
  - by rewrite (proj1 S2), (proj1 S1).
Qed.

Lemma tenant_meta_key_inj a b : tenant_meta_key a = tenant_meta_key b → a = b.
Proof. unfold tenant_meta_key. intros E%as_bytes_inj. by apply (inj _) in E. Qed.

Definition names (ts : list (TenantEntry * SyncBundle)) : list string := te_tenant ∘ fst <$> ts.
Lemma names_filter_ext c c' (ts : list (TenantEntry * SyncBundle)) : (∀ p, p ∈ ts → recorded c p ↔ recorded c' p) →
  filter (recorded c) ts = filter (recorded c') ts ∧ filter (λ p, ¬ recorded c p) ts = filter (λ p, ¬ recorded c' p) ts.
Proof.
  induction ts as [|p ts IH]; intros Hx; [done|]. destruct IH as [I1 I2]; [intros q Hq; apply Hx; by right|]. pose proof (Hx p ltac:(by left)) as Hp.
  rewrite !filter_cons, I1, I2. split; repeat case_decide; tauto || done.
Qed.

Lemma tenants_land (ts : list (TenantEntry * SyncBundle)) : (∀ p, p ∈ ts → p ∈ vc_tenants vc) → NoDup (names ts) → ∀ rep (r : R) t log c, ms_holds t c → ms_sealing t = false →
  ∃ r' t' log' rep' c', sfold (import_tenant em weights vc) rep ts ((r, t), log) = (((r', t'), log'), Ok rep') ∧ ms_holds t' c' ∧ ms_sealing t' = false ∧ grows c c' ∧
    (∀ k, k ∉ tenant_meta_key <$> names ts → c_meta c' !! k = c_meta c !! k) ∧ (∀ p, p ∈ ts → recorded c' p) ∧ (∀ p, p ∈ ts → ¬ recorded c p → holds_bundle c' p.2) ∧
    im_tenants_skipped rep' = im_tenants_skipped rep ++ names (filter (recorded c) ts) ∧
    im_tenants_imported rep' = im_tenants_imported rep ++ names (filter (λ p, ¬ recorded c p) ts).
Proof.
  induction ts as [|p ts IH]; intros Hsub Hnd rep r t log c Ht Hs.
  { eexists r, t, log, rep, c. split_and!; try done; [by intros p Hp%not_elem_of_nil..|by rewrite app_nil_r|by rewrite app_nil_r]. }
  cbn [sfold]. destruct (tenant_lands p rep r t log c (Hsub p ltac:(by left)) Ht Hs) as (r1 & t1 & log1 & rep1 & c1 & Hr1 & Ht1 & Hs1 & G1 & M1 & B1 & K1 & I1).
  rewrite (sbind_ok _ _ _ _ _ Hr1). apply NoDup_cons in Hnd as [Hno Hnd].
  destruct (IH ltac:(intros q Hq; apply Hsub; by right) Hnd rep1 r1 t1 log1 c1 Ht1 Hs1) as (r2 & t2 & log2 & rep2 & c2 & Hr2 & Ht2 & Hs2 & G2 & M2 & P2 & B2 & K2 & I2).
  assert (tenant_meta_key (te_tenant p.1) ∉ tenant_meta_key <$> names ts) as Hk by (intros (x & E%tenant_meta_key_inj & Hx)%list_elem_of_fmap; by subst x).
  assert (∀ q, q ∈ ts → recorded c q ↔ recorded c1 q) as Hext.
  { intros q Hq. unfold recorded. rewrite M1, lookup_insert_ne; [done|]. intros E. apply Hk. rewrite E. by apply list_elem_of_fmap_2, (list_elem_of_fmap_2 (te_tenant ∘ fst)). }
  destruct (names_filter_ext c c1 ts Hext) as [F1 F2]. exists r2, t2, log2, rep2, c2. split_and!; [done|done|done|by etrans| | | | |].
  - intros k [Hne Hin]%not_elem_of_cons. rewrite M2 by done. rewrite M1, lookup_insert_ne; [done|]. intros E. by apply Hne.
  - intros q [->|Hq]%elem_of_cons; [|by apply P2]. unfold recorded. by rewrite M2, M1, lookup_insert_eq.
  - intros q [->|Hq]%elem_of_cons Hrec; [by eapply holds_bundle_grows, B1|]. apply B2; [done|]. by rewrite <- Hext.
  - rewrite K2, K1, filter_cons, <- F1, <- app_assoc. by destruct (decide (recorded c p)).
  - rewrite I2, I1, filter_cons, <- F2, <- app_assoc. destruct (decide (recorded c p)), (decide (¬ recorded c p)); tauto || done.
Qed.
End complete.

(** A corpus that is recorded is not imported again. *)
Lemma recorded_skipped em weights vc (r : R) t c (ts : list (TenantEntry * SyncBundle)) : ms_holds t c → (∀ p, p ∈ ts → recorded c p) → ∀ rep log,
  sfold (import_tenant em weights vc) rep ts ((r, t), log) =
    (((r, t), log ++ ((λ p, TenantSkipped (te_tenant p.1) "already-imported") <$> ts)), Ok (add_report rep [] (names ts) 0 0 0 0 0)).
Proof.
  intros Ht. induction ts as [|p ts IH]; intros Hr rep log.
  { cbn. rewrite app_nil_r. unfold sret. do 2 f_equal. destruct rep. unfold add_report. cbn. by rewrite !app_nil_r, !Nat.add_0_r. }
  cbn [sfold]. rewrite (sbind_ok _ _ _ ((r, t), log ++ [TenantSkipped (te_tenant p.1) "already-imported"]) (add_report rep [] [te_tenant p.1] 0 0 0 0 0)).
  - rewrite IH by (intros q Hq; apply Hr; by right). cbn [fmap list_fmap]. rewrite <- app_assoc. do 2 f_equal. unfold add_report. cbn. by rewrite !app_nil_r, <- !app_assoc, !Nat.add_0_r.
  - destruct p as [en b]. unfold import_tenant. rewrite (sbind_ok _ _ _ ((r, t), log) (c_meta c !! tenant_meta_key (te_tenant en))) by (unfold on_mem, sread; by rewrite (ms_get_meta_ok t c)).
    rewrite bool_decide_eq_true_2; [done|]. apply (Hr (en, b)). by left.
Qed.
End import_props.

(** ** The claims *)

Section import_claims.
Context {T R : Type} `{MemStore T, Rng R, Blake3, Hex, Ed25519, Half, FloatNan, Sha256, !MemStoreLaws T}.
Context `{CharTables, Serde Manifest, JsonText Manifest, FromJson MemoryNode, FromJson Edge, CompactText, !HashMetaLaws}.

(** [C22] The import of a corpus that verification let through can only add, if the vectors
    of the embedder and those shipped with it are finite: whatever the import returns, also
    when the store, the embedder or the random source fails half way,
    the store still holds every node and edge it had, with its status, its end of validity
    and its identity; nodes and edges whose identity is not in the corpus and records other
    than those of the knowledge tenants are as they were; a node that is new is an active
    node of the derived plane in one of the knowledge tenants. *)
Theorem import_only_adds fs dir vc em weights (r : R) (t : T) c log (Hver : verify_corpus fs dir = Ok vc) (Ht : ms_holds t c)
    (Hem : finite_embedder em) (Hfv : finite_vectors vc) :
  ∃ c', ms_holds (import_corpus_with em weights vc ((r, t), log)).1.1.2 c' ∧ only_added vc c c'.
Proof.
  apply verify_corpus_verified in Hver. refine (adds_fold vc c (import_tenant em weights vc) (vc_tenants vc) _ _ r t log c Ht (only_added_refl vc c)).
  intros rep p Hp. by apply adds_tenant.
Qed.

(** The import of a verified corpus into a store that does not seal succeeds when the
    embedder and the random source answer and the shipped vectors are readable and finite: afterwards
    the store holds every node and edge of every tenant that was not recorded yet, all
    tenants are recorded with the hash of their bundle, and the report lists the imported
    and the skipped tenants.  Importing it again, with any embedder, then changes nothing:
    every tenant is skipped, and the report counts nothing. *)
Theorem import_once `{!Ed25519Laws} fs dir vc em weights (r : R) (t : T) c log (Hver : verify_corpus fs dir = Ok vc) (Ht : ms_holds t c)
    (Hs : ms_sealing t = false) (Hem : total_embedder em) (Hrng : total_rng (R := R)) (Hfv : finite_vectors vc) (Hrv : readable_vectors vc) :
  ∃ r' t' log' rep c', import_corpus_with em weights vc ((r, t), log) = (((r', t'), log'), Ok rep) ∧ ms_holds t' c' ∧
    (∀ p, p ∈ vc_tenants vc → recorded c' p ∧ (¬ recorded c p → holds_bundle c' p.2)) ∧
    im_tenants_skipped rep = names (filter (recorded c) (vc_tenants vc)) ∧
    im_tenants_imported rep = names (filter (λ p, ¬ recorded c p) (vc_tenants vc)) ∧
    ∀ em2 weights2 (r2 : R) log2, import_corpus_with em2 weights2 vc ((r2, t'), log2) =
      (((r2, t'), log2 ++ ((λ p, TenantSkipped (te_tenant p.1) "already-imported") <$> vc_tenants vc)),
       Ok (add_report (new_report (mf_bundle_digest (vc_manifest vc)) (em_model_id em2)) [] (names (vc_tenants vc)) 0 0 0 0 0)).
Proof.
  apply verify_corpus_verified in Hver.
  destruct (tenants_land em weights vc Hver Hem Hfv Hrng Hrv (vc_tenants vc) ltac:(done) (vf_distinct _ Hver)
    (new_report (mf_bundle_digest (vc_manifest vc)) (em_model_id em)) r t log c Ht Hs) as (r' & t' & log' & rep & c' & Hr & Ht' & _ & _ & _ & Hrec & Hb & Hk & Hi).
  exists r', t', log', rep, c'. split_and!; try done; [by intros p Hp; split; [apply Hrec|apply Hb]|].
  intros em2 weights2 r2 log2. by apply (recorded_skipped em2 weights2 vc r2 t' c').
Qed.
End import_claims.
