(* ===== verification/GwAuth.v ===== *)
(** * Authentication and grants of the gateway ([mem-gateway/src/auth.rs])

    The grant a membership stands for, the verification of identity tokens against a fixed
    key set, and connect tokens.  Decoding and encoding JSON web tokens is the
    jsonwebtoken crate, a parameter ([Jwt]); its clock is an argument. *)

From S2P Require Import Prelude Bytes Externs Text Str Display Grant Control.

Definition repo_resource (tenant : string) : string := "repo:" +:+ tenant +:+ "/memory".

Definition policy_for (role : Role) : PolicyProfile :=
  match role with OrgOwner => Maintainer | Admin => Operator | Member => Guided | Reader => ReadOnly end.

Definition normalize_resource (id : string) : string :=
  if bool_decide (id = "*") || String.prefix "repo:" id then id else repo_resource id.

(** The scope a control-plane scope stands for *)
Definition scope_of (may_write : bool) (s : Scope) : ResourceScope :=
  {| resource_id := normalize_resource (sc_resource_id s); can_read := sc_can_read s; can_write := may_write && sc_can_write s |}.

Definition resources_for (m : Membership) : list ResourceScope :=
  match m_role m with
  | OrgOwner | Admin => [{| resource_id := "*"; can_read := true; can_write := true |}]
  | Member => scope_of true <$> m_scopes m
  | Reader => scope_of false <$> m_scopes m
  end.

Section grants.
Context `{Blake3, Ed25519}.

Definition signing_key_from_seed (seed : string) : SigningKey := sk_from_bytes (blake3 (as_bytes seed)).

(** [a.saturating_add(b)] on [u64] *)
Definition saturating_add (a b : Z) : Z := Z.min (a + b) u64_max.

Definition unsigned_grant (issuer : string) (m : Membership) (now_ms ttl_ms : Z) : CapabilityGrant :=
  {| g_id := "gw:" +:+ m_org m +:+ ":" +:+ decimal now_ms; g_issuer := issuer; g_recipient := m_sub m;
     g_allowed_resources := resources_for m; g_policy := policy_for (m_role m);
     g_expires_at_ms := saturating_add now_ms ttl_ms; g_revoked := false; g_delegation_chain := [];
     g_issuer_pubkey := []; g_signature := [] |}.

Definition mint_grant (sk : SigningKey) (issuer : string) (m : Membership) (now_ms ttl_ms : Z) : CapabilityGrant :=
  sign_with (unsigned_grant issuer m now_ms ttl_ms) sk.
End grants.

(** ** Tokens *)

Inductive AuthError := JwksError (m : string) | NoKeys | TokenError (m : string) | NoMatchingKey.

(** The claims of an identity token, and of a connect token as it is read and as it is minted *)
Record Claims := { cl_sub : string; cl_email : option string; cl_email_verified : option bool; cl_wallet_address : option string }.
Record ConnectClaims := { cc_sub : string; cc_scope : option string; cc_tenants : option (list string); cc_org : option string }.
Record MintClaims := { mc_sub : string; mc_exp : Z; mc_scope : option string; mc_tenants : list string; mc_org : string }.

Class Jwt := {
  DecodingKey : Type;
  from_rsa_components : string → string → result string DecodingKey;
  (** [decode_header(token)]: its [kid] *)
  decode_header : string → result string (option string);
  (** [decode] under RS256 with the issuer, the audience and the expiry checked at a clock *)
  decode_rs256 : string → string → Z → string → DecodingKey → result string Claims;
  (** [encode] and [decode] under HS256, the latter with the expiry checked at a clock *)
  encode_hs256 : string → MintClaims → result string string;
  decode_hs256 : string → Z → string → result string ConnectClaims;
}.

(** What a reader of a minted token finds: an empty list of tenants is not serialized. *)
Definition read_back (c : MintClaims) : ConnectClaims :=
  {| cc_sub := mc_sub c; cc_scope := mc_scope c;
     cc_tenants := if bool_decide (mc_tenants c = []) then None else Some (mc_tenants c); cc_org := Some (mc_org c) |}.

(** jsonwebtoken reads back what it signed with the same secret, until the expiry, never
    anything else, and sixty seconds (its leeway) after the expiry it refuses. *)
Class JwtLaws `{Jwt} : Prop := {
  hs256_roundtrip : ∀ secret c token now, encode_hs256 secret c = Ok token → now ≤ mc_exp c → decode_hs256 secret now token = Ok (read_back c);
  hs256_faithful : ∀ secret c token now d, encode_hs256 secret c = Ok token → decode_hs256 secret now token = Ok d → d = read_back c;
  hs256_expires : ∀ secret c token now, encode_hs256 secret c = Ok token → mc_exp c + 60 < now → is_ok (decode_hs256 secret now token) = false;
}.

Record Principal := { pr_sub : string; pr_email : option string; pr_email_verified : bool; pr_wallet_address : option string }.

Record Jwk := { jwk_kty : string; jwk_kid : option string; jwk_n : option string; jwk_e : option string }.
Record JwkSet := { jwks_keys : list Jwk }.

(** The order in which a [HashMap] yields its values *)
Class HashOrder := hash_values : ∀ {A}, gmap string A → list A.
Class HashOrderLaws `{HashOrder} : Prop := hash_values_perm : ∀ A (m : gmap string A), hash_values m ≡ₚ snd <$> map_to_list m.

Section tokens.
Context `{Jwt, HashOrder}.

Record OidcVerifier := {
  ov_issuer : string;
  ov_audience : string;
  ov_by_kid : gmap string DecodingKey;
  ov_anonymous : list DecodingKey;
}.

(** One key of the set: keys of other types and incomplete ones are skipped *)
Definition add_jwk (st : gmap string DecodingKey * list DecodingKey) (k : Jwk)
    : result AuthError (gmap string DecodingKey * list DecodingKey) :=
  if negb (bool_decide (jwk_kty k = "RSA")) then Ok st
  else match jwk_n k, jwk_e k with
       | Some n, Some e =>
         let? key := map_err JwksError (from_rsa_components n e) in
         Ok (match jwk_kid k with
             | Some kid => (<[kid := key]> st.1, st.2)
             | None => (st.1, st.2 ++ [key])
             end)
       | _, _ => Ok st
       end.

Definition from_jwks `{JsonText JwkSet} (issuer audience jwks_json : string) : result AuthError OidcVerifier :=
  let? set := map_err JwksError (from_text jwks_json) in
  let? st := rfold add_jwk (∅, []) (jwks_keys set) in
  if bool_decide (st.1 = ∅) && bool_decide (length st.2 = O) then Err NoKeys
  else Ok {| ov_issuer := issuer; ov_audience := audience; ov_by_kid := st.1; ov_anonymous := st.2 |}.

Definition candidates (self : OidcVerifier) (kid : option string) : result AuthError (list DecodingKey) :=
  match kid with
  | Some kid =>
    match ov_by_kid self !! kid with
    | Some k => Ok [k]
    | None => if bool_decide (length (ov_anonymous self) = O) then Err NoMatchingKey else Ok (ov_anonymous self)
    end
  | None => Ok (ov_anonymous self ++ hash_values (ov_by_kid self))
  end.

Definition principal_of (c : Claims) : Principal :=
  {| pr_sub := cl_sub c; pr_email := cl_email c; pr_email_verified := default false (cl_email_verified c);
     pr_wallet_address := cl_wallet_address c |}.

(** The loop over the candidates: the first key that decodes, else the last error *)
Fixpoint try_keys (decode : DecodingKey → result string Claims) (last : AuthError) (keys : list DecodingKey) : result AuthError Principal :=
  match keys with
  | [] => Err last
  | key :: keys => match decode key with
                   | Ok c => Ok (principal_of c)
                   | Err e => try_keys decode (TokenError e) keys
                   end
  end.

Definition verify_principal (self : OidcVerifier) (now_secs : Z) (token : string) : result AuthError Principal :=
  let? kid := map_err TokenError (decode_header token) in
  let? keys := candidates self kid in
  try_keys (decode_rs256 (ov_issuer self) (ov_audience self) now_secs token) NoMatchingKey keys.

Definition oidc_verify (self : OidcVerifier) (now_secs : Z) (token : string) : result AuthError string :=
  rmap pr_sub (verify_principal self now_secs token).

Definition verify_connect_token (secret : string) (now_secs : Z) (token : string) : result AuthError ConnectClaims :=
  map_err TokenError (decode_hs256 secret now_secs token).

(** [now_secs.saturating_add(ttl_secs)] on a 64-bit [usize] *)
Definition mint_connect_token (secret org sub : string) (scope : option string) (tenants : list string) (now_secs ttl_secs : Z)
    : result AuthError string :=
  map_err TokenError
    (encode_hs256 secret {| mc_sub := sub; mc_exp := saturating_add now_secs ttl_secs; mc_scope := scope; mc_tenants := tenants; mc_org := org |}).
End tokens.
