(* ===== verification/Scene.v ===== *)
(** * The constellation scene ([mem-gateway/src/scene.rs])

    Nodes and edges of an organisation with three-dimensional coordinates: a ring, or the
    first three principal components of the embeddings by power iteration, in [f32]
    arithmetic.  Sine and cosine of the platform are parameters ([Trig]). *)

From Stdlib Require Import Floats.SpecFloat.
From S2P Require Import Prelude Bytes Text Str Belnap Identity Node Float Frontmatter.

(** [f32::cos] and [f32::sin] *)
Class Trig := { fcos : f32 → f32; fsin : f32 → f32 }.

(** A node before it has coordinates *)
Record NodeInput := {
  np_id : string;
  np_title : string;
  np_kind : string;
  np_repo : string;
  np_plane : string;
  np_trust : string;
  np_status : string;
  np_embedding : option (list f32);
}.

Abbreviation point := (f32 * f32 * f32)%type.

Record SceneNode := {
  sn_id : string;
  sn_title : string;
  sn_kind : string;
  sn_repo : string;
  sn_plane : string;
  sn_trust : string;
  sn_lane : string;
  sn_status : string;
  sn_pos : point;
  sn_degree : Z;
  sn_contradicted : bool;
  sn_projected : bool;
}.
Record SceneEdge := { se_from : string; se_to : string; se_kind : string; se_quarantined : bool }.
Record Scene := {
  scn_org : string;
  scn_projection : string;
  scn_node_count : nat;
  scn_edge_count : nat;
  scn_nodes : list SceneNode;
  scn_edges : list SceneEdge;
}.

Definition TITLE_MAX : nat := 140.
Definition PCA_MIN : nat := 3.
Definition POWER_ITERS : nat := 64.

Definition truncate (s : string) (max : nat) : string :=
  if bool_decide (char_count (as_bytes s) ≤ max)%nat then s
  else string_of_bytes (unchunk (take max (chunks (as_bytes s)))) +:+ "…".

(** ** Floats *)

Definition f32_epsilon : f32 := F32 0x34000000.
Definition f32_tau : f32 := F32 0x40c90fdb.
Definition f32_half : f32 := F32 0x3f000000.
(** [i as f32] *)
Definition f32_nat (n : nat) : f32 := spec_bits (f32_of_nat n).
Definition f32_abs (a : f32) : f32 := F32 (f32_mag a).
(** [a <= b] *)
Definition f32_leb (a b : f32) : bool := match f32_partial_cmp a b with Some Lt | Some Eq => true | _ => false end.
(** [a.max(b)]: a NaN gives way to the other operand *)
Definition f32_max (a b : f32) : f32 :=
  if f32_is_nan a then b else if f32_is_nan b then a else if f32_gtb b a then b else a.

Section scene.
Context `{FloatNan, Trig}.

Definition fsub (a b : f32) : f32 := pack quiet_nan (SFsub 24 128 (f32_val a) (f32_val b)).

Definition ring_point (n i : nat) : point :=
  let theta := fdiv (fmul f32_tau (f32_nat i)) (f32_nat n) in
  let z := fsub (fdiv (f32_nat i) (f32_nat n)) f32_half in
  (fcos theta, fsin theta, z).
Definition ring_coords (n : nat) : list point := ring_point n <$> seq 0 n.

(** [r[k] - mean[k]] for every [k] *)
Definition centered (r mean : list f32) : list f32 := zip_with fsub r mean.

Definition dot_centered (v mean axis : list f32) : f32 := fsum (zip_with fmul (centered v mean) axis).

Definition project_out (v axis : list f32) : list f32 :=
  let proj := fsum (zip_with fmul v axis) in
  (** components beyond the shorter slice stay *)
  zip_with (λ vi ai, fsub vi (fmul proj ai)) v axis ++ drop (length axis) v.

(** The normalized vector, [None] when it is too short to be scaled *)
Definition normalize_vec (v : list f32) : option (list f32) :=
  let n := fsqrt (fsum ((λ x, fmul x x) <$> v)) in
  if f32_leb n f32_epsilon then None else Some ((λ x, fdiv x n) <$> v).

(** One application of the covariance operator *)
Definition covariance_row (mean v next r : list f32) : list f32 :=
  let d := centered r mean in
  let c := foldl fadd f32_zero (zip_with fmul d v) in
  zip_with (λ x dk, fadd x (fmul c dk)) next d.
Definition covariance (rows : list (list f32)) (mean : list f32) (dim : nat) (v : list f32) : list f32 :=
  foldl (covariance_row mean v) (replicate dim f32_zero) rows.

Fixpoint power_iterate (fuel : nat) (rows : list (list f32)) (mean : list f32) (dim : nat) (deflate : list (list f32)) (v : list f32) : list f32 :=
  match fuel with
  | O => v
  | S fuel =>
    match normalize_vec (foldl project_out (covariance rows mean dim v) deflate) with
    | Some next => power_iterate fuel rows mean dim deflate next
    | None => v
    end
  end.

Definition principal_component (rows : list (list f32)) (mean : list f32) (dim : nat) (deflate : list (list f32)) : list f32 :=
  let v := (λ i, if Nat.even i then f32_one else f32_neg_one) <$> seq 0 dim in
  let v := foldl project_out v deflate in
  let v := default v (normalize_vec v) in
  power_iterate POWER_ITERS rows mean dim deflate v.

(** Scale the points by the largest magnitude per axis. *)
Definition max_abs (points : list point) : point :=
  foldl (λ m p, let '(mx, my, mz) := m in let '(x, y, z) := p in
                (f32_max mx (f32_abs x), f32_max my (f32_abs y), f32_max mz (f32_abs z)))
        (f32_zero, f32_zero, f32_zero) points.
Definition axis_scale (m : f32) : f32 := if f32_gtb m f32_epsilon then fdiv f32_one m else f32_one.
Definition normalize (points : list point) : list point :=
  let '(mx, my, mz) := max_abs points in
  (λ p, let '(x, y, z) := p in (fmul x (axis_scale mx), fmul y (axis_scale my), fmul z (axis_scale mz))) <$> points.

Definition mean_of (rows : list (list f32)) (dim : nat) : list f32 :=
  let inv := fdiv f32_one (f32_nat (length rows)) in
  (λ m, fmul m inv) <$> foldl (zip_with fadd) (replicate dim f32_zero) rows.

Definition pca_coords (nodes : list NodeInput) (dim : nat) : list point :=
  let rows := filter (λ v, length v = dim) (omap np_embedding nodes) in
  let mean := mean_of rows dim in
  let pc1 := principal_component rows mean dim [] in
  let pc2 := principal_component rows mean dim [pc1] in
  let pc3 := principal_component rows mean dim [pc1; pc2] in
  normalize (imap (λ i n,
    match np_embedding n with
    | Some v => if bool_decide (length v = dim)
                then (dot_centered v mean pc1, dot_centered v mean pc2, dot_centered v mean pc3)
                else ring_point (length nodes) i
    | None => ring_point (length nodes) i
    end) nodes).

(** ** The scene *)

Definition embedding_dim (nodes : list NodeInput) : option nat :=
  match head (omap (λ n, length <$> np_embedding n) nodes) with
  | Some d => if bool_decide (0 < d)%nat then Some d else None
  | None => None
  end.
Definition has_dim (n : NodeInput) (dim : option nat) : bool :=
  match np_embedding n, dim with Some v, Some d => bool_decide (length v = d) | _, _ => false end.

Definition raw_edge : Type := string * string * string * bool.
Definition re_from (e : raw_edge) : string := e.1.1.1.
Definition re_to (e : raw_edge) : string := e.1.1.2.
Definition re_kind (e : raw_edge) : string := e.1.2.

(** [*degree.entry(k).or_insert(0) += 1] on [u32] *)
Definition bump (k : string) (m : gmap string Z) : gmap string Z := <[k := wrap_u32 (default 0 (m !! k) + 1)]> m.
Definition degrees (es : list raw_edge) : gmap string Z := foldl (λ m e, bump (re_to e) (bump (re_from e) m)) ∅ es.
Definition contradicts (e : raw_edge) : bool := bool_decide (re_kind e = "Contradicts") || bool_decide (re_kind e = "Refutes").
Definition contradicted_ids (es : list raw_edge) : gset string :=
  foldl (λ s e, if contradicts e then {[re_to e]} ∪ ({[re_from e]} ∪ s) else s) ∅ es.

Definition scene_edge (e : raw_edge) : SceneEdge :=
  {| se_from := re_from e; se_to := re_to e; se_kind := re_kind e; se_quarantined := e.2 |}.
Definition scene_node (degree : gmap string Z) (contra : gset string) (n : NodeInput) (pos : point) : SceneNode :=
  {| sn_id := np_id n; sn_title := truncate (np_title n) TITLE_MAX; sn_kind := np_kind n; sn_repo := np_repo n;
     sn_plane := np_plane n; sn_trust := np_trust n; sn_lane := np_trust n; sn_status := np_status n; sn_pos := pos;
     sn_degree := default 0 (degree !! np_id n); sn_contradicted := bool_decide (np_id n ∈ contra); sn_projected := true |}.

Definition build_scene (org : string) (nodes : list NodeInput) (edges : list raw_edge) : Scene :=
  let dim := embedding_dim nodes in
  let embedded := length (filter (λ n, has_dim n dim = true) nodes) in
  let use_pca := bool_decide (is_Some dim) && bool_decide (PCA_MIN ≤ embedded)%nat in
  let coords := if (use_pca : bool) then pca_coords nodes (default 0%nat dim) else ring_coords (length nodes) in
  let ids : gset string := list_to_set (np_id <$> nodes) in
  let kept := filter (λ e, re_from e ∈ ids ∧ re_to e ∈ ids) edges in
  let scene_nodes := zip_with (scene_node (degrees kept) (contradicted_ids kept)) nodes coords in
  {| scn_org := org; scn_projection := if (use_pca : bool) then "pca-3d" else "ring"; scn_node_count := length scene_nodes;
     scn_edge_count := length (scene_edge <$> kept); scn_nodes := scene_nodes; scn_edges := scene_edge <$> kept |}.
End scene.

(** ** What a scene shows *)

Section scene_props.
Context `{FloatNan, Trig}.

(** How many ends of the edges are at [k] *)
Definition ends_at (k : string) (e : raw_edge) : nat :=
  (if bool_decide (re_from e = k) then 1 else 0) + (if bool_decide (re_to e = k) then 1 else 0).
Definition incidence (k : string) (es : list raw_edge) : nat := sum_list (ends_at k <$> es).

Lemma ends_at_le k e : (ends_at k e ≤ 2)%nat.
Proof. unfold ends_at. repeat case_bool_decide; lia. Qed.
Lemma incidence_le k es : (incidence k es ≤ 2 * length es)%nat.
Proof. unfold incidence. induction es as [|e es IH]; [done|]. cbn. pose proof (ends_at_le k e). lia. Qed.

Lemma bump_lookup k m j : (∀ i, 0 ≤ default 0 (m !! i)) → default 0 (m !! k) + 1 < 2 ^ 32 →
  default 0 (bump k m !! j) = default 0 (m !! j) + (if bool_decide (k = j) then 1 else 0).
Proof.
  intros Hpos Hlt. unfold bump. rewrite lookup_insert. case_decide as E.
  - subst j. rewrite bool_decide_true by done. cbn. unfold wrap_u32. rewrite Z.mod_small; [done|]. specialize (Hpos k). lia.
  - rewrite bool_decide_false by done. lia.
Qed.

Lemma degrees_fold es m : (∀ i, 0 ≤ default 0 (m !! i)) → (∀ i, default 0 (m !! i) + 2 * Z.of_nat (length es) < 2 ^ 32) →
  ∀ k, default 0 (foldl (λ m e, bump (re_to e) (bump (re_from e) m)) m es !! k) = default 0 (m !! k) + Z.of_nat (incidence k es).
Proof.
  revert m. induction es as [|e es IH]; intros m Hpos Hlt k; [cbn; lia|]. cbn [foldl]. cbn [length] in Hlt.
  assert (∀ j, default 0 (bump (re_from e) m !! j) = default 0 (m !! j) + (if bool_decide (re_from e = j) then 1 else 0)) as H1.
  { intros j. apply bump_lookup; [done|]. specialize (Hlt (re_from e)). lia. }
  assert (∀ j, 0 ≤ default 0 (bump (re_from e) m !! j)) as Hp1 by (intros j; rewrite H1; specialize (Hpos j); case_bool_decide; lia).
  assert (∀ j, default 0 (bump (re_to e) (bump (re_from e) m) !! j) = default 0 (m !! j) + Z.of_nat (ends_at j e)) as H2.
  { intros j. rewrite bump_lookup; [|done|].
    - rewrite H1. unfold ends_at. repeat case_bool_decide; lia.
    - rewrite H1. specialize (Hlt (re_to e)). case_bool_decide; lia. }
  rewrite IH.
  - rewrite H2. unfold incidence. cbn. lia.
  - intros j. rewrite H2. specialize (Hpos j). lia.
  - intros j. rewrite H2. specialize (Hlt j). pose proof (ends_at_le j e). lia.
Qed.

Lemma contradicted_spec es (s : gset string) k :
  k ∈ foldl (λ (s : gset string) (e : raw_edge), if contradicts e then {[re_to e]} ∪ ({[re_from e]} ∪ s) else s) s es ↔
  k ∈ s ∨ ∃ e, e ∈ es ∧ contradicts e = true ∧ (re_from e = k ∨ re_to e = k).
Proof.
  revert s. induction es as [|e es IH]; intros s; cbn [foldl].
  - split; [by left|]. intros [?|(e & He & _)]; [done|by apply not_elem_of_nil in He].
  - rewrite IH. setoid_rewrite elem_of_cons. destruct (contradicts e) eqn:Hc.
    + rewrite !elem_of_union, !elem_of_singleton. naive_solver.
    + naive_solver congruence.
Qed.

Lemma length_pca nodes dim : length (pca_coords nodes dim) = length nodes.
Proof. unfold pca_coords, normalize. destruct (max_abs _) as [[mx my] mz]. by rewrite length_fmap, length_imap. Qed.
Lemma length_ring n : length (ring_coords n) = n.
Proof. unfold ring_coords. by rewrite length_fmap, length_seq. Qed.

Lemma one_end (ids : list string) k : NoDup ids → k ∈ ids → sum_list ((λ j, if bool_decide (k = j) then 1 else 0)%nat <$> ids) = 1%nat.
Proof.
  induction ids as [|j ids IH]; intros Hnd Hin; [by apply not_elem_of_nil in Hin|]. apply NoDup_cons in Hnd as [Hj Hnd]. cbn.
  case_bool_decide as E.
  - subst j. assert (sum_list ((λ j, if bool_decide (k = j) then 1 else 0)%nat <$> ids) = 0%nat) as ->; [|done].
    clear -Hj. induction ids as [|j ids IH]; [done|]. cbn. apply not_elem_of_cons in Hj as [Hne Hj].
    rewrite bool_decide_false by done. by apply IH.
  - apply elem_of_cons in Hin as [->|Hin]; [done|]. by apply IH.
Qed.

Lemma sum_list_add {A} (f g : A → nat) l : sum_list ((λ a, f a + g a)%nat <$> l) = (sum_list (f <$> l) + sum_list (g <$> l))%nat.
Proof. induction l as [|a l IH]; [done|]. cbn. rewrite IH. lia. Qed.

(** Every edge has two ends among the nodes. *)
Lemma handshake (ids : list string) es : NoDup ids → (∀ e, e ∈ es → re_from e ∈ ids ∧ re_to e ∈ ids) →
  sum_list ((λ k, incidence k es) <$> ids) = (2 * length es)%nat.
Proof.
  intros Hnd. induction es as [|e es IH]; intros Hes.
  { unfold incidence. cbn. clear. induction ids; done. }
  assert ((λ k, incidence k (e :: es)) <$> ids = (λ k, ends_at k e + incidence k es)%nat <$> ids) as -> by done.
  rewrite sum_list_add, IH by (intros x Hx; apply Hes; by right).
  destruct (Hes e) as [Hf Hto]; [by left|]. unfold ends_at. rewrite sum_list_add, !one_end by done. cbn. lia.
Qed.

(** A title is shown whole, or as its first 140 characters and an ellipsis. *)
Lemma truncate_spec s max : truncate s max = s ∨
  ((max < char_count (as_bytes s))%nat ∧ truncate s max = string_of_bytes (unchunk (take max (chunks (as_bytes s)))) +:+ "…").
Proof. unfold truncate. case_bool_decide; [by left|]. right. split; [lia|done]. Qed.

(** The nodes of a scene are its inputs zipped with as many points. *)
Lemma build_scene_zip org nodes edges :
  let ids : gset string := list_to_set (np_id <$> nodes) in
  let kept := filter (λ e, re_from e ∈ ids ∧ re_to e ∈ ids) edges in
  ∃ coords, length coords = length nodes ∧
    scn_nodes (build_scene org nodes edges) = zip_with (scene_node (degrees kept) (contradicted_ids kept)) nodes coords ∧
    scn_edges (build_scene org nodes edges) = scene_edge <$> kept ∧
    scn_node_count (build_scene org nodes edges) = length (scn_nodes (build_scene org nodes edges)) ∧
    scn_edge_count (build_scene org nodes edges) = length kept.
Proof.
  cbv zeta. unfold build_scene. eexists. split; [|split; [reflexivity|cbn; rewrite length_fmap; done]].
  case_match; [apply length_pca|apply length_ring].
Qed.
Lemma fmap_scene_nodes {B} (f : SceneNode → B) (g : NodeInput → B) deg contra nodes coords :
  length coords = length nodes → (∀ n p, f (scene_node deg contra n p) = g n) →
  f <$> zip_with (scene_node deg contra) nodes coords = g <$> nodes.
Proof.
  intros Hlen Hf. revert coords Hlen. induction nodes as [|n nodes IH]; intros [|p coords] Hlen; cbn in *; try done.
  rewrite Hf, IH by lia. done.
Qed.

(** A scene is exactly its input: every node appears once, in order, with its own
    fields; the edges shown are those whose two ends are nodes of the scene; a node's
    degree is the number of edge ends at it and it is marked contradicted exactly when a
    contradicting or refuting edge shown touches it; and when ids are distinct the degrees
    add up to twice the number of edges. *)
Theorem build_scene_exact org nodes edges (Hmax : 2 * Z.of_nat (length edges) < 2 ^ 32) :
  let s := build_scene org nodes edges in
  let kept := filter (λ e, re_from e ∈ np_id <$> nodes ∧ re_to e ∈ np_id <$> nodes) edges in
  sn_id <$> scn_nodes s = np_id <$> nodes ∧ sn_repo <$> scn_nodes s = np_repo <$> nodes ∧
  scn_edges s = scene_edge <$> kept ∧ scn_node_count s = length nodes ∧ scn_edge_count s = length kept ∧
  (∀ n, n ∈ scn_nodes s → sn_degree n = Z.of_nat (incidence (sn_id n) kept)) ∧
  (∀ n, n ∈ scn_nodes s → sn_contradicted n = true ↔ ∃ e, e ∈ kept ∧ contradicts e = true ∧ (re_from e = sn_id n ∨ re_to e = sn_id n)) ∧
  (NoDup (np_id <$> nodes) → sum_list (Z.to_nat ∘ sn_degree <$> scn_nodes s) = (2 * length kept)%nat).
Proof.
  cbv zeta. set (kept := filter _ edges).
  assert (filter (λ e, re_from e ∈ list_to_set (C := gset string) (np_id <$> nodes) ∧ re_to e ∈ list_to_set (C := gset string) (np_id <$> nodes)) edges = kept) as Hk.
  { subst kept. apply list_filter_iff. intros e. by rewrite !elem_of_list_to_set. }
  destruct (build_scene_zip org nodes edges) as (coords & Hlen & Hz & He & Hnc & Hec). rewrite Hk in Hz, He, Hec.
  assert (∀ k, default 0 (degrees kept !! k) = Z.of_nat (incidence k kept)) as Hdeg.
  { intros k. unfold degrees. rewrite degrees_fold; rewrite ?lookup_empty; [done| |]; intros i; rewrite lookup_empty; cbn; [done|].
    pose proof (length_filter (λ e, re_from e ∈ np_id <$> nodes ∧ re_to e ∈ np_id <$> nodes) edges). subst kept. lia. }
  assert (sn_id <$> scn_nodes (build_scene org nodes edges) = np_id <$> nodes) as Hids by (rewrite Hz; by apply fmap_scene_nodes).
  assert (∀ n, n ∈ scn_nodes (build_scene org nodes edges) → ∃ a p, n = scene_node (degrees kept) (contradicted_ids kept) a p) as Hin.
  { intros n. rewrite Hz. intros (i & Hi)%list_elem_of_lookup. apply lookup_zip_with_Some in Hi as (a & p & -> & _). by eexists _, _. }
  assert (∀ n, n ∈ scn_nodes (build_scene org nodes edges) → sn_degree n = Z.of_nat (incidence (sn_id n) kept)) as Hd.
  { intros n (a & p & ->)%Hin. cbn. by rewrite Hdeg. }
  repeat split; try done.
  - rewrite Hz. by apply fmap_scene_nodes.
  - rewrite Hnc, Hz, length_zip_with. lia.
  - destruct (Hin n) as (a & p & ->); [done|]. cbn. intros Hc%bool_decide_eq_true.
    apply contradicted_spec in Hc as [Hc|Hc]; [set_solver|done].
  - destruct (Hin n) as (a & p & ->); [done|]. cbn. intros Hc. apply bool_decide_eq_true, contradicted_spec. by right.
  - intros Hnd. rewrite <- (handshake (np_id <$> nodes) kept Hnd).
    + rewrite <- Hids, <- list_fmap_compose. f_equal. apply list_fmap_ext. intros i n Hn%list_elem_of_lookup_2. cbn. rewrite Hd by done. lia.
    + intros e. subst kept. by intros [? ?]%list_elem_of_filter.
Qed.
End scene_props.
