(* ===== verification/Gateway.v ===== *)
(** * The gateway's state and its gate ([mem-gateway/src/http.rs])

    What the handlers share: the application state, authentication, just-in-time
    membership, the audited gate, the confinement of reads to a tenant, the attenuation of
    a connect token and the bounds on the work of one principal.  The fields of [AppState]
    that never change are a record [Config]; the others, with the files of the control
    plane and of the audit log, are the state [Gw].  The clock and the outcomes of
    file-system calls are functions of a step counter. *)

From Stdlib Require Import SpecFloat.
From S2P Require Import Prelude Bytes Externs Text Str Belnap Identity Node Float Edge Grant AuditLog Kv Shred Store StoreContents.
From S2P Require Import Supersession StoreInterface Assert Index Hnsw Query Search Display Control GwAuth Scene.

Definition GRANT_TTL_MS : Z := 3600000.
Definition LAYOUT_CAP : nat := 1500.
Definition BYOM_MAX_LINES : nat := 32.
Definition BYOM_MAX_CONCURRENT : nat := 4.
Definition BYOM_MAX_CONCURRENT_PER_PRINCIPAL : nat := 2.

(** ** Errors *)

Record ApiError := { status : Z; message : string }.
(** A handler ends with an error response or by a panic *)
Inductive GwExit := Api (e : ApiError) | GwPanic.

Definition api (code : Z) (m : string) : GwExit := Api {| status := code; message := m |}.
Definition unauthorized (m : string) : GwExit := api 401 m.
Definition forbidden (m : string) : GwExit := api 403 m.
Definition not_found (m : string) : GwExit := api 404 m.
Definition bad (m : string) : GwExit := api 400 m.
Definition ise (m : string) : GwExit := api 500 ("internal: " +:+ m).

(** ** The work bounds of a principal

    [f64] values are the Standard Library's [spec_float] at 53 bits. *)

Abbreviation f64 := spec_float.
Definition f64_add (a b : f64) : f64 := SFadd 53 1024 a b.
Definition f64_sub (a b : f64) : f64 := SFsub 53 1024 a b.
Definition f64_mul (a b : f64) : f64 := SFmul 53 1024 a b.
Definition f64_div (a b : f64) : f64 := SFdiv 53 1024 a b.
Definition f64_ltb (a b : f64) : bool := SFltb a b.
(** [a.min(b)] *)
Definition f64_min (a b : f64) : f64 :=
  match a, b with S754_nan, _ => b | _, S754_nan => a | _, _ => if f64_ltb b a then b else a end.

Definition BYOM_BURST_CALLS : f64 := f64_of_Z 128.
Definition BYOM_REFILL_PER_SEC : f64 := f64_of_Z 2.

Abbreviation Buckets := (gmap string (f64 * Z)).
Abbreviation Inflight := (gmap string nat).

(** [try_enter]: the new table, and whether a slot was claimed *)
Definition try_enter (m : Inflight) (sub : string) : Inflight * bool :=
  let n := default O (m !! sub) in
  if bool_decide (BYOM_MAX_CONCURRENT_PER_PRINCIPAL ≤ n)%nat then (<[sub := n]> m, false)
  else (<[sub := S n]> m, true).

(** [InflightGuard::drop] *)
Definition release (m : Inflight) (sub : string) : Inflight :=
  match m !! sub with
  | Some n => if bool_decide (pred n = O) then delete sub m else <[sub := pred n]> m
  | None => m
  end.

(** [try_spend]: the bucket is refilled in any case *)
Definition refill (b : f64 * Z) (now_ms : Z) : f64 :=
  let elapsed_s := f64_div (f64_of_Z (saturating_sub64 now_ms b.2)) (f64_of_Z 1000) in
  f64_min (f64_add b.1 (f64_mul elapsed_s BYOM_REFILL_PER_SEC)) BYOM_BURST_CALLS.
Definition try_spend (m : Buckets) (sub : string) (calls : nat) (now_ms : Z) : Buckets * bool :=
  let tokens := refill (default (BYOM_BURST_CALLS, now_ms) (m !! sub)) now_ms in
  let need := f64_of_Z (Z.of_nat calls) in
  if f64_ltb tokens need then (<[sub := (tokens, now_ms)]> m, false)
  else (<[sub := (f64_sub tokens need, now_ms)]> m, true).

(** ** The application state *)

(** A request's headers: the value of a name when it is visible ASCII *)
Abbreviation HeaderMap := (string → option string).

Section gateway.
Context {T : Type} `{MemStore T, Blake3, Hex, Ed25519, Serde Watermark, Serde AuditRecord, Serde Head}.
Context `{Unicode, FloatNan, Ln, SliceSort, CharTables, SerdeJson, Jwt, HashOrder, JsonText Control, JsonText TeamAllowlist}.
Context (clock : nat → Timestamp) (filter_clock : nat → string → Timestamp) (fs : nat → IoOracle).
(** Reading the allowlist and writing the control file at a step *)
Context (allow_fault : nat → option string) (save_io : nat → SaveIo).

Record Config := {
  cf_embedder : option Embedder;
  cf_signing_key : SigningKey;
  cf_org_id : string;
  cf_store_path : string;
  cf_chain_rpc : option string;
  cf_issuer : string;
  cf_oidc : option OidcVerifier;
  cf_connect_secret : option string;
  cf_allow_dev_auth : bool;
  cf_control_path : string;
  cf_team_allowlist_path : option string;
}.

Record Gw := {
  gw_store : T;
  gw_index_cache : TenantIndexCache;
  gw_audit : AuditChain;
  gw_audit_disk : Disk;
  gw_control : Control;
  gw_files : Files;
  gw_layout_cache : option Scene;
  gw_ingest_queue : list PushEvent;
  gw_buckets : Buckets;
  gw_inflight : Inflight;
  (** the write gate and the lock of the audit chain: were they poisoned? *)
  gw_write_poisoned : bool;
  gw_audit_poisoned : bool;
  gw_step : nat;
}.

Definition with_store (x : T) (s : Gw) : Gw :=
  {| gw_store := x; gw_index_cache := gw_index_cache s; gw_audit := gw_audit s; gw_audit_disk := gw_audit_disk s;
     gw_control := gw_control s; gw_files := gw_files s; gw_layout_cache := gw_layout_cache s; gw_ingest_queue := gw_ingest_queue s;
     gw_buckets := gw_buckets s; gw_inflight := gw_inflight s; gw_write_poisoned := gw_write_poisoned s;
     gw_audit_poisoned := gw_audit_poisoned s; gw_step := gw_step s |}.
Definition with_index (x : TenantIndexCache) (s : Gw) : Gw :=
  {| gw_store := gw_store s; gw_index_cache := x; gw_audit := gw_audit s; gw_audit_disk := gw_audit_disk s;
     gw_control := gw_control s; gw_files := gw_files s; gw_layout_cache := gw_layout_cache s; gw_ingest_queue := gw_ingest_queue s;
     gw_buckets := gw_buckets s; gw_inflight := gw_inflight s; gw_write_poisoned := gw_write_poisoned s;
     gw_audit_poisoned := gw_audit_poisoned s; gw_step := gw_step s |}.
Definition with_audit (c : AuditChain) (d : Disk) (s : Gw) : Gw :=
  {| gw_store := gw_store s; gw_index_cache := gw_index_cache s; gw_audit := c; gw_audit_disk := d;
     gw_control := gw_control s; gw_files := gw_files s; gw_layout_cache := gw_layout_cache s; gw_ingest_queue := gw_ingest_queue s;
     gw_buckets := gw_buckets s; gw_inflight := gw_inflight s; gw_write_poisoned := gw_write_poisoned s;
     gw_audit_poisoned := gw_audit_poisoned s; gw_step := gw_step s |}.
Definition with_control (c : Control) (f : Files) (s : Gw) : Gw :=
  {| gw_store := gw_store s; gw_index_cache := gw_index_cache s; gw_audit := gw_audit s; gw_audit_disk := gw_audit_disk s;
     gw_control := c; gw_files := f; gw_layout_cache := gw_layout_cache s; gw_ingest_queue := gw_ingest_queue s;
     gw_buckets := gw_buckets s; gw_inflight := gw_inflight s; gw_write_poisoned := gw_write_poisoned s;
     gw_audit_poisoned := gw_audit_poisoned s; gw_step := gw_step s |}.
Definition with_layout (x : option Scene) (s : Gw) : Gw :=
  {| gw_store := gw_store s; gw_index_cache := gw_index_cache s; gw_audit := gw_audit s; gw_audit_disk := gw_audit_disk s;
     gw_control := gw_control s; gw_files := gw_files s; gw_layout_cache := x; gw_ingest_queue := gw_ingest_queue s;
     gw_buckets := gw_buckets s; gw_inflight := gw_inflight s; gw_write_poisoned := gw_write_poisoned s;
     gw_audit_poisoned := gw_audit_poisoned s; gw_step := gw_step s |}.
Definition with_queue (q : list PushEvent) (s : Gw) : Gw :=
  {| gw_store := gw_store s; gw_index_cache := gw_index_cache s; gw_audit := gw_audit s; gw_audit_disk := gw_audit_disk s;
     gw_control := gw_control s; gw_files := gw_files s; gw_layout_cache := gw_layout_cache s; gw_ingest_queue := q;
     gw_buckets := gw_buckets s; gw_inflight := gw_inflight s; gw_write_poisoned := gw_write_poisoned s;
     gw_audit_poisoned := gw_audit_poisoned s; gw_step := gw_step s |}.
Definition with_limits (b : Buckets) (i : Inflight) (s : Gw) : Gw :=
  {| gw_store := gw_store s; gw_index_cache := gw_index_cache s; gw_audit := gw_audit s; gw_audit_disk := gw_audit_disk s;
     gw_control := gw_control s; gw_files := gw_files s; gw_layout_cache := gw_layout_cache s; gw_ingest_queue := gw_ingest_queue s;
     gw_buckets := b; gw_inflight := i; gw_write_poisoned := gw_write_poisoned s;
     gw_audit_poisoned := gw_audit_poisoned s; gw_step := gw_step s |}.
Definition at_step (n : nat) (s : Gw) : Gw :=
  {| gw_store := gw_store s; gw_index_cache := gw_index_cache s; gw_audit := gw_audit s; gw_audit_disk := gw_audit_disk s;
     gw_control := gw_control s; gw_files := gw_files s; gw_layout_cache := gw_layout_cache s; gw_ingest_queue := gw_ingest_queue s;
     gw_buckets := gw_buckets s; gw_inflight := gw_inflight s; gw_write_poisoned := gw_write_poisoned s;
     gw_audit_poisoned := gw_audit_poisoned s; gw_step := n |}.
Definition tick (s : Gw) : Gw := at_step (S (gw_step s)) s.

Abbreviation route A := (stm Gw GwExit A).

(** ** Primitive steps *)

Definition gw_now {E} : stm Gw E Timestamp := λ s, (tick s, Ok (clock (gw_step s))).
(** The clock of the token library, in seconds *)
Definition token_now {E} : stm Gw E Z := λ s, (tick s, Ok (clock (gw_step s) / 1000)).
(** [.map_err(ise)?] on a read and on a write of the store *)
Definition gw_read {A} (f : T → result StoreError A) : route A :=
  sread (λ s, map_err (ise ∘ StoreError_display) (f (gw_store s))).
Definition gw_on_store {E A} (m : stm T E A) : stm Gw E A :=
  λ s, let '(t, r) := m (gw_store s) in (with_store t s, r).
Definition gw_write {A} (m : stm T StoreError A) : route A := smap_err (ise ∘ StoreError_display) (gw_on_store m).
(** [let _ = ..] *)
Definition ignore {E F A} (m : stm Gw E A) : stm Gw F unit := λ s, ((m s).1, Ok tt).

(** ** Authentication *)

Definition bearer (headers : HeaderMap) : option string :=
  raw ← headers "authorization";
  rest ← match strip_prefix (as_bytes "Bearer ") (as_bytes raw) with
         | Some l => Some l
         | None => strip_prefix (as_bytes "bearer ") (as_bytes raw)
         end;
  Some (string_of_bytes (trim rest)).

Definition dev_principal (sub : string) : Principal :=
  {| pr_sub := sub; pr_email := None; pr_email_verified := false; pr_wallet_address := None |}.

Definition authenticate_principal (app : Config) (headers : HeaderMap) : route Principal :=
  match cf_oidc app with
  | Some oidc =>
    let! token := slift (ok_or (bearer headers) (unauthorized "missing bearer token")) in
    let! now := token_now in
    slift (map_err (λ _, unauthorized "token rejected") (verify_principal oidc now token))
  | None =>
    if cf_allow_dev_auth app then
      match headers "x-dev-sub" with
      | Some s => if bool_decide (s = "") then sfail (unauthorized "missing x-dev-sub (dev-auth)") else sret (dev_principal s)
      | None => sfail (unauthorized "missing x-dev-sub (dev-auth)")
      end
    else sfail (unauthorized "authentication not configured")
  end.

Definition authenticate (app : Config) (headers : HeaderMap) : route string :=
  let! p := authenticate_principal app headers in sret (pr_sub p).

(** ** Membership at first login *)

Definition jit_provision {E} (app : Config) (principal : Principal) (org : string) : stm Gw E (option Membership) :=
  λ s,
  match cf_team_allowlist_path app with
  | None => (s, Ok None)
  | Some path =>
    let s1 := tick s in
    match match_identity (load_or_empty (allow_fault (gw_step s)) path (gw_files s))
                         (pr_email principal) (pr_email_verified principal) (pr_wallet_address principal) with
    | None => (s1, Ok None)
    | Some entry =>
      match membership (gw_control s1) (pr_sub principal) org with
      | Some m => (s1, Ok (Some m))
      | None =>
        let control := (upsert_membership_full (gw_control s1) (pr_sub principal) org (al_role entry) (al_scopes entry)).1 in
        let '(files, saved) := save (save_io (gw_step s1)) control (cf_control_path app) (gw_files s1) in
        let s2 := tick (with_control control files s1) in
        match saved with
        | Err _ => (s2, Ok None)
        | Ok _ => (s2, Ok (membership control (pr_sub principal) org))
        end
      end
    end
  end.

(** ** The gate *)

Definition audit_event (ev : MemoryEvent) (actor resource det : string) : route unit :=
  let! now := gw_now in
  λ s, match append (fs (gw_step s)) (gw_audit s) ev actor resource det now (gw_audit_disk s) with
       | (d, Ok (c, _)) => (tick (with_audit c d s), Ok tt)
       | (d, Err e) => (tick (with_audit (gw_audit s) d s), Err (ise ("audit append failed; refusing to proceed: " +:+ AuditError_display e)))
       end.

Definition gate_event (op : Op) : MemoryEvent := match op with Read => EvRead | Write => EvWrite end.

(** The organisation must exist and be active. *)
Definition org_open (control : Control) (org : string) : result GwExit unit :=
  match find_org control org with
  | Some o => match o_status o with OrgActive => Ok tt | Suspended => Err (forbidden "org suspended") end
  | None => Err (not_found "unknown org")
  end.

(** The caller's membership, provisioned when it is missing *)
Definition gate_membership (app : Config) (principal : Principal) (org resource : string) : route Membership :=
  let! _ := sread (λ s, org_open (gw_control s) org) in
  let! existing := sread (λ s, Ok (membership (gw_control s) (pr_sub principal) org)) in
  match existing with
  | Some m => sret m
  | None =>
    let! provisioned := jit_provision app principal org in
    match provisioned with
    | Some m =>
      let! _ := ignore (audit_event EvWrite (pr_sub principal) resource "jit-provision membership") in
      sret m
    | None =>
      let! _ := ignore (audit_event EvDenied (pr_sub principal) resource "no membership") in
      sfail (forbidden "no membership in org")
    end
  end.

Definition gate_with_grant (app : Config) (headers : HeaderMap) (org resource : string) (op : Op) (det : string)
    : route (string * CapabilityGrant) :=
  if negb (bool_decide (org = cf_org_id app)) then sfail (not_found "unknown org on this gateway")
  else
    let! principal := authenticate_principal app headers in
    let sub := pr_sub principal in
    let! m := gate_membership app principal org resource in
    let! now := gw_now in
    let grant := mint_grant (cf_signing_key app) (cf_issuer app) m now GRANT_TTL_MS in
    match check grant resource op now with
    | Ok _ =>
      let! _ := audit_event (gate_event op) sub resource det in
      sret (sub, grant)
    | Err e =>
      let! _ := ignore (audit_event EvDenied sub resource (AuthzError_display e)) in
      sfail (forbidden "not authorized for resource")
    end.

Definition gate (app : Config) (headers : HeaderMap) (org resource : string) (op : Op) (det : string) : route string :=
  let! p := gate_with_grant app headers org resource op det in sret p.1.

(** ** Confinement of reads *)

Definition resolve_in_tenant (repo prefix : string) : route (ContentHash * MemoryNode) :=
  let! o := gw_read (λ t, resolve_prefix_in t repo prefix) in
  match o with
  | None => sfail (not_found "node id prefix did not resolve")
  | Some id =>
    let! o := gw_read (λ t, ms_get_node t id) in
    match o with
    | Some n => if bool_decide (n_repo n = repo) then sret (id, n) else sfail (not_found "node id prefix did not resolve")
    | None => sfail (not_found "node id prefix did not resolve")
    end
  end.

Definition grant_can_read (grant : CapabilityGrant) (repo : string) (now : Timestamp) : bool :=
  is_ok (check grant (repo_resource repo) Read now).

Definition readable_neighbors (grant : CapabilityGrant) (repo : string) (id : ContentHash) (budget : nat) : route (list NeighborItem) :=
  λ s, gw_read (λ t, neighbors_readable t id budget
                       (λ r, bool_decide (r = repo) || grant_can_read grant r (filter_clock (gw_step s) r))) (tick s).

(** ** Attenuation of a connect token *)

Definition comma : byte := Byte.x2c.
(** [matches!(t.trim(), "write" | "propose")] for some comma-separated part *)
Definition token_allows_write (claims : ConnectClaims) : bool :=
  match cc_scope claims with
  | Some s => existsb (λ t, bool_decide (trim t = as_bytes "write") || bool_decide (trim t = as_bytes "propose")) (split comma (as_bytes s))
  | None => false
  end.

Definition narrow_to (grant : CapabilityGrant) (write : bool) (now : Timestamp) (t : string) : ResourceScope :=
  let rid := repo_resource t in
  {| resource_id := rid; can_read := is_ok (check grant rid Read now); can_write := write && is_ok (check grant rid Write now) |}.
Definition gate_write (write : bool) (r : ResourceScope) : ResourceScope :=
  {| resource_id := resource_id r; can_read := can_read r; can_write := can_write r && write |}.
Definition set_resources_policy (rs : list ResourceScope) (p : PolicyProfile) (g : CapabilityGrant) : CapabilityGrant :=
  {| g_id := g_id g; g_issuer := g_issuer g; g_recipient := g_recipient g; g_allowed_resources := rs; g_policy := p;
     g_expires_at_ms := g_expires_at_ms g; g_revoked := g_revoked g; g_delegation_chain := g_delegation_chain g;
     g_issuer_pubkey := g_issuer_pubkey g; g_signature := g_signature g |}.

(** [attenuate_grant] at the clock reading it takes *)
Definition attenuate_grant (grant : CapabilityGrant) (claims : ConnectClaims) (sk : SigningKey) (now : Timestamp) : CapabilityGrant :=
  let write := token_allows_write claims in
  let resources := match cc_tenants claims with
                   | Some tenants => narrow_to grant write now <$> tenants
                   | None => gate_write write <$> g_allowed_resources grant
                   end in
  sign_with (set_resources_policy resources (if write then g_policy grant else ReadOnly) grant) sk.
End gateway.
