(* ===== verification/GatewayProps.v ===== *)
(** * Who may do what through the gateway

    What a minted grant allows, that a connect token only narrows it, and the bounds on
    the work of one principal. *)

From Stdlib Require Import SpecFloat.
From S2P Require Import Prelude Bytes Externs Text Str Belnap Identity Node Float Edge Grant AuditLog Kv Shred Store StoreContents.
From S2P Require Import Supersession StoreInterface Assert Index Hnsw Query Search Display Control GwAuth Scene Gateway.

(** ** Grants *)

Section grants.
Context `{Blake3, Ed25519, !Ed25519Laws}.

(** The first scope of a membership that covers a resource *)
Definition covering (m : Membership) (r : string) : option Scope :=
  find_in (λ s, resource_matches (normalize_resource (sc_resource_id s)) r) (m_scopes m).

(** What a membership lets its holder do *)
Definition role_allows (m : Membership) (r : string) (op : Op) : bool :=
  match m_role m with
  | OrgOwner | Admin => true
  | Member => match covering m r with Some s => match op with Read => sc_can_read s | Write => sc_can_write s end | None => false end
  | Reader => match covering m r with Some s => match op with Read => sc_can_read s | Write => false end | None => false end
  end.

Lemma first_scope_map {A} (f : A → ResourceScope) (l : list A) (r : string) :
  snd <$> list_find (λ s, resource_matches (resource_id s) r = true) (f <$> l)
  = f <$> find_in (λ a, resource_matches (resource_id (f a)) r) l.
Proof.
  unfold find_in. induction l as [|a l IH]; [done|]. cbn. case_decide as E; [done|].
  destruct (list_find _ (f <$> l)) as [[i x]|] eqn:E1, (list_find _ l) as [[j y]|] eqn:E2; cbn in *; congruence.
Qed.

Lemma check_signed (g : CapabilityGrant) sk r op now :
  check (sign_with g sk) r op now = Ok tt ↔
  g_revoked g = false ∧ now < g_expires_at_ms g ∧ ∃ s, first_scope g r = Some s ∧ op_allowed s op = true.
Proof. rewrite check_ok. split; [intros (? & ? & _ & ?)|intros (? & ? & ?); split_and!]; try done. apply verify_sign_with. Qed.

(** What a minted grant allows, until it expires *)
Lemma mint_grant_check sk issuer m now ttl r op at_ : 
  check (mint_grant sk issuer m now ttl) r op at_ = Ok tt ↔ at_ < saturating_add now ttl ∧ role_allows m r op = true.
Proof.
  unfold mint_grant. rewrite check_signed. cbn [g_revoked g_expires_at_ms unsigned_grant].
  assert ((∃ s, first_scope (unsigned_grant issuer m now ttl) r = Some s ∧ op_allowed s op = true) ↔ role_allows m r op = true) as ->; [|naive_solver].
  unfold first_scope, role_allows. cbn [g_allowed_resources unsigned_grant]. unfold resources_for.
  assert (∀ w s, resource_id (scope_of w s) = normalize_resource (sc_resource_id s)) as Hid by done.
  destruct (m_role m); cbn.
  - case_decide as E; [|done]. cbn. split; [by destruct op|]. intros _. eexists. split; [done|by destruct op].
  - case_decide as E; [|done]. cbn. split; [by destruct op|]. intros _. eexists. split; [done|by destruct op].
  - rewrite first_scope_map. unfold covering. cbn. destruct (find_in _ _) as [s|]; cbn; [|naive_solver].
    destruct op; cbn; naive_solver.
  - rewrite first_scope_map. unfold covering. cbn. destruct (find_in _ _) as [s|]; cbn; [|naive_solver].
    destruct op; cbn; naive_solver.
Qed.

(** ** Attenuation *)

(** What the claims of a connect token leave open *)
Definition token_permits (c : ConnectClaims) (r : string) (op : Op) : Prop :=
  (op = Write → token_allows_write c = true) ∧
  match cc_tenants c with Some ts => r ∈ repo_resource <$> ts | None => True end.

Lemma repo_resource_not_wild t : repo_resource t ≠ "*".
Proof. done. Qed.

(** A tenant list: the scope found is that of a named tenant. *)
Lemma narrow_to_scope g w now ts r s :
  snd <$> list_find (λ s, resource_matches (resource_id s) r = true) (narrow_to g w now <$> ts) = Some s →
  r ∈ repo_resource <$> ts ∧ s = {| resource_id := r; can_read := is_ok (check g r Read now); can_write := w && is_ok (check g r Write now) |}.
Proof.
  rewrite first_scope_map. intros (t & Ht & ->)%fmap_Some. unfold find_in in Ht. apply fmap_Some in Ht as ([i t'] & Hf & ->).
  apply list_find_Some in Hf as (Hi & Hm & _). cbn in *. unfold resource_matches in Hm.
  apply orb_true_iff in Hm as [Hm|Hm]; apply bool_decide_eq_true in Hm; [done|]. unfold narrow_to. rewrite Hm. split; [|done].
  apply list_elem_of_fmap. exists t'. split; [done|]. by eapply list_elem_of_lookup_2.
Qed.
Lemma narrow_to_found g w now ts r : r ∈ repo_resource <$> ts →
  ∃ s, snd <$> list_find (λ s, resource_matches (resource_id s) r = true) (narrow_to g w now <$> ts) = Some s.
Proof.
  intros Hr. destruct (list_find (λ s, resource_matches (resource_id s) r = true) (narrow_to g w now <$> ts)) as [[i s]|] eqn:E; [by eexists|].
  apply list_find_None in E. apply list_elem_of_fmap in Hr as (t & -> & Ht). rewrite Forall_fmap, Forall_forall in E.
  exfalso. apply (E t Ht). cbn. unfold resource_matches. rewrite (bool_decide_true (_ = repo_resource t)) by done. by destruct (bool_decide _).
Qed.

Lemma gate_write_scope w g r :
  snd <$> list_find (λ s, resource_matches (resource_id s) r = true) (gate_write w <$> g_allowed_resources g) = gate_write w <$> first_scope g r.
Proof. rewrite first_scope_map. done. Qed.

(** [C11] A connect token only narrows a membership: from the moment it is attenuated on, the
    narrowed grant allows an operation exactly when the membership's grant allows it and
    the claims of the token do, writes being allowed by a scope that names [write] or
    [propose] and the resources by the tenant list, if there is one. *)
Theorem attenuate_grant_intersection (g : CapabilityGrant) (c : ConnectClaims) (sk : SigningKey) (now at_ : Timestamp) (r : string) (op : Op)
    (Hsig : verify_signature g = Ok tt) (Hat : now ≤ at_) :
  check (attenuate_grant g c sk now) r op at_ = Ok tt ↔ check g r op at_ = Ok tt ∧ token_permits c r op.
Proof.
  unfold attenuate_grant. rewrite check_signed. cbn [g_revoked g_expires_at_ms set_resources_policy]. rewrite (check_ok g r op at_).
  unfold token_permits, first_scope. cbn [g_allowed_resources set_resources_policy].
  destruct (cc_tenants c) as [ts|].
  - split.
    + intros (Hrev & Hexp & s & Hs & Hop). apply narrow_to_scope in Hs as [Hr ->].
      assert (check g r op now = Ok tt) as Hc.
      { destruct op; cbn in Hop; [|apply andb_true_iff in Hop as [_ Hop]]; by destruct (check g r _ now) as [[]|]. }
      apply check_ok in Hc as (_ & _ & _ & Hc). split_and!; try done. intros ->. by apply andb_true_iff in Hop as [? _].
    + intros [(Hrev & Hexp & _ & Hs) [Hw Hr]]. split_and!; try done.
      destruct (narrow_to_found g (token_allows_write c) now ts r Hr) as [s Hf]. exists s. split; [done|].
      apply narrow_to_scope in Hf as [_ ->].
      assert (check g r op now = Ok tt) as Hc by (apply check_ok; split_and!; try done; lia).
      destruct op; cbn; rewrite Hc; [done|]. by rewrite Hw.
  - rewrite gate_write_scope. fold (first_scope g r). destruct (first_scope g r) as [s|]; cbn; [|naive_solver].
    destruct op; cbn.
    + split; [intros (? & ? & x & [= <-] & Hx); cbn in Hx; naive_solver|]. intros [(? & ? & _ & x & [= <-] & ?) _]. naive_solver.
    + split.
      * intros (? & ? & x & [= <-] & Hx). cbn in Hx. apply andb_true_iff in Hx as [? ?]. naive_solver.
      * intros [(? & ? & _ & x & [= <-] & Hx) [Hw _]]. split_and!; try done. eexists. split; [done|]. cbn. by rewrite Hx, Hw.
Qed.
End grants.

(** ** The call budget *)

(** Requests of one principal that reach its bucket at the same instant *)
Fixpoint spend_all (m : Buckets) (sub : string) (now : Z) (calls : list nat) : Buckets * list bool :=
  match calls with
  | [] => (m, [])
  | c :: calls =>
    let '(m, ok) := try_spend m sub c now in
    let '(m, oks) := spend_all m sub now calls in
    (m, ok :: oks)
  end.

(** The reference: whole tokens, a request is served when they cover it *)
Fixpoint greedy (k : nat) (calls : list nat) : list bool :=
  match calls with
  | [] => []
  | c :: calls => if bool_decide (c ≤ k)%nat then true :: greedy (k - c) calls else false :: greedy k calls
  end.
(** The calls that were served *)
Fixpoint served (calls : list nat) (oks : list bool) : nat :=
  match calls, oks with
  | c :: calls, ok :: oks => ((if ok then c else 0) + served calls oks)%nat
  | _, _ => O
  end.

Lemma greedy_served k calls : (served calls (greedy k calls) ≤ k)%nat.
Proof.
  revert k. induction calls as [|c calls IH]; intros k; cbn; [lia|]. case_bool_decide; cbn; [specialize (IH (k - c)%nat)|specialize (IH k)]; lia.
Qed.

#[local] Instance spec_float_eq_dec : EqDecision spec_float.
Proof. solve_decision. Defined.

(** On whole tokens up to the burst, one step of the doubles is one step of the integers:
    the finitely many cases are evaluated. *)
Definition whole (k : nat) : f64 := f64_of_Z (Z.of_nat k).
Definition step_agrees (k c : nat) : bool :=
  let t := f64_min (f64_add (whole k) (f64_mul (f64_div (f64_of_Z 0) (f64_of_Z 1000)) BYOM_REFILL_PER_SEC)) BYOM_BURST_CALLS in
  bool_decide (t = whole k) && (if f64_ltb (whole k) (whole c) then negb (bool_decide (c ≤ k)%nat)
                               else bool_decide (c ≤ k)%nat && bool_decide (f64_sub (whole k) (whole c) = whole (k - c))).
Lemma steps_agree k c : (k ≤ 128)%nat → (c ≤ 32)%nat → step_agrees k c = true.
Proof.
  intros Hk Hc.
  assert (forallb (λ k, forallb (step_agrees k) (seq 0 33)) (seq 0 129) = true) as H by (vm_compute; reflexivity).
  rewrite forallb_forall in H. specialize (H k ltac:(apply in_seq; lia)). rewrite forallb_forall in H. apply H, in_seq. lia.
Qed.

Lemma try_spend_whole m sub k c now : (k ≤ 128)%nat → (c ≤ 32)%nat →
  (m !! sub = Some (whole k, now) ∨ (m !! sub = None ∧ k = 128%nat)) →
  try_spend m sub c now = if bool_decide (c ≤ k)%nat then (<[sub := (whole (k - c), now)]> m, true) else (<[sub := (whole k, now)]> m, false).
Proof.
  intros Hk Hc Hm. assert (default (BYOM_BURST_CALLS, now) (m !! sub) = (whole k, now)) as Hd.
  { destruct Hm as [->|[-> ->]]; done. }
  unfold try_spend. rewrite Hd. unfold refill. cbn [fst snd]. unfold saturating_sub64. rewrite Z.sub_diag.
  pose proof (steps_agree k c Hk Hc) as Hs. unfold step_agrees in Hs. apply andb_true_iff in Hs as [Ht Hs].
  apply bool_decide_eq_true in Ht. rewrite Z.max_id, Ht. fold (whole c).
  destruct (f64_ltb (whole k) (whole c)).
  - apply negb_true_iff, bool_decide_eq_false in Hs. by rewrite bool_decide_false.
  - apply andb_true_iff in Hs as [Hc' Hs]. apply bool_decide_eq_true in Hs. by rewrite Hc', Hs.
Qed.

Lemma spend_all_whole m sub k now calls : (k ≤ 128)%nat → Forall (λ c, c ≤ 32)%nat calls →
  (m !! sub = Some (whole k, now) ∨ (m !! sub = None ∧ k = 128%nat)) →
  (spend_all m sub now calls).2 = greedy k calls ∧ ∀ other, other ≠ sub → (spend_all m sub now calls).1 !! other = m !! other.
Proof.
  revert m k. induction calls as [|c calls IH]; intros m k Hk Hall Hm; [done|]. apply Forall_cons in Hall as [Hc Hall].
  cbn [spend_all greedy]. rewrite (try_spend_whole m sub k c now) by done. case_bool_decide as E.
  - specialize (IH (<[sub := (whole (k - c), now)]> m) (k - c)%nat ltac:(lia) Hall (or_introl (lookup_insert_eq _ _ _))).
    destruct (spend_all _ sub now calls) as [m' oks]. cbn in *. destruct IH as [-> Ho]. split; [done|].
    intros other Hne. rewrite Ho by done. by rewrite lookup_insert_ne.
  - specialize (IH (<[sub := (whole k, now)]> m) k Hk Hall (or_introl (lookup_insert_eq _ _ _))).
    destruct (spend_all _ sub now calls) as [m' oks]. cbn in *. destruct IH as [-> Ho]. split; [done|].
    intros other Hne. rewrite Ho by done. by rewrite lookup_insert_ne.
Qed.

(** The call budget is exact on a burst: of the requests of a principal that arrive at
    one instant on a fresh bucket, each of at most 32 calls, the double-precision bucket
    serves exactly those a counter of 128 whole tokens would, so never more than 128 calls,
    and no other principal's bucket changes. *)
Theorem burst_bounded (m : Buckets) (sub : string) (now : Z) (calls : list nat)
    (Hfresh : m !! sub = None) (Hcap : Forall (λ c, c ≤ BYOM_MAX_LINES)%nat calls) :
  let '(m', oks) := spend_all m sub now calls in
  oks = greedy 128 calls ∧ (served calls oks ≤ 128)%nat ∧ ∀ other, other ≠ sub → m' !! other = m !! other.
Proof.
  destruct (spend_all_whole m sub 128 now calls ltac:(lia) Hcap (or_intror (conj Hfresh eq_refl))) as [Ho Hm].
  destruct (spend_all m sub now calls) as [m' oks]. cbn in *. subst oks. split; [done|]. split; [apply greedy_served|done].
Qed.

(** ** Execution slots *)

Record slots := { sl_inflight : Inflight; sl_waiting : list string; sl_running : list string }.

(** The life of a request of the MCP route: it claims a slot of its principal or is
    refused, waits for one of the permits, runs, and gives both back when it is done, when
    it panics or when it is dropped while it waits. *)
Inductive slot_step : slots → slots → Prop :=
| slot_enter m m' w r sub : try_enter m sub = (m', true) →
    slot_step {| sl_inflight := m; sl_waiting := w; sl_running := r |} {| sl_inflight := m'; sl_waiting := sub :: w; sl_running := r |}
| slot_refuse m m' w r sub : try_enter m sub = (m', false) →
    slot_step {| sl_inflight := m; sl_waiting := w; sl_running := r |} {| sl_inflight := m'; sl_waiting := w; sl_running := r |}
| slot_start m w1 w2 r sub : (length r < BYOM_MAX_CONCURRENT)%nat →
    slot_step {| sl_inflight := m; sl_waiting := w1 ++ sub :: w2; sl_running := r |}
              {| sl_inflight := m; sl_waiting := w1 ++ w2; sl_running := sub :: r |}
| slot_drop m w1 w2 r sub :
    slot_step {| sl_inflight := m; sl_waiting := w1 ++ sub :: w2; sl_running := r |}
              {| sl_inflight := release m sub; sl_waiting := w1 ++ w2; sl_running := r |}
| slot_finish m w r1 r2 sub :
    slot_step {| sl_inflight := m; sl_waiting := w; sl_running := r1 ++ sub :: r2 |}
              {| sl_inflight := release m sub; sl_waiting := w; sl_running := r1 ++ r2 |}.

Definition slots_start : slots := {| sl_inflight := ∅; sl_waiting := []; sl_running := [] |}.

(** How many requests of [sub] are in a list *)
Definition held (sub : string) (l : list string) : nat := length (filter (λ x, x = sub) l).
Definition holders (s : slots) : list string := sl_waiting s ++ sl_running s.
(** The table counts exactly the requests that hold a slot and forgets the others. *)
Definition table_of (m : Inflight) (l : list string) : Prop :=
  ∀ sub, m !! sub = match held sub l with O => None | n => Some n end.
Definition slots_inv (s : slots) : Prop :=
  table_of (sl_inflight s) (holders s) ∧
  (∀ sub, held sub (holders s) ≤ BYOM_MAX_CONCURRENT_PER_PRINCIPAL)%nat ∧ (length (sl_running s) ≤ BYOM_MAX_CONCURRENT)%nat.

Lemma held_cons x l sub : held sub (x :: l) = ((if bool_decide (x = sub) then 1 else 0) + held sub l)%nat.
Proof. unfold held. rewrite filter_cons. case_decide; case_bool_decide; done. Qed.
#[local] Instance held_perm sub : Proper ((≡ₚ) ==> (=)) (held sub).
Proof. intros l k Hp. unfold held. by rewrite Hp. Qed.
#[local] Instance table_perm m : Proper ((≡ₚ) ==> iff) (table_of m).
Proof. intros l k Hp. split; intros Hm sub; rewrite Hm; by rewrite Hp. Qed.

Lemma table_release m sub l : table_of m (sub :: l) → table_of (release m sub) l.
Proof.
  intros Hm x. pose proof (Hm sub) as Hs. pose proof (Hm x) as Hx. rewrite held_cons in Hs, Hx. rewrite bool_decide_true in Hs by done. cbn in Hs.
  unfold release. rewrite Hs. cbn [pred]. destruct (decide (sub = x)) as [->|Hne].
  - destruct (held x l) as [|n]; [rewrite bool_decide_true by done; apply lookup_delete_eq|].
    rewrite bool_decide_false by done. apply lookup_insert_eq.
  - rewrite bool_decide_false in Hx by done. case_bool_decide; [by rewrite lookup_delete_ne|by rewrite lookup_insert_ne].
Qed.
Lemma table_enter m m' sub l : table_of m l → try_enter m sub = (m', true) →
  table_of m' (sub :: l) ∧ (held sub l < BYOM_MAX_CONCURRENT_PER_PRINCIPAL)%nat.
Proof.
  intros Hm Ht. assert (default O (m !! sub) = held sub l) as Hn by (rewrite Hm; by destruct (held sub l)).
  unfold try_enter in Ht. rewrite Hn in Ht. case_bool_decide as E; [done|]. injection Ht as <-. split; [|lia].
  intros x. rewrite held_cons. case_bool_decide; [subst x; by rewrite lookup_insert_eq|]. rewrite lookup_insert_ne by done. apply Hm.
Qed.
Lemma table_refuse m m' sub l : table_of m l → try_enter m sub = (m', false) → table_of m' l.
Proof.
  intros Hm Ht. assert (default O (m !! sub) = held sub l) as Hn by (rewrite Hm; by destruct (held sub l)).
  unfold try_enter in Ht. rewrite Hn in Ht. case_bool_decide as E; [|done]. injection Ht as <-. intros x.
  destruct (decide (x = sub)) as [->|Hne]; [|rewrite lookup_insert_ne by done; apply Hm].
  rewrite lookup_insert_eq. destruct (held sub l); [cbv in E; lia|done].
Qed.

Lemma slot_step_inv s s' : slots_inv s → slot_step s s' → slots_inv s'.
Proof.
  intros (Hm & Hc & Hr) Hs. unfold slots_inv, holders in *.
  destruct Hs as [m m' w r sub Ht|m m' w r sub Ht|m w1 w2 r sub Hlt|m w1 w2 r sub|m w r1 r2 sub];
    cbn [sl_inflight sl_waiting sl_running] in *.
  - destruct (table_enter _ _ _ _ Hm Ht) as [Hm' Hlt]. split_and!; try done. intros x. rewrite <- app_comm_cons, held_cons.
    case_bool_decide; [subst x; lia|apply Hc].
  - split_and!; try done. by eapply table_refuse.
  - assert ((w1 ++ w2) ++ sub :: r ≡ₚ (w1 ++ sub :: w2) ++ r) as Hp by solve_Permutation.
    split_and!; [by rewrite Hp|intros x; by rewrite Hp|cbn; lia].
  - assert ((w1 ++ sub :: w2) ++ r ≡ₚ sub :: (w1 ++ w2) ++ r) as Hp by solve_Permutation. rewrite Hp in Hm.
    split_and!; [by apply table_release| |done]. intros x. specialize (Hc x). rewrite Hp, held_cons in Hc. lia.
  - assert (w ++ r1 ++ sub :: r2 ≡ₚ sub :: w ++ r1 ++ r2) as Hp by solve_Permutation. rewrite Hp in Hm.
    split_and!; [by apply table_release| |rewrite length_app in *; cbn in *; lia].
    intros x. specialize (Hc x). rewrite Hp, held_cons in Hc. lia.
Qed.

(** Execution slots are bounded and never leak: along every interleaving of requests
    that enter, are refused, start, finish or are dropped while they wait, a principal
    holds at most two slots, at most four requests run, and the table records exactly the
    requests that hold a slot, so a principal whose requests are all gone has no entry. *)
Theorem slots_reachable (s : slots) (Hs : rtc slot_step slots_start s) : slots_inv s.
Proof.
  assert (slots_inv slots_start) as H0 by (split_and!; [done|intros; apply Nat.le_0_l|apply Nat.le_0_l]).
  revert H0 Hs. generalize slots_start. intros s0 H0 Hs. induction Hs; eauto using slot_step_inv.
Qed.
