(* ===== verification/GatewayGate.v ===== *)
(** * The gate of the gateway fails closed

    What it takes to pass, what passing leaves behind, and that it can be passed; reads
    stay inside the tenant they were authorized for. *)

From Stdlib Require Import SpecFloat.
From S2P Require Import Prelude Bytes Externs Text Str Belnap Identity Node Float Edge Grant AuditLog Kv Shred Store StoreContents.
From S2P Require Import Supersession StoreInterface Assert Index Hnsw Query QueryProps Search Display Control GwAuth Scene Gateway GatewayProps.

Section gate_props.
Context {T : Type} `{MemStore T, Blake3, Hex, Ed25519, Serde Watermark, Serde AuditRecord, Serde Head}.
Context `{Unicode, FloatNan, Ln, SliceSort, CharTables, SerdeJson, Jwt, HashOrder, JsonText Control, JsonText TeamAllowlist}.
Context (clock : nat → Timestamp) (filter_clock : nat → string → Timestamp) (fs : nat → IoOracle).
Context (allow_fault : nat → option string) (save_io : nat → SaveIo).

Abbreviation gw := (Gw (T := T)).
Implicit Types (s : gw) (app : Config).

(** Everything but the audit log, the control plane and the clock *)
Definition untouched s s' : Prop :=
  gw_store s' = gw_store s ∧ gw_index_cache s' = gw_index_cache s ∧ gw_layout_cache s' = gw_layout_cache s ∧
  gw_ingest_queue s' = gw_ingest_queue s ∧ gw_buckets s' = gw_buckets s ∧ gw_inflight s' = gw_inflight s ∧
  gw_write_poisoned s' = gw_write_poisoned s ∧ gw_audit_poisoned s' = gw_audit_poisoned s.
Definition same_control s s' : Prop := gw_control s' = gw_control s ∧ gw_files s' = gw_files s.

Lemma untouched_refl s : untouched s s.
Proof. by split_and!. Qed.
Lemma untouched_trans s1 s2 s3 : untouched s1 s2 → untouched s2 s3 → untouched s1 s3.
Proof. unfold untouched. naive_solver congruence. Qed.

(** One audit record, or none and an error *)
Lemma audit_event_spec ev who res det s s' r : audit_event clock fs ev who res det s = (s', r) →
  untouched s s' ∧ same_control s s' ∧
  match r with
  | Ok _ => ∃ rec, records (gw_audit s') = records (gw_audit s) ++ [rec] ∧
              event rec = ev ∧ actor rec = who ∧ ar_resource_id rec = res ∧ detail rec = det
  | Err e => gw_audit s' = gw_audit s
  end.
Proof.
  unfold audit_event, gw_now, sbind. cbn. destruct (append _ _ _ _ _ _ _ _) as [d [[c rec]|e]] eqn:Ha; intros [= <- <-].
  - apply append_ok in Ha as [-> ->]. split; [done|]. split; [done|]. eexists. by split_and!.
  - by split_and!.
Qed.
Lemma ignore_audit_spec {E} ev who res det s s' (r : result E unit) : ignore (audit_event clock fs ev who res det) s = (s', r) →
  r = Ok tt ∧ untouched s s' ∧ same_control s s' ∧ ∃ rs, records (gw_audit s') = records (gw_audit s) ++ rs ∧ (length rs ≤ 1)%nat ∧
    Forall (λ rec, event rec = ev ∧ actor rec = who) rs.
Proof.
  unfold ignore. destruct (audit_event _ _ _ _ _ _ s) as [s1 x] eqn:Ha. intros [= <- <-].
  apply audit_event_spec in Ha as (Hu & Hc & Hr). split_and!; try done. destruct x.
  - destruct Hr as (rec & -> & ? & ? & _). exists [rec]. split_and!; [done|cbn; lia|]. by constructor.
  - cbn. rewrite Hr. exists []. rewrite app_nil_r. split_and!; [done|cbn; lia|constructor].
Qed.

(** ** Authentication *)

(** A principal was established: by a verified identity token, or, only when identity
    tokens are off and the development switch is on, by its header. *)
Inductive authenticated app (headers : HeaderMap) (p : Principal) : Prop :=
| auth_oidc oidc token now : cf_oidc app = Some oidc → bearer headers = Some token → verify_principal oidc now token = Ok p →
    authenticated app headers p
| auth_dev sub : cf_oidc app = None → cf_allow_dev_auth app = true → headers "x-dev-sub" = Some sub → sub ≠ "" → p = dev_principal sub →
    authenticated app headers p.

Lemma authenticate_spec app headers s s' r : authenticate_principal clock app headers s = (s', r) →
  untouched s s' ∧ same_control s s' ∧ gw_audit s' = gw_audit s ∧ match r with Ok p => authenticated app headers p | Err _ => True end.
Proof.
  unfold authenticate_principal. destruct (cf_oidc app) as [oidc|] eqn:Ho.
  - unfold sbind, slift, token_now. destruct (bearer headers) as [token|] eqn:Hb; cbn; [|intros [= <- <-]; by split_and!].
    destruct (verify_principal _ _ _) as [p|e] eqn:Hv; cbn; intros [= <- <-]; split_and!; try done. by eapply auth_oidc.
  - destruct (cf_allow_dev_auth app) eqn:Hd; [|intros [= <- <-]; by split_and!].
    destruct (headers "x-dev-sub") as [sub|] eqn:Hh; [|intros [= <- <-]; by split_and!].
    case_bool_decide; intros [= <- <-]; split_and!; try done. by eapply auth_dev.
Qed.

(** ** Membership *)

(** The allowlist names the caller, and the new row is on disk. *)
Definition provisioned app (p : Principal) (org : string) s s' : Prop :=
  ∃ path entry k, cf_team_allowlist_path app = Some path ∧
    match_identity (load_or_empty (allow_fault k) path (gw_files s)) (pr_email p) (pr_email_verified p) (pr_wallet_address p) = Some entry ∧
    gw_control s' = (upsert_membership_full (gw_control s) (pr_sub p) org (al_role entry) (al_scopes entry)).1 ∧
    load None (cf_control_path app) (gw_files s') = Ok (gw_control s').

Lemma jit_spec {E} `{!JsonTextLaws Control} app p org s s' (r : result E (option Membership)) : jit_provision allow_fault save_io app p org s = (s', r) →
  membership (gw_control s) (pr_sub p) org = None →
  untouched s s' ∧ gw_audit s' = gw_audit s ∧ orgs (gw_control s') = orgs (gw_control s) ∧
  ∃ o, r = Ok o ∧ match o with
                  | Some m => membership (gw_control s') (pr_sub p) org = Some m ∧ provisioned app p org s s'
                  | None => True
                  end.
Proof.
  intros Hj Hm. unfold jit_provision in Hj. destruct (cf_team_allowlist_path app) as [path|] eqn:Hp; [|injection Hj as <- <-; split_and!; try done; by exists None].
  destruct (match_identity _ _ _ _) as [entry|] eqn:Hi; [|injection Hj as <- <-; split_and!; try done; by exists None].
  cbn in Hj. rewrite Hm in Hj. destruct (save _ _ _ _) as [files saved] eqn:Hs. pose proof (save_loads _ _ _ _ _ _ Hs) as [Hl _].
  assert (orgs (upsert_membership_full (gw_control s) (pr_sub p) org (al_role entry) (al_scopes entry)).1 = orgs (gw_control s)) as Ho.
  { unfold upsert_membership_full. by rewrite Hm. }
  destruct saved as [[]|e]; injection Hj as <- <-; cbn; split_and!; try done; eexists; (split; [done|]).
  - assert (∃ m, membership (upsert_membership_full (gw_control s) (pr_sub p) org (al_role entry) (al_scopes entry)).1 (pr_sub p) org = Some m) as [m Hm'].
    { unfold upsert_membership_full. rewrite Hm. unfold membership, set_memberships. cbn [fst memberships]. rewrite find_in_app, find_in_cons.
      unfold membership in Hm. rewrite Hm. unfold is_row, fresh_row. cbn [m_sub m_org]. rewrite !bool_decide_true by done. by eexists. }
    rewrite Hm'. split; [done|]. exists path, entry, (gw_step s). by split_and!.
  - done.
Qed.

(** ** The gate *)

Lemma gate_membership_spec `{!JsonTextLaws Control} app p org res s s' r :
  gate_membership clock fs allow_fault save_io app p org res s = (s', r) →
  untouched s s' ∧ (∃ rs, records (gw_audit s') = records (gw_audit s) ++ rs) ∧
  match r with
  | Ok m => (∃ o, find_org (gw_control s) org = Some o ∧ o_status o = OrgActive) ∧
            membership (gw_control s') (pr_sub p) org = Some m ∧
            (same_control s s' ∨ (membership (gw_control s) (pr_sub p) org = None ∧ provisioned app p org s s'))
  | Err _ => True
  end.
Proof.
  intros Hg. unfold gate_membership in Hg. apply sbind_inv in Hg as [(s1 & [] & Hopen & Hg)|(e & Hopen & ->)].
  2:{ injection Hopen as -> _. split_and!; try done. exists []. by rewrite app_nil_r. }
  unfold sread in Hopen. injection Hopen as -> Hopen. unfold org_open in Hopen.
  destruct (find_org (gw_control s1) org) as [o|] eqn:Ho; [|done]. destruct (o_status o) eqn:Hst; [|done].
  unfold sread, sbind at 1 in Hg. destruct (membership (gw_control s1) (pr_sub p) org) as [m|] eqn:Hm.
  { injection Hg as <- <-. split_and!; try done; [exists []; by rewrite app_nil_r|eauto|by left]. }
  apply sbind_inv in Hg as [(s2 & x & Hj & Hg)|(e & Hj & ->)].
  2:{ eapply jit_spec in Hj as (_ & _ & _ & o' & [=] & _); done. }
  eapply jit_spec in Hj as (Hu & Ha & Horg & o' & [= ->] & Hx); [|done].
  destruct o' as [m|].
  - apply sbind_inv in Hg as [(s3 & [] & Hi & Hg)|(e & Hi & ->)]; apply ignore_audit_spec in Hi as (Hi & Hu' & [Hc Hf] & rs & Hrs & _); [|done].
    injection Hg as <- <-. split; [by eapply untouched_trans|]. split; [exists rs; by rewrite Hrs, Ha|].
    destruct Hx as [Hx (path & entry & k & ? & ? & ? & ?)]. split_and!; [eauto|by rewrite Hc|]. right. split; [done|].
    exists path, entry, k. rewrite Hc, Hf. by split_and!.
  - apply sbind_inv in Hg as [(s3 & [] & Hi & Hg)|(e & Hi & ->)]; apply ignore_audit_spec in Hi as (Hi & Hu' & _ & rs & Hrs & _); [|done].
    injection Hg as <- <-. split; [by eapply untouched_trans|]. split; [exists rs; by rewrite Hrs, Ha|done].
Qed.

(** What passing the gate means *)
Definition passed app (headers : HeaderMap) (org resource : string) (op : Op) (det : string) s s' (sub : string) (grant : CapabilityGrant) : Prop :=
  ∃ p m now rec pre,
    authenticated app headers p ∧ pr_sub p = sub ∧
    (∃ o, find_org (gw_control s) org = Some o ∧ o_status o = OrgActive) ∧
    membership (gw_control s') sub org = Some m ∧ role_allows m resource op = true ∧
    (same_control s s' ∨ (membership (gw_control s) sub org = None ∧ provisioned app p org s s')) ∧
    grant = mint_grant (cf_signing_key app) (cf_issuer app) m now GRANT_TTL_MS ∧
    records (gw_audit s') = records (gw_audit s) ++ pre ++ [rec] ∧
    event rec = gate_event op ∧ actor rec = sub ∧ ar_resource_id rec = resource ∧ detail rec = det.

(** The gate, whatever it answers *)
Lemma gate_spec `{!JsonTextLaws Control, !Ed25519Laws} app headers org resource op det s s' r :
  gate_with_grant clock fs allow_fault save_io app headers org resource op det s = (s', r) →
  untouched s s' ∧ (∃ rs, records (gw_audit s') = records (gw_audit s) ++ rs) ∧
  match r with
  | Ok (sub, grant) => org = cf_org_id app ∧ passed app headers org resource op det s s' sub grant
  | Err _ => True
  end.
Proof.
  intros Hg. unfold gate_with_grant in Hg. case_bool_decide as Horg; cbn [negb] in Hg.
  2:{ injection Hg as <- <-. split_and!; try done. exists []. by rewrite app_nil_r. }
  apply sbind_inv in Hg as [(s1 & p & Hau & Hg)|(e & Hau & ->)]; apply authenticate_spec in Hau as (Hu1 & Hc1 & Ha1 & Hp).
  2:{ split_and!; [done| |done]. exists []. by rewrite Ha1, app_nil_r. }
  apply sbind_inv in Hg as [(s2 & m & Hm & Hg)|(e & Hm & ->)]; apply gate_membership_spec in Hm as (Hu2 & [rs2 Ha2] & Hm); rewrite Ha1 in Ha2.
  2:{ split_and!; [by eapply untouched_trans|by exists rs2|done]. }
  destruct Hm as (Hopen & Hmem & Hcase). apply sbind_inv in Hg as [(s2' & now & Hn & Hg)|(e & Hn & _)]; [|done].
  unfold gw_now in Hn. injection Hn as <- <-. cbv zeta in Hg.
  assert (∀ s3, untouched (tick s2) s3 → untouched s s3) as Hu3.
  { intros s3 Hu3. eapply untouched_trans; [done|]. eapply untouched_trans; [done|]. exact Hu3. }
  destruct Hc1 as [Hc1 Hf1].
  destruct (check _ resource op _) as [[]|e] eqn:Hck.
  - apply sbind_inv in Hg as [(s3 & [] & Hev & Hg)|(e & Hev & ->)]; apply audit_event_spec in Hev as (Hu & [Hc Hf] & Hev).
    2:{ split_and!; [by apply Hu3| |done]. rewrite Hev. by exists rs2. }
    injection Hg as <- <-. destruct Hev as (rec & Hrec & ? & ? & ? & ?). split; [by apply Hu3|]. split; [exists (rs2 ++ [rec]); by rewrite Hrec, app_assoc, <- Ha2|].
    split; [done|]. apply mint_grant_check in Hck as [_ Hrole].
    eexists p, m, _, rec, rs2. rewrite Hc1 in *. split_and!; try done.
    + by rewrite Hc.
    + destruct Hcase as [[Hs1 Hs2]|[Hn (path & entry & k & Hpr & Hmi & Hct & Hld)]]; [left|right].
      * split; [by rewrite Hc; cbn; rewrite Hs1|by rewrite Hf; cbn; rewrite Hs2, Hf1].
      * split; [done|]. exists path, entry, k. rewrite Hf1, Hc1 in *. rewrite Hc, Hf. by split_and!.
    + rewrite Hrec, app_assoc, <- Ha2. done.
  - apply sbind_inv in Hg as [(s3 & [] & Hi & Hg)|(e' & Hi & ->)]; apply ignore_audit_spec in Hi as (Hi & Hu & _ & rs & Hrs & _); [|done].
    injection Hg as <- <-. split_and!; [by apply Hu3| |done]. exists (rs2 ++ rs). rewrite Hrs. cbn. by rewrite Ha2, app_assoc.
Qed.

(** [C8] The gate fails closed: whoever passes it named this gateway's organisation, was
    authenticated, met an active organisation, has a membership (which existed, or was just
    granted because the team allowlist names a verified identity of the caller, and is then
    already on disk) whose role and scopes allow the operation on the resource, and the
    last audit record says so; whatever the gate answers, the store, the caches, the queue
    and the limits are untouched and the audit log only grew. *)
Theorem gate_fail_closed `{!JsonTextLaws Control, !Ed25519Laws} app headers org resource op det s s' r
    (Hgate : gate_with_grant clock fs allow_fault save_io app headers org resource op det s = (s', r)) :
  untouched s s' ∧ (∃ rs, records (gw_audit s') = records (gw_audit s) ++ rs) ∧
  match r with
  | Ok (sub, grant) => org = cf_org_id app ∧ passed app headers org resource op det s s' sub grant
  | Err _ => True
  end.
Proof. by apply gate_spec in Hgate. Qed.

(** [C17] The gate opens for whom it should: an authenticated member of an active organisation
    whose role and scopes allow the operation passes, provided the clock is short of its
    end and the decision can be recorded. *)
Theorem gate_admits `{!Ed25519Laws} app headers org resource op det s s1 p m o
    (Horg : org = cf_org_id app) (Hauth : authenticate_principal clock app headers s = (s1, Ok p))
    (Hopen : find_org (gw_control s) org = Some o) (Hst : o_status o = OrgActive)
    (Hm : membership (gw_control s) (pr_sub p) org = Some m) (Hrole : role_allows m resource op = true)
    (Hclock : 0 ≤ clock (gw_step s1) < u64_max)
    (Haudit : is_ok (append (fs (S (S (gw_step s1)))) (gw_audit s) (gate_event op) (pr_sub p) resource det
                            (clock (S (gw_step s1))) (gw_audit_disk s1)).2 = true) :
  ∃ s', gate_with_grant clock fs allow_fault save_io app headers org resource op det s =
        (s', Ok (pr_sub p, mint_grant (cf_signing_key app) (cf_issuer app) m (clock (gw_step s1)) GRANT_TTL_MS)).
Proof.
  pose proof (authenticate_spec _ _ _ _ _ Hauth) as (_ & [Hc _] & Ha & _).
  unfold gate_with_grant. rewrite bool_decide_true by done. cbn [negb]. rewrite (sbind_ok _ _ _ _ _ Hauth).
  assert (gate_membership clock fs allow_fault save_io app p org resource s1 = (s1, Ok m)) as Hgm.
  { unfold gate_membership, sread, sbind, org_open. rewrite Hc, Hopen, Hst, Hm. done. }
  rewrite (sbind_ok _ _ _ _ _ Hgm), (sbind_ok _ _ _ (tick s1) (clock (gw_step s1))) by done. cbv zeta.
  assert (check (mint_grant (cf_signing_key app) (cf_issuer app) m (clock (gw_step s1)) GRANT_TTL_MS) resource op (clock (gw_step s1)) = Ok tt) as ->.
  { apply mint_grant_check. split; [|done]. unfold saturating_add, GRANT_TTL_MS. lia. }
  unfold audit_event, gw_now, sbind. cbn [gw_step tick at_step gw_audit gw_audit_disk]. rewrite Ha in *.
  destruct (append _ _ _ _ _ _ _ _) as [d [[c rec]|e]]; [|done]. by eexists.
Qed.

(** ** An unsaved membership *)

(** A membership that could not be saved is granted by the next request all the same:
    when the control file cannot be written, the first request of an allowlisted caller is
    refused, but the row stays in memory, so the next one finds it and passes the
    membership check although nothing is on disk. *)
Theorem jit_unsaved_granted `{!JsonTextLaws Control} app p org resource path entry s s' o
    (Hpath : cf_team_allowlist_path app = Some path)
    (Hlist : match_identity (load_or_empty (allow_fault (gw_step s)) path (gw_files s)) (pr_email p) (pr_email_verified p) (pr_wallet_address p) = Some entry)
    (Hnone : membership (gw_control s) (pr_sub p) org = None) (Hopen : find_org (gw_control s) org = Some o) (Hst : o_status o = OrgActive)
    (Hfail : is_ok (save (save_io (S (gw_step s))) (upsert_membership_full (gw_control s) (pr_sub p) org (al_role entry) (al_scopes entry)).1
                         (cf_control_path app) (gw_files s)).2 = false)
    (Hfirst : gate_membership clock fs allow_fault save_io app p org resource s = (s', Err (forbidden "no membership in org"))) :
  load None (cf_control_path app) (gw_files s') = load None (cf_control_path app) (gw_files s) ∧
  ∃ m, m_role m = al_role entry ∧ gate_membership clock fs allow_fault save_io app p org resource s' = (s', Ok m).
Proof.
  set (c := (upsert_membership_full (gw_control s) (pr_sub p) org (al_role entry) (al_scopes entry)).1) in *.
  assert (orgs c = orgs (gw_control s) ∧ membership c (pr_sub p) org = Some (fresh_row (pr_sub p) org (al_role entry) (al_scopes entry))) as [Horgs Hrow].
  { subst c. unfold upsert_membership_full. rewrite Hnone. split; [done|]. unfold membership in *. cbn [fst set_memberships memberships].
    rewrite find_in_app, find_in_cons, Hnone. unfold is_row, fresh_row. cbn [m_sub m_org]. by rewrite !bool_decide_true. }
  unfold gate_membership, sread, sbind at 1 in Hfirst. unfold org_open in Hfirst. rewrite Hopen, Hst in Hfirst.
  unfold sbind at 1 in Hfirst. rewrite Hnone in Hfirst. unfold sbind at 1 in Hfirst. unfold jit_provision in Hfirst.
  rewrite Hpath, Hlist in Hfirst. cbn [gw_control gw_files gw_step tick at_step] in Hfirst. rewrite Hnone in Hfirst. fold c in Hfirst.
  destruct (save _ c _ _) as [files saved] eqn:Hsave. destruct saved as [[]|e]; [done|].
  apply save_loads in Hsave as [Hload _]. apply sbind_inv in Hfirst as [(s2 & [] & Hi & Hg)|(e' & Hi & _)]; apply ignore_audit_spec in Hi as (Hi & _ & [Hc Hf] & _); [|done].
  injection Hg as ->. cbn in Hc, Hf. split; [by rewrite Hf|]. exists (fresh_row (pr_sub p) org (al_role entry) (al_scopes entry)). split; [done|].
  unfold gate_membership, sread, sbind, org_open, find_org. rewrite Hc, Horgs. unfold find_org in Hopen. rewrite Hopen, Hst. by rewrite Hrow.
Qed.
End gate_props.
