(* ===== verification/McpRender.v ===== *)
(** * The text of tool results ([mem-mcp/src/lib.rs], the helpers)

    Argument readers, the rendering of recall results and passages, and the JSON-RPC
    envelopes.  A byte slice that cuts a character in two is a panic ([None]). *)

From stdpp Require Import pretty.
From S2P Require Import Prelude Bytes Externs Text Str Belnap Identity Node Float Edge Kv Shred Store StoreInterface Assert Query Display Chunk.

Definition dnat (n : nat) : string := decimal (Z.of_nat n).
Definition nl : string := String "010" "".

(** [s.replace('\n', " ")] *)
Definition flatten_lines (s : string) : string :=
  string_of_bytes ((λ b, if decide (b = newline) then Byte.x20 else b) <$> as_bytes s).
(** [s.chars().take(n).collect()] *)
Definition take_chars (n : nat) (s : string) : string := string_of_bytes (unchunk (take n (chunks (as_bytes s)))).
Definition count_chars (s : string) : nat := char_count (as_bytes s).
(** A title of more than [n] characters is cut to [n - 1] and an ellipsis. *)
Definition ellipsize (n : nat) (s : string) : string :=
  if bool_decide (n < count_chars s)%nat then take_chars (n - 1) s +:+ "…" else s.

(** [&s[..k]] for [k] at most the length *)
Definition is_char_boundary (k : nat) (l : bytes) : bool :=
  bool_decide (k = O) || match l !! k with Some b => negb (is_cont b) | None => bool_decide (k = length l) end.
Definition slice_to (k : nat) (s : string) : option string :=
  if is_char_boundary k (as_bytes s) then Some (string_of_bytes (take k (as_bytes s))) else None.

(** ** Arguments *)

Definition rpc_error : Type := Z * string.
Definition arg_str (args : Value) (key : string) : result rpc_error string :=
  ok_or (jget args key ≫= as_str) (-32602, "missing string argument '" +:+ key +:+ "'").
Definition arg_usize (args : Value) (key : string) (default : Z) : Z :=
  match jget args key ≫= as_u64 with Some n => n | None => default end.
Definition MAX_BUDGET : Z := 500.
Definition arg_budget (args : Value) (default : Z) : nat := Z.to_nat (Z.min (arg_usize args "budget" default) MAX_BUDGET).
Definition arg_bool (args : Value) (key : string) (default : bool) : bool :=
  match jget args key ≫= as_bool with Some b => b | None => default end.
Definition store_err (e : StoreError) : rpc_error := (-32000, StoreError_display e).

(** ** Envelopes *)

Definition tool_text (text : string) : Value :=
  obj [("content", JArray [obj [("type", JString "text"); ("text", JString text)]]); ("isError", JBool false)].
Definition tool_error (message : string) : Value :=
  obj [("content", JArray [obj [("type", JString "text"); ("text", JString message)]]); ("isError", JBool true)].
Definition ok_envelope (id result : Value) : Value := obj [("jsonrpc", JString "2.0"); ("id", id); ("result", result)].
Definition err_envelope (id : Value) (code : Z) (message : string) : Value :=
  obj [("jsonrpc", JString "2.0"); ("id", id); ("error", obj [("code", jint code); ("message", JString message)])].

Section render.
Context `{Blake3, Hex, SerdeJson}.

Definition ok_response (id result : Value) : string := json_to_string (ok_envelope id result).
Definition err_response (id : Value) (code : Z) (message : string) : string := json_to_string (err_envelope id code message).

(** ** Results *)

Definition render_head (w : option Watermark) : option string :=
  match w with
  | Some w =>
    let head := default "?" (w_head w) in
    h ← slice_to (Nat.min (length (as_bytes head)) 12) head;
    Some ("freshness: HEAD " +:+ h +:+ " (" +:+ dnat (w_head_count w) +:+ " commits) ingested @ "
          +:+ decimal (w_ingested_at_ms w) +:+ "ms" +:+ nl)
  | None => Some ("freshness: (no watermark)" +:+ nl)
  end.

Definition status_mark (s : Status) : string :=
  match s with Active => "" | Superseded => " ⚠SUPERSEDED" | Archived => " (archived)" end.

(** The line of one item, without its newline *)
Definition item_line (i : RecallItem) : string :=
  let score := match ri_score i with Some x => fixed 3 x +:+ " " | None => "" end in
  let title := ellipsize 72 (flatten_lines (ri_title i)) in
  let in_flight := match ri_in_flight_branch i with Some b => " [in-flight: " +:+ b +:+ "]" | None => "" end in
  "  " +:+ short 10 (ri_id i) +:+ " " +:+ score +:+ "[" +:+ discriminant (ri_kind i) +:+ status_mark (ri_status i) +:+ "] "
  +:+ title +:+ in_flight.

Definition tenant_line (r : RecallResult) : string :=
  "tenant '" +:+ rr_repo r +:+ "' — " +:+ dnat (rr_total_in_tenant r) +:+ " nodes, showing " +:+ dnat (length (rr_items r)) +:+ ":".

Definition concat_strings (l : list string) : string := foldr String.app "" l.

Definition render_result (r : RecallResult) : option string :=
  head ← render_head (rr_watermark r);
  Some (head +:+ tenant_line r +:+ nl +:+ concat_strings ((λ i, item_line i +:+ nl) <$> rr_items r)).

Definition PASSAGE_MAX_CHARS : nat := 2000.

Context `{Unicode}.

(** The text of one hit, quoted line by line *)
Definition quote_line (l : bytes) : string :=
  if bool_decide (trim l = []) then "    >" +:+ nl else "    > " +:+ string_of_bytes l +:+ nl.
Definition passage (item : RecallItem) : string :=
  let text := take_chars PASSAGE_MAX_CHARS (ri_title item)
              +:+ (if bool_decide (PASSAGE_MAX_CHARS < count_chars (ri_title item))%nat then "…" else "") in
  match cite (ri_source item) (as_bytes (ri_title item)) with Some c => "    cite: " +:+ c +:+ nl | None => "" end
  +:+ concat_strings (quote_line <$> lines (as_bytes text)).

(** The header lines are the first two of the plain rendering; the items take the others
    in order, as far as there are any. *)
Definition render_passages (r : RecallResult) : option string :=
  base ← render_result r;
  let ls := lines (as_bytes base) in
  Some (concat_strings ((λ l, string_of_bytes l +:+ nl) <$> take 2 ls)
        +:+ concat_strings (zip_with (λ item l, string_of_bytes l +:+ nl +:+ passage item) (rr_items r) (drop 2 ls))).
End render.

(** ** Kinds *)

Definition edge_kind_from_str (s : string) : option EdgeKind :=
  let s := to_ascii_lowercase s in
  if bool_decide (s ∈ ["analogous_to"; "analogousto"; "analogy"]) then Some AnalogousTo
  else if bool_decide (s = "supersedes") then Some Supersedes
  else if bool_decide (s = "references") then Some References
  else if bool_decide (s ∈ ["depends_on"; "dependson"]) then Some DependsOn
  else if bool_decide (s = "implements") then Some Implements
  else if bool_decide (s = "decides") then Some Decides
  else if bool_decide (s = "refutes") then Some Refutes
  else if bool_decide (s = "contradicts") then Some Contradicts
  else if bool_decide (s ∈ ["caused_by"; "causedby"]) then Some CausedBy
  else if bool_decide (s = "motivates") then Some Motivates
  else if bool_decide (s ∈ ["derived_from"; "derivedfrom"]) then Some DerivedFrom
  else if bool_decide (s ∈ ["anchored_to"; "anchoredto"]) then Some AnchoredTo
  else None.

Definition node_kind_from_str (s : string) : NodeKind :=
  let s := to_ascii_lowercase s in
  if bool_decide (s = "claim") then Claim Confirmed
  else if bool_decide (s ∈ ["analogy"; "analogy_hypothesis"]) then AnalogyHypothesis
  else if bool_decide (s ∈ ["doc"; "note"]) then Doc
  else if bool_decide (s = "finding") then Finding
  else if bool_decide (s = "blocker") then Blocker
  else if bool_decide (s ∈ ["techdebt"; "tech_debt"]) then TechDebt
  else if bool_decide (s ∈ ["workpackage"; "work_package"]) then WorkPackage
  else if bool_decide (s = "adr") then Adr
  else if bool_decide (s = "handoff") then Handoff
  else if bool_decide (s = "benchmark") then Benchmark
  else if bool_decide (s ∈ ["agentaction"; "agent_action"]) then AgentAction
  else Rationale.

(** * What the MCP server advertises ([mem-mcp/src/lib.rs])

    The [initialize] reply, the list of tools with their schemas, and the stamping of the
    schemas. *)

Definition PROTOCOL_VERSION : string := "2024-11-05".
Definition PROTOCOL_VERSION_2026 : string := "2026-07-28".
Definition SUPPORTED_PROTOCOL_VERSIONS : list string := [PROTOCOL_VERSION_2026; PROTOCOL_VERSION].
Definition GRANT_META_KEY : string := "ai.citrate/grant".
Definition JSON_SCHEMA_2020_12 : string := "https://json-schema.org/draft/2020-12/schema".

(** The version of the package *)
Definition CARGO_PKG_VERSION : string := "0.0.1".

Definition initialize (params : Value) : Value :=
  let negotiated := if bool_decide (jget params "protocolVersion" ≫= as_str = Some PROTOCOL_VERSION_2026)
                    then PROTOCOL_VERSION_2026 else PROTOCOL_VERSION in
  obj [("protocolVersion", JString negotiated);
       ("capabilities", obj [
          ("tools", obj []);
          ("experimental", obj [
             ("ai.citrate/statelessGrant", obj [
                ("metaKey", JString GRANT_META_KEY);
                ("supportedProtocolVersions", JArray (JString <$> SUPPORTED_PROTOCOL_VERSIONS))])])]);
       ("serverInfo", obj [("name", JString "citrate-memories"); ("version", JString CARGO_PKG_VERSION)])].

(** The document of [tools_list], before the stamping *)
Definition tools_doc : Value :=
  obj [
    ("tools", JArray [
      obj [
        ("name", JString "memory.recall");
        ("description", JString "Budget-shaped storyline (most recent N memory nodes) for a repo tenant. Carries provenance + freshness.");
        ("inputSchema", obj [
          ("type", JString "object");
          ("properties", obj [
            ("repo", obj [("type", JString "string"); ("description", JString "tenant repo, e.g. citrate-chain")]);
            ("budget", obj [("type", JString "integer"); ("description", JString "max items"); ("default", jnat 15)]);
            ("include_in_flight", obj [
              ("type", JString "boolean");
              ("description", JString "also show unmerged feature-branch work, each labeled [in-flight: <branch>]; default off = canonical merged truth only");
              ("default", JBool false)])]);
          ("required", JArray [JString "repo"])])];
      obj [
        ("name", JString "memory.search");
        ("description", JString "Semantic search (cosine over node embeddings) within a repo tenant.");
        ("inputSchema", obj [
          ("type", JString "object");
          ("properties", obj [
            ("repo", obj [("type", JString "string")]);
            ("query", obj [("type", JString "string")]);
            ("budget", obj [("type", JString "integer"); ("default", jnat 10)]);
            ("include_in_flight", obj [
              ("type", JString "boolean");
              ("description", JString "also search unmerged feature-branch work, each hit labeled [in-flight: <branch>]; default off");
              ("default", JBool false)]);
            ("passages", obj [
              ("type", JString "boolean");
              ("description", JString "also return each hit's text and, for documents, a citation (<repo>:<path>#<anchor>) to quote when answering; default off = titles only");
              ("default", JBool false)])]);
          ("required", JArray [JString "repo"; JString "query"])])];
      obj [
        ("name", JString "memory.neighbors");
        ("description", JString "Blast-radius: nodes connected by one edge to a node (by id prefix) in a repo tenant.");
        ("inputSchema", obj [
          ("type", JString "object");
          ("properties", obj [
            ("repo", obj [("type", JString "string")]);
            ("id_prefix", obj [("type", JString "string")]);
            ("budget", obj [("type", JString "integer"); ("default", jnat 20)])]);
          ("required", JArray [JString "repo"; JString "id_prefix"])])];
      obj [
        ("name", JString "memory.as_of");
        ("description", JString "Decision-replay: the Derived-plane snapshot of a repo tenant as it stood at a point in time (epoch ms). Shows only nodes that were already valid and not yet retired at that instant. Set include_asserted to also ask what was CLAIMED and still stood at that instant.");
        ("inputSchema", obj [
          ("type", JString "object");
          ("properties", obj [
            ("repo", obj [("type", JString "string")]);
            ("as_of_ms", obj [("type", JString "integer"); ("description", JString "epoch milliseconds — the replay instant")]);
            ("budget", obj [("type", JString "integer"); ("default", jnat 15)]);
            ("include_asserted", obj [
              ("type", JString "boolean");
              ("default", JBool false);
              ("description", JString "widen to the Asserted plane: signed claims valid at that instant and not since superseded. Off by default because signed claims are not a deterministic projection, so the snapshot stops being a reproducible replay.")])]);
          ("required", JArray [JString "repo"; JString "as_of_ms"])])];
      obj [
        ("name", JString "memory.verify");
        ("description", JString "Provenance check for one node (by id prefix): signature posture, whether it has been superseded/refuted, and whether a contradiction is recorded — so a caller knows if it is safe to act on.");
        ("inputSchema", obj [
          ("type", JString "object");
          ("properties", obj [
            ("repo", obj [("type", JString "string")]);
            ("id_prefix", obj [("type", JString "string")])]);
          ("required", JArray [JString "repo"; JString "id_prefix"])])];
      obj [
        ("name", JString "memory.critique");
        ("description", JString "Self-critic completeness pass: runs a storyline (or a search, if 'query' is given) and reports what an agent acting on the result might be missing — truncated coverage, stale/superseded items, contradictions, adjacent unconfirmed proposals, index staleness.");
        ("inputSchema", obj [
          ("type", JString "object");
          ("properties", obj [
            ("repo", obj [("type", JString "string")]);
            ("query", obj [("type", JString "string"); ("description", JString "optional — critique a search instead of a storyline")]);
            ("budget", obj [("type", JString "integer"); ("default", jnat 15)])]);
          ("required", JArray [JString "repo"])])];
      obj [
        ("name", JString "memory.analogy");
        ("description", JString "Cross-tenant analogues of a node (coarse embedding shortlist + structural edge-shape verify), searched only across tenants this session may read.");
        ("inputSchema", obj [
          ("type", JString "object");
          ("properties", obj [
            ("repo", obj [("type", JString "string"); ("description", JString "the anchor node's tenant")]);
            ("id_prefix", obj [("type", JString "string")]);
            ("budget", obj [("type", JString "integer"); ("default", jnat 5)])]);
          ("required", JArray [JString "repo"; JString "id_prefix"])])];
      obj [
        ("name", JString "memory.propose_edge");
        ("description", JString "Record a signed QUARANTINED edge proposal (advisory until confirmed; never load-bearing on arrival). Requires write scope on both endpoint tenants.");
        ("inputSchema", obj [
          ("type", JString "object");
          ("properties", obj [
            ("from_prefix", obj [("type", JString "string")]);
            ("to_prefix", obj [("type", JString "string")]);
            ("kind", obj [
              ("type", JString "string");
              ("enum", JArray [JString "analogous_to"; JString "supersedes"; JString "references"; JString "depends_on"; JString "implements"; JString "decides"; JString "refutes"; JString "contradicts"; JString "caused_by"; JString "motivates"; JString "derived_from"; JString "anchored_to"]);
              ("default", JString "analogous_to")]);
            ("evidence", obj [("type", JString "string"); ("description", JString "why — human-auditable rationale")])]);
          ("required", JArray [JString "from_prefix"; JString "to_prefix"])])];
      obj [
        ("name", JString "memory.confirm_edge");
        ("description", JString "Promote a quarantined edge proposal to load-bearing. A confirmed supersedes edge applies the status transition (cycle-guarded). Requires write scope on both endpoint tenants.");
        ("inputSchema", obj [
          ("type", JString "object");
          ("properties", obj [
            ("from_prefix", obj [("type", JString "string")]);
            ("to_prefix", obj [("type", JString "string")]);
            ("kind", obj [("type", JString "string"); ("default", JString "analogous_to")])]);
          ("required", JArray [JString "from_prefix"; JString "to_prefix"])])];
      obj [
        ("name", JString "memory.assert");
        ("description", JString "Append a signed assertion (Asserted plane) — a rationale/claim/note that lives nowhere else. Embedded at write time, so it is findable by memory.search. Requires write scope.");
        ("inputSchema", obj [
          ("type", JString "object");
          ("properties", obj [
            ("repo", obj [("type", JString "string")]);
            ("content", obj [("type", JString "string"); ("description", JString "the assertion text")]);
            ("kind", obj [
              ("type", JString "string");
              ("enum", JArray [JString "rationale"; JString "claim"; JString "analogy"; JString "note"; JString "doc"; JString "finding"; JString "blocker"; JString "techdebt"; JString "workpackage"; JString "adr"; JString "handoff"; JString "benchmark"; JString "agentaction"]);
              ("default", JString "rationale")]);
            ("valid_from", obj [
              ("type", JString "integer");
              ("description", JString "real-world date this became true, ms since epoch (a proof date, a publish date). Defaults to now. Not the write time — that is recorded separately as observed_at.")])]);
          ("required", JArray [JString "repo"; JString "content"])])];
      obj [
        ("name", JString "memory.merge_diff");
        ("description", JString "Merge a signed memory-diff (a session subgraph) into the graph — the 'git for agents' handoff. Requires write scope on the diff's repos; rejected wholesale if any signature fails.");
        ("inputSchema", obj [
          ("type", JString "object");
          ("properties", obj [
            ("diff", obj [("type", JString "string"); ("description", JString "JSON-encoded MemoryDiff")])]);
          ("required", JArray [JString "diff"])])]])].

(** [schema.insert(..)] and [schema.entry(..).or_insert(..)] on one tool's schema *)
Definition stamp_schema (m : gmap string Value) : gmap string Value :=
  let m := <["$schema" := JString JSON_SCHEMA_2020_12]> m in
  match m !! "additionalProperties" with Some _ => m | None => <["additionalProperties" := JBool false]> m end.

Definition stamp_tool (tool : Value) : Value :=
  match tool with
  | JObject m => match m !! "inputSchema" with
                 | Some (JObject schema) => JObject (<["inputSchema" := JObject (stamp_schema schema)]> m)
                 | _ => tool
                 end
  | _ => tool
  end.

Definition inject_schema_dialect (doc : Value) : Value :=
  match doc with
  | JObject m => match m !! "tools" with
                 | Some (JArray tools) => JObject (<["tools" := JArray (stamp_tool <$> tools)]> m)
                 | _ => doc
                 end
  | _ => doc
  end.

Definition tools_list : Value := inject_schema_dialect tools_doc.
