(* ===== verification/Mcp.v ===== *)
(** * The MCP server ([mem-mcp/src/lib.rs])

    One session of the server: JSON-RPC lines in, replies out, every tool gated by the
    session's capability grant and recorded in the audit chain.  The server's fields and
    what it shares with other sessions (the store, the index cache, the audit chain and
    its files, the write gate) are one state; the clock and the file system are functions
    of a step counter, so nothing is assumed of the readings.  A handler leaves early with
    a tool result ([Return]), with a JSON-RPC error ([Fail]) or by a panic ([Panic]). *)

From S2P Require Import Prelude Bytes Externs Text Str Belnap Identity Node Float Edge Grant AuditLog Kv Shred Store StoreContents.
From S2P Require Import Supersession StoreInterface Assert Index Hnsw Query Search Display Chunk McpRender.

Inductive Exit :=
| Return (v : Value)
| Fail (e : rpc_error)
| Panic.

Definition GRANT_REJECTED : Z := -32001.

Definition MAX_DIFF_BYTES : nat := 4 * 1024 * 1024.
Definition MAX_DIFF_NODES : nat := 10000.
Definition MAX_DIFF_EDGES : nat := 50000.

Definition memory_resource (repo : string) : string := "repo:" +:+ repo +:+ "/memory".

(** A [BTreeSet<String>] in its iteration order *)
Definition in_order (rs : list string) : list string := sort_by_key id (remove_dups rs).

Section mcp.
Context {T : Type} `{MemStore T, Blake3, Hex, Ed25519, Serde Watermark, Serde AuditRecord, Serde Head}.
Context `{Unicode, FloatNan, Ln, SliceSort, CharTables, SerdeJson, FromJson CapabilityGrant, FromJson MemoryDiff}.
(** The clock at a step; while a filter runs, a reading per tenant; the file system at a
    step *)
Context (clock : nat → Timestamp) (filter_clock : nat → string → Timestamp) (fs : nat → IoOracle).

Record MemoryMcpServer := {
  sv_store : T;
  sv_grant : CapabilityGrant;
  sv_asserter : option Asserter;
  sv_query_embedder : option Embedder;
  sv_index_cache : option TenantIndexCache;
  (** the write gate, [Some true] when poisoned *)
  sv_write_gate : option bool;
  sv_audit : AuditChain;
  sv_audit_poisoned : bool;
  sv_audit_disk : Disk;
  sv_req_trace : option string;
  sv_req_grant : option CapabilityGrant;
  sv_step : nat;
}.

Definition set_store (x : T) (s : MemoryMcpServer) : MemoryMcpServer :=
  {| sv_store := x; sv_grant := sv_grant s; sv_asserter := sv_asserter s; sv_query_embedder := sv_query_embedder s;
     sv_index_cache := sv_index_cache s; sv_write_gate := sv_write_gate s; sv_audit := sv_audit s;
     sv_audit_poisoned := sv_audit_poisoned s; sv_audit_disk := sv_audit_disk s; sv_req_trace := sv_req_trace s;
     sv_req_grant := sv_req_grant s; sv_step := sv_step s |}.
Definition set_cache (x : option TenantIndexCache) (s : MemoryMcpServer) : MemoryMcpServer :=
  {| sv_store := sv_store s; sv_grant := sv_grant s; sv_asserter := sv_asserter s; sv_query_embedder := sv_query_embedder s;
     sv_index_cache := x; sv_write_gate := sv_write_gate s; sv_audit := sv_audit s;
     sv_audit_poisoned := sv_audit_poisoned s; sv_audit_disk := sv_audit_disk s; sv_req_trace := sv_req_trace s;
     sv_req_grant := sv_req_grant s; sv_step := sv_step s |}.
Definition set_audit (c : AuditChain) (d : Disk) (s : MemoryMcpServer) : MemoryMcpServer :=
  {| sv_store := sv_store s; sv_grant := sv_grant s; sv_asserter := sv_asserter s; sv_query_embedder := sv_query_embedder s;
     sv_index_cache := sv_index_cache s; sv_write_gate := sv_write_gate s; sv_audit := c;
     sv_audit_poisoned := sv_audit_poisoned s; sv_audit_disk := d; sv_req_trace := sv_req_trace s;
     sv_req_grant := sv_req_grant s; sv_step := sv_step s |}.
Definition set_request (t : option string) (g : option CapabilityGrant) (s : MemoryMcpServer) : MemoryMcpServer :=
  {| sv_store := sv_store s; sv_grant := sv_grant s; sv_asserter := sv_asserter s; sv_query_embedder := sv_query_embedder s;
     sv_index_cache := sv_index_cache s; sv_write_gate := sv_write_gate s; sv_audit := sv_audit s;
     sv_audit_poisoned := sv_audit_poisoned s; sv_audit_disk := sv_audit_disk s; sv_req_trace := t;
     sv_req_grant := g; sv_step := sv_step s |}.
Definition next_step (s : MemoryMcpServer) : MemoryMcpServer :=
  {| sv_store := sv_store s; sv_grant := sv_grant s; sv_asserter := sv_asserter s; sv_query_embedder := sv_query_embedder s;
     sv_index_cache := sv_index_cache s; sv_write_gate := sv_write_gate s; sv_audit := sv_audit s;
     sv_audit_poisoned := sv_audit_poisoned s; sv_audit_disk := sv_audit_disk s; sv_req_trace := sv_req_trace s;
     sv_req_grant := sv_req_grant s; sv_step := S (sv_step s) |}.

(** [new] and [new_with_asserter] *)
Definition MemoryMcpServer_new (store : T) (grant : CapabilityGrant) (asserter : option Asserter) : MemoryMcpServer :=
  {| sv_store := store; sv_grant := grant; sv_asserter := asserter; sv_query_embedder := None; sv_index_cache := None;
     sv_write_gate := None; sv_audit := AuditChain_new; sv_audit_poisoned := false;
     sv_audit_disk := {| d_log := None; d_head := None; d_tmp := None |}; sv_req_trace := None; sv_req_grant := None; sv_step := 0 |}.

Abbreviation handler A := (stm MemoryMcpServer Exit A).

(** ** Primitive steps *)

Definition now_ms {E} : stm MemoryMcpServer E Timestamp := λ s, (next_step s, Ok (clock (sv_step s))).
Definition panic {A} : handler A := sfail Panic.
Definition or_panic {A} (o : option A) : handler A := match o with Some a => sret a | None => panic end.
(** [.map_err(store_err)?] on a read and on a write of the store *)
Definition read_store {A} (f : T → result StoreError A) : handler A :=
  sread (λ s, map_err (Fail ∘ store_err) (f (sv_store s))).
Definition on_store {E A} (m : stm T E A) : stm MemoryMcpServer E A :=
  λ s, let '(t, r) := m (sv_store s) in (set_store t s, r).
Definition write_store {A} (m : stm T StoreError A) : handler A := smap_err (Fail ∘ store_err) (on_store m).
(** [args ...?] *)
Definition arg {A} (r : result rpc_error A) : handler A := slift (map_err Fail r).

Definition lock_writes : handler unit :=
  sread (λ s, match sv_write_gate s with
              | Some true => Err (Return (tool_error "write gate poisoned; daemon needs a restart"))
              | _ => Ok tt
              end).

(** ** Authorization *)

Definition audit_append (ev : MemoryEvent) (res det : string) (now : Timestamp) : stm MemoryMcpServer AuditError unit :=
  λ s, match append (fs (sv_step s)) (sv_audit s) ev (g_recipient (sv_grant s)) res det now (sv_audit_disk s) with
       | (d, Ok (c, _)) => (next_step (set_audit c d s), Ok tt)
       | (d, Err e) => (next_step (set_audit (sv_audit s) d s), Err e)
       end.

(** The session grant intersected with the request's *)
Definition decision (s : MemoryMcpServer) (resource : string) (op : Op) (now : Timestamp) : result AuthzError unit :=
  let? _ := check (sv_grant s) resource op now in
  match sv_req_grant s with Some rg => check rg resource op now | None => Ok tt end.

Definition event_of (op : Op) : MemoryEvent := match op with Read => EvRead | Write => EvWrite end.

Definition authorize (op : Op) (repo det : string) : stm MemoryMcpServer Value unit :=
  let resource := memory_resource repo in
  let! now := now_ms in
  λ s,
  let det := match sv_req_trace s with Some t => det +:+ " [trace=" +:+ t +:+ "]" | None => det end in
  if sv_audit_poisoned s then (s, Err (tool_error "audit chain lock poisoned; refusing to proceed"))
  else
    match decision s resource op now with
    | Ok _ =>
      smap_err (λ e, tool_error ("audit append failed; refusing to proceed: " +:+ AuditError_display e))
        (audit_append (event_of op) resource det now) s
    | Err e =>
      match audit_append EvDenied resource (det +:+ ": " +:+ AuthzError_display e) now s with
      | (s, Err ae) =>
        (s, Err (tool_error ("authorization denied: " +:+ AuthzError_display e
                             +:+ " (and the denial could not be audited: " +:+ AuditError_display ae +:+ ")")))
      | (s, Ok _) => (s, Err (tool_error ("authorization denied: " +:+ AuthzError_display e)))
      end
    end.

(** [if let Err(deny) = self.authorize(..) { return Ok(deny) }] *)
Definition authorized (op : Op) (repo det : string) : handler unit := smap_err Return (authorize op repo det).
Definition authorize_read (repo det : string) : handler unit := authorized Read repo det.

Definition can_read (s : MemoryMcpServer) (repo : string) : bool :=
  let now := filter_clock (sv_step s) repo in
  is_ok (check (sv_grant s) (memory_resource repo) Read now)
  && match sv_req_grant s with Some rg => is_ok (check rg (memory_resource repo) Read now) | None => true end.

(** The filter closures of one call *)
Definition reader : handler (string → bool) := λ s, (next_step s, Ok (can_read s)).

Definition resolve_readable (prefix : string) : handler (option (ContentHash * MemoryNode)) :=
  let! may_read := reader in
  let! o := read_store (λ t, resolve_prefix_where t prefix (λ n, may_read (n_repo n))) in
  match o with
  | None => sret None
  | Some id =>
    let! o := read_store (λ t, ms_get_node t id) in
    let! may_read := reader in
    match o with
    | Some n => sret (if may_read (n_repo n) then Some (id, n) else None)
    | None => sret None
    end
  end.

(** ** Read tools *)

Definition no_unique (prefix : string) : Value := tool_error ("no unique node for prefix '" +:+ prefix +:+ "'").

Definition call_recall (args : Value) : handler Value :=
  let! repo := arg (arg_str args "repo") in
  let budget := arg_budget args 15 in
  let in_flight := arg_bool args "include_in_flight" false in
  let! _ := authorize_read repo ("memory.recall budget=" +:+ dnat budget +:+ " in_flight=" +:+ bool_display in_flight) in
  let! result := read_store (λ t, storyline (with_in_flight recall_default in_flight) t repo budget) in
  let! text := or_panic (render_result result) in
  sret (tool_text text).

(** [Recall::search] with the server's embedder and cache *)
Definition run_search (cfg : recall_cfg) (repo query : string) (budget : nat) : handler RecallResult :=
  λ s,
  let em := default default_embedder (sv_query_embedder s) in
  let '(cache, o) := search cfg em (sv_index_cache s) (sv_store s) repo query budget in
  (set_cache cache s, match o with
                      | None => Err Panic
                      | Some r => map_err (Fail ∘ store_err) r
                      end).

Definition call_search (args : Value) : handler Value :=
  let! repo := arg (arg_str args "repo") in
  let! query := arg (arg_str args "query") in
  let budget := arg_budget args 10 in
  let in_flight := arg_bool args "include_in_flight" false in
  let! _ := authorize_read repo ("memory.search " +:+ str_debug query +:+ " in_flight=" +:+ bool_display in_flight) in
  let! result := run_search (with_in_flight recall_default in_flight) repo query budget in
  let! text := or_panic (if arg_bool args "passages" false then render_passages result else render_result result) in
  sret (tool_text text).

(** Resolve a prefix inside the authorized tenant. *)
Definition resolve_in (repo prefix : string) : handler ContentHash :=
  let! o := read_store (λ t, resolve_prefix_in t repo prefix) in
  match o with
  | None => sfail (Return (no_unique prefix))
  | Some id =>
    let! o := read_store (λ t, ms_get_node t id) in
    match o with
    | Some n => if bool_decide (n_repo n = repo) then sret id else sfail (Return (no_unique prefix))
    | None => sfail (Return (no_unique prefix))
    end
  end.

Definition neighbor_line (repo : string) (nb : NeighborItem) : string :=
  let arrow := match ni_direction nb with Out => "->" | In_ => "<-" end in
  let proposed := if ni_quarantined nb then " (proposed)" else "" in
  let cross := match ni_node nb with
               | Some n => if bool_decide (ri_repo n = repo) then "" else " @" +:+ ri_repo n
               | None => ""
               end in
  let title := match ni_node nb with Some n => flatten_lines (ri_title n) | None => "(dangling)" end in
  "  " +:+ arrow +:+ " [" +:+ EdgeKind_debug (ni_edge_kind nb) +:+ proposed +:+ "]" +:+ cross +:+ " " +:+ title +:+ nl.

Definition call_neighbors (args : Value) : handler Value :=
  let! repo := arg (arg_str args "repo") in
  let! prefix := arg (arg_str args "id_prefix") in
  let budget := arg_budget args 20 in
  let! _ := authorize_read repo ("memory.neighbors " +:+ prefix) in
  let! id := resolve_in repo prefix in
  let! may_read := reader in
  let! neighbors := read_store (λ t, neighbors_readable t id budget (λ r, bool_decide (r = repo) || may_read r)) in
  sret (tool_text ("neighbors of " +:+ short 12 id +:+ ":" +:+ nl +:+ concat_strings (neighbor_line repo <$> neighbors))).

Definition call_as_of (args : Value) : handler Value :=
  let! repo := arg (arg_str args "repo") in
  let! as_of_ms := arg (ok_or (jget args "as_of_ms" ≫= as_u64) (-32602, "missing integer argument 'as_of_ms' (epoch ms)")) in
  let budget := arg_budget args 15 in
  let asserted := arg_bool args "include_asserted" false in
  let! _ := authorize_read repo ("memory.as_of t=" +:+ decimal as_of_ms +:+ " budget=" +:+ dnat budget +:+ " asserted=" +:+ bool_display asserted) in
  let! result := read_store (λ t, as_of (with_asserted recall_default asserted) t repo as_of_ms budget) in
  let scope := if (asserted : bool) then "Derived + Asserted" else "Derived-plane" in
  let! text := or_panic (render_result result) in
  sret (tool_text ("as-of " +:+ decimal as_of_ms +:+ "ms — " +:+ scope +:+ " snapshot:" +:+ nl +:+ text)).

Definition signature_text (s : SignatureStatus) : string :=
  match s with
  | NotApplicableDerived => "derived (trusted by construction)"
  | Valid => "signature VALID"
  | Invalid e => "signature INVALID: " +:+ AssertError_display e
  | Missing => "signature MISSING"
  end.

Definition verify_text (id : ContentHash) (v : Verification) : string :=
  "verify " +:+ short 12 id +:+ ":" +:+ nl +:+ "  trustworthy: " +:+ bool_display (is_trustworthy v) +:+ nl +:+ "  "
  +:+ signature_text (v_signature v) +:+ nl +:+ "  plane: " +:+ Plane_debug (ri_plane (v_item v)) +:+ "  tier: "
  +:+ TrustTier_debug (ri_trust_tier (v_item v)) +:+ "  status: " +:+ Status_debug (ri_status (v_item v)) +:+ nl
  +:+ (if bool_decide (v_superseded_by v = []) then ""
       else "  ⚠ superseded by " +:+ dnat (length (v_superseded_by v)) +:+ " node(s)" +:+ nl)
  +:+ (if bool_decide (v_refuted_by v = []) then ""
       else "  ⚠ refuted/contradicted by " +:+ dnat (length (v_refuted_by v)) +:+ " node(s)" +:+ nl)
  +:+ (if v_contradicted v then "  ⚠ Belnap contradiction (Both) recorded" +:+ nl else "").

Definition call_verify (args : Value) : handler Value :=
  let! repo := arg (arg_str args "repo") in
  let! prefix := arg (arg_str args "id_prefix") in
  let! _ := authorize_read repo ("memory.verify " +:+ prefix) in
  let! id := resolve_in repo prefix in
  let! may_read := reader in
  let! o := read_store (λ t, verify_readable t id may_read) in
  match o with
  | Some v => sret (tool_text (verify_text id v))
  | None => sfail (Return (no_unique prefix))
  end.

Definition gap_line (g : Gap) : string :=
  match g with
  | TruncatedCoverage shown total =>
    "  ⚠ truncated: showing " +:+ dnat shown +:+ " of " +:+ dnat total +:+ " — raise budget or narrow the query" +:+ nl
  | SupersededInResult ids => "  ⚠ " +:+ dnat (length ids) +:+ " superseded node(s) in the result — stale memory" +:+ nl
  | Contradicted id => "  ⚠ contradiction recorded on " +:+ short 12 id +:+ nl
  | AdjacentProposal id => "  ⚠ unconfirmed proposal adjacent to " +:+ short 12 id +:+ " — check memory.neighbors" +:+ nl
  end.

Definition critique_text (repo : string) (c : Critique) : string :=
  "self-critic over '" +:+ repo +:+ "' (completeness " +:+ fixed 2 (cr_completeness c) +:+ "):" +:+ nl
  +:+ match cr_watermark_age_ms c with
      | Some age => "  freshness: index is " +:+ decimal age +:+ "ms behind now" +:+ nl
      | None => ""
      end
  +:+ (if bool_decide (length (cr_gaps c) = O) then "  no completeness gaps found." +:+ nl else "")
  +:+ concat_strings (gap_line <$> cr_gaps c).

Definition call_critique (args : Value) : handler Value :=
  let! repo := arg (arg_str args "repo") in
  let budget := arg_budget args 15 in
  let query := jget args "query" ≫= as_str in
  let det := match query with
             | Some q => "memory.critique search " +:+ str_debug q +:+ " budget=" +:+ dnat budget
             | None => "memory.critique storyline budget=" +:+ dnat budget
             end in
  let! _ := authorize_read repo det in
  let! result := match query with
                 | Some q => run_search recall_default repo q budget
                 | None => read_store (λ t, storyline recall_default t repo budget)
                 end in
  let! now := now_ms in
  let! may_read := reader in
  let! critique := read_store (λ t, critique_readable t result now may_read) in
  sret (tool_text (critique_text repo critique)).

Definition analogy_line (h : AnalogyCandidate) : string :=
  "  " +:+ short 10 (ri_id (ac_item h)) +:+ " " +:+ fixed 3 (ac_score h) +:+ " (cos " +:+ fixed 3 (ac_cosine h) +:+ ", struct "
  +:+ fixed 2 (ac_structural h) +:+ ") [" +:+ discriminant (ri_kind (ac_item h)) +:+ "] @" +:+ ri_repo (ac_item h) +:+ " "
  +:+ ellipsize 60 (flatten_lines (ri_title (ac_item h))) +:+ nl.

(** The tenants other than [repo] that appear in the store and may be read *)
Definition candidate_repos (repo : string) (may_read : string → bool) (all : list MemoryNode) : list string :=
  in_order (filter (λ r, r ≠ repo ∧ may_read r = true) (n_repo <$> all)).

Definition call_analogy (args : Value) : handler Value :=
  let! repo := arg (arg_str args "repo") in
  let! prefix := arg (arg_str args "id_prefix") in
  let budget := Z.to_nat (Z.min (arg_usize args "budget" 5) 50) in
  let! _ := authorize_read repo ("memory.analogy " +:+ prefix) in
  let! id := resolve_in repo prefix in
  let! all := read_store ms_all_nodes in
  let! may_read := reader in
  let repos := candidate_repos repo may_read all in
  if bool_decide (repos = []) then sret (tool_text "no other readable tenants to search for analogues")
  else
    let! hits := read_store (λ t, analogies t id repos budget) in
    sret (tool_text
      ("analogues of " +:+ short 12 id +:+ " across " +:+ dnat (length repos) +:+ " readable tenant(s):" +:+ nl
       +:+ (if bool_decide (length hits = O)
            then "  (none — anchor may lack an embedding, or no candidates share its vector space)" +:+ nl else "")
       +:+ concat_strings (analogy_line <$> hits)
       +:+ "(use memory.propose_edge kind=analogous_to to record one as a quarantined proposal)" +:+ nl)).

(** ** Write tools *)

(** [for r in &repos { if let Err(deny) = self.authorize(..) { return Ok(deny) } }] *)
Definition authorize_all (repos : list string) (det : string) : handler unit :=
  sfold (λ _ r, authorized Write r det) tt repos.

Definition kind_arg (args : Value) : string := default "analogous_to" (rok (arg_str args "kind")).
Definition parse_edge_kind (kind_str : string) : handler EdgeKind :=
  match edge_kind_from_str kind_str with
  | Some k => sret k
  | None => sfail (Return (tool_error ("unknown edge kind '" +:+ kind_str +:+ "'")))
  end.
Definition resolve_endpoint (prefix : string) : handler (ContentHash * MemoryNode) :=
  let! o := resolve_readable prefix in
  match o with Some p => sret p | None => sfail (Return (no_unique prefix)) end.

(** The write of [call_propose_edge], from the gate on *)
Definition record_proposal (a : Asserter) (kind_str : string) (to_node : MemoryNode) (edge : Edge) : handler Value :=
  let '(from_id, to_id, kind) := (e_from edge, e_to edge, e_kind edge) in
  let! _ := lock_writes in
  let! outs := read_store (λ t, ms_out_edges t from_id) in
  if existsb (λ e, bool_decide (e_to e = to_id) && bool_decide (e_kind e = kind) && negb (e_quarantined e)) outs then
    sret (tool_text ("a load-bearing " +:+ kind_str +:+ " edge " +:+ short 10 from_id +:+ " -> " +:+ short 10 to_id
                     +:+ " already exists — left intact (not re-proposed)"))
  else
    let! _ := write_store (ms_add_edge edge) in
    let! _ := if needs_second_party kind
              then write_store (ms_put_meta (n_repo to_node) (inserted_by_key edge) (as_bytes (pubkey_hex a)))
              else sret tt in
    sret (tool_text ("proposed (quarantined) " +:+ short 10 from_id +:+ " -" +:+ kind_str +:+ "-> " +:+ short 10 to_id
                     +:+ " — promote with memory.confirm_edge")).

Definition call_propose_edge (args : Value) : handler Value :=
  let! from_prefix := arg (arg_str args "from_prefix") in
  let! to_prefix := arg (arg_str args "to_prefix") in
  let kind_str := kind_arg args in
  let evidence := rok (arg_str args "evidence") in
  let! kind := parse_edge_kind kind_str in
  let! a := sread (λ s, ok_or (sv_asserter s) (Return (tool_error "server has no signing identity; propose unavailable"))) in
  let! pf := resolve_endpoint from_prefix in
  let '(from_id, from_node) := pf in
  let! pt := resolve_endpoint to_prefix in
  let '(to_id, to_node) := pt in
  let! _ := authorize_all (in_order [n_repo from_node; n_repo to_node]) ("memory.propose_edge " +:+ kind_str) in
  let! now := now_ms in
  record_proposal a kind_str to_node (propose_edge a from_id to_id kind Nlp evidence now).

Definition second_party_text : string :=
  "a supersedes/refutes/contradicts edge on another principal's node must be confirmed by that node's author or by a writer other than its proposer".

(** May [caller] confirm the stored [proposal] on a node of [author]? *)
Definition confirm_allowed (caller : option string) (author : string) (proposal : option Edge) (inserter : option string) : bool :=
  match caller with
  | None => false
  | Some c =>
    bool_decide (c = author) || bool_decide (proposal = None)
    || (match inserter with Some i => negb (bool_decide (i = c)) | None => false end
        && negb (bool_decide (p_asserter ∘ e_provenance <$> proposal = Some c)))
  end.

Definition check_second_party (from_id to_id : ContentHash) (to_node : MemoryNode) (kind : EdgeKind) : handler unit :=
  if needs_second_party kind then
    let! caller := sread (λ s, Ok (pubkey_hex <$> sv_asserter s)) in
    let! outs := read_store (λ t, ms_out_edges t from_id) in
    let proposal := snd <$> list_find (λ e, e_to e = to_id ∧ e_kind e = kind) outs in
    let! inserter := match proposal with
                     | Some p =>
                       let! b := read_store (λ t, ms_get_meta t (inserted_by_key p)) in
                       sret (b ≫= from_utf8)
                     | None => sret None
                     end in
    if confirm_allowed caller (n_author to_node) proposal inserter then sret tt
    else sfail (Return (tool_error second_party_text))
  else sret tt.

(** The promotion itself *)
Definition promote (kind_str : string) (from_id to_id : ContentHash) (kind : EdgeKind) : handler Value :=
  let! now := now_ms in
  λ s, match on_store (ms_confirm_edge from_id to_id kind now) s with
       | (s, Ok ConfirmOutcome.Confirmed) =>
         (s, Ok (tool_text ("confirmed " +:+ short 10 from_id +:+ " -" +:+ kind_str +:+ "-> " +:+ short 10 to_id +:+ " (now load-bearing)")))
       | (s, Ok ConfirmOutcome.AlreadyConfirmed) => (s, Ok (tool_text "edge is already load-bearing"))
       | (s, Ok ConfirmOutcome.NotFound) => (s, Ok (tool_error "no such edge"))
       | (s, Err e) => (s, Ok (tool_error ("confirm rejected: " +:+ SupersessionError_display e)))
       end.

Definition call_confirm_edge (args : Value) : handler Value :=
  let! from_prefix := arg (arg_str args "from_prefix") in
  let! to_prefix := arg (arg_str args "to_prefix") in
  let kind_str := kind_arg args in
  let! kind := parse_edge_kind kind_str in
  let! pf := resolve_endpoint from_prefix in
  let '(from_id, from_node) := pf in
  let! pt := resolve_endpoint to_prefix in
  let '(to_id, to_node) := pt in
  let! _ := authorize_all (in_order [n_repo from_node; n_repo to_node]) ("memory.confirm_edge " +:+ kind_str) in
  let! _ := lock_writes in
  let! _ := check_second_party from_id to_id to_node kind in
  promote kind_str from_id to_id kind.

(** [embed_for_write]: the vector, or the reason there is none *)
Definition embed_for_write (s : MemoryMcpServer) (content : string) : option VersionedVector * option string :=
  match em_embed (default default_embedder (sv_query_embedder s)) content with
  | Ok v => (Some v, None)
  | Err e => (None, Some (EmbedError_display e))
  end.

Definition call_assert (args : Value) : handler Value :=
  let! repo := arg (arg_str args "repo") in
  let! content := arg (arg_str args "content") in
  let kind_str := default "rationale" (rok (arg_str args "kind")) in
  let! a := sread (λ s, ok_or (sv_asserter s) (Return (tool_error "server has no signing identity; assert unavailable"))) in
  let! _ := authorized Write repo ("memory.assert " +:+ kind_str) in
  let! now := now_ms in
  let valid_from := default now (jget args "valid_from" ≫= as_u64) in
  let! pe := sread (λ s, Ok (embed_for_write s content)) in
  let '(embedding, embed_err) := pe in
  let node := assert_node_with a repo (node_kind_from_str kind_str) content valid_from now embedding in
  let! _ := lock_writes in
  let! _ := write_store (ms_put_node node) in
  let warning := match embed_err with
                 | Some e => " — WARNING: not embedded (" +:+ e +:+ "); this node will NOT be findable by memory.search until backfilled"
                 | None => ""
                 end in
  let! recipient := sread (λ s, Ok (g_recipient (sv_grant s))) in
  sret (tool_text ("asserted " +:+ short 12 (compute_id node) +:+ " [" +:+ discriminant (n_kind node) +:+ "] in " +:+ repo
                   +:+ " by " +:+ recipient +:+ warning)).

(** The tenant of an edge endpoint: from the diff's own nodes, else from the store *)
Definition endpoint_repo (in_diff : gmap ContentHash string) (endpoint : ContentHash) : handler string :=
  match in_diff !! endpoint with
  | Some r => sret r
  | None =>
    let! o := read_store (λ t, ms_get_node t endpoint) in
    match o with
    | Some n => sret (n_repo n)
    | None => sfail (Return (tool_error ("edge references unknown node " +:+ short 12 endpoint +:+ "; cannot authorize")))
    end
  end.

(** The tenants a diff touches *)
Definition touched_repos (diff : MemoryDiff) : handler (list string) :=
  let in_diff := foldl (λ m n, <[compute_id n := n_repo n]> m) ∅ (d_nodes diff) in
  let! rs := sfold (λ rs e,
    let! rf := endpoint_repo in_diff (e_from e) in
    let! rt := endpoint_repo in_diff (e_to e) in
    sret (rs ++ [rf; rt])) (n_repo <$> d_nodes diff) (d_edges diff) in
  sret (in_order rs).

Definition diff_text (report : MergeReport) : string :=
  let base := "merged " +:+ dnat (r_nodes report) +:+ " nodes, " +:+ dnat (r_edges report) +:+ " edges" in
  if bool_decide (0 < r_unembedded report)%nat then
    base +:+ " — " +:+ dnat (r_unembedded report)
    +:+ " relayed node(s) stored WITHOUT their embedding (only the author may set it); not findable by memory.search until the author merges it or a backfill runs"
  else base.

Definition parse_diff (diff_json : string) : handler MemoryDiff :=
  if bool_decide (MAX_DIFF_BYTES < length (as_bytes diff_json))%nat then
    sfail (Return (tool_error ("diff too large (" +:+ dnat (length (as_bytes diff_json)) +:+ " bytes > " +:+ dnat MAX_DIFF_BYTES +:+ " cap)")))
  else match from_json_str diff_json with
       | Err e => sfail (Return (tool_error ("malformed diff: " +:+ AssertError_display (AssertSerde e))))
       | Ok diff =>
         if bool_decide (MAX_DIFF_NODES < length (d_nodes diff))%nat || bool_decide (MAX_DIFF_EDGES < length (d_edges diff))%nat then
           sfail (Return (tool_error ("diff exceeds size cap (" +:+ dnat (length (d_nodes diff)) +:+ " nodes, "
                                      +:+ dnat (length (d_edges diff)) +:+ " edges)")))
         else if bool_decide (length (d_nodes diff) = O) && bool_decide (length (d_edges diff) = O) then
           sfail (Return (tool_error "empty diff (no nodes, no edges)"))
         else sret diff
       end.

Definition call_merge_diff (args : Value) : handler Value :=
  let! diff_json := arg (arg_str args "diff") in
  let! diff := parse_diff diff_json in
  let! repos := touched_repos diff in
  let! _ := authorize_all repos ("memory.merge_diff (" +:+ dnat (length (d_nodes diff)) +:+ " nodes, "
                                 +:+ dnat (length (d_edges diff)) +:+ " edges)") in
  let! _ := lock_writes in
  let! caller := sread (λ s, Ok (pubkey_hex <$> sv_asserter s)) in
  let! now := now_ms in
  λ s, match on_store (apply_diff diff caller now) s with
       | (s, Ok report) => (s, Ok (tool_text (diff_text report)))
       | (s, Err e) => (s, Ok (tool_error ("merge rejected: " +:+ AssertError_display e)))
       end.

(** ** Requests *)

Definition tools : list (string * (Value → handler Value)) :=
  [("memory.recall", call_recall); ("memory.search", call_search); ("memory.neighbors", call_neighbors);
   ("memory.as_of", call_as_of); ("memory.verify", call_verify); ("memory.critique", call_critique);
   ("memory.analogy", call_analogy); ("memory.assert", call_assert); ("memory.merge_diff", call_merge_diff);
   ("memory.propose_edge", call_propose_edge); ("memory.confirm_edge", call_confirm_edge)].

Definition tools_call (params : Value) : handler Value :=
  let! name := arg (ok_or (jget params "name" ≫= as_str) (-32602, "missing tool name")) in
  let args := default (obj []) (jget params "arguments") in
  match list_find (λ p, p.1 = name) tools with
  | Some (_, (_, call)) => call args
  | None => sfail (Fail (-32602, "unknown tool: " +:+ name))
  end.

Definition dispatch (method : string) (params : Value) : handler Value :=
  if bool_decide (method = "initialize") then sret (initialize params)
  else if bool_decide (method = "tools/list") then sret tools_list
  else if bool_decide (method = "tools/call") then tools_call params
  else if bool_decide (method = "ping") then sret (obj [])
  else sfail (Fail (-32601, "method not found: " +:+ method)).

(** The reply to an outcome; [None] is a panic. *)
Definition reply (id : option Value) (r : result Exit Value) : option (option string) :=
  match r with
  | Ok v | Err (Return v) => Some ((λ id, ok_response id v) <$> id)
  | Err (Fail (code, msg)) => Some ((λ id, err_response id code msg) <$> id)
  | Err Panic => None
  end.

(** The per-request grant of [_meta], or the error that ends the request *)
Definition meta_grant (s : MemoryMcpServer) (meta : option Value) : result rpc_error (option CapabilityGrant) :=
  match meta ≫= λ m, jget m GRANT_META_KEY with
  | None => Ok None
  | Some raw =>
    match from_value raw with
    | Err e => Err (-32602, "invalid _meta grant: " +:+ e)
    | Ok g =>
      match verify_signature g with
      | Err e => Err (GRANT_REJECTED, "grant rejected: " +:+ AuthzError_display e)
      | Ok _ =>
        if negb (bool_decide (g_issuer_pubkey g = g_issuer_pubkey (sv_grant s)))
        then Err (GRANT_REJECTED, "grant rejected: issuer is not the trusted grant root")
        else if negb (bool_decide (g_recipient g = g_recipient (sv_grant s)))
        then Err (GRANT_REJECTED, "grant rejected: recipient is not the authenticated principal")
        else Ok (Some g)
      end
    end
  end.

Definition handle_line (s : MemoryMcpServer) (line : string) : MemoryMcpServer * option (option string) :=
  match json_from_str line with
  | Err e => (s, Some (Some (err_response JNull (-32700) ("parse error: " +:+ e))))
  | Ok req =>
    let id := jget req "id" in
    let method := default "" (jget req "method" ≫= as_str) in
    let params := default JNull (jget req "params") in
    let meta := jget params "_meta" in
    let trace := (meta ≫= λ m, jget m "traceparent") ≫= as_str in
    match meta_grant s meta with
    | Err (code, msg) => (set_request None (sv_req_grant s) s, Some ((λ id, err_response id code msg) <$> id))
    | Ok g =>
      let s := set_request trace (match g with Some g => Some g | None => sv_req_grant s end) s in
      let '(s, outcome) := dispatch method params s in
      match outcome with
      | Err Panic => (s, None)
      | _ => (set_request None (match g with Some _ => None | None => sv_req_grant s end) s, reply id outcome)
      end
    end
  end.

(** ** Connections *)

(** The line loop of [serve_connection]: the lines the reader yields, the replies written;
    [write k] is the error of the [k]-th write, if it fails.  The last component is how the
    loop ended, [None] for a panic. *)
Fixpoint serve_connection (write : nat → option string) (s : MemoryMcpServer) (out : list string) (input : list (result string string))
    : MemoryMcpServer * list string * option (result string unit) :=
  match input with
  | [] => (s, out, Some (Ok tt))
  | Err e :: _ => (s, out, Some (Err e))
  | Ok line :: input =>
    if trim_is_empty (as_bytes line) then serve_connection write s out input
    else
      match handle_line s line with
      | (s, None) => (s, out, None)
      | (s, Some None) => serve_connection write s out input
      | (s, Some (Some resp)) =>
        match write (length out) with
        | Some e => (s, out, Some (Err e))
        | None => serve_connection write s (out ++ [resp]) input
        end
      end
  end.
End mcp.
