(* ===== verification/McpProps.v ===== *)
(** * The MCP server is gated, audited and scoped *)

From S2P Require Import Prelude Bytes Externs Text Str Belnap Identity Node Float Edge Grant AuditLog Kv Shred Store StoreContents.
From S2P Require Import Supersession StoreInterface Assert Index Hnsw Query Search Display Chunk McpRender Mcp.

Section mcp_props.
Context {T : Type} `{MemStore T, Blake3, Hex, Ed25519, Serde Watermark, Serde AuditRecord, Serde Head}.
Context `{Unicode, FloatNan, Ln, SliceSort, CharTables, SerdeJson, FromJson CapabilityGrant, FromJson MemoryDiff}.
Context (clock : nat → Timestamp) (filter_clock : nat → string → Timestamp) (fs : nat → IoOracle).

Abbreviation server := (MemoryMcpServer (T := T)).
Implicit Types (s : server).

(** ** What a request may change *)

(** Everything but the store, the cache, the audit chain and the step counter *)
Definition same_session s s' : Prop :=
  sv_grant s' = sv_grant s ∧ sv_asserter s' = sv_asserter s ∧ sv_query_embedder s' = sv_query_embedder s ∧
  sv_write_gate s' = sv_write_gate s ∧ sv_audit_poisoned s' = sv_audit_poisoned s ∧
  sv_req_trace s' = sv_req_trace s ∧ sv_req_grant s' = sv_req_grant s.

(** A record [authorize] may add: by the session's principal, and a permitted operation
    unless it records a denial *)
Definition authentic s (r : AuditRecord) : Prop :=
  actor r = g_recipient (sv_grant s) ∧
  match event r with
  | EvRead => decision s (ar_resource_id r) Read (timestamp_ms r) = Ok tt
  | EvWrite => decision s (ar_resource_id r) Write (timestamp_ms r) = Ok tt
  | EvDenied => True
  end.

(** The session goes on with [rs] more audit records. *)
Definition extends s s' (rs : list AuditRecord) : Prop :=
  same_session s s' ∧ records (sv_audit s') = records (sv_audit s) ++ rs ∧ Forall (authentic s) rs ∧
  (chain_wf (sv_audit s) → chain_wf (sv_audit s')).

Lemma same_session_refl s : same_session s s.
Proof. by split_and!. Qed.
Lemma same_session_trans s1 s2 s3 : same_session s1 s2 → same_session s2 s3 → same_session s1 s3.
Proof. unfold same_session. naive_solver congruence. Qed.
Lemma authentic_same s s' r : same_session s s' → authentic s' r → authentic s r.
Proof.
  intros (Hg & _ & _ & _ & _ & _ & Hr). unfold authentic, decision. by rewrite Hg, Hr.
Qed.
Lemma extends_refl s : extends s s [].
Proof. split_and!; try done. by rewrite app_nil_r. Qed.
Lemma extends_trans s1 s2 s3 rs ss : extends s1 s2 rs → extends s2 s3 ss → extends s1 s3 (rs ++ ss).
Proof.
  intros (Hs & Hr & Hf & Hw) (Hs' & Hr' & Hf' & Hw'). split_and!.
  - by eapply same_session_trans.
  - by rewrite Hr', Hr, app_assoc.
  - apply Forall_app. split; [done|]. eapply Forall_impl; [done|]. intros r. by apply authentic_same.
  - auto.
Qed.
(** A change of the parts [extends] does not look at *)
Lemma extends_quiet s s' : same_session s s' → sv_audit s' = sv_audit s → extends s s' [].
Proof. intros Hs Ha. split_and!; [done|by rewrite Ha, app_nil_r|done|by rewrite Ha]. Qed.

(** ** Triples over one request *)

Section triples.
Context (s0 : server).

(** No write yet *)
Definition quiet s : Prop := (∃ rs, extends s0 s rs) ∧ sv_store s = sv_store s0.
(** A permitted write has been recorded. *)
Definition armed s : Prop := ∃ rs, extends s0 s rs ∧ Exists (λ r, event r = EvWrite) rs.
(** How a request may end *)
Definition settled s : Prop := quiet s ∨ armed s.

Definition triple {A} (P : server → Prop) (m : stm server Exit A) (Q : A → server → Prop) : Prop :=
  ∀ s s' r, P s → m s = (s', r) → match r with Ok a => Q a s' | Err _ => settled s' end.

Lemma triple_bind {A B} P (m : stm server Exit A) Q (k : A → stm server Exit B) R :
  triple P m Q → (∀ a, triple (Q a) (k a) R) → triple P (sbind m k) R.
Proof.
  intros Hm Hk s s' r HP. unfold sbind. destruct (m s) as [s1 [a|e]] eqn:E.
  - intros Hr. exact (Hk a s1 s' r (Hm _ _ _ HP E) Hr).
  - intros [= <- <-]. exact (Hm _ _ _ HP E).
Qed.

(** The two stages of a request; reads keep either. *)
Definition stage (P : server → Prop) : Prop := P = quiet ∨ P = armed.

Lemma stage_settled P s : stage P → P s → settled s.
Proof. intros [-> | ->]; [by left|by right]. Qed.

(** A step that leaves the session, the store and the chain *)
Lemma stage_step P s s' : stage P → same_session s s' → sv_store s' = sv_store s → sv_audit s' = sv_audit s → P s → P s'.
Proof.
  intros HP Hs Ht Ha. assert (∀ rs, extends s0 s rs → extends s0 s' rs) as Hx.
  { intros rs Hr. rewrite <-(app_nil_r rs). eapply extends_trans; [done|]. by apply extends_quiet. }
  destruct HP as [-> | ->].
  - intros [[rs Hr] Hst]. split; [eauto|congruence].
  - intros (rs & Hr & He). exists rs. auto.
Qed.

Lemma triple_ret {A} P (a : A) Q : (∀ s, P s → Q a s) → triple P (sret a) Q.
Proof. intros Hq s s' r HP [= <- <-]. auto. Qed.
Lemma triple_ret_settled {A} P (a : A) : stage P → triple P (sret a) (λ _, settled).
Proof. intros HP. apply triple_ret. intros s. by apply stage_settled. Qed.
Lemma triple_fail {A} P e Q : stage P → triple P (sfail e : stm server Exit A) Q.
Proof. intros HP s s' r Hs [= <- <-]. by apply (stage_settled P). Qed.
Lemma triple_read {A} P (f : server → result Exit A) : stage P → triple P (sread f) (λ _, P).
Proof. intros HP s s' r Hs [= <- <-]. destruct (f s); [done|by apply (stage_settled P)]. Qed.
Lemma triple_lift {A} P (x : result Exit A) : stage P → triple P (slift x) (λ _, P).
Proof. intros HP s s' r Hs [= <- <-]. destruct x; [done|by apply (stage_settled P)]. Qed.
Lemma triple_now P : stage P → triple P (now_ms clock) (λ _, P).
Proof. intros HP s s' r Hs [= <- <-]. by apply (stage_step P s). Qed.
Lemma triple_reader P : stage P → triple P (reader filter_clock) (λ _, P).
Proof. intros HP s s' r Hs [= <- <-]. by apply (stage_step P s). Qed.
Lemma triple_read_store {A} P (f : T → result StoreError A) : stage P → triple P (read_store f) (λ _, P).
Proof. apply triple_read. Qed.
Lemma triple_arg {A} P (x : result rpc_error A) : stage P → triple P (arg x) (λ _, P).
Proof. apply triple_lift. Qed.
Lemma triple_lock P : stage P → triple P lock_writes (λ _, P).
Proof. apply triple_read. Qed.
Lemma triple_or_panic {A} P (o : option A) : stage P → triple P (or_panic o) (λ _, P).
Proof. intros HP. destruct o; [by apply triple_ret|by apply triple_fail]. Qed.
Lemma triple_search P cfg repo query budget : stage P → triple P (run_search cfg repo query budget) (λ _, P).
Proof.
  intros HP s s' r Hs. unfold run_search. destruct (search _ _ _ _ _ _ _) as [cache o]. intros [= <- <-].
  assert (P (set_cache cache s)) as Hp by (by apply (stage_step P s)).
  destruct o as [[x|e]|]; [done|by apply (stage_settled P)..].
Qed.
(** Store writes come after a recorded authorization. *)
Lemma armed_store t s : armed s → armed (set_store t s).
Proof.
  intros (rs & Hr & He). exists rs. split; [|done]. rewrite <-(app_nil_r rs).
  eapply extends_trans; [done|]. by apply extends_quiet.
Qed.
Lemma triple_write {A} (m : stm T StoreError A) : triple armed (write_store m) (λ _, armed).
Proof.
  intros s s' r Hs. unfold write_store, smap_err, on_store. destruct (m (sv_store s)) as [t x]. intros [= <- <-].
  destruct x; [by apply armed_store|right; by apply armed_store].
Qed.
Lemma triple_weaken {A} P (m : stm server Exit A) Q R : triple P m Q → (∀ a s, Q a s → R a s) → triple P m R.
Proof. intros Hm HQ s s' [a|e] HP E; specialize (Hm s s' _ HP E); auto. Qed.
End triples.

(** ** Authorization *)

Definition traced s (det : string) : string :=
  match sv_req_trace s with Some t => det +:+ " [trace=" +:+ t +:+ "]" | None => det end.

(** The audit append of one step *)
Lemma audit_append_spec ev res det now s :
  (ev ≠ EvDenied → decision s res (match ev with EvWrite => Write | _ => Read end) now = Ok tt) →
  ∃ s', sv_store s' = sv_store s ∧ sv_index_cache s' = sv_index_cache s ∧
    ((∃ rec, audit_append fs ev res det now s = (s', Ok tt) ∧ extends s s' [rec] ∧
        rec = append_record (sv_audit s) ev (g_recipient (sv_grant s)) res det now) ∨
     (∃ e, audit_append fs ev res det now s = (s', Err e) ∧ extends s s' [] ∧
        (append (fs (sv_step s)) (sv_audit s) ev (g_recipient (sv_grant s)) res det now (sv_audit_disk s)).2 = Err e)).
Proof.
  intros Hd. unfold audit_append.
  destruct (append (fs (sv_step s)) (sv_audit s) ev (g_recipient (sv_grant s)) res det now (sv_audit_disk s)) as [d [[c rec]|e]] eqn:E.
  - apply append_ok in E as [-> ->].
    exists (next_step (set_audit (grow (sv_audit s) (append_record (sv_audit s) ev (g_recipient (sv_grant s)) res det now)) d s)).
    split; [done|]. split; [done|]. left.
    exists (append_record (sv_audit s) ev (g_recipient (sv_grant s)) res det now). split; [done|]. split; [|done].
    split; [by split_and!|]. split; [done|]. split; [|by apply grow_wf]. apply Forall_singleton. split; [done|]. cbn. by destruct ev; try apply Hd.
  - exists (next_step (set_audit (sv_audit s) d s)). split; [done|]. split; [done|]. right. exists e. split; [done|]. split; [by apply extends_quiet|done].
Qed.

(** What [authorize] does in each case *)
Inductive verdict (op : Op) (repo det : string) s : server → result Value unit → Prop :=
| verdict_allowed s' rec :
    sv_audit_poisoned s = false → decision s (memory_resource repo) op (clock (sv_step s)) = Ok tt → extends s s' [rec] →
    event rec = event_of op → ar_resource_id rec = memory_resource repo → detail rec = traced s det →
    timestamp_ms rec = clock (sv_step s) → sequence rec = next_seq (sv_audit s) →
    sv_store s' = sv_store s → verdict op repo det s s' (Ok tt)
| verdict_denied s' rec e :
    sv_audit_poisoned s = false → decision s (memory_resource repo) op (clock (sv_step s)) = Err e → extends s s' [rec] →
    event rec = EvDenied → ar_resource_id rec = memory_resource repo →
    detail rec = traced s det +:+ ": " +:+ AuthzError_display e →
    sv_store s' = sv_store s → verdict op repo det s s' (Err (tool_error ("authorization denied: " +:+ AuthzError_display e)))
| verdict_unaudited s' msg :
    extends s s' [] → sv_store s' = sv_store s →
    (sv_audit_poisoned s = true ∨ ∃ d e ev det, append (fs (S (sv_step s))) (sv_audit s) ev (g_recipient (sv_grant s))
                                   (memory_resource repo) det (clock (sv_step s)) (sv_audit_disk s) = (d, Err e)) →
    verdict op repo det s s' (Err (tool_error msg)).

Lemma authorize_verdict op repo det s :
  ∃ s' r, authorize clock fs op repo det s = (s', r) ∧ verdict op repo det s s' r.
Proof.
  unfold authorize, sbind, now_ms. set (s1 := next_step s).
  assert (extends s s1 []) as Hq by (by apply extends_quiet). assert (∀ r s', extends s1 s' r → extends s s' r) as Hx.
  { intros r s' Hr. change r with ([] ++ r). by eapply extends_trans. }
  change (sv_audit_poisoned s1) with (sv_audit_poisoned s). change (sv_req_trace s1) with (sv_req_trace s). fold (traced s det).
  destruct (sv_audit_poisoned s) eqn:Hp; [eexists _, _; split; [done|]; eapply verdict_unaudited; auto|].
  change (decision s1 ?a ?b ?c) with (decision s a b c).
  destruct (decision s (memory_resource repo) op (clock (sv_step s))) as [[]|e] eqn:Hd.
  - destruct (audit_append_spec (event_of op) (memory_resource repo) (traced s det) (clock (sv_step s)) s1)
      as (s' & Hst & _ & [(rec & Ha & He & ->)|(e & Ha & He & Hf)]); [by destruct op| |].
    + unfold smap_err. rewrite Ha. eexists _, _. split; [done|]. cbn. eapply verdict_allowed; eauto.
    + unfold smap_err. rewrite Ha. eexists _, _. split; [done|]. cbn. eapply verdict_unaudited; eauto. right.
      destruct (append _ _ _ _ _ _ _ _) as [d r'] eqn:E. cbn in Hf. subst. do 4 eexists. exact E.
  - destruct (audit_append_spec EvDenied (memory_resource repo) (traced s det +:+ ": " +:+ AuthzError_display e) (clock (sv_step s)) s1)
      as (s' & Hst & _ & [(rec & Ha & He & ->)|(ae & Ha & He & Hf)]); [done| |]; rewrite Ha.
    + eexists _, _. split; [done|]. eapply verdict_denied; eauto.
    + eexists _, _. split; [done|]. eapply verdict_unaudited; eauto. right.
      destruct (append _ _ _ _ _ _ _ _) as [d r'] eqn:E. cbn in Hf. subst. do 4 eexists. exact E.
Qed.

Lemma stage_extends s0 P s s' rs : stage s0 P → extends s s' rs → sv_store s' = sv_store s → P s → P s'.
Proof.
  intros [-> | ->] Hx Ht.
  - intros [[rs0 Hr] Hst]. split; [|congruence]. exists (rs0 ++ rs). by eapply extends_trans.
  - intros (rs0 & Hr & He). exists (rs0 ++ rs). split; [by eapply extends_trans|]. apply Exists_app. by left.
Qed.

Lemma armed_by s0 P s s' rec : stage s0 P → extends s s' [rec] → event rec = EvWrite → P s → armed s0 s'.
Proof.
  intros HP Hx He Hs. assert (∃ rs, extends s0 s rs) as [rs Hr] by (destruct HP as [-> | ->]; [apply Hs|destruct Hs as (rs & ? & _); eauto]).
  exists (rs ++ [rec]). split; [by eapply extends_trans|]. apply Exists_app. right. by constructor.
Qed.

Lemma triple_authorized s0 P op repo det : stage s0 P →
  triple s0 P (authorized clock fs op repo det) (λ _, match op with Read => P | Write => armed s0 end).
Proof.
  intros HP s s' r Hs. unfold authorized, smap_err.
  destruct (authorize_verdict op repo det s) as (s1 & r1 & -> & Hv). intros [= <- <-].
  destruct Hv as [s1 rec _ _ Hx He _ _ _ _ Ht|s1 rec e _ _ Hx _ _ _ Ht|s1 msg Hx Ht _]; cbn.
  - destruct op; [by eapply stage_extends|by eapply armed_by].
  - eapply stage_settled; [done|]. by eapply stage_extends.
  - eapply stage_settled; [done|]. by eapply stage_extends.
Qed.
Lemma triple_authorize_read s0 P repo det : stage s0 P → triple s0 P (authorize_read clock fs repo det) (λ _, P).
Proof. apply (triple_authorized s0 P Read). Qed.

Lemma triple_authorize_all_armed s0 repos det :
  triple s0 (armed s0) (authorize_all clock fs repos det) (λ _, armed s0).
Proof.
  unfold authorize_all. induction repos as [|r repos IH]; cbn [sfold]; [by apply triple_ret|].
  eapply triple_bind; [apply (triple_authorized s0 (armed s0) Write); by right|]. intros []. exact IH.
Qed.
Lemma triple_authorize_all s0 repos det : repos ≠ [] →
  triple s0 (quiet s0) (authorize_all clock fs repos det) (λ _, armed s0).
Proof.
  destruct repos as [|r repos]; [done|]. intros _. unfold authorize_all. cbn [sfold].
  eapply triple_bind; [apply (triple_authorized s0 (quiet s0) Write); by left|]. intros []. apply triple_authorize_all_armed.
Qed.

Lemma in_order_elem rs r : r ∈ in_order rs ↔ r ∈ rs.
Proof. unfold in_order. rewrite elem_of_sort_by_key. apply elem_of_remove_dups. Qed.
Lemma in_order_nonempty rs : rs ≠ [] → in_order rs ≠ [].
Proof. destruct rs as [|r rs]; [done|]. intros _ E. assert (r ∈ in_order (r :: rs)) as Hr by (apply in_order_elem; by left). rewrite E in Hr. by apply not_elem_of_nil in Hr. Qed.

(** *** The handlers *)

Ltac stg := solve [assumption | by left | by right].
Ltac step1 :=
  match goal with
  | |- triple _ _ (sbind _ _) _ => eapply triple_bind; [|intros ?]
  | |- triple _ _ (read_store _) _ => apply triple_read_store; stg
  | |- triple _ _ (arg _) _ => apply triple_arg; stg
  | |- triple _ _ (sread _) _ => apply triple_read; stg
  | |- triple _ _ (now_ms _) _ => apply triple_now; stg
  | |- triple _ _ (reader _) _ => apply triple_reader; stg
  | |- triple _ _ lock_writes _ => apply triple_lock; stg
  | |- triple _ _ (or_panic _) _ => apply triple_or_panic; stg
  | |- triple _ _ (run_search _ _ _ _) _ => apply triple_search; stg
  | |- triple _ _ (authorize_read _ _ _ _) _ => apply triple_authorize_read; stg
  | |- triple _ _ (write_store _) _ => apply triple_write
  | |- triple _ _ (sfail _) _ => apply triple_fail; stg
  | |- triple _ ?P (sret _) (λ _, ?P) => apply triple_ret; done
  | |- triple _ _ (sret _) (λ _, settled _) => apply triple_ret_settled; stg
  | |- triple _ _ (match ?x with _ => _ end) _ => destruct x
  end.
Ltac walk := repeat (cbn beta; step1).

Lemma triple_resolve_in s0 P repo prefix : stage s0 P → triple s0 P (resolve_in repo prefix) (λ _, P).
Proof. intros HP. unfold resolve_in. walk. Qed.

Lemma triple_read_tool s0 args (call : Value → stm server Exit Value) :
  call ∈ [call_recall clock fs; call_search clock fs; call_neighbors clock filter_clock fs; call_as_of clock fs;
          call_verify clock filter_clock fs; call_critique clock filter_clock fs; call_analogy clock filter_clock fs] →
  triple s0 (quiet s0) (call args) (λ _, quiet s0).
Proof.
  assert (stage s0 (quiet s0)) as HP by (by left).
  rewrite !elem_of_cons. intros [->|[->|[->|[->|[->|[->|[->|Hn]]]]]]]; [..|by apply not_elem_of_nil in Hn].
  all: unfold call_recall, call_search, call_neighbors, call_as_of, call_verify, call_critique, call_analogy.
  all: repeat (cbn beta; first [step1 | eapply triple_resolve_in; stg]).
Qed.

(** A fact about the value returned rides along. *)
Lemma triple_pure {A B} s0 P (m : stm server Exit A) (F : A → Prop) (k : A → stm server Exit B) R :
  triple s0 P m (λ a s, P s ∧ F a) → (∀ a, F a → triple s0 P (k a) R) → triple s0 P (sbind m k) R.
Proof. intros Hm Hk. eapply triple_bind; [exact Hm|]. intros a s s' r [HP HF]. by apply Hk. Qed.

Lemma triple_resolve_endpoint s0 P prefix : stage s0 P → triple s0 P (resolve_endpoint filter_clock prefix) (λ _, P).
Proof.
  intros HP. unfold resolve_endpoint. apply (triple_bind s0 P _ (λ _, P)); [unfold resolve_readable|intros o]; walk.
Qed.
Lemma triple_parse_kind s0 P k : stage s0 P → triple s0 P (parse_edge_kind k) (λ _, P).
Proof. intros HP. unfold parse_edge_kind. walk. Qed.
Lemma triple_second_party s0 P f t n k : stage s0 P → triple s0 P (check_second_party f t n k) (λ _, P).
Proof.
  intros HP. unfold check_second_party. destruct (needs_second_party k); [|walk]. do 2 (eapply triple_bind; [walk|intros ?]).
  apply (triple_bind s0 P _ (λ _, P)); [walk|intros i]. walk.
Qed.

Lemma triple_parse_diff s0 P j : stage s0 P →
  triple s0 P (parse_diff j) (λ d s, P s ∧ (d_nodes d ≠ [] ∨ d_edges d ≠ [])).
Proof.
  intros HP. unfold parse_diff. case_bool_decide; [by apply triple_fail|]. destruct (from_json_str j) as [d|]; [|by apply triple_fail].
  destruct (_ || _); [by apply triple_fail|]. destruct (bool_decide (length (d_nodes d) = 0%nat) && _) eqn:E; [by apply triple_fail|].
  apply triple_ret. intros s Hs. split; [done|]. apply andb_false_iff in E as [E%bool_decide_eq_false|E%bool_decide_eq_false].
  - left. by intros Hn%length_zero_iff_nil.
  - right. by intros Hn%length_zero_iff_nil.
Qed.

(** What the loop over the edges collects *)
Lemma endpoint_repo_quiet s0 P m x : stage s0 P → triple s0 P (endpoint_repo m x) (λ _, P).
Proof. intros HP. unfold endpoint_repo. walk. Qed.

Lemma triple_touched s0 P diff : stage s0 P → d_nodes diff ≠ [] ∨ d_edges diff ≠ [] →
  triple s0 P (touched_repos diff) (λ rs s, P s ∧ rs ≠ []).
Proof.
  intros HP Hne. unfold touched_repos. set (m := foldl _ _ _). eapply (triple_pure s0 P _ (λ rs, rs ≠ [])).
  - assert (n_repo <$> d_nodes diff ≠ [] ∨ d_edges diff ≠ []) as Hne' by (destruct Hne as [Hn|]; [left; by destruct (d_nodes diff)|by right]).
    revert Hne'. generalize (n_repo <$> d_nodes diff). clear Hne. induction (d_edges diff) as [|e es IH]; intros rs Hr.
    + apply triple_ret. intros s Hs. split; [done|]. by destruct Hr.
    + cbn [sfold]. apply (triple_pure s0 P _ (λ rs', rs' ≠ [])); [|intros rs' Hrs'; apply IH; by left].
      do 2 (eapply triple_bind; [by apply endpoint_repo_quiet|intros ?]). apply triple_ret. intros s Hs. split; [done|]. by destruct rs.
  - intros rs Hrs. apply triple_ret. intros s Hs. split; [done|]. by apply in_order_nonempty.
Qed.

Lemma triple_on_store {E A} s0 (m : stm T E A) (ok : A → Value) (err : E → Value) :
  triple s0 (armed s0) (λ s, match on_store m s with (s', Ok x) => (s', Ok (ok x)) | (s', Err e) => (s', Ok (err e)) end) (λ _, settled s0).
Proof.
  intros s s' r Hs. unfold on_store. destruct (m (sv_store s)) as [t [x|e]]; intros [= <- <-]; right; by apply armed_store.
Qed.

Lemma triple_write_tool s0 args (call : Value → stm server Exit Value) :
  call ∈ [call_assert clock fs; call_merge_diff clock fs; call_propose_edge clock filter_clock fs; call_confirm_edge clock filter_clock fs] →
  triple s0 (quiet s0) (call args) (λ _, settled s0).
Proof.
  rewrite !elem_of_cons. intros [->|[->|[->|[->|Hn]]]]; [..|by apply not_elem_of_nil in Hn].
  - unfold call_assert. do 3 (eapply triple_bind; [walk|intros ?]).
    eapply triple_bind; [apply (triple_authorized s0 (quiet s0) Write); stg|intros ?]. walk.
  - unfold call_merge_diff. eapply triple_bind; [walk|intros j]. eapply triple_pure; [apply triple_parse_diff; stg|intros diff Hd].
    eapply triple_pure; [by apply triple_touched; [stg|]|intros rs Hrs].
    eapply triple_bind; [by apply triple_authorize_all|intros ?]. do 3 (eapply triple_bind; [walk|intros ?]).
    apply (triple_on_store s0 (apply_diff diff _ _) (λ report, tool_text (diff_text report))
             (λ e, tool_error ("merge rejected: " +:+ AssertError_display e))).
  - unfold call_propose_edge. do 2 (eapply triple_bind; [walk|intros ?]).
    eapply triple_bind; [apply triple_parse_kind; stg|intros kind]. eapply triple_bind; [walk|intros ?].
    do 2 (eapply triple_bind; [apply triple_resolve_endpoint; stg|intros [? ?]]).
    eapply triple_bind; [by apply triple_authorize_all, in_order_nonempty|intros ?]. eapply triple_bind; [walk|intros ?].
    unfold record_proposal. cbn [e_kind propose_edge sign_edge set_edge_signature]. do 2 (eapply triple_bind; [walk|intros ?]).
    destruct (existsb _ _); [walk|]. eapply triple_bind; [walk|intros ?].
    apply (triple_bind s0 (armed s0) _ (λ _, armed s0)); [destruct (needs_second_party kind); walk|intros ?]. walk.
  - unfold call_confirm_edge. do 2 (eapply triple_bind; [walk|intros ?]).
    eapply triple_bind; [apply triple_parse_kind; stg|intros kind].
    do 2 (eapply triple_bind; [apply triple_resolve_endpoint; stg|intros [? ?]]).
    eapply triple_bind; [by apply triple_authorize_all, in_order_nonempty|intros ?]. eapply triple_bind; [walk|intros ?].
    eapply triple_bind; [apply triple_second_party; stg|intros ?]. unfold promote. eapply triple_bind; [walk|intros now].
    intros s s' r Hs. unfold on_store. destruct (ms_confirm_edge _ _ _ _ _) as [t [[]|e]]; intros [= <- <-]; right; by apply armed_store.
Qed.

Lemma triple_dispatch s0 method params :
  triple s0 (quiet s0) (dispatch clock filter_clock fs method params) (λ _, settled s0).
Proof.
  assert (stage s0 (quiet s0)) as HP by (by left). unfold dispatch.
  case_bool_decide; [by apply triple_ret_settled|]. case_bool_decide; [by apply triple_ret_settled|].
  case_bool_decide; [|case_bool_decide; [by apply triple_ret_settled|by apply triple_fail]].
  unfold tools_call. eapply triple_bind; [walk|intros name]. destruct (list_find _ _) as [[i [n call]]|] eqn:Hf; [|walk].
  apply list_find_Some in Hf as (Hi & _ & _). apply list_elem_of_lookup_2 in Hi. unfold tools in Hi.
  assert (call ∈ [call_recall clock fs; call_search clock fs; call_neighbors clock filter_clock fs; call_as_of clock fs;
          call_verify clock filter_clock fs; call_critique clock filter_clock fs; call_analogy clock filter_clock fs] ∨
          call ∈ [call_assert clock fs; call_merge_diff clock fs; call_propose_edge clock filter_clock fs; call_confirm_edge clock filter_clock fs])
    as [Hc|Hc].
  { repeat (apply elem_of_cons in Hi as [[= -> ->]|Hi]; [rewrite !elem_of_cons; tauto|]). by apply not_elem_of_nil in Hi. }
  - eapply triple_weaken; [by apply triple_read_tool|]. intros ? s. by left.
  - by apply triple_write_tool.
Qed.

Lemma quiet_start s : quiet s s.
Proof. split; [|done]. exists []. apply extends_refl. Qed.

Lemma dispatch_settled s method params s' r : dispatch clock filter_clock fs method params s = (s', r) → settled s s'.
Proof.
  intros E. pose proof (triple_dispatch s method params s s' r (quiet_start s) E) as Hd. by destruct r.
Qed.

Lemma settled_same s s' : settled s s' → same_session s s'.
Proof. intros [[[rs [Hs _]] _]|(rs & [Hs _] & _)]; done. Qed.

(** ** Whole requests *)

Abbreviation handle := (handle_line clock filter_clock fs).

(** The request on a line, its id and its [_meta] *)
Definition line_request (line : string) : option Value := rok (json_from_str line).
Definition line_id (line : string) : option Value := line_request line ≫= λ r, jget r "id".
Definition line_meta (line : string) : option Value := line_request line ≫= λ r, jget (default JNull (jget r "params")) "_meta".

(** Between requests no request's context is set. *)
Definition idle s : Prop := sv_req_grant s = None ∧ sv_req_trace s = None.

(** What one line does: nothing, a refusal, or a dispatched call under the request's context *)
Lemma handle_line_cases s line s' o : idle s → handle s line = (s', o) →
  (s' = s ∧ o = Some (Some (match json_from_str line with Err e => err_response JNull (-32700) ("parse error: " +:+ e) | Ok _ => "" end)) ∧
     line_request line = None) ∨
  (∃ code msg, meta_grant s (line_meta line) = Err (code, msg) ∧ s' = s ∧
     o = Some ((λ id, err_response id code msg) <$> line_id line) ∧ is_Some (line_request line)) ∨
  (∃ g trace method params s1 r, meta_grant s (line_meta line) = Ok g ∧ is_Some (line_request line) ∧
     dispatch clock filter_clock fs method params (set_request trace g s) = (s1, r) ∧ o = reply (line_id line) r ∧
     ((r = Err Panic ∧ s' = s1) ∨ (r ≠ Err Panic ∧ s' = set_request None None s1))).
Proof.
  intros [Hg Ht] Hl. unfold handle_line in Hl. unfold line_id, line_meta, line_request.
  destruct (json_from_str line) as [req|e]; cbn [rok mbind option_bind] in *; [right|left; by injection Hl as <- <-].
  destruct (meta_grant s _) as [g|[code msg]]; [right|left].
  - destruct (dispatch _ _ _ _ _ _) as [s1 r] eqn:Hd. rewrite Hg in Hd. replace (match g with Some g => Some g | None => None end) with g in Hd by (by destruct g).
    assert (sv_req_grant s1 = g) as Hs1.
    { apply dispatch_settled, settled_same in Hd as (_ & _ & _ & _ & _ & _ & Hq). done. }
    rewrite Hs1 in Hl. replace (match g with Some _ => None | None => g end) with (None : option CapabilityGrant) in Hl by (by destruct g).
    do 6 eexists. split_and!; [done|by eexists|exact Hd| |].
    + destruct r as [v|[v|[]|]]; by injection Hl as <- <-.
    + destruct r as [v|[v|[]|]]; injection Hl as <- <-; auto.
  - exists code, msg. injection Hl as <- <-. split_and!; [done| |done|by eexists]. destruct s; cbn in *. by subst.
Qed.

(** A record the request was allowed to make *)
Definition permitted s (line : string) (r : AuditRecord) : Prop :=
  actor r = g_recipient (sv_grant s) ∧
  (event r = EvDenied ∨
   ∃ op, event r = event_of op ∧ check (sv_grant s) (ar_resource_id r) op (timestamp_ms r) = Ok tt ∧
     ∀ g, meta_grant s (line_meta line) = Ok (Some g) → check g (ar_resource_id r) op (timestamp_ms r) = Ok tt).

Lemma decision_ok s res op now : decision s res op now = Ok tt →
  check (sv_grant s) res op now = Ok tt ∧ ∀ g, sv_req_grant s = Some g → check g res op now = Ok tt.
Proof.
  unfold decision. intros ([] & Hc & Hd)%rbind_ok. split; [done|]. intros g Hg. by rewrite Hg in Hd.
Qed.

Lemma authentic_permitted s line trace g r : meta_grant s (line_meta line) = Ok g →
  authentic (set_request trace g s) r → permitted s line r.
Proof.
  intros Hm [Ha He]. split; [exact Ha|]. destruct (event r) eqn:Ev; [right|right|by left]; apply decision_ok in He as [Hc Hg].
  - exists Read. split_and!; [done|exact Hc|]. intros g' Hg'. apply Hg. cbn. congruence.
  - exists Write. split_and!; [done|exact Hc|]. intros g' Hg'. apply Hg. cbn. congruence.
Qed.

Lemma handle_line_effect s line s' o (Hs : idle s) (Hl : handle s line = (s', o)) :
  ∃ rs, records (sv_audit s') = records (sv_audit s) ++ rs ∧ (chain_wf (sv_audit s) → chain_wf (sv_audit s')) ∧
    Forall (permitted s line) rs ∧ (sv_store s' = sv_store s ∨ ∃ r, r ∈ rs ∧ event r = EvWrite).
Proof.
  destruct (handle_line_cases s line s' o Hs Hl) as [(-> & _)|[(code & msg & _ & -> & _)|(g & trace & method & params & s1 & r & Hm & _ & Hd & _ & Hs')]].
  1,2: exists []; rewrite app_nil_r; split_and!; auto.
  assert (∃ rs, extends (set_request trace g s) s1 rs ∧ (sv_store s1 = sv_store s ∨ ∃ r, r ∈ rs ∧ event r = EvWrite)) as (rs & (_ & Hr & Hf & Hw) & Hst).
  { apply dispatch_settled in Hd as [[[rs Hd] Hst]|(rs & Hd & (r0 & Hr0 & He)%Exists_exists)]; exists rs; eauto. }
  exists rs. assert (records (sv_audit s') = records (sv_audit s1) ∧ sv_audit s' = sv_audit s1 ∧ sv_store s' = sv_store s1) as (-> & -> & ->).
  { by destruct Hs' as [(_ & ->)|(_ & ->)]. }
  split_and!; [exact Hr|exact Hw| |exact Hst]. eapply Forall_impl; [exact Hf|]. intros x. by apply authentic_permitted.
Qed.


(** Lines one after the other, as [serve_connection] feeds them, until one panics *)
Fixpoint handle_lines s (lines : list string) : server * list (option string) :=
  match lines with
  | [] => (s, [])
  | l :: lines =>
    match handle s l with
    | (s', None) => (s', [])
    | (s', Some o) => let '(s'', os) := handle_lines s' lines in (s'', o :: os)
    end
  end.

Lemma handle_line_idle s line s' o : idle s → handle s line = (s', Some o) →
  idle s' ∧ same_session s s' ∧ (o = None ↔ is_Some (line_request line) ∧ line_id line = None).
Proof.
  intros Hs Hl. destruct (handle_line_cases s line s' _ Hs Hl) as [(-> & [= ->] & Hn)|[(code & msg & Hm & -> & [= ->] & Hn)|
    (g & trace & method & params & s1 & r & Hm & Hn & Hd & Ho & Hs')]].
  - split_and!; try apply Hs; try done. split; [done|]. rewrite Hn. by intros [[? ?] _].
  - split_and!; try apply Hs; try done. destruct (line_id line); split; try done; by intros [_ ?].
  - destruct Hs' as [(-> & _)|(Hp & ->)]; [done|].
    assert (same_session (set_request trace g s) s1) as (E1 & E2 & E3 & E4 & E5 & _ & _).
    { by eapply settled_same, dispatch_settled. }
    split; [done|]. split; [destruct Hs as [Hs1 Hs2]; split_and!; try done; by rewrite ?Hs1, ?Hs2|].
    assert (o = None ↔ line_id line = None) as ->; [|tauto]. unfold reply in Ho.
    destruct r as [v|[v|[code msg]|]]; [..|done]; injection Ho as ->; destruct (line_id line); cbn; done.
Qed.

(** Sessions are reusable: over any sequence of requests, the session's grant, identity,
    embedder and gate never change, no request's attenuation or trace survives into the
    next one, and the replies are one per line except for notifications: a line that
    parses and carries no [id] gets none, every other line gets one. *)
Theorem handle_lines_scoped s lines (Hs : idle s) :
  let '(s', os) := handle_lines s lines in
    (length os = length lines → idle s' ∧ same_session s s') ∧
    Forall2 (λ l o, o = None ↔ is_Some (line_request l) ∧ line_id l = None) (take (length os) lines) os.
Proof.
  revert s Hs. induction lines as [|l lines IH]; intros s Hs; cbn [handle_lines].
  { split; [|constructor]. intros _. split; [done|apply same_session_refl]. }
  destruct (handle s l) as [s1 [o|]] eqn:E; [|split; [done|constructor]].
  destruct (handle_line_idle s l s1 o Hs E) as (Hi & Hsame & Ho). specialize (IH s1 Hi).
  destruct (handle_lines s1 lines) as [s2 os]. destruct IH as (Ha & Hf). cbn [length take]. split.
  - intros [= Hl]. destruct (Ha Hl) as [H1' H2']. split; [done|]. by eapply same_session_trans.
  - by constructor.
Qed.

(** A request cannot bring its own authority: a [_meta] grant that does not parse, is
    not signed by its key, is signed by any key but the one that issued the session's
    grant, or names another recipient, ends the request before anything runs: the server is
    unchanged, nothing is recorded, and the caller gets an error with the code of the
    check that failed (nothing, if it sent no [id]). *)
Theorem meta_grant_refused s line raw (Hs : idle s) (Hraw : line_meta line ≫= (λ m, jget m GRANT_META_KEY) = Some raw)
    (Hbad : match from_value raw : result string CapabilityGrant with
            | Err _ => True
            | Ok g => verify_signature g ≠ Ok tt ∨ g_issuer_pubkey g ≠ g_issuer_pubkey (sv_grant s) ∨
                      g_recipient g ≠ g_recipient (sv_grant s)
            end) :
  ∃ code msg, code = (if is_ok (from_value raw : result string CapabilityGrant) then GRANT_REJECTED else -32602) ∧
    handle s line = (s, Some ((λ id, err_response id code msg) <$> line_id line)).
Proof.
  assert (∃ code msg, code = (if is_ok (from_value raw : result string CapabilityGrant) then GRANT_REJECTED else -32602) ∧
    meta_grant s (line_meta line) = Err (code, msg)) as (code & msg & Hcode & Hm).
  { unfold meta_grant. rewrite Hraw. destruct (from_value raw) as [g|e]; [|eauto]. cbn [is_ok].
    destruct (verify_signature g) as [[]|e]; [|eauto]. case_bool_decide; [|eauto]. case_bool_decide; [|eauto]. cbn. tauto. }
  exists code, msg. split; [done|]. destruct (handle s line) as [s' o] eqn:E.
  destruct (handle_line_cases s line s' o Hs E) as [(_ & _ & Hn)|[(code' & msg' & Hm' & -> & -> & _)|(g & _ & _ & _ & _ & _ & Hm' & _)]].
  - unfold line_meta in Hraw. by rewrite Hn in Hraw.
  - rewrite Hm in Hm'. injection Hm' as -> ->. done.
  - congruence.
Qed.

(** ** Merging a diff *)

Lemma authorize_all_records s repos det s' : authorize_all clock fs repos det s = (s', Ok tt) →
  ∃ rs, extends s s' rs ∧ sv_store s' = sv_store s ∧
    ∀ repo, repo ∈ repos → ∃ r, r ∈ rs ∧ event r = EvWrite ∧ ar_resource_id r = memory_resource repo.
Proof.
  unfold authorize_all. revert s. induction repos as [|repo repos IH]; intros s; cbn [sfold].
  { intros [= <-]. exists []. split_and!; [apply extends_refl|done|]. intros repo Hr. by apply not_elem_of_nil in Hr. }
  rewrite sbind_inv. intros [(s1 & [] & Ha & Hr)|(e & _ & ?)]; [|done]. unfold authorized, smap_err in Ha.
  destruct (authorize_verdict Write repo det s) as (s2 & r2 & Ea & Hv). rewrite Ea in Ha.
  destruct r2 as [[]|v]; [|done]. injection Ha as <-. inversion Hv as [s3 rec _ _ Hx He Hres _ _ _ Hst| |]; subst.
  destruct (IH s2 Hr) as (rs & Hx' & Hst' & Hall). exists ([rec] ++ rs). split_and!; [by eapply extends_trans|congruence|].
  intros r [->|Hin]%elem_of_cons; [exists rec; split_and!; [by left|done..]|].
  destruct (Hall r Hin) as (x & Hx1 & Hx2). exists x. split; [by right|done].
Qed.

Lemma authorize_all_extends s repos det s' r : authorize_all clock fs repos det s = (s', r) → ∃ rs, extends s s' rs.
Proof.
  unfold authorize_all. revert s. induction repos as [|repo repos IH]; intros s; cbn [sfold].
  { intros [= <- <-]. exists []. apply extends_refl. }
  rewrite sbind_inv. unfold authorized, smap_err. destruct (authorize_verdict Write repo det s) as (s2 & r2 & -> & Hv).
  assert (∃ rs, extends s s2 rs) as [rs Hx] by (inversion Hv; eauto). destruct r2 as [[]|v].
  - intros [(s1 & [] & [= <-] & Hr)|(x & ? & _)]; [|done]. destruct (IH s2 Hr) as [rs' Hx']. exists (rs ++ rs'). by eapply extends_trans.
  - intros [(s1 & [] & ? & _)|(x & [= <- _] & _)]; [done|]. by exists rs.
Qed.

(** A denied loop leaves the store. *)
Lemma authorize_all_err s repos det s' e : authorize_all clock fs repos det s = (s', Err e) → sv_store s' = sv_store s.
Proof.
  unfold authorize_all. revert s. induction repos as [|repo repos IH]; intros s; cbn [sfold]; [done|].
  rewrite sbind_inv. unfold authorized, smap_err. destruct (authorize_verdict Write repo det s) as (s2 & r2 & -> & Hv).
  assert (sv_store s2 = sv_store s) as Hst by (by inversion Hv). destruct r2 as [[]|v].
  - intros [(s1 & [] & [= <-] & Hr)|(x & ? & _)]; [|done]. rewrite <-Hst. by apply IH.
  - intros [(s1 & [] & ? & _)|(x & [= <- <-] & _)]; done.
Qed.

(** A handler that only reads: the session, the store and the chain are as before. *)
Definition reads {A} (m : stm server Exit A) : Prop :=
  ∀ s s' r, m s = (s', r) → extends s s' [] ∧ sv_store s' = sv_store s.
Lemma reads_bind {A B} (m : stm server Exit A) (k : A → stm server Exit B) : reads m → (∀ a, reads (k a)) → reads (sbind m k).
Proof.
  intros Hm Hk s s' r [(s1 & a & E1 & E2)|(e & E1 & _)]%sbind_inv; [|by eapply Hm].
  destruct (Hm _ _ _ E1) as [Hx1 Hs1]. destruct (Hk a _ _ _ E2) as [Hx2 Hs2]. split; [by apply (extends_trans s s1 s' [] [])|congruence].
Qed.
Lemma reads_ret {A} (a : A) : reads (sret a).
Proof. intros s s' r [= <- <-]. split; [apply extends_refl|done]. Qed.
Lemma reads_fail {A} e : reads (sfail e : stm server Exit A).
Proof. intros s s' r [= <- <-]. split; [apply extends_refl|done]. Qed.
Lemma reads_sread {A} (f : server → result Exit A) : reads (sread f).
Proof. intros s s' r [= <- <-]. split; [apply extends_refl|done]. Qed.
Lemma reads_slift {A} (x : result Exit A) : reads (slift x).
Proof. intros s s' r [= <- <-]. split; [apply extends_refl|done]. Qed.
Lemma reads_now : reads (now_ms clock).
Proof. intros s s' r [= <- <-]. split; [by apply extends_quiet|done]. Qed.
Lemma reads_reader : reads (reader filter_clock).
Proof. intros s s' r [= <- <-]. split; [by apply extends_quiet|done]. Qed.
Lemma reads_fold {A B} (f : B → A → stm server Exit B) b l : (∀ b a, reads (f b a)) → reads (sfold f b l).
Proof. intros Hf. revert b. induction l as [|a l IH]; intros b; [apply reads_ret|]. cbn. apply reads_bind; [apply Hf|]. intros. apply IH. Qed.
Ltac reads_tac := repeat (cbn beta; first
  [apply reads_bind; [|intros ?] | apply reads_ret | apply reads_fail | apply reads_sread | apply reads_slift | apply reads_now | apply reads_reader
  | match goal with |- reads (match ?x with _ => _ end) => destruct x end]).

Lemma endpoint_repo_reads m x : reads (endpoint_repo m x).
Proof. unfold endpoint_repo, read_store. reads_tac. Qed.
Lemma touched_reads diff : reads (touched_repos diff).
Proof.
  unfold touched_repos. apply reads_bind; [|intros; apply reads_ret]. apply reads_fold. intros rs e.
  do 2 (apply reads_bind; [apply endpoint_repo_reads|intros ?]). apply reads_ret.
Qed.
Lemma parse_diff_reads j : reads (parse_diff j).
Proof. unfold parse_diff. reads_tac. Qed.

(** The tenant an endpoint belongs to, as the server finds it *)
Definition endpoint_in (t : T) (diff : MemoryDiff) (x : ContentHash) (repo : string) : Prop :=
  (∃ n, n ∈ d_nodes diff ∧ compute_id n = x ∧ n_repo n = repo) ∨
  ((∀ n, n ∈ d_nodes diff → compute_id n ≠ x) ∧ ∃ n, ms_get_node t x = Ok (Some n) ∧ n_repo n = repo).

Lemma in_diff_lookup (ns : list MemoryNode) x :
  match foldl (λ m n, <[compute_id n := n_repo n]> m) (∅ : gmap ContentHash string) ns !! x with
  | Some r => ∃ n, n ∈ ns ∧ compute_id n = x ∧ n_repo n = r
  | None => ∀ n, n ∈ ns → compute_id n ≠ x
  end.
Proof.
  induction ns as [|n ns IH] using rev_ind; [cbn [foldl]; rewrite lookup_empty; intros n Hn; by apply not_elem_of_nil in Hn|].
  rewrite foldl_snoc. destruct (decide (compute_id n = x)) as [<-|Hne].
  - rewrite lookup_insert_eq. exists n. split; [|done]. apply elem_of_app. right. by left.
  - rewrite lookup_insert_ne by done. destruct (foldl _ _ _ !! x) as [r|].
    + destruct IH as (m & Hm & Hid & Hr). exists m. split; [|done]. apply elem_of_app. by left.
    + intros m [Hm| ->%list_elem_of_singleton]%elem_of_app; [by apply IH|done].
Qed.

Lemma endpoint_repo_ok diff x s s' r :
  endpoint_repo (foldl (λ m n, <[compute_id n := n_repo n]> m) ∅ (d_nodes diff)) x s = (s', Ok r) → endpoint_in (sv_store s) diff x r.
Proof.
  unfold endpoint_repo. pose proof (in_diff_lookup (d_nodes diff) x) as Hm. destruct (foldl _ _ _ !! x) as [r0|].
  - intros [= <- <-]. by left.
  - unfold read_store, sbind, sread. destruct (ms_get_node (sv_store s) x) as [[n|]|] eqn:E; cbn; [|done..].
    intros [= <- <-]. right. split; [done|]. by exists n.
Qed.

Lemma touched_fold diff t0 (m := foldl (λ m n, <[compute_id n := n_repo n]> m) ∅ (d_nodes diff)) es s s' l rs :
  sv_store s = t0 →
  sfold (λ rs e, let! rf := endpoint_repo m (e_from e) in let! rt := endpoint_repo m (e_to e) in sret (rs ++ [rf; rt])) l es s = (s', Ok rs) →
  (∀ r, r ∈ l → r ∈ rs) ∧ ∀ e x, e ∈ es → x = e_from e ∨ x = e_to e → ∃ r, endpoint_in t0 diff x r ∧ r ∈ rs.
Proof.
  revert s l. induction es as [|e es IH]; intros s l Ht; cbn [sfold].
  { intros [= <- <-]. split; [done|]. intros e x He. by apply not_elem_of_nil in He. }
  rewrite sbind_inv. intros [(s2 & l2 & Hb & Hf)|(e' & _ & ?)]; [|done].
  rewrite sbind_inv in Hb. destruct Hb as [(s3 & rf & E1 & Hb)|(e' & _ & ?)]; [|done].
  rewrite sbind_inv in Hb. destruct Hb as [(s4 & rt & E2 & [= <- <-])|(e' & _ & ?)]; [|done].
  destruct (endpoint_repo_reads _ _ _ _ _ E1) as [_ Hs3]. destruct (endpoint_repo_reads _ _ _ _ _ E2) as [_ Hs4].
  apply endpoint_repo_ok in E1, E2. rewrite Hs3 in E2. rewrite Ht in E1, E2.
  destruct (IH s4 _ ltac:(congruence) Hf) as [Ha Hb]. split.
  - intros r Hr. apply Ha, elem_of_app. by left.
  - intros e' x [->|He]%elem_of_cons Hx; [|by eapply Hb]. destruct Hx as [-> | ->]; eexists; (split; [done|]); apply Ha; set_solver.
Qed.

Lemma touched_repos_ok diff s s' repos : touched_repos diff s = (s', Ok repos) →
  (∀ n, n ∈ d_nodes diff → n_repo n ∈ repos) ∧
  ∀ e x, e ∈ d_edges diff → x = e_from e ∨ x = e_to e → ∃ r, endpoint_in (sv_store s) diff x r ∧ r ∈ repos.
Proof.
  unfold touched_repos. rewrite sbind_inv. intros [(s1 & rs & Hf & [= _ <-])|(e & _ & ?)]; [|done].
  destruct (touched_fold diff _ _ _ _ _ _ eq_refl Hf) as [Hn He]. setoid_rewrite in_order_elem.
  split; [|done]. intros n Hin. by apply Hn, list_elem_of_fmap_2.
Qed.

(** [C13] No part of a diff escapes authorization: when merging a diff changes the store, the
    session was allowed to write, and the audit chain records that write, for the tenant of
    every node of the diff and of both ends of every edge, whether the end is a node of the
    diff or one already stored, in any tenant. *)
Theorem merge_diff_authorizes args s s' r (Hc : call_merge_diff clock fs args s = (s', r)) (Hch : sv_store s' ≠ sv_store s) :
  ∃ j diff rs, arg_str args "diff" = Ok j ∧ from_json_str j = Ok diff ∧ extends s s' rs ∧
    let covered repo := ∃ x, x ∈ rs ∧ event x = EvWrite ∧ ar_resource_id x = memory_resource repo ∧
                             decision s (memory_resource repo) Write (timestamp_ms x) = Ok tt in
    (∀ n, n ∈ d_nodes diff → covered (n_repo n)) ∧
    ∀ e x, e ∈ d_edges diff → x = e_from e ∨ x = e_to e → ∃ repo, endpoint_in (sv_store s) diff x repo ∧ covered repo.
Proof.
  unfold call_merge_diff in Hc. apply sbind_inv in Hc as [(s1 & j & Hj & Hc)|(e & E & _)].
  2:{ destruct (reads_slift _ _ _ _ E). congruence. }
  assert (s1 = s ∧ arg_str args "diff" = Ok j) as [-> Hj'] by (unfold arg, slift in Hj; destruct (arg_str args "diff"); by inversion Hj).
  apply sbind_inv in Hc as [(s2 & diff & Hd & Hc)|(e & E & _)]; [|destruct (parse_diff_reads _ _ _ _ E); congruence].
  destruct (parse_diff_reads _ _ _ _ Hd) as [Hx2 Hs2].
  assert (from_json_str j = Ok diff) as Hdiff.
  { unfold parse_diff in Hd. case_bool_decide; [done|]. destruct (from_json_str j) as [d|]; [|done]. repeat (case_match; [done|]). by inversion Hd. }
  apply sbind_inv in Hc as [(s3 & repos & Hr & Hc)|(e & E & _)]; [|destruct (touched_reads _ _ _ _ E); congruence].
  destruct (touched_reads _ _ _ _ Hr) as [Hx3 Hs3]. apply touched_repos_ok in Hr as [Hn He]. rewrite Hs2 in He.
  apply sbind_inv in Hc as [(s4 & [] & Ha & Hc)|(e & E & _)].
  2:{ pose proof (authorize_all_err s3 repos _ s' e E). congruence. }
  apply authorize_all_records in Ha as (rs & Hx4 & Hs4 & Hall).
  assert (extends s s' rs) as Hx.
  { assert (extends s s4 rs) as Hx by (change rs with ([] ++ [] ++ rs); eauto using extends_trans). 
    apply sbind_inv in Hc as [(s5 & ? & E5 & Hc)|(e & E & _)]; [|destruct (reads_sread _ _ _ _ E); congruence].
    destruct (reads_sread _ _ _ _ E5) as [Hx5 _].
    apply sbind_inv in Hc as [(s6 & caller & E6 & Hc)|(e & E & _)]; [|done]. destruct (reads_sread _ _ _ _ E6) as [Hx6 _].
    apply sbind_inv in Hc as [(s7 & now & E7 & Hc)|(e & E & _)]; [|done]. destruct (reads_now _ _ _ E7) as [Hx7 _].
    assert (extends s7 s' []) as Hx8.
    { unfold on_store in Hc. destruct (apply_diff _ _ _ _) as [t [?|?]]; injection Hc as <- <-; by apply extends_quiet. }
    rewrite <-(app_nil_r rs). eapply extends_trans; [exact Hx|]. change ([] : list AuditRecord) with ([] ++ [] ++ [] ++ ([] : list AuditRecord)). eauto 6 using extends_trans. }
  exists j, diff, rs. split; [done|]. split; [done|]. split; [done|]. cbv zeta.
  assert (∀ repo, repo ∈ repos → ∃ x, x ∈ rs ∧ event x = EvWrite ∧ ar_resource_id x = memory_resource repo ∧
                             decision s (memory_resource repo) Write (timestamp_ms x) = Ok tt) as Hcov.
  { intros repo (x & Hin & Hev & Hres)%Hall. exists x. split_and!; [done..|]. destruct Hx as (_ & _ & Hf & _).
    rewrite Forall_forall in Hf. destruct (Hf x Hin) as [_ Hok]. rewrite Hev, Hres in Hok. done. }
  split; [auto|]. intros e x Hin Hxe. destruct (He e x Hin Hxe) as (repo & Hep & Hrepo). eauto.
Qed.
End mcp_props.
