(* ===== verification/McpWrites.v ===== *)
(** * What the write tools of the MCP server do to the contents *)

From S2P Require Import Prelude Bytes Externs Text Str Belnap Identity Node Float Edge Grant AuditLog Kv Shred Store StoreSpec StoreContents.
From S2P Require Import Supersession StoreInterface Assert Index Hnsw Query QueryProps Search Display Chunk McpRender Mcp McpProps.

Section mcp_writes.
Context {T : Type} `{MemStore T, Blake3, Hex, Ed25519, Serde Watermark, Serde AuditRecord, Serde Head}.
Context `{Unicode, FloatNan, Ln, SliceSort, CharTables, SerdeJson, FromJson CapabilityGrant, FromJson MemoryDiff}.
Context `{!MemStoreLaws T}.
Context (clock : nat → Timestamp) (filter_clock : nat → string → Timestamp) (fs : nat → IoOracle).

Abbreviation server := (MemoryMcpServer (T := T)).
Implicit Types (s : server) (c : conts).

(** ** Asserting *)

(** The session may write to [repo] now: it has an identity, the grants permit it, the
    audit chain takes records and the gate is open. *)
Record may_write s (repo : string) : Prop := {
  mw_audit : sv_audit_poisoned s = false;
  mw_grant : decision s (memory_resource repo) Write (clock (sv_step s)) = Ok tt;
  mw_append : ∀ det, is_ok (append (fs (S (sv_step s))) (sv_audit s) EvWrite (g_recipient (sv_grant s)) (memory_resource repo) det
                              (clock (sv_step s)) (sv_audit_disk s)).2 = true;
  mw_gate : sv_write_gate s ≠ Some true;
}.

Lemma authorized_write s repo det : may_write s repo →
  ∃ s' rec, authorized clock fs Write repo det s = (s', Ok tt) ∧ extends s s' [rec] ∧ event rec = EvWrite ∧
    ar_resource_id rec = memory_resource repo ∧ sv_store s' = sv_store s ∧ sv_step s' = S (S (sv_step s)).
Proof.
  intros [Ha Hg Hap _]. unfold authorized, smap_err, authorize, sbind, now_ms. cbn [sv_audit_poisoned next_step sv_req_trace].
  rewrite Ha. change (decision (next_step s) ?a ?b ?c) with (decision s a b c). rewrite Hg. unfold smap_err, audit_append.
  cbn [sv_step next_step sv_audit sv_grant sv_audit_disk event_of].
  set (det' := match sv_req_trace s with Some _ => _ | None => _ end). specialize (Hap det').
  destruct (append _ _ _ _ _ _ _ _) as [d [[ch rec]|e]] eqn:E; [|done]. apply append_ok in E as [-> ->].
  eexists _, (append_record (sv_audit s) EvWrite (g_recipient (sv_grant s)) (memory_resource repo) det' (clock (sv_step s))).
  split; [done|]. split; [|done].
  split; [by split_and!|]. split; [done|]. split; [|by apply grow_wf]. apply Forall_singleton. by split.
Qed.

Lemma put_node_plain (t : T) c n : ms_holds t c → ms_sealing t = false → json_repr n →
  ∃ t', ms_put_node n t = (t', Ok (compute_id n)) ∧ ms_holds t' (c_put_node c n).
Proof.
  intros Ht Hs Hj. destruct (ms_put_node_ok t c n Ht Hj) as (t' & r & Hp & _ & Hr). destruct r as [y|e]; [|destruct Hr; congruence].
  destruct Hr as [-> Hr]. eauto.
Qed.

(** The node [call_assert] writes *)
Definition asserted s (a : Asserter) (args : Value) (repo content : string) : MemoryNode :=
  let now := clock (S (S (sv_step s))) in
  assert_node_with a repo (node_kind_from_str (default "rationale" (rok (arg_str args "kind")))) content
    (default now (jget args "valid_from" ≫= as_u64)) now (embed_for_write s content).1.

Lemma call_assert_ok args s c a repo content :
  sv_asserter s = Some a → arg_str args "repo" = Ok repo → arg_str args "content" = Ok content → may_write s repo →
  ms_holds (sv_store s) c → ms_sealing (sv_store s) = false → json_repr (asserted s a args repo content) →
  ∃ s' text rec, call_assert clock fs args s = (s', Ok (tool_text text)) ∧
    ms_holds (sv_store s') (c_put_node c (asserted s a args repo content)) ∧
    extends s s' [rec] ∧ event rec = EvWrite ∧ ar_resource_id rec = memory_resource repo.
Proof.
  intros Ha Hr Hc Hw Ht Hs Hj. unfold call_assert.
  destruct (authorized_write s repo ("memory.assert " +:+ default "rationale" (rok (arg_str args "kind"))) Hw) as (s1 & rec & Hau & Hx & He & Hres & Hst & Hstep).
  rewrite (sbind_ok _ _ s s repo) by (by unfold arg; rewrite Hr). rewrite (sbind_ok _ _ s s content) by (by unfold arg; rewrite Hc).
  rewrite (sbind_ok _ _ s s a) by (unfold sread; by rewrite Ha). rewrite (sbind_ok _ _ s s1 tt) by exact Hau.
  pose proof Hx as ((Hg & _ & Hem & Hgate & _) & _).
  rewrite (sbind_ok _ _ s1 (next_step s1) (clock (S (S (sv_step s))))) by (unfold now_ms; by rewrite Hstep).
  rewrite (sbind_ok _ _ (next_step s1) (next_step s1) (embed_for_write s content))
    by (unfold sread, embed_for_write; cbn; by rewrite Hem).
  destruct (embed_for_write s content) as [emb err] eqn:Eemb.
  rewrite (sbind_ok _ _ (next_step s1) (next_step s1) tt).
  2:{ unfold lock_writes, sread. cbn [sv_write_gate next_step]. rewrite Hgate. destruct (sv_write_gate s) as [[]|] eqn:Hgt; try done. by destruct (mw_gate s repo Hw). }
  unfold asserted in Hj |- *. rewrite Eemb in Hj |- *. cbn [fst] in Hj |- *. set (node := assert_node_with _ _ _ _ _ _ _) in *.
  destruct (put_node_plain (sv_store s1) c node) as (t' & Hput & Hh); [by rewrite Hst|by rewrite Hst|done|].
  rewrite (sbind_ok _ _ (next_step s1) (set_store t' (next_step s1)) (compute_id node)).
  2:{ unfold write_store, smap_err, on_store. cbn [sv_store next_step]. by rewrite Hput. }
  eexists _, _, rec. split; [reflexivity|]. split; [exact Hh|]. split; [|done].
  apply (extends_trans s s1 _ [rec] []); [done|]. by apply extends_quiet.
Qed.

(** Asserting works: when the session holds a key, may write to the tenant and the
    audit chain takes the record, [memory.assert] always succeeds: exactly one node is
    added, in the tenant asked for and of the kind asked for, signed so that it verifies
    as the session's, embedded in the space the server searches in, with exactly one write
    record on the chain and everything else in the store unchanged. *)
Theorem assert_succeeds `{!HexLaws, !Ed25519Laws} args s c (k : SigningKey) repo content (node := asserted s (Asserter_new k) args repo content)
    (Ha : sv_asserter s = Some (Asserter_new k)) (Hr : arg_str args "repo" = Ok repo) (Hc : arg_str args "content" = Ok content)
    (Hw : may_write s repo) (Ht : ms_holds (sv_store s) c) (Hs : ms_sealing (sv_store s) = false) (Hj : json_repr node) :
  ∃ s' text rec, call_assert clock fs args s = (s', Ok (tool_text text)) ∧
    ms_holds (sv_store s') (c_put_node c node) ∧ verify_node node = Ok tt ∧ n_repo node = repo ∧
    n_embedding node = (embed_for_write s content).1 ∧
    extends s s' [rec] ∧ event rec = EvWrite ∧ ar_resource_id rec = memory_resource repo.
Proof.
  destruct (call_assert_ok args s c (Asserter_new k) repo content Ha Hr Hc Hw Ht Hs Hj) as (s' & text & rec & Hcall & Hh & Hx & He & Hres).
  exists s', text, rec. split_and!; try done. unfold node, asserted, verify_node, assert_node_with. rewrite set_node_signature_id. apply verify_own_sig.
Qed.

(** Asserting the same text again revives a retired node: identity leaves out status
    and dates, and [memory.assert] writes the node without looking at the stored one, so
    when a stored node of the same identity has been superseded, the call leaves it
    active, with no retirement date, while the edge that superseded it is still there.
    (Merging a diff joins statuses instead and never undoes a supersession.) *)
Theorem assert_revives_superseded args s c (a : Asserter) repo content old i e (node := asserted s a args repo content)
    (Ha : sv_asserter s = Some a) (Hr : arg_str args "repo" = Ok repo) (Hc : arg_str args "content" = Ok content)
    (Hw : may_write s repo) (Ht : ms_holds (sv_store s) c) (Hs : ms_sealing (sv_store s) = false) (Hj : json_repr node)
    (Hold : c_nodes c !! compute_id node = Some old) (Hst : n_status old = Superseded)
    (He : c_edges c !! i = Some e) (Hk : e_kind e = Supersedes) (Hto : e_to e = compute_id node) :
  ∃ s' c' text n, call_assert clock fs args s = (s', Ok (tool_text text)) ∧ ms_holds (sv_store s') c' ∧
    c_nodes c' !! compute_id node = Some n ∧ n_status n = Active ∧ n_valid_to n = None ∧ c_edges c' !! i = Some e.
Proof.
  destruct (call_assert_ok args s c a repo content Ha Hr Hc Hw Ht Hs Hj) as (s' & text & rec & Hcall & Hh & _).
  exists s', (c_put_node c node), text, node. split_and!; try done. unfold c_put_node. cbn [c_nodes]. apply lookup_insert_eq.
Qed.

(** ** Proposing *)

Lemma add_edge_cases (t : T) c e : ms_holds t c →
  ∃ t' r, ms_add_edge e t = (t', r) ∧ (ms_holds t' c ∨ ms_holds t' (c_add_edge c e)).
Proof. intros Ht. destruct (ms_add_edge_ok t c e Ht) as (t' & r & Hp & _ & Hr). exists t', r. split; [done|]. destruct r; naive_solver. Qed.

(** Contents after a proposal: the same nodes, every load-bearing edge as it was, and every
    edge that was not there before quarantined *)
Definition only_proposes c c' : Prop :=
  c_nodes c' = c_nodes c ∧ (∀ i e, c_edges c !! i = Some e → e_quarantined e = false → c_edges c' !! i = Some e) ∧
  ∀ i e, c_edges c' !! i = Some e → c_edges c !! i = Some e ∨ e_quarantined e = true.

Lemma only_proposes_refl c : only_proposes c c.
Proof. split_and!; auto. Qed.
Lemma only_proposes_add c e : e_quarantined e = true → only_proposes c (c_add_edge c e).
Proof.
  intros Hq. unfold c_add_edge. destruct (c_demoting c e) eqn:Hd; [apply only_proposes_refl|]. unfold c_demoting in Hd. rewrite Hq in Hd.
  split_and!; [done| |]; cbn.
  - intros i x Hx Hqx. destruct (decide (edge_ident e = i)) as [<-|Hne]; [|by rewrite lookup_insert_ne]. rewrite Hx, Hqx in Hd. done.
  - intros i x [[_ <-]|[_ Hx]]%lookup_insert_Some; auto.
Qed.
Lemma only_proposes_meta c c' k v : only_proposes c c' → only_proposes c (c_put_meta k v c').
Proof. done. Qed.

Lemma only_proposes_trans c1 c2 c3 : only_proposes c1 c2 → only_proposes c2 c3 → only_proposes c1 c3.
Proof.
  intros (Hn & Ha & Hb) (Hn' & Ha' & Hb'). split_and!; [congruence|by eauto|]. intros i e He. destruct (Hb' i e He) as [He'|]; auto.
Qed.

(** *** Steps that leave the store *)

Definition still {A} (m : stm server Exit A) : Prop :=
  ∀ s s' r, m s = (s', r) → sv_store s' = sv_store s ∧ same_session s s'.

Lemma reads_still {A} (m : stm server Exit A) : reads m → still m.
Proof. intros Hm s s' r E. destruct (Hm _ _ _ E) as [[Hs _] Ht]. done. Qed.

Lemma still_inv {A B} (m : stm server Exit A) (k : A → stm server Exit B) s s' r : still m → sbind m k s = (s', r) →
  sv_store s' = sv_store s ∨
  ∃ a s1, m s = (s1, Ok a) ∧ sv_store s1 = sv_store s ∧ same_session s s1 ∧ k a s1 = (s', r).
Proof.
  intros Hm [(s1 & a & E1 & E2)|(e & E & _)]%sbind_inv.
  - right. destruct (Hm _ _ _ E1). by exists a, s1.
  - left. by destruct (Hm _ _ _ E).
Qed.

Lemma resolve_endpoint_reads prefix : reads (T := T) (resolve_endpoint filter_clock prefix).
Proof.
  unfold resolve_endpoint. apply reads_bind; [unfold resolve_readable, read_store|intros o; destruct o; [apply reads_ret|apply reads_fail]].
  apply reads_bind; [apply reads_reader|intros ?]. apply reads_bind; [apply reads_sread|intros [id|]]; [|apply reads_ret].
  apply reads_bind; [apply reads_sread|intros o]. apply reads_bind; [apply reads_reader|intros ?]. destruct o; apply reads_ret.
Qed.
Lemma parse_kind_reads k : reads (T := T) (parse_edge_kind k).
Proof. unfold parse_edge_kind. destruct (edge_kind_from_str k); [apply reads_ret|apply reads_fail]. Qed.
Lemma second_party_reads f t n k : reads (T := T) (check_second_party f t n k).
Proof.
  unfold check_second_party, read_store. destruct (needs_second_party k); [|apply reads_ret].
  do 2 (apply reads_bind; [apply reads_sread|intros ?]). apply reads_bind; [|intros i; destruct (confirm_allowed _ _ _ _); [apply reads_ret|apply reads_fail]].
  destruct (snd <$> _); [|apply reads_ret]. apply reads_bind; [apply reads_sread|intros; apply reads_ret].
Qed.
Lemma authorize_all_still repos det : still (authorize_all clock fs repos det).
Proof.
  intros s s' r E. destruct (authorize_all_extends clock fs s repos det s' r E) as (? & ? & _). destruct r as [[]|e].
  - by apply authorize_all_records in E as (rs & _ & ? & _).
  - split; [by eapply authorize_all_err|done].
Qed.

Ltac still_step := first [apply reads_still; first [apply reads_slift|apply reads_sread|apply reads_now|apply reads_reader|apply resolve_endpoint_reads
                                                   |apply parse_kind_reads|apply second_party_reads] | apply authorize_all_still].

Definition proposes_from c (t : T) : Prop := ∃ c', ms_holds t c' ∧ only_proposes c c'.

Lemma record_proposal_only c a kind_str n e s s' r :
  e_quarantined e = true → ms_meta_value (as_bytes (pubkey_hex a)) → ms_holds (sv_store s) c →
  record_proposal a kind_str n e s = (s', r) → proposes_from c (sv_store s').
Proof.
  intros Hq Hv Ht. assert (proposes_from c (sv_store s)) as Hs by (exists c; split; [done|apply only_proposes_refl]). unfold record_proposal.
  intros [Hc|(_ & s1 & _ & S1 & _ & Hc)]%still_inv; [by rewrite Hc| |still_step].
  apply still_inv in Hc as [Hc|(outs & s2 & _ & S2 & _ & Hc)]; [by rewrite Hc, S1| |still_step].
  destruct (existsb _ _); [injection Hc as <- _; by rewrite S2, S1|].
  assert (∀ (m : stm T StoreError unit) s3 s4 x, proposes_from c (sv_store s3) → (∀ t c', ms_holds t c' → only_proposes c c' → proposes_from c (m t).1) →
    write_store m s3 = (s4, x) → proposes_from c (sv_store s4)) as Hw.
  { intros m s3 s4 x (c' & Hh & Ho) Hm. specialize (Hm _ _ Hh Ho). unfold write_store, smap_err, on_store. destruct (m (sv_store s3)). by intros [= <- _]. }
  assert (∀ s4 x, write_store (ms_add_edge e) s2 = (s4, x) → proposes_from c (sv_store s4)) as Hadd.
  { intros s4 x. apply Hw; [by rewrite S2, S1|]. intros t c' Hh Ho. destruct (add_edge_cases t c' e Hh) as (t' & y & -> & [Hh'|Hh']).
    - by exists c'.
    - exists (c_add_edge c' e). split; [done|]. eapply only_proposes_trans; [done|]. by apply only_proposes_add. }
  apply sbind_inv in Hc as [(s3 & [] & E3 & Hc)|(x & E3 & _)]; [|by eapply Hadd]. specialize (Hadd _ _ E3).
  assert (∀ s4 x, (if needs_second_party (e_kind e) then write_store (ms_put_meta (n_repo n) (inserted_by_key e) (as_bytes (pubkey_hex a))) else sret tt) s3 = (s4, x) →
    proposes_from c (sv_store s4)) as Hmeta.
  { intros s4 x. destruct (needs_second_party (e_kind e)); [|by intros [= <- _]]. apply Hw; [done|]. intros t c' Hh Ho.
    destruct (ms_put_meta_ok t c' (n_repo n) (inserted_by_key e) (as_bytes (pubkey_hex a)) Hh (λ _, Hv)) as (t' & y & -> & _ & Hy).
    destruct y; [exists (c_put_meta (inserted_by_key e) (as_bytes (pubkey_hex a)) c')|exists c']; (split; [apply Hy|done]). }
  apply sbind_inv in Hc as [(s4 & [] & E4 & Hc)|(x & E4 & _)]; [|by eapply Hmeta]. injection Hc as <- _. by eapply Hmeta.
Qed.

(** A proposal never touches what is load-bearing: whatever [memory.propose_edge] is
    called with and however it ends, the nodes stay, every confirmed edge stays exactly as
    it was, and any edge that is new or changed is quarantined. *)
Theorem propose_never_demotes args s s' r c (Ht : ms_holds (sv_store s) c)
    (Hmeta : ∀ a, sv_asserter s = Some a → ms_meta_value (as_bytes (pubkey_hex a)))
    (Hc : call_propose_edge clock filter_clock fs args s = (s', r)) :
  ∃ c', ms_holds (sv_store s') c' ∧ only_proposes c c'.
Proof.
  change (proposes_from c (sv_store s')). assert (proposes_from c (sv_store s)) as Hs by (exists c; split; [done|apply only_proposes_refl]).
  unfold call_propose_edge in Hc.
  apply still_inv in Hc as [Hc|(fp & s1 & _ & S1 & X1 & Hc)]; [by rewrite Hc| |still_step].
  apply still_inv in Hc as [Hc|(tp & s2 & _ & S2 & X2 & Hc)]; [by rewrite Hc, S1| |still_step].
  apply still_inv in Hc as [Hc|(k & s3 & _ & S3 & X3 & Hc)]; [by rewrite Hc, S2, S1| |still_step].
  apply still_inv in Hc as [Hc|(a & s4 & Ea & S4 & X4 & Hc)]; [by rewrite Hc, S3, S2, S1| |still_step].
  assert (sv_asserter s = Some a) as Ha.
  { destruct X1 as (_ & <- & _), X2 as (_ & <- & _), X3 as (_ & <- & _). unfold sread in Ea. destruct (sv_asserter s3); by inversion Ea. }
  rewrite S3, S2, S1 in S4. clear -Hc S4 Ht Hs Ha Hmeta MemStoreLaws0.
  apply still_inv in Hc as [Hc|([fi fn] & s5 & _ & S5 & _ & Hc)]; [by rewrite Hc, S4| |still_step].
  apply still_inv in Hc as [Hc|([ti tn] & s6 & _ & S6 & _ & Hc)]; [by rewrite Hc, S5, S4| |still_step].
  apply still_inv in Hc as [Hc|(? & s7 & _ & S7 & _ & Hc)]; [by rewrite Hc, S6, S5, S4| |still_step].
  apply still_inv in Hc as [Hc|(now & s8 & _ & S8 & _ & Hc)]; [by rewrite Hc, S7, S6, S5, S4| |still_step].
  eapply record_proposal_only; [|by apply Hmeta| |exact Hc]; [done|]. by rewrite S8, S7, S6, S5, S4.
Qed.

(** ** Resolving *)

(** The readable nodes whose id has the prefix *)
Definition matches s c (prefix : string) (i : ContentHash) (n : MemoryNode) : Prop :=
  c_nodes c !! i = Some n ∧ can_read filter_clock s (n_repo n) = true ∧ String.prefix prefix (to_hex i) = true.

Lemma resolve_readable_spec prefix s c : ms_holds (sv_store s) c →
  ∃ s' o, resolve_readable filter_clock prefix s = (s', Ok o) ∧
    ∀ i n, o = Some (i, n) ↔ (matches s c prefix i n ∧ ∀ j m, matches s c prefix j m → j = i) ∧
                             can_read filter_clock (next_step s) (n_repo n) = true.
Proof.
  intros Ht. unfold resolve_readable, sbind, reader, read_store, sread. cbn [sv_store next_step].
  destruct (resolve_prefix_where_spec (sv_store s) c prefix (λ n, can_read filter_clock s (n_repo n)) Ht) as (o & -> & Ho). cbn [map_err].
  destruct o as [id|].
  - destruct (Ho id) as [Hf _]. destruct (Hf eq_refl) as [(n & Hn & Hv & Hp) Hu]. rewrite (ms_get_node_ok _ c) by done. rewrite Hn. cbn [map_err].
    eexists _, _. split; [done|]. intros i m. change (can_read filter_clock _ (n_repo n)) with (can_read filter_clock (next_step s) (n_repo n)).
    split.
    + destruct (can_read filter_clock (next_step s) (n_repo n)) eqn:Hr; [|done]. intros [= <- <-]. split; [|done]. split; [done|].
      intros j m' (Hj & Hvj & Hpj). by eapply Hu.
    + intros [[(Hi & Hvi & Hpi) _] Hr]. assert (i = id) as -> by (by eapply Hu). rewrite Hn in Hi. injection Hi as <-. by rewrite Hr.
  - eexists _, _. split; [done|]. intros i n. split; [done|]. intros [[(Hi & Hvi & Hpi) Hu] _].
    destruct (Ho i) as [_ Ho']. discriminate Ho'. split; [eauto|]. intros j m Hj Hvj Hpj. eapply Hu. by split_and!.
Qed.

(** Prefixes do not reveal what a session may not read: on two stores whose readable
    nodes are the same, whatever else they hold, resolving any prefix for the same session
    at the same time gives the same answer, and that answer is the unique readable node
    with the prefix; so neither the presence nor the ambiguity of a node in another tenant
    shows. *)
Theorem resolve_readable_blind prefix s1 s2 c1 c2 (H1' : ms_holds (sv_store s1) c1) (H2' : ms_holds (sv_store s2) c2)
    (Hsame : same_session s1 s2) (Hstep : sv_step s1 = sv_step s2)
    (Hreadable : ∀ i n, can_read filter_clock s1 (n_repo n) = true → c_nodes c1 !! i = Some n ↔ c_nodes c2 !! i = Some n) :
  ∃ o, (resolve_readable filter_clock prefix s1).2 = Ok o ∧ (resolve_readable filter_clock prefix s2).2 = Ok o ∧
    ∀ i n, o = Some (i, n) → matches s1 c1 prefix i n ∧ ∀ j m, matches s1 c1 prefix j m → j = i.
Proof.
  assert (∀ r, can_read filter_clock s2 r = can_read filter_clock s1 r) as Hc.
  { intros r. unfold can_read. destruct Hsame as (-> & _ & _ & _ & _ & _ & ->). by rewrite Hstep. }
  assert (∀ r, can_read filter_clock (next_step s2) r = can_read filter_clock (next_step s1) r) as Hc'.
  { intros r. unfold can_read. cbn. destruct Hsame as (-> & _ & _ & _ & _ & _ & ->). by rewrite Hstep. }
  assert (∀ i n, matches s2 c2 prefix i n ↔ matches s1 c1 prefix i n) as Hm.
  { intros i n. unfold matches. rewrite Hc. split; intros (Ha & Hb & Hd); split_and!; try done; by apply Hreadable. }
  destruct (resolve_readable_spec prefix s1 c1 H1') as (s1' & o1 & E1 & Ho1).
  destruct (resolve_readable_spec prefix s2 c2 H2') as (s2' & o2 & E2 & Ho2). rewrite E1, E2. exists o1. cbn [snd].
  split; [done|]. split; [|intros i n Hi; apply Ho1 in Hi; apply Hi]. f_equal. apply option_eq. intros [i n]. rewrite Ho1, Ho2, Hc', Hm.
  by setoid_rewrite Hm.
Qed.

Lemma resolve_endpoint_stored prefix s s' c i n : ms_holds (sv_store s) c →
  resolve_endpoint filter_clock prefix s = (s', Ok (i, n)) → c_nodes c !! i = Some n.
Proof.
  intros Ht. unfold resolve_endpoint. destruct (resolve_readable_spec prefix s c Ht) as (s1 & o & Hr & Ho).
  rewrite (sbind_ok _ _ s s1 o) by done. destruct o as [[i' n']|]; [|done]. intros [= _ <- <-]. destruct (Ho i' n') as [Hi _]. by destruct (Hi eq_refl) as [[(? & _) _] _].
Qed.

(** ** Confirming *)

(** Who may confirm the stored proposal [p] on a node of [author] *)
Definition second_party c (caller : option string) (author : string) (p : Edge) : Prop :=
  ∃ who, caller = Some who ∧
    (who = author ∨
     (∃ b i, c_meta c !! inserted_by_key p = Some b ∧ from_utf8 b = Some i ∧ i ≠ who) ∧ p_asserter (e_provenance p) ≠ who).

Lemma find_proposal c f t k outs : lists_edges c (λ e, e_from e = f) outs →
  (∀ i e, c_edges c !! i = Some e → edge_ident e = i) →
  snd <$> list_find (λ e, e_to e = t ∧ e_kind e = k) outs = c_edges c !! (f, t, k).
Proof.
  intros [_ Hl] Hids. destruct (list_find _ outs) as [[j e]|] eqn:Hf; cbn.
  - apply list_find_Some in Hf as (He%list_elem_of_lookup_2 & [Ht Hk] & _). apply Hl in He as [He Hfr]. unfold edge_ident in He. by rewrite <-Ht, <-Hk, <-Hfr.
  - destruct (c_edges c !! (f, t, k)) as [e|] eqn:He; [|done]. apply list_find_None in Hf. rewrite Forall_forall in Hf.
    pose proof (Hids _ _ He) as Hi. unfold edge_ident in Hi. injection Hi as Hfr Ht Hk. exfalso. apply (Hf e); [|done]. apply Hl. split; [|done].
    unfold edge_ident. by rewrite Hfr, Ht, Hk.
Qed.

Lemma check_second_party_ok c f t n k s s' : ms_holds (sv_store s) c → needs_second_party k = true →
  check_second_party f t n k s = (s', Ok tt) → ∀ p, c_edges c !! (f, t, k) = Some p →
  second_party c (pubkey_hex <$> sv_asserter s) (n_author n) p.
Proof.
  intros Ht Hk. unfold check_second_party. rewrite Hk. intros Hc p Hp.
  rewrite (sbind_ok _ _ s s (pubkey_hex <$> sv_asserter s)) in Hc by done.
  destruct (ms_out_edges_ok _ c f Ht) as (outs & Ho & Hl). rewrite (sbind_ok _ _ s s outs) in Hc by (unfold read_store, sread; by rewrite Ho).
  rewrite (find_proposal c f t k outs Hl (proj2 (ms_ids _ c Ht))) in Hc. rewrite Hp in Hc.
  rewrite (sbind_ok _ _ s s (c_meta c !! inserted_by_key p ≫= from_utf8)) in Hc.
  2:{ unfold sbind, read_store, sread. by rewrite (ms_get_meta_ok _ c) by done. }
  destruct (confirm_allowed _ _ _ _) eqn:Ha; [|done]. unfold confirm_allowed in Ha.
  destruct (pubkey_hex <$> sv_asserter s) as [who|] eqn:Hw; [|done]. exists who. split; [done|].
  rewrite !orb_true_iff, andb_true_iff, negb_true_iff, !bool_decide_eq_true, bool_decide_eq_false in Ha.
  destruct Ha as [[->|?]|[Hi Hpr]]; [by left|done|]. right. split.
  - destruct (c_meta c !! inserted_by_key p) as [b|]; [|done]. destruct (from_utf8 b) as [i|] eqn:Hu; cbn in Hi; rewrite ?Hu in Hi; [|done].
    exists b, i. apply negb_true_iff, bool_decide_eq_false in Hi. done.
  - intros E. apply Hpr. cbn. by f_equal.
Qed.

(** [C12] No one retires another's claim alone: when [memory.confirm_edge] changes the
    contents, it promoted exactly one stored proposal that was quarantined, between the two
    nodes named; and if that edge supersedes, refutes or contradicts, the caller is either
    the author of the node it targets, or neither the principal that inserted the proposal
    (which must be on record) nor the one that signed it. *)
Theorem confirm_needs_second_party args s s' r c (Ht : ms_holds (sv_store s) c)
    (Hc : call_confirm_edge clock filter_clock fs args s = (s', r)) (Hch : ¬ ms_holds (sv_store s') c) :
  ∃ f t k n p now, c_edges c !! (f, t, k) = Some p ∧ e_quarantined p = true ∧ c_nodes c !! t = Some n ∧
    (∃ c' x, confirm_step c (f, t, k) now (Ok x) c' ∧ ms_holds (sv_store s') c') ∧
    (needs_second_party k = true → second_party c (pubkey_hex <$> sv_asserter s) (n_author n) p).
Proof.
  unfold call_confirm_edge in Hc.
  apply still_inv in Hc as [Hc|(fp & s1 & _ & S1 & X1 & Hc)]; [by rewrite Hc in Hch| |still_step].
  apply still_inv in Hc as [Hc|(tp & s2 & _ & S2 & X2 & Hc)]; [by rewrite Hc, S1 in Hch| |still_step].
  apply still_inv in Hc as [Hc|(k & s3 & _ & S3 & X3 & Hc)]; [by rewrite Hc, S2, S1 in Hch| |still_step].
  apply still_inv in Hc as [Hc|([f fn] & s4 & _ & S4 & X4 & Hc)]; [by rewrite Hc, S3, S2, S1 in Hch| |still_step].
  apply still_inv in Hc as [Hc|([t n] & s5 & Et & S5 & X5 & Hc)]; [by rewrite Hc, S4, S3, S2, S1 in Hch| |still_step].
  assert (c_nodes c !! t = Some n) as Hn by (eapply resolve_endpoint_stored; [|exact Et]; by rewrite S4, S3, S2, S1).
  assert (sv_store s5 = sv_store s) as S by congruence. assert (same_session s s5) as X by eauto 6 using same_session_trans.
  clear -Hc Hn S X Ht Hch MemStoreLaws0.
  apply still_inv in Hc as [Hc|(? & s6 & _ & S6 & X6 & Hc)]; [by rewrite Hc, S in Hch| |still_step].
  apply still_inv in Hc as [Hc|(? & s7 & _ & S7 & X7 & Hc)]; [by rewrite Hc, S6, S in Hch| |still_step].
  apply still_inv in Hc as [Hc|([] & s8 & E8 & S8 & X8 & Hc)]; [by rewrite Hc, S7, S6, S in Hch| |still_step].
  assert (same_session s s7) as (_ & Hasr & _) by eauto using same_session_trans.
  unfold promote in Hc. apply still_inv in Hc as [Hc|(now & s9 & _ & S9 & X9 & Hc)]; [by rewrite Hc, S8, S7, S6, S in Hch| |still_step].
  assert (ms_holds (sv_store s9) c) as H9 by (by rewrite S9, S8, S7, S6, S).
  destruct (ms_confirm_ok _ c f t k now H9) as (t' & out & Hconf & _ & Hx).
  unfold on_store in Hc. rewrite Hconf in Hc. assert (sv_store s' = t') as Hs' by (destruct out as [[]|]; by injection Hc as <- _).
  rewrite Hs' in *. destruct Hx as [(c' & Hstep & Hh)|(err & _ & Hh & _)]; [|done].
  inversion Hstep as [Hno|e He Hq|e rep c2 He Hq Hk Hsup|e err c2 He Hq Hk Hsup|e He Hq Hk]; subst; try done.
  - exists f, t, k, n, e, now. split_and!; [done..|by exists c', ConfirmOutcome.Confirmed|]. intros Hk'. rewrite <-Hasr.
    eapply check_second_party_ok; [|done|exact E8|done]. by rewrite S7, S6, S.
  - assert (c' = c) as -> by (by inversion Hsup). done.
  - exists f, t, k, n, e, now. split_and!; [done..| |].
    + eexists _, ConfirmOutcome.Confirmed. split; [by apply confirm_other|done].
    + intros Hk'. rewrite <-Hasr. eapply check_second_party_ok; [|done|exact E8|done]. by rewrite S7, S6, S.
Qed.
End mcp_writes.
