(* ===== verification/McpSurface.v ===== *)
(** * The advertised tools are the ones served *)

From S2P Require Import Prelude Bytes Externs Text Str Belnap Identity Node Float Edge Grant AuditLog Kv Shred Store StoreContents.
From S2P Require Import Supersession StoreInterface Assert Index Hnsw Query Search Display Chunk McpRender Mcp McpProps.

Definition jarray (v : option Value) : list Value := match v with Some (JArray l) => l | _ => [] end.
Definition jstrings (v : option Value) : list string := omap as_str (jarray v).
Definition jkeys (v : option Value) : list string := match v with Some (JObject m) => (map_to_list m).*1 | _ => [] end.

Definition advertised : list Value := jarray (jget tools_list "tools").
Definition tool_name (t : Value) : string := default "" (jget t "name" ≫= as_str).
Definition schema (t : Value) : Value := default JNull (jget t "inputSchema").
Definition required (t : Value) : list string := jstrings (jget (schema t) "required").
Definition properties (t : Value) : list string := jkeys (jget (schema t) "properties").
(** The values a tool's schema lists for an argument *)
Definition enum_of (name arg : string) : list string :=
  mjoin ((λ t, jstrings (jget (schema t) "properties" ≫= λ p, jget p arg ≫= λ a, jget a "enum"))
         <$> filter (λ t, tool_name t = name) advertised).

(** A schema in the 2020-12 dialect, closed, whose required arguments are all described *)
Definition schema_ok (t : Value) : bool :=
  match jget (schema t) "$schema" with Some (JString d) => bool_decide (d = JSON_SCHEMA_2020_12) | _ => false end
  && match jget (schema t) "additionalProperties" with Some (JBool b) => negb b | _ => false end
  && forallb (λ k, bool_decide (k ∈ properties t)) (required t) && negb (bool_decide (required t = [])).

Section surface.
Context {T : Type} `{MemStore T, Blake3, Hex, Ed25519, Serde Watermark, Serde AuditRecord, Serde Head}.
Context `{Unicode, FloatNan, Ln, SliceSort, CharTables, SerdeJson, FromJson CapabilityGrant, FromJson MemoryDiff}.
Context (clock : nat → Timestamp) (filter_clock : nat → string → Timestamp) (fs : nat → IoOracle).


Lemma arg_str_missing args k : jget args k = None → arg_str args k = Err (-32602, "missing string argument '" +:+ k +:+ "'").
Proof. unfold arg_str. by intros ->. Qed.

(** A handler that begins by reading a string argument fails there, or goes on with it. *)
Lemma first_arg args k (f : string → stm (MemoryMcpServer (T := T)) Exit Value) s :
  (jget args k = None ∨ ∀ v, ∃ msg, f v s = (s, Err (Fail (-32602, msg)))) →
  ∃ msg, sbind (arg (arg_str args k)) f s = (s, Err (Fail (-32602, msg))).
Proof.
  intros [Hn|Hf].
  - rewrite arg_str_missing by done. by eexists.
  - destruct (arg_str args k) as [v|[c m]] eqn:E; [exact (Hf v)|]. unfold arg_str in E. destruct (jget args k ≫= as_str); [done|].
    cbn in E. injection E as <- <-. by eexists.
Qed.

(** Missing arguments are refused before anything happens: for every advertised tool and
    every argument its schema requires, a call without it fails with the invalid-params
    code and leaves the server exactly as it was: nothing is audited, read or written. *)
Theorem required_args_checked t name call k args (s : MemoryMcpServer (T := T)) (Ht : t ∈ advertised)
    (Hn : tool_name t = name) (Hc : (name, call) ∈ tools clock filter_clock fs) (Hk : k ∈ required t) (Hm : jget args k = None) :
  ∃ msg, call args s = (s, Err (Fail (-32602, msg))).
Proof.
  assert ((name, k) ∈ [("memory.recall", "repo"); ("memory.search", "repo"); ("memory.search", "query"); ("memory.neighbors", "repo");
    ("memory.neighbors", "id_prefix"); ("memory.as_of", "repo"); ("memory.as_of", "as_of_ms"); ("memory.verify", "repo"); ("memory.verify", "id_prefix");
    ("memory.critique", "repo"); ("memory.analogy", "repo"); ("memory.analogy", "id_prefix"); ("memory.propose_edge", "from_prefix");
    ("memory.propose_edge", "to_prefix"); ("memory.confirm_edge", "from_prefix"); ("memory.confirm_edge", "to_prefix"); ("memory.assert", "repo");
    ("memory.assert", "content"); ("memory.merge_diff", "diff")]) as Hnk.
  { assert (∀ l : list (string * string), forallb (λ t, forallb (λ k, bool_decide ((tool_name t, k) ∈ l)) (required t)) advertised = true → (name, k) ∈ l) as Hall.
    { intros l Hl. rewrite forallb_forall in Hl. specialize (Hl t (proj1 (list_elem_of_In _ _) Ht)). rewrite forallb_forall in Hl.
      specialize (Hl k (proj1 (list_elem_of_In _ _) Hk)). apply bool_decide_eq_true in Hl. by rewrite <-Hn. }
    apply Hall. vm_compute. done. }
  clear Ht Hn Hk. unfold tools in Hc.
  repeat (apply elem_of_cons in Hc as [[= -> ->]|Hc]; [|]); [..|by apply not_elem_of_nil in Hc].
  all: repeat (apply elem_of_cons in Hnk as [[=]|Hnk]; subst); try by apply not_elem_of_nil in Hnk.
  all: unfold call_recall, call_search, call_neighbors, call_as_of, call_verify, call_critique, call_analogy, call_assert, call_merge_diff,
    call_propose_edge, call_confirm_edge.
  all: try (apply first_arg; by left).
  all: apply first_arg; right; intros v; try (apply first_arg; by left).
  rewrite Hm. by eexists.
Qed.
End surface.
