(* ===== verification/Daemon.v ===== *)
(** * The server processes ([mem-mcp/src/main.rs], [store_key] of [mem-mcp/src/lib.rs],
    [mem-gateway/src/main.rs])

    What happens around the server: the key the daemon's identity is derived from, the
    rolling checkpoints of its store, the choice of an embedder, the [import-corpus]
    command, and the order in which a daemon starts; and the start of the gateway with its
    refusals.  The environment, the key file, the
    directory of checkpoints and the operating system's answers are values. *)

From S2P Require Import Prelude Bytes Externs Text Str Belnap Identity Node Float Edge Grant AuditLog Kv Shred Store StoreContents.
From S2P Require Import Control GwAuth Scene Gateway.
From S2P Require Import Supersession StoreInterface Rocks Assert Sync Index Hnsw Query Search Display Docs Git Chunk Ingest Control Corpus SyncChain CorpusImport McpRender Mcp.

(** The process environment; [std::env::var(k).ok()] is [None] when the value is not text. *)
Definition Environ := string → option string.
Definition env_text (env : Environ) (k : string) : option string :=
  match env k with Some v => if utf8_valid (as_bytes v) then Some v else None | None => None end.
Definition path_display (p : string) : string := from_utf8_lossy (as_bytes p).

(** [env_usize] *)
Definition env_usize (env : Environ) (key : string) (default_value : Z) : Z :=
  default default_value (env_text env key ≫= λ v, rok (parse_usize (as_bytes v))).

(** ** The store key *)

Definition STORE_KEY_FILE_ENV : string := "CITRATE_MEM_STORE_KEY_FILE".
Definition STORE_KEY_ENV : string := "CITRATE_MEM_STORE_KEY".
Definition STORE_KEY_LEN : nat := 32.

(** An opened file: its metadata and its bytes, each of which may fail to be read *)
Record FileMeta := { fm_is_file : bool; fm_uid : Z; fm_mode : Z }.
Record OpenFile := { of_metadata : result string FileMeta; of_read : result string bytes }.
(** What opening a path without following a link gives, and the effective user *)
Record KeyFs := { kf_open : string → result string OpenFile; kf_euid : Z }.

Section store_key.
Context `{Hex}.

Definition decode_key (hex_key : string) : option bytes :=
  match hex_decode (string_of_bytes (trim (as_bytes hex_key))) with
  | Ok raw => if bool_decide (length raw = STORE_KEY_LEN) then Some raw else None
  | Err _ => None
  end.

(** [take(4096).read_to_string]: the first 4096 bytes, which must be text *)
Definition read_to_string_4096 (f : OpenFile) : result string string :=
  let? b := of_read f in
  ok_or (from_utf8 (take (Z.to_nat 4096) b)) "stream did not contain valid UTF-8".

Definition read_owner_only (fs : KeyFs) (path : string) : result string string :=
  let shown := path_display path in
  let? f := map_err (λ e, "cannot open the store key file " +:+ shown +:+ ": " +:+ e) (kf_open fs path) in
  let? meta := map_err (λ e, "cannot read the store key file " +:+ shown +:+ ": " +:+ e) (of_metadata f) in
  if negb (fm_is_file meta) then Err ("the store key file " +:+ shown +:+ " is not a regular file")
  else if negb (fm_uid meta =? kf_euid fs) then Err ("the store key file " +:+ shown +:+ " belongs to another user")
  else if negb (Z.land (fm_mode meta) 0x3f =? 0) then Err ("the store key file " +:+ shown +:+ " is readable by other users")
  else map_err (λ e, "cannot read the store key file " +:+ shown +:+ ": " +:+ e) (read_to_string_4096 f).

Definition read_store_key (fs : KeyFs) (file inline : option string) : result string (option bytes) :=
  match file with
  | None => Ok (inline ≫= decode_key)
  | Some path =>
    let? text := read_owner_only fs path in
    ok_or (Some <$> decode_key text)
      ("the store key file " +:+ path_display path +:+ " does not hold a " +:+ decimal (Z.of_nat STORE_KEY_LEN) +:+ "-byte hex key")
  end.
End store_key.

(** ** Identity and grant *)

Definition IDENTITY_LABEL : bytes := as_bytes "mem-mcp:daemon-identity:v1".

Section identity.
Context {R : Type} `{Rng R, Blake3, Hex, Ed25519}.

Definition derived_identity (raw : bytes) : SigningKey :=
  sk_from_bytes (blake3 (IDENTITY_LABEL ++ to_le_bytes 8 (Z.of_nat (length raw)) ++ raw)).

Definition daemon_identity (env : Environ) (fs : KeyFs) : stm R string SigningKey :=
  let! key := slift (read_store_key fs (env STORE_KEY_FILE_ENV) (env_text env STORE_KEY_ENV)) in
  match key with
  | Some raw => sret (derived_identity raw)
  | None =>
    let! seed := smap_err (λ e, "OS randomness unavailable: " +:+ e) (getrandom 32) in
    sret (sk_from_bytes seed)
  end.

Definition session_grant (sk : SigningKey) : CapabilityGrant :=
  sign_with {| g_id := "mem-mcp:local-session"; g_issuer := "local:citrate-core"; g_recipient := "local:mem-mcp";
               g_allowed_resources := [{| Grant.resource_id := "*"; Grant.can_read := true; Grant.can_write := true |}];
               g_policy := Maintainer; g_expires_at_ms := u64_max; g_revoked := false; g_delegation_chain := [];
               g_issuer_pubkey := []; g_signature := [] |} sk.
End identity.

(** ** Rolling checkpoints *)

Definition checkpoint_dir (db : string) : string := db +:+ ".checkpoints".
(** [format!("ckpt-{stamp:020}")] *)
Definition ckpt_name (stamp : Z) : string := "ckpt-" +:+ pad_left 20 (decimal stamp).

(** What the file system answers while a checkpoint is taken and the old ones are pruned *)
Record CkptIo := {
  ci_mkdir : option string;
  (** milliseconds since the epoch; [None] when the clock is before it *)
  ci_now : option Z;
  ci_read_dir : option string;
  (** the directory entry could not be read *)
  ci_entry_fails : string → bool;
  (** [remove_dir_all] failed, which is ignored *)
  ci_remove_fails : string → bool;
}.

(** The entries of the checkpoint directory that are checkpoints, oldest name first *)
Definition listed_ckpts (io : CkptIo) (dir : gset string) : list string :=
  sort_by_key id (filter (λ n, String.prefix "ckpt-" n = true)
    ((λ n, from_utf8_lossy (as_bytes n)) <$> filter (λ n, ci_entry_fails io n = false) (elements dir))).
Definition prune_ckpts (io : CkptIo) (keep : nat) (dir : gset string) : gset string :=
  let ckpts := listed_ckpts io dir in
  if (keep <? length ckpts)%nat then
    foldl (λ dir old, if ci_remove_fails io old then dir else dir ∖ {[old]}) dir (take (length ckpts - keep) ckpts)
  else dir.

(** The directory's entries afterwards, and the outcome *)
Definition rolling_checkpoint (checkpoint : string → result StoreError unit) (io : CkptIo) (db : string) (keep : nat) : stm (gset string) string string := λ dir,
  match ci_mkdir io with
  | Some e => (dir, Err ("mkdir " +:+ path_display (checkpoint_dir db) +:+ ": " +:+ e))
  | None =>
    let name := ckpt_name (default 0 (ci_now io)) in
    match checkpoint (checkpoint_dir db +:+ "/" +:+ name) with
    | Err e => (dir, Err (StoreError_display e))
    | Ok _ =>
      let dir := {[name]} ∪ dir in
      match ci_read_dir io with
      | Some e => (dir, Err e)
      | None => (prune_ckpts io keep dir, Ok name)
      end
    end
  end.

(** ** The embedder *)

Definition DEFAULT_MODEL_ID : string := "bge-base-en-v1.5".

Section embedder.
Context {T : Type} `{MemStore T}.
(** [TransformerEmbedder::bge_base()] *)
Context (bge_base : result string Embedder).

(** [Err code] when the process exits *)
Definition load_query_embedder (env : Environ) (store : T) : result Z (option Embedder) :=
  let detected := default None (rok (detect_store_embedding_model store)) in
  let force_bge := match env_text env "CITRATE_MEM_EMBED" with Some v => eq_ignore_ascii_case (as_bytes v) (as_bytes "bge") | None => false end in
  let load := match bge_base with Ok e => Ok (Some e) | Err _ => Err 1 end in
  match detected with
  | Some m => if bool_decide (m = DEFAULT_MODEL_ID) then load else Ok None
  | None => if force_bge then load else Ok None
  end.

Definition bge_weights_sha256 `{Hex, Sha256} (env : Environ) (read : string → result string bytes) (em : Embedder) : option string :=
  if negb (bool_decide (em_model_id em = DEFAULT_MODEL_ID)) then None
  else
    match env_text env "CITRATE_BGE_MODEL_DIR" with
    | Some dir => if bool_decide (dir = "") then None else sha256_hex <$> rok (read (dir +:+ "/" +:+ "model.safetensors"))
    | None => None
    end.
End embedder.

(** ** Sessions *)

Section session.
Context {T : Type} `{Ed25519, Hex}.
Abbreviation session := (@MemoryMcpServer T _).
Implicit Types s : session.

Definition with_query_embedder (e : Embedder) s : session :=
  {| sv_store := sv_store s; sv_grant := sv_grant s; sv_asserter := sv_asserter s; sv_query_embedder := Some e;
     sv_index_cache := sv_index_cache s; sv_write_gate := sv_write_gate s; sv_audit := sv_audit s;
     sv_audit_poisoned := sv_audit_poisoned s; sv_audit_disk := sv_audit_disk s; sv_req_trace := sv_req_trace s;
     sv_req_grant := sv_req_grant s; sv_step := sv_step s |}.
Definition with_index_cache (c : TenantIndexCache) s : session := set_cache (Some c) s.
(** The gate is shared: [poisoned] is its state when the session starts. *)
Definition with_write_gate (poisoned : bool) s : session :=
  {| sv_store := sv_store s; sv_grant := sv_grant s; sv_asserter := sv_asserter s; sv_query_embedder := sv_query_embedder s;
     sv_index_cache := sv_index_cache s; sv_write_gate := Some poisoned; sv_audit := sv_audit s;
     sv_audit_poisoned := sv_audit_poisoned s; sv_audit_disk := sv_audit_disk s; sv_req_trace := sv_req_trace s;
     sv_req_grant := sv_req_grant s; sv_step := sv_step s |}.
(** The chain, the poisoning of its lock and its files *)
Definition with_audit_chain (c : AuditChain) (poisoned : bool) (d : Disk) s : session :=
  {| sv_store := sv_store s; sv_grant := sv_grant s; sv_asserter := sv_asserter s; sv_query_embedder := sv_query_embedder s;
     sv_index_cache := sv_index_cache s; sv_write_gate := sv_write_gate s; sv_audit := c;
     sv_audit_poisoned := poisoned; sv_audit_disk := d; sv_req_trace := sv_req_trace s;
     sv_req_grant := sv_req_grant s; sv_step := sv_step s |}.
End session.

(** ** The processes *)

Section daemon.
Context {D K R : Type} `{RocksDb D, !RocksDisk K D, Rng R, Blake3, Hex, Aead, Serde Envelope, Serde KeyringEntry, Serde Edge, Serde MemoryNode}.
Context `{Ed25519, Serde AuditRecord, Serde Head}.
Abbreviation rocks_store := (MemoryDagStore (RocksKv D) R).

(** *** [mem-mcp import-corpus <store-path> <corpus-dir>] *)

Definition open_error_json (db : string) (e : StoreError) : Value :=
  obj [("event", JString "error"); ("stage", JString "open");
       ("message", JString ("cannot open " +:+ db +:+ " (is the memory daemon running?): " +:+ StoreError_display e))].

(** The databases, the lines on standard output and the exit code; [r] feeds the store and
    [r'] the import's signatures *)
Definition import_corpus_main `{Unicode, Half, FloatNan, Sha256, CharTables, Serde Manifest, JsonText Manifest, FromJson MemoryNode, FromJson Edge, CompactText}
    (bge_base : result string Embedder) (env : Environ) (fs : Files) (read : string → result string bytes) (args : list string) (r r' : R) (k : K)
    : K * list Value * Z :=
  match args with
  | db :: dir :: _ =>
    match open_rocksdb_auto (D := D) db r k with
    | (k', Ok store) =>
      match load_query_embedder bge_base env store with
      | Err code => (k', [], code)
      | Ok loaded =>
        let embedder := default (HashingEmbedder_new EMBED_DIM) loaded in
        let weights := bge_weights_sha256 env read embedder in
        let '(lines, _, x) := import_dir_with_progress_reusing fs dir embedder weights (r', store) in
        (k', lines, match x with Ok _ => 0 | Err _ => 1 end)
      end
    | (k', Err e) => (k', [open_error_json db e], 1)
    end
  | _ => (k, [], 2)
  end.

(** *** [mem-mcp <store-path> <sock-path>] *)

Inductive StartStep :=
| StoreOpened
| SocketRemoved
| CheckpointTried (r : result string string)
| AuditVerified
| SocketBound.

(** What a starting daemon changes: the databases, the random source, the checkpoint
    directory, the audit files, whether the socket file exists, and the steps it took *)
Record World := {
  w_dbs : K;
  w_rng : R;
  w_ckpts : gset string;
  w_audit : Disk;
  w_sock : bool;
  w_steps : list StartStep;
}.
(** The operating system's answers *)
Record StartIo := {
  si_key : KeyFs;
  si_remove : option string;
  si_ckpt : CkptIo;
  si_audit : IoOracle;
  si_endpoint : option string;
  si_bind : option string;
  si_bge : result string Embedder;
}.
(** What the sessions share *)
Record Serving := {
  sg_store : rocks_store;
  sg_identity : SigningKey;
  sg_grant : CapabilityGrant;
  sg_embedder : option Embedder;
  sg_audit : AuditChain;
  sg_interval_secs : Z;
  sg_keep : Z;
}.

Definition set_dbs (k : K) (w : World) : World :=
  {| w_dbs := k; w_rng := w_rng w; w_ckpts := w_ckpts w; w_audit := w_audit w; w_sock := w_sock w; w_steps := w_steps w |}.
Definition set_rng (r : R) (w : World) : World :=
  {| w_dbs := w_dbs w; w_rng := r; w_ckpts := w_ckpts w; w_audit := w_audit w; w_sock := w_sock w; w_steps := w_steps w |}.
Definition set_ckpts (x : gset string) (w : World) : World :=
  {| w_dbs := w_dbs w; w_rng := w_rng w; w_ckpts := x; w_audit := w_audit w; w_sock := w_sock w; w_steps := w_steps w |}.
Definition set_log (d : Disk) (w : World) : World :=
  {| w_dbs := w_dbs w; w_rng := w_rng w; w_ckpts := w_ckpts w; w_audit := d; w_sock := w_sock w; w_steps := w_steps w |}.
Definition set_sock (b : bool) (w : World) : World :=
  {| w_dbs := w_dbs w; w_rng := w_rng w; w_ckpts := w_ckpts w; w_audit := w_audit w; w_sock := b; w_steps := w_steps w |}.
Definition add_step (x : StartStep) (w : World) : World :=
  {| w_dbs := w_dbs w; w_rng := w_rng w; w_ckpts := w_ckpts w; w_audit := w_audit w; w_sock := w_sock w; w_steps := w_steps w ++ [x] |}.

(** A step of the start: an error is the exit code. *)
Abbreviation start A := (stm World Z A).

Definition make_identity (env : Environ) (io : StartIo) : start SigningKey :=
  λ w, let '(r, x) := daemon_identity env (si_key io) (w_rng w) in (set_rng r w, map_err (λ _, 1) x).
Definition open_store (db : string) : start rocks_store :=
  λ w, match open_rocksdb_auto (D := D) db (w_rng w) (w_dbs w) with
       | (k, Ok s) => (add_step StoreOpened (set_dbs k w), Ok s)
       | (k, Err _) => (set_dbs k w, Err 1)
       end.
Definition remove_stale_socket (io : StartIo) : start unit :=
  λ w, if w_sock w then
         match si_remove io with
         | Some _ => (w, Err 1)
         | None => (add_step SocketRemoved (set_sock false w), Ok tt)
         end
       else (w, Ok tt).
(** A checkpoint that fails is reported and the start goes on. *)
Definition startup_checkpoint (io : StartIo) (store : rocks_store) (db : string) (interval keep : Z) : start unit :=
  λ w, if 0 <? interval then
         let '(dir, x) := rolling_checkpoint (store_checkpoint store) (si_ckpt io) db (Z.to_nat keep) (w_ckpts w) in
         (add_step (CheckpointTried x) (set_ckpts dir w), Ok tt)
       else (w, Ok tt).
(** The audit files are those beside the store, [<db>.audit.jsonl]. *)
Definition open_audit (io : StartIo) : start AuditChain :=
  λ w, match AuditChain_open (si_audit io) (w_audit w) with
       | (d, Ok c) => (add_step AuditVerified (set_log d w), Ok c)
       | (d, Err _) => (set_log d w, Err 1)
       end.
Definition bind_socket (io : StartIo) : start unit :=
  λ w, match si_endpoint io, si_bind io with
       | None, None => (add_step SocketBound (set_sock true w), Ok tt)
       | _, _ => (w, Err 1)
       end.

(** [main] once the store is open, up to the accept loop *)
Definition after_open (env : Environ) (io : StartIo) (db : string) (store : rocks_store) (identity : SigningKey) : start Serving :=
  let! _ := remove_stale_socket io in
  let interval := env_usize env "MEM_CHECKPOINT_INTERVAL_SECS" 1800 in
  let keep := Z.max (env_usize env "MEM_CHECKPOINT_KEEP" 3) 1 in
  let! _ := startup_checkpoint io store db interval keep in
  let! embedder := slift (load_query_embedder (si_bge io) env store) in
  let! audit := open_audit io in
  let! _ := bind_socket io in
  sret {| sg_store := store; sg_identity := identity; sg_grant := session_grant identity; sg_embedder := embedder;
          sg_audit := audit; sg_interval_secs := interval; sg_keep := keep |}.
Definition daemon_start (env : Environ) (io : StartIo) (argv : list string) : start Serving :=
  let db := default "./data/federation.memdag" (argv !! 1%nat) in
  let! identity := make_identity env io in
  let! store := open_store db in
  after_open env io db store identity.

(** The server of one connection, over what the sessions share: the store, the write gate
    and the audit chain in the state they are in when it is accepted, the index cache *)
Definition session_server (sg : Serving) (store : rocks_store) (gate_poisoned : bool) (cache : TenantIndexCache)
    (audit : AuditChain) (audit_poisoned : bool) (disk : Disk) : MemoryMcpServer :=
  let session := with_audit_chain audit audit_poisoned disk (with_index_cache cache (with_write_gate gate_poisoned
                  (MemoryMcpServer_new store (sg_grant sg) (Some (Asserter_new (sg_identity sg)))))) in
  match sg_embedder sg with Some e => with_query_embedder e session | None => session end.

(** *** [mem-gateway] *)

Context `{Jwt, JsonText Control, JsonText JwkSet}.

Definition DEFAULT_ORG : string := "citrate-federation".
Definition DEFAULT_STORE : string := "./data/federation.bge.enc.memdag".
Definition DEFAULT_BIND : string := "127.0.0.1:8799".

Record Args := { a_org : string; a_store : string; a_bind : string; a_bootstrap_owner : option string }.

(** The loop of [parse_args]; [None] when the process prints its usage and exits.  A flag
    with nothing after it keeps its value, but [--bootstrap-owner] loses it. *)
Fixpoint parse_flags (argv : list string) (a : Args) : option Args :=
  match argv with
  | [] => Some a
  | x :: rest =>
    if decide (x = "--org") then
      match rest with [] => Some a | v :: rest => parse_flags rest {| a_org := v; a_store := a_store a; a_bind := a_bind a; a_bootstrap_owner := a_bootstrap_owner a |} end
    else if decide (x = "--store") then
      match rest with [] => Some a | v :: rest => parse_flags rest {| a_org := a_org a; a_store := v; a_bind := a_bind a; a_bootstrap_owner := a_bootstrap_owner a |} end
    else if decide (x = "--bind") then
      match rest with [] => Some a | v :: rest => parse_flags rest {| a_org := a_org a; a_store := a_store a; a_bind := v; a_bootstrap_owner := a_bootstrap_owner a |} end
    else if decide (x = "--bootstrap-owner") then
      match rest with
      | [] => Some {| a_org := a_org a; a_store := a_store a; a_bind := a_bind a; a_bootstrap_owner := None |}
      | v :: rest => parse_flags rest {| a_org := a_org a; a_store := a_store a; a_bind := a_bind a; a_bootstrap_owner := Some v |}
      end
    else if decide (x = "-h" ∨ x = "--help") then None
    else parse_flags rest a
  end.
Definition parse_args (env : Environ) (argv : list string) : option Args :=
  parse_flags (drop 1 argv) {| a_org := default DEFAULT_ORG (env_text env "MEM_DEFAULT_ORG"); a_store := default DEFAULT_STORE (env_text env "MEM_DEFAULT_STORE");
                               a_bind := DEFAULT_BIND; a_bootstrap_owner := None |}.

Definition env_opt (env : Environ) (key : string) : option string :=
  match env_text env key with Some v => if bool_decide (v = "") then None else Some v | None => None end.

Definition resolve_asserter_seed (env_val : option string) : result string string :=
  ok_or env_val "MEM_GATEWAY_ASSERTER_SEED unset — refusing to start. It derives the key that signs every grant and per-principal assertion; a default would be a published signing key. Set it in the operator EnvironmentFile (/etc/mem-gateway/mem-gateway.env).".

Definition dev_auth_permitted (oidc_on allow_dev_auth : bool) (ack : option string) : result string unit :=
  if oidc_on || negb allow_dev_auth then Ok tt
  else if bool_decide (ack = Some "1") then Ok tt
  else Err "MEM_GATEWAY_ALLOW_DEV_AUTH=1 trusts the unauthenticated x-dev-sub header (impersonate any member). Refusing to start: this is DEVELOPMENT ONLY. Set MEM_GATEWAY_DEV_AUTH_ACK=1 to acknowledge a non-production deployment, or configure OIDC_* for real authentication.".

Definition gw_load_query_embedder {T} `{MemStore T} (bge_base : result string Embedder) (store : T) : result Z (option Embedder) :=
  match default None (rok (detect_store_embedding_model store)) with
  | None => Ok None
  | Some model =>
    if negb (bool_decide (model = DEFAULT_MODEL_ID)) then Ok None
    else match bge_base with Ok e => Ok (Some e) | Err _ => Err 1 end
  end.

(** What the start changes: the databases, the audit files and the control file; and the
    operating system's answers *)
Record GwWorld := { gm_dbs : K; gm_audit : Disk; gm_files : gmap string bytes }.
Record GwIo := {
  gi_now : Timestamp;
  gi_audit : IoOracle;
  gi_control_read : option string;
  gi_save : SaveIo;
  gi_read : string → result string string;
  gi_bge : result string Embedder;
}.
Definition failing {E A} (r : result E A) : result Z A := map_err (λ _, 1) r.

Definition gw_open_store (path : string) (r : R) : stm GwWorld Z rocks_store :=
  λ w, let '(k, x) := open_rocksdb_auto (D := D) path r (gm_dbs w) in
       ({| gm_dbs := k; gm_audit := gm_audit w; gm_files := gm_files w |}, failing x).
(** The audit files are those of the configured path. *)
Definition gw_open_audit (io : GwIo) : stm GwWorld Z AuditChain :=
  λ w, let '(d, x) := AuditChain_open (gi_audit io) (gm_audit w) in
       ({| gm_dbs := gm_dbs w; gm_audit := d; gm_files := gm_files w |}, failing x).
(** The organisation and its bootstrapped owner, saved when they are new *)
Definition gw_control_plane (io : GwIo) (path : string) (args : Args) : stm GwWorld Z Control :=
  λ w, match load (gi_control_read io) path (gm_files w) with
       | Err _ => (w, Err 1)
       | Ok control =>
         let '(c1, dirty) := ensure_org control (a_org args) (a_store args) (gi_now io) in
         let '(c2, dirty) := match a_bootstrap_owner args with
                             | Some owner => let '(c, changed) := upsert_membership c1 owner (a_org args) OrgOwner in (c, dirty || changed)
                             | None => (c1, dirty)
                             end in
         if dirty : bool then
           let '(files, x) := save (gi_save io) c2 path (gm_files w) in
           ({| gm_dbs := gm_dbs w; gm_audit := gm_audit w; gm_files := files |}, rmap (λ _, c2) (failing x))
         else (w, Ok c2)
       end.
Definition oidc_setup (env : Environ) (io : GwIo) : result Z (option OidcVerifier) :=
  match env_opt env "OIDC_ISSUER", env_opt env "OIDC_AUDIENCE" with
  | Some iss, Some aud =>
    let? jwks := match env_opt env "OIDC_JWKS_FILE", env_opt env "OIDC_JWKS_JSON" with
                 | Some path, _ => failing (gi_read io path)
                 | None, Some inline => Ok inline
                 | None, None => Err 1
                 end in
    rmap Some (failing (from_jwks iss aud jwks))
  | _, _ => Ok None
  end.
(** The safety check of the summary *)
Definition auth_posture (env : Environ) (oidc : option OidcVerifier) (allow_dev_auth : bool) : result Z unit :=
  match oidc with
  | Some _ => Ok tt
  | None => if allow_dev_auth then failing (dev_auth_permitted false true (env_opt env "MEM_GATEWAY_DEV_AUTH_ACK")) else Ok tt
  end.

(** [main] up to the server: the address to bind, the configuration and the state *)
Definition gateway_start (env : Environ) (io : GwIo) (argv : list string) (r : R) : stm GwWorld Z (string * Config * Gw) :=
  match parse_args env argv with
  | None => sfail 0
  | Some args =>
    let! store := gw_open_store (a_store args) r in
    let! embedder := slift (gw_load_query_embedder (gi_bge io) store) in
    let! audit := gw_open_audit io in
    let control_path := default "./data/control.json" (env_opt env "MEM_GATEWAY_CONTROL_PATH") in
    let! control := gw_control_plane io control_path args in
    let! oidc := slift (oidc_setup env io) in
    let allow_dev_auth := bool_decide (env_opt env "MEM_GATEWAY_ALLOW_DEV_AUTH" = Some "1") in
    let! seed := slift (failing (resolve_asserter_seed (env_opt env "MEM_GATEWAY_ASSERTER_SEED"))) in
    let! _ := slift (auth_posture env oidc allow_dev_auth) in
    λ w, (w, Ok (a_bind args,
      {| cf_embedder := embedder; cf_signing_key := signing_key_from_seed seed; cf_org_id := a_org args; cf_store_path := a_store args;
         cf_chain_rpc := Some (default "https://rpc.citrate.ai" (env_opt env "MEM_GATEWAY_CHAIN_RPC"));
         cf_issuer := default "mem-gateway" (env_opt env "OIDC_ISSUER"); cf_oidc := oidc; cf_connect_secret := env_opt env "MEM_CONNECT_SECRET";
         cf_allow_dev_auth := allow_dev_auth; cf_control_path := control_path; cf_team_allowlist_path := env_opt env "MEM_TEAM_ALLOWLIST" |},
      {| gw_store := store; gw_index_cache := TenantIndexCache_new; gw_audit := audit; gw_audit_disk := gm_audit w; gw_control := control;
         gw_files := gm_files w; gw_layout_cache := None; gw_ingest_queue := []; gw_buckets := ∅; gw_inflight := ∅;
         gw_write_poisoned := false; gw_audit_poisoned := false; gw_step := 0 |}))
  end.
End daemon.
Arguments World : clear implicits.
Arguments GwWorld : clear implicits.
Arguments StartIo : clear implicits.
