(* ===== verification/DaemonProps.v ===== *)
(** * What the daemon does around the server: theorems

    The identity a named key file decides, the checkpoints that are kept, what the
    [import-corpus] command reports, the order of a start, and whom a started gateway
    believes. *)

From stdpp Require Import pretty.
From S2P Require Import Prelude Bytes Externs Text Str Belnap Identity Node Float Edge Grant AuditLog Kv Shred Store StoreContents.
From S2P Require Import Control GwAuth Scene Gateway.
From S2P Require Import Chars Supersession StoreInterface Rocks Assert Sync Index Hnsw Query Search Display Docs Git Chunk Ingest Federation Control Corpus SyncChain CorpusImport McpRender Mcp Daemon.

(** ** The key *)

Section key_props.
Context {R : Type} `{Rng R, Blake3, Hex, Ed25519}.

(** A file only its owner can read, holding a key *)
Definition holds_key (fs : KeyFs) (path : string) (raw : bytes) : Prop :=
  ∃ f meta b text, kf_open fs path = Ok f ∧ of_metadata f = Ok meta ∧
    fm_is_file meta = true ∧ fm_uid meta = kf_euid fs ∧ Z.land (fm_mode meta) 0x3f = 0 ∧
    of_read f = Ok b ∧ from_utf8 (take (Z.to_nat 4096) b) = Some text ∧ decode_key text = Some raw.

Lemma read_owner_only_ok fs path text : read_owner_only fs path = Ok text →
  ∃ f meta b, kf_open fs path = Ok f ∧ of_metadata f = Ok meta ∧
    fm_is_file meta = true ∧ fm_uid meta = kf_euid fs ∧ Z.land (fm_mode meta) 0x3f = 0 ∧
    of_read f = Ok b ∧ from_utf8 (take (Z.to_nat 4096) b) = Some text.
Proof.
  unfold read_owner_only, read_to_string_4096. destruct (kf_open fs path) as [f|] eqn:Hf; [|done]. cbn.
  destruct (of_metadata f) as [meta|] eqn:Hm; [|done]. cbn. destruct (fm_is_file meta) eqn:Hr; [|done]. cbn.
  destruct (fm_uid meta =? kf_euid fs) eqn:Hu; [|done]. cbn. destruct (Z.land (fm_mode meta) 63 =? 0) eqn:Hp; [|done]. cbn.
  destruct (of_read f) as [b|] eqn:Hb; [|done]. cbn. destruct (from_utf8 (take (Z.to_nat 4096) b)) as [t|] eqn:Ht; [|done]. intros [= <-].
  apply Z.eqb_eq in Hu, Hp. by exists f, meta, b.
Qed.
Lemma decode_key_length hex_key raw : decode_key hex_key = Some raw → length raw = STORE_KEY_LEN.
Proof. unfold decode_key. destruct (hex_decode _); [|done]. case_bool_decide; [|done]. by intros [= <-]. Qed.

(** [C29] Once a key file is named the daemon never runs under another identity: it refuses
    to start, or its identity is the one derived from the 32-byte key in that file, which
    is a regular file of the daemon's own user closed to everyone else.  The inline key is
    not looked at and the random source is not used. *)
Theorem named_key_file_decides (env : Environ) (fs : KeyFs) (path : string) (r r' : R) (x : result string SigningKey) :
  env STORE_KEY_FILE_ENV = Some path → daemon_identity env fs r = (r', x) →
  r' = r ∧ match x with
           | Ok sk => ∃ raw, holds_key fs path raw ∧ length raw = 32%nat ∧ sk = derived_identity raw
           | Err _ => ∀ raw, ¬ holds_key fs path raw
           end.
Proof.
  intros Hp. unfold daemon_identity, read_store_key, sbind, slift. rewrite Hp.
  destruct (read_owner_only fs path) as [text|e] eqn:Hr; cbn.
  - destruct (decode_key text) as [raw|] eqn:Hd; cbn; intros [= <- <-]; (split; [done|]).
    + exists raw. split_and!; [|by eapply decode_key_length|done]. apply read_owner_only_ok in Hr as (f & meta & b & R1 & R2 & R3 & R4 & R5 & R6 & R7). by exists f, meta, b, text.
    + intros raw (f & meta & b & t & Hf & Hm & Hi & Hu & Hz & Hb & Ht & Hk). apply read_owner_only_ok in Hr as (f' & meta' & b' & R1 & R2 & R3 & R4 & R5 & R6 & R7). congruence.
  - intros [= <- <-]. split; [done|]. intros raw (f & meta & b & t & Hf & Hm & Hi & Hu & Hz & Hb & Ht & Hk).
    unfold read_owner_only, read_to_string_4096 in Hr. rewrite Hf in Hr. cbn in Hr. rewrite Hm in Hr. cbn in Hr. rewrite Hi, Hu, Z.eqb_refl, Hz in Hr. cbn in Hr.
    by rewrite Hb in Hr; cbn in Hr; rewrite Ht in Hr.
Qed.
End key_props.

(** ** The names of checkpoints are in the order of their times *)

Lemma ascii_cmp (a b : ascii) : cmp a b = cmp (byte_of_ascii a) (byte_of_ascii b).
Proof.
  assert (∀ c, Byte.to_N (byte_of_ascii c) = Ascii.N_of_ascii c) as E by (intros [[] [] [] [] [] [] [] []]; reflexivity).
  unfold cmp, ascii_ord, byte_ord. by rewrite !E.
Qed.
Lemma string_cmp (s t : string) : cmp s t = list_cmp (as_bytes s) (as_bytes t).
Proof.
  unfold cmp, string_ord, as_bytes, String.list_byte_of_string. unfold cmp, list_ord. generalize (String.list_ascii_of_string s) (String.list_ascii_of_string t).
  induction l as [|a l IH]; intros [|b k]; [done..|]. cbn [list_cmp map]. by rewrite <- ascii_cmp, IH.
Qed.
Lemma list_cmp_prefix (p l k : bytes) : list_cmp (p ++ l) (p ++ k) = list_cmp l k.
Proof. induction p as [|b p IH]; [done|]. cbn. rewrite (proj2 (cmp_eq b b)) by done. exact IH. Qed.

Lemma digits_val_bounds l : forallb is_digit l = true → 0 ≤ digits_val l < 10 ^ Z.of_nat (length l).
Proof.
  induction l as [|b l IH] using rev_ind; intros Hl; [done|]. rewrite forallb_app in Hl. apply andb_true_iff in Hl as [Hl Hb]. cbn in Hb. rewrite andb_true_r in Hb.
  rewrite digits_val_app, length_app, Nat2Z.inj_add, Z.pow_add_r by lia. specialize (IH Hl). unfold is_digit, in_range in Hb.
  unfold digits_val at 2 4. cbn [foldl length]. unfold digit_val. change (10 ^ Z.of_nat 1) with 10. nia.
Qed.
(** Digit strings of one length compare as the numbers they write. *)
Lemma digits_cmp l : ∀ k, length l = length k → forallb is_digit l = true → forallb is_digit k = true → digits_val l < digits_val k → list_cmp l k = Lt.
Proof.
  induction l as [|a l IH]; intros [|b k]; [done..|]. cbn [length forallb list_cmp]. intros [= Hlen] [Ha Hl]%andb_true_iff [Hb Hk]%andb_true_iff.
  change (a :: l) with ([a] ++ l). change (b :: k) with ([b] ++ k). rewrite !digits_val_app, Hlen. unfold digits_val at 1 3. cbn [foldl].
  pose proof (digits_val_bounds l Hl) as Bl. pose proof (digits_val_bounds k Hk) as Bk. rewrite Hlen in Bl. intros Hv.
  assert (digit_val a < digit_val b ∨ digit_val a = digit_val b) as [Hab|Hab] by nia; unfold digit_val, byte_Z in Hab.
  - assert (cmp a b = Lt) as ->; [|done]. unfold cmp, byte_ord. apply N.compare_lt_iff. lia.
  - assert (cmp a b = Eq) as ->; [|cbn; apply IH; try done; unfold digit_val, byte_Z in Hv; nia].
    unfold cmp, byte_ord. apply N.compare_eq_iff. lia.
Qed.

Lemma pretty_go_length w : ∀ x s, (x < 10 ^ N.of_nat w)%N → (String.length (pretty_N_go x s) ≤ w + String.length s)%nat.
Proof.
  induction w as [|w IH]; intros x s Hx; [assert (x = 0%N) as -> by (cbn in Hx; lia); by rewrite pretty_N_go_0|].
  destruct (decide (0 < x)%N) as [Hp|Hp]; [|assert (x = 0%N) as -> by lia; rewrite pretty_N_go_0; lia].
  rewrite pretty_N_go_step by done. etrans; [apply IH|cbn; lia]. apply N.Div0.div_lt_upper_bound. rewrite Nat2N.inj_succ, N.pow_succ_r' in Hx. lia.
Qed.
Lemma decimal_length z w : 0 ≤ z < 10 ^ Z.of_nat w → (1 ≤ w)%nat → (String.length (decimal z) ≤ w)%nat.
Proof.
  intros Hz Hw. unfold decimal, pretty, pretty_N. case_decide; [cbn; lia|]. etrans; [apply (pretty_go_length w)|cbn; lia].
  apply N2Z.inj_lt. rewrite Z2N.id, N2Z.inj_pow by lia. rewrite nat_N_Z. apply Hz.
Qed.
(** A padded number: as many digits as asked for, and its value *)
Lemma pad_digits z w : 0 ≤ z < 10 ^ Z.of_nat w → (1 ≤ w)%nat →
  let l := as_bytes (pad_left w (decimal z)) in length l = w ∧ forallb is_digit l = true ∧ digits_val l = z.
Proof.
  intros Hz Hw. pose proof (decimal_length z w Hz Hw) as Hl. destruct (decimal_digits z ltac:(lia)) as (Hd & _ & Hv).
  cbv zeta. unfold pad_left. rewrite as_bytes_app. assert (∀ n, as_bytes (zeros n) = replicate n Byte.x30) as -> by (induction n as [|n IH]; [done|cbn [zeros]; by rewrite as_bytes_app, IH]).
  rewrite length_app, length_replicate, length_as_bytes, forallb_app, Hd, digits_val_app, Hv. split_and!; [lia| |].
  - rewrite andb_true_r. by induction (w - _)%nat.
  - assert (∀ n, digits_val (replicate n Byte.x30) = 0) as -> by (induction n; [done|exact IHn]). lia.
Qed.

Definition ckpt_time (t : Z) : Prop := 0 ≤ t < 10 ^ 20.

Lemma ckpt_name_bytes t : as_bytes (ckpt_name t) = as_bytes "ckpt-" ++ as_bytes (pad_left 20 (decimal t)).
Proof. unfold ckpt_name. by rewrite as_bytes_app. Qed.
Lemma ckpt_name_lt t u : ckpt_time t → ckpt_time u → t < u → cmp (ckpt_name t) (ckpt_name u) = Lt.
Proof.
  intros Ht Hu Htu. rewrite string_cmp, !ckpt_name_bytes, list_cmp_prefix.
  destruct (pad_digits t 20 Ht ltac:(lia)) as (L1 & D1 & V1), (pad_digits u 20 Hu ltac:(lia)) as (L2 & D2 & V2). apply digits_cmp; [by rewrite L1, L2|done|done|lia].
Qed.
Lemma digits_text l : forallb is_digit l = true → utf8_valid l = true.
Proof.
  induction l as [|b l IH]; intros Hl; [done|]. cbn in Hl. apply andb_true_iff in Hl as [Hb Hl]. apply (utf8_valid_app [b] l); [|by apply IH].
  destruct b; (discriminate Hb || reflexivity).
Qed.
Lemma ckpt_name_text t : ckpt_time t → from_utf8_lossy (as_bytes (ckpt_name t)) = ckpt_name t ∧ String.prefix "ckpt-" (ckpt_name t) = true.
Proof.
  intros Ht. destruct (pad_digits t 20 Ht ltac:(lia)) as (_ & Hd & _). split.
  - rewrite from_utf8_lossy_valid; [apply string_of_as_bytes|]. rewrite ckpt_name_bytes. apply utf8_valid_app; [done|by apply digits_text].
  - unfold ckpt_name. destruct (pad_left 20 (decimal t)); reflexivity.
Qed.

(** ** The newest checkpoints are kept *)

(** The daemon's attempts: one when it starts, then one per interval *)
Definition ckpt_attempt (db : string) (keep : nat) (dir : gset string) (a : (string → result StoreError unit) * CkptIo) : gset string :=
  (rolling_checkpoint a.1 a.2 db keep dir).1.
(** The time of an attempt that made a checkpoint *)
Definition taken (db : string) (a : (string → result StoreError unit) * CkptIo) : option Z :=
  let t := default 0 (ci_now a.2) in
  match ci_mkdir a.2, a.1 (checkpoint_dir db +:+ "/" +:+ ckpt_name t) with
  | None, Ok _ => Some t
  | _, _ => None
  end.
(** The directory can be read and entries of it be removed *)
Definition ckpt_quiet (io : CkptIo) : Prop :=
  ci_read_dir io = None ∧ (∀ n, ci_entry_fails io n = false) ∧ ∀ n, ci_remove_fails io n = false.
Definition keep_last {A} (k : nat) (l : list A) : list A := drop (length l - k) l.
Definition ckpts (ts : list Z) : gset string := list_to_set (ckpt_name <$> ts).
(** Entries that are not taken for checkpoints *)
Definition no_ckpt (dir : gset string) : Prop := ∀ n, n ∈ dir → String.prefix "ckpt-" (from_utf8_lossy (as_bytes n)) = false.

Lemma keep_last_length {A} k (l : list A) : (length (keep_last k l) ≤ k)%nat.
Proof. unfold keep_last. rewrite length_drop. lia. Qed.
Lemma keep_last_short {A} k (l : list A) : (length l ≤ k)%nat → keep_last k l = l.
Proof. intros Hl. unfold keep_last. by replace (length l - k)%nat with 0%nat by lia. Qed.
Lemma keep_last_app {A} k (l m : list A) : keep_last k (keep_last k l ++ m) = keep_last k (l ++ m).
Proof.
  unfold keep_last. rewrite <- drop_app_le by lia. rewrite drop_drop. f_equal. rewrite length_drop, !length_app. lia.
Qed.

Lemma list_filter_all {A} (P : A → Prop) `{∀ x, Decision (P x)} (l : list A) : (∀ x, x ∈ l → P x) → filter P l = l.
Proof. induction l as [|x l IH]; intros Hl; [done|]. rewrite filter_cons_True by (apply Hl; set_solver). f_equal. apply IH. set_solver. Qed.
Lemma list_filter_none {A} (P : A → Prop) `{∀ x, Decision (P x)} (l : list A) : (∀ x, x ∈ l → ¬ P x) → filter P l = [].
Proof. induction l as [|x l IH]; intros Hl; [done|]. rewrite filter_cons_False by (apply Hl; set_solver). apply IH. set_solver. Qed.
Lemma ckpt_names_sorted ts : Forall ckpt_time ts → StronglySorted Z.lt ts → StronglySorted (key_lt id) (ckpt_name <$> ts).
Proof.
  intros Ht Hs. induction Hs as [|t ts Hs IH Hlt]; [constructor|]. apply Forall_cons in Ht as [Ht Hts]. cbn. constructor; [by apply IH|].
  apply Forall_fmap. apply Forall_forall. intros u Hu. rewrite Forall_forall in Hts, Hlt. pose proof (ckpt_name_lt t u Ht (Hts u Hu) (Hlt u Hu)) as Hc.
  split; [unfold key_le, ord_leb, id; by rewrite Hc|]; unfold id. intros E. by rewrite E, (proj2 (cmp_eq _ _)) in Hc.
Qed.
Lemma listed_ckpts_exact io ts others : ckpt_quiet io → Forall ckpt_time ts → StronglySorted Z.lt ts → no_ckpt others →
  listed_ckpts io (ckpts ts ∪ others) = ckpt_name <$> ts.
Proof.
  intros (_ & He & _) Ht Hs Ho. destruct (sorted_keys_nodup id _ (ckpt_names_sorted ts Ht Hs)) as [Hnd Hle]. rewrite list_fmap_id in Hnd.
  unfold listed_ckpts. apply sort_by_key_fixed; [|by rewrite list_fmap_id|done].
  assert (ckpts ts ## others) as Hdisj.
  { intros n (t & -> & Hin)%elem_of_list_to_set%list_elem_of_fmap Hn. rewrite Forall_forall in Ht. destruct (ckpt_name_text t (Ht t Hin)) as [E P]. specialize (Ho _ Hn). congruence. }
  rewrite (list_filter_all _ (elements _)) by (intros; apply He). unfold ckpts in *. rewrite (elements_disj_union _ others) by done.
  rewrite fmap_app, filter_app, elements_list_to_set by done.
  assert ((λ n, from_utf8_lossy (as_bytes n)) <$> (ckpt_name <$> ts) = ckpt_name <$> ts) as ->.
  { rewrite <- list_fmap_compose. apply list_fmap_ext. intros i t Hi. cbn. apply ckpt_name_text. by eapply Forall_lookup_1. }
  rewrite (list_filter_all _ (ckpt_name <$> ts)); [|intros n (t & -> & Hin)%list_elem_of_fmap; rewrite Forall_forall in Ht; by apply ckpt_name_text, Ht].
  rewrite (list_filter_none _ (_ <$> elements others)); [by rewrite app_nil_r|].
  intros n (m & -> & Hm%elem_of_elements)%list_elem_of_fmap. by rewrite (Ho m Hm).
Qed.
Lemma remove_all io (old : list string) : (∀ n, ci_remove_fails io n = false) → ∀ dir : gset string,
  foldl (λ dir old, if ci_remove_fails io old then dir else dir ∖ {[old]}) dir old = dir ∖ list_to_set old.
Proof. intros Hr. induction old as [|n old IH]; intros dir; cbn [foldl list_to_set]; [set_solver|]. rewrite Hr, IH. set_solver. Qed.
Lemma ckpts_app ts us : ckpts (ts ++ us) = ckpts ts ∪ ckpts us.
Proof. unfold ckpts. by rewrite fmap_app, list_to_set_app_L. Qed.
Lemma ckpts_disjoint ts us : Forall ckpt_time (ts ++ us) → StronglySorted Z.lt (ts ++ us) → ckpts ts ## ckpts us.
Proof.
  intros Ht Hs n H1%elem_of_list_to_set H2%elem_of_list_to_set. destruct (sorted_keys_nodup id _ (ckpt_names_sorted _ Ht Hs)) as [Hnd _].
  rewrite list_fmap_id, fmap_app in Hnd. apply NoDup_app in Hnd as (_ & Hnd & _). by apply (Hnd n).
Qed.
Lemma prune_ckpts_exact io keep ts others : ckpt_quiet io → Forall ckpt_time ts → StronglySorted Z.lt ts → no_ckpt others →
  prune_ckpts io keep (ckpts ts ∪ others) = ckpts (keep_last keep ts) ∪ others.
Proof.
  intros Hq Ht Hs Ho. unfold prune_ckpts. rewrite listed_ckpts_exact by done. rewrite length_fmap. destruct (keep <? length ts)%nat eqn:Hk; [|rewrite keep_last_short by (apply Nat.ltb_ge in Hk; lia); done].
  rewrite remove_all by apply Hq. rewrite <- fmap_take. unfold keep_last. set (d := (length ts - keep)%nat). pose proof (take_drop d ts) as E.
  assert (ckpts (take d ts) ## ckpts (drop d ts)) as Hd by (apply ckpts_disjoint; by rewrite E).
  assert (ckpts (take d ts) ## others) as Hdo.
  { intros n (t & -> & Hin)%elem_of_list_to_set%list_elem_of_fmap Hn. rewrite Forall_forall in Ht.
    destruct (ckpt_name_text t (Ht t (subseteq_take d ts t Hin))) as [E' P]. specialize (Ho _ Hn). congruence. }
  rewrite <- E at 1. rewrite ckpts_app. change (list_to_set (ckpt_name <$> take d ts)) with (ckpts (take d ts)).
  clear -Hd Hdo. generalize dependent (ckpts (take d ts)). generalize (ckpts (drop d ts)). set_solver.
Qed.

Lemma attempt_exact db keep a ts others : ckpt_quiet a.2 → no_ckpt others → Forall ckpt_time (ts ++ option_list (taken db a)) →
  StronglySorted Z.lt (ts ++ option_list (taken db a)) → (length ts ≤ keep)%nat →
  ckpt_attempt db keep (ckpts ts ∪ others) a = ckpts (keep_last keep (ts ++ option_list (taken db a))) ∪ others.
Proof.
  intros Hq Ho. unfold ckpt_attempt, taken, rolling_checkpoint. destruct (ci_mkdir a.2); [cbn; rewrite app_nil_r; intros; by rewrite keep_last_short|].
  destruct (a.1 _); [|cbn; rewrite app_nil_r; intros; by rewrite keep_last_short]. rewrite (proj1 Hq). cbn [option_list fst]. intros Ht Hs _.
  rewrite <- (prune_ckpts_exact a.2) by done. f_equal. rewrite ckpts_app.
  generalize (default 0 (ci_now a.2)). intros t. change (option_list (Some t)) with [t]. assert (ckpts [t] = {[ckpt_name t]}) as -> by apply list_to_set_singleton_L. clear. set_solver.
Qed.


(** ** What the command reports *)

Definition line_event (v : Value) : option string :=
  match v with JObject m => match m !! "event" with Some (JString e) => Some e | _ => None end | _ => None end.

Section command.
Context {D K R : Type} `{RocksDb D, !RocksDisk K D, Rng R, Blake3, Hex, Aead, Serde Envelope, Serde KeyringEntry, Serde Edge, Serde MemoryNode}.
Context `{Ed25519, Unicode, Half, FloatNan, Sha256, CharTables, Serde Manifest, JsonText Manifest, FromJson MemoryNode, FromJson Edge, CompactText}.

Lemma import_lines_end {T R'} `{MemStore T, Rng R'} (fs : Files) (dir : string) (em : Embedder) (w : option string) (rt rt' : R' * T) lines x :
  import_dir_with_progress_reusing fs dir em w rt = (lines, rt', x) →
  ∃ init v, lines = init ++ [v] ∧ line_event v = Some (match x with Ok _ => "done" | Err _ => "error" end) ∧
    Forall (λ u, line_event u ≠ Some "done" ∧ line_event u ≠ Some "error") init.
Proof.
  unfold import_dir_with_progress_reusing. destruct (verify_corpus fs dir) as [c|e].
  - destruct (import_corpus_with em w c (rt, [])) as [[rt1 log] y]. intros [= <- <- <-].
    exists ([verified_json c] ++ (event_json <$> log)). eexists. split; [by rewrite <- app_assoc|]. split; [by destruct y|].
    constructor; [done|]. apply Forall_fmap, Forall_true. by intros [].
  - intros [= <- <- <-]. exists []. eexists. split; [done|]. split; [done|constructor].
Qed.

(** The [import-corpus] command tells how it ended: with a store and a corpus named and
    an embedder that loads, it exits 0 or 1, its output is not empty, and the last line,
    and no other, is a [done] event exactly when the exit code is 0 and an [error] event
    exactly when it is 1. *)
Theorem import_command_reports (bge_base : result string Embedder) (env : Environ) (fs : Files) (read : string → result string bytes)
    (db dir : string) (rest : list string) (r r' : R) (k k' : K) (lines : list Value) (code : Z) :
  is_ok bge_base = true → import_corpus_main (D := D) bge_base env fs read (db :: dir :: rest) r r' k = (k', lines, code) →
  (code = 0 ∨ code = 1) ∧
  ∃ init v, lines = init ++ [v] ∧ line_event v = Some (if code =? 0 then "done" else "error") ∧
    Forall (λ u, line_event u ≠ Some "done" ∧ line_event u ≠ Some "error") init.
Proof.
  destruct bge_base as [bge|]; [intros _|done]. unfold import_corpus_main. destruct (open_rocksdb_auto db r k) as [k1 [store|e]].
  - assert (∃ loaded, load_query_embedder (Ok bge) env store = Ok loaded) as [loaded ->].
    { unfold load_query_embedder. destruct (default None _); [destruct (bool_decide _)|destruct (env_text _ _); [destruct (eq_ignore_ascii_case _ _)|]]; eauto. }
    destruct (import_dir_with_progress_reusing fs dir _ _ (r', store)) as [[ls rt] x] eqn:Hi. intros [= <- <- <-].
    apply import_lines_end in Hi as (init & v & -> & Hv & Hf). split; [destruct x; auto|]. exists init, v. split; [done|]. split; [|done]. by destruct x.
  - intros [= <- <- <-]. split; [auto|]. exists []. eexists. split; [done|]. split; [done|constructor].
Qed.

(** An embedder that cannot be loaded ends the command with code 1 and no line at all. *)
Lemma import_command_silent (env : Environ) (fs : Files) (read : string → result string bytes) (db dir why : string) (r r' : R) (k k' : K) (store : MemoryDagStore (RocksKv D) R) :
  open_rocksdb_auto db r k = (k', Ok store) → detect_store_embedding_model store = Ok (Some DEFAULT_MODEL_ID) →
  import_corpus_main (D := D) (Err why) env fs read [db; dir] r r' k = (k', [], 1).
Proof. intros Hopen Hdet. unfold import_corpus_main. rewrite Hopen. unfold load_query_embedder. by rewrite Hdet. Qed.
End command.

(** ** The order of a start *)

Definition step_rank (x : StartStep) : nat :=
  match x with StoreOpened => 0 | SocketRemoved => 1 | CheckpointTried _ => 2 | AuditVerified => 3 | SocketBound => 4 end.

Section start.
Context {D K R : Type} `{RocksDb D, !RocksDisk K D, Rng R, Blake3, Hex, Aead, Serde Envelope, Serde KeyringEntry, Serde Edge, Serde MemoryNode}.
Context `{Ed25519, Serde AuditRecord, Serde Head}.
Implicit Types w : World K R.

(** Steps of ranks from [lo] up to [hi] were added, leaving the audit files and the socket
    as the two functions say. *)
Definition adds_steps (lo hi : nat) w w' (l : list StartStep) : Prop :=
  w_steps w' = w_steps w ++ l ∧ StronglySorted lt (step_rank <$> l) ∧ Forall (λ x, (lo ≤ step_rank x < hi)%nat) l.
Lemma adds_nil lo hi w w' : w_steps w' = w_steps w → adds_steps lo hi w w' [].
Proof. intros E. split_and!; [by rewrite E, app_nil_r|constructor|constructor]. Qed.
Lemma adds_app lo mid hi w1 w2 w3 l k : (lo ≤ mid ≤ hi)%nat → adds_steps lo mid w1 w2 l → adds_steps mid hi w2 w3 k → adds_steps lo hi w1 w3 (l ++ k).
Proof.
  intros Hm (S1 & O1 & F1) (S2 & O2 & F2). split_and!.
  - by rewrite S2, S1, <- app_assoc.
  - rewrite fmap_app. apply StronglySorted_app. split_and!; [|done|done]. intros x y (a & -> & Ha)%list_elem_of_fmap (b & -> & Hb)%list_elem_of_fmap.
    rewrite Forall_forall in F1, F2. specialize (F1 a Ha). specialize (F2 b Hb). lia.
  - apply Forall_app. split; (eapply Forall_impl; [eassumption|]); cbn; lia.
Qed.
Lemma adds_one lo hi w w' x : w_steps w' = w_steps w ++ [x] → (lo ≤ step_rank x < hi)%nat → adds_steps lo hi w w' [x].
Proof. intros E Hx. split_and!; [done|cbn; constructor; constructor|by apply Forall_singleton]. Qed.

Lemma remove_stale_socket_adds io w w' x : remove_stale_socket io w = (w', x) →
  ∃ l, adds_steps 1 2 w w' l ∧ w_audit w' = w_audit w ∧ match x with Ok _ => True | Err c => c = 1 end.
Proof.
  unfold remove_stale_socket. destruct (w_sock w); [destruct (si_remove io)|]; intros [= <- <-]; eexists; (split; [|done]);
    [by apply adds_nil|apply adds_one; [reflexivity|cbn; lia]|by apply adds_nil].
Qed.
Lemma startup_checkpoint_adds io store db interval keep w w' x : startup_checkpoint (D := D) io store db interval keep w = (w', x) →
  ∃ l, adds_steps 2 3 w w' l ∧ w_audit w' = w_audit w ∧ x = Ok tt.
Proof.
  unfold startup_checkpoint. destruct (0 <? interval); [destruct (rolling_checkpoint _ _ _ _ _) as [dir y]|]; intros [= <- <-]; eexists; (split; [|done]);
    [apply adds_one; [reflexivity|cbn; lia]|by apply adds_nil].
Qed.
Lemma load_query_embedder_code {T} `{MemStore T} bge env (store : T) c : load_query_embedder bge env store = Err c → c = 1.
Proof. unfold load_query_embedder. intros Hl. repeat case_match; congruence. Qed.

Lemma open_audit_adds io w w' x : open_audit io w = (w', x) →
  ∃ l, adds_steps 3 4 w w' l ∧ match x with
                         | Ok c => l = [AuditVerified] ∧ AuditChain_open (si_audit io) (w_audit w) = (w_audit w', Ok c)
                         | Err c => l = [] ∧ c = 1
                         end.
Proof.
  unfold open_audit. destruct (AuditChain_open _ _) as [d [c|e]] eqn:Ho; intros [= <- <-]; eexists; (split; [|done]);
    [apply adds_one; [reflexivity|cbn; lia]|by apply adds_nil].
Qed.
Lemma bind_socket_adds io w w' x : bind_socket io w = (w', x) →
  ∃ l, adds_steps 4 5 w w' l ∧ w_audit w' = w_audit w ∧ match x with Ok _ => l = [SocketBound] | Err c => l = [] ∧ c = 1 end.
Proof.
  unfold bind_socket. destruct (si_endpoint io), (si_bind io); intros [= <- <-]; eexists; (split; [|done]);
    [by apply adds_nil|by apply adds_nil|by apply adds_nil|apply adds_one; [reflexivity|cbn; lia]].
Qed.

(** How a start ended: it serves once the socket is bound, on the chain it verified, or it
    left with code 1 and no socket of its own. *)
Definition ended (io : StartIo) w w' (l : list StartStep) (x : result Z (Serving (D := D) (R := R))) : Prop :=
  match x with
  | Ok sg => (∃ init, l = init ++ [AuditVerified; SocketBound]) ∧ AuditChain_open (si_audit io) (w_audit w) = (w_audit w', Ok (sg_audit sg))
  | Err code => code = 1 ∧ SocketBound ∉ l
  end.
Lemma not_bound lo hi w w' l : (hi ≤ 4)%nat → adds_steps lo hi w w' l → SocketBound ∉ l.
Proof. intros Hh (_ & _ & F) Hin. rewrite Forall_forall in F. specialize (F _ Hin). cbn in F. lia. Qed.

Lemma after_open_ended env io db store identity w : let '(w', x) := after_open env io db store identity w in
  ∃ l, adds_steps 1 5 w w' l ∧ ended io w w' l x.
Proof.
  unfold after_open, sbind, sret. destruct (remove_stale_socket io w) as [w1 [u1|c1]] eqn:E1; apply remove_stale_socket_adds in E1 as (l1 & A1 & D1 & X1); cycle 1.
  { exists (l1 ++ []). split; [eapply (adds_app 1 2); [lia|done|by apply adds_nil]|]. split; [done|]. rewrite app_nil_r. by eapply (not_bound 1 2); [lia|]. }
  destruct (startup_checkpoint _ _ _ _ _ w1) as [w2 x2] eqn:E2. apply startup_checkpoint_adds in E2 as (l2 & A2 & D2 & ->).
  pose proof (adds_app 1 2 3 _ _ _ _ _ ltac:(lia) A1 A2) as A12. unfold slift. destruct (load_query_embedder _ _ _) as [em|c] eqn:E3; cycle 1.
  { apply load_query_embedder_code in E3. exists ((l1 ++ l2) ++ []). split; [eapply (adds_app 1 3); [lia|done|by apply adds_nil]|]. split; [done|].
    rewrite app_nil_r. by eapply (not_bound 1 3); [lia|]. }
  destruct (open_audit io w2) as [w3 x3] eqn:E4. apply open_audit_adds in E4 as (l3 & A3 & X3). pose proof (adds_app 1 3 4 _ _ _ _ _ ltac:(lia) A12 A3) as A123.
  destruct x3 as [c|c]; destruct X3 as [-> X3]; cycle 1.
  { exists (((l1 ++ l2) ++ []) ++ []). split; [eapply (adds_app 1 4); [lia|done|by apply adds_nil]|]. split; [done|].
    rewrite app_nil_r. by eapply (not_bound 1 4); [lia|]. }
  destruct (bind_socket io w3) as [w4 x4] eqn:E5. apply bind_socket_adds in E5 as (l4 & A4 & D4 & X4). pose proof (adds_app 1 4 5 _ _ _ _ _ ltac:(lia) A123 A4) as A1234.
  destruct x4 as [[]|c4]; eexists; (split; [exact A1234|]).
  - subst l4. split; [exists (l1 ++ l2); by rewrite <- app_assoc|]. cbn. by rewrite D4, <- X3, D2, D1.
  - destruct X4 as [-> ->]. split; [done|]. rewrite app_nil_r. by eapply (not_bound 1 4); [lia|].
Qed.

(** [C28] The lock of the store comes first, the audit chain before the socket.  A daemon that
    cannot make its identity or open the store has touched neither the socket file, nor the
    checkpoints, nor the audit log; every other step comes after the store was opened, in
    the order of the code; and a daemon serves only when the socket was bound after the
    audit chain on disk was verified, which is the chain its sessions extend.  Otherwise it
    exits with code 1 and has bound nothing. *)
Theorem startup_order (env : Environ) (io : StartIo) (argv : list string) w :
  let '(w', x) := daemon_start (D := D) env io argv w in
  (is_ok x = false ∧ w_steps w' = w_steps w ∧ w_sock w' = w_sock w ∧ w_ckpts w' = w_ckpts w ∧ w_audit w' = w_audit w) ∨
  ∃ l, w_steps w' = w_steps w ++ StoreOpened :: l ∧ StronglySorted lt (step_rank <$> StoreOpened :: l) ∧ ended io w w' l x.
Proof.
  unfold daemon_start. unfold sbind at 1. unfold make_identity. destruct (daemon_identity env (si_key io) (w_rng w)) as [r [identity|e]]; cbn [map_err]; [|by left].
  unfold sbind at 1. unfold open_store at 1. set (db := default _ _). destruct (open_rocksdb_auto db _ _) as [k [store|e]]; [|by left].
  pose proof (after_open_ended env io db store identity (add_step StoreOpened (set_dbs k (set_rng r w)))) as Hrest.
  destruct (after_open _ _ _ _ _ _) as [w' x]. destruct Hrest as (l & (S1 & O1 & F1) & He). right. exists l. split_and!; [by rewrite S1; cbn; rewrite <- app_assoc| |done].
  cbn. constructor; [done|]. apply Forall_fmap. eapply Forall_impl; [exact F1|]. cbn. lia.
Qed.
End start.

(** ** Whom a started gateway believes *)

Section gateway_start.
Context {D K R : Type} `{RocksDb D, !RocksDisk K D, Rng R, Blake3, Hex, Aead, Serde Envelope, Serde KeyringEntry, Serde Edge, Serde MemoryNode}.
Context `{Ed25519, Serde AuditRecord, Serde Head, Jwt, HashOrder, JsonText Control, JsonText JwkSet}.
Implicit Types w : GwWorld K.
Implicit Types env : Environ.

(** Development authentication was asked for and acknowledged. *)
Definition dev_acknowledged env : Prop :=
  env_opt env "MEM_GATEWAY_ALLOW_DEV_AUTH" = Some "1" ∧ env_opt env "MEM_GATEWAY_DEV_AUTH_ACK" = Some "1".
Definition oidc_configured env (iss aud : string) : Prop := env_opt env "OIDC_ISSUER" = Some iss ∧ env_opt env "OIDC_AUDIENCE" = Some aud.
(** The verifier of a configuration: for the configured issuer and audience, with a key,
    when both are set, and none otherwise *)
Definition verifier_of env (o : option OidcVerifier) : Prop :=
  match o with
  | Some v => oidc_configured env (ov_issuer v) (ov_audience v) ∧ (ov_by_kid v ≠ ∅ ∨ ov_anonymous v ≠ [])
  | None => ∀ iss aud, ¬ oidc_configured env iss aud
  end.

Lemma from_jwks_verifier iss aud jwks v : from_jwks iss aud jwks = Ok v → ov_issuer v = iss ∧ ov_audience v = aud ∧ (ov_by_kid v ≠ ∅ ∨ ov_anonymous v ≠ []).
Proof.
  unfold from_jwks. destruct (map_err _ _) as [set|]; [|done]. cbn [rbind]. destruct (rfold _ _ _) as [[m l]|]; [|done]. cbn [rbind fst snd].
  destruct (bool_decide (m = ∅) && bool_decide (length l = 0%nat)) eqn:E; [done|]. intros [= <-]. cbn. split_and!; [done|done|].
  apply andb_false_iff in E as [E|E]; apply bool_decide_eq_false in E; [by left|right; by intros ->].
Qed.
Lemma oidc_setup_verifier env io o : oidc_setup env io = Ok o → verifier_of env o.
Proof.
  unfold oidc_setup, verifier_of, oidc_configured. destruct (env_opt env "OIDC_ISSUER") as [iss|]; [|intros [= <-]; naive_solver].
  destruct (env_opt env "OIDC_AUDIENCE") as [aud|]; [|intros [= <-]; naive_solver]. intros (jwks & _ & Hv)%rbind_ok.
  destruct (from_jwks iss aud jwks) as [v|] eqn:Hf; [|done]. cbn in Hv. injection Hv as <-. apply from_jwks_verifier in Hf as (-> & -> & Hk). done.
Qed.
Lemma auth_posture_acknowledged env o allow : auth_posture env o allow = Ok tt → o = None → allow = true → env_opt env "MEM_GATEWAY_DEV_AUTH_ACK" = Some "1".
Proof. intros Ha -> ->. unfold auth_posture, dev_auth_permitted in Ha. cbn [orb negb] in Ha. by case_bool_decide. Qed.

Lemma ensure_org_finds c id path now : is_Some (find_org (ensure_org c id path now).1 id).
Proof.
  unfold ensure_org. case_bool_decide as Hf; [done|]. cbn. unfold find_org, find_in in *. cbn.
  destruct (list_find _ (orgs c ++ _)) as [[i o]|] eqn:E; [done|]. exfalso. apply list_find_None in E. apply Forall_app in E as [_ E].
  apply Forall_cons in E as [E _]. apply E. cbn. by apply bool_decide_eq_true_2.
Qed.
Lemma upsert_membership_orgs c sub org role : orgs (upsert_membership c sub org role).1 = orgs c.
Proof. unfold upsert_membership. repeat case_match; done. Qed.
Lemma gw_control_plane_org io path args w w' c : gw_control_plane io path args w = (w', Ok c) → is_Some (find_org c (a_org args)) ∧ gm_audit w' = gm_audit w.
Proof.
  unfold gw_control_plane. destruct (load _ _ _) as [control|]; [|done]. pose proof (ensure_org_finds control (a_org args) (a_store args) (gi_now io)) as Ho.
  destruct (ensure_org _ _ _ _) as [c1 d1]. cbn in Ho.
  destruct (a_bootstrap_owner args) as [owner|]; [pose proof (upsert_membership_orgs c1 owner (a_org args) OrgOwner) as Hu; destruct (upsert_membership _ _ _ _) as [c2 ch]; cbn in Hu|];
    (destruct (_ : bool); [destruct (save _ _ _ _) as [files [[]|]]|]); cbn; intros Hw; try discriminate Hw; injection Hw as <- <-; (split; [|done]); unfold find_org in *; by rewrite ?Hu.
Qed.

Lemma sbind_Ok {S E A B} (m : stm S E A) (k : A → stm S E B) s s' b : sbind m k s = (s', Ok b) → ∃ s1 a, m s = (s1, Ok a) ∧ k a s1 = (s', Ok b).
Proof. intros [Hs|(e & _ & ?)]%sbind_inv; [exact Hs|discriminate]. Qed.

(** What a start that succeeds configured *)
Definition posture env io w (app : Config) (s : Gw (T := MemoryDagStore (RocksKv D) R)) : Prop :=
  (∃ seed, env_opt env "MEM_GATEWAY_ASSERTER_SEED" = Some seed ∧ cf_signing_key app = signing_key_from_seed seed) ∧
  AuditChain_open (gi_audit io) (gm_audit w) = (gw_audit_disk s, Ok (gw_audit s)) ∧
  is_Some (find_org (gw_control s) (cf_org_id app)) ∧
  verifier_of env (cf_oidc app) ∧
  (cf_oidc app = None → cf_allow_dev_auth app = true → dev_acknowledged env).

Lemma gateway_start_posture env io argv (r : R) w w' bind app s : gateway_start (D := D) env io argv r w = (w', Ok (bind, app, s)) → posture env io w app s.
Proof.
  unfold gateway_start. destruct (parse_args env argv) as [args|]; [|done]. intros Hs.
  apply sbind_Ok in Hs as (w1 & store & H1' & Hs). apply sbind_Ok in Hs as (w2 & em & H2' & Hs). apply sbind_Ok in Hs as (w3 & audit & H3' & Hs).
  apply sbind_Ok in Hs as (w4 & control & H4' & Hs). apply sbind_Ok in Hs as (w5 & oidc & H5' & Hs). apply sbind_Ok in Hs as (w6 & seed & H6' & Hs).
  apply sbind_Ok in Hs as (w7 & [] & H7' & Hs). unfold slift in *. injection H2' as <- _. injection H5' as <- H5'. injection H6' as <- H6'. injection H7' as <- H7'.
  injection Hs as _ _ <- <-. apply gw_control_plane_org in H4' as [Horg Haud].
  unfold gw_open_store in H1'. destruct (open_rocksdb_auto _ _ _) as [k x]. injection H1' as <- _.
  unfold gw_open_audit in H3'. cbn in H3'. destruct (AuditChain_open _ _) as [d y] eqn:Ha. injection H3' as <- Hy. destruct y as [y|]; [|done]. injection Hy as ->.
  unfold posture. cbn in *. split_and!; [|by rewrite Haud|done|by eapply oidc_setup_verifier|].
  - exists seed. split; [|done]. by destruct (env_opt env "MEM_GATEWAY_ASSERTER_SEED"); [injection H6' as ->|].
  - intros Ho Hallow%bool_decide_eq_true. split; [done|]. by eapply auth_posture_acknowledged; [exact H7'|done|apply bool_decide_eq_true].
Qed.


(** The comment in the source says an empty [MEM_GATEWAY_CHAIN_RPC] disables the binding of
    checkpoints to the chain; an empty variable counts as unset, so it is never disabled. *)
Lemma chain_rpc_never_disabled env io argv (r : R) w w' bind app s : gateway_start (D := D) env io argv r w = (w', Ok (bind, app, s)) →
  is_Some (cf_chain_rpc app) ∧ (env "MEM_GATEWAY_CHAIN_RPC" = Some "" → cf_chain_rpc app = Some "https://rpc.citrate.ai").
Proof.
  unfold gateway_start. destruct (parse_args env argv) as [args|]; [|done]. intros Hs. do 7 apply sbind_Ok in Hs as (? & ? & _ & Hs).
  injection Hs as _ _ <- _. cbn. split; [done|]. intros He. unfold env_opt, env_text. by rewrite He.
Qed.
End gateway_start.
