(* ===== verification/GatewayRoutes.v ===== *)
(** * The handlers of the gateway ([mem-gateway/src/http.rs])

    Every route after its arguments are extracted: reads, the write of an assertion,
    checkpoints, the layout, connect tokens, MCP over HTTP and the push webhook.  A handler
    is a state transformer with a JSON answer or an error response.  What the server
    framework does (routing, extraction of arguments, the text of responses) is not part of
    it; the text of a task's join error is a parameter. *)

From Stdlib Require Import SpecFloat.
From S2P Require Import Prelude Bytes Externs Text Str Belnap Identity Node Float Edge Grant AuditLog Kv Shred Store StoreContents.
From S2P Require Import Supersession StoreInterface Assert Index Hnsw Query Search Display Chunk Sync SyncAnchor SyncChain.
From S2P Require Import Control GwAuth Scene Gateway McpRender Mcp.

Abbreviation QueryMap := (gmap string string).

(** ** Arguments *)

Definition qparam (q : QueryMap) (key : string) : option string :=
  s ← q !! key; if bool_decide (s = "") then None else Some s.

Definition budget (q : QueryMap) (default_ : nat) : nat :=
  match (q !! "budget") ≫= parse_u64 ∘ as_bytes with
  | Some n => if (0 <? n) && (n <=? 500) then Z.to_nat n else default_
  | None => default_
  end.

Definition in_flight_param (q : QueryMap) : bool :=
  match q !! "include_in_flight" with Some v => bool_decide (v = "true") || bool_decide (v = "1") | None => false end.

Definition parse_kind (s : string) : NodeKind :=
  if bool_decide (s = "finding") then Finding
  else if bool_decide (s = "doc") then Doc
  else if bool_decide (s = "blocker") then Blocker
  else if bool_decide (s ∈ ["techdebt"; "tech_debt"]) then TechDebt
  else if bool_decide (s ∈ ["workpackage"; "work_package"]) then WorkPackage
  else if bool_decide (s = "adr") then Adr
  else if bool_decide (s = "handoff") then Handoff
  else if bool_decide (s = "benchmark") then Benchmark
  else if bool_decide (s ∈ ["agentaction"; "agent_action"]) then AgentAction
  else Rationale.

(** ** Answers *)

Definition jopt {A} (f : A → Value) (o : option A) : Value := match o with Some a => f a | None => JNull end.
Definition jstr (o : option string) : Value := jopt JString o.

(** [f as f64]: exact *)
Definition f64_of_f32 (f : f32) : f64 :=
  match f32_val f with
  | S754_finite s m e => binary_normalize 53 1024 (if s then Zneg m else Zpos m) e s
  | x => x
  end.
(** The bit pattern of a double that is not a NaN *)
Definition f64_bits (f : f64) : Z :=
  let sign (s : bool) := if s then 2 ^ 63 else 0 in
  match f with
  | S754_zero s => sign s
  | S754_infinity s => sign s + 0x7ff * 2 ^ 52
  | S754_nan => 0x7ff8 * 2 ^ 48
  | S754_finite s m e => sign s + (if Zpos m <? 2 ^ 52 then Zpos m else (e + 1075) * 2 ^ 52 + (Zpos m - 2 ^ 52))
  end.
(** [json!] of an [f32]: null unless it is finite *)
Definition jf32 (f : f32) : Value :=
  match f32_val f with S754_nan | S754_infinity _ => JNull | _ => JNumber (Float64 (f64_bits (f64_of_f32 f))) end.

Section answers.
Context `{Blake3, Hex, CharTables}.

Definition item_json (it : RecallItem) : Value :=
  obj [("id", JString (to_hex (ri_id it))); ("kind", JString (discriminant (ri_kind it))); ("repo", JString (ri_repo it));
       ("title", JString (ri_title it)); ("valid_from", jint (ri_valid_from it)); ("plane", JString (Plane_debug (ri_plane it)));
       ("trust_tier", JString (TrustTier_debug (ri_trust_tier it))); ("status", JString (Status_debug (ri_status it)));
       ("score", jopt jf32 (ri_score it)); ("in_flight_branch", jstr (ri_in_flight_branch it))].

Definition Watermark_debug (w : Watermark) : string :=
  "Watermark { repo: " +:+ str_debug (w_repo w) +:+ ", head: "
  +:+ match w_head w with Some h => "Some(" +:+ str_debug h +:+ ")" | None => "None" end
  +:+ ", head_count: " +:+ dnat (w_head_count w) +:+ ", ingested_at_ms: " +:+ decimal (w_ingested_at_ms w) +:+ " }".

Definition result_json (r : RecallResult) : Value :=
  obj [("repo", JString (rr_repo r)); ("watermark", jstr (Watermark_debug <$> rr_watermark r));
       ("total_in_tenant", jnat (rr_total_in_tenant r)); ("count", jnat (length (rr_items r)));
       ("items", JArray (item_json <$> rr_items r))].

Definition Direction_debug (d : Direction) : string := match d with Out => "Out" | In_ => "In" end.
Definition neighbor_json (n : NeighborItem) : Value :=
  obj [("edge_kind", JString (EdgeKind_debug (ni_edge_kind n))); ("direction", JString (Direction_debug (ni_direction n)));
       ("quarantined", JBool (ni_quarantined n)); ("node", jopt item_json (ni_node n))].
End answers.

Definition scene_node_json (n : SceneNode) : Value :=
  let '(x, y, z) := sn_pos n in
  obj [("id", JString (sn_id n)); ("title", JString (sn_title n)); ("kind", JString (sn_kind n)); ("repo", JString (sn_repo n));
       ("plane", JString (sn_plane n)); ("trust", JString (sn_trust n)); ("lane", JString (sn_lane n)); ("status", JString (sn_status n));
       ("pos", JArray [jf32 x; jf32 y; jf32 z]); ("degree", jint (sn_degree n)); ("contradicted", JBool (sn_contradicted n));
       ("projected", JBool (sn_projected n))].
Definition scene_edge_json (e : SceneEdge) : Value :=
  obj [("from", JString (se_from e)); ("to", JString (se_to e)); ("kind", JString (se_kind e)); ("quarantined", JBool (se_quarantined e))].
Definition scene_json (s : Scene) : Value :=
  obj [("org", JString (scn_org s)); ("projection", JString (scn_projection s)); ("node_count", jnat (scn_node_count s));
       ("edge_count", jnat (scn_edge_count s)); ("nodes", JArray (scene_node_json <$> scn_nodes s));
       ("edges", JArray (scene_edge_json <$> scn_edges s))].

(** ** Checkpoints *)

Definition CHAIN_ID_40204 : Z := 40204.

Definition anchor_json (a : AnchorRecord) : Value :=
  obj [("repo", JString (a_repo a)); ("root", JString (a_root a)); ("node_count", jnat (a_node_count a));
       ("edge_count", jnat (a_edge_count a)); ("anchored_at_ms", jint (a_anchored_at_ms a)); ("prev", jstr (a_prev a))].
Definition checkpoint_json (c : ChainCheckpoint) : Value :=
  obj [("chain_id", jint (ck_chain_id c)); ("block_number", jint (ck_block_number c)); ("block_hash", JString (ck_block_hash c));
       ("fetched_at_ms", jint (ck_fetched_at_ms c))].

Definition map_sync_err (e : SyncError) : GwExit :=
  match e with
  | SyncChainFailed m => api 502 ("chain checkpoint failed: " +:+ m)
  | other => ise (SyncError_display other)
  end.

Definition sign_checkpoint `{Ed25519, Hex, Serde ChainAnchorRecord} (key : SigningKey) (record : ChainAnchorRecord) : result GwExit Value :=
  let? b := map_err ise (to_vec record) in
  Ok (obj [("record", obj [("anchor", anchor_json (car_anchor record)); ("checkpoint", checkpoint_json (car_checkpoint record))]);
           ("signature", JString (hex_encode (array_bytes (sk_sign key b))));
           ("gateway_pubkey", JString (hex_encode (array_bytes (sk_verifying_key key)))); ("alg", JString "ed25519");
           ("signed_over", JString "compact-json(record) — the exact bytes are signed_payload_hex");
           ("signed_payload_hex", JString (hex_encode b))]).

(** ** The routes *)

Record AssertBody := { ab_repo : string; ab_content : string; ab_kind : option string; ab_valid_from : option Z }.
Record CheckpointBody := { cb_repo : string; cb_root : string }.

(** A credential of the MCP route *)
Inductive Cred := CredOidc (p : Principal) | CredConnect (c : ConnectClaims).
Definition cred_sub (c : Cred) : string := match c with CredOidc p => pr_sub p | CredConnect c => cc_sub c end.

(** A request of the MCP route that passed its bounds *)
Record ByomJob := { jb_sub : string; jb_grant : CapabilityGrant; jb_lines : list string }.

Section routes.
Context {T : Type} `{MemStore T, Blake3, Hex, Ed25519, Serde Watermark, Serde AuditRecord, Serde Head}.
Context `{Unicode, FloatNan, Ln, SliceSort, CharTables, SerdeJson, Jwt, HashOrder, JsonText Control, JsonText TeamAllowlist}.
Context `{Trig, Rpc, Serde AnchorRecord, Serde ChainAnchorRecord, FromJson CapabilityGrant, FromJson MemoryDiff, Env, Hmac}.
Context (clock : nat → Timestamp) (filter_clock : nat → string → Timestamp) (fs : nat → IoOracle).
Context (allow_fault : nat → option string) (save_io : nat → SaveIo).
(** [store.is_encrypted_at_rest()] and the text of a [JoinError] *)
Context (is_encrypted_at_rest : T → bool) (join_error : string).

Abbreviation Gw := (Gw (T := T)).
Abbreviation route A := (stm Gw GwExit A).
Abbreviation server := (MemoryMcpServer (T := T)).
Abbreviation gate := (gate clock fs allow_fault save_io).
Abbreviation gate_with_grant := (gate_with_grant clock fs allow_fault save_io).

(** [.ok_or_else(..)?] *)
Definition required {A} (o : option A) (m : string) : route A := slift (ok_or o (bad m)).
(** [recaller(app)]: the configured embedder, else the default one *)
Definition recaller (app : Config) : Embedder := default default_embedder (cf_embedder app).

Definition http_recall (app : Config) (org : string) (q : QueryMap) (headers : HeaderMap) : route Value :=
  let! repo := required (qparam q "repo") "repo query param required" in
  let! _ := gate app headers org (repo_resource repo) Read "recall" in
  let! r := gw_read (λ t, storyline (with_in_flight recall_default (in_flight_param q)) t repo (budget q 15)) in
  sret (result_json r).

Definition http_search (app : Config) (org : string) (q : QueryMap) (headers : HeaderMap) : route Value :=
  let! repo := required (qparam q "repo") "repo query param required" in
  let! query := required (qparam q "q") "q query param required" in
  let! _ := gate app headers org (repo_resource repo) Read "search" in
  let! r := λ s,
    let '(cache, o) := search (with_in_flight recall_default (in_flight_param q)) (recaller app) (Some (gw_index_cache s)) (gw_store s)
                              repo query (budget q 10) in
    (with_index (default (gw_index_cache s) cache) s,
     match o with None => Err GwPanic | Some r => map_err (ise ∘ StoreError_display) r end) in
  sret (result_json r).

Definition http_neighbors (app : Config) (org : string) (q : QueryMap) (headers : HeaderMap) : route Value :=
  let! repo := required (qparam q "repo") "repo query param required" in
  let! prefix := required (qparam q "id") "id query param required" in
  let! sg := gate_with_grant app headers org (repo_resource repo) Read "neighbors" in
  let! p := resolve_in_tenant repo prefix in
  let! ns := readable_neighbors filter_clock sg.2 repo p.1 (budget q 20) in
  sret (obj [("id", JString (to_hex p.1)); ("count", jnat (length ns)); ("neighbors", JArray (neighbor_json <$> ns))]).

Definition is_superseding (n : NeighborItem) : bool :=
  bool_decide (ni_edge_kind n = Supersedes) && match ni_direction n with In_ => true | Out => false end && negb (ni_quarantined n).
Definition is_contradicting (n : NeighborItem) : bool :=
  (bool_decide (ni_edge_kind n = Contradicts) || bool_decide (ni_edge_kind n = Refutes)) && negb (ni_quarantined n).
Definition verdict (superseded contradicted : bool) : string :=
  if superseded then "superseded" else if contradicted then "contradicted" else "current".

Definition verify_item (id : ContentHash) (node : MemoryNode) : RecallItem :=
  {| ri_id := id; ri_kind := n_kind node; ri_repo := n_repo node; ri_title := from_utf8_lossy (n_content node);
     ri_valid_from := n_valid_from node; ri_plane := n_plane node; ri_trust_tier := n_trust_tier node;
     ri_source := n_source_ref node; ri_status := n_status node; ri_score := None; ri_in_flight_branch := None |}.

Definition verify_answer (id : ContentHash) (node : MemoryNode) (ns : list NeighborItem) : Value :=
  let superseded := bool_decide (n_status node = Superseded) || existsb is_superseding ns in
  let contradicted := existsb is_contradicting ns in
  obj [("id", JString (to_hex id)); ("verdict", JString (verdict superseded contradicted)); ("superseded", JBool superseded);
       ("contradicted", JBool contradicted); ("node", item_json (verify_item id node)); ("neighbors", JArray (neighbor_json <$> ns))].

Definition http_verify (app : Config) (org : string) (q : QueryMap) (headers : HeaderMap) : route Value :=
  let! repo := required (qparam q "repo") "repo query param required" in
  let! prefix := required (qparam q "id") "id query param required" in
  let! sg := gate_with_grant app headers org (repo_resource repo) Read "verify" in
  let! p := resolve_in_tenant repo prefix in
  let! ns := readable_neighbors filter_clock sg.2 repo p.1 64 in
  sret (verify_answer p.1 p.2 ns).

Definition needs_review (it : RecallItem) : bool :=
  bool_decide (ri_trust_tier it = InferredAdvisory) || negb (bool_decide (ri_status it = Active)).

Definition http_review (app : Config) (org : string) (q : QueryMap) (headers : HeaderMap) : route Value :=
  let! repo := required (qparam q "repo") "repo query param required" in
  let! _ := gate app headers org (repo_resource repo) Read "review" in
  let want := budget q 25 in
  let! r := gw_read (λ t, storyline recall_default t repo (Nat.min (want * 4) 500)) in
  let items := take want (filter (λ it, needs_review it = true) (rr_items r)) in
  sret (obj [("repo", JString (rr_repo r)); ("total_in_tenant", jnat (rr_total_in_tenant r)); ("count", jnat (length items));
             ("items", JArray (item_json <$> items))]).

(** The embedding of a new assertion, or why it has none *)
Definition embed_content (app : Config) (content : string) : option VersionedVector * option string :=
  match cf_embedder app with
  | Some e => match em_embed e content with Ok v => (Some v, None) | Err e => (None, Some (EmbedError_display e)) end
  | None => (None, Some "gateway has no embedder configured")
  end.

Definition http_assert (app : Config) (org : string) (headers : HeaderMap) (body : AssertBody) : route Value :=
  if bool_decide (ab_repo body = "") then sfail (bad "repo required")
  else if bool_decide (ab_content body = "") then sfail (bad "content required")
  else
    let! sub := gate app headers org (repo_resource (ab_repo body)) Write "assert" in
    let kind := parse_kind (default "rationale" (ab_kind body)) in
    let asserter := for_principal (cf_signing_key app) sub in
    let '(embedding, embed_warning) := embed_content app (ab_content body) in
    let! now := gw_now clock in
    let! id := gw_write (ms_put_node (assert_node_with asserter (ab_repo body) kind (ab_content body)
                                                      (default now (ab_valid_from body)) now embedding)) in
    λ s, (with_layout None s,
          Ok (obj [("id", JString (to_hex id)); ("repo", JString (ab_repo body)); ("author", JString (pubkey_hex asserter));
                   ("embedded", JBool (bool_decide (embed_warning = None))); ("warning", jstr embed_warning)])).

Definition org_health (app : Config) (org : string) (headers : HeaderMap) : route Value :=
  let! _ := gate app headers org "*" Read "health" in
  sret (obj [("ok", JBool true); ("org", JString org)]).

Definition submit_checkpoint (app : Config) (org : string) (headers : HeaderMap) (body : CheckpointBody) : route Value :=
  if bool_decide (cb_repo body = "") then sfail (bad "repo required")
  else
    let root := trim (as_bytes (cb_root body)) in
    if bool_decide (root = []) then sfail (bad "root required")
    else if bool_decide (256 < length root)%nat then sfail (bad "root too long (max 256 chars; submit a hash, not a document)")
    else
      let! _ := gate app headers org (repo_resource (cb_repo body)) Write "checkpoint" in
      let! rpc := slift (ok_or (cf_chain_rpc app) (api 503 "chain RPC not configured — external checkpoint binding is disabled")) in
      let! now := gw_now clock in
      let! record := smap_err map_sync_err
                       (gw_on_store (checkpoint_external_root (cb_repo body) (string_of_bytes root) rpc CHAIN_ID_40204 now)) in
      slift (sign_checkpoint (cf_signing_key app) record).

(** [None] is 204 *)
Definition read_checkpoint (app : Config) (org : string) (headers : HeaderMap) (repo : string) : route (option Value) :=
  if bool_decide (repo = "") then sfail (bad "repo query param required")
  else
    let! _ := gate app headers org (repo_resource repo) Read "checkpoint_read" in
    let! record := sread (λ s, map_err map_sync_err (latest_external_checkpoint (gw_store s) repo)) in
    match record with
    | None => sret None
    | Some rec => slift (rmap Some (sign_checkpoint (cf_signing_key app) rec))
    end.

Definition chain_note : string :=
  "external-root checkpoints bind to the live 40204 head (read-only); the on-chain WRITE (root → AnchorRegistry) is the deferred WP-5.3 follow-up (needs a funded signer + Rule-8).".

Definition ops (app : Config) (headers : HeaderMap) : route Value :=
  let org := cf_org_id app in
  let! _ := gate app headers org "*" Read "ops" in
  let! nodes := gw_read ms_node_count in
  let! edges := gw_read ms_edge_count in
  sread (λ s, Ok (obj [("org", JString org); ("store_path", JString (cf_store_path app));
    ("encrypted_at_rest", JBool (is_encrypted_at_rest (gw_store s))); ("node_count", jnat nodes); ("edge_count", jnat edges);
    ("audit_records", jnat (length (records (gw_audit s)))); ("embedder", jstr (em_model_id <$> cf_embedder app));
    ("oidc", JBool (bool_decide (is_Some (cf_oidc app)))); ("dev_auth", JBool (cf_allow_dev_auth app));
    ("chain", obj [("checkpoint_binding", JBool (bool_decide (is_Some (cf_chain_rpc app)))); ("chain_id", jint CHAIN_ID_40204);
                   ("note", JString chain_note)])])).

(** *** The layout *)

Definition node_input (n : MemoryNode) : NodeInput :=
  {| np_id := to_hex (compute_id n); np_title := from_utf8_lossy (n_content n); np_kind := discriminant (n_kind n); np_repo := n_repo n;
     np_plane := to_lowercase (Plane_debug (n_plane n)); np_trust := TrustTier_debug (n_trust_tier n);
     np_status := Status_debug (n_status n); np_embedding := vv_data <$> n_embedding n |}.

(** The federation overview when it has two nodes, else a sample *)
Definition chosen (all : list MemoryNode) : list MemoryNode :=
  let fed := filter (λ n, n_repo n = "federation") all in
  if bool_decide (2 ≤ length fed)%nat then fed else take LAYOUT_CAP all.

Definition layout_edges (t : T) (id_set : gset string) (edges : list raw_edge) (n : MemoryNode) : result StoreError (list raw_edge) :=
  let? es := ms_out_edges t (compute_id n) in
  Ok (edges ++ ((λ e, (to_hex (compute_id n), to_hex (e_to e), EdgeKind_debug (e_kind e), e_quarantined e))
                <$> filter (λ e, to_hex (e_to e) ∈ id_set) es)).

Definition build_layout (org : string) : route Scene :=
  λ s,
  match gw_layout_cache s with
  | Some scene => (s, Ok scene)
  | None =>
    let r := (let? all := ms_all_nodes (gw_store s) in
              let nodes := chosen all in
              let ids : gset string := list_to_set ((λ n, to_hex (compute_id n)) <$> nodes) in
              let? edges := rfold (layout_edges (gw_store s) ids) [] nodes in
              Ok (build_scene org (node_input <$> nodes) edges)) in
    match r with
    | Ok scene => (with_layout (Some scene) s, Ok scene)
    | Err e => (s, Err (ise (StoreError_display e)))
    end
  end.

Definition http_layout (app : Config) (org : string) (headers : HeaderMap) : route Value :=
  let! _ := gate app headers org "*" Read "layout" in
  let! scene := build_layout org in
  sret (scene_json scene).

(** *** Connect tokens and MCP over HTTP *)

Definition TTL_SECS : Z := 15 * 60.

Definition connect_token (app : Config) (headers : HeaderMap) : route Value :=
  let! sub := authenticate clock app headers in
  let! secret := slift (ok_or (cf_connect_secret app) (api 501 "connect minting not configured")) in
  let! now := gw_now clock in
  let! token := slift (map_err (λ _, api 500 "mint failed") (mint_connect_token secret (cf_org_id app) sub (Some "read") [] (now / 1000) TTL_SECS)) in
  sret (obj [("connect_token", JString token); ("sub", JString sub); ("scope", JString "read"); ("expires_in", jint TTL_SECS)]).

(** An identity token when it verifies, else a connect token of this organisation *)
Definition connect_cred (app : Config) (token : string) : route Cred :=
  let! secret := slift (ok_or (cf_connect_secret app) (api 501 "BYOM connect not configured")) in
  let! now := token_now clock in
  let! claims := slift (map_err (λ _, unauthorized "token rejected") (verify_connect_token secret now token)) in
  if bool_decide (cc_org claims = Some (cf_org_id app)) then sret (CredConnect claims)
  else sfail (forbidden "connect token not issued for this org").
Definition byom_cred (app : Config) (token : string) : route Cred :=
  match cf_oidc app with
  | Some o =>
    let! now := token_now clock in
    match verify_principal o now token with
    | Ok p => sret (CredOidc p)
    | Err _ => connect_cred app token
    end
  | None => connect_cred app token
  end.

Definition byom_membership (app : Config) (cred : Cred) (sub : string) : route Membership :=
  let org := cf_org_id app in
  let! existing := sread (λ s, Ok (membership (gw_control s) sub org)) in
  match existing with
  | Some m => sret m
  | None =>
    match cred with
    | CredOidc p =>
      let! o := jit_provision allow_fault save_io app p org in
      slift (ok_or o (forbidden "no membership in org"))
    | CredConnect _ => sfail (forbidden "no membership in org")
    end
  end.

Definition byom_grant (app : Config) (cred : Cred) (m : Membership) : route CapabilityGrant :=
  let! now := gw_now clock in
  let grant := mint_grant (cf_signing_key app) (cf_issuer app) m now GRANT_TTL_MS in
  match cred with
  | CredConnect c => let! now := gw_now clock in sret (attenuate_grant grant c (cf_signing_key app) now)
  | CredOidc _ => sret grant
  end.

Definition byom_lines (body : string) : list string :=
  string_of_bytes <$> filter (λ l, l ≠ []) (trim <$> lines (as_bytes body)).

(** Does a line count as a tool call?  Unparseable lines do. *)
Definition is_tool_call (l : string) : bool :=
  match rok (json_from_str l) ≫= λ v, jget v "method" ≫= as_str with
  | Some m => bool_decide (m = "tools/call")
  | None => true
  end.

(** The bounds: at most 32 lines, the budget of the principal, its execution slots *)
Definition byom_admit (sub : string) (ls : list string) : route unit :=
  if bool_decide (BYOM_MAX_LINES < length ls)%nat then sfail (api 413 "too many JSON-RPC calls in one request (max 32)")
  else
    let! now := gw_now clock in
    λ s,
    let '(buckets, spent) := try_spend (gw_buckets s) sub (length (filter (λ l, is_tool_call l = true) ls)) now in
    let s := with_limits buckets (gw_inflight s) s in
    if negb spent then (s, Err (api 429 "BYOM call budget exhausted; retry later"))
    else
      let '(inflight, entered) := try_enter (gw_inflight s) sub in
      let s := with_limits (gw_buckets s) inflight s in
      if negb entered then (s, Err (api 429 "too many concurrent BYOM requests for this principal")) else (s, Ok tt).

(** Everything before the execution: a job, with its slot claimed *)
Definition byom_accept (app : Config) (sub : string) (headers : HeaderMap) (body : string) : route ByomJob :=
  let! token := slift (ok_or (bearer headers) (unauthorized "missing bearer token")) in
  let! cred := byom_cred app token in
  if negb (bool_decide (cred_sub cred = sub)) then sfail (forbidden "token sub mismatch")
  else
    let! m := byom_membership app cred sub in
    let! grant := byom_grant app cred m in
    let ls := byom_lines body in
    let! _ := byom_admit sub ls in
    sret {| jb_sub := sub; jb_grant := grant; jb_lines := ls |}.

(** The MCP session of a job on the shared state *)
Definition byom_server (app : Config) (job : ByomJob) (s : Gw) : server :=
  {| sv_store := gw_store s; sv_grant := jb_grant job; sv_asserter := Some (for_principal (cf_signing_key app) (jb_sub job));
     sv_query_embedder := cf_embedder app; sv_index_cache := Some (gw_index_cache s); sv_write_gate := Some (gw_write_poisoned s);
     sv_audit := gw_audit s; sv_audit_poisoned := gw_audit_poisoned s; sv_audit_disk := gw_audit_disk s;
     sv_req_trace := None; sv_req_grant := None; sv_step := gw_step s |}.
(** What the session leaves in the shared state *)
Definition byom_back (sv : server) (s : Gw) : Gw :=
  at_step (sv_step sv) (with_audit (sv_audit sv) (sv_audit_disk sv)
    (with_index (default (gw_index_cache s) (sv_index_cache sv)) (with_store (sv_store sv) s))).

Definition join_reply (out resp : string) : string := (if bool_decide (out = "") then "" else out +:+ nl) +:+ resp.
Fixpoint byom_loop (sv : server) (out : string) (ls : list string) : server * option string :=
  match ls with
  | [] => (sv, Some out)
  | l :: ls =>
    match handle_line clock filter_clock fs sv l with
    | (sv, None) => (sv, None)
    | (sv, Some None) => byom_loop sv out ls
    | (sv, Some (Some resp)) => byom_loop sv (join_reply out resp) ls
    end
  end.

(** The execution of a job; its slot is released also when it panics *)
Definition byom_run (app : Config) (job : ByomJob) : route string :=
  λ s,
  let '(sv, out) := byom_loop (byom_server app job s) "" (jb_lines job) in
  let s := byom_back sv s in
  (with_limits (gw_buckets s) (release (gw_inflight s) (jb_sub job)) s,
   match out with Some o => Ok o | None => Err (ise join_error) end).

Definition byom (app : Config) (sub : string) (headers : HeaderMap) (body : string) : route string :=
  let! job := byom_accept app sub headers body in
  byom_run app job.

(** *** The push webhook *)

Definition github_webhook (headers : HeaderMap) (body : bytes) : route (Z * Value) :=
  let secret := default "" (env_var "MEM_INGEST_WEBHOOK_SECRET") in
  if bool_decide (secret = "") then sfail (api 503 "ingest webhook disabled (MEM_INGEST_WEBHOOK_SECRET unset)")
  else if negb (verify_hub_signature (as_bytes secret) (headers "x-hub-signature-256") body) then
    sfail (unauthorized "invalid or missing webhook signature")
  else if bool_decide (headers "x-github-event" = Some "ping") then sret (200, obj [("pong", JBool true)])
  else
    match parse_push_event body with
    | Some ev => λ s,
      let q := gw_ingest_queue s ++ [ev] in
      (with_queue q s, Ok (202, obj [("queued", JString (pe_repo ev)); ("ref", JString (pe_git_ref ev)); ("queue_depth", jnat (length q))]))
    | None => sfail (bad "not an in-scope CitrateNetwork push event")
    end.
End routes.
