(* ===== verification/GatewayRouteProps.v ===== *)
(** * What the routes of the gateway guarantee

    Reads stay in readable tenants, an assertion is exactly one signed node, a read-only
    connect token never changes the store, execution slots are given back, and only
    authentic push events are queued. *)

From Stdlib Require Import SpecFloat.
From S2P Require Import Prelude Bytes Externs Text Str Belnap Identity Node Float Edge Grant AuditLog Kv Shred Store StoreSpec StoreContents.
From S2P Require Import Supersession StoreInterface Assert Index Hnsw Query QueryProps Search Display Chunk Sync SyncAnchor SyncChain.
From S2P Require Import Control GwAuth Scene Gateway GatewayProps GatewayGate McpRender Mcp McpProps GatewayRoutes.

Section route_props.
Context {T : Type} `{MemStore T, Blake3, Hex, Ed25519, Serde Watermark, Serde AuditRecord, Serde Head}.
Context `{Unicode, FloatNan, Ln, SliceSort, CharTables, SerdeJson, Jwt, HashOrder, JsonText Control, JsonText TeamAllowlist}.
Context `{Trig, Rpc, Serde AnchorRecord, Serde ChainAnchorRecord, FromJson CapabilityGrant, FromJson MemoryDiff, Env, Hmac}.
Context (clock : nat → Timestamp) (filter_clock : nat → string → Timestamp) (fs : nat → IoOracle).
Context (allow_fault : nat → option string) (save_io : nat → SaveIo) (join_error : string).

Abbreviation gw := (Gw (T := T)).
Implicit Types (s : gw) (app : Config).

(** ** Reads *)

Lemma resolve_in_spec `{!MemStoreLaws T} (repo prefix : string) s c (Ht : ms_holds (gw_store s) c) :
  let candidate x n := c_nodes c !! x = Some n ∧ n_repo n = repo ∧ String.prefix prefix (to_hex x) = true in
  (∃ x n, candidate x n ∧ (∀ y k, candidate y k → y = x) ∧ resolve_in_tenant repo prefix s = (s, Ok (x, n))) ∨
  ((¬ ∃ x n, candidate x n ∧ ∀ y k, candidate y k → y = x) ∧
   resolve_in_tenant repo prefix s = (s, Err (not_found "node id prefix did not resolve"))).
Proof.
  cbv zeta. destruct (resolve_prefix_where_spec (gw_store s) c prefix (λ n, bool_decide (n_repo n = repo)) Ht) as (o & Ho & Hiff).
  unfold resolve_in_tenant, gw_read, sread, sbind, resolve_prefix_in. rewrite Ho. cbn [map_err].
  assert (∀ n, bool_decide (n_repo n = repo) = true ↔ n_repo n = repo) as Hbd by (intros; apply bool_decide_eq_true).
  destruct o as [x|].
  - left. destruct (proj1 (Hiff x) eq_refl) as [(n & Hn & Hr & Hp) Hu]. apply Hbd in Hr. exists x, n. split; [done|]. split.
    + intros y k (Hy & Hk & Hpy). eapply Hu; [done|by apply Hbd|done].
    + rewrite (ms_get_node_ok _ _ _ Ht). cbn [map_err]. rewrite Hn. by rewrite bool_decide_true.
  - right. split; [|done]. intros (x & n & (Hn & Hr & Hp) & Hu). assert (None = Some x) as [=]. apply Hiff. split.
    + exists n. split_and!; try done. by apply Hbd.
    + intros y k Hy Hk Hpy. apply Hbd in Hk. by eapply Hu.
Qed.

(** Resolving an id is exact inside the tenant and blind outside it: the answer is the
    node of the tenant whose id has the prefix, when there is exactly one, and the same 404
    otherwise, whatever other tenants hold; the state is unchanged. *)
Theorem resolve_in_tenant_exact `{!MemStoreLaws T} (repo prefix : string) s c (Ht : ms_holds (gw_store s) c) :
  let candidate x n := c_nodes c !! x = Some n ∧ n_repo n = repo ∧ String.prefix prefix (to_hex x) = true in
  (∃ x n, candidate x n ∧ (∀ y k, candidate y k → y = x) ∧ resolve_in_tenant repo prefix s = (s, Ok (x, n))) ∨
  ((¬ ∃ x n, candidate x n ∧ ∀ y k, candidate y k → y = x) ∧
   resolve_in_tenant repo prefix s = (s, Err (not_found "node id prefix did not resolve"))).
Proof. by apply resolve_in_spec. Qed.

(** What a member may be shown next to a node of [repo] *)
Definition shown_to (m : Membership) (repo : string) (ns : list NeighborItem) : Prop :=
  ∀ i n, i ∈ ns → ni_node i = Some n → ri_repo n = repo ∨ role_allows m (repo_resource (ri_repo n)) Read = true.

Lemma readable_neighbors_shown `{!MemStoreLaws T, !Ed25519Laws} sk issuer m now repo id budget s s' r c : ms_holds (gw_store s) c →
  readable_neighbors filter_clock (mint_grant sk issuer m now GRANT_TTL_MS) repo id budget s = (s', r) →
  s' = tick s ∧ ∃ ns, r = Ok ns ∧ shown_to m repo ns.
Proof.
  intros Ht. unfold readable_neighbors, gw_read, sread. intros [= <- <-]. split; [done|].
  destruct (neighbors_readable_confined (gw_store s) c id budget
    (λ r, bool_decide (r = repo) || grant_can_read (mint_grant sk issuer m now GRANT_TTL_MS) r (filter_clock (gw_step s) r)) Ht)
    as (_ & _ & items & _ & _ & Hn & _ & Hc). cbn [gw_store tick at_step]. rewrite Hn. exists items. split; [done|]. intros i n Hi Hni.
  specialize (Hc i n Hi Hni). apply orb_true_iff in Hc as [Hc|Hc]; [left; by apply bool_decide_eq_true in Hc|right].
  unfold grant_can_read in Hc. destruct (check _ _ _ _) as [[]|] eqn:Hk; [|done]. by apply mint_grant_check in Hk as [_ ?].
Qed.

(** The two routes that show neighbours share this body. *)
Definition neighbor_route app (org : string) (headers : HeaderMap) (det repo prefix : string) (budget : nat)
    (answer : ContentHash → MemoryNode → list NeighborItem → Value) : stm gw GwExit Value :=
  let! sg := gate_with_grant clock fs allow_fault save_io app headers org (repo_resource repo) Read det in
  let! p := resolve_in_tenant repo prefix in
  let! ns := readable_neighbors filter_clock sg.2 repo p.1 budget in
  sret (answer p.1 p.2 ns).

Definition neighbors_answer (id : ContentHash) (_ : MemoryNode) (ns : list NeighborItem) : Value :=
  obj [("id", JString (to_hex id)); ("count", jnat (length ns)); ("neighbors", JArray (neighbor_json <$> ns))].

Lemma neighbor_route_confined `{!MemStoreLaws T, !Ed25519Laws, !JsonTextLaws Control} app org headers det repo prefix budget answer s s' v c :
  ms_holds (gw_store s) c → neighbor_route app org headers det repo prefix budget answer s = (s', Ok v) →
  gw_store s' = gw_store s ∧ ∃ sub m id n ns, membership (gw_control s') sub org = Some m ∧ role_allows m (repo_resource repo) Read = true ∧
    c_nodes c !! id = Some n ∧ n_repo n = repo ∧ shown_to m repo ns ∧ v = answer id n ns.
Proof.
  intros Ht Hr. unfold neighbor_route in Hr. apply sbind_inv in Hr as [(s1 & [sub grant] & Hg & Hr)|(e & _ & [=])].
  apply gate_spec in Hg as (Hu & _ & _ & p & m & now & rec & pre & _ & Hsub & _ & Hm & Hrole & _ & -> & _); [|exact _..].
  assert (gw_store s1 = gw_store s) as Hst by apply Hu.
  apply sbind_inv in Hr as [(s2 & [id n] & Hres & Hr)|(e & _ & [=])].
  rewrite <- Hst in Ht. destruct (resolve_in_spec repo prefix s1 c Ht) as [(x & k & (Hx & Hxr & _) & _ & Hok)|[_ Hno]]; [|congruence].
  rewrite Hok in Hres. injection Hres as <- <- <-.
  apply sbind_inv in Hr as [(s3 & ns & Hns & Hr)|(e & _ & [=])]. cbn [fst snd] in Hns.
  destruct (readable_neighbors_shown _ _ _ _ _ _ _ _ _ _ c Ht Hns) as (-> & ns' & [= <-] & Hsh). injection Hr as <- <-. cbn. split; [done|].
  by exists sub, m, x, k, ns.
Qed.

(** The neighbours a caller sees are its own to see: when [/neighbors] or [/verify]
    answers, the caller is a member whose role and scopes allow it to read the tenant, the
    anchor is a node of that tenant, and every neighbour shown, and so everything a verdict
    is drawn from, is in that tenant or in one the member may read; the store is
    unchanged. *)
Theorem neighbor_routes_confined `{!MemStoreLaws T, !Ed25519Laws, !JsonTextLaws Control} app org q headers s s' v c repo
    (Ht : ms_holds (gw_store s) c) (Hrepo : qparam q "repo" = Some repo)
    (Hr : http_neighbors clock filter_clock fs allow_fault save_io app org q headers s = (s', Ok v) ∨
          http_verify clock filter_clock fs allow_fault save_io app org q headers s = (s', Ok v)) :
  gw_store s' = gw_store s ∧ ∃ sub m id n ns, membership (gw_control s') sub org = Some m ∧ role_allows m (repo_resource repo) Read = true ∧
    c_nodes c !! id = Some n ∧ n_repo n = repo ∧ shown_to m repo ns ∧ (v = neighbors_answer id n ns ∨ v = verify_answer id n ns).
Proof.
  destruct Hr as [Hr|Hr]; [unfold http_neighbors in Hr|unfold http_verify in Hr]; unfold required in Hr; rewrite Hrepo in Hr;
    rewrite (sbind_ok _ _ _ s repo) in Hr by done; (destruct (qparam q "id") as [prefix|]; [|done]);
    rewrite (sbind_ok _ _ _ s prefix) in Hr by done.
  - apply (neighbor_route_confined app org headers "neighbors" repo prefix (budget q 20) neighbors_answer s s' v c Ht) in Hr. naive_solver.
  - assert (neighbor_route app org headers "verify" repo prefix 64 verify_answer s = (s', Ok v)) as Hv by (rewrite <- Hr; reflexivity).
    apply neighbor_route_confined with (c := c) in Hv; [naive_solver|done..].
Qed.

(** ** Assertions *)

(** The node [/assert] writes for a caller at a time *)
Definition route_node app (sub : string) (body : AssertBody) (now : Timestamp) : MemoryNode :=
  assert_node_with (for_principal (cf_signing_key app) sub) (ab_repo body) (parse_kind (default "rationale" (ab_kind body))) (ab_content body)
    (default now (ab_valid_from body)) now (embed_content app (ab_content body)).1.

Lemma route_node_verifies `{!Ed25519Laws, !HexLaws} app sub body now : verify_node (route_node app sub body now) = Ok tt.
Proof. unfold route_node, for_principal, verify_node, assert_node_with. rewrite set_node_signature_id. apply verify_own_sig. Qed.


(** ** Connect tokens *)

(** Lines that all run under a grant that allows no write *)
Lemma byom_loop_reads (sv sv' : MemoryMcpServer (T := T)) out ls o : idle sv → (∀ r now, check (sv_grant sv) r Write now ≠ Ok tt) →
  byom_loop clock filter_clock fs sv out ls = (sv', o) → sv_store sv' = sv_store sv ∧ ∃ rs, records (sv_audit sv') = records (sv_audit sv) ++ rs.
Proof.
  revert sv out. induction ls as [|l ls IH]; intros sv out Hi Hw Hl; cbn [byom_loop] in Hl.
  { injection Hl as <- <-. split; [done|]. exists []. by rewrite app_nil_r. }
  destruct (handle_line clock filter_clock fs sv l) as [sv1 x] eqn:Hh.
  destruct (handle_line_effect clock filter_clock fs sv l sv1 x Hi Hh) as (rs & Hrs & _ & Hp & Hst).
  assert (sv_store sv1 = sv_store sv) as Hst1.
  { destruct Hst as [?|(rec & Hin & Hev)]; [done|]. rewrite Forall_forall in Hp. destruct (Hp rec Hin) as [_ [Hd|(op & Hop & Hc & _)]]; [congruence|].
    rewrite Hev in Hop. destruct op; [done|]. by apply Hw in Hc. }
  destruct x as [x|]; [|injection Hl as <- <-; eauto].
  destruct (handle_line_idle clock filter_clock fs sv l sv1 x Hi Hh) as (Hi1 & (Hg & _) & _).
  assert (∀ out', byom_loop clock filter_clock fs sv1 out' ls = (sv', o) → sv_store sv' = sv_store sv ∧ ∃ rs, records (sv_audit sv') = records (sv_audit sv) ++ rs) as Hrec.
  { intros out' Hl'. apply IH in Hl' as [-> [rs' ->]]; [|done|by rewrite Hg]. split; [done|]. exists (rs ++ rs'). by rewrite Hrs, app_assoc. }
  destruct x; by eapply Hrec.
Qed.

Lemma byom_run_reads app job s s' r : (∀ x now, check (jb_grant job) x Write now ≠ Ok tt) →
  byom_run clock filter_clock fs join_error app job s = (s', r) → gw_store s' = gw_store s.
Proof.
  intros Hw. unfold byom_run. destruct (byom_loop _ _ _ _ _ _) as [sv o] eqn:Hl. intros [= <- <-].
  by apply byom_loop_reads in Hl as [Hl _].
Qed.

(** A grant attenuated by claims that name no write allows none. *)
Lemma attenuated_never_writes `{!Ed25519Laws} g c sk now x t : token_allows_write c = false →
  check (attenuate_grant g c sk now) x Write t ≠ Ok tt.
Proof.
  intros Hw Hc. apply check_signed in Hc as (_ & _ & s & Hs & Ho). unfold first_scope, attenuate_grant in Hs. cbn in Hs. rewrite Hw in Hs.
  destruct (cc_tenants c).
  - rewrite first_scope_map in Hs. apply fmap_Some in Hs as (y & _ & ->). done.
  - rewrite gate_write_scope in Hs. apply fmap_Some in Hs as (y & _ & ->). cbn in Ho. by rewrite andb_false_r in Ho.
Qed.

(** ** Before a job runs *)

(** The store, its caches, the audit log and the queue *)
Definition core s s' : Prop :=
  gw_store s' = gw_store s ∧ gw_index_cache s' = gw_index_cache s ∧ gw_audit s' = gw_audit s ∧ gw_audit_disk s' = gw_audit_disk s ∧
  gw_layout_cache s' = gw_layout_cache s ∧ gw_ingest_queue s' = gw_ingest_queue s.
(** What the admission changes: the core and the slots stay *)
Definition calm s s' : Prop := core s s' ∧ gw_inflight s' = gw_inflight s.
Definition keeps {A} (R : gw → gw → Prop) (m : stm gw GwExit A) : Prop := ∀ s s' r, m s = (s', r) → R s s'.

Lemma calm_refl s : calm s s.
Proof. by split_and!. Qed.
Lemma calm_trans s1 s2 s3 : calm s1 s2 → calm s2 s3 → calm s1 s3.
Proof. unfold calm, core. naive_solver congruence. Qed.
Lemma calm_lift {A} (x : result GwExit A) : keeps calm (slift x).
Proof. intros s s' r [= <- _]. apply calm_refl. Qed.
Lemma calm_fail {A} e : keeps calm (sfail e : stm gw GwExit A).
Proof. intros s s' r [= <- _]. apply calm_refl. Qed.
Lemma calm_ret {A} (a : A) : keeps calm (sret a).
Proof. intros s s' r [= <- _]. apply calm_refl. Qed.
Lemma calm_read {A} (f : gw → result GwExit A) : keeps calm (sread f).
Proof. intros s s' r [= <- _]. apply calm_refl. Qed.
Lemma calm_now : keeps calm (gw_now clock).
Proof. intros s s' r [= <- _]. by split_and!. Qed.
Lemma calm_token_now : keeps calm (token_now clock).
Proof. intros s s' r [= <- _]. by split_and!. Qed.
Lemma calm_bind {A B} (m : stm gw GwExit A) (k : A → stm gw GwExit B) : keeps calm m → (∀ a, keeps calm (k a)) → keeps calm (sbind m k).
Proof. intros Hm Hk s s' r [(s1 & a & Ha & Hb)|(e & Ha & ->)]%sbind_inv; [eapply calm_trans; [by eapply Hm|by eapply Hk]|by eapply Hm]. Qed.
Lemma calm_jit app p org : keeps calm (jit_provision allow_fault save_io app p org).
Proof.
  intros s s' r. unfold jit_provision. destruct (cf_team_allowlist_path app) as [path|]; [|intros [= <- _]; apply calm_refl].
  destruct (match_identity _ _ _ _) as [entry|]; [|intros [= <- _]; by split_and!].
  destruct (membership _ _ _); [intros [= <- _]; by split_and!|]. destruct (save _ _ _ _) as [files [[]|e]]; intros [= <- _]; by split_and!.
Qed.
#[local] Hint Resolve calm_lift calm_fail calm_ret calm_read calm_now calm_token_now calm_bind calm_jit : mem.

Lemma calm_cred app token : keeps calm (byom_cred clock app token).
Proof.
  assert (keeps calm (connect_cred clock app token)).
  { unfold connect_cred. do 3 (apply calm_bind; [auto with mem|intros ?]). case_bool_decide; auto with mem. }
  unfold byom_cred. destruct (cf_oidc app); [|done]. apply calm_bind; [auto with mem|]. intros now. destruct (verify_principal _ _ _); auto with mem.
Qed.
Lemma calm_membership app cred sub : keeps calm (byom_membership allow_fault save_io app cred sub).
Proof.
  unfold byom_membership. apply calm_bind; [auto with mem|]. intros [m|]; [auto with mem|]. destruct cred; [|auto with mem].
  apply calm_bind; auto with mem.
Qed.
Lemma calm_grant app cred m : keeps calm (byom_grant clock app cred m).
Proof. unfold byom_grant. apply calm_bind; [auto with mem|]. intros now. destruct cred; [auto with mem|]. apply calm_bind; auto with mem. Qed.

(** Admission: a slot is claimed exactly when it succeeds. *)
Lemma admit_spec sub ls s s' r l : table_of (gw_inflight s) l → byom_admit clock sub ls s = (s', r) →
  core s s' ∧ match r with Ok _ => table_of (gw_inflight s') (sub :: l) | Err _ => table_of (gw_inflight s') l end.
Proof.
  intros Ht. unfold byom_admit. case_bool_decide; [intros [= <- <-]; by split_and!|]. unfold gw_now, sbind. cbn [gw_buckets gw_inflight tick at_step].
  destruct (try_spend _ _ _ _) as [b [|]]; cbn [negb]; [|intros [= <- <-]; by split_and!].
  cbn [gw_inflight gw_buckets with_limits tick at_step]. destruct (try_enter _ _) as [m [|]] eqn:He; cbn [negb]; intros [= <- <-]; (split; [by split_and!|]).
  - by apply (table_enter _ _ _ _ Ht He).
  - by apply (table_refuse _ _ _ _ Ht He).
Qed.

(** Acceptance: nothing of the core changes, and the job of an accepted request holds a slot
    and runs under the grant its credential stands for. *)
Lemma accept_spec app sub headers body s s' r l : table_of (gw_inflight s) l →
  byom_accept clock allow_fault save_io app sub headers body s = (s', r) →
  core s s' ∧
  match r with
  | Ok job => jb_sub job = sub ∧ table_of (gw_inflight s') (sub :: l) ∧
      ∃ token s1 s2 s3 cred m, bearer headers = Some token ∧ byom_cred clock app token s = (s1, Ok cred) ∧ cred_sub cred = sub ∧
        byom_grant clock app cred m s2 = (s3, Ok (jb_grant job))
  | Err _ => table_of (gw_inflight s') l
  end.
Proof.
  intros Ht Ha. unfold byom_accept in Ha.
  assert (∀ s1, calm s s1 → core s s1 ∧ table_of (gw_inflight s1) l) as Hcalm.
  { intros s1 [Hc Hi]. split; [done|]. by rewrite Hi. }
  apply sbind_inv in Ha as [(s0 & token & H0' & Ha)|(e & H0' & ->)]; [|eapply Hcalm, calm_lift; done].
  unfold slift in H0'. injection H0' as <- Hb. destruct (bearer headers) as [tok|] eqn:Htok; [|done]. injection Hb as ->.
  apply sbind_inv in Ha as [(s1 & cred & H1' & Ha)|(e & H1' & ->)]; pose proof (calm_cred _ _ _ _ _ H1') as Hc1; [|by apply Hcalm].
  case_bool_decide as Hsub; cbn [negb] in Ha; [|injection Ha as <- <-; by apply Hcalm].
  apply sbind_inv in Ha as [(s2 & m & H2' & Ha)|(e & H2' & ->)]; pose proof (calm_trans _ _ _ Hc1 (calm_membership _ _ _ _ _ _ H2')) as Hc2; [|by apply Hcalm].
  apply sbind_inv in Ha as [(s3 & grant & H3' & Ha)|(e & H3' & ->)]; pose proof (calm_trans _ _ _ Hc2 (calm_grant _ _ _ _ _ _ H3')) as Hc3; [|by apply Hcalm].
  destruct (Hcalm s3 Hc3) as [Hcore Ht3]. cbv zeta in Ha.
  assert (∀ s4, core s3 s4 → core s s4) as Htrans by (intros s4; unfold core in *; naive_solver congruence).
  apply sbind_inv in Ha as [(s4 & [] & H4' & Ha)|(e & H4' & ->)]; apply (admit_spec _ _ _ _ _ _ Ht3) in H4' as [Hc4 Ht4]; [|by split; [apply Htrans|]].
  injection Ha as <- <-. split; [by apply Htrans|]. split; [done|]. split; [done|]. by exists token, s1, s2, s3, cred, m.
Qed.

(** ** MCP over HTTP *)

(** No credential behind this token allows a write. *)
Definition read_only_token app (token : string) : Prop :=
  (∀ oidc now, cf_oidc app = Some oidc → is_ok (verify_principal oidc now token) = false) ∧
  (∀ secret now c, cf_connect_secret app = Some secret → verify_connect_token secret now token = Ok c → token_allows_write c = false).

Lemma read_only_cred app token s s' cred : read_only_token app token → byom_cred clock app token s = (s', Ok cred) →
  ∃ c, cred = CredConnect c ∧ token_allows_write c = false.
Proof.
  intros [Ho Hc] Hb. assert (∀ s1, connect_cred clock app token s1 = (s', Ok cred) → ∃ c, cred = CredConnect c ∧ token_allows_write c = false) as Hcon.
  { intros s1 Hcn. unfold connect_cred in Hcn. destruct (cf_connect_secret app) as [secret|] eqn:Hs; [|done].
    rewrite (sbind_ok _ _ _ s1 secret) in Hcn by done. rewrite (sbind_ok _ _ _ (tick s1) (clock (gw_step s1) / 1000)) in Hcn by done.
    destruct (verify_connect_token secret _ token) as [c|e] eqn:Hv; [|done]. rewrite (sbind_ok _ _ _ (tick s1) c) in Hcn by done.
    case_bool_decide; [|done]. injection Hcn as _ <-. exists c. split; [done|]. by eapply Hc. }
  unfold byom_cred in Hb. destruct (cf_oidc app) as [oidc|] eqn:Hoi; [|by eapply Hcon].
  rewrite (sbind_ok _ _ _ (tick s) (clock (gw_step s) / 1000)) in Hb by done.
  specialize (Ho oidc (clock (gw_step s) / 1000) eq_refl). destruct (verify_principal _ _ _); [done|by eapply Hcon].
Qed.

Lemma byom_read_only `{!Ed25519Laws} app sub headers body s s' r token l : table_of (gw_inflight s) l → bearer headers = Some token →
  read_only_token app token → byom clock filter_clock fs allow_fault save_io join_error app sub headers body s = (s', r) →
  gw_store s' = gw_store s.
Proof.
  intros Ht Hb Hro Hr. unfold byom in Hr.
  apply sbind_inv in Hr as [(s1 & job & Ha & Hr)|(e & Ha & ->)]; apply (accept_spec _ _ _ _ _ _ _ _ Ht) in Ha as [(Hst & _) Ha]; [|done].
  destruct Ha as (_ & _ & token' & s2 & s3 & s4 & cred & m & Hb' & Hc & _ & Hg). assert (token' = token) as -> by congruence.
  destruct (read_only_cred _ _ _ _ _ Hro Hc) as (c & -> & Hw). rewrite <- Hst. eapply byom_run_reads; [|exact Hr].
  intros x now. unfold byom_grant in Hg. rewrite (sbind_ok _ _ _ (tick s3) (clock (gw_step s3))) in Hg by done. cbv zeta in Hg.
  rewrite (sbind_ok _ _ _ (tick (tick s3)) (clock (S (gw_step s3)))) in Hg by done. injection Hg as _ <-. by apply attenuated_never_writes.
Qed.

(** The scope of a token minted by the gateway names no write. *)
Lemma read_scope_reads c : cc_scope c = Some "read" → token_allows_write c = false.
Proof. unfold token_allows_write. by intros ->. Qed.

(** [C9] A token the gateway minted can never change anything: whoever presents it at the MCP
    route, with whatever JSON-RPC lines, at whatever time and in whatever state, the store
    stays what it was, whatever the role of its owner. *)
Theorem connect_token_never_writes `{!Ed25519Laws, !JwtLaws} app headers0 s0 s1 v token sub headers body s s' r l
    (Hmint : connect_token clock app headers0 s0 = (s1, Ok v)) (Htoken : jget v "connect_token" = Some (JString token))
    (Hnot_id : ∀ oidc now, cf_oidc app = Some oidc → is_ok (verify_principal oidc now token) = false)
    (Ht : table_of (gw_inflight s) l) (Hb : bearer headers = Some token)
    (Hr : byom clock filter_clock fs allow_fault save_io join_error app sub headers body s = (s', r)) :
  gw_store s' = gw_store s.
Proof.
  eapply byom_read_only; [done|done| |done]. split; [done|]. intros secret now c Hs Hv.
  unfold connect_token in Hmint. apply sbind_inv in Hmint as [(s2 & who & _ & Hmint)|(e & _ & [=])]. rewrite Hs in Hmint.
  rewrite (sbind_ok _ _ _ s2 secret) in Hmint by done. rewrite (sbind_ok _ _ _ (tick s2) (clock (gw_step s2))) in Hmint by done.
  apply sbind_inv in Hmint as [(s3 & tok & Hm & Hmint)|(e & _ & [=])]. injection Hmint as _ <-.
  unfold slift in Hm. injection Hm as _ Hm. apply map_err_ok in Hm. unfold mint_connect_token in Hm. apply map_err_ok in Hm.
  assert (tok = token) as -> by (by injection Htoken).
  unfold verify_connect_token in Hv. apply map_err_ok in Hv. apply (hs256_faithful _ _ _ _ _ Hm) in Hv as ->. by apply read_scope_reads.
Qed.

(** A request of the MCP route gives its slot back, however it ends: refused at any
    stage, answered or panicking, the table of execution slots counts afterwards exactly
    the requests it counted before. *)
Theorem byom_slots_balanced app sub headers body s s' r l (Ht : table_of (gw_inflight s) l)
    (Hr : byom clock filter_clock fs allow_fault save_io join_error app sub headers body s = (s', r)) :
  table_of (gw_inflight s') l.
Proof.
  unfold byom in Hr. apply sbind_inv in Hr as [(s1 & job & Ha & Hr)|(e & Ha & ->)]; apply (accept_spec _ _ _ _ _ _ _ _ Ht) in Ha as [_ Ha]; [|done].
  destruct Ha as (Hsub & Ht1 & _). unfold byom_run in Hr. destruct (byom_loop _ _ _ _ _ _) as [sv o]. injection Hr as <- <-.
  cbn. rewrite Hsub. by apply table_release.
Qed.

(** ** Where routes disagree *)

(** The cached layout outlives writes through MCP: a request of the MCP route never
    drops it, so after one that changed the store [/layout] still shows the scene from
    before. *)
Theorem layout_stale_after_byom app sub headers body s s' r l scene org (Ht : table_of (gw_inflight s) l)
    (Hcache : gw_layout_cache s = Some scene)
    (Hr : byom clock filter_clock fs allow_fault save_io join_error app sub headers body s = (s', r)) :
  build_layout org s' = (s', Ok scene).
Proof.
  assert (gw_layout_cache s' = Some scene) as Hc; [|unfold build_layout; by rewrite Hc].
  unfold byom in Hr. apply sbind_inv in Hr as [(s1 & job & Ha & Hr)|(e & Ha & ->)];
    apply (accept_spec _ _ _ _ _ _ _ _ Ht) in Ha as [(_ & _ & _ & _ & Hl & _) _]; [|by rewrite Hl].
  unfold byom_run in Hr. destruct (byom_loop _ _ _ _ _ _) as [sv o]. injection Hr as <- <-. cbn. by rewrite Hl.
Qed.

(** A suspended organisation is closed at the gate but open at the MCP route: the gate
    refuses every caller, while the membership check of the MCP route accepts every member
    without looking at the organisation. *)
Theorem suspended_only_at_gate `{!Ed25519Laws, !JsonTextLaws Control} app headers resource op det cred sub s o m
    (Horg : find_org (gw_control s) (cf_org_id app) = Some o) (Hsus : o_status o = Suspended)
    (Hm : membership (gw_control s) sub (cf_org_id app) = Some m) :
  (∀ s' p, gate_with_grant clock fs allow_fault save_io app headers (cf_org_id app) resource op det s ≠ (s', Ok p)) ∧
  byom_membership allow_fault save_io app cred sub s = (s, Ok m).
Proof.
  split.
  - intros s' [who grant] Hg. apply gate_spec in Hg as (_ & _ & _ & p & m' & now & rec & pre & _ & _ & (o' & Ho & Hs) & _); [|exact _..]. congruence.
  - unfold byom_membership, sread, sbind. by rewrite Hm.
Qed.

(** ** The webhook *)

(** Only authentic push events are queued: the webhook appends an event exactly when its
    secret is configured, the signature header carries the HMAC of the body under it, the
    request is not a ping and the body is a push to a repository of the allowed owner with
    a safe name; otherwise the state is unchanged and the caller gets a 503, 401, 200 or
    400 in that order of checks. *)
Theorem webhook_enqueues_authentic (headers : HeaderMap) (body : bytes) s :
  let secret := default "" (env_var "MEM_INGEST_WEBHOOK_SECRET") in
  let authentic := verify_hub_signature (as_bytes secret) (headers "x-hub-signature-256") body in
  let ping := bool_decide (headers "x-github-event" = Some "ping") in
  match github_webhook headers body s with
  | (s', Ok (code, _)) => authentic = true ∧ secret ≠ "" ∧
      ((code = 200 ∧ ping = true ∧ s' = s) ∨
       (∃ ev, code = 202 ∧ ping = false ∧ parse_push_event body = Some ev ∧ safe_name (as_bytes (pe_repo ev)) ∧
              s' = with_queue (gw_ingest_queue s ++ [ev]) s))
  | (s', Err (Api e)) => s' = s ∧
      ((status e = 503 ∧ secret = "") ∨ (status e = 401 ∧ secret ≠ "" ∧ authentic = false) ∨
       (status e = 400 ∧ authentic = true ∧ ping = false ∧ parse_push_event body = None))
  | (_, Err GwPanic) => False
  end.
Proof.
  cbv zeta. unfold github_webhook. set (secret := default "" _). case_bool_decide as Hs; [split; [done|by left]|].
  destruct (verify_hub_signature _ _ _) eqn:Hv; cbn [negb]; [|split; [done|right; by left]].
  case_bool_decide as Hp; [split; [done|]; split; [done|by left]|]. destruct (parse_push_event body) as [ev|] eqn:He; [|split; [done|right; by right]].
  split; [done|]. split; [done|]. right. exists ev. split_and!; try done.
  unfold parse_push_event in He. destruct (json_from_slice body) as [j|]; [|done]. cbn in He.
  destruct (jget j "repository" ≫= _) as [full|] eqn:Hf; cbn in He; [|done].
  destruct (allowed_repo full) as [repo|] eqn:Ha; cbn in He; [|done].
  destruct (jget j "ref" ≫= as_str); cbn in He; [|done]. injection He as <-. cbn.
  by apply allowed_repo_safe in Ha.
Qed.
End route_props.
