(* ===== verification/Worker.v ===== *)
(** * The ingest worker and the reconciler ([mem-gateway/src/ingest_worker.rs])

    The drain of the push queue into the store, and the sweep that queues every repository
    whose remote moved past what is stored.  The host (git, the directory of mirrors, its
    files) is a state [W] with operations ([Host]); the ingestor's own git commands only
    read it.  Log lines are left out. *)

From S2P Require Import Prelude Bytes Externs Text Str Belnap Identity Node Float Edge Grant AuditLog Kv Shred Store StoreContents Supersession StoreInterface.
From S2P Require Import Assert Index Hnsw Query Search Display Control GwAuth Scene Gateway Git Docs Ingest McpRender Mcp.

(** Processes and files of the machine *)
Class Host (W : Type) := {
  host_git : list string → W → W * result string Output;
  is_dir : W → string → bool;
  create_dir_all : string → W → W * result string unit;
  (** the names of the entries [read_dir] yields *)
  read_dir : W → string → option (list string);
  read_to_string : W → string → option string;
  host_worktree : W → Worktree;
}.
#[global] Hint Mode Host ! : typeclass_instances.

Definition MANIFEST_REPO : string := "citrate-federation".

(** ** The manifest *)

Definition hash_byte : byte := Byte.x23.
Definition is_open (c : Z) : bool := c =? 0x5b.
Definition is_close (c : Z) : bool := c =? 0x5d.
Definition is_quote (c : Z) : bool := c =? 0x22.
Definition equals_byte : byte := Byte.x3d.

(** The table being read: its name and whether it is archived *)
Record scan := { sc_out : list string; sc_current : option (bytes * bool) }.

Definition flush (s : scan) : list string :=
  match sc_current s with
  | Some (name, archived) => if (archived : bool) then sc_out s else sc_out s ++ [string_of_bytes name]
  | None => sc_out s
  end.

(** The repository a table header names *)
Definition header_repo (line : bytes) : option bytes :=
  let header := trim (trim_end_matches is_close (trim_start_matches is_open line)) in
  if starts_with (as_bytes "[[") line then None
  else
    name ← strip_prefix (as_bytes "repos.") header;
    let name := trim (trim_matches is_quote (trim name)) in
    if bool_decide (name = []) then None else Some name.

Definition sets_archived (line : bytes) : bool :=
  match split_once equals_byte line with
  | Some (k, v) => bool_decide (trim k = as_bytes "archived") && bool_decide (trim v = as_bytes "true")
  | None => false
  end.

Definition manifest_line (s : scan) (raw : bytes) : scan :=
  let line := trim (default [] (head (split hash_byte raw))) in
  if starts_with (as_bytes "[") line then {| sc_out := flush s; sc_current := (λ n, (n, false)) <$> header_repo line |}
  else {| sc_out := sc_out s;
          sc_current := (λ p, (p.1, p.2 || sets_archived line)) <$> sc_current s |}.

Definition manifest_repos (manifest : string) : list string :=
  flush (foldl manifest_line {| sc_out := []; sc_current := None |} (lines (as_bytes manifest))).

(** ** Names and drift *)

Definition is_drifted (watermark_head : option string) (remote_head : string) : bool :=
  match watermark_head with None => true | Some h => negb (bool_decide (h = remote_head)) end.

(** Unique repositories of a queue, the first event of each deciding its place *)
Definition coalesce_step (st : gset string * list string) (ev : PushEvent) : gset string * list string :=
  if bool_decide (pe_repo ev ∈ st.1) then st else ({[pe_repo ev]} ∪ st.1, st.2 ++ [pe_repo ev]).
Definition coalesce (q : list PushEvent) : list string := (foldl coalesce_step (∅, []) q).2.

Section worker.
Context {T W : Type} `{MemStore T, Blake3, Hex, Ed25519, Serde Watermark, Unicode, FloatNan, CharTables, Env, Jwt, Host W}.
Context (clock : nat → Timestamp).

Abbreviation Gw := (Gw (T := T)).

Definition safe_repo (name : string) : option string :=
  allowed_repo (allowed_owner +:+ "/" +:+ string_of_bytes (trim (as_bytes name))).

(** ** Commands *)

(** [{args:?}] of a slice of strings *)
Definition args_debug (args : list string) : string :=
  "[" +:+ match args with
          | [] => ""
          | a :: args => foldl (λ acc x, acc +:+ ", " +:+ str_debug x) (str_debug a) args
          end +:+ "]".

Definition git_stdout (args : list string) : stm W string string :=
  λ w, let '(w, r) := host_git args w in
  (w, match r with
      | Err e => Err ("spawn git: " +:+ e)
      | Ok o => if o_success o then Ok (from_utf8_lossy (o_stdout o))
                else Err ("git " +:+ args_debug args +:+ ": " +:+ trimmed_lossy (o_stderr o))
      end).
Definition git (args : list string) : stm W string unit := let! _ := git_stdout args in sret tt.

Definition git_base : string := default "git@github.com:CitrateNetwork" (env_var "MEM_INGEST_GIT_BASE").
Definition remote_url (repo : string) : string := git_base +:+ "/" +:+ repo +:+ ".git".

Definition ensure_mirror (base repo : string) : stm W string string :=
  λ w,
  let dir := path_join base repo in
  if is_dir w (path_join dir ".git") then
    (let! _ := git ["-C"; dir; "fetch"; "origin"; "--prune"; "--quiet"] in
     let! _ := git ["-C"; dir; "reset"; "--hard"; "-q"; "origin/HEAD"] in
     sret dir) w
  else
    (let! _ := smap_err (λ e, "mkdir " +:+ base +:+ ": " +:+ e) (create_dir_all base) in
     let! _ := git ["clone"; "--quiet"; remote_url repo; dir] in
     sret dir) w.

Definition non_blank (o : option string) : option string :=
  match o with Some s => if bool_decide (trim (as_bytes s) = []) then None else Some s | None => None end.
Definition mirror_base : string :=
  match non_blank (env_var "MEM_INGEST_MIRROR_DIR") with
  | Some dir => dir
  | None =>
    let cache := match non_blank (env_var "XDG_CACHE_HOME") with
                 | Some c => c
                 | None => default ".cache" ((λ h, h +:+ "/.cache") <$> env_var "HOME")
                 end in
    path_join (path_join cache "mem-gateway") "mirrors"
  end.

(** ** The drain *)

Definition ingestor_for (app : Config) (repo : string) : Ingestor :=
  match cf_embedder app with Some e => with_embedder repo e | None => Ingestor_new repo end.

(** A run of the ingestor on the shared store, with git and the files as the host has them *)
Definition on_mirror {A} (m : Git → Worktree → Timestamp → stm T IngestError A) : stm (Gw * W) IngestError A :=
  λ st, let '(s, w) := st in
  let '(t, r) := m (λ args, (host_git args w).2) (host_worktree w) (clock (gw_step s)) (gw_store s) in
  ((tick (with_store t s), w), r).
Definition on_host {A} (m : stm W string A) : stm (Gw * W) string A :=
  λ st, let '(w, r) := m st.2 in ((st.1, w), r).

(** The default branch of one repository: how many runs succeeded, and the mirrors *)
Definition pass_one (app : Config) (base : string) (acc : nat * list (string * string)) (repo : string)
    : stm (Gw * W) Empty_set (nat * list (string * string)) :=
  λ st,
  match on_host (ensure_mirror base repo) st with
  | (st, Err _) => (st, Ok acc)
  | (st, Ok path) =>
    match on_mirror (λ g wt now, ingest_incremental (ingestor_for app repo) now path) st with
    | (st, Ok _) => (st, Ok (S acc.1, acc.2 ++ [(repo, path)]))
    | (st, Err _) => (st, Ok (acc.1, acc.2 ++ [(repo, path)]))
    end
  end.

(** The branches of one mirror: both runs are best effort *)
Definition pass_two (app : Config) (_ : unit) (p : string * string) : stm (Gw * W) Empty_set unit :=
  λ st,
  let '(st, _) := on_mirror (λ g wt now, ingest_branches (ingestor_for app p.1) now p.2) st in
  let '(st, _) := on_mirror (λ g wt now, reap_branches (ingestor_for app p.1) now p.2) st in
  (st, Ok tt).

Definition drain_once (app : Config) (base : string) : stm (Gw * W) Empty_set nat :=
  λ st,
  let repos := coalesce (gw_ingest_queue st.1) in
  let st := (with_queue [] st.1, st.2) in
  (let! acc := sfold (pass_one app base) (O, []) repos in
   let! _ := sfold (pass_two app) tt acc.2 in
   sret acc.1) st.

(** ** The sweep *)

Definition manifest_off : bool :=
  match env_var "MEM_INGEST_MANIFEST" with Some v => bool_decide (trim (as_bytes v) = as_bytes "off") | None => false end.

Definition manifest_path (base : string) : string :=
  match env_var "MEM_INGEST_MANIFEST" with
  | Some v => if bool_decide (trim (as_bytes v) = []) then path_join (path_join base MANIFEST_REPO) "manifest.toml"
              else string_of_bytes (trim (as_bytes v))
  | None => path_join (path_join base MANIFEST_REPO) "manifest.toml"
  end.
Definition manifest_repo_set (w : W) (base : string) : list string :=
  if manifest_off then []
  else match read_to_string w (manifest_path base) with Some s => manifest_repos s | None => [] end.

(** [list.split(p)]: the parts between the characters that satisfy [p] *)
Fixpoint split_chars (p : Z → bool) (acc : bytes) (cs : list (Z * bytes)) : list bytes :=
  match cs with
  | [] => [acc]
  | (c, raw) :: cs => if p c then acc :: split_chars p [] cs else split_chars p (acc ++ raw) cs
  end.
Definition listed_repos (names : string) : list string :=
  string_of_bytes <$> filter (λ n, trim n ≠ []) (split_chars (λ c, (c =? 0x2c) || is_whitespace c) [] (chunks (as_bytes names))).

Definition mirrored_repos (w : W) (base : string) : list string :=
  filter (λ name, is_dir w (path_join (path_join base name) ".git") = true ∧ utf8_valid (as_bytes name) = true) (default [] (read_dir w base)).

(** The names of the three sources, before validation *)
Definition repo_sources (w : W) (base : string) : list string :=
  mirrored_repos w base ++ match env_var "MEM_INGEST_REPOS" with Some l => listed_repos l | None => [] end
  ++ (if manifest_off then [] else MANIFEST_REPO :: manifest_repo_set w base).
(** Only validated names, each once and in order *)
Definition federation_repos (w : W) (base : string) : list string := in_order (omap safe_repo (repo_sources w base)).

Definition first_word (s : string) : option string := string_of_bytes <$> head (split_whitespace (as_bytes s)).

Definition remote_head (repo : string) : stm W string (option string) :=
  let! out := git_stdout ["ls-remote"; remote_url repo; "HEAD"] in
  sret (first_word out).

(** [l.strip_prefix("ref:").and_then(|r| r.split_whitespace().next())] *)
Definition symref_target (l : bytes) : option bytes := strip_prefix (as_bytes "ref:") l ≫= λ r, head (split_whitespace r).
Definition default_name (sym : string) : string :=
  match head (omap symref_target (lines (as_bytes sym))) ≫= strip_prefix (as_bytes "refs/heads/") with
  | Some n => string_of_bytes n
  | None => ""
  end.
Definition head_line (l : bytes) : option (string * string) :=
  match split_whitespace l with
  | sha :: refname :: _ => (λ n, (string_of_bytes n, string_of_bytes sha)) <$> strip_prefix (as_bytes "refs/heads/") refname
  | _ => None
  end.

Definition remote_branches (repo : string) : stm W string (string * list (string * string)) :=
  let! sym := git_stdout ["ls-remote"; "--symref"; remote_url repo; "HEAD"] in
  let! heads := git_stdout ["ls-remote"; "--heads"; remote_url repo] in
  sret (default_name sym, omap head_line (lines (as_bytes heads))).

(** Is the tip of a branch not the one stored for it? *)
Definition branch_moved (t : T) (repo : string) (default_ : string) (p : string * string) : bool :=
  negb (bool_decide (p.1 = default_))
  && negb (bool_decide (default None (rok (read_branch_watermark (Ingestor_new repo) t p.1)) ≫= w_head = Some p.2)).
(** Is it a live branch node of a branch the remote no longer has? *)
Definition branch_gone (repo : string) (live : gset string) (n : MemoryNode) : bool :=
  bool_decide (n_kind n = Branch) && bool_decide (n_repo n = repo) && bool_decide (n_status n = Active)
  && match rsplit_once "@" (from_utf8_lossy (n_content n)) with Some (name, _) => negb (bool_decide (name ∈ live)) | None => false end.

Definition branch_drifted (repo : string) (t : T) (all : list MemoryNode) : stm W Empty_set bool :=
  λ w,
  match remote_branches repo w with
  | (w, Err _) => (w, Ok false)
  | (w, Ok (default_, branches)) =>
    (w, Ok (existsb (branch_moved t repo default_) branches || existsb (branch_gone repo (list_to_set branches.*1)) all))
  end.

Definition head_event (repo remote : string) : PushEvent := {| pe_repo := repo; pe_git_ref := "refs/heads/HEAD"; pe_after := remote |}.

(** Does the head or a branch of a repository differ from what is stored?  The event to
    queue then. *)
Definition drift_event (t : T) (all : list MemoryNode) (repo : string) : stm W Empty_set (option PushEvent) :=
  λ w,
  match remote_head repo w with
  | (w, Ok (Some remote)) =>
    let wm := default None (rok (read_watermark t repo)) in
    if is_drifted (wm ≫= w_head) remote then (w, Ok (Some (head_event repo remote)))
    else (let! drifted := branch_drifted repo t all in sret (if (drifted : bool) then Some (head_event repo remote) else None)) w
  | (w, _) => (w, Ok None)
  end.

Definition reconcile_repo (t : T) (all : list MemoryNode) (already : gset string) (q : list PushEvent) (repo : string)
    : stm W Empty_set (list PushEvent) :=
  if bool_decide (repo ∈ already) then sret q
  else
    let! o := drift_event t all repo in
    sret (match o with Some ev => q ++ [ev] | None => q end).

(** The new queue; the number of events added is the growth. *)
Definition reconcile_into_queue (t : T) (queue : list PushEvent) (base : string) : stm W Empty_set (list PushEvent) :=
  λ w,
  let all := default [] (rok (ms_all_nodes t)) in
  sfold (reconcile_repo t all (list_to_set (pe_repo <$> queue))) queue (federation_repos w base) w.

Definition reconcile_once (base : string) : stm (Gw * W) Empty_set nat :=
  λ st, let '(s, w) := st in
  match reconcile_into_queue (gw_store s) (gw_ingest_queue s) base w with
  | (w, Ok q) => ((with_queue q s, w), Ok (length q - length (gw_ingest_queue s))%nat)
  | (w, Err e) => ((s, w), Err e)
  end.
End worker.

(** The tests of the source *)
Definition manifest_fixture : string :=
  string_of_bytes (mjoin ((λ l, as_bytes l ++ [newline]) <$>
    ["version = 1"; "[federation]"; "org = CitrateNetwork"; ""; "[repos.citrate-chain]"; "tier = 1"; "rev = abc  # pinned"; "";
     "[repos.citrate-monorepo-archive]"; "archived = true   # frozen"; ""; "[repos.citrate-new-thing]"; "[repos.../../etc]";
     "[[drift]]"; "consumer = citrate-sdk-js"])).
Example manifest_tests :
  manifest_repos manifest_fixture = ["citrate-chain"; "citrate-new-thing"; "../../etc"] ∧ manifest_repos "" = [] ∧
  manifest_repos (string_of_bytes (as_bytes "[repos.]" ++ [newline] ++ as_bytes "archived = false")) = [].
Proof. split_and!; vm_compute; reflexivity. Qed.

(** * Every repository is ingested once and none is missed

    What a drain does to the queue, which names can reach git, and that a sweep queues
    exactly the repositories that drifted. *)

(** ** The queue *)

Lemma coalesce_inv q st : NoDup st.2 → (∀ r, r ∈ st.2 ↔ r ∈ st.1) →
  let st' := foldl coalesce_step st q in NoDup st'.2 ∧ (∀ r, r ∈ st'.2 ↔ r ∈ st'.1) ∧ (∀ r, r ∈ st'.2 ↔ r ∈ st.2 ∨ r ∈ pe_repo <$> q) ∧
  ∃ k, st'.2 = st.2 ++ k.
Proof.
  revert st. induction q as [|ev q IH]; intros st Hnd Hs; cbv zeta.
  { cbn. split_and!; try done; [|exists []; by rewrite app_nil_r]. intros r. split; [by left|]. intros [?|H%not_elem_of_nil]; done. }
  cbn [foldl]. unfold coalesce_step at 2 4 6 8 10. case_bool_decide as E.
  - destruct (IH st Hnd Hs) as (Ha & Hb & Hc & Hd). split_and!; try done. intros r. rewrite Hc, fmap_cons, elem_of_cons. apply Hs in E. naive_solver.
  - destruct (IH ({[pe_repo ev]} ∪ st.1, st.2 ++ [pe_repo ev])) as (Ha & Hb & Hc & k & Hd); cbn [fst snd] in *.
    + apply NoDup_app. split_and!; [done| |apply NoDup_singleton]. intros r Hr ->%list_elem_of_singleton. by apply E, Hs.
    + intros r. rewrite elem_of_app, list_elem_of_singleton, elem_of_union, elem_of_singleton, Hs. tauto.
    + split_and!; try done; [|exists (pe_repo ev :: k); by rewrite Hd, <- app_assoc].
      intros r. rewrite Hc, elem_of_app, list_elem_of_singleton, fmap_cons, elem_of_cons. tauto.
Qed.

(** Each queued repository once *)
Lemma coalesce_spec q : NoDup (coalesce q) ∧ ∀ r, r ∈ coalesce q ↔ r ∈ pe_repo <$> q.
Proof.
  destruct (coalesce_inv q (∅, [])) as (Hnd & _ & Hin & _); cbn [fst snd] in *; [constructor|intros r; by rewrite elem_of_nil, elem_of_empty|].
  split; [done|]. intros r. unfold coalesce. rewrite Hin, elem_of_nil. tauto.
Qed.

Section worker_props.
Context {T W : Type} `{MemStore T, Blake3, Hex, Ed25519, Serde Watermark, Unicode, FloatNan, CharTables, Env, Jwt, Host W}.
Context (clock : nat → Timestamp).

Abbreviation gw := (Gw (T := T)).

(** Everything but the store and the clock *)
Definition only_store (s s' : gw) : Prop := ∃ t n, s' = at_step n (with_store t s).

Lemma only_store_refl s : only_store s s.
Proof. exists (gw_store s), (gw_step s). by destruct s. Qed.
Lemma only_store_trans s1 s2 s3 : only_store s1 s2 → only_store s2 s3 → only_store s1 s3.
Proof. intros (t & n & ->) (t' & n' & ->). by exists t', n'. Qed.
Lemma on_mirror_only {A} (m : Git → Worktree → Timestamp → stm T IngestError A) (st st' : gw * W) r : on_mirror clock m st = (st', r) → only_store st.1 st'.1.
Proof.
  unfold on_mirror. destruct st as [s w]. destruct (m _ _ _ _) as [t x]. intros [= <- _]. cbn. by exists t, (S (gw_step s)).
Qed.
Lemma on_host_only {A} (m : stm W string A) (st st' : gw * W) r : on_host m st = (st', r) → st'.1 = st.1.
Proof. unfold on_host. destruct (m st.2). by intros [= <- _]. Qed.

Lemma pass_one_only app base acc repo (st : gw * W) : ∃ st' acc', pass_one clock app base acc repo st = (st', Ok acc') ∧ only_store st.1 st'.1 ∧
  (acc'.1 ≤ S acc.1)%nat ∧ (acc'.2 = acc.2 ∨ ∃ path, acc'.2 = acc.2 ++ [(repo, path)]).
Proof.
  unfold pass_one. destruct (on_host _ st) as [st1 [path|e]] eqn:Hh; apply on_host_only in Hh.
  2:{ eexists _, _. split; [done|]. split; [rewrite Hh; apply only_store_refl|]. split; [lia|by left]. }
  destruct (on_mirror _ _ _) as [st2 x] eqn:Hm. apply on_mirror_only in Hm. rewrite Hh in Hm.
  destruct x; eexists _, _; (split; [done|]); (split; [done|]); cbn; (split; [lia|]); right; eauto.
Qed.
Lemma passes_one_only app base repos acc (st : gw * W) : ∃ st' acc', sfold (pass_one clock app base) acc repos st = (st', Ok acc') ∧ only_store st.1 st'.1 ∧
  (acc'.1 ≤ acc.1 + length repos)%nat ∧ ∃ k, acc'.2 = acc.2 ++ k ∧ k.*1 `sublist_of` repos.
Proof.
  revert acc st. induction repos as [|r repos IH]; intros acc st; cbn [sfold].
  { eexists _, _. split; [done|]. split; [apply only_store_refl|]. split; [cbn; lia|]. exists []. by rewrite app_nil_r. }
  destruct (pass_one_only app base acc r st) as (st1 & acc1 & Hp & Ho & Hle & Hk). rewrite (sbind_ok _ _ _ _ _ Hp).
  destruct (IH acc1 st1) as (st2 & acc2 & Hf & Ho2 & Hle2 & k & Hk2 & Hsub). exists st2, acc2. split; [done|].
  split; [by eapply only_store_trans|]. split; [cbn; lia|]. destruct Hk as [Hk|[path Hk]]; rewrite Hk in Hk2.
  - exists k. split; [done|]. by apply sublist_cons.
  - exists ((r, path) :: k). split; [by rewrite Hk2, <- app_assoc|]. cbn. by apply sublist_skip.
Qed.
Lemma passes_two_only app ps (st : gw * W) : ∃ st', sfold (pass_two clock app) tt ps st = (st', Ok tt) ∧ only_store st.1 st'.1.
Proof.
  revert st. induction ps as [|p ps IH]; intros st; cbn [sfold]; [eexists; split; [done|apply only_store_refl]|].
  unfold sbind, pass_two at 1. destruct (on_mirror _ _ st) as [st1 x] eqn:H1'. apply on_mirror_only in H1'.
  destruct (on_mirror _ _ st1) as [st2 y] eqn:H2'. apply on_mirror_only in H2'. destruct (IH st2) as (st3 & Hf & Ho).
  exists st3. split; [done|]. eapply only_store_trans; [done|]. by eapply only_store_trans.
Qed.

(** A drain always ends with an empty queue: it takes every event, ingests the default
    branch of each repository named in them at most once, in the order of first mention,
    goes on after a failure of any of them, and changes nothing of the gateway but the
    store and the queue. *)
Theorem drain_empties_queue app base (s : gw) (w : W) :
  ∃ s' w' n, drain_once clock app base (s, w) = ((s', w'), Ok n) ∧ gw_ingest_queue s' = [] ∧ only_store (with_queue [] s) s' ∧
    (n ≤ length (coalesce (gw_ingest_queue s)))%nat ∧ NoDup (coalesce (gw_ingest_queue s)) ∧
    ∀ r, r ∈ coalesce (gw_ingest_queue s) ↔ r ∈ pe_repo <$> gw_ingest_queue s.
Proof.
  unfold drain_once. cbn [fst snd].
  destruct (passes_one_only app base (coalesce (gw_ingest_queue s)) (O, []) (with_queue [] s, w)) as (st1 & acc & H1' & Ho1 & Hle & _).
  rewrite (sbind_ok _ _ _ _ _ H1'). destruct (passes_two_only app acc.2 st1) as ([s' w'] & H2' & Ho2). rewrite (sbind_ok _ _ _ _ _ H2').
  pose proof (only_store_trans _ _ _ Ho1 Ho2) as Ho. cbn [fst] in Ho. exists s', w', acc.1. split; [done|]. split; [by destruct Ho as (t & n & ->)|].
  split; [done|]. split; [done|]. apply coalesce_spec.
Qed.

(** ** Names *)

Lemma safe_repo_safe name r : safe_repo name = Some r → safe_name (as_bytes r).
Proof. apply allowed_repo_safe. Qed.

Lemma federation_repos_spec (w : W) base : NoDup (federation_repos w base) ∧ StronglySorted (key_le id) (federation_repos w base) ∧
  ∀ r, r ∈ federation_repos w base ↔ ∃ name, name ∈ repo_sources w base ∧ safe_repo name = Some r.
Proof.
  unfold federation_repos, in_order. split_and!.
  - rewrite sort_by_key_perm. apply NoDup_remove_dups.
  - apply sort_by_key_sorted.
  - intros r. rewrite elem_of_sort_by_key, elem_of_remove_dups, list_elem_of_omap. done.
Qed.

(** ** The sweep *)

(** [git ls-remote] asks the remote and leaves the machine as it is. *)
Class HostLaws : Prop := ls_remote_reads : ∀ args (w : W), head args = Some "ls-remote" → (host_git args w).1 = w.
Context `{!HostLaws}.

Lemma git_stdout_reads args (w : W) : head args = Some "ls-remote" → (git_stdout args w).1 = w.
Proof. intros Ha. unfold git_stdout. pose proof (ls_remote_reads args w Ha) as Hl. by destruct (host_git args w). Qed.
Lemma remote_head_reads repo (w : W) : (remote_head repo w).1 = w.
Proof.
  unfold remote_head, sbind. pose proof (git_stdout_reads ["ls-remote"; remote_url repo; "HEAD"] w eq_refl) as Hg.
  by destruct (git_stdout _ w) as [w' []].
Qed.
Lemma branch_drifted_reads repo (t : T) all (w : W) : (branch_drifted repo t all w).1 = w.
Proof.
  unfold branch_drifted, remote_branches, sbind.
  pose proof (git_stdout_reads ["ls-remote"; "--symref"; remote_url repo; "HEAD"] w eq_refl) as H1'.
  destruct (git_stdout _ w) as [w1 [sym|]]; cbn in H1'; [|done]. subst w1.
  pose proof (git_stdout_reads ["ls-remote"; "--heads"; remote_url repo] w eq_refl) as H2'.
  by destruct (git_stdout _ w) as [w2 [heads|]]; cbn in H2'.
Qed.
Lemma drift_event_reads (t : T) all repo (w : W) : ∃ o, drift_event t all repo w = (w, Ok o) ∧ match o with Some ev => pe_repo ev = repo | None => True end.
Proof.
  unfold drift_event. pose proof (remote_head_reads repo w) as Hr. destruct (remote_head repo w) as [w1 [[remote|]|e]]; cbn in Hr; subst w1; [|by exists None..].
  destruct (is_drifted _ _); [by eexists|]. unfold sbind. pose proof (branch_drifted_reads repo t all w) as Hb.
  destruct (branch_drifted repo t all w) as [w1 [b|[]]]; cbn in Hb; subst w1. eexists. split; [done|]. by destruct b.
Qed.

(** What the sweep would queue for a repository on this machine *)
Definition drift (t : T) (w : W) (repo : string) : option PushEvent :=
  default None (rok (drift_event t (default [] (rok (ms_all_nodes t))) repo w).2).

Lemma reconcile_fold (t : T) already q repos (w : W) :
  sfold (reconcile_repo t (default [] (rok (ms_all_nodes t))) already) q repos w
  = (w, Ok (q ++ omap (drift t w) (filter (λ r, r ∉ already) repos))).
Proof.
  revert q. induction repos as [|r repos IH]; intros q; cbn [sfold]; [by rewrite app_nil_r|].
  rewrite filter_cons. unfold reconcile_repo at 1. case_bool_decide as E.
  - rewrite (sbind_ok _ _ _ w q) by done. rewrite decide_False by tauto. apply IH.
  - rewrite decide_True by done. destruct (drift_event_reads t (default [] (rok (ms_all_nodes t))) r w) as (o & Ho & _).
    rewrite (sbind_ok _ _ _ w (match o with Some ev => q ++ [ev] | None => q end)) by (unfold sbind; by rewrite Ho).
    rewrite IH. cbn [omap list_omap]. unfold drift at 2. rewrite Ho. cbn. destruct o; [by rewrite <- app_assoc|done].
Qed.

(** The head of a repository moved past the stored watermark, as far as the remote answers. *)
Lemma drift_head (t : T) (w : W) repo remote : remote_head repo w = (w, Ok (Some remote)) →
  default None (rok (read_watermark t repo)) ≫= w_head ≠ Some remote → drift t w repo = Some (head_event repo remote).
Proof.
  intros Hr Hw. unfold drift, drift_event. rewrite Hr. unfold is_drifted.
  destruct (default None (rok (read_watermark t repo)) ≫= w_head) as [h|]; [|done]. rewrite bool_decide_false by congruence. done.
Qed.

Lemma drift_repo (t : T) (w : W) repo ev : drift t w repo = Some ev → pe_repo ev = repo.
Proof.
  unfold drift. destruct (drift_event_reads t (default [] (rok (ms_all_nodes t))) repo w) as (o & -> & Ho). cbn. intros ->. done.
Qed.

(** The sweep misses nothing and invents nothing: it appends one event for each
    repository of the federation that is not queued yet and drifted, in order and each
    once, every name among them is safe to hand to git, and the machine is unchanged; in
    particular every repository of the federation whose remote head differs from the stored
    watermark is in the queue afterwards. *)
Theorem reconcile_complete (t : T) q base (w : W) :
  ∃ added, reconcile_into_queue t q base w = (w, Ok (q ++ added)) ∧
    added = omap (drift t w) (filter (λ r, r ∉ pe_repo <$> q) (federation_repos w base)) ∧
    NoDup (pe_repo <$> added) ∧ (∀ ev, ev ∈ added → safe_name (as_bytes (pe_repo ev)) ∧ pe_repo ev ∉ pe_repo <$> q) ∧
    ∀ repo remote, repo ∈ federation_repos w base → remote_head repo w = (w, Ok (Some remote)) →
      default None (rok (read_watermark t repo)) ≫= w_head ≠ Some remote → repo ∈ pe_repo <$> (q ++ added).
Proof.
  destruct (federation_repos_spec w base) as (Hnd & _ & Hfed).
  assert (filter (λ r, r ∉ list_to_set (C := gset string) (pe_repo <$> q)) (federation_repos w base)
          = filter (λ r, r ∉ pe_repo <$> q) (federation_repos w base)) as Hf.
  { apply list_filter_iff. intros r. by rewrite elem_of_list_to_set. }
  eexists. split; [unfold reconcile_into_queue; rewrite reconcile_fold, Hf; reflexivity|]. split; [done|].
  set (todo := filter _ _).
  assert (∀ l, pe_repo <$> omap (drift t w) l `sublist_of` l) as Hsub.
  { induction l as [|r l IH]; [done|]. cbn [omap list_omap]. destruct (drift t w r) as [ev|] eqn:Hd; [|by apply sublist_cons].
    rewrite fmap_cons, (drift_repo _ _ _ _ Hd). by apply sublist_skip. }
  split; [eapply sublist_NoDup; [|apply Hsub]; by apply NoDup_filter|]. split.
  - intros ev Hev. assert (pe_repo ev ∈ todo) as Hin.
    { eapply elem_of_sublist; [|apply Hsub]. by apply list_elem_of_fmap_2. }
    apply list_elem_of_filter in Hin as [Hq (name & _ & Hs)%Hfed]. split; [by eapply safe_repo_safe|done].
  - intros repo remote Hr Hh Hw. rewrite fmap_app, elem_of_app. destruct (decide (repo ∈ pe_repo <$> q)) as [|Hq]; [by left|right].
    pose proof (drift_head t w repo remote Hh Hw) as Hd. apply list_elem_of_fmap. exists (head_event repo remote). split; [done|].
    apply list_elem_of_omap. exists repo. split; [|done]. by apply list_elem_of_filter.
Qed.
End worker_props.
