(* ===== verification/Sample.v ===== *)
(** * Concrete instances of the external libraries

    A small model of each library the repository calls, that keeps the laws the
    development assumes of it: they show the laws can hold together, and the
    witnesses of the theorems run on them.  None of it models cryptography. *)

From S2P Require Import Prelude Bytes Externs Text Belnap Identity Node Edge AuditLog Kv Shred Store StoreSpec.
From S2P Require Import StoreWrite StoreContents StoreInterface Assert Sync SyncAnchor Query.

(** ** Codecs: a stand-in for serde_json *)

Class Codec (A : Type) := {
  encode : A → bytes;
  decode : bytes → option (A * bytes);
  decode_encode : ∀ a r, decode (encode a ++ r) = Some (a, r);
}.
#[global] Hint Mode Codec ! : typeclass_instances.

#[export] Program Instance byte_codec : Codec byte := {|
  encode b := [b];
  decode l := match l with b :: r => Some (b, r) | [] => None end;
|}.
Next Obligation. done. Qed.

Fixpoint pos_encode (p : positive) : bytes :=
  match p with xH => [Byte.x00] | xO p => Byte.x01 :: pos_encode p | xI p => Byte.x02 :: pos_encode p end.
Fixpoint pos_decode (l : bytes) : option (positive * bytes) :=
  match l with
  | Byte.x00 :: r => Some (xH, r)
  | Byte.x01 :: l => (λ x, (xO x.1, x.2)) <$> pos_decode l
  | Byte.x02 :: l => (λ x, (xI x.1, x.2)) <$> pos_decode l
  | _ => None
  end.
#[export] Program Instance pos_codec : Codec positive := {| encode := pos_encode; decode := pos_decode |}.
Next Obligation. intros p r. induction p as [p IH|p IH|]; simpl; by rewrite ?IH. Qed.

(** A type that embeds into one with a codec *)
Program Definition inj_codec {A B} `{Codec B} (f : A → B) (g : B → option A) (Hgf : ∀ a, g (f a) = Some a) : Codec A := {|
  encode a := encode (f a);
  decode l := match decode l with Some (b, r) => (λ a, (a, r)) <$> g b | None => None end;
|}.
Next Obligation. intros A B ? f g Hgf a r. simpl. by rewrite decode_encode, Hgf. Qed.

#[export] Program Instance prod_codec {A B} `{Codec A, Codec B} : Codec (A * B) := {|
  encode p := encode p.1 ++ encode p.2;
  decode l := match decode l with
              | Some (a, l) => match decode l with Some (b, r) => Some ((a, b), r) | None => None end
              | None => None
              end;
|}.
Next Obligation. intros A B ? ? [a b] r. simpl. by rewrite <-app_assoc, !decode_encode. Qed.

Definition option_decode {A} `{Codec A} (l : bytes) : option (option A * bytes) :=
  match l with
  | Byte.x00 :: r => Some (None, r)
  | Byte.x01 :: l => match decode l with Some (a, r) => Some (Some a, r) | None => None end
  | _ => None
  end.
#[export] Program Instance option_codec {A} `{Codec A} : Codec (option A) := {|
  encode o := match o with None => [Byte.x00] | Some a => Byte.x01 :: encode a end;
  decode := option_decode;
|}.
Next Obligation. intros A ? [a|] r; simpl; by rewrite ?decode_encode. Qed.

Fixpoint list_encode {A} `{Codec A} (l : list A) : bytes :=
  match l with [] => [Byte.x00] | a :: l => Byte.x01 :: encode a ++ list_encode l end.
Fixpoint list_decode {A} `{Codec A} (fuel : nat) (l : bytes) : option (list A * bytes) :=
  match fuel with
  | O => None
  | S fuel =>
    match l with
    | Byte.x00 :: r => Some ([], r)
    | Byte.x01 :: l =>
      match decode l with
      | Some (a, l) => match list_decode fuel l with Some (k, r) => Some (a :: k, r) | None => None end
      | None => None
      end
    | _ => None
    end
  end.
Lemma list_decode_encode {A} `{Codec A} (l : list A) fuel r :
  (length l < fuel)%nat → list_decode fuel (list_encode l ++ r) = Some (l, r).
Proof.
  revert fuel. induction l as [|a l IH]; intros [|fuel] Hf; simpl in *; try lia; [done|].
  by rewrite <-app_assoc, decode_encode, IH by lia.
Qed.
Lemma length_list_encode {A} `{Codec A} (l : list A) : (length l < length (list_encode l))%nat.
Proof. induction l as [|a l IH]; simpl; [lia|]. rewrite length_app. lia. Qed.
#[export] Program Instance list_codec {A} `{Codec A} : Codec (list A) := {|
  encode := list_encode;
  decode l := list_decode (length l) l;
|}.
Next Obligation.
  intros A ? l r. apply list_decode_encode. rewrite length_app. pose proof (length_list_encode l). lia.
Qed.

#[export] Instance Z_codec : Codec Z :=
  inj_codec (λ z, match z with Z0 => None | Zpos p => Some (Byte.x00, p) | Zneg p => Some (Byte.x01, p) end)
            (λ o, match o with None => Some Z0 | Some (Byte.x00, p) => Some (Zpos p) | Some (_, p) => Some (Zneg p) end)
            ltac:(by intros []).
#[export] Instance nat_codec : Codec nat := inj_codec Z.of_nat (λ z, Some (Z.to_nat z)) ltac:(intros n; cbn beta; f_equal; apply Nat2Z.id).
#[export] Instance string_codec : Codec string :=
  inj_codec as_bytes (λ b, Some (string_of_bytes b))
    ltac:(intros s; cbn beta; f_equal; apply String.string_of_list_byte_of_string).
#[export] Instance array_codec {n} : Codec (array n) := inj_codec array_bytes (array_of n) array_of_array.
#[export] Instance bool_codec : Codec bool :=
  inj_codec (λ b : bool, if b then Byte.x01 else Byte.x00) (λ x, Some (bool_decide (x = Byte.x01))) ltac:(by intros []).

(** Find the value a tag stands for. *)
Definition from_tag {A B} `{EqDecision B} (all : list A) (tag : A → B) (b : B) : option A :=
  snd <$> list_find (λ a, tag a = b) all.

#[export] Instance Plane_codec : Codec Plane := inj_codec Plane_tag (from_tag [Derived; Asserted] Plane_tag) ltac:(by intros []).
#[export] Instance TrustTier_codec : Codec TrustTier :=
  inj_codec TrustTier_debug
    (from_tag [DerivedDeterministic; HumanConfirmed; AgentAsserted; InferredAdvisory] TrustTier_debug) ltac:(by intros []).
#[export] Instance Status_codec : Codec Status :=
  inj_codec Join.status_rank (from_tag [Active; Superseded; Archived] Join.status_rank) ltac:(by intros []).
Definition all_node_kinds : list NodeKind :=
  [Commit; Pr; Adr; Audit; Finding; Handoff; ManifestChange; PinBump; DriftEvent; Benchmark; AgentAction; Blocker;
   TechDebt; WorkPackage; Rationale; AnalogyHypothesis; Doc; Tenant; ChainNetwork; ChainContract; ChainEvent;
   ChainCheckpoint; Branch] ++ (Sprint <$> [Kickoff; Daily; Close]) ++ (Narrative <$> [Journal; Essay; CaseStudy])
  ++ (Claim <$> [Confirmed; Corrected; Refined]).
#[export] Instance NodeKind_codec : Codec NodeKind.
Proof. refine (inj_codec discriminant (from_tag all_node_kinds discriminant) _). by intros [| |[]| | | | |[]|[]| | | | | | | | | | | | | | | | |]. Defined.
#[export] Instance BelnapValue_codec : Codec BelnapValue :=
  inj_codec (λ v, match v with True_ => 0 | False_ => 1 | Both => 2 | Neither => 3 end)
    (λ z, match z with 0 => Some True_ | 1 => Some False_ | 2 => Some Both | _ => Some Neither end) ltac:(by intros []).
#[export] Instance EdgeKind_codec : Codec EdgeKind :=
  inj_codec EdgeKind_tag (from_tag all_edge_kinds EdgeKind_tag) ltac:(by intros []).
#[export] Instance EdgeMethod_codec : Codec EdgeMethod :=
  inj_codec method_rank (from_tag [Trailer; Ingest; Nlp; Analogy; Manual] method_rank) ltac:(by intros []).
#[export] Instance MemoryEvent_codec : Codec MemoryEvent :=
  inj_codec MemoryEvent_debug (from_tag [EvRead; EvWrite; EvDenied] MemoryEvent_debug) ltac:(by intros []).
#[export] Instance SourceRef_codec : Codec SourceRef :=
  inj_codec (λ s, match s with
                  | Artifact r p g b e => (0, [r; p; g], [b; e])
                  | GitCommit r h => (1, [r; h], [])
                  | DagNative k => (2, [k], [])
                  end)
    (λ x, match x with
          | (0, [r; p; g], [b; e]) => Some (Artifact r p g b e)
          | (1, [r; h], _) => Some (GitCommit r h)
          | (_, [k], _) => Some (DagNative k)
          | _ => None
          end) ltac:(by intros []).
#[export] Instance f32_codec : Codec f32 := inj_codec to_bits (Some ∘ F32) ltac:(by intros []).
#[export] Instance VersionedVector_codec : Codec VersionedVector :=
  inj_codec (λ v, (vv_model v, vv_data v)) (λ x, Some {| vv_model := x.1; vv_data := x.2 |}) ltac:(by intros []).
#[export] Instance CodeAnchor_codec : Codec CodeAnchor :=
  inj_codec (λ c, (ca_repo c, ca_path c, ca_symbol c, ca_line_start c, ca_line_end c))
    (λ '(r, p, s, a, b), Some {| ca_repo := r; ca_path := p; ca_symbol := s; ca_line_start := a; ca_line_end := b |})
    ltac:(by intros []).
#[export] Instance MemoryNode_codec : Codec MemoryNode :=
  inj_codec
    (λ n, (n_schema_version n, n_plane n, n_kind n, n_repo n, n_author n, n_source_ref n, n_content n,
           n_valid_from n, n_valid_to n, n_observed_at n, n_trust_tier n, n_signature n, n_embedding n,
           n_confidence n, n_anchors n, n_status n))
    (λ '(v, p, k, r, a, s, c, f, t, o, tr, sg, em, cf, an, st),
       Some {| n_schema_version := v; n_plane := p; n_kind := k; n_repo := r; n_author := a; n_source_ref := s;
               n_content := c; n_valid_from := f; n_valid_to := t; n_observed_at := o; n_trust_tier := tr;
               n_signature := sg; n_embedding := em; n_confidence := cf; n_anchors := an; n_status := st |})
    ltac:(by intros []).
#[export] Instance EdgeProvenance_codec : Codec EdgeProvenance :=
  inj_codec (λ p, (p_method p, p_asserter p, p_at p, p_evidence p))
    (λ '(m, a, t, e), Some {| p_method := m; p_asserter := a; p_at := t; p_evidence := e |}) ltac:(by intros []).
#[export] Instance Edge_codec : Codec Edge :=
  inj_codec
    (λ e, (e_from e, e_to e, e_kind e, e_plane e, e_trust_tier e, e_provenance e, e_confidence e, e_quarantined e, e_signature e))
    (λ '(f, t, k, p, tr, pr, c, q, s),
       Some {| e_from := f; e_to := t; e_kind := k; e_plane := p; e_trust_tier := tr; e_provenance := pr;
               e_confidence := c; e_quarantined := q; e_signature := s |}) ltac:(by intros []).
#[export] Instance Envelope_codec : Codec Envelope :=
  inj_codec (λ e, (enc e, env_tenant e, kgen e, nonce e, ct e))
    (λ '(x, t, g, n, c), Some {| enc := x; env_tenant := t; kgen := g; nonce := n; ct := c |}) ltac:(by intros []).
#[export] Instance KeyringEntry_codec : Codec KeyringEntry :=
  inj_codec (λ e, (gen e, key e)) (λ '(g, k), Some {| gen := g; key := k |}) ltac:(by intros []).
#[export] Instance AuditRecord_codec : Codec AuditRecord :=
  inj_codec (λ r, (sequence r, timestamp_ms r, prev_hash r, event r, actor r, ar_resource_id r, detail r))
    (λ '(s, t, p, e, a, r, d),
       Some {| sequence := s; timestamp_ms := t; prev_hash := p; event := e; actor := a; ar_resource_id := r; detail := d |})
    ltac:(by intros []).
#[export] Instance Head_codec : Codec Head :=
  inj_codec (λ h, (len h, last_hash_hex h)) (λ '(n, h), Some {| len := n; last_hash_hex := h |}) ltac:(by intros []).
#[export] Instance AnchorRecord_codec : Codec AnchorRecord :=
  inj_codec (λ r, (a_repo r, a_root r, a_node_count r, a_edge_count r, a_anchored_at_ms r, a_prev r))
    (λ '(r, x, n, e, t, p),
       Some {| a_repo := r; a_root := x; a_node_count := n; a_edge_count := e; a_anchored_at_ms := t; a_prev := p |})
    ltac:(by intros []).

#[export] Instance Watermark_codec : Codec Watermark :=
  inj_codec (λ w, (w_repo w, w_head w, w_head_count w, w_ingested_at_ms w))
    (λ '(r, h, n, t), Some {| w_repo := r; w_head := h; w_head_count := n; w_ingested_at_ms := t |}) ltac:(by intros []).

(** ** hex *)

Definition hex_digit (n : N) : ascii := Ascii.ascii_of_N (if (n <? 10)%N then 48 + n else 87 + n)%N.
Definition hex_value (a : ascii) : option N :=
  let n := Ascii.N_of_ascii a in
  if ((48 <=? n) && (n <=? 57))%N then Some (n - 48)%N
  else if ((97 <=? n) && (n <=? 102))%N then Some (n - 87)%N else None.
Fixpoint hex_enc (b : bytes) : string :=
  match b with
  | [] => ""
  | x :: b => String (hex_digit (Byte.to_N x / 16)) (String (hex_digit (Byte.to_N x mod 16)) (hex_enc b))
  end.
Fixpoint hex_dec (s : string) : result string bytes :=
  match s with
  | EmptyString => Ok []
  | String a (String b s) =>
    match hex_value a, hex_value b with
    | Some h, Some l => match Byte.of_N (16 * h + l) with
                        | Some x => rmap (cons x) (hex_dec s)
                        | None => Err "invalid digit"
                        end
    | _, _ => Err "invalid digit"
    end
  | _ => Err "odd length"
  end.
#[export] Instance sample_hex : Hex := {| hex_encode := hex_enc; hex_decode := hex_dec |}.
#[export] Instance sample_hex_laws : HexLaws.
Proof.
  split; simpl.
  - induction b as [|x b IH]; [done|]. cbn [hex_enc hex_dec].
    assert (hex_value (hex_digit (Byte.to_N x / 16)) = Some (Byte.to_N x / 16)%N ∧
            hex_value (hex_digit (Byte.to_N x mod 16)) = Some (Byte.to_N x mod 16)%N ∧
            Byte.of_N (16 * (Byte.to_N x / 16) + Byte.to_N x mod 16) = Some x) as (-> & -> & ->) by (by destruct x).
    by rewrite IH.
  - induction b as [|x b IH]; [done|]. simpl. rewrite IH. lia.
Qed.

(** ** blake3: a polynomial checksum of the whole input *)

Definition checksum (b : bytes) : Z := foldl (λ z x, Z.land (z * 257 + Z.of_N (Byte.to_N x) + 1) 0xffffffffffff) 7 b.
Program Definition le_array (n : nat) (z : Z) : array n := {| array_bytes := to_le_bytes n z |}.
Next Obligation. intros n z. apply bool_decide_eq_true_2, length_to_le_bytes. Qed.

#[export] Instance sample_blake3 : Blake3 := {|
  blake3 b := le_array 32 (checksum b);
  blake3_to_hex h := hex_enc (array_bytes h);
  blake3_derive_key ctx b := le_array 32 (checksum (as_bytes ctx ++ b));
  blake3_keyed_xof k b n := to_le_bytes n (checksum (array_bytes k ++ b));
|}.
#[export] Instance sample_blake3_laws : Blake3Laws.
Proof.
  split; simpl.
  - intros k b n. apply length_to_le_bytes.
  - intros h. change (hex_enc (array_bytes h)) with (hex_encode (array_bytes h)). by rewrite hex_encode_length, length_array.
Qed.

(** ** A keyed checksum as signature and as authentication tag *)

#[export] Instance sample_ed25519 : Ed25519 := {|
  SigningKey := array 32;
  sk_from_bytes b := b;
  sk_to_bytes k := k;
  sk_verifying_key k := k;
  sk_sign k m := le_array 64 (checksum (array_bytes k ++ m));
  vk_decodes _ := true;
  verify_strict k m s := bool_decide (s = le_array 64 (checksum (array_bytes k ++ m)));
|}.
#[export] Instance sample_ed25519_laws : Ed25519Laws.
Proof. split; simpl; [done|]. intros. by apply bool_decide_eq_true_2. Qed.

#[export] Instance sample_aead : Aead := {|
  aead_encrypt k n a m := Some (m ++ to_le_bytes 32 (checksum (array_bytes k ++ n ++ a ++ m)));
  aead_decrypt k n a c :=
    let m := take (length c - 32) c in
    if bool_decide (drop (length c - 32) c = to_le_bytes 32 (checksum (array_bytes k ++ n ++ a ++ m))) then Some m else None;
|}.
#[export] Instance sample_aead_laws : AeadLaws.
Proof.
  split; simpl. intros k n a m c [= <-]. rewrite length_app, length_to_le_bytes.
  replace (length m + 32 - 32)%nat with (length m) by lia. rewrite take_app_length, drop_app_length.
  by rewrite bool_decide_eq_true_2.
Qed.

(** ** serde: a tag, then the codec's bytes in hex *)

Definition codec_to_vec {A} `{Codec A} (tag : byte) (a : A) : result string bytes := Ok (tag :: as_bytes (hex_enc (encode a))).
Definition codec_from_slice {A} `{Codec A} (tag : byte) (b : bytes) : result string A :=
  match b with
  | t :: b =>
    if bool_decide (t = tag) then
      let? raw := hex_dec (string_of_bytes b) in
      match decode raw with Some (a, []) => Ok a | _ => Err "expected value" end
    else Err "unknown tag"
  | [] => Err "EOF"
  end.
Lemma codec_round {A} `{Codec A} tag (a : A) :
  codec_from_slice tag (tag :: as_bytes (hex_enc (encode a))) = Ok a.
Proof.
  unfold codec_from_slice. rewrite bool_decide_eq_true_2 by done. unfold string_of_bytes, as_bytes.
  rewrite String.string_of_list_byte_of_string.
  change (hex_dec (hex_enc (encode a))) with (hex_decode (hex_encode (encode a))). rewrite hex_decode_encode. simpl.
  by rewrite <-(app_nil_r (encode a)), decode_encode.
Qed.

#[export] Instance serde_envelope : Serde Envelope := {| to_vec := codec_to_vec Byte.x45; from_slice := codec_from_slice Byte.x45 |}.
#[export] Instance serde_keyring : Serde KeyringEntry := {| to_vec := codec_to_vec Byte.x4b; from_slice := codec_from_slice Byte.x4b |}.
#[export] Instance serde_edge : Serde Edge := {| to_vec := codec_to_vec Byte.x47; from_slice := codec_from_slice Byte.x47 |}.
#[export] Instance serde_node : Serde MemoryNode := {| to_vec := codec_to_vec Byte.x4e; from_slice := codec_from_slice Byte.x4e |}.
#[export] Instance serde_audit : Serde AuditRecord := {| to_vec := codec_to_vec Byte.x52; from_slice := codec_from_slice Byte.x52 |}.
#[export] Instance serde_head : Serde Head := {| to_vec := codec_to_vec Byte.x48; from_slice := codec_from_slice Byte.x48 |}.
#[export] Instance serde_anchor : Serde AnchorRecord := {| to_vec := codec_to_vec Byte.x41; from_slice := codec_from_slice Byte.x41 |}.

#[export] Instance serde_watermark : Serde Watermark := {| to_vec := codec_to_vec Byte.x57; from_slice := codec_from_slice Byte.x57 |}.

#[export] Instance sample_envelope_laws : EnvelopeSerdeLaws.
Proof. split. intros env. eexists. split; [done|]. apply codec_round. Qed.

Lemma codec_other_tag {A} `{Codec A} tag t l : t ≠ tag → codec_from_slice (A := A) tag (t :: l) = Err "unknown tag".
Proof. intros Ht. unfold codec_from_slice. by rewrite bool_decide_eq_false_2. Qed.

Lemma other_tag_no_envelope tag l : tag ≠ Byte.x45 → parse_envelope (tag :: l) = None.
Proof. intros Ht. unfold parse_envelope. cbn [from_slice serde_envelope]. by rewrite codec_other_tag. Qed.

#[export] Instance sample_store_laws : StoreSerdeLaws (N := MemoryNode).
Proof.
  split.
  - intros e. eexists. split; [done|]. apply codec_round.
  - intros e. eexists. split; [done|]. split; [apply codec_round|]. by apply other_tag_no_envelope.
  - intros n _. eexists. split; [done|]. split; [apply codec_round|]. by apply other_tag_no_envelope.
Qed.

(** Hex text is one line of printable ASCII. *)
Lemma hex_enc_ascii b x : x ∈ as_bytes (hex_enc b) → 48 ≤ byte_Z x ≤ 102.
Proof.
  induction b as [|y b IH]; [by intros ?%not_elem_of_nil|]. cbn [hex_enc].
  change (as_bytes (String ?a (String ?c ?s))) with (byte_of_ascii a :: byte_of_ascii c :: as_bytes s).
  intros [->|[->|Hx]%elem_of_cons]%elem_of_cons; [destruct y; by vm_compute..|by apply IH].
Qed.

Lemma ascii_utf8 l : Forall (λ x, byte_Z x ≤ 127) l → utf8_valid l = true ∧ utf8_decode l = Some (byte_Z <$> l).
Proof.
  intros Hl. assert (utf8_decode l = Some (byte_Z <$> l)) as Hd.
  { unfold utf8_decode. generalize (le_n (length l)). generalize (length l) at 2 3. revert Hl.
    induction l as [|x l IH]; intros Hl fuel Hf; [by destruct fuel|]. destruct fuel as [|fuel]; [simpl in Hf; lia|].
    apply Forall_cons in Hl as [Hx Hl]. simpl. rewrite (proj2 (Z.leb_le _ _)) by done.
    rewrite IH; [done|done|]. simpl in Hf. lia. }
  split; [|done]. unfold utf8_valid. rewrite Hd. by apply bool_decide_eq_true_2.
Qed.

#[export] Instance sample_audit_laws : AuditSerdeLaws.
Proof.
  split.
  - intros r _. eexists. split; [done|]. apply codec_round.
  - intros r b [= <-]. set (h := as_bytes _).
    assert (∀ x, x ∈ Byte.x52 :: h → 48 ≤ byte_Z x ≤ 102) as Hx.
    { intros x [->|Hx]%elem_of_cons; [by vm_compute|]. by eapply hex_enc_ascii. }
    destruct (ascii_utf8 (Byte.x52 :: h)) as [Hv Hd].
    { apply Forall_forall. intros x Hin. specialize (Hx x Hin). lia. }
    split_and!; [| |done|].
    + intros Hn. by apply Hx in Hn as [? _].
    + intros Hn. by apply Hx in Hn as [? _].
    + unfold trim_is_empty. by rewrite Hd.
  - intros n h _. eexists. split; [done|]. apply codec_round.
Qed.

(** ** A counter as random source *)

#[export] Instance sample_rng : Rng Z := λ n r, (r + 1, Ok (le_array n r)).

(** ** Stores *)

Abbreviation sample_store := (MemoryDagStore InMemoryKv Z).

#[export] Instance sample_anchor_laws : AnchorSerdeLaws (T := sample_store).
Proof. split. intros r. eexists. split; [done|]. split; [apply codec_round|]. by apply other_tag_no_envelope. Qed.

Definition empty_store (sealing : bool) : sample_store := mk_store InMemoryKv_new sealing 1.
Definition empty_abs : AbsStore MemoryNode := mk_abs ∅ ∅ ∅ ∅.
Definition empty_contents : Contents MemoryNode := mk_contents ∅ ∅ ∅ ∅.

Lemma empty_rel b : store_rel (empty_store b) empty_abs.
Proof.
  assert (∀ c, kv_view (kv (empty_store b)) c = ∅) as Hv by done.
  assert (∀ {I A} `{Countable I} r (rk : I → bytes) opn (dec : bytes → result string A),
    table_repr r rk opn dec ∅ (∅ : cf_map)) as Ht.
  { intros. split; [intros k [? Hk]; by rewrite lookup_empty in Hk|]. intros i. by rewrite !lookup_empty. }
  split; [done|]. split; rewrite ?Hv; try apply Ht.
  - intros t. by rewrite !lookup_empty.
  - intros i c Hi. cbn [a_nodes a_edges empty_abs] in Hi. by rewrite lookup_empty in Hi.
  - intros i t g n Hi. cbn [a_nodes empty_abs] in Hi. by rewrite lookup_empty in Hi.
  - intros i c Hi. cbn [a_nodes a_edges empty_abs] in Hi. by rewrite lookup_empty in Hi.
Qed.

Lemma empty_holds b : holds (empty_store b) empty_contents.
Proof.
  exists empty_abs. split; [apply empty_rel|]. split; [intros t g; cbn [a_ring empty_abs]; by rewrite lookup_empty|].
  unfold contents, empty_contents. simpl. by rewrite !omap_empty, dom_empty_L.
Qed.

(** Two signed assertions, and edges between them *)
Definition alice : Asserter := Asserter_new (le_array 32 11).
Definition bob : Asserter := Asserter_new (le_array 32 22).
Definition node_old : MemoryNode := assert_node alice "r" Rationale "old" 5.
Definition node_new : MemoryNode := assert_node alice "r" Rationale "new" 6.
Definition sup_edge : Edge := assert_edge alice (compute_id node_new) (compute_id node_old) Supersedes 7.
Definition ref_edge : Edge := assert_edge alice (compute_id node_new) (compute_id node_old) References 7.
Definition proposal : Edge := propose_edge alice (compute_id node_new) (compute_id node_old) References Nlp None 7.

(** A store after two writes *)
Definition two_nodes : sample_store := (put_node node_new (put_node node_old (empty_store false)).1).1.
Definition two_contents : Contents MemoryNode := c_put_node (c_put_node empty_contents node_old) node_new.

Lemma put_plain_holds (s : sample_store) c n :
  encrypt_at_rest s = false → holds s c → json_repr n →
  holds (put_node n s).1 (c_put_node c n) ∧ encrypt_at_rest (put_node n s).1 = false.
Proof.
  intros He Hs Hj. destruct (put_node_effect s c n Hs Hj) as (s' & r & -> & He' & Hr).
  simpl. destruct r; destruct Hr; split; congruence || done.
Qed.

Lemma two_nodes_holds : holds two_nodes two_contents ∧ encrypt_at_rest two_nodes = false.
Proof.
  destruct (put_plain_holds (empty_store false) empty_contents node_old) as [H1 E1]; [done|apply empty_holds|done|].
  by apply put_plain_holds.
Qed.
