(* ===== verification/Witness.v ===== *)
(** * The theorems at concrete inputs

    For every theorem with hypotheses, an instance of it on the sample libraries:
    the hypotheses hold there together. *)

From stdpp Require Import relations.
From S2P Require Import Prelude Bytes Externs Text Belnap Identity Node Edge Grant AuditLog Kv Shred Store StoreSpec.
From S2P Require Import StoreRefine StoreWrite StoreContents StoreReach Supersession StoreInterface StoreProps Join.
From S2P Require Import Assert Sync SyncProps SyncAnchor Query QueryProps Sample.
Import Belnap.

Lemma node_old_wf : node_wf node_old.
Proof. by vm_compute. Qed.
Lemma node_new_wf : node_wf node_new.
Proof. by vm_compute. Qed.

(** ** Identity, grants, the backend *)

Lemma compute_id_binds_witness : compute_id node_old = compute_id (set_status Archived (Some 9) node_old).
Proof.
  apply (proj2 (compute_id_binds node_old (set_status Archived (Some 9) node_old) node_old_wf node_old_wf)). by left.
Defined.

Lemma from_hex_to_hex_witness : from_hex (to_hex (compute_id node_old)) = Some (compute_id node_old).
Proof. apply from_hex_to_hex. Defined.

Definition sample_grant : CapabilityGrant :=
  sign_with {| g_id := "g"; g_issuer := "root"; g_recipient := "peer";
               g_allowed_resources := [{| resource_id := "repo:r/memory"; can_read := true; can_write := true |}];
               g_policy := Operator; g_expires_at_ms := 1000; g_revoked := false;
               g_delegation_chain := [{| delegator := "root"; at_ms := 1 |}];
               g_issuer_pubkey := []; g_signature := [] |} (le_array 32 99).

Lemma sample_grant_wf : grant_wf sample_grant.
Proof.
  unfold grant_wf. refine (conj _ (conj _ (conj _ (conj _ (conj _ (conj _ _)))))).
  1,2,3,7: by vm_compute.
  - apply Forall_singleton. by vm_compute.
  - by vm_compute.
  - apply Forall_singleton. by vm_compute.
Qed.

Lemma signing_preimage_binds_witness :
  Grant.set_signature sample_grant [] = Grant.set_signature (Grant.set_signature sample_grant [Byte.x01]) [].
Proof.
  apply (signing_preimage_binds sample_grant (Grant.set_signature sample_grant [Byte.x01])).
  - exact sample_grant_wf.
  - exact sample_grant_wf.
  - reflexivity.
Defined.

Definition sample_ops : list KvOp := [Put "cf" [Byte.x01] [Byte.x02]; Delete "cf" [Byte.x01]; Put "cf" [Byte.x03] []].

Lemma mem_write_batch_sequential_witness :
  kv_write_batch sample_ops InMemoryKv_new = default_write_batch mem_kv_put mem_kv_delete sample_ops InMemoryKv_new.
Proof. apply mem_write_batch_sequential. reflexivity. Defined.

(** ** The audit chain *)

Definition rec0 : AuditRecord := append_record (chain_of []) EvWrite "alice" "repo:r/memory" "first" 5.
Definition chain1 : list AuditRecord := [rec0].
Definition line0 : bytes := default [] (rok (to_vec rec0)).
Definition head_of (n : Z) (h : array 32) : bytes :=
  default [] (rok (to_vec {| len := n; last_hash_hex := hex_encode (array_bytes h) |})).
Definition disk0 : Disk := {| d_log := Some []; d_head := Some (head_of 0 (zero_array 32)); d_tmp := None |}.
Definition disk1 : Disk :=
  {| d_log := Some (log_bytes [line0]); d_head := Some (head_of 1 (record_hash rec0)); d_tmp := None |}.

Lemma disk0_holds : disk_holds disk0 [] 0.
Proof.
  exists [], (head_of 0 (zero_array 32)). split_and!; [done|constructor|done|done|done|]. split; [done|]. apply codec_round.
Qed.
Lemma disk1_holds : disk_holds disk1 chain1 1.
Proof.
  exists [line0], (head_of 1 (record_hash rec0)). split_and!; [done| |by vm_compute|done|done|].
  - constructor; [|constructor]. split; [done|]. apply codec_round.
  - split; [done|]. apply codec_round.
Qed.

Definition next_append := append no_fault (chain_of chain1) EvRead "bob" "repo:r/memory" "second" 6 disk1.
Definition rec1 : AuditRecord := append_record (chain_of chain1) EvRead "bob" "repo:r/memory" "second" 6.

Lemma append_verifies_witness : verify_integrity (chain_of (chain1 ++ [rec1])) = Ok 2.
Proof.
  refine (proj2 (proj2 (append_verifies no_fault (chain_of chain1) EvRead "bob" "repo:r/memory" "second" 6
    disk1 next_append.1 (chain_of (chain1 ++ [rec1])) rec1 _ _))).
  - by vm_compute.
  - reflexivity.
Defined.

Lemma rec1_repr : record_repr rec1.
Proof. unfold record_repr. refine (conj _ (conj _ (conj _ (conj _ _)))); by vm_compute. Qed.
Lemma one_more_u64 : is_u64 (Z.of_nat (length chain1) + 1).
Proof. by vm_compute. Qed.

Lemma append_reopens_witness :
  ∃ d', append no_fault (chain_of chain1) EvRead "bob" "repo:r/memory" "second" 6 disk1 = (d', Ok (chain_of (chain1 ++ [rec1]), rec1)) ∧
        AuditChain_open no_fault d' = (d', Ok (chain_of (chain1 ++ [rec1]))).
Proof. exact (append_reopens chain1 EvRead "bob" "repo:r/memory" "second" 6 disk1 one_more_u64 disk1_holds rec1_repr). Defined.

(** The head's temporary file cannot be created: the line is in the log, the head
    is not updated. *)
Definition head_fails : IoOracle :=
  {| io_fault s := match s with HeadCreate => Some "disk full" | _ => None end; torn := 0 |}.
Definition failed_append := append head_fails (chain_of chain1) EvRead "bob" "repo:r/memory" "second" 6 disk1.

Lemma append_crash_recovers_witness :
  ∃ d'', AuditChain_open no_fault failed_append.1 = (d'', Ok (chain_of (chain1 ++ [rec1]))) ∧
         disk_holds d'' (chain1 ++ [rec1]) 2.
Proof.
  exact (append_crash_recovers head_fails chain1 EvRead "bob" "repo:r/memory" "second" 6 disk1 failed_append.1 failed_append.2
           eq_refl one_more_u64 disk1_holds rec1_repr (surjective_pairing _)).
Defined.

Lemma open_detects_truncation_witness :
  AuditChain_open no_fault {| d_log := Some (log_bytes []); d_head := d_head disk1; d_tmp := None |} =
    ({| d_log := Some (log_bytes []); d_head := d_head disk1; d_tmp := None |}, Err (Truncated 1 0)).
Proof.
  refine (open_detects_truncation disk1 [] chain1 [] disk1_holds _ _); [discriminate|constructor].
Defined.

Definition rec1' : AuditRecord := append_record (chain_of chain1) EvDenied "eve" "repo:r/memory" "again" 7.
Lemma rec1'_repr : record_repr rec1'.
Proof. unfold record_repr. refine (conj _ (conj _ (conj _ (conj _ _)))); by vm_compute. Qed.

Lemma append_after_error_bricks_witness :
  ∃ d2 c2 r2, append no_fault (chain_of chain1) EvDenied "eve" "repo:r/memory" "again" 7 failed_append.1 = (d2, Ok (c2, r2)) ∧
    AuditChain_open no_fault d2 = (d2, Err (Corrupt (SequenceBreak 2 2 1))).
Proof.
  refine (append_after_error_bricks head_fails chain1 EvRead "bob" "repo:r/memory" "second" 6 EvDenied "eve"
            "repo:r/memory" "again" 7 disk1 failed_append.1 (Io "disk full")
            eq_refl one_more_u64 disk1_holds rec1_repr rec1'_repr _).
  reflexivity.
Defined.

Lemma rec0_wf : Forall record_wf chain1.
Proof. apply Forall_singleton. unfold record_wf. refine (conj _ (conj _ (conj _ (conj _ _)))); by vm_compute. Qed.

Lemma open_commits_history_witness :
  records (chain_of chain1) = records (chain_of chain1) ∨ records_collide (records (chain_of chain1)) (records (chain_of chain1)).
Proof.
  assert (open_existing no_fault (log_bytes [line0]) disk1 = (disk1, Ok (chain_of chain1))) as Ho.
  { destruct (open_holds disk1 chain1 1) as (d & Ho & _ & Hd); [by vm_compute|exact disk1_holds|simpl; lia|].
    rewrite (Hd eq_refl) in Ho. exact Ho. }
  exact (open_commits_history no_fault no_fault (log_bytes [line0]) (log_bytes [line0]) disk1 disk1 disk1 disk1
           (chain_of chain1) (chain_of chain1) Ho Ho rec0_wf rec0_wf eq_refl eq_refl).
Defined.

(** ** The store *)


Lemma two_nodes_plain : encrypt_at_rest two_nodes = false.
Proof. reflexivity. Qed.

Definition with_proposal : sample_store := (add_edge (N := MemoryNode) proposal two_nodes).1.


Definition quarantined_ref : Edge := set_edge_flags true (e_provenance ref_edge) ref_edge.

Lemma commit_batch_demotes_witness :
  (∃ s', commit ([] : list MemoryNode) [ref_edge; quarantined_ref] two_nodes = (s', Ok tt) ∧
         stored_edge s' ref_edge = Ok (Some quarantined_ref)) ∧
  (∃ s', (let! _ := add_edge (N := MemoryNode) ref_edge in add_edge (N := MemoryNode) quarantined_ref) two_nodes = (s', Ok tt) ∧
         stored_edge s' ref_edge = Ok (Some ref_edge)).
Proof.
  exact (commit_batch_demotes two_nodes two_contents ref_edge quarantined_ref (proj1 two_nodes_holds) eq_refl
           eq_refl eq_refl eq_refl eq_refl).
Defined.

(** One tenant with a key and a sealed node *)
Definition sealed_store : sample_store := (put_node node_old (empty_store true)).1.

Lemma sealed_rel :
  ∃ a g, store_rel sealed_store a ∧ (∀ t g ok, a_ring a !! t = Some (g, ok) → g < u32_max) ∧
         a_nodes a !! compute_id node_old = Some (Sealed "r" g node_old).
Proof.
  destruct (put_node_rel (empty_store true) empty_abs node_old (empty_rel true)) as (s' & a1 & r & Hr & Hm & He & Hres);
    [intros t g; cbn [a_ring empty_abs]; by rewrite lookup_empty|done|].
  assert (s' = sealed_store) as -> by (unfold sealed_store; by rewrite Hr).
  destruct r as [id|]; [|by apply (f_equal snd) in Hr; vm_compute in Hr].
  destruct Hres as (a' & Hs & -> & c & (g & k & Hk & ->) & ->). exists (set_node (node_id node_old) (Sealed (tenant node_old) g node_old) a1), g.
  split; [done|]. split.
  - intros t g' ok Ht. destruct Hm as (_ & _ & _ & Hring). destruct (Hring t) as [E|[(k' & E1 & E2)|(g2 & k' & E1 & E2)]];
      cbn [a_ring empty_abs set_node] in *; rewrite ?lookup_empty in *; [congruence| |done].
    rewrite E2 in Ht. by injection Ht as <- <-.
  - simpl. by rewrite lookup_insert_eq.
Qed.

Lemma shred_tenant_forgets_witness :
  ∃ s', (shred_tenant "r" sealed_store).1 = s' ∧ get_node (N := MemoryNode) s' (compute_id node_old) = Ok None ∧
        get_node (N := MemoryNode) (ensure_tenant_key "r" s').1 (compute_id node_old) = Ok None.
Proof.
  destruct sealed_rel as (a & g & Hs & Hg & Hn).
  destruct (shred_tenant_forgets sealed_store a "r" Hs Hg) as (s' & Hr & Hf & _). exists s'.
  rewrite Hr. split; [reflexivity|]. exact (Hf _ _ _ Hn).
Defined.

Lemma old_ne_new : compute_id node_old ≠ compute_id node_new.
Proof. intros E. apply (f_equal array_bytes) in E. vm_compute in E. discriminate E. Qed.

Definition with_reference : sample_store := (add_edge (N := MemoryNode) ref_edge two_nodes).1.
Lemma with_reference_holds : holds with_reference (c_add_edge two_contents ref_edge).
Proof.
  destruct (add_edge_effect two_nodes two_contents ref_edge (proj1 two_nodes_holds)) as (s' & r & Hr & _ & Hres).
  unfold with_reference. rewrite Hr. destruct r; [by destruct Hres|]. destruct Hres as [_ Hs]. vm_compute in Hs; discriminate Hs.
Qed.

Lemma reachable_via_correct_witness :
  ∃ l, reachable_via with_reference (compute_id node_new) References = Ok l ∧ compute_id node_old ∈ l.
Proof.
  destruct with_reference_holds as (a & Hs & _ & Hc).
  destruct (reachable_via_correct with_reference a (compute_id node_new) References Hs) as [(l & _ & Hl & _ & Hin) _].
  exists l. split; [exact Hl|]. apply Hin. split; [|exact old_ne_new].
  apply rtc_once. unfold edge_hop. rewrite <-contents_edge, Hc. by exists ref_edge.
Defined.

(** ** Supersession *)

Definition superseded_store : sample_store := (apply_supersession sup_edge two_nodes).1.

Lemma two_lookup i n : c_nodes two_contents !! i = Some n → (n = node_new ∨ n = node_old) ∧ node_id n = i.
Proof.
  unfold two_contents, c_put_node, empty_contents. cbn [c_nodes]. rewrite !lookup_insert, lookup_empty.
  case_decide as E1; [|case_decide as E2; [|intros Hn; discriminate Hn]]; intros Hn; injection Hn as <-; split; auto.
Qed.

Lemma two_dag_inv : dag_inv two_contents.
Proof.
  assert (∀ x y, ¬ c_sup two_contents x y) as Hno.
  { intros x y (e & He & _). unfold two_contents, c_put_node, empty_contents in He. cbn [c_edges] in He.
    rewrite lookup_empty in He. discriminate He. }
  split.
  - intros x Hx. destruct Hx as [x y Hxy|x y z Hxy _]; exact (Hno _ _ Hxy).
  - intros x y n Hxy. destruct (Hno _ _ Hxy).
  - intros i n Hn v Hv. destruct (proj1 (two_lookup i n Hn)) as [-> | ->]; discriminate Hv.
  - intros i n Hn. exact (proj2 (two_lookup i n Hn)).
Qed.

Lemma apply_supersession_correct_witness :
  ∃ s' r c', apply_supersession sup_edge two_nodes = (s', r) ∧ holds s' c' ∧ sup_step two_contents sup_edge r c'.
Proof.
  destruct (apply_supersession_correct two_nodes two_contents sup_edge (proj1 two_nodes_holds))
    as (s' & r & c' & Hr & Hs & [[Hst _]|[Henc _]]); [|discriminate Henc].
  exists s', r, c'. split_and!; [exact Hr|exact Hs|exact Hst].
Defined.


Lemma apply_supersession_idempotent_witness :
  ∃ c1 s2, holds superseded_store c1 ∧ apply_supersession sup_edge superseded_store = (s2, Ok {| transitioned := false |}) ∧
           holds s2 c1.
Proof.
  apply (apply_supersession_idempotent two_nodes two_contents sup_edge superseded_store {| transitioned := true |}).
  - exact (proj1 two_nodes_holds).
  - exact two_dag_inv.
  - reflexivity.
  - unfold superseded_store. rewrite (surjective_pairing (apply_supersession _ _)) at 1. f_equal; vm_compute; reflexivity.
Defined.

Lemma with_proposal_holds : holds with_proposal (c_add_edge two_contents proposal).
Proof.
  destruct (add_edge_effect two_nodes two_contents proposal (proj1 two_nodes_holds)) as (s' & r & Hr & _ & Hres).
  unfold with_proposal. rewrite Hr. destruct r; [by destruct Hres|]. destruct Hres as [_ Hs]. vm_compute in Hs; discriminate Hs.
Qed.

Lemma confirm_edge_correct_witness :
  ∃ s' r c', confirm_edge (e_from proposal) (e_to proposal) References 9 with_proposal = (s', r) ∧ holds s' c' ∧
             confirm_step (c_add_edge two_contents proposal) (edge_ident proposal) 9 r c'.
Proof.
  destruct (confirm_edge_correct with_proposal (c_add_edge two_contents proposal) (e_from proposal) (e_to proposal) References 9
              with_proposal_holds) as (s' & r & c' & Hr & Hs & [Hst|[Henc _]]); [|vm_compute in Henc; discriminate Henc].
  exists s', r, c'. split_and!; [exact Hr|exact Hs|exact Hst].
Defined.

(** ** Assertions and diffs *)

Lemma assertions_verify_witness :
  verify_node node_old = Ok tt ∧ verify_edge sup_edge = Ok tt ∧ verify_edge proposal = Ok tt.
Proof.
  destruct (assertions_verify (sk alice) "r" Rationale "old" 5 5 None (compute_id node_new) (compute_id node_old)
              Supersedes Nlp None 7) as (Hn & _ & He & _).
  destruct (assertions_verify (sk alice) "r" Rationale "old" 5 5 None (compute_id node_new) (compute_id node_old)
              References Nlp None 7) as (_ & _ & _ & Hp & _).
  split_and!; [exact Hn|exact He|exact Hp].
Defined.

Lemma verify_node_iff_witness : n_plane node_old = Asserted.
Proof. apply (proj1 (verify_node_iff node_old)). vm_compute. reflexivity. Defined.

(** Bob merges a diff with an assertion of his own and a relayed copy of Alice's *)
Definition node_bob : MemoryNode := assert_node bob "r" Rationale "bob" 8.
Definition bob_diff : MemoryDiff := diff_add_node (diff_add_node (MemoryDiff_new (pubkey_hex bob) 8) node_bob) node_old.

Lemma node_bob_new : compute_id node_bob ≠ compute_id node_old ∧ compute_id node_bob ≠ compute_id node_new.
Proof. split; intros E; apply (f_equal array_bytes) in E; vm_compute in E; discriminate E. Qed.

Lemma bob_no_collision : no_collision [node_bob; node_old] two_contents.
Proof.
  intros n m i Hn Hm Hi. destruct (two_lookup i m Hm) as [Hm' Hmi]. unfold node_id, MemoryNode_identified in Hmi.
  apply elem_of_cons in Hn as [->|Hn]; [|apply list_elem_of_singleton in Hn as ->].
  - exfalso. destruct node_bob_new as [H1 H2]. destruct Hm' as [-> | ->]; congruence.
  - destruct Hm' as [-> | ->]; [destruct old_ne_new; congruence|].
    split; [exact node_old_wf|]. split; [exact node_old_wf|]. intros _. reflexivity.
Qed.


(** Bob tries to retire Alice's node. *)
Definition hostile_diff : MemoryDiff :=
  diff_add_edge (diff_add_node (MemoryDiff_new (pubkey_hex bob) 8) node_bob)
    (assert_edge bob (compute_id node_bob) (compute_id node_old) Supersedes 8).
Definition hostile := apply_diff hostile_diff (Some (pubkey_hex bob)) 8 two_nodes.
Definition hostile_error : AssertError := match hostile.2 with Err e => e | Ok _ => Unsigned end.

Lemma apply_diff_refused_unchanged_witness :
  hostile.1 = two_nodes ∧ match hostile_error with NotAuthor _ => True | _ => False end.
Proof.
  split; [|vm_compute; exact I].
  apply (apply_diff_refused_unchanged hostile_diff (Some (pubkey_hex bob)) 8 two_nodes hostile.1 hostile_error).
  - change (hostile = (hostile.1, Err hostile_error)). rewrite (surjective_pairing hostile) at 1. f_equal; vm_compute; reflexivity.
  - intros x y. vm_compute. split; intros E; discriminate E.
Defined.

(** ** Joins *)

Definition node_archived : MemoryNode := set_status Archived (Some 9) node_old.

Lemma merge_node_semilattice_witness :
  (merge_node node_old node_archived).1.1 = (merge_node node_archived node_old).1.1 ∧
  n_status (merge_node node_old node_archived).1.1 = Archived.
Proof.
  split; [|vm_compute; reflexivity].
  exact (proj1 (merge_node_semilattice node_old node_archived node_old eq_refl)).
Defined.

Lemma gossip_converges_witness :
  gossip node_old [node_archived; node_old] = gossip node_old [node_old; node_archived; node_old].
Proof.
  apply gossip_converges.
  - constructor; [reflexivity|]. constructor; [reflexivity|constructor].
  - intros x. rewrite !elem_of_cons. tauto.
Defined.

Lemma merge_edge_semilattice_witness : merge_edge ref_edge proposal = merge_edge proposal ref_edge.
Proof.
  apply (proj1 (merge_edge_semilattice ref_edge proposal ref_edge eq_refl
    ltac:(split; intros E; vm_compute in E; discriminate E) ltac:(split; intros E; vm_compute in E; discriminate E))).
Defined.

(** ** Bundles *)

Definition bob_bundle : SyncBundle := {| s_repo := "r"; s_exported_at_ms := 9; s_nodes := [node_bob; node_old]; s_edges := [sup_edge] |}.
Definition bob_merge := merge_bundle bob_bundle sample_grant (g_issuer_pubkey sample_grant) 9 two_nodes.

Lemma bob_bundle_json : Forall json_repr (s_nodes bob_bundle).
Proof. constructor; [exact I|]. constructor; [exact I|constructor]. Qed.


Lemma merge_bundle_acyclic_witness : ∃ c', holds bob_merge.1 c' ∧ Acyclic c'.
Proof.
  exact (merge_bundle_acyclic two_nodes two_contents bob_bundle sample_grant (g_issuer_pubkey sample_grant) 9
           (proj1 two_nodes_holds) bob_bundle_json (inv_acyclic _ two_dag_inv)).
Defined.

Lemma merge_nodes_order_independent_witness :
  ∃ t1 o1 c1 t2 o2 c2,
    sfold merge_one_node outcome_default [node_bob; node_archived] two_nodes = (t1, Ok o1) ∧ ms_holds t1 c1 ∧
    sfold merge_one_node outcome_default [node_archived; node_bob] two_nodes = (t2, Ok o2) ∧ ms_holds t2 c2 ∧
    c_nodes c1 = c_nodes c2 ∧ c_edges c1 = c_edges two_contents ∧ c_edges c2 = c_edges two_contents.
Proof.
  apply (merge_nodes_order_independent two_nodes two_contents [node_bob; node_archived] [node_archived; node_bob]).
  - exact (proj1 two_nodes_holds).
  - reflexivity.
  - apply perm_swap.
  - constructor; [exact I|]. constructor; [exact I|constructor].
  - constructor; [exact I|]. constructor; [exact I|constructor].
  - intros i n Hn. destruct (proj1 (two_lookup i n Hn)) as [-> | ->]; exact I.
  - assert (compute_id node_archived = compute_id node_old) as Ea by (apply compute_id_identity; reflexivity).
    destruct node_bob_new as [Hne _].
    intros a b Ha Hb E. apply elem_of_cons in Ha, Hb.
    destruct Ha as [->|Ha], Hb as [->|Hb];
      try (apply list_elem_of_singleton in Ha as ->); try (apply list_elem_of_singleton in Hb as ->);
      first [reflexivity | exfalso; congruence].
Defined.

Definition local_grant : CapabilityGrant := default sample_grant (rok (trusted_local_grant (1 : Z)).2).

Lemma trusted_merge_never_denied_witness :
  authorize_bundle two_nodes local_grant (g_issuer_pubkey local_grant) bob_bundle 0 = rmap (λ _, tt) (collect_repos two_nodes bob_bundle) ∧
  is_ok (collect_repos two_nodes bob_bundle) = true.
Proof.
  split; [|vm_compute; reflexivity].
  refine (proj1 (proj2 (trusted_merge_never_denied (1 : Z) 2 local_grant bob_bundle two_nodes _))).
  reflexivity.
Defined.

(** ** Anchors *)

Lemma tenant_root_replica_independent_witness :
  ∃ root, tenant_root two_nodes "r" = Ok root ∧ tenant_root two_nodes "r" = Ok root.
Proof.
  exact (tenant_root_replica_independent two_nodes two_nodes two_contents two_contents "r"
           (proj1 two_nodes_holds) (proj1 two_nodes_holds) eq_refl eq_refl).
Defined.

Lemma two_nodes_ms_holds : ms_holds two_nodes two_contents.
Proof. exact (proj1 two_nodes_holds). Qed.

Definition two_state : list MemoryNode * list Edge := default ([], []) (rok (tenant_state two_nodes "r")).

Lemma two_state_u64 : Forall (λ n, is_u64 (default 0 (n_valid_to n))) (two_state.1 ++ two_state.1).
Proof.
  assert (forallb (λ n, bool_decide (default 0 (n_valid_to n) = 0)) (two_state.1 ++ two_state.1) = true) as Hb
    by (vm_compute; reflexivity).
  apply Forall_forall. intros n Hn. rewrite forallb_forall in Hb. specialize (Hb n (proj1 (list_elem_of_In _ _) Hn)).
  apply bool_decide_eq_true in Hb. rewrite Hb. by vm_compute.
Qed.

Lemma tenant_root_commits_witness :
  (node_view <$> two_state.1 = node_view <$> two_state.1 ∧ edge_view <$> two_state.2 = edge_view <$> two_state.2) ∨
  collide (root_pre two_state) (root_pre two_state).
Proof.
  destruct (tenant_root_ok two_nodes two_contents "r" two_nodes_ms_holds) as (st & Hst & Hr).
  assert (two_state = st) as Est by (unfold two_state; rewrite Hst; reflexivity). rewrite <-Est in Hst, Hr.
  apply (tenant_root_commits two_nodes two_nodes "r" two_state two_state _ Hst Hst Hr Hr eq_refl eq_refl).
  exact two_state_u64.
Defined.

Lemma anchor_tenant_verifies_witness :
  ∃ t' record, anchor_tenant "r" 9 two_nodes = (t', Ok record) ∧ latest_anchor t' "r" = Ok (Some record) ∧
               verify_anchor t' "r" = Ok (Some true).
Proof.
  destruct (anchor_tenant_verifies two_nodes two_contents "r" 9 two_nodes_ms_holds) as (t' & r & Hr & Hres).
  destruct r as [record|e]; [|vm_compute in Hres; discriminate Hres].
  destruct Hres as (Hl & Hv & _). exists t', record. split_and!; [exact Hr|exact Hl|exact Hv].
Defined.

(** The store has Alice's supersession; a bundle brings Bob's. *)
Definition with_supersession : sample_store := (add_edge (N := MemoryNode) sup_edge two_nodes).1.
Definition sup_contents : Contents MemoryNode := c_add_edge two_contents sup_edge.
Definition bob_sup : Edge := assert_edge bob (compute_id node_new) (compute_id node_old) Supersedes 9.

Lemma with_supersession_holds : holds with_supersession sup_contents.
Proof.
  destruct (add_edge_effect two_nodes two_contents sup_edge (proj1 two_nodes_holds)) as (s' & r & Hr & _ & Hres).
  unfold with_supersession. rewrite Hr. destruct r; [by destruct Hres|]. destruct Hres as [_ Hs]. vm_compute in Hs; discriminate Hs.
Qed.

Lemma bob_sup_applies : sup_step sup_contents bob_sup (Ok {| transitioned := true |}) (c_supersede sup_contents bob_sup node_old).
Proof.
  assert (c_edges sup_contents = {[edge_ident sup_edge := sup_edge]}) as Hed by reflexivity.
  change true with (bool_decide (n_status node_old = Active)). apply sup_applied.
  - split_and!; [reflexivity|reflexivity|]. intros E. apply old_ne_new. symmetry. exact E.
  - vm_compute. reflexivity.
  - assert (c_nodes sup_contents = <[compute_id node_new := node_new]> {[compute_id node_old := node_old]}) as -> by reflexivity.
    change (e_to bob_sup) with (compute_id node_old).
    rewrite lookup_insert_ne by (intros E; apply old_ne_new; symmetry; exact E). apply lookup_singleton_eq.
  - intros [_ E]. discriminate E.
  - intros Hr. destruct (rtc_inv _ _ Hr) as [E|(y & Hh & _)]; [exact (old_ne_new E)|].
    unfold c_hop in Hh. rewrite Hed in Hh. destruct Hh as [e He]. apply lookup_singleton_Some in He as [He _].
    apply (f_equal (λ x, x.1.1)) in He. apply old_ne_new. symmetry. exact He.
Qed.

Lemma supersession_merge_overwrites_witness :
  ∃ t' out' c', merge_one_supersession outcome_default bob_sup with_supersession = (t', Ok out') ∧ ms_holds t' c' ∧
                c_edges c' !! edge_ident bob_sup = Some bob_sup.
Proof.
  apply (supersession_merge_overwrites with_supersession sup_contents sup_edge bob_sup {| transitioned := true |}
           (c_supersede sup_contents bob_sup node_old) outcome_default).
  - exact with_supersession_holds.
  - reflexivity.
  - reflexivity.
  - vm_compute. reflexivity.
  - exact bob_sup_applies.
Defined.

(** ** Reads *)


Lemma storyline_canonical_witness :
  ∃ all r res L, ms_all_nodes two_nodes = Ok all ∧ canonical_reachable two_nodes "r" all = Ok r ∧
    storyline recall_default two_nodes "r" 1 = Ok res ∧ StronglySorted (key_lt newest_key) L ∧
    (∀ n, n ∈ L ↔ canonical_content two_contents "r" r n) ∧
    rr_items res = (λ n, from_node n None) <$> take 1 L ∧ rr_total_in_tenant res = length L.
Proof. exact (storyline_canonical recall_default two_nodes two_contents "r" 1 two_nodes_ms_holds eq_refl). Defined.

(** The snapshot at time 9, before and after Alice's node is superseded at 7 *)
Definition snapshot := as_of (with_asserted recall_default true) two_nodes "r" 9 10.

Lemma snapshot_total res : snapshot = Ok res → (rr_total_in_tenant res ≤ 10)%nat.
Proof.
  assert (match snapshot with Ok r => (rr_total_in_tenant r <=? 10)%nat | Err _ => true end = true) as Hb by (vm_compute; reflexivity).
  intros Hres. rewrite Hres in Hb. by apply Nat.leb_le.
Qed.

Lemma as_of_supersession_witness :
  ∃ res', as_of (with_asserted recall_default true) superseded_store "r" 9 10 = Ok res' ∧
          compute_id node_old ∉ ri_id <$> rr_items res'.
Proof.
  destruct (as_of_supersession (with_asserted recall_default true) two_nodes two_contents sup_edge superseded_store "r" 9 10)
    as (target & res & res' & Htg & _ & Hres' & _ & Hx).
  - exact two_nodes_ms_holds.
  - unfold superseded_store. cbn [ms_apply_supersession dag_store]. rewrite (surjective_pairing (apply_supersession _ _)) at 1.
    f_equal; vm_compute; reflexivity.
  - intros n Hn. destruct (proj1 (two_lookup _ _ Hn)) as [-> | ->]; vm_compute; reflexivity.
  - exact snapshot_total.
  - exists res'. split; [exact Hres'|]. intros Hin. apply Hx in Hin as [_ Hlt]. specialize (Hlt eq_refl).
    destruct (proj1 (two_lookup _ _ Htg)) as [-> | ->]; vm_compute in Hlt; discriminate Hlt.
Defined.

Lemma neighbors_readable_confined_witness :
  ∃ outs ins items, lists_edges sup_contents (λ e, e_from e = compute_id node_new) outs ∧
    lists_edges sup_contents (λ e, e_to e = compute_id node_new) ins ∧
    neighbors_readable with_supersession (compute_id node_new) 3 (λ r, bool_decide (r = "r")) = Ok items ∧
    items = take 3 (omap (show sup_contents (λ r, bool_decide (r = "r")))
              (((λ e, (e_to e, e, Out)) <$> outs) ++ ((λ e, (e_from e, e, In_)) <$> ins))) ∧
    ∀ i n, i ∈ items → ni_node i = Some n → bool_decide (ri_repo n = "r") = true.
Proof.
  exact (neighbors_readable_confined with_supersession sup_contents (compute_id node_new) 3 (λ r, bool_decide (r = "r"))
           with_supersession_holds).
Defined.

Lemma trustworthy_iff_witness :
  ∃ v, verify_where two_nodes (compute_id node_new) (λ _, true) = Ok (Some v) ∧ is_trustworthy v = true.
Proof.
  destruct (trustworthy_iff two_nodes two_contents (compute_id node_new) node_new (λ _, true)) as (v & Hv & Ht).
  - exact two_nodes_ms_holds.
  - unfold two_contents, c_put_node. cbn [c_nodes]. apply lookup_insert_eq.
  - exists v. split; [exact Hv|]. apply Ht. split; [right; vm_compute; reflexivity|]. split; [vm_compute; reflexivity|].
    split; [intros Hb; apply list_elem_of_singleton in Hb; discriminate Hb|].
    intros (x & k & e & _ & He & _). vm_compute in He. destruct x. discriminate He.
Defined.
