(* ===== verification/WitnessRead.v ===== *)
(** * Parsers, indexes and search at concrete inputs

    Instances of the character tables, the float and sort parameters, and the theorems on
    the commit parsers, the vector indexes and the search path on them. *)

From S2P Require Import Prelude Bytes Externs Text Str Belnap Identity Node Float Edge Trailers Frontmatter Index Hnsw HnswProps Grant AuditLog Kv.
From S2P Require Import Shred Store StoreContents StoreInterface Assert Sync SyncAnchor Query QueryProps Search SearchProps Sample Witness StoreSpec Supersession Display Chunk McpRender.
From S2P Require Import Mcp McpProps McpWrites.

(** ASCII stands in for the Unicode tables. *)
#[export] Instance sample_unicode : Unicode := {|
  is_alphanumeric c := (0x30 <=? c) && (c <=? 0x39) || (0x41 <=? c) && (c <=? 0x5a) || (0x61 <=? c) && (c <=? 0x7a);
  to_lowercase s := string_of_bytes (lower_byte <$> as_bytes s);
|}.
#[export] Instance sample_nan : FloatNan := plain_nan.
#[export] Instance sample_sort : SliceSort := λ A f l, Some l.
#[export] Instance sample_ln : Ln := λ x, x.

(** ** Parsers *)

Definition sample_trailers : list Trailer :=
  [{| tr_key := as_bytes "Refs"; tr_value := as_bytes "WP-1.2" |}; {| tr_key := as_bytes "Signed-off-by"; tr_value := as_bytes "Alice" |}].

Lemma parse_trailers_roundtrip_witness :
  parse_trailers (as_bytes "subject: not a trailer" ++ paragraph_break ++ render_trailers sample_trailers) = sample_trailers.
Proof.
  apply parse_trailers_roundtrip; [discriminate|].
  apply Forall_cons; split; [|apply Forall_singleton].
  all: split; [split; [do 2 eexists; split; [reflexivity|reflexivity]|reflexivity]|].
  all: split; [discriminate|]; split; [vm_compute; repeat constructor|].
  all: split; intros Hin; vm_compute in Hin; repeat (apply elem_of_cons in Hin as [E|Hin]; [discriminate E|]); by apply not_elem_of_nil in Hin.
Defined.

Lemma days_from_civil_counts_witness : days_from_civil 2024 3 1 = days_from_civil 2024 2 29 + 1.
Proof.
  assert (valid_date 2024 2 29) as Hd by (vm_compute; repeat split; discriminate).
  assert (year_fits 2024 ∧ year_fits 2025) as [Hy Hy1] by (split; vm_compute; repeat split; discriminate).
  exact (proj2 (proj2 (days_from_civil_counts 2024 2 29 Hy Hy1 Hd))).
Defined.

(** ** The graph index *)

Definition vec (x y : Z) : VersionedVector := {| vv_model := "m"; vv_data := [spec_bits (f32_of_nat (Z.to_nat x)); spec_bits (f32_of_nat (Z.to_nat y))] |}.
Definition offered : list (ContentHash * VersionedVector) :=
  [(blake3 (as_bytes "a"), vec 1 0); (blake3 (as_bytes "b"), vec 3 4);
   (blake3 (as_bytes "c"), {| vv_model := "other"; vv_data := [] |}); (blake3 (as_bytes "d"), vec 0 2)].
Lemma offered_fits : Z.of_nat (length offered) ≤ 2 ^ 32.
Proof. vm_compute. discriminate. Qed.


Lemma offered_builds : ∃ self, hx_build offered = Some self ∧ hx_check self (vec 1 1) = Ok tt ∧ length (hx_nodes self) = 3%nat.
Proof.
  assert (match hx_build offered with
          | Some self => is_ok (hx_check self (vec 1 1)) && bool_decide (length (hx_nodes self) = 3%nat)
          | None => false
          end = true) as Hb by (vm_compute; reflexivity).
  destruct (hx_build offered) as [self|]; [|discriminate Hb]. exists self. apply andb_true_iff in Hb as [H1' H2'].
  split; [done|]. split; [|exact (bool_decide_eq_true_1 _ H2')]. by destruct (hx_check self (vec 1 1)) as [[]|].
Qed.

Lemma hnsw_search_answers_witness : ∃ self hits, hx_build offered = Some self ∧ hx_search self (vec 1 1) 2 = Some (Ok hits) ∧ hits ≠ [].
Proof.
  destruct offered_builds as (self & Hb & Hq & Hn).
  destruct (hnsw_search_answers offered self (vec 1 1) 2 offered_fits Hb Hq) as (hits & Hs & _ & _ & _ & _ & Hne).
  exists self, hits. split; [exact Hb|]. split; [exact Hs|]. apply Hne; [|lia]. intros E. rewrite E in Hn. discriminate Hn.
Defined.

(** ** Search *)

Definition hashing : Embedder := HashingEmbedder_new 8.
Definition question : VersionedVector := default (vec 0 0) (rok (em_embed hashing "old")).

Lemma search_brute_exact_witness :
  ∃ res, search_brute recall_default hashing two_nodes "r" "old" 5 = Some (Ok res) ∧ rr_items res = [].
Proof.
  destruct (search_brute_exact recall_default hashing two_nodes two_contents "r" "old" 5 question two_nodes_ms_holds)
    as (nodes & m & res & Hscan & Hres & _ & Hin & Hcase).
  - vm_compute. reflexivity.
  - intros n Hn. destruct (proj1 (two_lookup _ _ Hn)) as [-> | ->]; vm_compute; reflexivity.
  - exists res. split; [exact Hres|]. destruct Hcase as [(_ & Hs & _)|[_ Hr]]; [|exact Hr].
    assert (tenant_space nodes = None) as E; [|rewrite E in Hs; discriminate Hs].
    clear -Hin. induction nodes as [|n nodes IH]; [reflexivity|].
    assert (n_embedding n = None) as Hn.
    { destruct (Hin n) as [Hl _]; [by left|]. destruct (proj1 (two_lookup _ _ Hl)) as [-> | ->]; reflexivity. }
    unfold tenant_space, node_space in *. simpl. rewrite Hn. apply IH. intros x Hx. apply Hin. by right.
Defined.

Lemma search_cached_transparent_witness :
  ∃ cache', run_searches recall_default hashing TenantIndexCache_new two_nodes [("r", "old", 2%nat); ("r", "new", 1%nat)] =
      (cache', (λ q : request, (search_cached recall_default hashing TenantIndexCache_new two_nodes q.1.1 q.1.2 q.2).2)
                 <$> [("r", "old", 2%nat); ("r", "new", 1%nat)]) ∧
    tc_builds cache' = 1 ∧ tc_hits cache' = 1.
Proof.
  destruct (search_cached_transparent recall_default hashing two_nodes two_contents [("r", "old", 2%nat); ("r", "new", 1%nat)]
              two_nodes_ms_holds) as (cache' & Hr & Hb & Hh).
  - vm_compute. discriminate.
  - reflexivity.
  - reflexivity.
  - exists cache'. split; [exact Hr|]. assert (tc_builds cache' = 1) as E by (rewrite Hb; vm_compute; reflexivity).
    split; [exact E|]. rewrite E in Hh. simpl in Hh. lia.
Defined.

Lemma analogies_confined_witness :
  ∃ out, analogies two_nodes (compute_id node_old) ["r"; "s"] 3 = Ok out ∧ ∀ a, a ∈ out → False.
Proof.
  assert (c_nodes two_contents !! compute_id node_old = Some node_old) as Ha.
  { unfold two_contents, c_put_node. cbn [c_nodes]. rewrite lookup_insert_ne by (intros E; exact (old_ne_new (eq_sym E))).
    apply lookup_insert_eq. }
  destruct (analogies_confined two_nodes two_contents (compute_id node_old) node_old ["r"; "s"] 3 two_nodes_ms_holds Ha)
    as (out & asig & Ho & _ & _ & _ & Hin & _).
  exists out. split; [exact Ho|]. intros a Hx. destruct (Hin a Hx) as (n & v & av & E & _). discriminate E.
Defined.

(** * The MCP server at concrete inputs

    A session of Alice on the sample store, with a stand-in for the JSON reader that knows
    a few requests, and the theorems on the server on it. *)

#[export] Instance sample_chars : CharTables := {| wide_printable _ := false; grapheme_extend _ := false |}.

(** A grant the session's issuer made for reading only, and one made by Bob himself *)
Definition read_only : CapabilityGrant :=
  sign_with {| g_id := "g2"; g_issuer := "root"; g_recipient := "peer";
               g_allowed_resources := [{| resource_id := "repo:r/memory"; Grant.can_read := true; can_write := false |}];
               g_policy := Operator; g_expires_at_ms := 1000; g_revoked := false; g_delegation_chain := [];
               g_issuer_pubkey := []; g_signature := [] |} (le_array 32 99).
Definition self_made : CapabilityGrant := sign_with read_only (le_array 32 22).

Definition call_line (name : string) (args : list (string * string)) (meta : Value) : Value :=
  obj [("id", jnat 1); ("method", JString "tools/call");
       ("params", obj [("name", JString name); ("arguments", obj ((λ p, (p.1, JString p.2)) <$> args)); ("_meta", meta)])].
Definition assert_args : list (string * string) := [("repo", "r"); ("content", "fresh")].
#[export] Instance sample_json : SerdeJson := {|
  json_from_str s :=
    if bool_decide (s = "assert") then Ok (call_line "memory.assert" assert_args JNull)
    else if bool_decide (s = "assert, read only")
    then Ok (call_line "memory.assert" assert_args (obj [(GRANT_META_KEY, JString "read only")]))
    else if bool_decide (s = "assert, self made")
    then Ok (call_line "memory.assert" assert_args (obj [(GRANT_META_KEY, JString "self made")]))
    else Err "expected value";
  json_to_string v := match v with JString s => s | _ => "{}" end;
|}.
#[export] Instance grant_json : FromJson CapabilityGrant := {|
  from_json_str _ := Err "expected value";
  from_value v := match as_str v with
                  | Some s => if bool_decide (s = "read only") then Ok read_only
                              else if bool_decide (s = "self made") then Ok self_made else Err "expected grant"
                  | None => Err "expected grant"
                  end;
|}.
#[export] Instance diff_json : FromJson MemoryDiff := {|
  from_json_str s := if bool_decide (s = "bob") then Ok bob_diff else Err "expected diff";
  from_value _ := Err "expected diff";
|}.

Definition clock (_ : nat) : Timestamp := 8.
Definition filter_clock (_ : nat) (_ : string) : Timestamp := 8.
Definition fs (_ : nat) : IoOracle := no_fault.

Abbreviation sample_server := (MemoryMcpServer (T := sample_store)).
Definition session (t : sample_store) : sample_server := MemoryMcpServer_new t sample_grant (Some alice).
Lemma session_idle t : idle (session t).
Proof. by split. Qed.

(** Under the session's own grant the node is written, under a read-only attenuation the
    write is denied. *)
Definition plain_run := handle_line clock filter_clock fs (session two_nodes) "assert".
Definition narrow_run := handle_line clock filter_clock fs (session two_nodes) "assert, read only".


Lemma handle_lines_scoped_witness :
  idle (handle_lines clock filter_clock fs (session two_nodes) ["assert, read only"; "junk"; "assert"]).1.
Proof.
  pose proof (handle_lines_scoped clock filter_clock fs (session two_nodes) ["assert, read only"; "junk"; "assert"]
                (session_idle two_nodes)) as Hh.
  destruct (handle_lines _ _ _ _ _) as [s' os] eqn:E. destruct Hh as [Hi _]. refine (proj1 (Hi _)).
  change os with (s', os).2. rewrite <-E. vm_compute. reflexivity.
Defined.

Lemma meta_grant_refused_witness :
  ∃ msg, handle_line clock filter_clock fs (session two_nodes) "assert, self made" =
           (session two_nodes, Some (Some (err_response (jnat 1) GRANT_REJECTED msg))).
Proof.
  destruct (meta_grant_refused clock filter_clock fs (session two_nodes) "assert, self made" (JString "self made")
              (session_idle two_nodes)) as (code & msg & -> & Hh).
  - vm_compute. reflexivity.
  - right. left. intros E. vm_compute in E. discriminate E.
  - exists msg. exact Hh.
Defined.

Definition merge_args : Value := obj [("diff", JString "bob")].
Definition bob_session : sample_server := MemoryMcpServer_new two_nodes sample_grant (Some bob).
Definition merge_run := call_merge_diff clock fs merge_args bob_session.

Lemma merge_diff_authorizes_witness :
  ∃ rs, extends bob_session merge_run.1 rs ∧ ∃ x, x ∈ rs ∧ event x = EvWrite ∧ ar_resource_id x = memory_resource "r".
Proof.
  destruct (merge_diff_authorizes clock fs merge_args bob_session merge_run.1 merge_run.2 (surjective_pairing _))
    as (j & diff & rs & Hj & Hd & Hx & Hn & _).
  - intros E. assert (ms_node_count (sv_store merge_run.1) = Ok 3%nat) as Hc by (vm_compute; reflexivity).
    rewrite E in Hc. vm_compute in Hc. discriminate Hc.
  - exists rs. split; [exact Hx|]. vm_compute in Hj. injection Hj as <-. vm_compute in Hd. injection Hd as <-.
    destruct (Hn node_bob) as (x & Hin & He & Hr & _); [by left|]. exists x. split_and!; [exact Hin|exact He|exact Hr].
Defined.

Lemma session_may_write t : may_write clock fs (session t) "r".
Proof. split; [reflexivity|vm_compute; reflexivity|intros det; reflexivity|discriminate]. Qed.

Definition json_reprb (n : MemoryNode) : bool := match n_embedding n with Some v => forallb f32_is_finite (vv_data v) | None => true end.
Lemma json_reprb_sound n : json_reprb n = true → json_repr n.
Proof.
  unfold json_reprb, json_repr, MemoryNode_json. destruct (n_embedding n) as [v|]; [|done].
  rewrite forallb_forall, Forall_forall. intros Hv x Hx. apply Hv. by apply list_elem_of_In.
Qed.

Lemma assert_succeeds_witness :
  ∃ s' text c', call_assert clock fs (obj ((λ p, (p.1, JString p.2)) <$> assert_args)) (session two_nodes) = (s', Ok (tool_text text)) ∧
    ms_holds (sv_store s') c' ∧ size (c_nodes c') = 3%nat.
Proof.
  destruct (assert_succeeds clock fs (obj ((λ p, (p.1, JString p.2)) <$> assert_args)) (session two_nodes) two_contents
              (le_array 32 11) "r" "fresh") as (s' & text & rec & Hc & Hh & _).
  - reflexivity.
  - vm_compute. reflexivity.
  - vm_compute. reflexivity.
  - exact (session_may_write two_nodes).
  - exact two_nodes_ms_holds.
  - reflexivity.
  - apply json_reprb_sound. vm_compute. reflexivity.
  - exists s', text. eexists. split; [exact Hc|]. split; [exact Hh|]. vm_compute. reflexivity.
Defined.

(** Another tenant's node does not change how a prefix resolves. *)
Definition node_other : MemoryNode := assert_node bob "s" Rationale "hidden" 5.
Definition three_nodes : sample_store := (put_node node_other two_nodes).1.
Lemma three_nodes_holds : ms_holds three_nodes (c_put_node two_contents node_other).
Proof. exact (proj1 (put_plain_holds two_nodes two_contents node_other eq_refl (proj1 two_nodes_holds) I)). Qed.

Lemma resolve_readable_blind_witness :
  (resolve_readable filter_clock "" (session two_nodes)).2 = (resolve_readable filter_clock "" (session three_nodes)).2.
Proof.
  destruct (resolve_readable_blind filter_clock "" (session two_nodes) (session three_nodes) two_contents
              (c_put_node two_contents node_other)) as (o & H1' & H2' & _).
  - exact two_nodes_ms_holds.
  - exact three_nodes_holds.
  - by split_and!.
  - reflexivity.
  - intros i n Hn. unfold c_put_node. cbn [c_nodes]. rewrite lookup_insert. case_decide as E; [|reflexivity]. subst i.
    assert (c_nodes two_contents !! compute_id node_other = None) as Hno by (vm_compute; reflexivity).
    split; intros Hl.
    + change (node_id node_other) with (compute_id node_other) in Hl. rewrite Hno in Hl. discriminate Hl.
    + injection Hl as <-. vm_compute in Hn. discriminate Hn.
  - rewrite H1', H2'. reflexivity.
Defined.

(** Bob proposes to retire Alice's node; Alice, its author, may confirm. *)
Definition bob_proposal : Edge := propose_edge bob (compute_id node_new) (compute_id node_old) Supersedes Nlp None 7.
Definition proposed : sample_store := (add_edge (N := MemoryNode) bob_proposal two_nodes).1.
Definition proposed_contents : Contents MemoryNode := c_put_edge two_contents bob_proposal.
Lemma proposed_holds : holds proposed proposed_contents.
Proof.
  destruct (add_edge_effect two_nodes two_contents bob_proposal (proj1 two_nodes_holds)) as (s' & r & Hr & _ & Hres).
  unfold proposed. rewrite Hr. destruct r; [by destruct Hres|]. destruct Hres as [_ Hs]. vm_compute in Hs; discriminate Hs.
Qed.
Lemma proposed_edge i e : c_edges proposed_contents !! i = Some e ↔ i = edge_ident bob_proposal ∧ e = bob_proposal.
Proof.
  change (c_edges proposed_contents) with ({[edge_ident bob_proposal := bob_proposal]} : gmap ident Edge).
  rewrite lookup_singleton_Some. naive_solver.
Qed.

Definition confirm_args : Value :=
  obj [("from_prefix", JString (to_hex (compute_id node_new))); ("to_prefix", JString (to_hex (compute_id node_old))); ("kind", JString "supersedes")].
Definition confirm_run := call_confirm_edge clock filter_clock fs confirm_args (session proposed).

Lemma confirm_needs_second_party_witness :
  second_party proposed_contents (Some (pubkey_hex alice)) (n_author node_old) bob_proposal ∧
  ∃ c' x now, confirm_step proposed_contents (edge_ident bob_proposal) now (Ok x) c' ∧ ms_holds (sv_store confirm_run.1) c'.
Proof.
  destruct (confirm_needs_second_party clock filter_clock fs confirm_args (session proposed) confirm_run.1 confirm_run.2
              proposed_contents) as (f & t & k & n & p & now & Hp & _ & Hn & (c' & x & Hst & Hh) & Hsp).
  - exact proposed_holds.
  - exact (surjective_pairing _).
  - intros Hh. destruct (ms_out_edges_ok _ _ (compute_id node_new) Hh) as (outs & Ho & _ & Hl).
    assert (match ms_out_edges (sv_store confirm_run.1) (compute_id node_new) with Ok [e] => negb (e_quarantined e) | _ => false end = true)
      as Hq by (vm_compute; reflexivity).
    rewrite Ho in Hq. destruct outs as [|e [|]]; try discriminate Hq. destruct (proj1 (Hl e)) as [Hin _]; [by left|].
    apply proposed_edge in Hin as [_ ->]. discriminate Hq.
  - apply proposed_edge in Hp as [E ->]. injection E as -> -> ->. split; [|exists c', x, now; split; [exact Hst|exact Hh]].
    destruct (two_lookup _ _ Hn) as [[-> | ->] Hi]; [destruct (old_ne_new (eq_sym Hi))|]. exact (Hsp eq_refl).
Defined.
