(* ===== verification/WitnessIngest.v ===== *)
(** * Ingestion at concrete inputs

    A repository of two commits, one branch and one document, as a table of what git
    prints, and the theorems on ingestion on it. *)

From S2P Require Import Prelude Bytes Externs Text Str Belnap Identity Node Float Edge Trailers Frontmatter Index.
From S2P Require Import Kv Shred Store StoreSpec StoreContents Supersession StoreInterface Assert Query QueryProps Search Display Git Docs Ingest IngestBuild IngestProps.
From S2P Require Import Sample Witness WitnessRead.

#[export] Instance sample_watermark_laws : WatermarkSerdeLaws (T := sample_store).
Proof. intros w. eexists. split; [done|]. split; [apply codec_round|]. by apply other_tag_no_envelope. Qed.

Definition sha (c : ascii) : string := string_of_bytes (replicate 40 (byte_of_ascii c)).
Definition wp_retired : CommitRecord :=
  {| cr_sha := sha "a"; cr_parents := []; cr_author := "Ann"; cr_time_secs := 5; cr_subject := "plan";
     cr_body := "why" +:+ eol +:+ eol +:+ "Agentile-Supersedes: WP-1" +:+ eol |}.
Definition wp_used : CommitRecord :=
  {| cr_sha := sha "b"; cr_parents := [sha "a"]; cr_author := "Bob"; cr_time_secs := 6; cr_subject := "code";
     cr_body := "how" +:+ eol +:+ eol +:+ "Agentile-Implements: WP-1" +:+ eol |}.
Definition topic_work : CommitRecord :=
  {| cr_sha := sha "c"; cr_parents := [sha "b"]; cr_author := "Eve"; cr_time_secs := 7; cr_subject := "topic";
     cr_body := "Agentile-Supersedes: WP-1" +:+ eol |}.

Definition prints (out : bytes) : result string Output := Ok {| o_success := true; o_stdout := out; o_stderr := [] |}.
Definition line (s : string) : bytes := as_bytes s ++ [newline].
Definition log_args (range : list string) : list string := ["-C"; "/w"; "log"; "--reverse"; "--no-color"; commit_pretty] ++ range.
#[export] Instance sample_git : Git := λ args,
  if bool_decide (args = ["-C"; "/w/sub"; "rev-parse"; "--show-toplevel"]) then prints (line "/w")
  else if bool_decide (args = log_args []) then prints (render_log [wp_retired; wp_used])
  else if bool_decide (args = log_args [sha "a" +:+ "..HEAD"]) then prints (render_log [wp_used])
  else if bool_decide (args = log_args ["origin/main.." +:+ sha "c"]) then prints (render_log [topic_work])
  else if bool_decide (args = ["-C"; "/w"; "rev-parse"; "--abbrev-ref"; "origin/HEAD"]) then prints (line "origin/main")
  else if bool_decide (args = ["-C"; "/w"; "rev-parse"; "HEAD"]) then prints (line (sha "b"))
  else if bool_decide (args = ["-C"; "/w"; "rev-list"; "--count"; "HEAD"]) then prints (line "2")
  else if bool_decide (args = ["-C"; "/w"; "merge-base"; "--is-ancestor"; sha "a"; "HEAD"]) then prints []
  else if bool_decide (args = ["-C"; "/w"; "for-each-ref"; "--format=%(refname)" +:+ us +:+ "%(objectname)"; REMOTE_PREFIX])
  then prints (line ("refs/remotes/origin/main" +:+ us +:+ sha "b") ++ line ("refs/remotes/origin/topic" +:+ us +:+ sha "c"))
  else if bool_decide (args = ["-C"; "/w"; "ls-files"; "--"; "*.md"]) then prints (line "docs/a.md")
  else if bool_decide (args = ["-C"; "/w"; "ls-files"; "-s"; "--"; "*.md"])
  then prints (as_bytes ("100644 " +:+ sha "d" +:+ " 0") ++ [tab] ++ line "docs/a.md")
  else Ok {| o_success := false; o_stdout := []; o_stderr := as_bytes "fatal" |}.
#[export] Instance sample_worktree : Worktree := {|
  symlink_metadata p := if bool_decide (p = "/w/docs/a.md") then Some (true, 8) else None;
  canonicalize p := Some (string_of_bytes <$> split slash (as_bytes p));
  read_take _ n := if n <? 0 then None else Some (take (Z.to_nat n) (as_bytes "# A note"));
|}.
#[export] Instance sample_worktree_laws : WorktreeLaws.
Proof.
  intros p n b. unfold read_take, sample_worktree. destruct (Z.ltb_spec n 0); [done|]. intros [= <-].
  rewrite length_take. lia.
Qed.

(** An embedder that answers every text with the same point, and two that disagree *)
Definition constant (model : string) (v : list f32) : Embedder :=
  {| em_model_id := model; em_dim := length v; em_embed _ := Ok {| vv_model := model; vv_data := v |} |}.
Definition point : list f32 := [spec_bits (f32_of_nat 1)].
Lemma constant_total model : total_embedder (constant model point).
Proof. intros text. eexists. split; [done|]. cbn. by repeat constructor. Qed.

Definition by_ann : Ingestor := with_authoritative_authors (with_embedder "r" (constant "m" point)) ["Ann"].
Definition by_ann2 : Ingestor := with_authoritative_authors (with_embedder "r" (constant "other" [])) ["Ann"].
Definition history : list CommitRecord := [wp_retired; wp_used].

Lemma sample_repository : repository "/w/sub" "/w" history.
Proof. split; vm_compute; reflexivity. Qed.
Lemma sample_branches : branches_of "/w/sub" "/w" "origin/main" [{| br_name := "topic"; br_tip := sha "c" |}].
Proof. split; vm_compute; reflexivity. Qed.
Lemma sample_logs : logs_of "/w" "origin/main" (λ _, [topic_work]) [{| br_name := "topic"; br_tip := sha "c" |}].
Proof. apply Forall_singleton. vm_compute. reflexivity. Qed.

(** ** The log *)

Lemma history_ok : Forall record_ok history.
Proof.
  assert (∀ l x, bool_decide (x ∈ l) = false → x ∉ (l : bytes)) as Hn by (intros l x; apply bool_decide_eq_false_1).
  apply Forall_cons; split; [|apply Forall_singleton]; split.
  all: try (apply Hn; vm_compute; reflexivity).
  all: try (split; apply Hn; vm_compute; reflexivity).
  all: try (vm_compute; reflexivity).
  all: try (vm_compute; split; discriminate).
  - by apply Forall_nil.
  - apply Forall_singleton. vm_compute. reflexivity.
Qed.
Lemma parse_commit_log_roundtrip_witness : parse_commit_log (string_of_bytes (render_log history)) = Ok history.
Proof. apply parse_commit_log_roundtrip. exact history_ok. Defined.

Lemma parse_commit_log_complete_witness :
  length (filter (λ f, ¬ trim (trim_start_matches (λ c, c =? 10) f) = []) (split NUL (render_log history))) = 2%nat.
Proof.
  assert (parse_commit_log (string_of_bytes (render_log history)) = Ok history) as Hp by (vm_compute; reflexivity).
  pose proof (Forall2_length _ _ _ (parse_commit_log_complete _ _ Hp)) as Hl. rewrite as_bytes_of_bytes in Hl. exact Hl.
Defined.

(** ** Runs *)

Lemma derive_deterministic_witness :
  match derive by_ann 10 "/w" history (empty_store false), derive by_ann2 20 "/w" history two_nodes with
  | Ok (ns1, es1, _), Ok (ns2, es2, _) => compute_id <$> ns1 = compute_id <$> ns2 ∧ erase_edge <$> es1 = erase_edge <$> es2
  | _, _ => False
  end.
Proof.
  assert (is_ok (derive by_ann 10 "/w" history (empty_store false)) = true) as H1' by (vm_compute; reflexivity).
  assert (is_ok (derive by_ann2 20 "/w" history two_nodes) = true) as H2' by (vm_compute; reflexivity).
  destruct (derive by_ann 10 "/w" history (empty_store false)) as [[[ns1 es1] d1]|] eqn:E1; [|discriminate H1'].
  destruct (derive by_ann2 20 "/w" history two_nodes) as [[[ns2 es2] d2]|] eqn:E2; [|discriminate H2'].
  destruct (derive_deterministic by_ann by_ann2 10 20 "/w" history _ _ ns1 es1 d1 ns2 es2 d2 eq_refl eq_refl E1 E2) as (Hn & _ & He & _).
  split; [exact Hn|exact He].
Defined.

Lemma ingest_idempotent_witness :
  ∃ t1 rep1 t2 rep2, ingest by_ann 10 "/w/sub" two_nodes = (t1, Ok rep1) ∧ ingest by_ann 20 "/w/sub" t1 = (t2, Ok rep2) ∧
    ir_nodes_in_store rep2 = ir_nodes_in_store rep1.
Proof.
  destruct (ingest_idempotent by_ann 10 20 "/w/sub" "/w" history two_nodes two_contents two_nodes_ms_holds (proj2 two_nodes_holds)
              (constant_total "m") sample_repository) as (t1 & rep1 & c1 & t2 & rep2 & c2 & ns & es & d & H1' & _ & _ & _ & _ & _ & _ & H2' & _ & _ & _ & _ & _ & Hc).
  exists t1, rep1, t2, rep2. split; [exact H1'|]. split; [exact H2'|exact Hc].
Defined.

(** Ann's trailer retires the placeholder of WP-1; the same history retires nothing when nobody is trusted. *)
Definition by_nobody : Ingestor := with_embedder "r" (constant "m" point).

Lemma reap_branches_live_witness :
  ∃ t' rep, reap_branches by_ann 30 "/w/sub" two_nodes = (t', Ok rep) ∧
    rp_archived rep = (rp_merged rep + rp_deleted rep + rp_advanced rep)%nat.
Proof.
  destruct (reap_branches_live by_ann 30 "/w/sub" "/w" "origin/main" _ two_nodes two_contents two_nodes_ms_holds (proj2 two_nodes_holds) sample_branches)
    as (t' & rep & c' & Hr & _ & _ & _ & _ & _ & Hb).
  exists t', rep. split; [exact Hr|exact Hb].
Defined.

Lemma ingest_branches_captures_witness :
  ∃ t' rep rep', ingest_branches by_ann 10 "/w/sub" two_nodes = (t', Ok rep) ∧
    ingest_branches by_ann 20 "/w/sub" t' = (t', Ok rep') ∧ bi_unchanged rep' = 1%nat.
Proof.
  destruct (ingest_branches_captures by_ann 10 20 "/w/sub" "/w" "origin/main" _ _ two_nodes two_contents two_nodes_ms_holds (proj2 two_nodes_holds)
              (constant_total "m") sample_branches sample_logs) as (t' & rep & c' & Hr & _ & _ & _ & _ & _ & _ & rep' & Hr' & _ & Hu).
  - apply NoDup_singleton.
  - exists t', rep, rep'. split; [exact Hr|]. split; [exact Hr'|exact Hu].
Defined.

(** ** A later commit revives what an earlier one retired *)

Definition status_after (t : sample_store) (slug : string) : option Status :=
  default None (rok (ms_get_node t (compute_id (ref_node "r" (as_bytes slug) 0)))) ≫= λ n, Some (n_status n).
(** A full run ends with WP-1 superseded; the incremental run that sees only the commit
    mentioning it writes the placeholder again, active, over the superseded one. *)
Definition full_run : sample_store := (ingest by_ann 10 "/w/sub" (empty_store false)).1.
Definition at_first_commit : sample_store :=
  (put_watermark by_ann (watermark_key "r") {| w_repo := "r"; w_head := Some (sha "a"); w_head_count := 1; w_ingested_at_ms := 11 |} full_run).1.
Example incremental_revives :
  status_after full_run "WP-1" = Some Superseded ∧
  (let '(t, r) := ingest_incremental by_ann 12 "/w/sub" at_first_commit in
   is_ok r = true ∧ status_after t "WP-1" = Some Active).
Proof. vm_compute. repeat split. Qed.
