(* ===== verification/WitnessGateway.v ===== *)
(** * The gateway at concrete inputs

    Stand-ins for the token, configuration, network and host parameters of the gateway, a
    gateway with two members and one allowlisted caller, and the theorems on it. *)

From S2P Require Import Prelude Bytes Externs Text Str Belnap Identity Node Float Edge Index Hnsw Grant AuditLog Kv Shred Store StoreSpec StoreContents.
From S2P Require Import Supersession StoreInterface Assert Sync SyncAnchor Query QueryProps Search Display Chunk SyncChain.
From S2P Require Import Git Docs Ingest Control GwAuth Scene Gateway GatewayProps GatewayGate McpRender Mcp GatewayRoutes GatewayRouteProps Worker.
From S2P Require Import Sample Witness WitnessRead WitnessIngest.

(** ** Instances *)

#[export] Instance OrgStatus_codec : Codec OrgStatus :=
  inj_codec (λ s, match s with OrgActive => true | Suspended => false end) (λ b : bool, Some (if b then OrgActive else Suspended)) ltac:(by intros []).
#[export] Instance Role_codec : Codec Role :=
  inj_codec (λ r, match r with OrgOwner => 0 | Admin => 1 | Member => 2 | Reader => 3 end)
    (λ z, match z with 0 => Some OrgOwner | 1 => Some Admin | 2 => Some Member | _ => Some Reader end) ltac:(by intros []).
#[export] Instance Scope_codec : Codec Scope :=
  inj_codec (λ s, (sc_resource_id s, sc_can_read s, sc_can_write s))
    (λ '(i, r, w), Some {| sc_resource_id := i; sc_can_read := r; sc_can_write := w |}) ltac:(by intros []).
#[export] Instance Org_codec : Codec Org :=
  inj_codec (λ o, (o_id o, o_name o, o_created_at_ms o, o_store_path o, o_status o))
    (λ '(i, n, c, p, s), Some {| o_id := i; o_name := n; o_created_at_ms := c; o_store_path := p; o_status := s |}) ltac:(by intros []).
#[export] Instance Membership_codec : Codec Membership :=
  inj_codec (λ m, (m_sub m, m_org m, m_role m, m_scopes m, m_parent m))
    (λ '(s, o, r, c, p), Some {| m_sub := s; m_org := o; m_role := r; m_scopes := c; m_parent := p |}) ltac:(by intros []).
#[export] Instance Control_codec : Codec Control :=
  inj_codec (λ c, (orgs c, memberships c)) (λ '(o, m), Some {| orgs := o; memberships := m |}) ltac:(by intros []).
#[export] Instance AllowEntry_codec : Codec AllowEntry :=
  inj_codec (λ e, (al_name e, al_email e, al_wallet e, al_role e, al_scopes e))
    (λ '(n, m, w, r, s), Some {| al_name := n; al_email := m; al_wallet := w; al_role := r; al_scopes := s |}) ltac:(by intros []).
#[export] Instance TeamAllowlist_codec : Codec TeamAllowlist := inj_codec members (λ l, Some {| members := l |}) ltac:(by intros []).
#[export] Instance MintClaims_codec : Codec MintClaims :=
  inj_codec (λ c, (mc_sub c, mc_exp c, mc_scope c, mc_tenants c, mc_org c))
    (λ '(s, e, c, t, o), Some {| mc_sub := s; mc_exp := e; mc_scope := c; mc_tenants := t; mc_org := o |}) ltac:(by intros []).
#[export] Instance ChainAnchorRecord_codec : Codec ChainAnchorRecord :=
  inj_codec (λ r, (car_anchor r, ck_chain_id (car_checkpoint r), ck_block_number (car_checkpoint r), ck_block_hash (car_checkpoint r), ck_fetched_at_ms (car_checkpoint r)))
    (λ '(a, i, n, h, f), Some {| car_anchor := a; car_checkpoint := {| ck_chain_id := i; ck_block_number := n; ck_block_hash := h; ck_fetched_at_ms := f |} |})
    ltac:(by intros [? []]).

(** Text: the hex digits of the codec's bytes *)
Definition code_text {A} `{Codec A} (a : A) : string := hex_enc (encode a).
Definition text_code {A} `{Codec A} (s : string) : result string A :=
  let? raw := hex_dec s in match decode raw with Some (a, []) => Ok a | _ => Err "expected value" end.
Lemma text_code_text {A} `{Codec A} (a : A) : text_code (code_text a) = Ok a.
Proof.
  unfold text_code, code_text. change (hex_dec (hex_enc ?b)) with (hex_decode (hex_encode b)). rewrite hex_decode_encode.
  cbn [rbind]. by rewrite <-(app_nil_r (encode a)), decode_encode.
Qed.
Lemma hex_enc_utf8 b : utf8_valid (as_bytes (hex_enc b)) = true.
Proof. apply ascii_utf8, Forall_forall. intros x Hx%hex_enc_ascii. lia. Qed.

#[export] Instance control_text : JsonText Control := {| to_string_pretty c := Ok (code_text c); from_text := text_code |}.
#[export] Instance allowlist_text : JsonText TeamAllowlist := {| to_string_pretty c := Ok (code_text c); from_text := text_code |}.
#[export] Instance control_text_laws : JsonTextLaws Control.
Proof. intros c s [= <-]. split; [apply text_code_text|apply hex_enc_utf8]. Qed.

(** A token carries its secret and its claims in the clear. *)
#[export] Instance sample_jwt : Jwt := {|
  DecodingKey := string;
  from_rsa_components n e := Ok (n +:+ e);
  decode_header _ := Ok None;
  decode_rs256 issuer audience now token key :=
    if bool_decide (token = key) then Ok {| cl_sub := "carol"; cl_email := Some "carol@team"; cl_email_verified := Some true; cl_wallet_address := None |}
    else Err "InvalidSignature";
  encode_hs256 secret c := Ok (code_text (secret, c));
  decode_hs256 secret now token :=
    let? x := text_code (A := string * MintClaims) token in
    if negb (bool_decide (x.1 = secret)) then Err "InvalidSignature"
    else if bool_decide (mc_exp x.2 + 60 < now) then Err "ExpiredSignature" else Ok (read_back x.2);
|}.
#[export] Instance sample_jwt_laws : JwtLaws.
Proof.
  split; cbn [encode_hs256 decode_hs256 sample_jwt]; intros secret c token now; [|intros d|]; intros [= <-]; rewrite text_code_text; cbn [rbind].
  - rewrite bool_decide_eq_true_2 by done. cbn. intros Hn. rewrite bool_decide_eq_false_2; [done|cbn; lia].
  - rewrite bool_decide_eq_true_2 by done. cbn. case_bool_decide; [done|]. by intros [= <-].
  - rewrite bool_decide_eq_true_2 by done. cbn. intros Hn. by rewrite bool_decide_eq_true_2.
Qed.

#[export] Instance sample_hash_order : HashOrder := λ A m, snd <$> map_to_list m.
#[export] Instance sample_env : Env := λ name,
  if bool_decide (name = "MEM_ALLOWED_OWNER") then Some "team"
  else if bool_decide (name = "MEM_INGEST_REPOS") then Some "alpha, ../beta,gamma" else None.
#[export] Instance sample_hmac : Hmac := λ k b, le_array 32 (checksum (k ++ b)).
#[export] Instance sample_trig : Trig := {| fcos x := x; fsin x := x |}.
#[export] Instance serde_chain : Serde ChainAnchorRecord := {| to_vec := codec_to_vec Byte.x43; from_slice := codec_from_slice Byte.x43 |}.
#[export] Instance sample_chain_laws : ChainSerdeLaws (T := sample_store).
Proof. intros r. eexists. split; [done|]. split; [apply codec_round|]. by apply other_tag_no_envelope. Qed.

(** An endpoint of chain 5 at block 16 *)
#[export] Instance sample_rpc : Rpc := λ url body,
  match jget body "method" with
  | Some (JString "eth_chainId") => Ok (Ok (obj [("result", JString "0x5")]))
  | Some (JString "eth_blockNumber") => Ok (Ok (obj [("result", JString "0x10")]))
  | _ => Ok (Ok (obj [("result", obj [("number", JString "0x10"); ("hash", JString "0xabc")])]))
  end.

(** ** A gateway *)

Definition gw_key : SigningKey := le_array 32 99.
Definition app : Config := {|
  cf_embedder := Some (constant "m" point); cf_signing_key := gw_key; cf_org_id := "acme"; cf_store_path := "/store";
  cf_chain_rpc := None; cf_issuer := "gw"; cf_oidc := None; cf_connect_secret := Some "secret"; cf_allow_dev_auth := true;
  cf_control_path := "/c/control.json"; cf_team_allowlist_path := Some "/c/team.json" |}.
Definition rw (r : string) : Scope := {| sc_resource_id := r; sc_can_read := true; sc_can_write := true |}.
Definition acme : Org := {| o_id := "acme"; o_name := "acme"; o_created_at_ms := 1; o_store_path := "/store"; o_status := OrgActive |}.
Definition writer : Membership := {| m_sub := "ann"; m_org := "acme"; m_role := Member; m_scopes := [rw "r"]; m_parent := None |}.
Definition team : TeamAllowlist :=
  {| members := [{| al_name := None; al_email := Some "Carol@team"; al_wallet := None; al_role := Reader; al_scopes := [rw "r"] |}] |}.
Definition gateway (t : sample_store) : Gw := {|
  gw_store := t; gw_index_cache := TenantIndexCache_new; gw_audit := AuditChain_new; gw_audit_disk := {| d_log := None; d_head := None; d_tmp := None |};
  gw_control := {| orgs := [acme]; memberships := [writer] |}; gw_files := {["/c/team.json" := as_bytes (code_text team)]};
  gw_layout_cache := None; gw_ingest_queue := []; gw_buckets := ∅; gw_inflight := ∅; gw_write_poisoned := false;
  gw_audit_poisoned := false; gw_step := 0 |}.
Definition as_ann : HeaderMap := λ h, if bool_decide (h = "x-dev-sub") then Some "ann" else None.
Definition readable (_ : nat) : option string := None.
Definition saves (_ : nat) : SaveIo := save_fine.

(** ** The gate *)

Abbreviation entry_run := (gate_with_grant clock fs readable saves app as_ann "acme" "repo:r/memory" Write "assert" (gateway two_nodes)).

Lemma gate_fail_closed_witness :
  is_ok entry_run.2 = true ∧ untouched (gateway two_nodes) entry_run.1 ∧ ∃ rs, records (gw_audit entry_run.1) = [] ++ rs.
Proof.
  destruct (gate_fail_closed clock fs readable saves app as_ann "acme" "repo:r/memory" Write "assert" (gateway two_nodes) entry_run.1 entry_run.2
              (surjective_pairing _)) as (Hu & Hr & _).
  split; [vm_compute; reflexivity|]. split; [exact Hu|exact Hr].
Defined.

Lemma gate_admits_witness :
  ∃ s', gate_with_grant clock fs readable saves app as_ann "acme" "repo:r/memory" Write "assert" (gateway two_nodes) =
        (s', Ok ("ann", mint_grant (gw_key) "gw" writer 8 GRANT_TTL_MS)).
Proof.
  apply (gate_admits clock fs readable saves app as_ann "acme" "repo:r/memory" Write "assert" (gateway two_nodes) (gateway two_nodes)
           (dev_principal "ann") writer acme).
  - reflexivity.
  - reflexivity.
  - vm_compute. reflexivity.
  - reflexivity.
  - vm_compute. reflexivity.
  - vm_compute. reflexivity.
  - vm_compute. split; [discriminate|reflexivity].
  - vm_compute. reflexivity.
Defined.

(** The control file cannot be written: the first request is refused, the next one passes. *)
Definition disk_full (_ : nat) : SaveIo := {| io_mkdir := None; io_write := Some ("no space left", Some 3%nat); io_rename := None |}.
Definition carol : Principal := {| pr_sub := "carol"; pr_email := Some "carol@TEAM "; pr_email_verified := true; pr_wallet_address := None |}.
Abbreviation refused := (gate_membership clock fs readable disk_full app carol "acme" "repo:r/memory" (gateway two_nodes)).

Lemma jit_unsaved_granted_witness :
  ∃ m, m_role m = Reader ∧ gate_membership clock fs readable disk_full app carol "acme" "repo:r/memory" refused.1 = (refused.1, Ok m).
Proof.
  assert (refused.2 = Err (forbidden "no membership in org")) as Hr by (vm_compute; reflexivity).
  destruct (jit_unsaved_granted clock fs readable disk_full app carol "acme" "repo:r/memory" "/c/team.json"
              {| al_name := None; al_email := Some "Carol@team"; al_wallet := None; al_role := Reader; al_scopes := [rw "r"] |}
              (gateway two_nodes) refused.1 acme) as (_ & m & Hm & Hg).
  - reflexivity.
  - vm_compute. reflexivity.
  - vm_compute. reflexivity.
  - vm_compute. reflexivity.
  - reflexivity.
  - vm_compute. reflexivity.
  - rewrite <- Hr. apply surjective_pairing.
  - exists m. split; [exact Hm|exact Hg].
Defined.

Lemma save_atomic_witness :
  load None "/c/control.json" (save (disk_full 0) (gw_control (gateway two_nodes)) "/c/control.json" ∅).1 = Ok control_default.
Proof.
  pose proof (save_atomic (disk_full 0) (gw_control (gateway two_nodes)) "/c/control.json" ∅ _ _ (surjective_pairing _)) as [Hl _].
  assert (is_ok (save (disk_full 0) (gw_control (gateway two_nodes)) "/c/control.json" ∅).2 = false) as Hf by (vm_compute; reflexivity).
  destruct (save (disk_full 0) _ _ _).2; [discriminate Hf|]. rewrite Hl. reflexivity.
Defined.

(** ** Grants, budgets and slots *)

Definition ann_grant : CapabilityGrant := mint_grant (gw_key) "gw" writer 8 GRANT_TTL_MS.
Definition read_claims : ConnectClaims := {| cc_sub := "ann"; cc_scope := Some "read"; cc_tenants := Some ["r"]; cc_org := Some "acme" |}.

Lemma attenuate_grant_intersection_witness :
  check ann_grant "repo:r/memory" Write 9 = Ok tt ∧ check (attenuate_grant ann_grant read_claims (gw_key) 8) "repo:r/memory" Write 9 ≠ Ok tt ∧
  check (attenuate_grant ann_grant read_claims (gw_key) 8) "repo:r/memory" Read 9 = Ok tt.
Proof.
  assert (verify_signature ann_grant = Ok tt) as Hs by (vm_compute; reflexivity).
  split; [vm_compute; reflexivity|]. split.
  - intros Hc. apply (attenuate_grant_intersection ann_grant read_claims (gw_key) 8 9 _ _ Hs) in Hc as [_ Hp]; [|lia].
    destruct Hp as [Hp _]. specialize (Hp eq_refl). vm_compute in Hp. discriminate Hp.
  - vm_compute. reflexivity.
Defined.

Lemma burst_bounded_witness : (spend_all ∅ "ann" 5 [32; 32; 32; 30; 3; 2]%nat).2 = [true; true; true; true; false; true].
Proof.
  pose proof (burst_bounded ∅ "ann" 5 [32; 32; 32; 30; 3; 2]%nat eq_refl) as Hb.
  assert (Forall (λ c, c ≤ BYOM_MAX_LINES)%nat [32; 32; 32; 30; 3; 2]%nat) as Hf by (apply (bool_decide_eq_true_1 _); vm_compute; reflexivity).
  specialize (Hb Hf). destruct (spend_all _ _ _ _) as [m' oks]. destruct Hb as (-> & _). vm_compute. reflexivity.
Defined.

Lemma slots_reachable_witness : slots_inv {| sl_inflight := {["ann" := 2%nat]}; sl_waiting := ["ann"]; sl_running := ["ann"] |}.
Proof.
  apply slots_reachable.
  eapply rtc_l; [apply (slot_enter ∅ {["ann" := 1%nat]} [] [] "ann"); vm_compute; reflexivity|].
  eapply rtc_l; [apply (slot_enter {["ann" := 1%nat]} {["ann" := 2%nat]} ["ann"] [] "ann"); vm_compute; reflexivity|].
  eapply rtc_l; [apply (slot_refuse {["ann" := 2%nat]} {["ann" := 2%nat]} ["ann"; "ann"] [] "ann"); vm_compute; reflexivity|].
  eapply rtc_l; [apply (slot_start {["ann" := 2%nat]} [] ["ann"] [] "ann"); vm_compute; lia|].
  apply rtc_refl.
Defined.

(** ** Checkpoints *)

Abbreviation submitted := (checkpoint_external_root "r" " 0xfeed " "http://rpc" 5 8 two_nodes).

Lemma checkpoint_external_root_faithful_witness :
  ∃ rec, submitted.2 = Ok rec ∧ a_root (car_anchor rec) = "0xfeed" ∧ latest_external_checkpoint submitted.1 "r" = Ok (Some rec).
Proof.
  assert (match submitted.2 with Ok rec => bool_decide (a_root (car_anchor rec) = "0xfeed") | Err _ => false end = true) as Hb by (vm_compute; reflexivity).
  destruct (checkpoint_external_root_faithful "r" " 0xfeed " "http://rpc" 5 8 two_nodes two_contents two_nodes_ms_holds) as (t' & r & Hc & Hr).
  rewrite Hc in *. cbn [fst snd] in *. destruct r as [rec|e]; [|discriminate Hb].
  exists rec. split; [reflexivity|]. split; [exact (bool_decide_eq_true_1 _ Hb)|]. exact (proj1 (proj2 (proj2 (proj2 (proj2 (proj2 Hr)))))).
Defined.

(** ** Routes *)

Definition note : AssertBody := {| ab_repo := "r"; ab_content := "fresh"; ab_kind := None; ab_valid_from := None |}.
Abbreviation assert_run := (http_assert clock fs readable saves app "acme" as_ann note (gateway two_nodes)).


Definition old_prefix : string := to_hex (compute_id node_old).
Abbreviation neighbors_run :=
  (http_neighbors clock filter_clock fs readable saves app "acme" (<["repo" := "r"]> {["id" := old_prefix]}) as_ann (gateway two_nodes)).

Lemma neighbor_routes_confined_witness :
  gw_store neighbors_run.1 = two_nodes ∧ ∃ sub m, membership (gw_control neighbors_run.1) sub "acme" = Some m ∧ role_allows m (repo_resource "r") Read = true.
Proof.
  assert (is_ok neighbors_run.2 = true) as Hk by (vm_compute; reflexivity).
  destruct neighbors_run as [s' [v|e]] eqn:E; [|discriminate Hk].
  destruct (neighbor_routes_confined clock filter_clock fs readable saves app "acme" (<["repo" := "r"]> {["id" := old_prefix]}) as_ann (gateway two_nodes)
              s' v two_contents "r" two_nodes_ms_holds) as (Hs & sub & m & _ & _ & _ & Hm & Hr & _).
  - vm_compute. reflexivity.
  - left. exact E.
  - split; [exact Hs|]. exists sub, m. split; [exact Hm|exact Hr].
Defined.

(** The owner of the organisation, with a token of the gateway, asks for a write. *)
Definition oidc_app : Config := {|
  cf_embedder := None; cf_signing_key := gw_key; cf_org_id := "acme"; cf_store_path := "/store"; cf_chain_rpc := None; cf_issuer := "gw";
  cf_oidc := Some {| ov_issuer := "idp"; ov_audience := "mem"; ov_by_kid := ∅; ov_anonymous := ["id-token"] |};
  cf_connect_secret := Some "secret"; cf_allow_dev_auth := false; cf_control_path := "/c/control.json"; cf_team_allowlist_path := None |}.
Definition owner : Membership := {| m_sub := "carol"; m_org := "acme"; m_role := OrgOwner; m_scopes := []; m_parent := None |}.
Definition owned : Gw := with_control {| orgs := [acme]; memberships := [owner] |} ∅ (gateway two_nodes).
Definition presents (token : string) : HeaderMap := λ h, if bool_decide (h = "authorization") then Some ("Bearer " +:+ token) else None.
Abbreviation minting := (connect_token clock oidc_app (presents "id-token") owned).
Definition minted : string := match minting.2 with Ok v => default "" (jget v "connect_token" ≫= as_str) | Err _ => "" end.
Abbreviation byom_by token := (byom clock filter_clock fs readable saves "panicked" oidc_app "carol" (presents token) "assert" owned).

Lemma connect_token_never_writes_witness :
  is_ok (byom_by minted).2 = true ∧ gw_store (byom_by minted).1 = two_nodes ∧
  bool_decide (dom (kv_view (kv (gw_store (byom_by "id-token").1)) NODES) = dom (kv_view (kv two_nodes) NODES)) = false.
Proof.
  split; [vm_compute; reflexivity|]. split; [|vm_compute; reflexivity].
  assert (is_ok minting.2 = true) as Hk by (vm_compute; reflexivity).
  assert (match minting.2 with Ok v => jget v "connect_token" | Err _ => None end = Some (JString minted)) as Ht by (vm_compute; reflexivity).
  destruct minting as [s1 [v|e]] eqn:Em; [|discriminate Hk]. destruct (byom_by minted) as [s' r] eqn:Eb.
  apply (connect_token_never_writes clock filter_clock fs readable saves "panicked" oidc_app (presents "id-token") owned s1 v minted "carol" (presents minted)
           "assert" owned s' r []).
  - exact Em.
  - exact Ht.
  - intros oidc now [= <-]. vm_compute. reflexivity.
  - intros sub. vm_compute. reflexivity.
  - vm_compute. reflexivity.
  - exact Eb.
Defined.

(** ** The worker *)

(** A machine with no mirrors that can reach every remote *)
#[export] Instance sample_host : Host unit := {|
  host_git args w := (w, if bool_decide (head args = Some "ls-remote") then prints (line (sha "a" +:+ " HEAD")) else Err "no git");
  is_dir _ _ := false;
  create_dir_all _ w := (w, Ok tt);
  read_dir _ _ := None;
  read_to_string _ _ := None;
  host_worktree _ := sample_worktree;
|}.
#[export] Instance sample_host_laws : HostLaws (W := unit).
Proof. by intros args w _. Qed.

Definition queued : list PushEvent := [{| pe_repo := "gamma"; pe_git_ref := "refs/heads/main"; pe_after := sha "b" |}].

Lemma reconcile_complete_witness :
  ∃ q', reconcile_into_queue two_nodes queued "/mirrors" tt = (tt, Ok q') ∧ pe_repo <$> q' = ["gamma"; "alpha"; "citrate-federation"] ∧
        "alpha" ∈ pe_repo <$> q'.
Proof.
  destruct (reconcile_complete two_nodes queued "/mirrors" tt) as (added & Hr & Ha & _ & _ & Hall).
  exists (queued ++ added). split; [exact Hr|]. split; [rewrite Ha; vm_compute; reflexivity|].
  apply (Hall "alpha" (sha "a")).
  - apply (bool_decide_eq_true_1 _). vm_compute. reflexivity.
  - vm_compute. reflexivity.
  - intros E. vm_compute in E. discriminate E.
Defined.
