(* ===== verification/WitnessFed.v ===== *)
(** * Transport, federation graph and chain walk at concrete inputs

    Stand-ins for the wire formats of a peer, one connection that presents a credential and
    one that does not, a manifest of two repositories, and a chain of three blocks that is
    walked in two runs and re-organised. *)

From S2P Require Import Prelude Bytes Externs Text Str Belnap Identity Node Float Edge Index Hnsw Grant AuditLog Kv Shred Store StoreSpec StoreContents.
From S2P Require Import Supersession StoreInterface Assert Sync SyncAnchor Query QueryProps Search Display Chunk SyncChain Transport TransportProps.
From S2P Require Import Git Docs Ingest IngestBuild IngestProps ChainIngest ChainIngestProps Federation Gateway.
From S2P Require Import Sample Witness WitnessRead WitnessIngest WitnessGateway.

(** ** Instances *)

#[export] Instance ResourceScope_codec : Codec ResourceScope :=
  inj_codec (λ r, (resource_id r, Grant.can_read r, can_write r)) (λ '(i, r, w), Some {| resource_id := i; Grant.can_read := r; can_write := w |}) ltac:(by intros []).
#[export] Instance PolicyProfile_codec : Codec PolicyProfile :=
  inj_codec PolicyProfile_debug (from_tag [ReadOnly; Guided; Operator; Maintainer] PolicyProfile_debug) ltac:(by intros []).
#[export] Instance DelegationStep_codec : Codec DelegationStep :=
  inj_codec (λ d, (delegator d, at_ms d)) (λ '(d, a), Some {| delegator := d; at_ms := a |}) ltac:(by intros []).
#[export] Instance CapabilityGrant_codec : Codec CapabilityGrant :=
  inj_codec (λ g, (g_id g, g_issuer g, g_recipient g, g_allowed_resources g, g_policy g, g_expires_at_ms g, g_revoked g, g_delegation_chain g, g_issuer_pubkey g, g_signature g))
    (λ '(i, s, r, l, p, x, v, d, k, n), Some {| g_id := i; g_issuer := s; g_recipient := r; g_allowed_resources := l; g_policy := p; g_expires_at_ms := x;
       g_revoked := v; g_delegation_chain := d; g_issuer_pubkey := k; g_signature := n |}) ltac:(by intros []).
#[export] Instance serde_grant : Serde CapabilityGrant := {| to_vec := codec_to_vec Byte.x50; from_slice := codec_from_slice Byte.x50 |}.
#[export] Instance sample_grant_laws : GrantSerdeLaws.
Proof.
  intros g b Hb. cbn [to_vec serde_grant] in Hb. assert (b = Byte.x50 :: as_bytes (hex_enc (encode g))) as -> by (unfold codec_to_vec in Hb; congruence).
  split; [apply codec_round|done].
Qed.
#[export] Instance SyncBundle_codec : Codec SyncBundle :=
  inj_codec (λ b, (s_repo b, s_exported_at_ms b, s_nodes b, s_edges b))
    (λ '(r, x, n, e), Some {| s_repo := r; s_exported_at_ms := x; s_nodes := n; s_edges := e |}) ltac:(by intros []).
#[export] Instance sample_bundle_text : BundleText := {| bundle_to_string b := Ok (code_text b); bundle_from_str := text_code |}.
#[export] Instance sample_http : Http := {| http_get _ _ := Err "refused"; http_post _ _ _ := Err "refused" |}.
#[export] Instance EventCursor_codec : Codec EventCursor :=
  inj_codec (λ c, (cu_chain_id c, cu_next_block c)) (λ '(i, n), Some {| cu_chain_id := i; cu_next_block := n |}) ltac:(by intros []).
#[export] Instance serde_cursor : Serde EventCursor := {| to_vec := codec_to_vec Byte.x44; from_slice := codec_from_slice Byte.x44 |}.
#[export] Instance sample_cursor_laws : CursorSerdeLaws (T := sample_store).
Proof. intros cu. eexists. split; [done|]. split; [apply codec_round|]. by apply other_tag_no_envelope. Qed.

(** ** A peer *)

Definition peer_grant : CapabilityGrant :=
  sign_with {| g_id := "p1"; g_issuer := "root"; g_recipient := "b";
               g_allowed_resources := [{| resource_id := audience_resource "a"; Grant.can_read := true; can_write := false |};
                                       {| resource_id := "repo:r/memory"; Grant.can_read := true; can_write := false |}];
               g_policy := Operator; g_expires_at_ms := 1000; g_revoked := false; g_delegation_chain := [];
               g_issuer_pubkey := []; g_signature := [] |} (le_array 32 99).
Definition peer_a : PeerAuth := {| pa_trust_root := g_issuer_pubkey peer_grant; pa_audience := "a"; pa_revoked_ids := ∅ |}.
Definition arriving (text : string) : Conn :=
  {| cn_in := as_bytes text; cn_end := None; cn_out := []; cn_write_fault := None; cn_setup := None |}.
Definition peer_cred : string := default "" (rok (encode_credential peer_grant)).
Definition with_cred : Conn :=
  arriving ("GET /bundle/r HTTP/1.1" +:+ crlf +:+ "authorization: Bearer " +:+ peer_cred +:+ crlf +:+ crlf).
Definition without_cred : Conn := arriving ("GET /bundle/r HTTP/1.1" +:+ crlf +:+ crlf).
Definition lossy (_ : bytes) : string := "invalid utf-8".

Definition credited (c : Conn) : bool :=
  match snd (read_request c) with
  | Ok (Request _ _ h) => match hd_credential h ≫= verify_credential peer_a 8 with Some _ => true | None => false end
  | _ => false
  end.
Lemma credited_iff c : credited c = true ↔ ∃ g, TransportProps.presents peer_a 8 c g.
Proof.
  unfold credited, TransportProps.presents. destruct (read_request c) as [c1 [[| |m p h]|]]; cbn [snd].
  1,2,4: split; [done|by intros (g & ? & ? & ? & ? & ? & [=] & _)].
  destruct (hd_credential h) as [v|] eqn:Hh; unfold mbind, option_bind.
  - destruct (verify_credential peer_a 8 v) as [g|] eqn:Hv; (split; [|]); try done.
    + intros _. by exists g, c1, m, p, h, v.
    + intros (g' & ? & ? & ? & ? & ? & [=] & Hh' & Hg). subst. rewrite Hh in Hh'. injection Hh' as <-. by rewrite Hg in Hv.
  - split; [done|]. intros (g & ? & ? & ? & ? & ? & [=] & Hh' & _). subst. congruence.
Qed.

(** The same request is answered with the tenant when it carries a credential, and with an
    error when it does not. *)
Abbreviation open_run := (handle_conn lossy peer_a 8 (with_cred, two_nodes)).
Abbreviation shut_run := (handle_conn lossy peer_a 8 (without_cred, two_nodes)).
Lemma handle_conn_gated_witness :
  (snd open_run = Ok (Some "GET /bundle/r") ∧ ∃ g, TransportProps.presents peer_a 8 with_cred g ∧ honoured peer_a 8 g) ∧
  (snd shut_run = Ok (Some "GET /bundle/r (401)") ∧ (fst shut_run).2 = two_nodes ∧ TransportProps.refused without_cred (fst shut_run).1).
Proof.
  split.
  - assert (snd open_run = Ok (Some "GET /bundle/r")) as Hl by (vm_compute; reflexivity). split; [exact Hl|].
    destruct (open_run) as [[c' t'] r] eqn:E.
    destruct (handle_conn_gated lossy peer_a 8 with_cred two_nodes c' t' r E) as [(Hno & _)|(g & Hp & Hh & _)]; [|exists g; split; assumption].
    exfalso. apply Hno, credited_iff. vm_compute. reflexivity.
  - assert (snd shut_run = Ok (Some "GET /bundle/r (401)")) as Hl by (vm_compute; reflexivity). split; [exact Hl|].
    destruct (shut_run) as [[c' t'] r] eqn:E.
    destruct (handle_conn_gated lossy peer_a 8 without_cred two_nodes c' t' r E) as [(_ & Ht & Hr & _)|(g & Hp & _)]; [split; assumption|].
    assert (credited without_cred = false) as Hc by (vm_compute; reflexivity).
    assert (credited without_cred = true) as Hc' by (apply credited_iff; exists g; assumption). rewrite Hc in Hc'. discriminate Hc'.
Defined.

(** ** A manifest *)

Definition repo_a : ManifestRepo :=
  {| mr_name := as_bytes "alpha"; mr_tier := as_bytes "0"; mr_role := as_bytes "chain = one"; mr_visibility := []; mr_notes := as_bytes "# not a comment" |}.
Definition repo_b : ManifestRepo :=
  {| mr_name := as_bytes "beta"; mr_tier := []; mr_role := []; mr_visibility := as_bytes "[private]"; mr_notes := [] |}.
Definition two_deps : list DriftDep := [{| dd_consumer := as_bytes "alpha"; dd_dep_repo := as_bytes "beta" |}; {| dd_consumer := as_bytes "beta"; dd_dep_repo := as_bytes "gone" |}].
Definition manifest_text : string := string_of_bytes (render_manifest [repo_a; repo_b] two_deps).

Lemma value_ok_dec v : bool_decide (0x22 ∈ chars v) = false → bool_decide (newline ∈ v) = false → bool_decide (carriage_return ∈ v) = false → value_ok v.
Proof. intros ?%bool_decide_eq_false_1 ?%bool_decide_eq_false_1 ?%bool_decide_eq_false_1. by split_and!. Qed.

Lemma federation_ingested_witness : ∃ t' rep, ingest_federation_meta_str manifest_text (constant "m" point) 8 two_nodes = (t', Ok rep) ∧
  mt_tenants rep = 2%nat ∧ (mt_depends_on rep + mt_skipped_deps rep)%nat = 2%nat.
Proof.
  assert (parse_manifest (as_bytes manifest_text) = ([repo_a; repo_b], two_deps)) as Hp by (vm_compute; reflexivity).
  pose proof (federation_ingested manifest_text (constant "m" point) 8 two_nodes two_contents two_nodes_ms_holds (proj2 two_nodes_holds) (constant_total "m")) as Hx.
  rewrite Hp in Hx. destruct Hx as (t' & rep & c' & Hr & _ & _ & _ & Hn & Hd & _). exists t', rep. by split_and!.
Defined.

(** ** A chain *)

Definition tx1 : TxRecord := {| tx_hash := "0xt1"; tx_from := "0xa"; tx_to := Some "0xb"; tx_value_wei := 7 |}.
Definition blk (n : Z) (h p : string) (txs : list TxRecord) : BlockRecord :=
  {| bk_number := n; bk_hash := h; bk_parent_hash := p; bk_timestamp_secs := n; bk_txs := txs |}.
Definition three_blocks : gmap Z BlockRecord :=
  <[0 := blk 0 "0xh0" "0x" []]> (<[1 := blk 1 "0xh1" "0xh0" [tx1]]> (<[2 := blk 2 "0xh2" "0xh1" []]> ∅)).
Definition three : BlockSource := FixtureBlockSource three_blocks.
Lemma three_honest : honest_source three.
Proof.
  intros n b [= Hb]. unfold three_blocks in Hb. rewrite !lookup_insert, lookup_empty in Hb.
  repeat case_decide; simplify_eq; done.
Qed.


(** A chain that is re-organised and re-organised back: the checkpoint that won first is
    made active again by its second commit, its supersession of the other one would close a
    cycle and is rejected, and both stay active at the same height. *)
Definition single (h : string) : BlockSource := FixtureBlockSource {[0 := blk 0 h "0x" []]}.
Definition walk_single (h : string) (o : option (sample_store * result IngestError ChainEventReport)) : option (sample_store * result IngestError ChainEventReport) :=
  '(t, _) ← o; walk_events (single h) 5 ∅ (constant "m" point) 8 (Some 0) 0 t.
Lemma reorg_back_leaves_two : match walk_single "0xA" (walk_single "0xB" (walk_single "0xA" (Some (empty_store false, Err (ChainError EmptyString))))) with
  | Some (t, Ok rep) => ev_supersessions_rejected rep = 1%nat ∧
      rmap (λ ns, length ns) (active_chain_nodes t Node.ChainCheckpoint) = Ok 2%nat
  | _ => False
  end.
Proof. vm_compute. split; reflexivity. Qed.
