(* ===== verification/WitnessCorpus.v ===== *)
(** * A corpus from its sources to a store, and the processes

    Stand-ins for the formats of a corpus, one source with one document, and the theorems
    on chunking, building, verification and import at it; a key file, checkpoints, an
    import and a gateway in development mode for the theorems on the processes. *)

From S2P Require Import Prelude Bytes Externs Text Str Chars Belnap Identity Node Float Edge Frontmatter Index Grant Kv Shred Store StoreSpec StoreContents.
From S2P Require Import AuditLog Supersession StoreInterface Join Assert Sync SyncAnchor Query Display TransportProps Git Docs Chunk Ingest IngestBuild Control.
From S2P Require Import Corpus CorpusBuild CorpusImport CorpusBuildProps CorpusImportProps GwAuth Scene Gateway Rocks Daemon DaemonProps Sample Witness WitnessRead WitnessIngest WitnessGateway WitnessFed.

(** ** Instances *)

#[export] Instance sample_hex_text : HexText.
Proof.
  intros b x. cbn [hex_encode sample_hex]. induction b as [|y b IH]; [by intros ?%not_elem_of_nil|]. cbn [hex_enc].
  change (as_bytes (String ?a (String ?c ?s))) with (byte_of_ascii a :: byte_of_ascii c :: as_bytes s).
  intros [->|[->|Hx]%elem_of_cons]%elem_of_cons; [destruct y; first [by left|by right]..|by apply IH].
Qed.
Lemma hex_trimmed b : trimmed (as_bytes (hex_enc b)).
Proof.
  assert (∀ x, x ∈ as_bytes (hex_enc b) → is_ascii_byte x = true ∧ is_whitespace (byte_Z x) = false) as Hl by (intros x Hx; by eapply hex_byte_plain, (hex_encode_digits b)).
  set (l := as_bytes (hex_enc b)) in *. unfold trimmed, chars. rewrite chunks_ascii by (apply Forall_forall; intros x Hx; by apply Hl).
  rewrite <- list_fmap_compose, fmap_head, fmap_last. apply Forall_app. split.
  - destruct l as [|x l]; [constructor|]. apply Forall_singleton, Hl. by left.
  - destruct (last l) as [x|] eqn:E; [|constructor]. apply Forall_singleton, Hl. by apply last_Some_elem_of.
Qed.

#[export] Instance FileEntry_codec : Codec FileEntry :=
  inj_codec (λ e, (fe_path e, fe_sha256 e, fe_bytes e, fe_chunks e)) (λ '(p, s, b, c), Some {| fe_path := p; fe_sha256 := s; fe_bytes := b; fe_chunks := c |}) ltac:(by intros []).
#[export] Instance SkippedEntry_codec : Codec SkippedEntry :=
  inj_codec (λ e, (sk_path e, sk_reason e)) (λ '(p, r), Some {| sk_path := p; sk_reason := r |}) ltac:(by intros []).
#[export] Instance SourceEntry_codec : Codec SourceEntry :=
  inj_codec
    (λ e, (sy_id e, sy_tenant e, sy_repo e, sy_repo_path e, sy_upstream e, sy_commit e, sy_license e, sy_licence_cleared e, sy_licence_note e,
           sy_attribution e, sy_included e, sy_excluded_reason e, sy_files e, sy_skipped e))
    (λ '(i, t, r, p, u, c, l, cl, n, a, inc, x, f, s),
       Some {| sy_id := i; sy_tenant := t; sy_repo := r; sy_repo_path := p; sy_upstream := u; sy_commit := c; sy_license := l; sy_licence_cleared := cl;
               sy_licence_note := n; sy_attribution := a; sy_included := inc; sy_excluded_reason := x; sy_files := f; sy_skipped := s |}) ltac:(by intros []).
#[export] Instance VectorsEntry_codec : Codec VectorsEntry :=
  inj_codec (λ v, (ve_file v, ve_sha256 v, ve_encoding v, ve_model v, ve_dim v, ve_weights_sha256 v))
    (λ '(f, s, e, m, d, w), Some {| ve_file := f; ve_sha256 := s; ve_encoding := e; ve_model := m; ve_dim := d; ve_weights_sha256 := w |}) ltac:(by intros []).
#[export] Instance TenantEntry_codec : Codec TenantEntry :=
  inj_codec (λ t, (te_tenant t, te_file t, te_sha256 t, te_nodes t, te_edges t, te_vectors t))
    (λ '(t, f, s, n, e, v), Some {| te_tenant := t; te_file := f; te_sha256 := s; te_nodes := n; te_edges := e; te_vectors := v |}) ltac:(by intros []).
#[export] Instance Manifest_codec : Codec Manifest :=
  inj_codec
    (λ m, (mf_format m, mf_name m, mf_source_date_ms m, mf_builder m, mf_spec_sha256 m, mf_skills_lock_sha256 m, mf_sources m, mf_tenants m, mf_bundle_digest m))
    (λ '(f, n, d, b, s, l, so, t, g),
       Some {| mf_format := f; mf_name := n; mf_source_date_ms := d; mf_builder := b; mf_spec_sha256 := s; mf_skills_lock_sha256 := l;
               mf_sources := so; mf_tenants := t; mf_bundle_digest := g |}) ltac:(by intros []).

#[export] Instance sample_sha256 : Sha256 := λ b, le_array 32 (checksum b).
#[export] Instance serde_manifest : Serde Manifest := {| to_vec := codec_to_vec Byte.x4d; from_slice := codec_from_slice Byte.x4d |}.
(** The text of a manifest may have line ends around it. *)
#[export] Instance manifest_json_text : JsonText Manifest := {|
  to_string_pretty m := Ok (code_text m);
  from_text s := text_code (string_of_bytes (filter (λ x, x ≠ newline) (as_bytes s)));
|}.
#[export] Instance sample_manifest_laws : ManifestLaws.
Proof.
  intros m s. cbn [to_string_pretty from_text manifest_json_text]. intros [= <-]. rewrite as_bytes_app. split.
  - rewrite filter_app. replace (filter (λ x, x ≠ newline) (as_bytes eol)) with (@nil byte) by done. rewrite app_nil_r.
    assert (filter (λ x, x ≠ newline) (as_bytes (code_text m)) = as_bytes (code_text m)) as ->.
    { apply list_filter_all. intros x Hx%hex_enc_ascii ->. by vm_compute in Hx; destruct Hx. }
    unfold string_of_bytes, as_bytes. rewrite String.string_of_list_byte_of_string. apply text_code_text.
  - apply utf8_valid_app; [apply hex_enc_utf8|done].
Qed.

(** A node or an edge as an object: the bytes the corpus rewrites, and the rest *)
Definition rest_of {A} `{Codec A} (m : gmap string Value) : result string A :=
  match m !! "rest" with Some (JString s) => text_code s | _ => Err "missing field" end.
#[export] Instance node_to_value : ToValue MemoryNode := λ n, Ok (JObject {["content" := bytes_value (n_content n); "rest" := JString (code_text n)]}).
#[export] Instance edge_to_value : ToValue Edge := λ e,
  Ok (JObject {["from" := bytes_value (array_bytes (e_from e)); "to" := bytes_value (array_bytes (e_to e)); "rest" := JString (code_text e)]}).
#[export] Instance node_from_json : FromJson MemoryNode := {|
  from_json_str := text_code; from_value v := match v with JObject m => rest_of m | _ => Err "expected node" end |}.
#[export] Instance edge_from_json : FromJson Edge := {|
  from_json_str := text_code; from_value v := match v with JObject m => rest_of m | _ => Err "expected edge" end |}.
#[export] Instance sample_value_laws : ValueLaws.
Proof.
  split.
  - intros n _. eexists. split; [done|]. split; [done|]. cbn [from_value node_from_json]. unfold rest_of. rewrite lookup_insert_ne, lookup_singleton_eq by done. apply text_code_text.
  - intros e. eexists. split; [done|]. split; [done|]. split; [done|]. cbn [from_value edge_from_json]. unfold rest_of.
    rewrite !lookup_insert_ne, lookup_singleton_eq by done. apply text_code_text.
Qed.

(** The text of a compact bundle, through the bundle *)
Definition compact_text (c : CompactBundle) : result string string :=
  map_err CorpusError_display
    (let? ns := try_map expand_node (cb_nodes c) in
     let? es := try_map expand_edge (cb_edges c) in
     Ok (code_text {| s_repo := cb_repo c; s_exported_at_ms := cb_exported_at_ms c; s_nodes := ns; s_edges := es |})).
Definition text_compact (s : string) : result string CompactBundle :=
  let? b := text_code (A := SyncBundle) s in
  map_err CorpusError_display
    (let? ms := try_map compact_node (s_nodes b) in
     let? es := try_map compact_edge (s_edges b) in
     Ok {| cb_repo := s_repo b; cb_exported_at_ms := s_exported_at_ms b; cb_nodes := ms; cb_edges := es |}).
#[export] Instance sample_compact : CompactText := {| compact_to_string := compact_text; compact_from_str := text_compact |}.
#[export] Instance sample_compact_laws : CompactTextLaws.
Proof.
  intros repo at_ms ns es nodes edges Hj Hn He c. exists (code_text {| s_repo := repo; s_exported_at_ms := at_ms; s_nodes := ns; s_edges := es |}).
  cbn [compact_to_string compact_from_str sample_compact]. split_and!; [| |apply hex_enc_utf8|apply hex_trimmed].
  - unfold compact_text, c. cbn [cb_nodes cb_edges cb_repo cb_exported_at_ms].
    rewrite (try_map_ok expand_node nodes ns), (try_map_ok expand_edge edges es); [done| |].
    + apply Forall2_flip. eapply Forall2_impl; [exact He|]. intros e m Hm. destruct (expand_compact_edge e) as (m' & Hm' & Hx). congruence.
    + apply Forall2_flip. rewrite Forall2_lookup in Hn |- *. intros i. specialize (Hn i). destruct (ns !! i) as [n|] eqn:En, (nodes !! i) as [m|]; inversion Hn; subst; constructor.
      rewrite Forall_forall in Hj. destruct (expand_compact_node n (Hj n (list_elem_of_lookup_2 _ _ _ En))) as (m' & Hm' & Hx). congruence.
  - unfold text_compact. rewrite text_code_text. cbn [rbind s_nodes s_edges s_repo s_exported_at_ms]. by rewrite (try_map_ok compact_node ns nodes), (try_map_ok compact_edge es edges).
Qed.

(** ** A source with one document *)

Definition docs_source : SourceSpec :=
  {| ss_id := "notes"; ss_tenant := "refs"; ss_kind := DocsSource; ss_root := "notes"; ss_repo := None; ss_repo_path := ""; ss_upstream := "here";
     ss_license := "MIT"; ss_licence_cleared := true; ss_licence_note := None; ss_attribution := None; ss_commit := Some "c1"; ss_optional := false;
     ss_extensions := []; ss_include := ["a.md"]; ss_exclude_dirs := []; ss_require_frontmatter := ∅; ss_skills_lock := None; ss_lock_source := None |}.
#[export] Instance sample_toml : Toml := {|
  spec_from_toml _ := Ok {| cs_version := SPEC_VERSION; cs_name := "k"; cs_max_chunk_chars := 200; cs_sources := [docs_source] |};
  lock_from_toml _ := Err "expected lock";
|}.

(** Regular files and directories *)
Definition disk (dirs : list string) (files : gmap string bytes) : Files := {|
  symlink_meta p := if bool_decide (p ∈ dirs) then Ok (Directory, 0)
                    else match files !! p with Some b => Ok (RegularFile, Z.of_nat (length b)) | None => Err (true, "no such file") end;
  read_up_to p n := match files !! p with
                    | Some b => Ok (if Z.of_nat (length b) <=? n then b else take (Z.to_nat n) b)
                    | None => Err "no such file"
                    end;
  read_file p := match files !! p with Some b => Ok b | None => Err "no such file" end;
  dir_entries _ := Ok [];
  path_exists _ := false;
|}.
Lemma disk_shows dirs files : Forall (λ p, files !! p = None) dirs → shows (disk dirs files) files.
Proof.
  intros Hd p b Hp. rewrite Forall_forall in Hd. split; cbn.
  - rewrite bool_decide_eq_false_2; [by rewrite Hp|]. intros Hin%Hd. congruence.
  - intros n Hn. rewrite Hp. destruct (Z.leb_spec (Z.of_nat (length b)) n); [|done]. by rewrite take_ge by lia.
Qed.

Definition sources : Files := disk ["/s/notes"] {["/s/notes/a.md" := as_bytes ("# A" +:+ eol +:+ "text" +:+ eol)]}.
Abbreviation build_notes := (build_corpus sources "spec" {| bo_sources_base := "/s"; bo_source_date_ms := 5 |}).
Definition no_corpus : BuiltCorpus :=
  {| bc_manifest := {| mf_format := ""; mf_name := ""; mf_source_date_ms := 0; mf_builder := ""; mf_spec_sha256 := ""; mf_skills_lock_sha256 := None;
                       mf_sources := []; mf_tenants := []; mf_bundle_digest := "" |}; bc_tenants := []; bc_vector_files := []; bc_skills_lock := None |}.
Definition built : BuiltCorpus := default no_corpus (rok build_notes).
Definition writes : list FsWrite := (write_corpus (disk [] ∅) (λ _, None) built "/c" []).1.
Definition installed : Files := disk ["/c"] (written_files writes).

Lemma build_ok : build_notes = Ok built.
Proof. vm_compute. reflexivity. Qed.
Lemma writes_ok : write_corpus (disk [] ∅) (λ _, None) built "/c" [] = (writes, Ok tt).
Proof. vm_compute. reflexivity. Qed.
Definition manifest_json : string := default "" (rok (manifest_to_json (bc_manifest built))).
Lemma manifest_json_ok : manifest_to_json (bc_manifest built) = Ok manifest_json.
Proof. vm_compute. reflexivity. Qed.

Lemma ok_inj {E A} (x y : A) : Ok (E := E) x = Ok y → x = y.
Proof. by intros [=]. Qed.

Lemma chunk_text_partition_witness : ∃ pss,
  Forall2 (λ s ps, mjoin ps = mjoin s.2.*1 ∧ Forall (λ p, char_count (trim p) ≤ 4)%nat ps) (sections (as_bytes "one two three")) pss ∧
  chunk_text (as_bytes "t") (as_bytes "one two three") 7 4 = pieces_chunks 7 (crumbed (as_bytes "t") (sections (as_bytes "one two three")) pss) ∧
  (λ c, (k_text c, k_byte_start c)) <$> chunk_text (as_bytes "t") (as_bytes "one two three") 7 4 =
    [(as_bytes "one ", 7%nat); (as_bytes "two ", 11%nat); (as_bytes "thre", 15%nat); (as_bytes "e", 19%nat)].
Proof.
  destruct (chunk_text_partition (as_bytes "t") (as_bytes "one two three") 7 4) as (pss & Hf & _ & Hc); [lia|].
  exists pss. split; [exact Hf|]. split; [exact Hc|]. vm_compute. reflexivity.
Defined.

Lemma built_corpus_verifies_witness : ∃ vc, verify_corpus installed "/c" = Ok vc ∧ vc_manifest vc = bc_manifest built ∧
  te_tenant <$> mf_tenants (bc_manifest built) = ["refs"].
Proof.
  destruct (built_corpus_verifies sources "spec" {| bo_sources_base := "/s"; bo_source_date_ms := 5 |} (λ _, None) (disk [] ∅) "/c" writes installed built)
    as (vc & Hv & Hm & _).
  - exact build_ok.
  - exact writes_ok.
  - apply disk_shows. apply Forall_singleton. vm_compute. reflexivity.
  - reflexivity.
  - apply (bool_decide_unpack _). vm_compute. exact I.
  - intros s Hs. rewrite (ok_inj _ _ (eq_trans (eq_sym Hs) manifest_json_ok)). apply (bool_decide_unpack _). vm_compute. exact I.
  - intros b Hb. vm_compute in Hb. discriminate Hb.
  - exists vc. split; [exact Hv|]. split; [exact Hm|]. vm_compute. reflexivity.
Defined.

(** ** Its import *)

#[export] Instance sample_half : Half := {| f16_to_le_bytes _ := (Byte.x00, Byte.x00); f16_from_le_bytes _ _ := F32 0 |}.
#[export] Instance sample_hash_meta : HashMetaLaws (T := sample_store).
Proof.
  intros b. cbn [ms_meta_value dag_store_laws hex_encode sample_hex]. destruct b as [|x b]; [done|]. cbn [hex_enc].
  change (as_bytes (String ?a ?s)) with (byte_of_ascii a :: as_bytes s). apply other_tag_no_envelope. by destruct x.
Qed.

Definition nothing_verified : VerifiedCorpus := {| vc_manifest := bc_manifest no_corpus; vc_tenants := []; vc_vectors := ∅ |}.
Definition refs_corpus : VerifiedCorpus := default nothing_verified (rok (verify_corpus installed "/c")).
Lemma refs_verified : verify_corpus installed "/c" = Ok refs_corpus.
Proof. vm_compute. reflexivity. Qed.
Lemma refs_no_vectors : vc_vectors refs_corpus = ∅.
Proof. vm_compute. reflexivity. Qed.
Lemma sample_rng_total : total_rng (R := Z).
Proof. intros r. by eexists _, _. Qed.
Lemma refs_finite : finite_vectors refs_corpus.
Proof. unfold finite_vectors. rewrite refs_no_vectors. apply map_Forall_empty. Qed.
Lemma refs_readable : readable_vectors refs_corpus.
Proof. intros p v b i _ _ Hb. by rewrite refs_no_vectors, lookup_empty in Hb. Qed.
Lemma constant_finite : finite_embedder (constant "m" point).
Proof. intros text v. cbn. intros [= <-]. by repeat constructor. Qed.

Abbreviation importing_refs := (import_corpus_with (constant "m" point) None refs_corpus ((1, two_nodes), [])).

Lemma import_only_adds_witness : ∃ c', ms_holds (importing_refs).1.1.2 c' ∧ only_added refs_corpus two_contents c' ∧ size (corpus_ids refs_corpus) = 2%nat.
Proof.
  destruct (import_only_adds installed "/c" refs_corpus (constant "m" point) None 1 two_nodes two_contents []) as (c' & Hh & Ho).
  - exact refs_verified.
  - exact (proj1 two_nodes_holds).
  - exact constant_finite.
  - exact refs_finite.
  - exists c'. split; [exact Hh|]. split; [exact Ho|]. vm_compute. reflexivity.
Defined.

Lemma import_once_witness : ∃ r' t' log' rep c', importing_refs = (((r', t'), log'), Ok rep) ∧ ms_holds t' c' ∧
  (∀ p, p ∈ vc_tenants refs_corpus → recorded c' p ∧ (¬ recorded two_contents p → holds_bundle c' p.2)) ∧
  names (filter (λ p, ¬ recorded two_contents p) (vc_tenants refs_corpus)) = ["refs"].
Proof.
  destruct (import_once installed "/c" refs_corpus (constant "m" point) None 1 two_nodes two_contents []) as (r' & t' & log' & rep & c' & Hr & Hh & Hp & _).
  - exact refs_verified.
  - exact (proj1 two_nodes_holds).
  - exact (proj2 two_nodes_holds).
  - exact (constant_total "m").
  - exact sample_rng_total.
  - exact refs_finite.
  - exact refs_readable.
  - exists r', t', log', rep, c'. split; [exact Hr|]. split; [exact Hh|]. split; [exact Hp|]. vm_compute. reflexivity.
Defined.

(** A failure after the nodes of a tenant were merged leaves them in the store, although no
    event says that the tenant is done. *)
Inductive one_shot := Full | Spent.
#[export] Instance one_shot_rng : Rng one_shot := λ n r, match r with Full => (Spent, Ok (le_array n 3)) | Spent => (Spent, Err "no entropy") end.
Lemma failed_import_leaves_nodes :
  let '((rt, log), x) := import_corpus_with (constant "m" point) None refs_corpus ((Full, empty_store false), []) in
  rmap length (ms_all_nodes rt.2) = Ok 2%nat ∧ is_ok x = false ∧ forallb (λ ev, match ev with TenantDone _ => false | _ => true end) log = true.
Proof. vm_compute. split_and!; reflexivity. Qed.

(** ** The daemon *)

Import SampleRocks.

Definition key_file : KeyFs := {|
  kf_open p := if decide (p = "/k") then Ok {| of_metadata := Ok {| fm_is_file := true; fm_uid := 501; fm_mode := 0x8180 |};
                                               of_read := Ok (as_bytes (hex_enc (replicate 32 Byte.x07) +:+ eol)) |}
               else Err "No such file or directory (os error 2)";
  kf_euid := 501;
|}.
Definition key_env : Environ := λ k, if decide (k = STORE_KEY_FILE_ENV) then Some "/k" else None.
Lemma named_key_file_decides_witness :
  (daemon_identity key_env key_file (3 : Z)).1 = 3 ∧ ∃ sk raw, (daemon_identity key_env key_file (3 : Z)).2 = Ok sk ∧ holds_key key_file "/k" raw ∧ length raw = 32%nat.
Proof.
  pose proof (named_key_file_decides key_env key_file "/k" 3 _ _ eq_refl (surjective_pairing (daemon_identity key_env key_file (3 : Z)))) as [Hr Hx].
  split; [exact Hr|]. destruct ((daemon_identity key_env key_file (3 : Z)).2) as [sk|e] eqn:E.
  - destruct Hx as (raw & Hk & Hl & _). by exists sk, raw.
  - vm_compute in E. discriminate E.
Defined.

Definition at_time (t : Z) : CkptIo :=
  {| ci_mkdir := None; ci_now := Some t; ci_read_dir := None; ci_entry_fails _ := false; ci_remove_fails _ := false |}.
Definition attempts : list ((string → result StoreError unit) * CkptIo) :=
  [(λ _, Ok tt, at_time 999); (λ _, Err (Backend "no space left on device"), at_time 1000); (λ _, Ok tt, at_time 1001)].

#[export] Instance sample_disk : RocksDisk unit sample_db := {|
  db_open _ cfs k := (k, Ok (list_to_map ((λ cf, (cf, ∅)) <$> cfs)));
  db_repair _ k := (k, Ok tt);
|}.
Definition bge_env : Environ := λ k, if decide (k = "CITRATE_MEM_EMBED") then Some "BGE" else None.
Definition import_run : unit * list Value * Z :=
  import_corpus_main (D := sample_db) (R := Z) (Ok (constant "m" point)) bge_env installed (λ _, Err "No such file or directory (os error 2)") ["db"; "/c"] 1 1 tt.
Lemma import_run_code : import_run.2 = 0.
Proof. vm_compute. reflexivity. Qed.
Lemma triple_eta {A B C} (x : A * B * C) : x = (x.1.1, x.1.2, x.2).
Proof. by destruct x as [[] ?]. Qed.
Lemma import_command_reports_witness : import_run.2 = 0 ∧ ∃ init v, import_run.1.2 = init ++ [v] ∧ line_event v = Some "done".
Proof.
  split; [exact import_run_code|].
  destruct (import_command_reports (D := sample_db) (R := Z) (Ok (constant "m" point)) bge_env installed (λ _, Err "No such file or directory (os error 2)") "db" "/c" [] 1 1 tt
              _ _ _ eq_refl (triple_eta import_run)) as (_ & init & v & Hl & Hv & _).
  rewrite import_run_code in Hv. exists init, v. split; [exact Hl|exact Hv].
Defined.

#[export] Instance jwks_text : JsonText JwkSet := {| to_string_pretty _ := Err "unsupported"; from_text s := if decide (s = "{}") then Ok {| jwks_keys := [] |} else Err "expected value at line 1 column 1" |}.
Definition dev_env : Environ := λ k,
  if decide (k = "MEM_GATEWAY_ASSERTER_SEED") then Some "seed"
  else if decide (k = "MEM_GATEWAY_ALLOW_DEV_AUTH") then Some "1"
  else if decide (k = "MEM_GATEWAY_DEV_AUTH_ACK") then Some "1"
  else if decide (k = "MEM_GATEWAY_CHAIN_RPC") then Some ""
  else None.
Definition dev_io : GwIo := {| gi_now := 5; gi_audit := no_fault; gi_control_read := None; gi_save := save_fine; gi_read _ := Err "No such file or directory (os error 2)"; gi_bge := Err "no model" |}.
Definition dev_world : GwWorld unit := {| gm_dbs := tt; gm_audit := {| d_log := None; d_head := None; d_tmp := None |}; gm_files := ∅ |}.
Definition dev_start := gateway_start (D := sample_db) (R := Z) dev_env dev_io ["mem-gateway"; "--bootstrap-owner"; "alice"] 1 dev_world.
Definition dev_headers : HeaderMap := λ k, if decide (k = "x-dev-sub") then Some "alice" else None.
Definition dev_accepted : bool :=
  match dev_start.2 with Ok (_, app, s) => is_ok (authenticate_principal (λ _, 7) app dev_headers s).2 | Err _ => false end.
Lemma dev_accepts : dev_accepted = true.
Proof. vm_compute. reflexivity. Qed.
Lemma dev_runs : ∃ w' bind app s g' p, dev_start = (w', Ok (bind, app, s)) ∧ authenticate_principal (λ _, 7) app dev_headers s = (g', Ok p).
Proof.
  pose proof dev_accepts as Hok. unfold dev_accepted in Hok. destruct dev_start as [w' [[[bind app] s]|c]]; [|discriminate Hok]. cbn [snd] in Hok.
  destruct (authenticate_principal (λ _, 7) app dev_headers s) as [g' [p|e]] eqn:E; [|discriminate Hok]. by exists w', bind, app, s, g', p.
Qed.
